(* ===== verification/_CoqProject ===== *)
-Q . S2P
Prelude.v
GlobalDefs.v
BitMap.v
BitMapOps.v
BitMapPar.v
CompressedStream.v
UTF8.v
TypeLattice.v
NodeValue.v
NodeShiftDiv.v
DivMagic.v
OS.v
ReservedSpace.v
VirtualSpace.v
CodeHeap.v
CodeHeapSpec.v
CodeHeapWalk.v
CodeHeapGrow.v
CodeHeapSafe.v
TaskQueue.v
TaskQueueSpec.v
TaskQueueSafe.v
ParkMiller.v
TaskQueueSet.v
Terminator.v
Stack.v
StackSpec.v
RegionTaskQueue.v
BlockOffsetTable.v
BlockOffsetSpec.v
BlockOffsetSplit.v
BlockOffsetContig.v
MarkWord.v
Synchronizer.v
SyncSafe.v
SyncSpec.v
MonitorLists.v
MonitorListsSpec.v
MonitorListsRun.v
FormatCheck.v
Signature.v
SignatureSpec.v
FormatCheckSpec.v
FormatCheckUtf8.v
