(* ===== verification/Prelude.v ===== *)
(** * A verification of the arithmetic and data-structure core of the HotSpot virtual machine

    The repository is an archive of HotSpot trees (JDK 5.0 and 6u21).  The
    development models the product build (assertions compiled out) of the JDK 6u21 tree on
    an LP64 machine; the paths below are relative to
    src/jdk6u21_src/hotspot/src/share/vm/.  The parts modelled are the ones every other
    part of the machine computes with, and whose correctness is invisible in the code that
    calls them: bit maps, the serialized streams of the debugging information, the string
    conversions, in the optimizing compiler the types of integers, the abstract
    interpretation of the integer operations and the strength reduction of divisions,
    the memory of the code cache from the reserved address range up to the blocks of the code
    heap, the queues, stacks and the termination protocol the threads of the parallel
    collectors share their work through, the table in which they find the blocks of a space,
    the locks and identity hashes of objects, and the format checks of class files with the readers that rely on them.

    ** Files and their correspondence to the code

    - [Prelude] (this file): machine integers of width [w] as [Z] with explicit conversions
      ([uwrap], [swrap], [u8] ... [s64]), arrays as lists with partial reads and writes
      ([arr_get], [arr_set]), counted loops ([each_range]), their lemmas, the hint
      databases and tactics all files share.
    - [GlobalDefs]: utilities/globalDefinitions.hpp and .cpp, the constants, alignment, bit
      fields, powers of two, logarithms, [lcm], the packing of [jlong] and of the class file
      bytes, [BasicType].  Every other file uses it.
    - [BitMap], [BitMapOps], [BitMapPar]: utilities/bitMap.hpp, bitMap.inline.hpp and
      bitMap.cpp.  A [BitMap] is the record of the class (an array of words and a size in
      bits); each operation is a function of the same name on it.  [BitMap] has all
      operations and the theorems on single bits and ranges, [BitMapOps] those on searches,
      set algebra, counting, iteration and resizing, [BitMapPar] the step relation of
      several threads in [par_set_bit], whose single-thread loop is in [BitMap].
    - [CompressedStream]: code/compressedStream.hpp and .cpp, the coding of integers in one
      to five bytes, the bit reversal for floats, the growing write stream and the read
      stream, as records of a buffer and a position.
    - [UTF8]: utilities/utf8.cpp, the classes UTF8 and UNICODE: conversions between modified
      UTF-8 and the UTF-16 of Java strings, with and without a bounded destination.
    - [TypeLattice]: opto/type.hpp and type.cpp, the types of the optimizing compiler with
      their meet, dual, join, filter, widening and narrowing; the values a type stands for
      ([gamma]).
    - [NodeValue], [NodeShiftDiv]: the [Value] methods of opto/addnode.cpp, subnode.cpp,
      mulnode.cpp, divnode.cpp and connode.cpp on ints and longs.  The classes of the code
      that share a method and specialize a helper (AddNode, SubNode, MulNode) are records of
      the helpers with a class of laws ([AddNode_laws], ...): the theorem on the shared
      method is proved once against the laws, and each node class is an instance.
    - [DivMagic]: opto/divnode.cpp, the magic numbers of [magic_int_divide_constants] and
      [magic_long_divide_constants] and the graphs that [transform_int_divide] and
      [transform_long_divide] build, with an evaluation of graphs.  What the code asks of the
      compiler phase (a transformed node, the type of a node) is the record [PhaseGVN] with
      the laws [PhaseGVN_laws]: a transformed node evaluates as the original, and the type
      of a node contains its value, which is what [NodeValue] proves of the types.
    - [OS]: what runtime/virtualspace.cpp asks of the platform, the class [OS] of calls
      (reserve, release, commit, uncommit, page sizes) with the laws [OS_laws] of their
      documentation, and os::page_size_for_region of runtime/os.cpp; [toy_os], with pages of
      32 bytes, shows that the laws can hold.
    - [ReservedSpace], [VirtualSpace]: runtime/virtualspace.hpp and virtualspace.cpp.  A
      reserved range with its alignments; a range of which three regions, two at small pages
      around one at large pages, are committed up to their high ends.
    - [CodeHeap]: memory/heap.hpp and heap.cpp: blocks of segments over two virtual spaces, one for
      the code and one for the segment map, and the list of free blocks in the memory of the
      blocks themselves.  [CodeHeapSpec] has the invariant (the blocks tile the
      committed segments) with allocation and freeing, [CodeHeapWalk] the segment map walk, the iteration and
      verification, [CodeHeapGrow] reservation and growing, and [CodeHeapSafe] puts them together as the client
      sees them: a sequence of calls after a successful reservation.
    - [TaskQueue]: utilities/taskqueue.hpp and taskqueue.cpp, the work-stealing queue, once as the
      functions of the code and once cut at every access of the shared state.  [TaskQueueSpec]
      has the deque it stands for and the invariant, [TaskQueueSafe] the theorems on runs.
      [ParkMiller] is the random number generator of the thieves, [TaskQueueSet] the sets of queues and the choice
      of a victim, which uses both.  [Terminator] is ParallelTaskTerminator with workers like
      those of gc_implementation/parallelScavenge/pcTasks.cpp.
    - [Stack], [StackSpec]: utilities/stack.hpp and stack.inline.hpp, stacks of linked segments
      over an explicit heap, with a cache of segments and the iterator.
    - [RegionTaskQueue]: the queue with an overflow stack of taskqueue.cpp, composed from
      [TaskQueue] and [Stack] and proved from their theorems.
    - [BlockOffsetTable]: memory/blockOffsetTable.hpp, .inline.hpp and .cpp, the table that finds the start of
      the block an address is in.  [BlockOffsetSpec] says when an entry is right and when it is
      exact, with recording, growing and the lookups; [BlockOffsetSplit] has split_block and the tables of spaces
      with free lists in use, [BlockOffsetContig] those of contiguous spaces.
    - [MarkWord]: oops/markOop.hpp, .inline.hpp and .cpp, the header word of objects and all it encodes.
    - [Synchronizer]: runtime/synchronizer.cpp with the monitors of objectMonitor.hpp: one object and any number of
      threads in slow_enter, fast_exit, inflate, ObjectMonitor::enter and exit and FastHashCode, one access of the
      shared state at a time, and deflate_monitor at safepoints; get_next_hash and os::random.  [SyncSafe]
      has the invariant and that every step keeps it, [SyncSpec] the theorems on runs.
    - [MonitorLists]: of runtime/synchronizer.cpp omAlloc, omRelease, omFlush and deflate_idle_monitors with both ways to
      find monitors; [MonitorListsSpec] has the invariant, [MonitorListsRun] the callers and the theorems on their runs.
    - [FormatCheck]: the utility methods for format checking of classfile/classFileParser.cpp: strings, names, signatures,
      flags and versions.  [Signature]: runtime/signature.cpp and signature.hpp, the readers of signatures that were
      checked: the iterator with its subclasses, fingerprints, the stream and the verifier.  [SignatureSpec] has the
      grammar and the readers on its words, [FormatCheckSpec] the check of signatures and what it promises the
      readers, [FormatCheckUtf8] the checks of strings and names.

    ** Conventions

    An operation of the code is a function with the name of the code.  Its result is an
    [option]: [None] stands for an access outside an array, for behaviour C++ leaves
    undefined, for a ShouldNotReachHere and for a loop that ran out of fuel.  So a theorem
    that gives a [Some] also says that none of these happens.  A debug-only assertion is
    not part of a definition; it is a hypothesis of the theorems where it is needed, and
    the findings list those that can fail or that the product build depends on.  A quantity
    of the code that can overflow is followed by the conversion to its type, so the
    theorems about ranges speak of the machine's result.  Shifts of Java operations mask
    their count as the language says.

    ** Fuel

    A loop of the code is a [Fixpoint] on fuel chosen where it is called, and large enough
    for every input within the precondition of its theorem: the number of turns for counted
    loops, 65 for the loops that shift a 64-bit word to zero ([word_fuel]), the width of the
    word for the search of the magic number, one more than the smaller argument for [lcm],
    one more than the length of the string for the decoders.  The theorems state the results
    as equations to [Some], so running out of fuel is excluded and not assumed away.  A
    compare-and-swap loop takes the list of what other threads do between its read and its
    exchange, and its fuel is two more than the length of that list; the step relation of
    [BitMapPar] covers every interleaving, with a proof that all of them are finite.
    Walks of the free list take the number of segments ([list_fuel]), touching pages the
    pages of a region, freeing segments of a stack the size of the heap.
    Going back in a block offset table takes the number of cards, walking forward the words up to the address.  The loops of the
    thieves that draw until a number suits make up to 2^31 draws, by doubling, so that they are
    executable; [ParkMiller] shows that the generator has drawn every number by then.
    Concurrent steps need no fuel: a run is a sequence of any length.  The generators of hashes have no loops.  Shared memory is
    sequentially consistent, which the fences of the code are there for.

    ** The theorems

    - Division by constants: the search for the magic number terminates, stays within its
      word (it does what the same search with every operation checked for overflow does) and yields the reciprocal property; the emitted graph equals the truncated
      division of Java for every dividend and every nonzero divisor.
    - Bit maps: each way of writing a range, the entry points with a hint on the size included, changes exactly the bits of the range; the
      parallel variants keep what other threads write and agree with the sequential ones
      when there is no interference; in the race on a word each clear bit has exactly one
      winner; the searches return the first bit of a kind; the word-wise loops are the set
      operations, with the exact change flag; counting, iteration and resizing.
    - Types: the dual and meet of the types of data form a symmetric lattice; meet, join,
      filter and inclusion are sound for the values; widening terminates.
    - Abstract interpretation: for every integer node the computed type contains every value
      the Java operation can take on values of the argument types, the overflowing cases
      included.
    - Memory of the code cache: a reservation honours its alignments and leaks nothing; an expansion of a
      virtual space commits exactly the pages it needs, or is refused and leaves the extent as it was.  What is below
      the high end is committed, through any growing and shrinking, as long as the system refuses no uncommit; when it does,
      what is guaranteed ends where that shrinking was to end, until the next successful expansion.  Code blocks
      never overlap, stay inside the heap, are found again from any inner address, merge with their free neighbours, and the heap
      grows when it must; all this up to the first expansion, if any, that committed the memory and was refused the
      segment map, after which the code goes on with a map that is too short.
    - Work stealing: the queue is a linearizable bounded deque for one owner and any number of thieves,
      loses and repeats no task, and is wait-free; alone its functions are exactly those
      accesses.  The age tag has 32 bits, so the theorems are for runs of fewer than 2^32 steps.
      Stealing ends, from the seeds 1 to 2^31 - 2 that the generator never leaves, and never takes from the thief itself.  Termination is announced
      only when no work is left anywhere, and then to everyone, within a bounded number of steps of
      each worker.
    - Stacks: a stack of segments acts as a list for any sequence of operations, in its
      memory only, and without leaks; with it the overflowing queue loses nothing.
    - Block offset tables: a lookup finds the block of every address, after any recording, marking and splitting of blocks
      and after any allocations in a contiguous space, and none of these fails; the lookup that must not look
      at blocks is right too, except after splits of certain sizes.  No block reaches 128 gigabytes, where a
      shift of the code is undefined.
    - Locks and hashes: two threads never hold the lock of an object; all its identity hashes are the same and its
      header is never lost; no step of the protocol fails, no exit is unbalanced, and no monitor is
      deflated under a thread; a thread alone, outside of an inflation, enters and leaves in a bounded number of steps, the waking of a
      queued thread included.  With MonitorInUseLists off, the default, every monitor is on
      one list or in use, and deflation frees exactly the idle ones; with it on the lists are cut, as a finding shows.
    - Class files: from version 48 on exactly the encodings of strings of UTF-16 units are legal strings; from version 49
      on exactly the names and method signatures of the grammar are legal; no check leaves its buffer, in any version.  What
      goes through an accepted signature without bounds stays inside it, and these readers agree.  The reader of the return type and
      with it the fingerprint are right if no class name among the parameters has a right parenthesis in it, which version
      49 allows; then a fingerprint of few slots stands for the signature it was made of.
    - Streams and strings: each coding is inverted by its decoder within the buffer, for any
      sequence of typed writes of at most 2^30 bytes to a stream of positive initial size, and for strings whose encoding fits an [int]; decoding any terminated string, legal or not, stays in
      bounds; bounded encoding keeps the longest prefix of whole characters.

    ** What is not modelled

    Within the files above: printing, debug-only checks and unit tests; the pointer, array,
    tuple and function types of the compiler and the floating-point nodes (host
    floating-point and the class hierarchy are outside the files); the graph rewriting
    methods [Ideal] and [Identity], which are about sharing in the graph of the whole
    compiler.  Beyond them: the generated and platform parts (cpu, os, os_cpu, adlc output),
    the garbage collectors beyond their queues and block offset tables and the runtime (their correctness is about raw
    memory, signals and safepoints that cannot be stated against source fragments; what
    processing a task pushes is left open in [Terminator]), of the locks the waiting and waking of threads (the
    queues are choices in [Synchronizer], so that nothing is claimed about fairness), wait and
    notify, the enters of the native interface and biased locking, of class files everything but the format checks (the
    metadata they become is built in the collected heap), the interpreters
    and assemblers (machine code), the serviceability agent (Java), and the JDK 5.0 tree,
    an earlier state of the same machine. *)

From Stdlib Require Export ZArith Lia Bool Btauto.
From stdpp Require Export base tactics option list numbers.

Declare Scope hs_scope.
Delimit Scope hs_scope with hs.
Open Scope Z_scope.
Open Scope hs_scope.

(* ------------------------------------------------------------------ *)
(** * Machine integers *)

(** The conversion of an integer to a [w]-bit unsigned type. *)
Definition uwrap (w x : Z) : Z := x mod 2 ^ w.

(** The conversion of an integer to a [w]-bit two's complement type. *)
Definition swrap (w x : Z) : Z := (x + 2 ^ (w - 1)) mod 2 ^ w - 2 ^ (w - 1).

(** The ranges of the two families of types. *)
Definition in_u (w x : Z) : Prop := 0 <= x < 2 ^ w.
Definition in_s (w x : Z) : Prop := - 2 ^ (w - 1) <= x < 2 ^ (w - 1).

(** The bitwise complement on a [w]-bit unsigned type. *)
Definition unot (w x : Z) : Z := uwrap w (Z.lnot x).

#[export] Instance in_u_dec w x : Decision (in_u w x).
Proof. unfold in_u. solve_decision. Defined.
#[export] Instance in_s_dec w x : Decision (in_s w x).
Proof. unfold in_s. solve_decision. Defined.

Abbreviation u8 := (uwrap 8).
Abbreviation u16 := (uwrap 16).
Abbreviation u32 := (uwrap 32).
Abbreviation u64 := (uwrap 64).
Abbreviation s32 := (swrap 32).
Abbreviation s64 := (swrap 64).

(* ------------------------------------------------------------------ *)
(** * Loops *)

(** The outcome of one turn of a loop body: fall through to the next turn with
    a new state, or leave the function with a value. *)
Inductive ctl (S R : Type) :=
  | Next (s : S)
  | Return (r : R).
Arguments Next {S R} _.
Arguments Return {S R} _.

(** [for (i = beg; i < end; i++) body], where [n] is the number of turns
    [end - beg]; [None] is an access the language leaves undefined. *)
Fixpoint for_n {S R} (n : nat) (i : Z) (body : Z -> S -> option (ctl S R)) (s : S)
  : option (ctl S R) :=
  match n with
  | O => Some (Next s)
  | S n' =>
      match body i s with
      | Some (Next s') => for_n n' (i + 1) body s'
      | r => r
      end
  end.

Definition for_range {S R} (b e : Z) (body : Z -> S -> option (ctl S R)) (s : S)
  : option (ctl S R) :=
  for_n (Z.to_nat (e - b)) b body s.

(** The loop whose body never leaves the function. *)
Fixpoint each_n {S} (n : nat) (i : Z) (body : Z -> S -> option S) (s : S) : option S :=
  match n with
  | O => Some s
  | S n' => s' ← body i s; each_n n' (i + 1) body s'
  end.

Definition each_range {S} (b e : Z) (body : Z -> S -> option S) (s : S) : option S :=
  each_n (Z.to_nat (e - b)) b body s.

(** An array of [Z]-indexed cells read and written in bounds only. *)
Definition arr_get {A} (l : list A) (i : Z) : option A :=
  if 0 <=? i then l !! Z.to_nat i else None.

Definition arr_set {A} (l : list A) (i : Z) (x : A) : option (list A) :=
  if (0 <=? i) && (i <? Z.of_nat (length l)) then Some (<[Z.to_nat i := x]> l) else None.

(** A check whose failure stops the virtual machine ([guarantee]). *)
Definition guard_b {A} (b : bool) (k : option A) : option A := if b then k else None.

(* ------------------------------------------------------------------ *)
(** * Lemmas on machine integers *)

Section Machine.
Context (w : Z) (Hw : 0 <= w).

Lemma pow2_pos : 0 < 2 ^ w.
Proof using Hw. apply Z.pow_pos_nonneg; lia. Qed.

Lemma uwrap_range x : in_u w (uwrap w x).
Proof using Hw. unfold in_u, uwrap. apply Z.mod_pos_bound, pow2_pos. Qed.

Lemma uwrap_small x : in_u w x -> uwrap w x = x.
Proof using Hw. unfold in_u, uwrap. intros. by apply Z.mod_small. Qed.

Lemma uwrap_idem x : uwrap w (uwrap w x) = uwrap w x.
Proof using Hw. apply uwrap_small, uwrap_range. Qed.

Lemma uwrap_ones x : uwrap w x = Z.land x (Z.ones w).
Proof using Hw. unfold uwrap. symmetry. by apply Z.land_ones. Qed.

Lemma uwrap_testbit x i : 0 <= i ->
  Z.testbit (uwrap w x) i = (i <? w) && Z.testbit x i.
Proof using Hw.
  intros Hi. unfold uwrap. destruct (Z.ltb_spec i w).
  - by rewrite Z.mod_pow2_bits_low by lia.
  - by rewrite Z.mod_pow2_bits_high by lia.
Qed.

Lemma unot_testbit x i : 0 <= i ->
  Z.testbit (unot w x) i = (i <? w) && negb (Z.testbit x i).
Proof using Hw. intros Hi. unfold unot. by rewrite uwrap_testbit, Z.lnot_spec. Qed.

Lemma unot_range x : in_u w (unot w x).
Proof using Hw. apply uwrap_range. Qed.

Lemma in_u_testbit x i : in_u w x -> w <= i -> Z.testbit x i = false.
Proof using Hw.
  intros Hx Hi. rewrite <- (uwrap_small x Hx), uwrap_testbit by lia.
  destruct (Z.ltb_spec i w); [lia | done].
Qed.

Lemma in_u_bits x : 0 <= x -> (forall i, w <= i -> Z.testbit x i = false) -> in_u w x.
Proof using Hw.
  intros Hx Hb. replace x with (uwrap w x); [apply uwrap_range|].
  apply Z.bits_inj'. intros i Hi. rewrite uwrap_testbit by done.
  destruct (Z.ltb_spec i w); [done|]. symmetry. by apply Hb.
Qed.

Lemma in_u_land_l x y : in_u w x -> 0 <= y -> in_u w (Z.land x y).
Proof using Hw.
  intros Hx Hy. apply in_u_bits; [apply Z.land_nonneg; left; apply Hx|].
  intros i Hi. by rewrite Z.land_spec, (in_u_testbit x).
Qed.

Lemma in_u_lor x y : in_u w x -> in_u w y -> in_u w (Z.lor x y).
Proof using Hw.
  intros Hx Hy. apply in_u_bits.
  - apply Z.lor_nonneg; split; [apply Hx | apply Hy].
  - intros i Hi. by rewrite Z.lor_spec, (in_u_testbit x), (in_u_testbit y).
Qed.

Lemma in_u_shiftr x n : in_u w x -> 0 <= n -> in_u w (Z.shiftr x n).
Proof using Hw.
  intros Hx Hn. apply in_u_bits; [apply Z.shiftr_nonneg, Hx|].
  intros i Hi. rewrite Z.shiftr_spec by lia. apply in_u_testbit; [done|lia].
Qed.

Lemma in_u_eq x y : in_u w x -> in_u w y ->
  (forall i, 0 <= i < w -> Z.testbit x i = Z.testbit y i) -> x = y.
Proof using Hw.
  intros Hx Hy Hb. apply Z.bits_inj'. intros i Hi. destruct (Z.ltb_spec i w).
  - by apply Hb.
  - by rewrite (in_u_testbit x), (in_u_testbit y).
Qed.
End Machine.

Section Signed.
Context (w : Z) (Hw : 0 < w).

Lemma pow2_half : 2 ^ w = 2 * 2 ^ (w - 1).
Proof using Hw. rewrite <- Z.pow_succ_r by lia. f_equal. lia. Qed.

Lemma swrap_range x : in_s w (swrap w x).
Proof using Hw.
  unfold in_s, swrap. pose proof pow2_half.
  pose proof (Z.mod_pos_bound (x + 2 ^ (w - 1)) (2 ^ w) (pow2_pos w ltac:(lia))). lia.
Qed.

Lemma swrap_small x : in_s w x -> swrap w x = x.
Proof using Hw.
  unfold in_s, swrap. intros Hx. pose proof pow2_half. rewrite Z.mod_small; lia.
Qed.

Lemma swrap_idem x : swrap w (swrap w x) = swrap w x.
Proof using Hw. apply swrap_small, swrap_range. Qed.

(** The wrapped value is the representative of [x] modulo [2^w]. *)
Lemma swrap_cong x : exists k, swrap w x = x + k * 2 ^ w.
Proof using Hw.
  unfold swrap. exists (- ((x + 2 ^ (w - 1)) / 2 ^ w)).
  pose proof (Z.div_mod (x + 2 ^ (w - 1)) (2 ^ w)
                ltac:(pose proof (pow2_pos w); lia)). lia.
Qed.

Lemma swrap_add_mul x k : swrap w (x + k * 2 ^ w) = swrap w x.
Proof using Hw.
  unfold swrap. f_equal.
  replace (x + k * 2 ^ w + 2 ^ (w - 1)) with (x + 2 ^ (w - 1) + k * 2 ^ w) by lia.
  apply Z.mod_add. pose proof (pow2_pos w). lia.
Qed.

Lemma swrap_eq x y k : x = y + k * 2 ^ w -> swrap w x = swrap w y.
Proof using Hw. intros ->. apply swrap_add_mul. Qed.

Lemma swrap_add_l x y : swrap w (swrap w x + y) = swrap w (x + y).
Proof using Hw. destruct (swrap_cong x) as [k ->]. apply (swrap_eq _ _ k). lia. Qed.

Lemma swrap_add_r x y : swrap w (x + swrap w y) = swrap w (x + y).
Proof using Hw. destruct (swrap_cong y) as [k ->]. apply (swrap_eq _ _ k). lia. Qed.

Lemma uwrap_cong x : exists k, uwrap w x = x + k * 2 ^ w.
Proof using Hw.
  exists (- (x / 2 ^ w)). unfold uwrap.
  pose proof (Z.div_mod x (2 ^ w) ltac:(pose proof (pow2_pos w); lia)). lia.
Qed.

Lemma uwrap_eq x y k : x = y + k * 2 ^ w -> uwrap w x = uwrap w y.
Proof using Hw. intros ->. unfold uwrap. apply Z.mod_add. pose proof (pow2_pos w). lia. Qed.

Lemma swrap_uwrap x : swrap w (uwrap w x) = swrap w x.
Proof using Hw. destruct (uwrap_cong x) as [k ->]. apply swrap_add_mul. Qed.

Lemma uwrap_swrap x : uwrap w (swrap w x) = uwrap w x.
Proof using Hw.
  destruct (swrap_cong x) as [k ->]. unfold uwrap. apply Z.mod_add.
  pose proof (pow2_pos w). lia.
Qed.

Lemma swrap_testbit x i : 0 <= i < w -> Z.testbit (swrap w x) i = Z.testbit x i.
Proof using Hw.
  intros Hi. pose proof (uwrap_testbit w ltac:(lia) (swrap w x) i ltac:(lia)) as E.
  rewrite uwrap_swrap, uwrap_testbit in E by lia.
  destruct (Z.ltb_spec i w); [simpl in E; congruence | lia].
Qed.
End Signed.

(** Fields put side by side do not carry into each other. *)
Lemma lor_shiftl_add x y k : 0 <= k -> 0 <= y < 2 ^ k ->
  Z.lor (x * 2 ^ k) y = x * 2 ^ k + y.
Proof.
  intros Hk Hy. symmetry. apply Z.add_nocarry_lor. apply Z.bits_inj'. intros i Hi.
  rewrite Z.land_spec, Z.testbit_0_l. destruct (Z.ltb_spec i k).
  - by rewrite Z.mul_pow2_bits_low.
  - rewrite (in_u_testbit k Hk y i) by done. apply andb_false_r.
Qed.

Lemma shiftr_mul_add x y k : 0 <= k -> 0 <= y < 2 ^ k -> Z.shiftr (x * 2 ^ k + y) k = x.
Proof.
  intros Hk Hy. rewrite Z.shiftr_div_pow2, Z.div_add_l by lia. rewrite Z.div_small; lia.
Qed.

Lemma land_ones_mod x k : 0 <= k -> Z.land x (2 ^ k - 1) = x mod 2 ^ k.
Proof. intros. rewrite Z.sub_1_r, <- Z.ones_equiv. by apply Z.land_ones. Qed.

Lemma land_lnot_ones x k : 0 <= k -> Z.land x (Z.lnot (2 ^ k - 1)) = x - x mod 2 ^ k.
Proof.
  intros Hk. rewrite <- Z.ldiff_land, Z.sub_1_r, <- Z.ones_equiv, Z.ldiff_ones_r by done.
  rewrite Z.shiftl_mul_pow2, Z.shiftr_div_pow2 by done.
  pose proof (Z.div_mod x (2 ^ k) ltac:(pose proof (pow2_pos k Hk); lia)). lia.
Qed.

Lemma mod_mul_add x y k : 0 <= k -> 0 <= y < 2 ^ k -> (x * 2 ^ k + y) mod 2 ^ k = y.
Proof. intros Hk Hy. rewrite Z.add_comm, Z.mod_add by lia. by apply Z.mod_small. Qed.

Create HintDb machine.
Create Rewrite HintDb zbits.
#[export] Hint Resolve uwrap_range unot_range swrap_range in_u_land_l in_u_lor
  in_u_shiftr : machine.
#[export] Hint Extern 1 (0 <= _) => lia : machine.
#[export] Hint Extern 1 (0 < _) => lia : machine.

#[export] Hint Rewrite Z.land_spec Z.lor_spec Z.lxor_spec Z.ldiff_spec Z.testbit_0_l
  : zbits.
#[export] Hint Rewrite Z.lnot_spec Z.shiftr_spec uwrap_testbit unot_testbit
  using lia : zbits.

(** Push [Z.testbit] through the bit operations. *)
Ltac zbits := autorewrite with zbits.

(** Reflect the boolean comparisons of the context and the goal. *)
Ltac zreflect :=
  repeat match goal with
  | H : (_ && _) = true |- _ => apply andb_prop in H; destruct H
  | H : (_ || _) = false |- _ => apply orb_false_elim in H; destruct H
  | H : negb _ = true |- _ => apply negb_true_iff in H
  | H : negb _ = false |- _ => apply negb_false_iff in H
  | H : (_ <? _) = true |- _ => apply Z.ltb_lt in H
  | H : (_ <? _) = false |- _ => apply Z.ltb_ge in H
  | H : (_ <=? _) = true |- _ => apply Z.leb_le in H
  | H : (_ <=? _) = false |- _ => apply Z.leb_gt in H
  | H : (_ =? _) = true |- _ => apply Z.eqb_eq in H
  | H : (_ =? _) = false |- _ => apply Z.eqb_neq in H
  end.

Lemma obind_inv {A B} (m : option A) (k : A -> option B) y :
  (x ← m; k x) = Some y -> exists x, m = Some x /\ k x = Some y.
Proof. destruct m; [|done]. eauto. Qed.

(** Take apart an equation between a chain of partial steps and its result. *)
Ltac binds := repeat (simplify_eq; match goal with
  | H : mbind _ _ = Some _ |- _ => apply obind_inv in H as (? & ? & H)
  | x : _ * _ |- _ => destruct x
  | H : (if ?b then _ else _) = Some _ |- _ => destruct b
  end); simplify_eq.

(** Case analysis on every integer comparison of the goal, closing the absurd
    branches by linear arithmetic. *)
Ltac zcases :=
  repeat (match goal with
  | |- context [?a <? ?b] => destruct (Z.ltb_spec a b)
  | |- context [?a <=? ?b] => destruct (Z.leb_spec a b)
  | |- context [?a =? ?b] => destruct (Z.eqb_spec a b)
  end; try lia).

(* ------------------------------------------------------------------ *)
(** * Lemmas on loops and arrays *)

Section Loops.
Context {S R : Type}.

(** A loop whose body always falls through keeps an invariant indexed by the
    loop counter, and runs to its end. *)
Lemma each_n_inv (P : Z -> S -> Prop) (body : Z -> S -> option S) n : forall i s,
  P i s ->
  (forall j s', i <= j < i + Z.of_nat n -> P j s' ->
     exists s'', body j s' = Some s'' /\ P (j + 1) s'') ->
  exists s', each_n n i body s = Some s' /\ P (i + Z.of_nat n) s'.
Proof using Type.
  induction n as [|n IH]; intros i s HP Hb; simpl.
  - exists s. by rewrite Z.add_0_r.
  - destruct (Hb i s ltac:(lia) HP) as (s1 & -> & HP1). simpl.
    destruct (IH (i + 1) s1 HP1) as (s2 & E & HP2).
    { intros j s' Hj. apply Hb. lia. }
    exists s2. split; [done|]. by replace (i + Z.of_nat (Datatypes.S n))
      with (i + 1 + Z.of_nat n) by lia.
Qed.

Lemma each_range_inv (P : Z -> S -> Prop) (body : Z -> S -> option S) b e s :
  b <= e -> P b s ->
  (forall j s', b <= j < e -> P j s' -> exists s'', body j s' = Some s'' /\ P (j + 1) s'') ->
  exists s', each_range b e body s = Some s' /\ P e s'.
Proof using Type.
  intros Hbe HP Hb. unfold each_range.
  destruct (each_n_inv P body (Z.to_nat (e - b)) b s HP) as (s' & E & HP').
  { intros j s' Hj. apply Hb. lia. }
  exists s'. split; [done|]. by replace e with (b + Z.of_nat (Z.to_nat (e - b))) by lia.
Qed.

(** What every turn of a loop keeps, the loop keeps. *)
Lemma each_range_keeps (P : S -> Prop) (body : Z -> S -> option S) b e s s' :
  (forall j x x', body j x = Some x' -> P x -> P x') -> each_range b e body s = Some s' -> P s -> P s'.
Proof using Type.
  intros Hb. unfold each_range. generalize (Z.to_nat (e - b)). intros n. revert b s.
  induction n as [|n IH]; intros b s; cbn; [by intros [= <-]|].
  destruct (body b s) as [x|] eqn:E; cbn; [|done]. intros E1 Hs. eapply IH; [done|]. by eapply Hb.
Qed.

(** A loop that may leave the function: [P] holds at every turn, [Q] of the
    value it leaves with. *)
Lemma for_n_inv (P : Z -> S -> Prop) (Q : R -> Prop)
    (body : Z -> S -> option (ctl S R)) n : forall i s,
  P i s ->
  (forall j s', i <= j < i + Z.of_nat n -> P j s' ->
     exists c, body j s' = Some c /\
       match c with Next s'' => P (j + 1) s'' | Return r => Q r end) ->
  exists c, for_n n i body s = Some c /\
    match c with Next s' => P (i + Z.of_nat n) s' | Return r => Q r end.
Proof using Type.
  induction n as [|n IH]; intros i s HP Hb; simpl.
  - exists (Next s). by rewrite Z.add_0_r.
  - destruct (Hb i s ltac:(lia) HP) as (c & -> & Hc). destruct c as [s1|r].
    + destruct (IH (i + 1) s1 Hc) as (c & E & HP2).
      { intros j s' Hj. apply Hb. lia. }
      exists c. split; [done|]. by replace (i + Z.of_nat (Datatypes.S n))
        with (i + 1 + Z.of_nat n) by lia.
    + by exists (Return r).
Qed.

Lemma for_range_inv (P : Z -> S -> Prop) (Q : R -> Prop)
    (body : Z -> S -> option (ctl S R)) b e s :
  b <= e -> P b s ->
  (forall j s', b <= j < e -> P j s' ->
     exists c, body j s' = Some c /\
       match c with Next s'' => P (j + 1) s'' | Return r => Q r end) ->
  exists c, for_range b e body s = Some c /\
    match c with Next s' => P e s' | Return r => Q r end.
Proof using Type.
  intros Hbe HP Hb. unfold for_range.
  destruct (for_n_inv P Q body (Z.to_nat (e - b)) b s HP) as (c & E & HP').
  { intros j s' Hj. apply Hb. lia. }
  exists c. split; [done|]. by replace e with (b + Z.of_nat (Z.to_nat (e - b))) by lia.
Qed.
End Loops.

(** Binding a computation that succeeds. *)
Lemma bind_Some {A B} (o : option A) x (f : A -> option B) : o = Some x -> (o ≫= f) = f x.
Proof. by intros ->. Qed.

Section Arrays.
Context {A : Type}.
Implicit Types l : list A.

Lemma arr_get_Some l i :
  0 <= i < Z.of_nat (length l) -> exists x, arr_get l i = Some x.
Proof using Type.
  intros Hi. unfold arr_get. destruct (Z.leb_spec 0 i); [|lia].
  destruct (lookup_lt_is_Some_2 l (Z.to_nat i)) as [x Hx]; [lia|]. by exists x.
Qed.

Lemma arr_get_lt l i x : arr_get l i = Some x -> 0 <= i < Z.of_nat (length l).
Proof using Type.
  unfold arr_get. destruct (Z.leb_spec 0 i); [|done].
  intros Hx%lookup_lt_Some. lia.
Qed.

Lemma arr_set_Some l i x :
  0 <= i < Z.of_nat (length l) -> arr_set l i x = Some (<[Z.to_nat i := x]> l).
Proof using Type. intros Hi. unfold arr_set. zcases. done. Qed.

Lemma arr_set_inv l l' i x : arr_set l i x = Some l' ->
  0 <= i < Z.of_nat (length l) /\ l' = <[Z.to_nat i := x]> l.
Proof using Type.
  unfold arr_set. destruct (_ && _) eqn:E; [|done]. zreflect. intros [= <-]. split; [lia | done].
Qed.

Lemma arr_set_length l l' i x : arr_set l i x = Some l' -> length l' = length l.
Proof using Type. intros [_ ->]%arr_set_inv. apply length_insert. Qed.

Lemma arr_get_insert l i j x : 0 <= i < Z.of_nat (length l) ->
  arr_get (<[Z.to_nat i := x]> l) j = if j =? i then Some x else arr_get l j.
Proof using Type.
  intros Hi. unfold arr_get. destruct (Z.leb_spec 0 j).
  - destruct (Z.eqb_spec j i) as [->|].
    + apply list_lookup_insert_eq. lia.
    + apply list_lookup_insert_ne. lia.
  - destruct (Z.eqb_spec j i); [lia|done].
Qed.

Lemma arr_get_set l l' i j x : arr_set l i x = Some l' ->
  arr_get l' j = if j =? i then Some x else arr_get l j.
Proof using Type. intros [? ->]%arr_set_inv. by apply arr_get_insert. Qed.

Lemma arr_get_Forall (P : A -> Prop) l i x : Forall P l -> arr_get l i = Some x -> P x.
Proof using Type.
  unfold arr_get. destruct (0 <=? i); [|done]. intros Hl Hx.
  by eapply Forall_lookup_1.
Qed.

Lemma arr_get_out l i : Z.of_nat (length l) <= i -> arr_get l i = None.
Proof using Type.
  intros. unfold arr_get. destruct (0 <=? i); [|done]. apply lookup_ge_None. lia.
Qed.

Lemma arr_get_app_l l l' i : i < Z.of_nat (length l) -> arr_get (l ++ l') i = arr_get l i.
Proof using Type.
  intros. unfold arr_get. destruct (Z.leb_spec 0 i); [|done]. apply lookup_app_l. lia.
Qed.
End Arrays.

(* ------------------------------------------------------------------ *)
(** * State passing *)

(** Code that reads and writes a state and can fail. *)
Definition stm (S A : Type) : Type := S -> option (A * S).
Definition sret {S A} (x : A) : stm S A := fun s => Some (x, s).
Definition sbind {S A B} (m : stm S A) (k : A -> stm S B) : stm S B :=
  fun s => '(x, s) ← m s; k x s.

Notation "'let*' x ':=' m 'in' k" := (sbind m (fun x => k))
  (at level 10, x pattern, m at level 200, k at level 200,
   format "'[v' 'let*'  x  ':='  m  'in' '/' k ']'") : hs_scope.
Notation "m ;;; k" := (sbind m (fun _ => k)) (at level 100, right associativity) : hs_scope.

Lemma sbind_Some {S A B} (m : stm S A) (k : A -> stm S B) s x s' :
  m s = Some (x, s') -> sbind m k s = k x s'.
Proof. intros E. unfold sbind. by rewrite E. Qed.
