(* ===== verification/GlobalDefs.v ===== *)
(** * GlobalDefs: utilities/globalDefinitions.hpp and .cpp

    The constants of the LP64 build, the alignment helpers, the bit-field helpers,
    the integer helpers (powers of two, logarithms, rounding, least common
    multiple), the split of a [jlong] into two [jint]s, the byte packing of the
    class file format and the [BasicType] enumeration.  An [intptr_t] or [jlong]
    is an integer in [-2^63, 2^63), a [size_t], [uintptr_t] or [u8] one in
    [0, 2^64); every operation that can leave the range is followed by the
    conversion of [Prelude]. *)

From S2P Require Import Prelude.

(* ------------------------------------------------------------------ *)
(** ** Constants of the LP64 build *)

Definition LogBitsPerByte : Z := 3.
Definition LogBytesPerWord : Z := 3.
Definition LogBitsPerWord : Z := LogBitsPerByte + LogBytesPerWord.
Definition BytesPerWord : Z := Z.shiftl 1 LogBytesPerWord.
Definition BitsPerByte : Z := Z.shiftl 1 LogBitsPerByte.
Definition BitsPerWord : Z := Z.shiftl 1 LogBitsPerWord.
Definition HeapWordSize : Z := 8.
Definition LogHeapWordSize : Z := 3.
Definition HeapWordsPerLong : Z := 8 / HeapWordSize.
Definition MinObjAlignment : Z := HeapWordsPerLong.

Definition heap_word_size (byte_size : Z) : Z :=
  Z.shiftr (u64 (byte_size + (HeapWordSize - 1))) LogHeapWordSize.

(* ------------------------------------------------------------------ *)
(** ** Alignment *)

Definition align_size_up_ (size alignment : Z) : Z :=
  Z.land (size + (alignment - 1)) (Z.lnot (alignment - 1)).

Definition align_size_up (size alignment : Z) : Z := s64 (align_size_up_ size alignment).

Definition align_size_down_ (size alignment : Z) : Z :=
  Z.land size (Z.lnot (alignment - 1)).

Definition align_size_down (size alignment : Z) : Z := s64 (align_size_down_ size alignment).

Definition align_object_size (size : Z) : Z := align_size_up size MinObjAlignment.
Definition align_object_offset (offset : Z) : Z := align_size_up offset HeapWordsPerLong.
Definition is_object_aligned (offset : Z) : bool := offset =? align_object_offset offset.

(* ------------------------------------------------------------------ *)
(** ** Halves of a jlong *)

Definition low (value : Z) : Z := s32 value.
Definition high (value : Z) : Z := s32 (Z.shiftr value 32).

Definition set_low (value low : Z) : Z :=
  Z.lor (Z.land value (s64 (Z.shiftl 0xffffffff 32))) (s64 (u64 (u32 low))).

Definition set_high (value high : Z) : Z :=
  Z.lor (Z.land value (s64 (u64 (u32 0xffffffff)))) (s64 (Z.shiftl high 32)).

Definition jlong_from (h l : Z) : Z :=
  let result := 0 in
  let result := set_high result h in
  set_low result l.

(* ------------------------------------------------------------------ *)
(** ** Basic types *)

Inductive BasicType :=
  | T_BOOLEAN | T_CHAR | T_FLOAT | T_DOUBLE | T_BYTE | T_SHORT | T_INT | T_LONG
  | T_OBJECT | T_ARRAY | T_VOID | T_ADDRESS | T_NARROWOOP | T_CONFLICT | T_ILLEGAL.

#[export] Instance BasicType_eq_dec : EqDecision BasicType.
Proof. solve_decision. Defined.

Definition BasicType_num (t : BasicType) : Z :=
  match t with
  | T_BOOLEAN => 4 | T_CHAR => 5 | T_FLOAT => 6 | T_DOUBLE => 7 | T_BYTE => 8
  | T_SHORT => 9 | T_INT => 10 | T_LONG => 11 | T_OBJECT => 12 | T_ARRAY => 13
  | T_VOID => 14 | T_ADDRESS => 15 | T_NARROWOOP => 16 | T_CONFLICT => 17
  | T_ILLEGAL => 99
  end.

Definition is_java_primitive (t : BasicType) : bool :=
  (BasicType_num T_BOOLEAN <=? BasicType_num t) && (BasicType_num t <=? BasicType_num T_LONG).

Definition is_subword_type (t : BasicType) : bool :=
  bool_decide (t = T_BOOLEAN) || bool_decide (t = T_CHAR) ||
  bool_decide (t = T_BYTE) || bool_decide (t = T_SHORT).

Definition is_signed_subword_type (t : BasicType) : bool :=
  bool_decide (t = T_BYTE) || bool_decide (t = T_SHORT).

(** The argument is the code of the character. *)
Definition char2type (c : Z) : BasicType :=
  if c =? 66 then T_BYTE            (* B *)
  else if c =? 67 then T_CHAR       (* C *)
  else if c =? 68 then T_DOUBLE     (* D *)
  else if c =? 70 then T_FLOAT      (* F *)
  else if c =? 73 then T_INT        (* I *)
  else if c =? 74 then T_LONG       (* J *)
  else if c =? 83 then T_SHORT      (* S *)
  else if c =? 90 then T_BOOLEAN    (* Z *)
  else if c =? 86 then T_VOID       (* V *)
  else if c =? 76 then T_OBJECT     (* L *)
  else if c =? 91 then T_ARRAY      (* [ *)
  else T_ILLEGAL.

(* ------------------------------------------------------------------ *)
(** ** Bit fields *)

Definition AllBits : Z := Z.lnot 0.
Definition NoBits : Z := 0.
Definition OneBit : Z := 1.

Definition nth_bit (n : Z) : Z := if BitsPerWord <=? n then 0 else s64 (Z.shiftl OneBit n).
Definition right_n_bits (n : Z) : Z := s64 (nth_bit n - 1).
Definition left_n_bits (n : Z) : Z :=
  s64 (Z.shiftl (right_n_bits n) (if BitsPerWord <=? n then 0 else BitsPerWord - n)).

Definition set_bits (x m : Z) : Z := Z.lor x m.
Definition clear_bits (x m : Z) : Z := Z.land x (Z.lnot m).
Definition mask_bits (x m : Z) : Z := Z.land x m.
Definition mask_bits_are_true (flags mask : Z) : bool := Z.land flags mask =? mask.
Definition set_nth_bit (x n : Z) : Z := set_bits x (nth_bit n).
Definition clear_nth_bit (x n : Z) : Z := clear_bits x (nth_bit n).
Definition is_set_nth_bit (x n : Z) : bool := negb (mask_bits x (nth_bit n) =? NoBits).
Definition bitfield (x start_bit_no field_length : Z) : Z :=
  mask_bits (Z.shiftr x start_bit_no) (right_n_bits field_length).

(* ------------------------------------------------------------------ *)
(** ** Integers *)

Definition MAX2 (a b : Z) : Z := if b <? a then a else b.
Definition MIN2 (a b : Z) : Z := if a <? b then a else b.
Definition MAX3 (a b c : Z) : Z := MAX2 (MAX2 a b) c.
Definition MIN3 (a b c : Z) : Z := MIN2 (MIN2 a b) c.
Definition MAX4 (a b c d : Z) : Z := MAX2 (MAX3 a b c) d.
Definition MIN4 (a b c d : Z) : Z := MIN2 (MIN3 a b c) d.

Definition ABS (x : Z) : Z := if 0 <? x then x else - x.

Definition is_power_of_2 (x : Z) : bool :=
  negb (x =? NoBits) && (mask_bits x (s64 (x - 1)) =? NoBits).

Definition is_power_of_2_long (x : Z) : bool :=
  negb (x =? 0) && (Z.land x (s64 (x - 1)) =? 0).

(** The loop of [log2_intptr]: [p] doubles until it passes [x] or overflows to
    0, so 64 turns and the final test always suffice. *)
Fixpoint log2_loop (fuel : nat) (i p x : Z) : option Z :=
  match fuel with
  | O => None
  | S f => if negb (p =? 0) && (p <=? x) then log2_loop f (i + 1) (u64 (p * 2)) x else Some i
  end.

Definition log2_intptr (x : Z) : option Z := log2_loop 65 (-1) 1 (u64 x).
Definition log2_long (x : Z) : option Z := log2_loop 65 (-1) 1 (u64 x).

Definition exact_log2 (x : Z) : option Z := log2_intptr x.

Definition round_to (x s : Z) : Z :=
  let m := u64 (s - 1) in s64 (Z.land (u64 (x + m)) (unot 64 m)).

Definition round_down (x s : Z) : Z :=
  let m := u64 (s - 1) in s64 (Z.land (u64 x) (unot 64 m)).

Definition is_odd (x : Z) : bool := negb (Z.land x 1 =? 0).
Definition is_even (x : Z) : bool := negb (is_odd x).

(** Euclid's loop of [lcm], one division by [div] per turn; [None] is a
    division by zero. *)
Fixpoint lcm_loop (fuel : nat) (cur div : Z) : option Z :=
  match fuel with
  | O => None
  | S f =>
      if div =? 0 then None
      else let next := cur mod div in
           if negb (next =? 0) then lcm_loop f div next else Some div
  end.

Definition lcm (a b : Z) : option Z :=
  let cur := MAX2 a b in
  let div := MIN2 a b in
  div ← lcm_loop (Datatypes.S (Z.to_nat div)) cur div;
  Some (u64 (a * b) / div).

(* ------------------------------------------------------------------ *)
(** ** Bytes of the class file format *)

Definition build_u2_from (c1 c2 : Z) : Z :=
  u16 (Z.lor (Z.land (Z.shiftl c1 8) 0xff00) (Z.land (Z.shiftl c2 0) 0x00ff)).

Definition build_u4_from (c1 c2 c3 c4 : Z) : Z :=
  Z.lor (Z.lor (Z.lor (Z.land (u32 (Z.shiftl c1 24)) 0xff000000)
                      (Z.land (u32 (Z.shiftl c2 16)) 0x00ff0000))
               (Z.land (u32 (Z.shiftl c3 8)) 0x0000ff00))
        (Z.land (u32 (Z.shiftl c4 0)) 0x000000ff).

Definition explode_short_to (x : Z) : Z * Z := (u8 (Z.shiftr x 8), u8 x).

Definition explode_int_to (x : Z) : Z * Z * Z * Z :=
  (u8 (Z.shiftr x 24), u8 (Z.shiftr x 16), u8 (Z.shiftr x 8), u8 x).

Definition extract_low_short_from_int (x : Z) : Z := Z.land x 0xffff.
Definition extract_high_short_from_int (x : Z) : Z := Z.land (Z.shiftr x 16) 0xffff.
Definition build_int_from_shorts (low high : Z) : Z :=
  s32 (Z.lor (u32 (s32 (u32 (Z.shiftl (u32 high) 16)))) (u32 low)).

(* ------------------------------------------------------------------ *)
(** ** Alignment: lemmas *)

Lemma align_size_up_eq size k :
  0 <= k < 63 -> 0 <= size -> size + 2 ^ k <= 2 ^ 63 ->
  align_size_up size (2 ^ k) = size + (2 ^ k - 1) - (size + (2 ^ k - 1)) mod 2 ^ k.
Proof.
  intros Hk Hs Hmax. unfold align_size_up, align_size_up_. rewrite land_lnot_ones by lia.
  pose proof (pow2_pos k ltac:(lia)).
  pose proof (Z.mod_pos_bound (size + (2 ^ k - 1)) (2 ^ k) ltac:(lia)).
  apply swrap_small; [lia|]. unfold in_s. change (64 - 1) with 63. lia.
Qed.

Lemma align_size_down_eq size k :
  0 <= k < 63 -> in_s 64 size -> - 2 ^ 63 <= size - size mod 2 ^ k ->
  align_size_down size (2 ^ k) = size - size mod 2 ^ k.
Proof.
  intros Hk Hs Hm. unfold align_size_down, align_size_down_. rewrite land_lnot_ones by lia.
  pose proof (pow2_pos k ltac:(lia)). pose proof (Z.mod_pos_bound size (2 ^ k) ltac:(lia)).
  unfold in_s in Hs. change (64 - 1) with 63 in Hs.
  apply swrap_small; [lia|]. unfold in_s. change (64 - 1) with 63. lia.
Qed.

Lemma sub_mod_divide x m : 0 < m -> (m | x - x mod m).
Proof. intros. exists (x / m). pose proof (Z.div_mod x m ltac:(lia)). lia. Qed.

(** [align_size_up] rounds a size up to the least multiple of a power of two
    alignment that is not below it, and [align_size_down] down to the greatest
    that is not above it, neither overflowing when the result fits in the word. *)
Theorem align_size_spec (size k : Z) :
  0 <= k < 63 -> 0 <= size -> size + 2 ^ k <= 2 ^ 63 ->
  let a := 2 ^ k in
  (a | align_size_up size a) /\ size <= align_size_up size a < size + a /\
  (a | align_size_down size a) /\ size - a < align_size_down size a <= size /\
  (align_size_up size a = size <-> (a | size)).
Proof.
  intros Hk Hs Hmax a. subst a. pose proof (pow2_pos k ltac:(lia)).
  pose proof (Z.mod_pos_bound size (2 ^ k) ltac:(lia)).
  pose proof (Z.mod_pos_bound (size + (2 ^ k - 1)) (2 ^ k) ltac:(lia)).
  pose proof (Z.mod_le size (2 ^ k) ltac:(lia) ltac:(lia)).
  rewrite align_size_up_eq, align_size_down_eq
    by first [lia | unfold in_s; change (64 - 1) with 63; lia].
  split_and!; try lia; try by apply sub_mod_divide.
  split; intros E.
  - rewrite <- E. by apply sub_mod_divide.
  - assert (size + (2 ^ k - 1) - (size + (2 ^ k - 1)) mod 2 ^ k - size = 0); [|lia].
    destruct E as [c Hc].
    replace (size + (2 ^ k - 1)) with (2 ^ k - 1 + c * 2 ^ k) by lia.
    rewrite Z.mod_add, Z.mod_small by lia. lia.
Qed.

Lemma align_size_spec_witness :
  align_size_up 4097 (2 ^ 12) = 8192 /\
  ((2 ^ 12 | align_size_up 4097 (2 ^ 12)) /\ 4097 <= align_size_up 4097 (2 ^ 12) < 4097 + 2 ^ 12 /\
   (2 ^ 12 | align_size_down 4097 (2 ^ 12)) /\
   4097 - 2 ^ 12 < align_size_down 4097 (2 ^ 12) <= 4097 /\
   (align_size_up 4097 (2 ^ 12) = 4097 <-> (2 ^ 12 | 4097))).
Proof.
  split; [reflexivity|]. apply (align_size_spec 4097 12); [lia | lia | vm_compute; discriminate].
Defined.

(* ------------------------------------------------------------------ *)
(** ** Logarithms and powers of two: lemmas *)

(** The state of the loop before its turn [j]: [p = 2^j], or 0 after overflow. *)
Lemma log2_loop_spec fuel : forall j x,
  0 <= j <= 64 -> 64 - j < Z.of_nat fuel -> 0 < x < 2 ^ 64 -> 2 ^ j <= 2 * x ->
  log2_loop fuel (j - 1) (u64 (2 ^ j)) x = Some (Z.log2 x).
Proof.
  induction fuel as [|f IH]; intros j x Hj Hf Hx Hle; [lia|]. simpl.
  assert (Hlog : Z.log2 x < 64) by (apply Z.log2_lt_pow2; lia).
  destruct (decide (j = 64)) as [->|Hj'].
  - rewrite (Z.eqb_refl 0 : (u64 (2 ^ 64) =? 0) = true). simpl. f_equal.
    symmetry. apply Z.log2_unique; [lia|]. change (64 - 1) with 63.
    change (2 ^ Z.succ 63) with (2 ^ 64). change (2 ^ 64) with (2 * 2 ^ 63) in Hle. lia.
  - pose proof (pow2_pos j ltac:(lia)).
    assert (2 ^ j < 2 ^ 64) by (apply Z.pow_lt_mono_r; lia).
    rewrite (uwrap_small 64) by (unfold in_u; lia).
    destruct (Z.eqb_spec (2 ^ j) 0); [lia|]. simpl.
    destruct (Z.leb_spec (2 ^ j) x).
    + replace (2 ^ j * 2) with (2 ^ (j + 1)) by (rewrite Z.pow_add_r; lia).
      replace (j - 1 + 1) with (j + 1 - 1) by lia. apply IH; try lia.
      rewrite Z.pow_add_r by lia. lia.
    + assert (j <> 0) by (intros ->; change (2 ^ 0) with 1 in *; lia).
      f_equal. symmetry. apply Z.log2_unique; [lia|].
      replace (Z.succ (j - 1)) with j by lia. split; [|lia].
      replace j with (Z.succ (j - 1)) in Hle by lia. rewrite Z.pow_succ_r in Hle by lia. lia.
Qed.

Lemma log2_long_pos x : 0 < x < 2 ^ 64 -> log2_loop 65 (-1) 1 x = Some (Z.log2 x).
Proof.
  intros Hx. change (log2_loop 65 (-1) 1 x) with (log2_loop 65 (0 - 1) (u64 (2 ^ 0)) x).
  apply log2_loop_spec; lia.
Qed.

(** The logarithm loop returns, for every [jlong], the largest [i] with
    [2^i <= x], -1 for 0 and 63 for a negative argument: its 65 turns always
    suffice. *)
Theorem log2_long_spec (x : Z) : in_s 64 x ->
  log2_long x = Some (if x <? 0 then 63 else if x =? 0 then -1 else Z.log2 x).
Proof.
  intros Hx. unfold in_s in Hx. change (64 - 1) with 63 in Hx. unfold log2_long.
  destruct (Z.eqb_spec x 0) as [->|]; [reflexivity|].
  change (log2_loop 65 (-1) 1 (u64 x)) with (log2_loop 65 (0 - 1) (u64 (2 ^ 0)) (u64 x)).
  assert (E : u64 x = if x <? 0 then x + 2 ^ 64 else x).
  { unfold uwrap. zcases; [|apply Z.mod_small; lia].
    symmetry. apply Z.mod_unique with (-1); lia. }
  rewrite E, log2_loop_spec; zcases; try lia; try done.
  f_equal. apply Z.log2_unique; change (2 ^ Z.succ 63) with (2 ^ 64); lia.
Qed.

Lemma log2_long_spec_witness :
  log2_long 4096 = Some (if 4096 <? 0 then 63 else if 4096 =? 0 then -1 else Z.log2 4096).
Proof. apply (log2_long_spec 4096). vm_compute. intuition discriminate. Defined.

Lemma is_power_of_2_iff (x : Z) : in_s 64 x ->
  is_power_of_2 x = true <-> exists k, 0 <= k < 64 /\ u64 x = 2 ^ k.
Proof.
  intros Hx. unfold in_s in Hx. change (64 - 1) with 63 in Hx.
  unfold is_power_of_2, mask_bits, NoBits. split.
  - intros [Hnz Hm]%andb_prop. zreflect.
    assert (Hu : in_u 64 (u64 x)) by auto with machine.
    assert (Hu0 : 0 < u64 x).
    { unfold in_u in Hu. destruct (decide (u64 x = 0)) as [E|]; [|lia].
      unfold uwrap in E. apply Z.mod_divide in E; [|lia]. destruct E as [c E]. lia. }
    exists (Z.log2 (u64 x)). pose proof (Z.log2_spec _ Hu0) as Hlog.
    assert (Hl : 0 <= Z.log2 (u64 x) < 64).
    { split; [apply Z.log2_nonneg | apply Z.log2_lt_pow2; [lia | apply Hu]]. }
    split; [done|]. destruct (decide (u64 x = 2 ^ Z.log2 (u64 x))) as [|Hne]; [done|exfalso].
    assert (Hb : Z.testbit (Z.land (u64 x) (u64 (x - 1))) (Z.log2 (u64 x)) = true).
    { rewrite Z.land_spec. rewrite Z.bit_log2 by lia. simpl.
      replace (u64 (x - 1)) with (u64 x - 1).
      - rewrite <- (Z.bit_log2 (u64 x - 1)) by lia. f_equal.
        symmetry. apply Z.log2_unique; lia.
      - unfold uwrap. symmetry. rewrite Zminus_mod. rewrite (Z.mod_small 1) by lia.
        apply Z.mod_small. fold (u64 x). unfold in_u in Hu. lia. }
    rewrite Z.land_spec, !uwrap_testbit in Hb by lia.
    destruct (Z.ltb_spec (Z.log2 (u64 x)) 64); [|lia]. simpl in Hb.
    rewrite <- (swrap_testbit 64 ltac:(lia) (x - 1)) in Hb by lia.
    rewrite <- Z.land_spec, Hm, Z.testbit_0_l in Hb. done.
  - intros (k & Hk & E). pose proof (pow2_pos k ltac:(lia)).
    assert (x <> 0) by (intros ->; change (u64 0) with 0 in E; lia).
    destruct (Z.eqb_spec x 0); [lia|]. simpl. apply Z.eqb_eq.
    apply Z.bits_inj'. intros i Hi. rewrite Z.land_spec, Z.testbit_0_l.
    destruct (decide (x = - 2 ^ 63)) as [->|Hne].
    { change (s64 (- 2 ^ 63 - 1)) with (2 ^ 63 - 1). rewrite Z.sub_1_r, <- Z.ones_equiv.
      destruct (Z.ltb_spec i 63).
      - change (- 2 ^ 63) with ((-1) * 2 ^ 63). by rewrite Z.mul_pow2_bits_low by lia.
      - rewrite Z.ones_spec_high by lia. apply andb_false_r. }
    rewrite (swrap_small 64) by (unfold in_s; change (64 - 1) with 63; lia).
    destruct (Z.ltb_spec x 0).
    + assert (Ex : u64 x = x + 2 ^ 64) by (symmetry; apply Z.mod_unique with (-1); lia).
      assert (2 ^ 63 < 2 ^ k) as Hk'%Z.pow_lt_mono_r_iff by (change (2 ^ 64) with (2 * 2 ^ 63) in *; lia);
        lia.
    + rewrite (uwrap_small 64) in E by (unfold in_u; change (2 ^ 64) with (2 * 2 ^ 63); lia).
      rewrite E, Z.sub_1_r, <- Z.ones_equiv, Z.pow2_bits_eqb, Z.testbit_ones by lia.
      zcases; done.
Qed.

(** For the positive words: the powers of two among them. *)
Lemma is_power_of_2_pos x : 0 < x < 2 ^ 63 ->
  is_power_of_2 x = true -> exists k, 0 <= k < 63 /\ x = 2 ^ k.
Proof.
  intros Hx Hp. apply is_power_of_2_iff in Hp as (k & Hk & E);
    [|unfold in_s; change (64 - 1) with 63; lia].
  rewrite uwrap_small in E by (lia || (unfold in_u; change (2 ^ 64) with (2 * 2 ^ 63); lia)).
  exists k. split; [|done]. split; [lia|]. rewrite E in Hx. apply (Z.pow_lt_mono_r_iff 2); lia.
Qed.

Lemma is_power_of_2_pow k : 0 <= k < 63 -> is_power_of_2 (2 ^ k) = true.
Proof.
  intros Hk. pose proof (pow2_pos k ltac:(lia)).
  assert (2 ^ k < 2 ^ 63) by (apply Z.pow_lt_mono_r; lia).
  apply is_power_of_2_iff; [unfold in_s; change (64 - 1) with 63; lia|]. exists k. split; [lia|].
  apply uwrap_small; [lia|]. unfold in_u. change (2 ^ 64) with (2 * 2 ^ 63). lia.
Qed.

Lemma is_power_of_2_long_eq x : is_power_of_2_long x = is_power_of_2 x.
Proof. reflexivity. Qed.

(** [is_power_of_2] holds exactly of the words with one bit set; the word
    [min_intptr], whose unsigned value is 2^63, is among them. *)
Theorem is_power_of_2_spec (x : Z) : in_s 64 x ->
  is_power_of_2 x = true <-> exists k, 0 <= k < 64 /\ u64 x = 2 ^ k.
Proof. apply is_power_of_2_iff. Qed.

Lemma is_power_of_2_spec_witness :
  is_power_of_2 64 = true <-> exists k, 0 <= k < 64 /\ u64 64 = 2 ^ k.
Proof. apply (is_power_of_2_spec 64). vm_compute. intuition discriminate. Defined.

(* ------------------------------------------------------------------ *)
(** ** Packing: lemmas *)

Lemma jlong_from_eq h l : in_s 32 h -> in_s 32 l -> jlong_from h l = h * 2 ^ 32 + u32 l.
Proof.
  intros Hh Hl. unfold in_s in *. change (32 - 1) with 31 in *.
  unfold jlong_from, set_high, set_low. rewrite Z.land_0_l, Z.lor_0_l.
  change (s64 (Z.shiftl 0xffffffff 32)) with (Z.lnot (2 ^ 32 - 1)).
  rewrite (Z.shiftl_mul_pow2 h) by lia.
  rewrite (swrap_small 64 ltac:(lia) (h * 2 ^ 32))
    by (unfold in_s; change (2 ^ (64 - 1)) with (2 ^ 31 * 2 ^ 32); lia).
  rewrite land_lnot_ones, Z.mod_mul, Z.sub_0_r by lia.
  assert (Hu : in_u 32 (u32 l)) by auto with machine. unfold in_u in Hu.
  rewrite (uwrap_small 64), (swrap_small 64)
    by (unfold in_u, in_s; change (64 - 1) with 63; lia).
  by apply lor_shiftl_add.
Qed.

Lemma jlong_from_halves v : in_s 64 v -> jlong_from (high v) (low v) = v.
Proof.
  intros Hv. rewrite jlong_from_eq by (apply swrap_range; lia).
  unfold high, low. rewrite uwrap_swrap, swrap_small by first [lia |
    unfold in_s in *; rewrite Z.shiftr_div_pow2 by lia;
    split; [apply Z.div_le_lower_bound | apply Z.div_lt_upper_bound];
      change (2 ^ (64 - 1)) with (2 ^ (32 - 1) * 2 ^ 32) in Hv; lia].
  unfold uwrap. rewrite Z.shiftr_div_pow2 by lia. pose proof (Z.div_mod v (2 ^ 32)). lia.
Qed.

(** A [jlong] assembled from two [jint]s gives the halves back, and every
    [jlong] is the assembly of its halves. *)
Theorem jlong_halves_roundtrip (h l v : Z) :
  in_s 32 h -> in_s 32 l -> in_s 64 v ->
  high (jlong_from h l) = h /\ low (jlong_from h l) = l /\ jlong_from (high v) (low v) = v.
Proof.
  intros Hh Hl Hv. assert (Hu : in_u 32 (u32 l)) by auto with machine.
  rewrite jlong_from_halves, !jlong_from_eq by done.
  unfold high, low. rewrite shiftr_mul_add by (unfold in_u in Hu; lia).
  rewrite (swrap_small 32 ltac:(lia) h) by done. rewrite (Z.add_comm (h * _)), swrap_add_mul by lia.
  by rewrite swrap_uwrap, (swrap_small 32 ltac:(lia) l) by first [done | lia].
Qed.

Lemma jlong_halves_roundtrip_witness :
  high (jlong_from (-1) 7) = -1 /\ low (jlong_from (-1) 7) = 7 /\
  jlong_from (high (-12345678901)) (low (-12345678901)) = -12345678901.
Proof.
  apply (jlong_halves_roundtrip (-1) 7 (-12345678901)); vm_compute; intuition discriminate.
Defined.

(** The bytes of the class file format are packed big endian, and the
    [explode] routines take the packed value apart again. *)
Theorem build_explode_u4_roundtrip (c1 c2 c3 c4 x : Z) :
  in_u 8 c1 -> in_u 8 c2 -> in_u 8 c3 -> in_u 8 c4 -> in_u 32 x ->
  build_u4_from c1 c2 c3 c4 = ((c1 * 256 + c2) * 256 + c3) * 256 + c4 /\
  explode_int_to (build_u4_from c1 c2 c3 c4) = (c1, c2, c3, c4) /\
  (let '(d1, d2, d3, d4) := explode_int_to x in build_u4_from d1 d2 d3 d4 = x).
Proof.
  assert (Hb : forall a b c d, in_u 8 a -> in_u 8 b -> in_u 8 c -> in_u 8 d ->
            build_u4_from a b c d = ((a * 256 + b) * 256 + c) * 256 + d).
  { intros a b c d Ha Hb Hc Hd. unfold in_u in *. unfold build_u4_from.
    assert (Hf : forall y k, 0 <= k <= 24 -> in_u 8 y ->
              Z.land (u32 (Z.shiftl y k)) (Z.shiftl (Z.ones 8) k) = y * 2 ^ k).
    { intros y k Hk Hy. rewrite <- (Z.shiftl_mul_pow2 y k) by lia.
      apply Z.bits_inj'. intros i Hi.
      rewrite Z.land_spec, uwrap_testbit, !Z.shiftl_spec by lia.
      destruct (Z.ltb_spec (i - k) 0); [by rewrite !(Z.testbit_neg_r _ (i - k)), !andb_false_r by lia|].
      rewrite Z.testbit_ones_nonneg by lia. zcases; rewrite ?andb_true_r, ?andb_false_r;
        first [done | by rewrite (in_u_testbit 8 ltac:(lia) y) by first [done | lia]]. }
    change 0xff000000 with (Z.shiftl (Z.ones 8) 24).
    change 0x00ff0000 with (Z.shiftl (Z.ones 8) 16).
    change 0x0000ff00 with (Z.shiftl (Z.ones 8) 8).
    change 0x000000ff with (Z.shiftl (Z.ones 8) 0).
    rewrite !Hf by (unfold in_u; lia). rewrite Z.mul_1_r.
    change (2 ^ 24) with (2 ^ 8 * 2 ^ 8 * 2 ^ 8). change (2 ^ 16) with (2 ^ 8 * 2 ^ 8).
    rewrite !Z.mul_assoc, <- !Z.lor_assoc.
    replace (c * 2 ^ 8) with (c * 2 ^ 8) by done.
    rewrite (lor_shiftl_add c d) by lia.
    replace (b * 2 ^ 8 * 2 ^ 8) with (b * 2 ^ 16) by lia.
    rewrite (lor_shiftl_add b) by lia.
    replace (a * 2 ^ 8 * 2 ^ 8 * 2 ^ 8) with (a * 2 ^ 24) by lia.
    rewrite (lor_shiftl_add a) by lia. lia. }
  intros H1 H2 H3 H4 Hx. split; [by apply Hb|]. split.
  - rewrite Hb by done. unfold explode_int_to, uwrap, in_u in *.
    rewrite !Z.shiftr_div_pow2 by lia.
    repeat f_equal; Z.div_mod_to_equations; lia.
  - unfold explode_int_to. rewrite Hb by auto with machine.
    unfold uwrap, in_u in *. rewrite !Z.shiftr_div_pow2 by lia.
    Z.div_mod_to_equations; lia.
Qed.

Lemma build_explode_u4_roundtrip_witness :
  build_u4_from 0xCA 0xFE 0xBA 0xBE = ((0xCA * 256 + 0xFE) * 256 + 0xBA) * 256 + 0xBE /\
  explode_int_to (build_u4_from 0xCA 0xFE 0xBA 0xBE) = (0xCA, 0xFE, 0xBA, 0xBE) /\
  (let '(d1, d2, d3, d4) := explode_int_to 0xCAFEBABE in build_u4_from d1 d2 d3 d4 = 0xCAFEBABE).
Proof.
  apply (build_explode_u4_roundtrip 0xCA 0xFE 0xBA 0xBE 0xCAFEBABE);
    vm_compute; intuition discriminate.
Defined.

(* ------------------------------------------------------------------ *)
(** ** Least common multiple: lemmas *)

Lemma lcm_loop_gcd fuel : forall cur div,
  0 < div -> 0 <= cur -> div < Z.of_nat fuel ->
  lcm_loop fuel cur div = Some (Z.gcd cur div).
Proof.
  induction fuel as [|f IH]; intros cur div Hd Hc Hf; [lia|]. simpl.
  destruct (Z.eqb_spec div 0); [lia|].
  pose proof (Z.mod_pos_bound cur div ltac:(lia)).
  destruct (Z.eqb_spec (cur mod div) 0) as [E|]; simpl.
  - f_equal. rewrite <- (Z.gcd_mod_l cur div), E, Z.gcd_0_l. lia.
  - rewrite IH by lia. f_equal. by rewrite Z.gcd_mod_r, Z.gcd_comm.
Qed.

(** [lcm] is the least common multiple as long as the product of its
    arguments fits in a [julong]. *)
Theorem lcm_spec (a b : Z) : 0 < a -> 0 < b -> a * b < 2 ^ 64 -> lcm a b = Some (Z.lcm a b).
Proof.
  intros Ha Hb Hab. unfold lcm.
  assert (Hg : Z.gcd (MAX2 a b) (MIN2 a b) = Z.gcd a b).
  { unfold MAX2, MIN2. zcases; try done; try apply Z.gcd_comm.
    by replace b with a by lia. }
  rewrite lcm_loop_gcd; [|unfold MIN2, MAX2; zcases; lia..]. simpl. rewrite Hg.
  f_equal. rewrite (uwrap_small 64) by (unfold in_u; lia).
  unfold Z.lcm. rewrite Z.abs_eq.
  - apply Z.divide_div_mul_exact; [|apply Z.gcd_divide_r].
    intros E%Z.gcd_eq_0_l. lia.
  - apply Z.mul_nonneg_nonneg; [lia|]. apply Z.div_pos; [lia|].
    pose proof (Z.gcd_nonneg a b). destruct (decide (Z.gcd a b = 0)) as [E%Z.gcd_eq_0_l|]; lia.
Qed.

Lemma lcm_spec_witness : lcm 4096 6144 = Some (Z.lcm 4096 6144).
Proof. apply (lcm_spec 4096 6144); lia. Defined.

(** The product is taken before the division and wraps around: two equal
    alignments of 2^32 have 0 as their least common multiple, which the
    comparison with [max_uintx] cannot notice. *)
Lemma lcm_overflow : lcm (2 ^ 32) (2 ^ 32) = Some 0.
Proof.
  unfold lcm. rewrite lcm_loop_gcd; [|unfold MIN2, MAX2; simpl; lia..]. reflexivity.
Qed.

(* ------------------------------------------------------------------ *)
(** ** Rounding addresses *)

Lemma land_unot_ones x k : 0 <= k <= 64 -> in_u 64 x ->
  Z.land x (unot 64 (u64 (2 ^ k - 1))) = x - x mod 2 ^ k.
Proof.
  intros Hk Hx. rewrite <- land_lnot_ones by lia. apply Z.bits_inj'. intros i Hi. zbits.
  destruct (Z.ltb_spec i 64); cbn; [done|]. by rewrite (in_u_testbit 64 ltac:(lia) x i).
Qed.

(** [round_to] yields the least multiple that is not below its argument and [round_down]
    the greatest that is not above, within half of the address space. *)
Section Rounding.
Context (k : Z) (Hk : 0 <= k < 62).

Lemma round_to_spec x : 0 <= x <= 2 ^ 62 ->
  (2 ^ k | round_to x (2 ^ k)) /\ x <= round_to x (2 ^ k) < x + 2 ^ k.
Proof using Hk.
  intros Hx. pose proof (pow2_pos k ltac:(lia)).
  assert (2 ^ k <= 2 ^ 61) by (apply Z.pow_le_mono_r; lia).
  assert (Hm : u64 (2 ^ k - 1) = 2 ^ k - 1) by (apply uwrap_small; unfold in_u; lia).
  assert (Hs : u64 (x + (2 ^ k - 1)) = x + (2 ^ k - 1)) by (apply uwrap_small; unfold in_u; lia).
  unfold round_to. rewrite land_unot_ones by (try apply uwrap_range; lia).
  rewrite Hm, Hs. pose proof (Z.mod_pos_bound (x + (2 ^ k - 1)) (2 ^ k) ltac:(lia)).
  rewrite swrap_small; [|lia|unfold in_s; change (64 - 1) with 63; lia].
  split; [by apply sub_mod_divide|lia].
Qed.

Lemma round_down_spec x : 0 <= x <= 2 ^ 62 ->
  (2 ^ k | round_down x (2 ^ k)) /\ x - 2 ^ k < round_down x (2 ^ k) <= x.
Proof using Hk.
  intros Hx. pose proof (pow2_pos k ltac:(lia)).
  assert (2 ^ k <= 2 ^ 61) by (apply Z.pow_le_mono_r; lia).
  assert (Hm : u64 (2 ^ k - 1) = 2 ^ k - 1) by (apply uwrap_small; unfold in_u; lia).
  assert (Hs : u64 x = x) by (apply uwrap_small; unfold in_u; lia).
  unfold round_down. rewrite land_unot_ones by (try apply uwrap_range; lia).
  rewrite Hs. pose proof (Z.mod_pos_bound x (2 ^ k) ltac:(lia)).
  pose proof (Z.mod_le x (2 ^ k) ltac:(lia) ltac:(lia)).
  rewrite swrap_small; [|lia|unfold in_s; change (64 - 1) with 63; lia].
  split; [by apply sub_mod_divide|lia].
Qed.

(** Two multiples less than a step apart in one direction are in order. *)
Lemma multiple_le x y : (2 ^ k | x) -> (2 ^ k | y) -> x < y + 2 ^ k -> x <= y.
Proof using Hk.
  intros [a ->] [b ->] ?. pose proof (pow2_pos k ltac:(lia)).
  assert (a < b + 1) by (apply (Z.mul_lt_mono_pos_r (2 ^ k)); lia).
  apply Z.mul_le_mono_nonneg_r; lia.
Qed.

Lemma round_to_le x y : 0 <= x <= 2 ^ 62 -> x <= y -> (2 ^ k | y) -> round_to x (2 ^ k) <= y.
Proof using Hk. intros Hx Hxy Hy. destruct (round_to_spec x Hx) as [Hd ?]. apply multiple_le; [done..|lia]. Qed.

Lemma round_down_ge x y : 0 <= y <= 2 ^ 62 -> x <= y -> (2 ^ k | x) -> x <= round_down y (2 ^ k).
Proof using Hk. intros Hy Hxy Hx. destruct (round_down_spec y Hy) as [Hd ?]. apply multiple_le; [done..|lia]. Qed.
End Rounding.
