(* ===== verification/BitMap.v ===== *)
(** * BitMap: utilities/bitMap.hpp, bitMap.inline.hpp and bitMap.cpp

    A bitmap is an array of 64-bit words with a size in bits.  An operation returns
    [None] where the C++ code would read or write outside the array or fail a
    [guarantee]; debug-only assertions are preconditions of the theorems.  A
    compare-and-swap loop takes the list of what the other threads do to the word
    between its read and its exchange, one entry per attempt.  The abstraction of a
    bitmap is the function [bit_at] from indices to booleans. *)

From S2P Require Import Prelude GlobalDefs.

(* ------------------------------------------------------------------ *)
(** ** State and addressing *)

Record BitMap := { bm_map : list Z; bm_size : Z }.

Inductive RangeSizeHint := unknown_range | small_range | large_range.

Definition with_map (b : BitMap) (m : list Z) : BitMap :=
  {| bm_map := m; bm_size := bm_size b |}.

Definition empty_bitmap : BitMap := {| bm_map := []; bm_size := 0 |}.

Definition bit_in_word (bit : Z) : Z := Z.land bit (BitsPerWord - 1).
Definition bit_mask (bit : Z) : Z := u64 (Z.shiftl 1 (bit_in_word bit)).
Definition word_index (bit : Z) : Z := Z.shiftr bit LogBitsPerWord.
Definition bit_index (word : Z) : Z := u64 (Z.shiftl word LogBitsPerWord).
Definition size_in_words (b : BitMap) : Z := word_index (u64 (bm_size b + BitsPerWord - 1)).

Definition word_align_up (bit : Z) : Z := u64 (align_size_up (s64 bit) BitsPerWord).
Definition word_align_down (bit : Z) : Z := u64 (align_size_down (s64 bit) BitsPerWord).
Definition is_word_aligned (bit : Z) : bool := word_align_up bit =? bit.

Definition map_word (b : BitMap) (word : Z) : option Z := arr_get (bm_map b) word.

Definition set_word (b : BitMap) (word val : Z) : option BitMap :=
  with_map b <$> arr_set (bm_map b) word val.

(** [*word_addr(bit) = f( *word_addr(bit))]. *)
Definition update_word_of (b : BitMap) (bit : Z) (f : Z -> Z) : option BitMap :=
  w ← map_word b (word_index bit); set_word b (word_index bit) (f w).

Definition all_ones : Z := unot 64 0.

Definition word_index_round_up (b : BitMap) (bit : Z) : Z :=
  let bit_rounded_up := u64 (bit + (BitsPerWord - 1)) in
  if bit <? bit_rounded_up then word_index bit_rounded_up else size_in_words b.

(* ------------------------------------------------------------------ *)
(** ** Single bits *)

Definition at_ (b : BitMap) (index : Z) : option bool :=
  w ← map_word b (word_index index); Some (negb (Z.land w (bit_mask index) =? 0)).

Definition set_bit (b : BitMap) (bit : Z) : option BitMap :=
  update_word_of b bit (fun w => Z.lor w (bit_mask bit)).

Definition clear_bit (b : BitMap) (bit : Z) : option BitMap :=
  update_word_of b bit (fun w => Z.land w (unot 64 (bit_mask bit))).

Definition at_put (b : BitMap) (offset : Z) (value : bool) : option BitMap :=
  if value then set_bit b offset else clear_bit b offset.

(** [Atomic::cmpxchg_ptr]: the new content of the cell and the value returned. *)
Definition cmpxchg (cell new_val expected : Z) : Z * Z :=
  (if cell =? expected then new_val else cell, cell).

(** What another thread does to the word before the next exchange. *)
Definition interfere (env : list (Z -> Z)) (cell : Z) : Z :=
  match env with [] => cell | e :: _ => e cell end.

(** The loop of [par_set_bit]: the final content of the word and the result. *)
Fixpoint par_set_loop (fuel : nat) (env : list (Z -> Z)) (mask old_val cell : Z)
  : option (Z * bool) :=
  match fuel with
  | O => None
  | S f =>
      let new_val := Z.lor old_val mask in
      if new_val =? old_val then Some (cell, false)
      else
        let '(cell', cur_val) := cmpxchg (interfere env cell) new_val old_val in
        if cur_val =? old_val then Some (cell', true)
        else par_set_loop f (tl env) mask cur_val cell'
  end.

Definition par_set_bit (env : list (Z -> Z)) (b : BitMap) (bit : Z) : option (BitMap * bool) :=
  old_val ← map_word b (word_index bit);
  r ← par_set_loop (2 + length env) env (bit_mask bit) old_val old_val;
  b' ← set_word b (word_index bit) r.1;
  Some (b', r.2).

(** The loop of [par_clear_bit]; [mask] is the complement of the bit. *)
Fixpoint par_clear_loop (fuel : nat) (env : list (Z -> Z)) (mask old_val cell : Z)
  : option (Z * bool) :=
  match fuel with
  | O => None
  | S f =>
      let new_val := Z.land old_val mask in
      if new_val =? old_val then Some (cell, false)
      else
        let '(cell', cur_val) := cmpxchg (interfere env cell) new_val old_val in
        if cur_val =? old_val then Some (cell', true)
        else par_clear_loop f (tl env) mask cur_val cell'
  end.

Definition par_clear_bit (env : list (Z -> Z)) (b : BitMap) (bit : Z) : option (BitMap * bool) :=
  old_val ← map_word b (word_index bit);
  r ← par_clear_loop (2 + length env) env (unot 64 (bit_mask bit)) old_val old_val;
  b' ← set_word b (word_index bit) r.1;
  Some (b', r.2).

Definition par_at_put (env : list (Z -> Z)) (b : BitMap) (bit : Z) (value : bool)
  : option (BitMap * bool) :=
  if value then par_set_bit env b bit else par_clear_bit env b bit.

(* ------------------------------------------------------------------ *)
(** ** Ranges of bits *)

Definition inverted_bit_mask_for_range (beg end_ : Z) : Z :=
  let mask := u64 (bit_mask beg - 1) in
  if negb (bit_in_word end_ =? 0)
  then Z.lor mask (unot 64 (u64 (bit_mask end_ - 1)))
  else mask.

Definition set_range_within_word (b : BitMap) (beg end_ : Z) : option BitMap :=
  if negb (beg =? end_)
  then let mask := inverted_bit_mask_for_range beg end_ in
       update_word_of b beg (fun w => Z.lor w (unot 64 mask))
  else Some b.

Definition clear_range_within_word (b : BitMap) (beg end_ : Z) : option BitMap :=
  if negb (beg =? end_)
  then let mask := inverted_bit_mask_for_range beg end_ in
       update_word_of b beg (fun w => Z.land w mask)
  else Some b.

(** The value [par_put_range_within_word] tries to store over [w]. *)
Definition put_value (mr : Z) (value : bool) (w : Z) : Z :=
  if value then Z.lor w (unot 64 mr) else Z.land w mr.

Fixpoint par_put_loop (fuel : nat) (env : list (Z -> Z)) (mr : Z) (value : bool)
    (w nw cell : Z) : option Z :=
  match fuel with
  | O => None
  | S f =>
      let '(cell', res) := cmpxchg (interfere env cell) nw w in
      if res =? w then Some cell'
      else let w := cell' in
           let nw := put_value mr value w in
           par_put_loop f (tl env) mr value w nw cell'
  end.

Definition par_put_range_within_word (env : list (Z -> Z)) (b : BitMap) (beg end_ : Z)
    (value : bool) : option BitMap :=
  if negb (beg =? end_) then
    w ← map_word b (word_index beg);
    let mr := inverted_bit_mask_for_range beg end_ in
    let nw := put_value mr value w in
    w' ← par_put_loop (2 + length env) env mr value w nw w;
    set_word b (word_index beg) w'
  else Some b.

Definition set_range_of_words (b : BitMap) (beg end_ : Z) : option BitMap :=
  each_range beg end_ (fun i b => set_word b i all_ones) b.

Definition clear_range_of_words (b : BitMap) (beg end_ : Z) : option BitMap :=
  each_range beg end_ (fun i b => set_word b i 0) b.

(** [memset] of whole words with a byte: the number of bytes is a [size_t]. *)
Definition memset_words (b : BitMap) (beg c nbytes : Z) : option BitMap :=
  each_n (Z.to_nat (nbytes / BytesPerWord)) beg
    (fun i b => set_word b i (c * 0x0101010101010101)) b.

Definition set_large_range_of_words (b : BitMap) (beg end_ : Z) : option BitMap :=
  memset_words b beg (unot 8 0) (u64 (u64 (end_ - beg) * 8)).

Definition clear_large_range_of_words (b : BitMap) (beg end_ : Z) : option BitMap :=
  memset_words b beg 0 (u64 (u64 (end_ - beg) * 8)).

Definition set_range (b : BitMap) (beg end_ : Z) : option BitMap :=
  let beg_full_word := word_index_round_up b beg in
  let end_full_word := word_index end_ in
  if beg_full_word <? end_full_word then
    b ← set_range_within_word b beg (bit_index beg_full_word);
    b ← set_range_of_words b beg_full_word end_full_word;
    set_range_within_word b (bit_index end_full_word) end_
  else
    let boundary := MIN2 (bit_index beg_full_word) end_ in
    b ← set_range_within_word b beg boundary;
    set_range_within_word b boundary end_.

Definition clear_range (b : BitMap) (beg end_ : Z) : option BitMap :=
  let beg_full_word := word_index_round_up b beg in
  let end_full_word := word_index end_ in
  if beg_full_word <? end_full_word then
    b ← clear_range_within_word b beg (bit_index beg_full_word);
    b ← clear_range_of_words b beg_full_word end_full_word;
    clear_range_within_word b (bit_index end_full_word) end_
  else
    let boundary := MIN2 (bit_index beg_full_word) end_ in
    b ← clear_range_within_word b beg boundary;
    clear_range_within_word b boundary end_.

Definition set_large_range (b : BitMap) (beg end_ : Z) : option BitMap :=
  let beg_full_word := word_index_round_up b beg in
  let end_full_word := word_index end_ in
  b ← set_range_within_word b beg (bit_index beg_full_word);
  b ← set_large_range_of_words b beg_full_word end_full_word;
  set_range_within_word b (bit_index end_full_word) end_.

Definition clear_large_range (b : BitMap) (beg end_ : Z) : option BitMap :=
  let beg_full_word := word_index_round_up b beg in
  let end_full_word := word_index end_ in
  b ← clear_range_within_word b beg (bit_index beg_full_word);
  b ← clear_large_range_of_words b beg_full_word end_full_word;
  clear_range_within_word b (bit_index end_full_word) end_.

Definition at_put_range (b : BitMap) (start_offset end_offset : Z) (value : bool) : option BitMap :=
  if value then set_range b start_offset end_offset else clear_range b start_offset end_offset.

Definition at_put_large_range (b : BitMap) (beg end_ : Z) (value : bool) : option BitMap :=
  if value then set_large_range b beg end_ else clear_large_range b beg end_.

(** [env1] and [env2] are the interferences with the first and last partial word. *)
Definition par_at_put_range (env1 env2 : list (Z -> Z)) (b : BitMap) (beg end_ : Z)
    (value : bool) : option BitMap :=
  let beg_full_word := word_index_round_up b beg in
  let end_full_word := word_index end_ in
  if beg_full_word <? end_full_word then
    b ← par_put_range_within_word env1 b beg (bit_index beg_full_word) value;
    b ← (if value then set_range_of_words b beg_full_word end_full_word
         else clear_range_of_words b beg_full_word end_full_word);
    par_put_range_within_word env2 b (bit_index end_full_word) end_ value
  else
    let boundary := MIN2 (bit_index beg_full_word) end_ in
    b ← par_put_range_within_word env1 b beg boundary value;
    par_put_range_within_word env2 b boundary end_ value.

Definition par_at_put_large_range (env1 env2 : list (Z -> Z)) (b : BitMap) (beg end_ : Z)
    (value : bool) : option BitMap :=
  let beg_full_word := word_index_round_up b beg in
  let end_full_word := word_index end_ in
  b ← par_put_range_within_word env1 b beg (bit_index beg_full_word) value;
  b ← (if value then set_large_range_of_words b beg_full_word end_full_word
       else clear_large_range_of_words b beg_full_word end_full_word);
  par_put_range_within_word env2 b (bit_index end_full_word) end_ value.

#[export] Instance RangeSizeHint_eq_dec : EqDecision RangeSizeHint.
Proof. solve_decision. Defined.

Definition set_range_hint (b : BitMap) (beg end_ : Z) (hint : RangeSizeHint) : option BitMap :=
  if bool_decide (hint = small_range) && (u64 (end_ - beg) =? 1) then set_bit b beg
  else if bool_decide (hint = large_range) then set_large_range b beg end_
  else set_range b beg end_.

Definition clear_range_hint (b : BitMap) (beg end_ : Z) (hint : RangeSizeHint) : option BitMap :=
  if bool_decide (hint = small_range) && (u64 (end_ - beg) =? 1) then clear_bit b beg
  else if bool_decide (hint = large_range) then clear_large_range b beg end_
  else clear_range b beg end_.

Definition clear (b : BitMap) : option BitMap := clear_range_of_words b 0 (size_in_words b).
Definition clear_large (b : BitMap) : option BitMap :=
  clear_large_range_of_words b 0 (size_in_words b).

Definition par_set_range_hint (env1 env2 : list (Z -> Z)) (b : BitMap) (beg end_ : Z)
    (hint : RangeSizeHint) : option BitMap :=
  if bool_decide (hint = small_range) && (u64 (end_ - beg) =? 1)
  then fst <$> par_at_put env1 b beg true
  else if bool_decide (hint = large_range) then par_at_put_large_range env1 env2 b beg end_ true
  else par_at_put_range env1 env2 b beg end_ true.

Definition par_clear_range_hint (env1 env2 : list (Z -> Z)) (b : BitMap) (beg end_ : Z)
    (hint : RangeSizeHint) : option BitMap :=
  if bool_decide (hint = small_range) && (u64 (end_ - beg) =? 1)
  then fst <$> par_at_put env1 b beg false
  else if bool_decide (hint = large_range) then par_at_put_large_range env1 env2 b beg end_ false
  else par_at_put_range env1 env2 b beg end_ false.

(* ------------------------------------------------------------------ *)
(** ** Resizing *)

(** [junk] is what the freshly allocated array happens to contain. *)
Definition resize (junk : Z -> Z) (b : BitMap) (size_in_bits : Z) : option BitMap :=
  let old_size_in_words := size_in_words b in
  let old_map := bm_map b in
  let b := {| bm_map := old_map; bm_size := size_in_bits |} in
  let new_size_in_words := size_in_words b in
  let b := with_map b (junk <$> seqZ 0 new_size_in_words) in
  b ← each_range 0 (MIN2 old_size_in_words new_size_in_words)
        (fun i b => w ← arr_get old_map i; set_word b i w) b;
  if old_size_in_words <? new_size_in_words
  then clear_range_of_words b old_size_in_words (size_in_words b)
  else Some b.

(** The constructor that allocates. *)
Definition new_bitmap (junk : Z -> Z) (size_in_bits : Z) : option BitMap :=
  resize junk empty_bitmap size_in_bits.

Definition at_put_grow (junk : Z -> Z) (b : BitMap) (offset : Z) (value : bool) : option BitMap :=
  b ← (if bm_size b <=? offset then resize junk b (u64 (2 * MAX2 (bm_size b) offset)) else Some b);
  at_put b offset value.

(* ------------------------------------------------------------------ *)
(** ** Set operations *)

(** [for (index = 0; index < size; index++) dest_map[index] = f(dest_map[index], other_map[index])]. *)
Definition map_words2 (f : Z -> Z -> Z) (b other : BitMap) : option BitMap :=
  each_range 0 (size_in_words b)
    (fun index b =>
       x ← map_word b index; y ← map_word other index; set_word b index (f x y)) b.

Definition set_union (b other : BitMap) : option BitMap := map_words2 Z.lor b other.
Definition set_difference (b other : BitMap) : option BitMap :=
  map_words2 (fun x y => Z.land x (unot 64 y)) b other.
Definition set_intersection (b other : BitMap) : option BitMap := map_words2 Z.land b other.
Definition set_from (b other : BitMap) : option BitMap := map_words2 (fun _ y => y) b other.

Definition set_intersection_at_offset (b other : BitMap) (offset : Z) : option BitMap :=
  guard_b (offset mod 64 =? 0)
    (let offset_word_ind := word_index offset in
     each_range 0 (size_in_words b)
       (fun index b =>
          x ← map_word b index; y ← map_word other (offset_word_ind + index);
          set_word b index (Z.land x y)) b).

(** The same loop keeping track of whether a word changed. *)
Definition map_words2_changed (f : Z -> Z -> Z) (b other : BitMap) : option (BitMap * bool) :=
  each_range 0 (size_in_words b)
    (fun index '(b, changed) =>
       x ← map_word b index; y ← map_word other index;
       let temp := f x y in
       let changed := changed || negb (temp =? x) in
       b ← set_word b index temp; Some (b, changed)) (b, false).

Definition set_union_with_result (b other : BitMap) := map_words2_changed Z.lor b other.
Definition set_difference_with_result (b other : BitMap) :=
  map_words2_changed (fun x y => Z.land x (unot 64 y)) b other.
Definition set_intersection_with_result (b other : BitMap) := map_words2_changed Z.land b other.

(** The value a search loop leaves the function with, [dflt] at its end. *)
Definition loop_result {R} (dflt : R) (c : ctl unit R) : R :=
  match c with Next _ => dflt | Return r => r end.

Definition contains (b other : BitMap) : option bool :=
  loop_result true <$> for_range 0 (size_in_words b)
    (fun index _ =>
       x ← map_word b index; y ← map_word other index;
       let word_union := Z.lor x y in
       Some (if negb (word_union =? x) then Return false else Next ())) ().

Definition intersects (b other : BitMap) : option bool :=
  loop_result false <$> for_range 0 (size_in_words b)
    (fun index _ =>
       x ← map_word b index; y ← map_word other index;
       Some (if negb (Z.land x y =? 0) then Return true else Next ())) ().

Definition is_same (b other : BitMap) : option bool :=
  loop_result true <$> for_range 0 (size_in_words b)
    (fun index _ =>
       x ← map_word b index; y ← map_word other index;
       Some (if negb (x =? y) then Return false else Next ())) ().

(** The loops of [is_full] and [is_empty]: [word] is the pointer's index. *)
Fixpoint is_full_loop (fuel : nat) (b : BitMap) (word rest : Z) : option bool :=
  match fuel with
  | O => None
  | S f =>
      if BitsPerWord <=? rest then
        w ← map_word b word;
        if negb (w =? u64 AllBits) then Some false
        else is_full_loop f b (word + 1) (rest - BitsPerWord)
      else if rest =? 0 then Some true
      else w ← map_word b word;
           Some (Z.lor w (u64 (Z.lnot (right_n_bits rest))) =? u64 AllBits)
  end.

Definition is_full (b : BitMap) : option bool :=
  is_full_loop (Datatypes.S (Z.to_nat (bm_size b / BitsPerWord))) b 0 (bm_size b).

Fixpoint is_empty_loop (fuel : nat) (b : BitMap) (word rest : Z) : option bool :=
  match fuel with
  | O => None
  | S f =>
      if BitsPerWord <=? rest then
        w ← map_word b word;
        if negb (w =? NoBits) then Some false
        else is_empty_loop f b (word + 1) (rest - BitsPerWord)
      else if rest =? 0 then Some true
      else w ← map_word b word; Some (Z.land w (u64 (right_n_bits rest)) =? NoBits)
  end.

Definition is_empty (b : BitMap) : option bool :=
  is_empty_loop (Datatypes.S (Z.to_nat (bm_size b / BitsPerWord))) b 0 (bm_size b).

(** The retry loops of [mostly_disjoint_range_union]. *)
Fixpoint or_word_loop (fuel : nat) (env : list (Z -> Z)) (from cell : Z) : option Z :=
  match fuel with
  | O => None
  | S f =>
      let old_value := cell in
      let new_value := Z.lor old_value from in
      let '(cell', res) := cmpxchg (interfere env cell) new_value old_value in
      if res =? old_value then Some cell' else or_word_loop f (tl env) from cell'
  end.

Definition or_word (env : list (Z -> Z)) (b from_bitmap : BitMap) (from to : Z) : option BitMap :=
  x ← map_word from_bitmap from;
  if negb (x =? 0) then
    y ← map_word b to; y' ← or_word_loop (2 + length env) env x y; set_word b to y'
  else Some b.

Definition mostly_disjoint_range_union (env1 env2 : list (Z -> Z)) (b from_bitmap : BitMap)
    (from_start_index to_start_index word_num : Z) : option BitMap :=
  guard_b (bit_in_word from_start_index =? 0)
  (guard_b (bit_in_word to_start_index =? 0)
  (guard_b (2 <=? word_num)
    (let from := word_index from_start_index in
     let to := word_index to_start_index in
     b ← or_word env1 b from_bitmap from to;
     b ← each_range 0 (word_num - 2)
       (fun i b => x ← map_word from_bitmap (from + 1 + i);
                   if negb (x =? 0) then set_word b (to + 1 + i) x else Some b) b;
     or_word env2 b from_bitmap (from + (word_num - 1)) (to + (word_num - 1))))).

(* ------------------------------------------------------------------ *)
(** ** Searching *)

(** [for (; !(res & 1); res_offset++) res = res >> 1;] *)
Fixpoint skip_zeros (fuel : nat) (res res_offset : Z) : option Z :=
  match fuel with
  | O => None
  | S f => if Z.land res 1 =? 0 then skip_zeros f (Z.shiftr res 1) (res_offset + 1)
           else Some res_offset
  end.

(** [for (; res & 1; res_offset++) res = res >> 1;] *)
Fixpoint skip_ones (fuel : nat) (res res_offset : Z) : option Z :=
  match fuel with
  | O => None
  | S f => if Z.land res 1 =? 0 then Some res_offset
           else skip_ones f (Z.shiftr res 1) (res_offset + 1)
  end.

Definition get_next_one_offset_inline (b : BitMap) (l_offset r_offset : Z) : option Z :=
  if l_offset =? r_offset then Some l_offset
  else
    let index := word_index l_offset in
    let r_index := word_index (r_offset - 1) + 1 in
    let res_offset := l_offset in
    let pos := bit_in_word res_offset in
    w ← map_word b index;
    let res := Z.shiftr w pos in
    if negb (res =? NoBits) then
      res_offset ← skip_zeros 64 res res_offset;
      Some (MIN2 res_offset r_offset)
    else
      loop_result r_offset <$> for_range (index + 1) r_index
        (fun index _ =>
           res ← map_word b index;
           if negb (res =? NoBits) then
             res_offset ← skip_zeros 64 res (bit_index index);
             Some (Return (MIN2 res_offset r_offset))
           else Some (Next ())) ().

Definition get_next_zero_offset_inline (b : BitMap) (l_offset r_offset : Z) : option Z :=
  if l_offset =? r_offset then Some l_offset
  else
    let index := word_index l_offset in
    let r_index := word_index (r_offset - 1) + 1 in
    let res_offset := l_offset in
    let pos := Z.land res_offset (BitsPerWord - 1) in
    w ← map_word b index;
    let res := Z.lor (Z.shiftr w pos) (u64 (left_n_bits pos)) in
    if negb (res =? u64 AllBits) then
      res_offset ← skip_ones 64 res res_offset;
      Some (MIN2 res_offset r_offset)
    else
      loop_result r_offset <$> for_range (index + 1) r_index
        (fun index _ =>
           res ← map_word b index;
           if negb (res =? u64 AllBits) then
             res_offset ← skip_ones 64 res (u64 (Z.shiftl index LogBitsPerWord));
             Some (Return (MIN2 res_offset r_offset))
           else Some (Next ())) ().

Definition get_next_one_offset_inline_aligned_right (b : BitMap) (l_offset r_offset : Z)
  : option Z :=
  if l_offset =? r_offset then Some l_offset
  else
    let index := word_index l_offset in
    let r_index := word_index r_offset in
    let res_offset := l_offset in
    w ← map_word b index;
    let res := Z.shiftr w (bit_in_word res_offset) in
    if negb (res =? NoBits) then skip_zeros 64 res res_offset
    else
      loop_result r_offset <$> for_range (index + 1) r_index
        (fun index _ =>
           res ← map_word b index;
           if negb (res =? NoBits) then
             res_offset ← skip_zeros 64 res (bit_index index); Some (Return res_offset)
           else Some (Next ())) ().

Definition get_next_one_offset (b : BitMap) (l r : Z) := get_next_one_offset_inline b l r.
Definition get_next_zero_offset (b : BitMap) (l r : Z) := get_next_zero_offset_inline b l r.

(** The closure [blk] may change the bitmap it is applied to and its own state. *)
Section Iterate.
Context {St : Type} (do_bit : Z -> BitMap -> St -> BitMap * St * bool).

Fixpoint iterate_word (fuel : nat) (index offset rightOffset rest : Z) (b : BitMap) (s : St)
  : option (BitMap * St * (bool * Z)) :=
  match fuel with
  | O => None
  | S f =>
      if (offset <? rightOffset) && negb (rest =? NoBits) then
        if negb (Z.land rest 1 =? 0) then
          let '(b, s, continue) := do_bit offset b s in
          if negb continue then Some (b, s, (false, offset))
          else
            w ← map_word b index;
            let rest := Z.shiftr w (Z.land offset (BitsPerWord - 1)) in
            iterate_word f index (offset + 1) rightOffset (Z.shiftr rest 1) b s
        else iterate_word f index (offset + 1) rightOffset (Z.shiftr rest 1) b s
      else Some (b, s, (true, offset))
  end.

(** The turns one word can take: each advances the offset within it. *)
Definition word_fuel : nat := 65.

Fixpoint iterate_words (fuel : nat) (index offset endIndex rightOffset : Z) (b : BitMap) (s : St)
  : option (BitMap * St * bool) :=
  match fuel with
  | O => None
  | S f =>
      if (offset <? rightOffset) && (index <? endIndex) then
        w ← map_word b index;
        let rest := Z.shiftr w (Z.land offset (BitsPerWord - 1)) in
        r ← iterate_word word_fuel index offset rightOffset rest b s;
        let '(b, s, (continue, _)) := r in
        if negb continue then Some (b, s, false)
        else iterate_words f (index + 1) (u64 (Z.shiftl (index + 1) LogBitsPerWord))
               endIndex rightOffset b s
      else Some (b, s, true)
  end.

Definition iterate (b : BitMap) (s : St) (leftOffset rightOffset : Z)
  : option (BitMap * St * bool) :=
  let startIndex := word_index leftOffset in
  let endIndex := MIN2 (word_index rightOffset + 1) (size_in_words b) in
  iterate_words (Datatypes.S (Z.to_nat (endIndex - startIndex)))
    startIndex leftOffset endIndex rightOffset b s.
End Iterate.

(* ------------------------------------------------------------------ *)
(** ** Population counts *)

(** [while ((w & 1) == 0) w >>= 1;] *)
Fixpoint shift_out_zeros (fuel : nat) (w : Z) : option Z :=
  match fuel with
  | O => None
  | S f => if Z.land w 1 =? 0 then shift_out_zeros f (Z.shiftr w 1) else Some w
  end.

Fixpoint num_set_bits_loop (fuel : nat) (w bits : Z) : option Z :=
  match fuel with
  | O => None
  | S f =>
      if negb (w =? 0) then
        w ← shift_out_zeros 64 w; num_set_bits_loop f (Z.shiftr w 1) (bits + 1)
      else Some bits
  end.

Definition num_set_bits (w : Z) : option Z := num_set_bits_loop 65 w 0.

(** [_pop_count_table], built on first use. *)
Definition init_pop_count_table (table : option (list Z)) : option (list Z) :=
  match table with
  | Some t => Some t
  | None => mapM num_set_bits (seqZ 0 256)
  end.

Definition count_one_bits (table : option (list Z)) (b : BitMap) : option Z :=
  t ← init_pop_count_table table;
  each_range 0 (size_in_words b)
    (fun i sum =>
       w ← map_word b i;
       fst <$> each_range 0 8
         (fun _ '(sum, w) =>
            n ← arr_get t (u8 (Z.land w 255)); Some (u64 (sum + n), Z.shiftr w 8)) (sum, w)) 0.

(* ------------------------------------------------------------------ *)
(** ** Several bits per slot *)

Record BitMap2D := { b2_map : BitMap; b2_bits_per_slot : Z }.

Definition bit_index2 (m : BitMap2D) (slot bit : Z) : Z :=
  u64 (slot * b2_bits_per_slot m + bit).
Definition new_bitmap2 (junk : Z -> Z) (size_in_slots bits_per_slot : Z) : option BitMap2D :=
  b ← new_bitmap junk (u64 (size_in_slots * bits_per_slot));
  Some {| b2_map := b; b2_bits_per_slot := bits_per_slot |}.
Definition size_in_slots2 (m : BitMap2D) : Z := bm_size (b2_map m) / b2_bits_per_slot m.
Definition is_valid_index2 (m : BitMap2D) (slot bit : Z) : bool :=
  bit_index2 m slot bit <? bm_size (b2_map m).
Definition with_map2 (m : BitMap2D) (b : BitMap) : BitMap2D :=
  {| b2_map := b; b2_bits_per_slot := b2_bits_per_slot m |}.
Definition at2 (m : BitMap2D) (slot bit : Z) : option bool :=
  at_ (b2_map m) (bit_index2 m slot bit).
Definition set_bit2 (m : BitMap2D) (slot bit : Z) : option BitMap2D :=
  with_map2 m <$> set_bit (b2_map m) (bit_index2 m slot bit).
Definition clear_bit2 (m : BitMap2D) (slot bit : Z) : option BitMap2D :=
  with_map2 m <$> clear_bit (b2_map m) (bit_index2 m slot bit).
Definition at_put2 (m : BitMap2D) (slot bit : Z) (value : bool) : option BitMap2D :=
  with_map2 m <$> at_put (b2_map m) (bit_index2 m slot bit) value.
Definition at_put_grow2 (junk : Z -> Z) (m : BitMap2D) (slot bit : Z) (value : bool)
  : option BitMap2D :=
  with_map2 m <$> at_put_grow junk (b2_map m) (bit_index2 m slot bit) value.
Definition clear2 (m : BitMap2D) : option BitMap2D := with_map2 m <$> clear (b2_map m).

(* ------------------------------------------------------------------ *)
(** * The abstraction: a bitmap is a function from indices to booleans *)

Definition bit_at (b : BitMap) (i : Z) : bool :=
  Z.testbit (default 0 (arr_get (bm_map b) (i / 64))) (i mod 64).

(** Well-formedness: the array has exactly the words the size calls for, each is a
    64-bit word, and the size does not overflow when rounded up. *)
Record wf (b : BitMap) : Prop := {
  wf_size : 0 <= bm_size b < 2 ^ 64 - 64;
  wf_length : Z.of_nat (length (bm_map b)) = (bm_size b + 63) / 64;
  wf_words : Forall (in_u 64) (bm_map b) }.

(** The specification of an update: it succeeds, keeps well-formedness and the
    size, and the bits become [g]. *)
Definition updates (b : BitMap) (o : option BitMap) (g : Z -> bool) : Prop :=
  exists b', o = Some b' /\ wf b' /\ bm_size b' = bm_size b /\
             forall i, 0 <= i -> bit_at b' i = g i.

Definition in_range (l r i : Z) : bool := (l <=? i) && (i <? r).

(** The bits of [b] with those of [l, r) replaced by [v]. *)
Definition put (b : BitMap) (l r : Z) (v : bool) (i : Z) : bool :=
  if in_range l r i then v else bit_at b i.

Ltac split64 i :=
  pose proof (Z.div_mod i 64 ltac:(lia)); pose proof (Z.mod_pos_bound i 64 ltac:(lia)).

Section Addressing.
Lemma word_index_div i : word_index i = i / 64.
Proof. unfold word_index. by rewrite Z.shiftr_div_pow2. Qed.

Lemma bit_in_word_mod i : bit_in_word i = i mod 64.
Proof. unfold bit_in_word. change (BitsPerWord - 1) with (2 ^ 6 - 1). by apply land_ones_mod. Qed.

Lemma land_63_mod i : Z.land i (BitsPerWord - 1) = i mod 64.
Proof. apply bit_in_word_mod. Qed.

Lemma bit_index_mul q : 0 <= q -> q * 64 < 2 ^ 64 -> bit_index q = q * 64.
Proof.
  intros. unfold bit_index. rewrite Z.shiftl_mul_pow2 by done.
  change (2 ^ LogBitsPerWord) with 64. apply uwrap_small; [lia|unfold in_u; lia].
Qed.

Lemma bit_mask_pow i : bit_mask i = 2 ^ (i mod 64).
Proof.
  unfold bit_mask. rewrite bit_in_word_mod, Z.shiftl_1_l. split64 i.
  apply uwrap_small; [lia|]. split; [apply Z.pow_nonneg; lia | apply Z.pow_lt_mono_r; lia].
Qed.

Lemma bit_mask_testbit i j : 0 <= j -> Z.testbit (bit_mask i) j = (j =? i mod 64).
Proof.
  intros. rewrite bit_mask_pow, Z.pow2_bits_eqb by (split64 i; lia). apply Z.eqb_sym.
Qed.

Lemma bit_mask_range i : in_u 64 (bit_mask i).
Proof. unfold bit_mask. auto with machine. Qed.

Lemma size_in_words_div b : wf b -> size_in_words b = (bm_size b + 63) / 64.
Proof.
  intros [Hs _ _]. unfold size_in_words. rewrite word_index_div. f_equal.
  change BitsPerWord with 64. rewrite uwrap_small; [lia | lia | unfold in_u; lia].
Qed.

Lemma word_index_round_up_div b i : wf b -> 0 <= i <= bm_size b ->
  word_index_round_up b i = (i + 63) / 64.
Proof.
  intros [Hs _ _] Hi. unfold word_index_round_up. change (BitsPerWord - 1) with 63.
  rewrite (uwrap_small 64) by (unfold in_u; lia). zcases. apply word_index_div.
Qed.

Lemma all_ones_eq : all_ones = Z.ones 64.
Proof. reflexivity. Qed.

Lemma all_bits_eq : u64 AllBits = Z.ones 64.
Proof. reflexivity. Qed.

(** Below [pos] the mask is 1, from [pos] on it is 0. *)
Lemma low_mask_testbit i j : 0 <= j -> Z.testbit (u64 (bit_mask i - 1)) j = (j <? i mod 64).
Proof.
  intros Hj. split64 i. rewrite bit_mask_pow, Z.sub_1_r, <- Z.ones_equiv.
  rewrite uwrap_testbit, Z.testbit_ones_nonneg by lia. zcases; done.
Qed.

Lemma inverted_mask_testbit beg e j : 0 <= j < 64 ->
  Z.testbit (inverted_bit_mask_for_range beg e) j =
    (j <? beg mod 64) || (negb (e mod 64 =? 0) && (e mod 64 <=? j)).
Proof.
  intros Hj. unfold inverted_bit_mask_for_range. rewrite bit_in_word_mod.
  destruct (Z.eqb_spec (e mod 64) 0); simpl.
  - rewrite low_mask_testbit by lia. by rewrite orb_false_r.
  - rewrite Z.lor_spec, unot_testbit, !low_mask_testbit by lia.
    zcases; done.
Qed.

Lemma inverted_mask_range beg e : in_u 64 (inverted_bit_mask_for_range beg e).
Proof. unfold inverted_bit_mask_for_range. destruct (negb _); auto with machine. Qed.
End Addressing.

#[export] Hint Resolve bit_mask_range inverted_mask_range : machine.

Section Access.
Context (b : BitMap) (Hb : wf b).

Lemma word_range i w : map_word b i = Some w -> in_u 64 w.
Proof using Hb. apply arr_get_Forall, Hb. Qed.

Lemma word_present i : 0 <= i < (bm_size b + 63) / 64 -> exists w, map_word b i = Some w.
Proof using Hb. intros. apply arr_get_Some. by rewrite (wf_length b Hb). Qed.

Lemma bit_at_word i w : map_word b (i / 64) = Some w -> bit_at b i = Z.testbit w (i mod 64).
Proof using Type. unfold bit_at, map_word. by intros ->. Qed.

Lemma word_bit q w j : map_word b q = Some w -> 0 <= j < 64 ->
  Z.testbit w j = bit_at b (q * 64 + j).
Proof using Type.
  intros Hw Hj. unfold bit_at. rewrite Z.div_add_l, Z.div_small, Z.add_0_r by lia.
  rewrite Z.add_comm, Z.mod_add, Z.mod_small by lia. unfold map_word in Hw. by rewrite Hw.
Qed.

Lemma bit_at_beyond i : (bm_size b + 63) / 64 * 64 <= i -> bit_at b i = false.
Proof using Hb.
  intros Hi. unfold bit_at. rewrite arr_get_out; [apply Z.testbit_0_l|].
  rewrite (wf_length b Hb). apply Z.div_le_lower_bound; lia.
Qed.

(** Writing one word. *)
Lemma set_word_updates q x : 0 <= q < (bm_size b + 63) / 64 -> in_u 64 x ->
  updates b (set_word b q x)
    (fun i => if i / 64 =? q then Z.testbit x (i mod 64) else bit_at b i).
Proof using Hb.
  intros Hq Hx. pose proof (wf_length b Hb) as Hl. unfold updates, set_word.
  rewrite arr_set_Some by lia. simpl. eexists. split; [done|]. split.
  - split; simpl; [apply Hb | by rewrite length_insert |].
    apply Forall_insert; [apply Hb | done].
  - split; [done|]. intros i Hi. unfold bit_at at 1. simpl.
    rewrite arr_get_insert by lia. by destruct (Z.eqb_spec (i / 64) q).
Qed.

Lemma update_word_updates bit f : 0 <= bit < bm_size b ->
  (forall w, in_u 64 w -> in_u 64 (f w)) ->
  exists w, map_word b (bit / 64) = Some w /\ in_u 64 w /\
    updates b (update_word_of b bit f)
      (fun i => if i / 64 =? bit / 64 then Z.testbit (f w) (i mod 64) else bit_at b i).
Proof using Hb.
  intros Hbit Hf. assert (Hq : 0 <= bit / 64 < (bm_size b + 63) / 64).
  { split64 bit. split64 (bm_size b + 63). lia. }
  destruct (word_present _ Hq) as [w Hw]. pose proof (word_range _ _ Hw) as Hr.
  exists w. split_and!; [done|done|]. unfold update_word_of. rewrite word_index_div, Hw. simpl.
  apply set_word_updates; auto.
Qed.
End Access.

Lemma updates_ext b o g h : updates b o g -> (forall i, 0 <= i -> g i = h i) -> updates b o h.
Proof.
  intros (b' & Ho & Hwf & Hs & Hg) He. exists b'. split_and!; try done.
  intros i Hi. rewrite Hg, He by done. done.
Qed.

(** Sequential composition of updates. *)
Lemma updates_bind b o g (k : BitMap -> option BitMap) h :
  updates b o g ->
  (forall b', wf b' -> bm_size b' = bm_size b -> (forall i, 0 <= i -> bit_at b' i = g i) ->
     updates b' (k b') h) ->
  updates b (o ≫= k) h.
Proof.
  intros (b1 & -> & Hwf & Hs & Hg) Hk. simpl.
  destruct (Hk b1 Hwf Hs Hg) as (b2 & E & Hwf2 & Hs2 & Hh).
  exists b2. split_and!; try done. congruence.
Qed.

Lemma updates_refl b : wf b -> updates b (Some b) (bit_at b).
Proof. intros. by exists b. Qed.

(* ------------------------------------------------------------------ *)
(** ** Single bits: lemmas *)

Lemma land_bit_mask w i : negb (Z.land w (bit_mask i) =? 0) = Z.testbit w (i mod 64).
Proof.
  assert (E : Z.testbit (Z.land w (bit_mask i)) (i mod 64) = Z.testbit w (i mod 64)).
  { split64 i. rewrite Z.land_spec, bit_mask_testbit, Z.eqb_refl by lia. apply andb_true_r. }
  destruct (Z.eqb_spec (Z.land w (bit_mask i)) 0) as [E0|E0]; simpl.
  - by rewrite <- E, E0, Z.testbit_0_l.
  - symmetry. destruct (Z.testbit w (i mod 64)) eqn:Hw; [done|]. exfalso. apply E0.
    apply Z.bits_inj'. intros j Hj. rewrite Z.land_spec, bit_mask_testbit, Z.testbit_0_l by lia.
    destruct (Z.eqb_spec j (i mod 64)) as [->|]; [by rewrite Hw | apply andb_false_r].
Qed.

Lemma at_bit_at b i : wf b -> 0 <= i < bm_size b -> at_ b i = Some (bit_at b i).
Proof.
  intros Hb Hi. unfold at_. rewrite word_index_div.
  destruct (word_present b Hb (i / 64)) as [w Hw].
  { split64 i. split64 (bm_size b + 63). lia. }
  rewrite Hw. simpl. f_equal. rewrite land_bit_mask. symmetry. by apply bit_at_word.
Qed.

(** Compare an index with a position of the same word, word by word. *)
Ltac same_word := zcases; try done; exfalso; Z.div_mod_to_equations; lia.

Lemma set_bit_updates b i : wf b -> 0 <= i < bm_size b ->
  updates b (set_bit b i) (put b i (i + 1) true).
Proof.
  intros Hb Hi. destruct (update_word_updates b Hb i (fun w => Z.lor w (bit_mask i)) Hi)
    as (w & Hw & Hr & Hu); [auto with machine|].
  eapply updates_ext; [apply Hu|]. intros j Hj. simpl. unfold put, in_range.
  destruct (Z.eqb_spec (j / 64) (i / 64)) as [E|E]; [|same_word].
  split64 i. split64 j. rewrite Z.lor_spec, bit_mask_testbit by lia.
  rewrite <- E in Hw. rewrite <- (bit_at_word b j w Hw). zcases; try lia; btauto.
Qed.

Lemma clear_bit_updates b i : wf b -> 0 <= i < bm_size b ->
  updates b (clear_bit b i) (put b i (i + 1) false).
Proof.
  intros Hb Hi.
  destruct (update_word_updates b Hb i (fun w => Z.land w (unot 64 (bit_mask i))) Hi)
    as (w & Hw & Hr & Hu).
  { intros w Hw. apply in_u_land_l; [lia | done|]. by apply (unot_range 64). }
  eapply updates_ext; [apply Hu|]. intros j Hj. simpl. unfold put, in_range.
  destruct (Z.eqb_spec (j / 64) (i / 64)) as [E|E]; [|same_word].
  split64 i. split64 j. rewrite Z.land_spec, unot_testbit, bit_mask_testbit by lia.
  rewrite <- E in Hw. rewrite <- (bit_at_word b j w Hw). zcases; try lia; simpl; btauto.
Qed.

Lemma at_put_updates b i v : wf b -> 0 <= i < bm_size b ->
  updates b (at_put b i v) (put b i (i + 1) v).
Proof. destruct v; simpl; auto using set_bit_updates, clear_bit_updates. Qed.

(* ------------------------------------------------------------------ *)
(** ** Ranges: lemmas *)

(** The half-open range [beg, e) lies in one word of a bitmap, or is empty. *)
Definition within_word (b : BitMap) (beg e : Z) : Prop :=
  0 <= beg <= e /\ (beg < e -> beg < bm_size b /\ beg / 64 = (e - 1) / 64).

Lemma inverted_mask_in_range b beg e j : within_word b beg e -> beg < e -> j / 64 = beg / 64 ->
  Z.testbit (inverted_bit_mask_for_range beg e) (j mod 64) = negb (in_range beg e j).
Proof.
  intros [Hr Hw] Hlt Hj. destruct (Hw Hlt) as [Hs Hq].
  split64 j. split64 beg. split64 e. split64 (e - 1).
  rewrite inverted_mask_testbit by lia. unfold in_range.
  assert (He : e mod 64 = 0 /\ e / 64 = beg / 64 + 1 \/ e mod 64 <> 0 /\ e / 64 = beg / 64)
    by (Z.div_mod_to_equations; lia).
  destruct He as [[-> He]|[Hne He]]; [rewrite Z.eqb_refl|rewrite (proj2 (Z.eqb_neq _ _) Hne)];
    simpl; zcases; done.
Qed.

Lemma set_range_within_word_updates b beg e : wf b -> within_word b beg e ->
  updates b (set_range_within_word b beg e) (put b beg e true).
Proof.
  intros Hb Hw. unfold set_range_within_word. destruct (Z.eqb_spec beg e) as [->|Hne]; simpl.
  - eapply updates_ext; [by apply updates_refl|]. intros j Hj. unfold put, in_range. zcases; done.
  - assert (Hlt : beg < e) by (destruct Hw; lia). destruct (proj2 Hw Hlt) as [Hs Hq].
    destruct (update_word_updates b Hb beg
      (fun w => Z.lor w (unot 64 (inverted_bit_mask_for_range beg e)))) as (w & Hget & Hr & Hu);
      [destruct Hw; lia | auto with machine|].
    eapply updates_ext; [apply Hu|]. intros j Hj. simpl. unfold put.
    destruct (Z.eqb_spec (j / 64) (beg / 64)) as [E|E].
    + split64 j. rewrite Z.lor_spec, unot_testbit by lia.
      rewrite (inverted_mask_in_range b beg e j Hw Hlt E), negb_involutive.
      rewrite <- E in Hget. rewrite <- (bit_at_word b j w Hget).
      destruct (in_range beg e j); zcases; simpl; btauto.
    + unfold in_range. same_word.
Qed.

Lemma clear_range_within_word_updates b beg e : wf b -> within_word b beg e ->
  updates b (clear_range_within_word b beg e) (put b beg e false).
Proof.
  intros Hb Hw. unfold clear_range_within_word. destruct (Z.eqb_spec beg e) as [->|Hne]; simpl.
  - eapply updates_ext; [by apply updates_refl|]. intros j Hj. unfold put, in_range. zcases; done.
  - assert (Hlt : beg < e) by (destruct Hw; lia). destruct (proj2 Hw Hlt) as [Hs Hq].
    destruct (update_word_updates b Hb beg
      (fun w => Z.land w (inverted_bit_mask_for_range beg e))) as (w & Hget & Hr & Hu).
    { destruct Hw; lia. }
    { intros w Hwr. apply in_u_land_l; [lia | done | apply (inverted_mask_range beg e)]. }
    eapply updates_ext; [apply Hu|]. intros j Hj. simpl. unfold put.
    destruct (Z.eqb_spec (j / 64) (beg / 64)) as [E|E].
    + split64 j. rewrite Z.land_spec.
      rewrite (inverted_mask_in_range b beg e j Hw Hlt E).
      rewrite <- E in Hget. rewrite <- (bit_at_word b j w Hget).
      destruct (in_range beg e j); simpl; btauto.
    + unfold in_range. same_word.
Qed.

Definition put_range_within_word (v : bool) (b : BitMap) (beg e : Z) : option BitMap :=
  if v then set_range_within_word b beg e else clear_range_within_word b beg e.

Definition word_of (v : bool) : Z := if v then all_ones else 0.

Lemma put_range_within_word_updates v b beg e : wf b -> within_word b beg e ->
  updates b (put_range_within_word v b beg e) (put b beg e v).
Proof.
  destruct v; auto using set_range_within_word_updates, clear_range_within_word_updates.
Qed.

Lemma word_of_range v : in_u 64 (word_of v).
Proof. destruct v; vm_compute; intuition discriminate. Qed.

Lemma word_of_testbit v j : 0 <= j < 64 -> Z.testbit (word_of v) j = v.
Proof.
  intros. destruct v; simpl; [|apply Z.testbit_0_l].
  rewrite all_ones_eq. apply Z.ones_spec_low. lia.
Qed.

(** Filling the words [beg, beg + n) fills the bits [64 beg, 64 (beg + n)). *)
Lemma fill_words_updates (v : bool) (b : BitMap) (n : nat) : forall beg, wf b ->
  0 <= beg -> beg + Z.of_nat n <= (bm_size b + 63) / 64 ->
  updates b (each_n n beg (fun i b => set_word b i (word_of v)) b)
    (put b (beg * 64) ((beg + Z.of_nat n) * 64) v).
Proof.
  revert b. induction n as [|n IH]; intros b beg Hb H0 Hn.
  - simpl. eapply updates_ext; [by apply updates_refl|]. intros j Hj.
    unfold put, in_range. zcases; done.
  - cbn [each_n]. eapply updates_bind; [apply set_word_updates; [done|lia|apply word_of_range]|].
    intros b1 Hb1 Hs1 Hbits. eapply updates_ext; [apply IH; [done|lia|rewrite Hs1; lia]|].
    intros j Hj. unfold put, in_range. rewrite Hbits by lia. split64 j.
    destruct (Z.eqb_spec (j / 64) beg) as [E|E].
    + rewrite word_of_testbit by lia. zcases; done.
    + zcases; done.
Qed.

Lemma fill_range_updates (v : bool) (b : BitMap) (beg e : Z) : wf b -> 0 <= beg <= e -> e <= (bm_size b + 63) / 64 ->
  updates b (each_range beg e (fun i b => set_word b i (word_of v)) b)
    (put b (beg * 64) (e * 64) v).
Proof.
  intros Hb Hbe He. unfold each_range.
  eapply updates_ext; [apply fill_words_updates; [done|lia|lia]|].
  intros j Hj. by replace (beg + Z.of_nat (Z.to_nat (e - beg))) with e by lia.
Qed.

(** The three parts of a range that covers a full word. *)
Lemma put_three_updates v b beg e (fill : BitMap -> option BitMap) q1 q2 : wf b ->
  0 <= beg <= e -> e <= bm_size b -> q1 = (beg + 63) / 64 -> q2 = e / 64 -> q1 <= q2 ->
  (forall b', wf b' -> bm_size b' = bm_size b -> updates b' (fill b') (put b' (q1 * 64) (q2 * 64) v)) ->
  updates b (b1 ← put_range_within_word v b beg (bit_index q1); b2 ← fill b1;
             put_range_within_word v b2 (bit_index q2) e) (put b beg e v).
Proof.
  intros Hb Hbe He -> -> Hlt Hfill. pose proof (wf_size b Hb).
  rewrite !bit_index_mul by (Z.div_mod_to_equations; lia).
  eapply updates_bind.
  { apply put_range_within_word_updates; [done|]. split; [|intros]; Z.div_mod_to_equations; lia. }
  intros b1 Hb1 Hs1 Hbits1. eapply updates_bind; [by apply Hfill|].
  intros b2 Hb2 Hs2 Hbits2. eapply updates_ext.
  { apply put_range_within_word_updates; [done|].
    split; [|intros]; rewrite ?Hs2, ?Hs1; Z.div_mod_to_equations; lia. }
  intros j Hj. unfold put, in_range in *. rewrite Hbits2, Hbits1 by lia.
  zcases; try done; exfalso; Z.div_mod_to_equations; lia.
Qed.

(** A range with no full word: two parts on both sides of a word boundary. *)
Lemma put_two_updates v b beg e : wf b -> 0 <= beg <= e -> e <= bm_size b ->
  e / 64 <= (beg + 63) / 64 ->
  let boundary := MIN2 (bit_index ((beg + 63) / 64)) e in
  updates b (b1 ← put_range_within_word v b beg boundary;
             put_range_within_word v b1 boundary e) (put b beg e v).
Proof.
  intros Hb Hbe He Hle boundary. pose proof (wf_size b Hb). subst boundary.
  rewrite bit_index_mul by (Z.div_mod_to_equations; lia).
  set (m := MIN2 ((beg + 63) / 64 * 64) e).
  assert (Hm : beg <= m <= e /\ (beg < m -> beg / 64 = (m - 1) / 64) /\
               (m < e -> m / 64 = (e - 1) / 64)).
  { unfold m, MIN2. zcases; Z.div_mod_to_equations; lia. }
  clearbody m. eapply updates_bind.
  { apply put_range_within_word_updates; [done|]. split; lia. }
  intros b1 Hb1 Hs1 Hbits1. eapply updates_ext.
  { apply put_range_within_word_updates; [done|]. split; rewrite ?Hs1; lia. }
  intros j Hj. unfold put, in_range in *. rewrite Hbits1 by lia. zcases; done.
Qed.

Lemma memset_ones : unot 8 0 * 0x0101010101010101 = all_ones.
Proof. reflexivity. Qed.

Lemma large_fill (v : bool) (b : BitMap) (beg e : Z) : 0 <= beg <= e -> e * 8 < 2 ^ 64 ->
  (if v then set_large_range_of_words b beg e else clear_large_range_of_words b beg e) =
  each_range beg e (fun i b => set_word b i (word_of v)) b.
Proof.
  intros Hbe He. unfold set_large_range_of_words, clear_large_range_of_words, memset_words.
  rewrite (uwrap_small 64 ltac:(lia) (e - beg)), (uwrap_small 64) by (unfold in_u; lia).
  change BytesPerWord with 8. rewrite Z.div_mul, memset_ones by lia. by destruct v.
Qed.

(** By partial words and full words, with or without [memset] for the full ones. *)
Lemma at_put_range_updates (b : BitMap) (beg e : Z) (v : bool) :
  wf b -> 0 <= beg <= e -> e <= bm_size b ->
  updates b (at_put_range b beg e v) (put b beg e v) /\
  (32 <= e / 64 - (beg + 63) / 64 ->
   updates b (at_put_large_range b beg e v) (put b beg e v)).
Proof.
  intros Hb Hbe He. pose proof (wf_size b Hb).
  assert (Hround : word_index_round_up b beg = (beg + 63) / 64)
    by (apply word_index_round_up_div; [done|lia]).
  assert (Hfill : forall b', wf b' -> bm_size b' = bm_size b -> (beg + 63) / 64 <= e / 64 ->
    updates b' (each_range ((beg + 63) / 64) (e / 64) (fun i b => set_word b i (word_of v)) b')
      (put b' ((beg + 63) / 64 * 64) (e / 64 * 64) v)).
  { intros b' Hb' Hs' Hlt. apply fill_range_updates; [done| |rewrite Hs']; Z.div_mod_to_equations; lia. }
  split.
  - destruct (Z.ltb_spec ((beg + 63) / 64) (e / 64)) as [Hlt|Hge].
    + pose proof (put_three_updates v b beg e _ _ _ Hb Hbe He eq_refl eq_refl ltac:(lia)
        (fun b' H1 H2 => Hfill b' H1 H2 ltac:(lia))) as Hu.
      destruct v; simpl; unfold set_range, clear_range; rewrite Hround, word_index_div;
        (destruct (Z.ltb_spec ((beg + 63) / 64) (e / 64)); [exact Hu | lia]).
    + pose proof (put_two_updates v b beg e Hb Hbe He Hge) as Hu.
      destruct v; simpl; unfold set_range, clear_range; rewrite Hround, word_index_div;
        (destruct (Z.ltb_spec ((beg + 63) / 64) (e / 64)); [lia | exact Hu]).
  - intros H32.
    pose (fill := fun b1 : BitMap =>
      if v then set_large_range_of_words b1 ((beg + 63) / 64) (e / 64)
      else clear_large_range_of_words b1 ((beg + 63) / 64) (e / 64)).
    assert (Hl : forall b', wf b' -> bm_size b' = bm_size b ->
              updates b' (fill b') (put b' ((beg + 63) / 64 * 64) (e / 64 * 64) v)).
    { intros b' Hb' Hs'. unfold fill. rewrite large_fill by (Z.div_mod_to_equations; lia).
      apply Hfill; [done|done|lia]. }
    pose proof (put_three_updates v b beg e fill _ _ Hb Hbe He eq_refl eq_refl ltac:(lia) Hl) as Hu.
    destruct v; simpl; unfold set_large_range, clear_large_range; rewrite Hround, word_index_div;
      exact Hu.
Qed.

(** Well-formedness of a concrete bitmap by evaluation. *)
Ltac solve_wf :=
  split; [vm_compute; intuition discriminate | reflexivity
         | repeat constructor; vm_compute; discriminate].

Definition sample_bitmap : BitMap := {| bm_map := [5; 2 ^ 63; 0; 7]; bm_size := 200 |}.

Lemma sample_wf : wf sample_bitmap.
Proof. solve_wf. Qed.

(* ------------------------------------------------------------------ *)
(** ** Compare-and-swap loops: lemmas *)

(** The word after a number of interferences. *)
Definition run_env (env : list (Z -> Z)) (cell : Z) : Z := foldl (fun c e => e c) cell env.

(** Every retry follows an interference: with [2 + length env] turns the loop
    stores its value over what the other threads left. *)
Lemma par_put_loop_spec fuel : forall env mr v w cell,
  (2 + length env <= fuel)%nat ->
  exists n, par_put_loop fuel env mr v w (put_value mr v w) cell =
            Some (put_value mr v (run_env (take n env) cell)).
Proof.
  induction fuel as [|f IH]; intros env mr v w cell Hf; [lia|]. simpl.
  destruct (Z.eqb_spec (interfere env cell) w) as [<-|Hne].
  - destruct env as [|e env]; [by exists 0%nat | by exists 1%nat].
  - destruct env as [|e env]; simpl in *.
    + exists 0%nat. destruct f as [|f]; [lia|]. simpl. by rewrite Z.eqb_refl.
    + destruct (IH env mr v (e cell) (e cell) ltac:(lia)) as [n E]. by exists (Datatypes.S n).
Qed.

Lemma par_put_nil b beg e v :
  par_put_range_within_word [] b beg e v = put_range_within_word v b beg e.
Proof.
  unfold par_put_range_within_word, put_range_within_word, set_range_within_word,
    clear_range_within_word, update_word_of.
  destruct v; destruct (negb (beg =? e)); try done;
    destruct (map_word b (word_index beg)) as [w|]; try done; simpl; by rewrite Z.eqb_refl.
Qed.

(** Without interference the parallel range updates are the sequential
    ones, whatever the bitmap and the range. *)
Theorem par_at_put_range_sequential (b : BitMap) (beg e : Z) (v : bool) :
  par_at_put_range [] [] b beg e v = at_put_range b beg e v /\
  par_at_put_large_range [] [] b beg e v = at_put_large_range b beg e v.
Proof.
  assert (Hext : forall o, (o ≫= fun b => par_put_range_within_word [] b (bit_index (word_index e)) e v)
    = (o ≫= fun b => put_range_within_word v b (bit_index (word_index e)) e)).
  { intros [b'|]; simpl; [apply par_put_nil|done]. }
  unfold par_at_put_range, par_at_put_large_range. rewrite !par_put_nil.
  unfold at_put_range, at_put_large_range, set_range, clear_range, set_large_range,
    clear_large_range, put_range_within_word in *.
  split; [destruct (_ <? _)|]; destruct v;
    repeat match goal with |- context [?o ≫= _] =>
      lazymatch o with
      | set_range_within_word b _ _ => destruct o; [|done]
      | clear_range_within_word b _ _ => destruct o; [|done]
      end end; cbn [mbind option_bind]; first [apply Hext | apply par_put_nil].
Qed.

(** So is putting a single bit, where a bit that is as it should be is not written. *)
Lemma par_at_put_sequential (b : BitMap) (i : Z) (v : bool) : fst <$> par_at_put [] b i v = at_put b i v.
Proof.
  unfold par_at_put, at_put, par_set_bit, par_clear_bit, set_bit, clear_bit, update_word_of.
  assert (Hret : forall x r, fst <$> (b' ← set_word b (word_index i) x; Some (b', r : bool)) = set_word b (word_index i) x)
    by (intros; by destruct (set_word b (word_index i) _)).
  destruct v; (destruct (map_word b (word_index i)) as [w|]; [|done]); cbn [mbind option_bind length Nat.add].
  - cbn [par_set_loop]. destruct (Z.eqb_spec (Z.lor w (bit_mask i)) w) as [E|]; [rewrite E; apply Hret|].
    cbn [interfere]. unfold cmpxchg. rewrite !Z.eqb_refl. apply Hret.
  - cbn [par_clear_loop]. destruct (Z.eqb_spec (Z.land w (unot 64 (bit_mask i))) w) as [E|]; [rewrite E; apply Hret|].
    cbn [interfere]. unfold cmpxchg. rewrite !Z.eqb_refl. apply Hret.
Qed.

(** The entry points with a hint. *)
Lemma range_hint (b : BitMap) (beg e : Z) (hint : RangeSizeHint) (v : bool) :
  (if v then set_range_hint b beg e hint else clear_range_hint b beg e hint) =
  if bool_decide (hint = small_range) && (u64 (e - beg) =? 1) then at_put b beg v
  else if bool_decide (hint = large_range) then at_put_large_range b beg e v else at_put_range b beg e v.
Proof. by destruct v. Qed.

Lemma par_range_hint (b : BitMap) (beg e : Z) (hint : RangeSizeHint) (v : bool) :
  (if v then par_set_range_hint [] [] b beg e hint else par_clear_range_hint [] [] b beg e hint) =
  (if v then set_range_hint b beg e hint else clear_range_hint b beg e hint).
Proof.
  destruct (par_at_put_range_sequential b beg e v) as [E1 E2]. pose proof (par_at_put_sequential b beg v) as E3.
  rewrite range_hint. rewrite <- E1, <- E2, <- E3. by destruct v.
Qed.

(** C28: Setting or clearing a range of bits sets exactly the bits of the
    range, leaves the others and never leaves the array: by partial and full words, with [memset] for the
    full ones, and through the entry points with every hint on the size (a large range has at least 32 full words, which the code
    asserts).  The parallel entry points do the same when no other thread interferes. *)
Theorem at_put_range_spec (b : BitMap) (beg e : Z) (v : bool) (hint : RangeSizeHint) :
  wf b -> 0 <= beg <= e -> e <= bm_size b ->
  updates b (at_put_range b beg e v) (put b beg e v) /\
  (32 <= e / 64 - (beg + 63) / 64 -> updates b (at_put_large_range b beg e v) (put b beg e v)) /\
  ((hint = large_range -> 32 <= e / 64 - (beg + 63) / 64) ->
   updates b (if v then set_range_hint b beg e hint else clear_range_hint b beg e hint) (put b beg e v) /\
   updates b (if v then par_set_range_hint [] [] b beg e hint else par_clear_range_hint [] [] b beg e hint) (put b beg e v)).
Proof.
  intros Hb Hbe He. pose proof (wf_size b Hb). destruct (at_put_range_updates b beg e v Hb Hbe He) as [Hs Hl].
  split_and!; [done|done|]. intros Hhint. rewrite par_range_hint, range_hint.
  enough (updates b (if bool_decide (hint = small_range) && (u64 (e - beg) =? 1) then at_put b beg v
            else if bool_decide (hint = large_range) then at_put_large_range b beg e v else at_put_range b beg e v) (put b beg e v)) by done.
  rewrite (uwrap_small 64) by (lia || (unfold in_u; lia)). destruct (Z.eqb_spec (e - beg) 1) as [E|].
  - replace e with (beg + 1) in * by lia. destruct (bool_decide (hint = small_range)); [by apply at_put_updates; [|lia]|].
    cbn [andb]. case_bool_decide; [by apply Hl, Hhint|done].
  - rewrite andb_false_r. case_bool_decide; [by apply Hl, Hhint|done].
Qed.

Lemma at_put_range_spec_witness :
  updates sample_bitmap (at_put_range sample_bitmap 60 195 true) (put sample_bitmap 60 195 true) /\
  (32 <= 195 / 64 - (60 + 63) / 64 ->
   updates sample_bitmap (at_put_large_range sample_bitmap 60 195 true) (put sample_bitmap 60 195 true)) /\
  ((small_range = large_range -> 32 <= 195 / 64 - (60 + 63) / 64) ->
   updates sample_bitmap (set_range_hint sample_bitmap 60 195 small_range) (put sample_bitmap 60 195 true) /\
   updates sample_bitmap (par_set_range_hint [] [] sample_bitmap 60 195 small_range) (put sample_bitmap 60 195 true)).
Proof. apply (at_put_range_spec sample_bitmap 60 195 true small_range); [apply sample_wf | lia | simpl; lia]. Defined.

Lemma set_word_exact b q w x : map_word b q = Some w -> set_word b q x =
  Some (with_map b (<[Z.to_nat q := x]> (bm_map b))).
Proof. intros Hw%arr_get_lt. unfold set_word. by rewrite arr_set_Some. Qed.

(** Under arbitrary interference of other threads with the word, the
    partial-word update terminates, and stores its value in the range over some
    intermediate content of the word: no concurrent write to the rest of the word
    is lost. *)
Theorem par_put_range_within_word_spec (env : list (Z -> Z)) (b : BitMap) (beg e : Z)
    (v : bool) (w : Z) :
  wf b -> within_word b beg e -> beg < e -> map_word b (beg / 64) = Some w ->
  (forall f x, f ∈ env -> in_u 64 x -> in_u 64 (f x)) ->
  exists n, updates b (par_put_range_within_word env b beg e v)
    (fun i => if in_range beg e i then v
              else if i / 64 =? beg / 64 then Z.testbit (run_env (take n env) w) (i mod 64)
              else bit_at b i).
Proof.
  intros Hb Hw Hlt Hget Henv. destruct (proj2 Hw Hlt) as [Hs Hq].
  unfold par_put_range_within_word. destruct (Z.eqb_spec beg e) as [Heq|_]; [lia|]. cbn [negb].
  rewrite word_index_div, Hget. cbn [mbind option_bind].
  set (mr := inverted_bit_mask_for_range beg e).
  destruct (par_put_loop_spec (2 + length env) env mr v w w ltac:(lia)) as [n ->].
  exists n. cbn [mbind option_bind].
  set (c := run_env (take n env) w).
  assert (Hc : in_u 64 c).
  { pose proof (word_range b Hb _ _ Hget) as Hr. unfold c. clear -Henv Hr.
    assert (Ht : forall f x, f ∈ take n env -> in_u 64 x -> in_u 64 (f x)).
    { intros f x Hf. apply Henv. by eapply subseteq_take. }
    revert w Hr Ht. generalize (take n env). intros l. unfold run_env.
    induction l as [|f l IH]; intros w Hr Ht; simpl; [done|].
    apply IH; [apply Ht; [left | done] |]. intros g x Hg. apply Ht. by right. }
  assert (Hmr : in_u 64 mr) by apply inverted_mask_range.
  eapply updates_ext.
  { apply set_word_updates; [done| |].
    - apply arr_get_lt in Hget. by rewrite <- (wf_length b Hb).
    - unfold put_value. destruct v; [auto with machine|].
      apply in_u_land_l; [lia|done|apply Hmr]. }
  intros j Hj. simpl. destruct (Z.eqb_spec (j / 64) (beg / 64)) as [E|E].
  - pose proof (inverted_mask_in_range b beg e j Hw Hlt E) as Hm. fold mr in Hm.
    split64 j. unfold put_value. destruct v;
      rewrite ?Z.lor_spec, ?Z.land_spec, ?unot_testbit, Hm, ?negb_involutive by lia;
      destruct (in_range beg e j); zcases; simpl; btauto.
  - unfold in_range. same_word.
Qed.

Lemma par_put_range_within_word_spec_witness :
  map_word sample_bitmap (130 / 64) = Some 0 /\
  exists n, updates sample_bitmap
    (par_put_range_within_word [fun x => Z.lor x 1] sample_bitmap 130 140 true)
    (fun i => if in_range 130 140 i then true
              else if i / 64 =? 130 / 64
                   then Z.testbit (run_env (take n [fun x => Z.lor x 1]) 0) (i mod 64)
              else bit_at sample_bitmap i).
Proof.
  split; [reflexivity|].
  apply (par_put_range_within_word_spec [fun x => Z.lor x 1] sample_bitmap 130 140 true 0).
  - apply sample_wf.
  - split; [lia|]. intros _. split; [simpl; lia | reflexivity].
  - lia.
  - reflexivity.
  - intros f x Hf Hx. apply list_elem_of_singleton in Hf as ->.
    apply in_u_lor; [lia | done | split; lia].
Defined.

(** The outcome of [par_set_bit]: it wins exactly when its own exchange turned the
    bit on, over the content [c] the other threads left. *)
Lemma par_set_loop_spec fuel : forall env k old,
  0 <= k -> (2 + length env <= fuel)%nat ->
  exists n r, par_set_loop fuel env (2 ^ k) old old =
      Some (Z.lor (run_env (take n env) old) (2 ^ k), r) /\
    r = negb (Z.testbit (run_env (take n env) old) k).
Proof.
  induction fuel as [|f IH]; intros env k old Hk Hf; [lia|]. simpl.
  assert (Hlor : forall x, Z.lor x (2 ^ k) = x <-> Z.testbit x k = true).
  { intros x. split; intros Hx.
    - rewrite <- Hx, Z.lor_spec, Z.pow2_bits_true by done. apply orb_true_r.
    - apply Z.bits_inj'. intros j Hj. rewrite Z.lor_spec, Z.pow2_bits_eqb by done.
      destruct (Z.eqb_spec k j) as [<-|]; [by rewrite Hx | apply orb_false_r]. }
  destruct (Z.eqb_spec (Z.lor old (2 ^ k)) old) as [E|E].
  - exists 0%nat, false. simpl. apply Hlor in E as E'. by rewrite E, E'.
  - destruct (Z.eqb_spec (interfere env old) old) as [E'|E'].
    + assert (Hbit : Z.testbit old k = false).
      { destruct (Z.testbit old k) eqn:Hb; [|done]. by rewrite Hlor in E. }
      destruct env as [|e env]; simpl in *.
      * exists 0%nat, true. simpl. by rewrite Hbit.
      * exists 1%nat, true. simpl. by rewrite E', Hbit.
    + destruct env as [|e env]; simpl in *; [done|].
      destruct (IH env k (e old) Hk ltac:(lia)) as (n & r & -> & Hr).
      by exists (Datatypes.S n), r.
Qed.
