(* ===== verification/BitMapOps.v ===== *)
(** * BitMapOps: searching, set algebra, counting, iteration and resizing of bitmaps

    The theorems about the operations of [BitMap] that read a whole bitmap: the
    searches return the first index of a kind, the word-wise set operations are the
    bit-wise ones, the predicates decide inclusion, disjointness, equality,
    fullness and emptiness, the table-driven population count counts the set bits,
    [iterate] visits them in order, and [resize] keeps the old bits. *)

From S2P Require Import Prelude GlobalDefs BitMap.

(* ------------------------------------------------------------------ *)
(** ** Searching *)

Lemma land_1_odd x : (Z.land x 1 =? 0) = negb (Z.testbit x 0).
Proof.
  change 1 with (2 ^ 1 - 1). rewrite land_ones_mod, Z.bit0_odd by lia.
  change (2 ^ 1) with 2. rewrite Zmod_odd. by destruct (Z.odd x).
Qed.

(** Both inner loops stop at the first bit of the value they look for. *)
Lemma skip_zeros_spec fuel : forall res off,
  0 <= res < 2 ^ Z.of_nat fuel -> res <> 0 ->
  exists k, skip_zeros fuel res off = Some (off + k) /\ 0 <= k < Z.of_nat fuel /\
    Z.testbit res k = true /\ forall j, 0 <= j < k -> Z.testbit res j = false.
Proof.
  induction fuel as [|f IH]; intros res off Hr Hne; [simpl in Hr; lia|]. simpl.
  rewrite land_1_odd. destruct (Z.testbit res 0) eqn:H0; simpl.
  - exists 0. rewrite Z.add_0_r. split_and!; try done; try lia.
  - assert (Hs : Z.shiftr res 1 <> 0).
    { intros E. apply Hne. apply Z.bits_inj'. intros j Hj. rewrite Z.testbit_0_l.
      destruct (decide (j = 0)) as [->|]; [done|].
      replace j with (j - 1 + 1) by lia. by rewrite <- Z.shiftr_spec, E, Z.testbit_0_l by lia. }
    destruct (IH (Z.shiftr res 1) (off + 1)) as (k & -> & Hk & Ht & Hf).
    { rewrite Z.shiftr_div_pow2 by lia. change (2 ^ 1) with 2.
      replace (Z.of_nat (S f)) with (Z.succ (Z.of_nat f)) in Hr by lia.
      rewrite Z.pow_succ_r in Hr by lia. split; [apply Z.div_pos; lia | apply Z.div_lt_upper_bound; lia]. }
    { done. }
    exists (k + 1). rewrite Z.shiftr_spec in Ht by lia. split_and!; try done; try lia.
    { f_equal. lia. }
    intros j Hj. destruct (decide (j = 0)) as [->|]; [done|].
    specialize (Hf (j - 1) ltac:(lia)). rewrite Z.shiftr_spec in Hf by lia.
    by replace (j - 1 + 1) with j in Hf by lia.
Qed.

Lemma skip_ones_spec fuel : forall res off m,
  0 <= m < Z.of_nat fuel -> Z.testbit res m = false ->
  exists k, skip_ones fuel res off = Some (off + k) /\ 0 <= k <= m /\
    Z.testbit res k = false /\ forall j, 0 <= j < k -> Z.testbit res j = true.
Proof.
  induction fuel as [|f IH]; intros res off m Hm Hbit; [simpl in Hm; lia|]. simpl.
  rewrite land_1_odd. destruct (Z.testbit res 0) eqn:H0; simpl.
  - assert (m <> 0) by (intros ->; congruence).
    destruct (IH (Z.shiftr res 1) (off + 1) (m - 1)) as (k & -> & Hk & Ht & Hf); [lia| |].
    { rewrite Z.shiftr_spec by lia. by replace (m - 1 + 1) with m by lia. }
    exists (k + 1). rewrite Z.shiftr_spec in Ht by lia. split_and!; try done; try lia.
    { f_equal. lia. }
    intros j Hj. destruct (decide (j = 0)) as [->|]; [done|].
    specialize (Hf (j - 1) ltac:(lia)). rewrite Z.shiftr_spec in Hf by lia.
    by replace (j - 1 + 1) with j in Hf by lia.
  - exists 0. rewrite Z.add_0_r. split_and!; try done; lia.
Qed.

(** [k] is the first index of [l, r) where the bit is [v], or [r] if there is none. *)
Definition first_bit (v : bool) (b : BitMap) (l r k : Z) : Prop :=
  l <= k <= r /\ (forall i, l <= i < k -> bit_at b i = negb v) /\ (k < r -> bit_at b k = v).

(** A hit at [x], the first of its word at or after [l], cut at [r]. *)
Lemma first_bit_hit v b l r x : l <= r -> l <= x ->
  (forall i, l <= i < x -> bit_at b i = negb v) -> bit_at b x = v ->
  first_bit v b l r (MIN2 x r).
Proof.
  intros Hlr Hx Hb Hv. unfold first_bit, MIN2. destruct (Z.ltb_spec x r).
  - split_and!; try lia; auto.
  - split_and!; try lia. intros i Hi. apply Hb. lia.
Qed.

(** The bits of a word as the outer loops see them. *)
Lemma word_zero_bits b q w : wf b -> map_word b q = Some w -> w = 0 ->
  forall i, q * 64 <= i < (q + 1) * 64 -> bit_at b i = false.
Proof.
  intros Hb Hw -> i Hi. replace i with (q * 64 + (i - q * 64)) by lia.
  rewrite <- (word_bit b q 0) by (done || lia). apply Z.testbit_0_l.
Qed.

Lemma word_ones_bits b q w : wf b -> map_word b q = Some w -> w = Z.ones 64 ->
  forall i, q * 64 <= i < (q + 1) * 64 -> bit_at b i = true.
Proof.
  intros Hb Hw -> i Hi. replace i with (q * 64 + (i - q * 64)) by lia.
  rewrite <- (word_bit b q (Z.ones 64)) by (done || lia). apply Z.ones_spec_low. lia.
Qed.

Lemma not_ones_bit w : in_u 64 w -> w <> Z.ones 64 ->
  exists m, 0 <= m < 64 /\ Z.testbit w m = false.
Proof.
  intros Hw Hne. destruct (decide (Z.lxor w (Z.ones 64) = 0)) as [E|E].
  - apply Z.lxor_eq in E. done.
  - assert (Hx : in_u 64 (Z.lxor w (Z.ones 64))).
    { apply in_u_bits; [lia| |].
      - apply Z.lxor_nonneg. split; intros; [vm_compute; discriminate | apply Hw].
      - intros i Hi. rewrite Z.lxor_spec, (in_u_testbit 64 ltac:(lia) w), Z.ones_spec_high by (done || lia).
        done. }
    destruct (skip_zeros_spec 64 _ 0 Hx E) as (k & _ & Hk & Ht & _).
    exists k. split; [lia|]. rewrite Z.lxor_spec, Z.ones_spec_low in Ht by lia.
    by destruct (Z.testbit w k).
Qed.

(** One full word of the outer loops. *)
Lemma scan_one_word b i w : wf b -> map_word b i = Some w -> w <> 0 -> 0 <= i ->
  i * 64 < 2 ^ 64 ->
  exists k, skip_zeros 64 w (bit_index i) = Some (i * 64 + k) /\ 0 <= k < 64 /\
    bit_at b (i * 64 + k) = true /\
    forall j, i * 64 <= j < i * 64 + k -> bit_at b j = false.
Proof.
  intros Hb Hw Hne Hi Hlt. pose proof (word_range b Hb _ _ Hw) as Hr.
  destruct (skip_zeros_spec 64 w (bit_index i) Hr Hne) as (k & E & Hk & Ht & Hf).
  exists k. rewrite E, bit_index_mul by lia. split_and!; try done; try lia.
  - by rewrite <- (word_bit b i w k Hw) by lia.
  - intros j Hj. replace j with (i * 64 + (j - i * 64)) by lia.
    rewrite <- (word_bit b i w) by (done || lia). apply Hf. lia.
Qed.

(** The first, partial word of the search for a 1. *)
Lemma scan_first_word b l w : wf b -> 0 <= l -> map_word b (l / 64) = Some w ->
  let res := Z.shiftr w (l mod 64) in
  if res =? 0 then forall i, l <= i < (l / 64 + 1) * 64 -> bit_at b i = false
  else exists x, skip_zeros 64 res l = Some x /\ l <= x < (l / 64 + 1) * 64 /\
         bit_at b x = true /\ forall i, l <= i < x -> bit_at b i = false.
Proof.
  intros Hb Hl Hw res. split64 l. pose proof (word_range b Hb _ _ Hw) as Hr.
  assert (Hbit : forall j, 0 <= j < 64 - l mod 64 -> Z.testbit res j = bit_at b (l + j)).
  { intros j Hj. unfold res. rewrite Z.shiftr_spec by lia.
    rewrite (word_bit b (l / 64) w) by (done || lia). f_equal. lia. }
  destruct (Z.eqb_spec res 0) as [E|E].
  - intros i Hi. replace i with (l + (i - l)) by lia. rewrite <- Hbit by lia.
    by rewrite E, Z.testbit_0_l.
  - destruct (skip_zeros_spec 64 res l) as (k & Ek & Hk & Ht & Hf);
      [apply in_u_shiftr; [lia|done|lia] | done |].
    assert (k < 64 - l mod 64).
    { destruct (Z.ltb_spec k (64 - l mod 64)); [done|]. unfold res in Ht.
      rewrite Z.shiftr_spec, (in_u_testbit 64 ltac:(lia) w) in Ht by (done || lia). done. }
    exists (l + k). rewrite <- Hbit by lia. split_and!; try done; try lia.
    intros i Hi. replace i with (l + (i - l)) by lia. rewrite <- Hbit by lia. apply Hf. lia.
Qed.

(** [get_next_one_offset] never leaves the array and returns the first set
    bit of [l, r), or [r] when the range holds none. *)
Theorem get_next_one_offset_spec (b : BitMap) (l r : Z) :
  wf b -> 0 <= l <= r -> r <= bm_size b ->
  exists k, get_next_one_offset b l r = Some k /\ first_bit true b l r k.
Proof.
  intros Hb Hlr Hr. pose proof (wf_size b Hb). unfold get_next_one_offset, get_next_one_offset_inline.
  destruct (Z.eqb_spec l r) as [->|Hne].
  { exists r. split; [done|]. split_and!; intros; lia. }
  rewrite !word_index_div, bit_in_word_mod. unfold NoBits.
  destruct (word_present b Hb (l / 64)) as [w Hw]; [Z.div_mod_to_equations; lia|].
  rewrite Hw. cbn [mbind option_bind]. pose proof (scan_first_word b l w Hb ltac:(lia) Hw) as Hscan.
  cbv zeta in Hscan. destruct (Z.eqb_spec (Z.shiftr w (l mod 64)) 0) as [E|E]; cbn [negb].
  - destruct (for_range_inv (fun i (_ : unit) => forall j, l <= j < i * 64 -> bit_at b j = false)
      (first_bit true b l r)
      (fun index _ => res ← map_word b index;
         if negb (res =? 0) then
           res_offset ← skip_zeros 64 res (bit_index index);
           Some (Return (MIN2 res_offset r))
         else Some (Next ()))
      (l / 64 + 1) ((r - 1) / 64 + 1) ()) as (c & -> & Hc).
    + Z.div_mod_to_equations; lia.
    + exact Hscan.
    + intros i s Hi HP. destruct (word_present b Hb i) as [wi Hwi]; [Z.div_mod_to_equations; lia|].
      rewrite Hwi. cbn [mbind option_bind]. destruct (Z.eqb_spec wi 0) as [E0|E0]; cbn [negb].
      * exists (Next ()). split; [done|]. intros j Hj.
        destruct (Z.ltb_spec j (i * 64)); [apply HP; lia|].
        apply (word_zero_bits b i wi); (done || lia).
      * destruct (scan_one_word b i wi) as (k & -> & Hk & Ht & Hf); try done;
          [Z.div_mod_to_equations; lia..|].
        eexists. split; [done|]. apply first_bit_hit; try done.
        { Z.div_mod_to_equations; lia. } { Z.div_mod_to_equations; lia. }
        intros j Hj. destruct (Z.ltb_spec j (i * 64)); [apply HP; lia | apply Hf; lia].
    + destruct c as [[]|k]; cbn [fmap option_fmap option_map loop_result].
      * exists r. split; [done|]. split_and!; try lia. intros i Hi. apply Hc.
        Z.div_mod_to_equations; lia.
      * by exists k.
  - destruct Hscan as (x & -> & Hx & Ht & Hf). cbn [mbind option_bind].
    eexists. split; [done|]. apply first_bit_hit; (done || lia).
Qed.

Lemma get_next_one_offset_spec_witness :
  get_next_one_offset sample_bitmap 3 200 = Some 127 /\
  exists k, get_next_one_offset sample_bitmap 3 200 = Some k /\ first_bit true sample_bitmap 3 200 k.
Proof.
  split; [reflexivity|].
  apply (get_next_one_offset_spec sample_bitmap 3 200); [apply sample_wf | lia | simpl; lia].
Defined.

(* ------------------------------------------------------------------ *)
(** ** Searching for a 0 *)

Lemma right_n_bits_testbit n i : 0 <= n <= 64 -> 0 <= i < 64 ->
  Z.testbit (right_n_bits n) i = (i <? n).
Proof.
  intros Hn Hi. unfold right_n_bits, nth_bit. change BitsPerWord with 64.
  destruct (Z.leb_spec 64 n).
  - rewrite swrap_testbit by lia. change (0 - 1) with (-1). rewrite Z.bits_m1 by lia.
    symmetry. apply Z.ltb_lt. lia.
  - rewrite Z.shiftl_1_l. destruct (decide (n = 63)) as [->|Hne].
    + change (s64 (s64 (2 ^ 63) - 1)) with (Z.ones 63). rewrite Z.testbit_ones_nonneg by lia. done.
    + assert (Hp : 2 ^ n <= 2 ^ 62) by (apply Z.pow_le_mono_r; lia).
      pose proof (pow2_pos n ltac:(lia)).
      rewrite !swrap_small by (first [lia | unfold in_s; change (64 - 1) with 63;
        change (2 ^ 63) with (2 * 2 ^ 62); rewrite ?swrap_small; lia |
        rewrite swrap_small; unfold in_s; change (64 - 1) with 63; change (2 ^ 63) with (2 * 2 ^ 62); lia]).
      rewrite Z.sub_1_r, <- Z.ones_equiv. apply Z.testbit_ones_nonneg; lia.
Qed.

Lemma left_n_bits_testbit n i : 0 <= n < 64 -> 0 <= i < 64 ->
  Z.testbit (u64 (left_n_bits n)) i = (64 - n <=? i).
Proof.
  intros Hn Hi. unfold left_n_bits. change BitsPerWord with 64.
  destruct (Z.leb_spec 64 n); [lia|].
  rewrite uwrap_swrap, uwrap_testbit, Z.shiftl_spec by lia.
  destruct (Z.ltb_spec i 64); [simpl|lia]. destruct (Z.leb_spec (64 - n) i).
  - rewrite right_n_bits_testbit by lia. apply Z.ltb_lt. lia.
  - apply Z.testbit_neg_r. lia.
Qed.

Lemma scan_one_word_zero b i w : wf b -> map_word b i = Some w -> w <> Z.ones 64 -> 0 <= i ->
  i * 64 < 2 ^ 64 ->
  exists k, skip_ones 64 w (i * 64) = Some (i * 64 + k) /\ 0 <= k < 64 /\
    bit_at b (i * 64 + k) = false /\
    forall j, i * 64 <= j < i * 64 + k -> bit_at b j = true.
Proof.
  intros Hb Hw Hne Hi Hlt. pose proof (word_range b Hb _ _ Hw) as Hr.
  destruct (not_ones_bit w Hr Hne) as (m & Hm & Hmb).
  destruct (skip_ones_spec 64 w (i * 64) m Hm Hmb) as (k & E & Hk & Ht & Hf).
  exists k. rewrite E. split_and!; try done; try lia.
  - by rewrite <- (word_bit b i w k Hw) by lia.
  - intros j Hj. replace j with (i * 64 + (j - i * 64)) by lia.
    rewrite <- (word_bit b i w) by (done || lia). apply Hf. lia.
Qed.

Lemma scan_first_word_zero b l w : wf b -> 0 <= l -> map_word b (l / 64) = Some w ->
  let res := Z.lor (Z.shiftr w (l mod 64)) (u64 (left_n_bits (l mod 64))) in
  if res =? Z.ones 64 then forall i, l <= i < (l / 64 + 1) * 64 -> bit_at b i = true
  else exists x, skip_ones 64 res l = Some x /\ l <= x < (l / 64 + 1) * 64 /\
         bit_at b x = false /\ forall i, l <= i < x -> bit_at b i = true.
Proof.
  intros Hb Hl Hw res. split64 l. pose proof (word_range b Hb _ _ Hw) as Hr.
  assert (Hbit : forall j, 0 <= j < 64 ->
            Z.testbit res j = if j <? 64 - l mod 64 then bit_at b (l + j) else true).
  { intros j Hj. unfold res. rewrite Z.lor_spec, Z.shiftr_spec, left_n_bits_testbit by lia.
    destruct (Z.ltb_spec j (64 - l mod 64)); destruct (Z.leb_spec (64 - l mod 64) j); try lia.
    rewrite orb_false_r, (word_bit b (l / 64) w) by (done || lia). f_equal. lia. }
  assert (Hres : in_u 64 res) by (unfold res; auto with machine).
  destruct (Z.eqb_spec res (Z.ones 64)) as [E|E].
  - intros i Hi. specialize (Hbit (i - l) ltac:(lia)).
    rewrite E, Z.ones_spec_low in Hbit by lia.
    destruct (Z.ltb_spec (i - l) (64 - l mod 64)); [|lia].
    replace (l + (i - l)) with i in Hbit by lia. done.
  - destruct (not_ones_bit res Hres E) as (m & Hm & Hmb).
    assert (m < 64 - l mod 64).
    { destruct (Z.ltb_spec m (64 - l mod 64)) as [|Hge]; [done|].
      rewrite Hbit in Hmb by lia. destruct (Z.ltb_spec m (64 - l mod 64)); [lia|done]. }
    destruct (skip_ones_spec 64 res l m Hm Hmb) as (k & Ek & Hk & Ht & Hf).
    exists (l + k). rewrite Hbit in Ht by lia.
    destruct (Z.ltb_spec k (64 - l mod 64)); [|lia]. split_and!; try done; try lia.
    intros i Hi. specialize (Hf (i - l) ltac:(lia)). rewrite Hbit in Hf by lia.
    destruct (Z.ltb_spec (i - l) (64 - l mod 64)); [|lia].
    replace (l + (i - l)) with i in Hf by lia. done.
Qed.

(** [get_next_zero_offset] never leaves the array and returns the first clear
    bit of [l, r), or [r] when the range holds none. *)
Theorem get_next_zero_offset_spec (b : BitMap) (l r : Z) :
  wf b -> 0 <= l <= r -> r <= bm_size b ->
  exists k, get_next_zero_offset b l r = Some k /\ first_bit false b l r k.
Proof.
  intros Hb Hlr Hr. pose proof (wf_size b Hb).
  unfold get_next_zero_offset, get_next_zero_offset_inline.
  destruct (Z.eqb_spec l r) as [->|Hne].
  { exists r. split; [done|]. split_and!; intros; lia. }
  rewrite !word_index_div, land_63_mod, all_bits_eq.
  destruct (word_present b Hb (l / 64)) as [w Hw]; [Z.div_mod_to_equations; lia|].
  rewrite Hw. cbn [mbind option_bind]. pose proof (scan_first_word_zero b l w Hb ltac:(lia) Hw) as Hscan.
  cbv zeta in Hscan. destruct (_ =? Z.ones 64) eqn:E; cbn [negb].
  - destruct (for_range_inv (fun i (_ : unit) => forall j, l <= j < i * 64 -> bit_at b j = true)
      (first_bit false b l r)
      (fun index _ => res ← map_word b index;
         if negb (res =? Z.ones 64) then
           res_offset ← skip_ones 64 res (u64 (Z.shiftl index LogBitsPerWord));
           Some (Return (MIN2 res_offset r))
         else Some (Next ()))
      (l / 64 + 1) ((r - 1) / 64 + 1) ()) as (c & -> & Hc).
    + Z.div_mod_to_equations; lia.
    + exact Hscan.
    + intros i s Hi HP. destruct (word_present b Hb i) as [wi Hwi]; [Z.div_mod_to_equations; lia|].
      rewrite Hwi. cbn [mbind option_bind]. destruct (Z.eqb_spec wi (Z.ones 64)) as [E0|E0]; cbn [negb].
      * exists (Next ()). split; [done|]. intros j Hj.
        destruct (Z.ltb_spec j (i * 64)); [apply HP; lia|].
        apply (word_ones_bits b i wi); (done || lia).
      * fold (bit_index i). rewrite bit_index_mul by (Z.div_mod_to_equations; lia).
        destruct (scan_one_word_zero b i wi) as (k & -> & Hk & Ht & Hf); try done;
          [Z.div_mod_to_equations; lia..|].
        eexists. split; [done|]. apply first_bit_hit; try done.
        { Z.div_mod_to_equations; lia. } { Z.div_mod_to_equations; lia. }
        intros j Hj. destruct (Z.ltb_spec j (i * 64)); [apply HP; lia | apply Hf; lia].
    + destruct c as [[]|k]; cbn [fmap option_fmap option_map loop_result].
      * exists r. split; [done|]. split_and!; try lia. intros i Hi. apply Hc.
        Z.div_mod_to_equations; lia.
      * by exists k.
  - destruct Hscan as (x & -> & Hx & Ht & Hf). cbn [mbind option_bind].
    eexists. split; [done|]. apply first_bit_hit; (done || lia).
Qed.

Lemma get_next_zero_offset_spec_witness :
  get_next_zero_offset sample_bitmap 192 200 = Some 195 /\
  exists k, get_next_zero_offset sample_bitmap 192 200 = Some k /\
            first_bit false sample_bitmap 192 200 k.
Proof.
  split; [reflexivity|].
  apply (get_next_zero_offset_spec sample_bitmap 192 200); [apply sample_wf | lia | simpl; lia].
Defined.

(* ------------------------------------------------------------------ *)
(** ** Set algebra *)

(** A word operation that acts bit by bit. *)
Record bitwise (f : Z -> Z -> Z) (g : bool -> bool -> bool) : Prop := {
  bitwise_range x y : in_u 64 x -> in_u 64 y -> in_u 64 (f x y);
  bitwise_bit x y i : in_u 64 x -> in_u 64 y -> 0 <= i < 64 ->
    Z.testbit (f x y) i = g (Z.testbit x i) (Z.testbit y i) }.

Lemma bitwise_lor : bitwise Z.lor orb.
Proof. split; intros; [auto with machine | apply Z.lor_spec]. Qed.

Lemma bitwise_land : bitwise Z.land andb.
Proof.
  split; intros x y; [|intros; apply Z.land_spec].
  intros Hx Hy. apply in_u_land_l; [lia|done|apply Hy].
Qed.

Lemma bitwise_diff : bitwise (fun x y => Z.land x (unot 64 y)) (fun x y => x && negb y).
Proof.
  split; intros x y.
  - intros Hx Hy. apply in_u_land_l; [lia|done|]. by apply (unot_range 64).
  - intros i Hx Hy Hi. rewrite Z.land_spec, unot_testbit by lia. zcases. done.
Qed.

Lemma bitwise_snd : bitwise (fun _ y => y) (fun _ y => y).
Proof. by split. Qed.

#[export] Hint Resolve bitwise_lor bitwise_land bitwise_diff bitwise_snd : machine.

Lemma in_range_word i q : 0 <= i -> (i <? q * 64) = (i / 64 <? q).
Proof. intros. split64 i. zcases; done. Qed.

(** The state of the loops after [k] words. *)
Definition partly (b other : BitMap) (g : bool -> bool -> bool) (k : Z) (b' : BitMap) : Prop :=
  wf b' /\ bm_size b' = bm_size b /\
  forall i, 0 <= i -> bit_at b' i = if i <? k * 64 then g (bit_at b i) (bit_at other i) else bit_at b i.

Lemma partly_word b other g k b' x : wf b -> 0 <= k -> partly b other g k b' ->
  map_word b' k = Some x -> forall i, 0 <= i -> i / 64 = k -> Z.testbit x (i mod 64) = bit_at b i.
Proof.
  intros Hb Hk (Hb' & Hs & Hbits) Hx i Hi <-. rewrite <- (bit_at_word b' i x Hx), Hbits by done.
  split64 i. zcases; done.
Qed.

Lemma partly_step b other f g k b' x y : wf b -> wf other -> bitwise f g ->
  0 <= k < (bm_size b + 63) / 64 -> partly b other g k b' ->
  map_word b' k = Some x -> map_word other k = Some y ->
  exists b'', set_word b' k (f x y) = Some b'' /\ partly b other g (k + 1) b''.
Proof.
  intros Hb Ho Hf Hk Hp Hx Hy. pose proof Hp as (Hb' & Hs & Hbits).
  pose proof (word_range b' Hb' _ _ Hx) as Hxr. pose proof (word_range other Ho _ _ Hy) as Hyr.
  destruct (set_word_updates b' Hb' k (f x y)) as (b'' & E & Hwf & Hs'' & Hbits'').
  { by rewrite Hs. } { by apply (bitwise_range f g Hf). }
  exists b''. split; [done|]. split; [done|]. split; [congruence|].
  intros i Hi. rewrite Hbits'', Hbits by done. split64 i.
  destruct (Z.eqb_spec (i / 64) k) as [E'|E'].
  - rewrite (bitwise_bit f g Hf) by (done || lia).
    rewrite (partly_word b other g k b' x) by (done || lia).
    rewrite <- (bit_at_word other i y) by (by rewrite E'). zcases; done.
  - zcases; done.
Qed.

Lemma partly_end b other g b' : wf b -> wf other -> bm_size other = bm_size b ->
  (g false false = false) -> partly b other g ((bm_size b + 63) / 64) b' ->
  forall i, 0 <= i -> bit_at b' i = g (bit_at b i) (bit_at other i).
Proof.
  intros Hb Ho Hso Hg (Hb' & Hs & Hbits) i Hi. rewrite Hbits by done.
  destruct (Z.ltb_spec i ((bm_size b + 63) / 64 * 64)); [done|].
  rewrite !bit_at_beyond by (try done; rewrite ?Hso; lia). done.
Qed.

Lemma map_words2_updates f g b other : wf b -> wf other -> bm_size other = bm_size b ->
  bitwise f g -> g false false = false ->
  updates b (map_words2 f b other) (fun i => g (bit_at b i) (bit_at other i)).
Proof.
  intros Hb Ho Hs Hf Hg. unfold map_words2. rewrite size_in_words_div by done.
  pose proof (wf_size b Hb).
  destruct (each_range_inv (partly b other g)
    (fun index b => x ← map_word b index; y ← map_word other index; set_word b index (f x y))
    0 ((bm_size b + 63) / 64) b) as (b' & -> & Hp).
  - Z.div_mod_to_equations; lia.
  - split_and!; try done. intros i Hi. zcases; done.
  - intros k b1 Hk Hp. pose proof Hp as (Hb1 & Hs1 & _).
    destruct (word_present b1 Hb1 k) as [x Hx]; [by rewrite Hs1|].
    destruct (word_present other Ho k) as [y Hy]; [by rewrite Hs|].
    rewrite Hx, Hy. simpl. by eapply partly_step.
  - exists b'. split_and!; try done; try apply Hp. by apply partly_end.
Qed.

(** The flag of the [_with_result] variants: whether a word changed. *)
Lemma map_words2_changed_spec f g b other : wf b -> wf other -> bm_size other = bm_size b ->
  bitwise f g -> g false false = false ->
  exists b' c, map_words2_changed f b other = Some (b', c) /\
    updates b (Some b') (fun i => g (bit_at b i) (bit_at other i)) /\
    (c = true <-> exists i, 0 <= i /\ g (bit_at b i) (bit_at other i) <> bit_at b i).
Proof.
  intros Hb Ho Hs Hf Hg. unfold map_words2_changed. rewrite size_in_words_div by done.
  pose proof (wf_size b Hb).
  match goal with |- context [each_range 0 ?n ?body ?s] =>
    destruct (each_range_inv (fun k '(b', c) => partly b other g k b' /\
      (c = true <-> exists i, 0 <= i < k * 64 /\ g (bit_at b i) (bit_at other i) <> bit_at b i))
      body 0 n s) as ([b' c] & -> & Hp & Hc) end.
  - Z.div_mod_to_equations; lia.
  - split.
    + split_and!; try done. intros i Hi. zcases; done.
    + split; [done|]. intros (i & Hi & _). lia.
  - intros k [b1 c1] Hk [Hp Hc]. pose proof Hp as (Hb1 & Hs1 & _).
    destruct (word_present b1 Hb1 k) as [x Hx]; [by rewrite Hs1|].
    destruct (word_present other Ho k) as [y Hy]; [by rewrite Hs|].
    rewrite Hx, Hy. cbn [mbind option_bind].
    destruct (partly_step b other f g k b1 x y) as (b2 & -> & Hp2); try done.
    cbn [mbind option_bind]. eexists. split; [done|]. split; [done|].
    pose proof (word_range b1 Hb1 _ _ Hx) as Hxr. pose proof (word_range other Ho _ _ Hy) as Hyr.
    assert (Hbit : forall j, 0 <= j < 64 -> Z.testbit (f x y) j =
              g (bit_at b (k * 64 + j)) (bit_at other (k * 64 + j)) /\
              Z.testbit x j = bit_at b (k * 64 + j)).
    { intros j Hj. rewrite (bitwise_bit f g Hf) by done.
      rewrite (word_bit other k y j Hy Hj).
      rewrite <- (partly_word b other g k b1 x Hb ltac:(lia) Hp Hx (k * 64 + j))
        by (Z.div_mod_to_equations; lia).
      replace ((k * 64 + j) mod 64) with j by (Z.div_mod_to_equations; lia). done. }
    rewrite orb_true_iff, Hc, negb_true_iff, Z.eqb_neq. split.
    + intros [(i & Hi & Hne)|Hne]; [exists i; split; [lia|done]|].
      destruct (decide (Z.lxor (f x y) x = 0)) as [E|E]; [by apply Z.lxor_eq in E|].
      destruct (skip_zeros_spec 64 (Z.lxor (f x y) x) 0) as (j & _ & Hj & Ht & _); [|done|].
      { apply in_u_bits; [lia| |].
        - apply Z.lxor_nonneg. split; intros; [apply Hxr | by apply (bitwise_range f g Hf)].
        - intros i Hi. rewrite Z.lxor_spec.
          by rewrite !(in_u_testbit 64 ltac:(lia)) by (done || by apply (bitwise_range f g Hf)). }
      destruct (Hbit j ltac:(lia)) as [E1 E2]. exists (k * 64 + j). split; [lia|].
      rewrite <- E1, <- E2. rewrite Z.lxor_spec in Ht.
      destruct (Z.testbit (f x y) j), (Z.testbit x j); done.
    + intros (i & Hi & Hne). destruct (Z.ltb_spec i (k * 64)); [left; exists i; split; [lia|done]|].
      right. intros E. apply Hne. destruct (Hbit (i - k * 64) ltac:(lia)) as [E1 E2].
      replace (k * 64 + (i - k * 64)) with i in E1, E2 by lia. congruence.
  - exists b', c. split; [done|]. split.
    + exists b'. split_and!; try done; try apply Hp. by apply partly_end.
    + rewrite Hc. split; intros (i & Hi & Hne); exists i; (split; [|done]); [lia|].
      split; [done|]. destruct (Z.ltb_spec i ((bm_size b + 63) / 64 * 64)); [done|].
      exfalso. apply Hne. by rewrite !bit_at_beyond by (try done; rewrite ?Hs; lia).
Qed.

(** Union, difference, intersection and copy act on the bits as the boolean
    operations, on every word of bitmaps of the same size. *)
Theorem set_ops_spec (b other : BitMap) :
  wf b -> wf other -> bm_size other = bm_size b ->
  updates b (set_union b other) (fun i => bit_at b i || bit_at other i) /\
  updates b (set_difference b other) (fun i => bit_at b i && negb (bit_at other i)) /\
  updates b (set_intersection b other) (fun i => bit_at b i && bit_at other i) /\
  updates b (set_from b other) (bit_at other).
Proof.
  intros Hb Ho Hs.
  split_and!; [apply (map_words2_updates Z.lor orb) | apply (map_words2_updates _ (fun x y => x && negb y))
              | apply (map_words2_updates Z.land andb) | apply (map_words2_updates _ (fun _ y => y))];
    auto with machine.
Qed.

Definition sample_other : BitMap := {| bm_map := [4; 1; 2 ^ 40; 7]; bm_size := 200 |}.

Lemma sample_other_wf : wf sample_other.
Proof. solve_wf. Qed.

Lemma set_ops_spec_witness :
  updates sample_bitmap (set_union sample_bitmap sample_other)
    (fun i => bit_at sample_bitmap i || bit_at sample_other i) /\
  updates sample_bitmap (set_difference sample_bitmap sample_other)
    (fun i => bit_at sample_bitmap i && negb (bit_at sample_other i)) /\
  updates sample_bitmap (set_intersection sample_bitmap sample_other)
    (fun i => bit_at sample_bitmap i && bit_at sample_other i) /\
  updates sample_bitmap (set_from sample_bitmap sample_other) (bit_at sample_other).
Proof.
  apply (set_ops_spec sample_bitmap sample_other);
    [apply sample_wf | apply sample_other_wf | reflexivity].
Defined.

(** What a [_with_result] operation promises: the new bits, and a flag that tells
    whether any bit changed. *)
Definition updates_with_result (b : BitMap) (o : option (BitMap * bool)) (g : Z -> bool) : Prop :=
  exists b' c, o = Some (b', c) /\ updates b (Some b') g /\
    (c = true <-> exists i, 0 <= i /\ g i <> bit_at b i).

(** The variants with a result report a change exactly when the set changed,
    the termination test of the data-flow solvers built on them. *)
Theorem set_ops_with_result_spec (b other : BitMap) :
  wf b -> wf other -> bm_size other = bm_size b ->
  updates_with_result b (set_union_with_result b other) (fun i => bit_at b i || bit_at other i) /\
  updates_with_result b (set_difference_with_result b other)
    (fun i => bit_at b i && negb (bit_at other i)) /\
  updates_with_result b (set_intersection_with_result b other)
    (fun i => bit_at b i && bit_at other i).
Proof.
  intros Hb Ho Hs.
  split_and!; [apply (map_words2_changed_spec Z.lor orb)
              | apply (map_words2_changed_spec _ (fun x y => x && negb y))
              | apply (map_words2_changed_spec Z.land andb)];
    auto with machine.
Qed.

Lemma set_ops_with_result_spec_witness :
  updates_with_result sample_bitmap (set_union_with_result sample_bitmap sample_other)
    (fun i => bit_at sample_bitmap i || bit_at sample_other i) /\
  updates_with_result sample_bitmap (set_difference_with_result sample_bitmap sample_other)
    (fun i => bit_at sample_bitmap i && negb (bit_at sample_other i)) /\
  updates_with_result sample_bitmap (set_intersection_with_result sample_bitmap sample_other)
    (fun i => bit_at sample_bitmap i && bit_at sample_other i).
Proof.
  apply (set_ops_with_result_spec sample_bitmap sample_other);
    [apply sample_wf | apply sample_other_wf | reflexivity].
Defined.

(* ------------------------------------------------------------------ *)
(** ** Predicates *)

(** The bits between the size and the end of the last word are clear. *)
Definition clean (b : BitMap) : Prop := forall i, bm_size b <= i -> bit_at b i = false.

(** A loop that leaves with [r] at the first pair of words passing [t]. *)
Lemma search_words (t : Z -> Z -> bool) (r : bool) b other n :
  wf b -> wf other -> bm_size other = bm_size b -> 0 <= n <= (bm_size b + 63) / 64 ->
  exists c, loop_result (negb r) <$> for_range 0 n
      (fun index (_ : unit) => x ← map_word b index; y ← map_word other index;
         Some (if t x y then Return r else Next ())) () = Some c /\
    (c = r <-> exists q x y, 0 <= q < n /\ map_word b q = Some x /\
                 map_word other q = Some y /\ t x y = true).
Proof.
  intros Hb Ho Hs Hn.
  match goal with |- context [for_range 0 n ?body ()] =>
    destruct (for_range_inv (fun k (_ : unit) => forall q x y, 0 <= q < k -> map_word b q = Some x ->
        map_word other q = Some y -> t x y = false)
      (fun v => v = r /\ exists q x y, 0 <= q < n /\ map_word b q = Some x /\
                 map_word other q = Some y /\ t x y = true) body 0 n ()) as (c & -> & Hc)
  end; [lia | intros; lia | |].
  - intros k [] Hk HP. destruct (word_present b Hb k) as [x Hx]; [lia|].
    destruct (word_present other Ho k) as [y Hy]; [rewrite Hs; lia|].
    rewrite Hx, Hy. cbn [mbind option_bind]. eexists. split; [done|].
    destruct (t x y) eqn:E.
    + split; [done|]. exists k, x, y. done.
    + intros q x' y' Hq Hx' Hy'. destruct (decide (q = k)) as [->|]; [|by eapply HP; eauto; lia].
      congruence.
  - destruct c as [[]|v]; cbn [fmap option_fmap option_map loop_result].
    + exists (negb r). split; [done|]. split; [by destruct r|].
      intros (q & x & y & Hq & Hx & Hy & Ht). rewrite (Hc q x y Hq Hx Hy) in Ht. done.
    + destruct Hc as [-> He]. exists r. done.
Qed.

Lemma words_differ_bits b other q x y (P : bool -> bool -> bool) f :
  wf b -> wf other -> bitwise f P -> map_word b q = Some x -> map_word other q = Some y ->
  0 <= q -> f x y <> 0 -> exists i, 0 <= i /\ P (bit_at b i) (bit_at other i) = true.
Proof.
  intros Hb Ho Hf Hx Hy Hq Hne.
  pose proof (word_range b Hb _ _ Hx) as Hxr. pose proof (word_range other Ho _ _ Hy) as Hyr.
  destruct (skip_zeros_spec 64 (f x y) 0) as (j & _ & Hj & Ht & _);
    [by apply (bitwise_range f P Hf) | done|].
  exists (q * 64 + j). split; [lia|].
  rewrite (bitwise_bit f P Hf) in Ht by (done || lia).
  by rewrite (word_bit b q x), (word_bit other q y) in Ht by (done || lia).
Qed.

Lemma bits_words_differ b other i (P : bool -> bool -> bool) f :
  wf b -> wf other -> bm_size other = bm_size b -> bitwise f P -> P false false = false ->
  0 <= i -> P (bit_at b i) (bit_at other i) = true ->
  exists q x y, 0 <= q < (bm_size b + 63) / 64 /\ map_word b q = Some x /\
    map_word other q = Some y /\ f x y <> 0.
Proof.
  intros Hb Ho Hs Hf H0 Hi HP.
  assert (Hlt : i < (bm_size b + 63) / 64 * 64).
  { destruct (Z.ltb_spec i ((bm_size b + 63) / 64 * 64)); [done|exfalso].
    rewrite !bit_at_beyond in HP by (try done; rewrite ?Hs; lia). congruence. }
  assert (Hq : 0 <= i / 64 < (bm_size b + 63) / 64) by (split64 i; lia).
  destruct (word_present b Hb _ Hq) as [x Hx].
  destruct (word_present other Ho (i / 64)) as [y Hy]; [by rewrite Hs|].
  exists (i / 64), x, y. split_and!; [apply Hq | apply Hq | done | done |]. intros E.
  pose proof (word_range b Hb _ _ Hx). pose proof (word_range other Ho _ _ Hy). split64 i.
  pose proof (bitwise_bit f P Hf x y (i mod 64) ltac:(done) ltac:(done) ltac:(lia)) as Hbit.
  rewrite E, Z.testbit_0_l in Hbit.
  rewrite (bit_at_word b i x Hx), (bit_at_word other i y Hy) in HP. congruence.
Qed.

Lemma bitwise_lxor : bitwise Z.lxor xorb.
Proof.
  split; intros x y; [|intros; apply Z.lxor_spec]. intros Hx Hy. apply in_u_bits; [lia| |].
  - apply Z.lxor_nonneg. split; intros; [apply Hy | apply Hx].
  - intros i Hi. by rewrite Z.lxor_spec, !(in_u_testbit 64 ltac:(lia)).
Qed.

(** A search for a word pair with a nonzero [f] decides whether some bit pair
    passes [P]. *)
Lemma search_bits (t : Z -> Z -> bool) (r : bool) f P b other :
  wf b -> wf other -> bm_size other = bm_size b -> bitwise f P -> P false false = false ->
  (forall x y, in_u 64 x -> in_u 64 y -> t x y = negb (f x y =? 0)) ->
  exists c, loop_result (negb r) <$> for_range 0 (size_in_words b)
      (fun index (_ : unit) => x ← map_word b index; y ← map_word other index;
         Some (if t x y then Return r else Next ())) () = Some c /\
    (c = r <-> exists i, 0 <= i /\ P (bit_at b i) (bit_at other i) = true).
Proof.
  intros Hb Ho Hs Hf H0 Ht. rewrite size_in_words_div by done. pose proof (wf_size b Hb).
  destruct (search_words t r b other ((bm_size b + 63) / 64)) as (c & -> & Hc); try done.
  { Z.div_mod_to_equations; lia. }
  exists c. split; [done|]. rewrite Hc. split.
  - intros (q & x & y & Hq & Hx & Hy & E).
    rewrite Ht in E by (eapply word_range; [|done]; done). zreflect.
    eapply (words_differ_bits b other q x y P f); (done || lia).
  - intros (i & Hi & HP).
    destruct (bits_words_differ b other i P f) as (q & x & y & Hq & Hx & Hy & E); try done.
    exists q, x, y. do 3 (split; [done|]). rewrite Ht by (eapply word_range; [|done]; done).
    by apply negb_true_iff, Z.eqb_neq.
Qed.

Lemma lor_eq_ldiff x y : in_u 64 x -> in_u 64 y ->
  negb (Z.lor x y =? x) = negb (Z.ldiff y x =? 0).
Proof.
  intros Hx Hy. f_equal. apply eq_true_iff_eq. rewrite !Z.eqb_eq. split; intros E.
  - apply Z.bits_inj'. intros i Hi. rewrite Z.ldiff_spec, Z.testbit_0_l.
    rewrite <- E, Z.lor_spec. btauto.
  - apply Z.bits_inj'. intros i Hi. rewrite Z.lor_spec.
    assert (Hb : Z.testbit (Z.ldiff y x) i = false) by (rewrite E; apply Z.testbit_0_l).
    rewrite Z.ldiff_spec in Hb. by destruct (Z.testbit x i), (Z.testbit y i).
Qed.

Lemma bitwise_ldiff : bitwise (fun x y => Z.ldiff y x) (fun x y => y && negb x).
Proof.
  split; intros x y.
  - intros Hx Hy. rewrite Z.ldiff_land. apply in_u_bits; [lia| |].
    + apply Z.land_nonneg. left. apply Hy.
    + intros i Hi. by rewrite Z.land_spec, (in_u_testbit 64 ltac:(lia) y).
  - intros. apply Z.ldiff_spec.
Qed.

(** [contains], [intersects] and [is_same] decide inclusion, overlap and
    equality of the sets of two clean bitmaps of the same size. *)
Theorem set_predicates_spec (b other : BitMap) :
  wf b -> wf other -> bm_size other = bm_size b -> clean b -> clean other ->
  exists c i s, contains b other = Some c /\ intersects b other = Some i /\
    is_same b other = Some s /\
    (c = true <-> forall k, 0 <= k < bm_size b -> bit_at other k = true -> bit_at b k = true) /\
    (i = true <-> exists k, 0 <= k < bm_size b /\ bit_at b k = true /\ bit_at other k = true) /\
    (s = true <-> forall k, 0 <= k < bm_size b -> bit_at b k = bit_at other k).
Proof.
  intros Hb Ho Hs Hcb Hco.
  destruct (search_bits (fun x y => negb (Z.lor x y =? x)) false (fun x y => Z.ldiff y x)
    (fun x y => y && negb x) b other) as (c & Ec & Hc); auto using lor_eq_ldiff, bitwise_ldiff.
  destruct (search_bits (fun x y => negb (Z.land x y =? 0)) true Z.land andb b other)
    as (i & Ei & Hi); auto using bitwise_land.
  destruct (search_bits (fun x y => negb (x =? y)) false Z.lxor xorb b other)
    as (s & Es & Hsm); auto using bitwise_lxor.
  { intros x y _ _. f_equal. apply eq_true_iff_eq. rewrite !Z.eqb_eq. symmetry.
    split; [apply Z.lxor_eq | intros ->; apply Z.lxor_nilpotent]. }
  assert (Hin : forall k, bit_at b k || bit_at other k = true -> k < bm_size b).
  { intros k Hk. destruct (Z.ltb_spec k (bm_size b)); [done|].
    rewrite Hcb, Hco in Hk by (rewrite ?Hs; lia). done. }
  exists c, i, s. split_and!; try done.
  - split.
    + intros -> k Hk Hk1. destruct (bit_at b k) eqn:E; [done|exfalso].
      assert (true = false) by (apply Hc; exists k; rewrite E, Hk1; split; [lia|done]). done.
    + intros Hall. destruct c; [done|exfalso]. destruct (proj1 Hc eq_refl) as (k & Hk & E).
      apply andb_prop in E as [E1 E2]. rewrite (Hall k) in E2; [done| |done].
      split; [lia|]. apply Hin. by rewrite E1, orb_true_r.
  - rewrite Hi. split.
    + intros (k & Hk & [E1 E2]%andb_prop). exists k. split_and!; try done; try lia.
      apply Hin. by rewrite E1.
    + intros (k & Hk & E1 & E2). exists k. rewrite E1, E2. split; [lia|done].
  - split.
    + intros -> k Hk. destruct (bool_decide (bit_at b k = bit_at other k)) eqn:E.
      { by apply bool_decide_eq_true in E. }
      apply bool_decide_eq_false in E. exfalso.
      assert (true = false); [|done]. apply Hsm. exists k. split; [lia|].
      by destruct (bit_at b k), (bit_at other k).
    + intros Hall. destruct s; [done|exfalso]. destruct (proj1 Hsm eq_refl) as (k & Hk & E).
      assert (k < bm_size b).
      { apply Hin. by destruct (bit_at b k), (bit_at other k). }
      rewrite Hall, xorb_nilpotent in E by lia. done.
Qed.

Lemma sample_clean b : wf b -> bm_size b = 200 ->
  map_word b 3 = Some 7 -> clean b.
Proof.
  intros Hb Hs Hw i Hi. rewrite Hs in Hi. destruct (Z.ltb_spec i 256).
  - rewrite (bit_at_word b i 7) by (by replace (i / 64) with 3 by (Z.div_mod_to_equations; lia)).
    apply (in_u_testbit 8); [lia | vm_compute; intuition discriminate | Z.div_mod_to_equations; lia].
  - apply bit_at_beyond; [done|]. rewrite Hs. change ((200 + 63) / 64 * 64) with 256. lia.
Qed.

Lemma set_predicates_spec_witness :
  exists c i s, contains sample_bitmap sample_other = Some c /\
    intersects sample_bitmap sample_other = Some i /\
    is_same sample_bitmap sample_other = Some s /\
    (c = true <-> forall k, 0 <= k < 200 -> bit_at sample_other k = true -> bit_at sample_bitmap k = true) /\
    (i = true <-> exists k, 0 <= k < 200 /\ bit_at sample_bitmap k = true /\ bit_at sample_other k = true) /\
    (s = true <-> forall k, 0 <= k < 200 -> bit_at sample_bitmap k = bit_at sample_other k).
Proof.
  apply (set_predicates_spec sample_bitmap sample_other);
    [apply sample_wf | apply sample_other_wf | reflexivity
    | apply sample_clean; [apply sample_wf | reflexivity | reflexivity]
    | apply sample_clean; [apply sample_other_wf | reflexivity | reflexivity]].
Defined.

Lemma full_tail rest w : 0 < rest < 64 -> in_u 64 w ->
  (Z.lor w (u64 (Z.lnot (right_n_bits rest))) =? u64 AllBits) = true <->
  forall j, 0 <= j < rest -> Z.testbit w j = true.
Proof.
  intros Hr Hw. rewrite all_bits_eq, Z.eqb_eq. split.
  - intros E j Hj. assert (Hb : Z.testbit (Z.ones 64) j = true) by (apply Z.ones_spec_low; lia).
    rewrite <- E, Z.lor_spec, uwrap_testbit, Z.lnot_spec, right_n_bits_testbit in Hb by lia.
    destruct (Z.ltb_spec j rest), (Z.ltb_spec j 64); try lia. simpl in Hb. by rewrite orb_false_r in Hb.
  - intros Hall. apply (in_u_eq 64); [lia|auto with machine|vm_compute; intuition discriminate|].
    intros j Hj. rewrite Z.lor_spec, uwrap_testbit, Z.lnot_spec, right_n_bits_testbit by lia.
    rewrite Z.ones_spec_low by lia. destruct (Z.ltb_spec j rest), (Z.ltb_spec j 64); try lia.
    rewrite Hall; [done|lia].
Qed.

Lemma empty_tail rest w : 0 < rest < 64 -> in_u 64 w ->
  (Z.land w (u64 (right_n_bits rest)) =? NoBits) = true <->
  forall j, 0 <= j < rest -> Z.testbit w j = false.
Proof.
  intros Hr Hw. unfold NoBits. rewrite Z.eqb_eq. split.
  - intros E j Hj. assert (Hb := Z.testbit_0_l j).
    rewrite <- E, Z.land_spec, uwrap_testbit, right_n_bits_testbit in Hb by lia.
    destruct (Z.ltb_spec j rest), (Z.ltb_spec j 64); try lia. by rewrite andb_true_r in Hb.
  - intros Hall. apply Z.bits_inj'. intros j Hj. rewrite Z.land_spec, uwrap_testbit, Z.testbit_0_l by lia.
    destruct (Z.ltb_spec j 64); simpl; [|apply andb_false_r].
    rewrite right_n_bits_testbit by lia. destruct (Z.ltb_spec j rest); [|apply andb_false_r].
    by rewrite Hall.
Qed.

Lemma tail_word b q rest : wf b -> 0 <= q -> q * 64 + rest = bm_size b -> 0 < rest ->
  exists w, map_word b q = Some w /\ in_u 64 w.
Proof.
  intros Hb Hq Hr H0. destruct (word_present b Hb q) as [w Hw].
  { Z.div_mod_to_equations. lia. }
  exists w. split; [done|]. by eapply word_range.
Qed.

(** The two loops, from the word [q] on, with [rest] bits left to look at. *)
Lemma is_full_loop_spec fuel : forall b q rest, wf b -> 0 <= q -> 0 <= rest ->
  q * 64 + rest = bm_size b -> rest / 64 < Z.of_nat fuel ->
  exists c, is_full_loop fuel b q rest = Some c /\
    (c = true <-> forall i, q * 64 <= i < bm_size b -> bit_at b i = true).
Proof.
  induction fuel as [|f IH]; intros b q rest Hb Hq Hr Hs Hf; [Z.div_mod_to_equations; lia|].
  cbn [is_full_loop]. change BitsPerWord with 64. destruct (Z.leb_spec 64 rest).
  - destruct (tail_word b q rest Hb Hq Hs ltac:(lia)) as (w & Hw & Hwr). rewrite Hw.
    cbn [mbind option_bind]. rewrite all_bits_eq. destruct (Z.eqb_spec w (Z.ones 64)) as [E|E]; cbn [negb].
    + destruct (IH b (q + 1) (rest - 64)) as (c & -> & Hc); try done; try lia.
      { Z.div_mod_to_equations; lia. }
      exists c. split; [done|]. rewrite Hc. split; intros Hall i Hi; [|apply Hall; lia].
      destruct (Z.ltb_spec i ((q + 1) * 64)); [|apply Hall; lia].
      apply (word_ones_bits b q w); (done || lia).
    + exists false. split; [done|]. split; [done|]. intros Hall. exfalso.
      destruct (not_ones_bit w Hwr E) as (m & Hm & Hmb).
      rewrite (word_bit b q w m Hw Hm), Hall in Hmb by lia. done.
  - destruct (Z.eqb_spec rest 0) as [E|E].
    + exists true. split; [done|]. split; [|done]. intros _ i Hi. lia.
    + destruct (tail_word b q rest Hb Hq Hs ltac:(lia)) as (w & Hw & Hwr). rewrite Hw.
      cbn [mbind option_bind]. eexists. split; [done|]. rewrite full_tail by (done || lia).
      split; intros Hall i Hi.
      * replace i with (q * 64 + (i - q * 64)) by lia.
        rewrite <- (word_bit b q w) by (done || lia). apply Hall. lia.
      * rewrite (word_bit b q w) by (done || lia). apply Hall. lia.
Qed.

Lemma is_empty_loop_spec fuel : forall b q rest, wf b -> 0 <= q -> 0 <= rest ->
  q * 64 + rest = bm_size b -> rest / 64 < Z.of_nat fuel ->
  exists c, is_empty_loop fuel b q rest = Some c /\
    (c = true <-> forall i, q * 64 <= i < bm_size b -> bit_at b i = false).
Proof.
  induction fuel as [|f IH]; intros b q rest Hb Hq Hr Hs Hf; [Z.div_mod_to_equations; lia|].
  cbn [is_empty_loop]. change BitsPerWord with 64. destruct (Z.leb_spec 64 rest).
  - destruct (tail_word b q rest Hb Hq Hs ltac:(lia)) as (w & Hw & Hwr). rewrite Hw.
    cbn [mbind option_bind]. destruct (Z.eqb_spec w NoBits) as [E|E]; cbn [negb].
    + destruct (IH b (q + 1) (rest - 64)) as (c & -> & Hc); try done; try lia.
      { Z.div_mod_to_equations; lia. }
      exists c. split; [done|]. rewrite Hc. split; intros Hall i Hi; [|apply Hall; lia].
      destruct (Z.ltb_spec i ((q + 1) * 64)); [|apply Hall; lia].
      apply (word_zero_bits b q w); (done || lia).
    + exists false. split; [done|]. split; [done|]. intros Hall. exfalso.
      destruct (skip_zeros_spec 64 w 0 Hwr E) as (m & _ & Hm & Hmb & _).
      rewrite (word_bit b q w m Hw ltac:(lia)), Hall in Hmb by lia. done.
  - destruct (Z.eqb_spec rest 0) as [E|E].
    + exists true. split; [done|]. split; [|done]. intros _ i Hi. lia.
    + destruct (tail_word b q rest Hb Hq Hs ltac:(lia)) as (w & Hw & Hwr). rewrite Hw.
      cbn [mbind option_bind]. eexists. split; [done|]. rewrite empty_tail by (done || lia).
      split; intros Hall i Hi.
      * replace i with (q * 64 + (i - q * 64)) by lia.
        rewrite <- (word_bit b q w) by (done || lia). apply Hall. lia.
      * rewrite (word_bit b q w) by (done || lia). apply Hall. lia.
Qed.

(** [is_full] and [is_empty] look at the bits below the size only, whatever
    the rest of the last word holds. *)
Theorem is_full_is_empty_spec (b : BitMap) : wf b ->
  exists f e, is_full b = Some f /\ is_empty b = Some e /\
    (f = true <-> forall i, 0 <= i < bm_size b -> bit_at b i = true) /\
    (e = true <-> forall i, 0 <= i < bm_size b -> bit_at b i = false).
Proof.
  intros Hb. pose proof (wf_size b Hb).
  assert (Hf : bm_size b / 64 < Z.of_nat (Datatypes.S (Z.to_nat (bm_size b / BitsPerWord)))).
  { change BitsPerWord with 64. Z.div_mod_to_equations; lia. }
  destruct (is_full_loop_spec _ b 0 (bm_size b) Hb ltac:(lia) ltac:(lia) ltac:(lia) Hf) as (f & Ef & Hfu).
  destruct (is_empty_loop_spec _ b 0 (bm_size b) Hb ltac:(lia) ltac:(lia) ltac:(lia) Hf) as (e & Ee & Hem).
  by exists f, e.
Qed.

Lemma is_full_is_empty_spec_witness :
  exists f e, is_full sample_bitmap = Some f /\ is_empty sample_bitmap = Some e /\
    (f = true <-> forall i, 0 <= i < 200 -> bit_at sample_bitmap i = true) /\
    (e = true <-> forall i, 0 <= i < 200 -> bit_at sample_bitmap i = false).
Proof. apply (is_full_is_empty_spec sample_bitmap sample_wf). Defined.

(* ------------------------------------------------------------------ *)
(** ** Population counts *)

(** The number of indices below [n] where [f] holds. *)
Fixpoint count_to (f : Z -> bool) (n : nat) : Z :=
  match n with
  | O => 0
  | S m => count_to f m + (if f (Z.of_nat m) then 1 else 0)
  end.

Lemma count_to_ext f g n : (forall i, 0 <= i < Z.of_nat n -> f i = g i) ->
  count_to f n = count_to g n.
Proof.
  induction n as [|n IH]; intros E; simpl; [done|].
  rewrite IH, E by (intros; apply E || lia; lia). done.
Qed.

Lemma count_to_app f n m : count_to f (n + m) =
  count_to f n + count_to (fun i => f (i + Z.of_nat n)) m.
Proof.
  induction m as [|m IH]; simpl; [by rewrite Nat.add_0_r, Z.add_0_r|].
  rewrite Nat.add_succ_r. simpl. rewrite IH.
  replace (Z.of_nat (n + m)) with (Z.of_nat m + Z.of_nat n) by lia. lia.
Qed.

Lemma count_to_none f n : (forall i, 0 <= i < Z.of_nat n -> f i = false) -> count_to f n = 0.
Proof.
  induction n as [|n IH]; intros E; simpl; [done|].
  rewrite IH, E by (intros; apply E || lia; lia). done.
Qed.

Lemma count_to_bound f n : 0 <= count_to f n <= Z.of_nat n.
Proof. induction n as [|n IH]; simpl; [lia|]. destruct (f _); lia. Qed.

Lemma shift_out_zeros_spec fuel : forall w,
  0 <= w < 2 ^ Z.of_nat fuel -> w <> 0 ->
  exists k, shift_out_zeros fuel w = Some (Z.shiftr w k) /\ 0 <= k < Z.of_nat fuel /\
    Z.testbit w k = true /\ forall j, 0 <= j < k -> Z.testbit w j = false.
Proof.
  induction fuel as [|f IH]; intros w Hr Hne; [simpl in Hr; lia|].
  destruct (skip_zeros_spec (S f) w 0 Hr Hne) as (k & _ & Hk & Ht & Hf). exists k.
  split_and!; try done; try lia. simpl. rewrite land_1_odd.
  destruct (Z.testbit w 0) eqn:H0; simpl.
  - destruct (decide (k = 0)) as [->|]; [by rewrite Z.shiftr_0_r|].
    rewrite Hf in H0 by lia. done.
  - assert (k <> 0) by (intros ->; congruence).
    destruct (IH (Z.shiftr w 1)) as (k' & -> & Hk' & Ht' & Hf').
    { rewrite Z.shiftr_div_pow2 by lia. change (2 ^ 1) with 2.
      replace (Z.of_nat (S f)) with (Z.succ (Z.of_nat f)) in Hr by lia.
      rewrite Z.pow_succ_r in Hr by lia. split; [apply Z.div_pos; lia | apply Z.div_lt_upper_bound; lia]. }
    { intros E. replace k with (k - 1 + 1) in Ht by lia.
      rewrite <- Z.shiftr_spec, E, Z.testbit_0_l in Ht by lia. done. }
    f_equal. rewrite Z.shiftr_shiftr by lia. f_equal.
    rewrite Z.shiftr_spec in Ht' by lia.
    destruct (Z.lt_trichotomy (1 + k') k) as [Hl|[->|Hl]]; [|done|].
    + rewrite Z.add_comm, Hf in Ht' by lia. done.
    + specialize (Hf' (k - 1) ltac:(lia)). rewrite Z.shiftr_spec in Hf' by lia.
      replace (k - 1 + 1) with k in Hf' by lia. congruence.
Qed.

Lemma num_set_bits_loop_spec fuel : forall n w bits,
  0 <= w < 2 ^ Z.of_nat n -> (n <= 64)%nat -> (n < fuel)%nat ->
  num_set_bits_loop fuel w bits = Some (bits + count_to (Z.testbit w) n).
Proof.
  induction fuel as [|f IH]; intros n w bits Hw Hn Hf; [lia|]. cbn [num_set_bits_loop].
  destruct (Z.eqb_spec w 0) as [->|Hne]; cbn [negb].
  - rewrite count_to_none; [f_equal; lia|]. intros. apply Z.testbit_0_l.
  - destruct (shift_out_zeros_spec 64 w) as (k & -> & Hk & Ht & Hz); [|done|].
    { split; [lia|]. eapply Z.lt_le_trans; [apply Hw|]. apply Z.pow_le_mono_r; lia. }
    cbn [mbind option_bind].
    assert (Hkn : k < Z.of_nat n).
    { destruct (Z.ltb_spec k (Z.of_nat n)); [done|].
      rewrite (in_u_testbit (Z.of_nat n)) in Ht by (done || lia). done. }
    rewrite Z.shiftr_shiftr by lia.
    rewrite (IH (n - Z.to_nat (k + 1))%nat); [|split; [apply Z.shiftr_nonneg; lia|]|lia|lia].
    + f_equal. replace n with (Z.to_nat k + 1 + (n - Z.to_nat (k + 1)))%nat at 2 by lia.
      rewrite !count_to_app. rewrite (count_to_none (Z.testbit w) (Z.to_nat k)) by (intros; apply Hz; lia).
      cbn [count_to]. replace (Z.of_nat 0 + Z.of_nat (Z.to_nat k)) with k by lia. rewrite Ht.
      rewrite (count_to_ext (Z.testbit (Z.shiftr w (k + 1)))
        (fun i => Z.testbit w (i + Z.of_nat (Z.to_nat k + 1)))); [lia|].
      intros i Hi. rewrite Z.shiftr_spec by lia. f_equal. lia.
    + rewrite Z.shiftr_div_pow2 by lia. apply Z.div_lt_upper_bound; [apply Z.pow_pos_nonneg; lia|].
      rewrite <- Z.pow_add_r by lia. eapply Z.lt_le_trans; [apply Hw|]. apply Z.pow_le_mono_r; lia.
Qed.

Lemma pop_table_spec : exists t, init_pop_count_table None = Some t /\
  forall c, 0 <= c < 256 -> arr_get t c = Some (count_to (Z.testbit c) 8).
Proof.
  assert (Hall : Forall (fun c => is_Some (num_set_bits c)) (seqZ 0 256)).
  { apply Forall_forall. intros c Hc%list_elem_of_In%elem_of_seqZ. unfold num_set_bits.
    rewrite (num_set_bits_loop_spec 65 8) by (simpl; lia). by eexists. }
  apply mapM_is_Some in Hall as [t Ht]. exists t. split; [done|].
  apply mapM_Some in Ht. intros c Hc. unfold arr_get. destruct (Z.leb_spec 0 c); [|lia].
  destruct (Forall2_lookup_l _ _ _ (Z.to_nat c) c Ht) as (y & Hy & E).
  { rewrite lookup_seqZ. split; lia. }
  rewrite Hy. unfold num_set_bits in E. rewrite (num_set_bits_loop_spec 65 8) in E by (simpl; lia).
  rewrite Z.add_0_l in E. congruence.
Qed.

(** The table-driven population count is the number of set bits of a clean
    bitmap. *)
Theorem count_one_bits_spec (b : BitMap) : wf b -> clean b ->
  count_one_bits None b = Some (count_to (bit_at b) (Z.to_nat (bm_size b))).
Proof.
  intros Hb Hc. pose proof (wf_size b Hb). unfold count_one_bits.
  destruct pop_table_spec as (t & -> & Ht). cbn [mbind option_bind].
  rewrite size_in_words_div by done.
  assert (Hbyte : forall w s, in_u 64 w -> 0 <= s <= 2 ^ 64 - 128 ->
    fst <$> each_range 0 8 (fun _ '(sum, w) => n ← arr_get t (u8 (Z.land w 255));
                              Some (u64 (sum + n), Z.shiftr w 8)) (s, w) =
    Some (s + count_to (Z.testbit w) 64)).
  { intros w s Hw Hs.
    match goal with |- context [each_range 0 8 ?body _] =>
      destruct (each_range_inv (fun j '(s', w') => s' = s + count_to (Z.testbit w) (Z.to_nat (8 * j)) /\
        w' = Z.shiftr w (8 * j)) body 0 8 (s, w)) as ([s' w'] & -> & -> & ->) end.
    - lia.
    - simpl. rewrite Z.shiftr_0_r. split; [lia|done].
    - intros j [s1 w1] Hj [-> ->]. cbn [mbind option_bind].
      change 255 with (2 ^ 8 - 1). rewrite land_ones_mod by lia. fold (u8 (Z.shiftr w (8 * j))).
      rewrite uwrap_idem by lia.
      rewrite Ht by (apply (uwrap_range 8); lia). eexists. split; [done|].
      pose proof (count_to_bound (Z.testbit w) (Z.to_nat (8 * j))).
      pose proof (count_to_bound (Z.testbit (u8 (Z.shiftr w (8 * j)))) 8).
      split; [|rewrite Z.shiftr_shiftr by lia; f_equal; lia].
      rewrite (uwrap_small 64) by (unfold in_u; lia).
      replace (Z.to_nat (8 * (j + 1))) with (Z.to_nat (8 * j) + 8)%nat by lia.
      rewrite count_to_app.
      rewrite (count_to_ext (Z.testbit (u8 (Z.shiftr w (8 * j))))
        (fun i => Z.testbit w (i + Z.of_nat (Z.to_nat (8 * j))))); [lia|].
      intros i Hi. rewrite uwrap_testbit, Z.shiftr_spec by lia.
      destruct (Z.ltb_spec i 8); [|lia]. simpl. f_equal. lia.
    - cbn [fmap option_fmap option_map fst]. f_equal. }
  destruct (each_range_inv (fun k sum => sum = count_to (bit_at b) (Z.to_nat (k * 64)))
    (fun i sum => w ← map_word b i; fst <$> each_range 0 8 (fun _ '(sum, w) =>
       n ← arr_get t (u8 (Z.land w 255)); Some (u64 (sum + n), Z.shiftr w 8)) (sum, w))
    0 ((bm_size b + 63) / 64) 0) as (s & -> & ->).
  - Z.div_mod_to_equations; lia.
  - done.
  - intros k s Hk ->. destruct (word_present b Hb k Hk) as [w Hw]. rewrite Hw. cbn [mbind option_bind].
    pose proof (count_to_bound (bit_at b) (Z.to_nat (k * 64))).
    rewrite Hbyte; [|by eapply word_range|Z.div_mod_to_equations; lia].
    eexists. split; [done|]. replace (Z.to_nat ((k + 1) * 64)) with (Z.to_nat (k * 64) + 64)%nat by lia.
    rewrite count_to_app. f_equal. apply count_to_ext. intros i Hi.
    rewrite (word_bit b k w) by (done || lia). f_equal. lia.
  - f_equal. replace (Z.to_nat ((bm_size b + 63) / 64 * 64)) with
      (Z.to_nat (bm_size b) + Z.to_nat ((bm_size b + 63) / 64 * 64 - bm_size b))%nat
      by (Z.div_mod_to_equations; lia).
    rewrite count_to_app.
    rewrite (count_to_none (fun i => bit_at b (i + Z.of_nat (Z.to_nat (bm_size b))))); [lia|].
    intros i Hi. apply Hc. lia.
Qed.

Lemma count_one_bits_spec_witness :
  count_one_bits None sample_bitmap = Some (count_to (bit_at sample_bitmap) (Z.to_nat 200)).
Proof.
  apply (count_one_bits_spec sample_bitmap); [apply sample_wf|].
  apply sample_clean; [apply sample_wf | reflexivity | reflexivity].
Defined.

(* ------------------------------------------------------------------ *)
(** ** Iteration *)

Section IteratePure.
Context {St : Type} (g : Z -> St -> St * bool).

(** A closure that reads the bitmap but does not change it. *)
Definition pure_closure (i : Z) (b : BitMap) (s : St) : BitMap * St * bool :=
  (b, (g i s).1, (g i s).2).

(** The reference: apply the closure to a list of indices until it says stop. *)
Fixpoint visit (l : list Z) (s : St) : St * bool :=
  match l with
  | [] => (s, true)
  | i :: l => if (g i s).2 then visit l (g i s).1 else ((g i s).1, false)
  end.

Lemma visit_app l1 l2 s : visit (l1 ++ l2) s =
  (if (visit l1 s).2 then visit l2 (visit l1 s).1 else visit l1 s).
Proof.
  revert s. induction l1 as [|i l1 IH]; intros s; simpl; [done|].
  destruct (g i s).2; [apply IH|done].
Qed.

(** The indices of [l, r) whose bit is set, in increasing order. *)
Definition set_bits_in (b : BitMap) (l r : Z) : list Z :=
  filter (fun i => bit_at b i = true) (seqZ l (r - l)).

Lemma set_bits_in_app b l m r : l <= m <= r ->
  set_bits_in b l r = set_bits_in b l m ++ set_bits_in b m r.
Proof using Type.
  intros. unfold set_bits_in. rewrite <- list.filter_app. f_equal.
  replace (r - l) with ((m - l) + (r - m)) by lia. rewrite seqZ_app by lia.
  do 2 f_equal. lia.
Qed.

Lemma set_bits_in_cons b l r : l < r ->
  set_bits_in b l r = (if bit_at b l then [l] else []) ++ set_bits_in b (l + 1) r.
Proof using Type.
  intros. rewrite (set_bits_in_app b l (l + 1)) by lia. f_equal. unfold set_bits_in.
  replace (l + 1 - l) with (Z.succ 0) by lia. rewrite seqZ_cons by lia. simpl.
  rewrite seqZ_nil by lia. rewrite filter_cons. simpl.
  destruct (bit_at b l); done.
Qed.

Lemma set_bits_in_none b l r : (forall i, l <= i < r -> bit_at b i = false) ->
  set_bits_in b l r = [].
Proof using Type.
  intros Hn. destruct (set_bits_in b l r) as [|i l'] eqn:E; [done|exfalso].
  assert (Hi : i ∈ set_bits_in b l r) by (rewrite E; left).
  unfold set_bits_in in Hi. apply list_elem_of_filter in Hi as [Hbit Hi%elem_of_seqZ].
  rewrite Hn in Hbit by lia. done.
Qed.

(** The inner loop finishes the current word. *)
Lemma iterate_word_spec fuel : forall b q w off r s, wf b -> map_word b q = Some w ->
  0 <= q -> q * 64 <= off <= q * 64 + 64 -> off <= r ->
  64 - (off - q * 64) < Z.of_nat fuel ->
  exists off', iterate_word pure_closure fuel q off r (Z.shiftr w (off - q * 64)) b s =
    (let v := visit (set_bits_in b off (Z.min r (q * 64 + 64))) s in
     Some (b, v.1, (v.2, off'))).
Proof.
  induction fuel as [|f IH]; intros b q w off r s Hb Hw Hq Hoff Hr Hf; [lia|].
  cbn [iterate_word]. pose proof (word_range b Hb _ _ Hw) as Hwr.
  destruct (Z.ltb_spec off r); cbn [andb].
  2:{ exists off. rewrite set_bits_in_none by lia. done. }
  destruct (Z.eqb_spec (Z.shiftr w (off - q * 64)) NoBits) as [E|E]; cbn [negb].
  { exists off. rewrite set_bits_in_none; [done|]. intros i Hi.
    replace i with (q * 64 + (i - q * 64)) by lia. rewrite <- (word_bit b q w) by (done || lia).
    replace (i - q * 64) with ((i - off) + (off - q * 64)) by lia.
    rewrite <- Z.shiftr_spec, E by lia. apply Z.testbit_0_l. }
  assert (Hlt : off < q * 64 + 64).
  { destruct (Z.ltb_spec off (q * 64 + 64)); [done|]. exfalso. apply E.
    replace (off - q * 64) with 64 by lia. apply Z.bits_inj'. intros j Hj.
    unfold NoBits. rewrite Z.shiftr_spec, Z.testbit_0_l by lia.
    apply (in_u_testbit 64); (done || lia). }
  rewrite set_bits_in_cons by lia. rewrite visit_app. rewrite land_1_odd, negb_involutive.
  rewrite Z.shiftr_spec, Z.add_0_l by lia. rewrite (word_bit b q w) by (done || lia).
  replace (q * 64 + (off - q * 64)) with off by lia.
  assert (Hsh : Z.shiftr (Z.shiftr w (off - q * 64)) 1 = Z.shiftr w (off + 1 - q * 64)).
  { rewrite Z.shiftr_shiftr by lia. f_equal. lia. }
  destruct (bit_at b off) eqn:Hbit.
  - unfold pure_closure at 1. cbn [visit fst snd]. destruct (g off s).2 eqn:Hg; cbn [negb fst snd].
    + rewrite Hw. cbn [mbind option_bind]. rewrite land_63_mod.
      replace (off mod 64) with (off - q * 64) by (Z.div_mod_to_equations; lia).
      rewrite Hsh. apply IH; (done || lia).
    + by exists off.
  - cbn [visit fst snd]. rewrite Hsh. apply IH; (done || lia).
Qed.

Lemma iterate_words_eq f b q off r e s :
  iterate_words pure_closure (Datatypes.S f) q off e r b s =
    if (off <? r) && (q <? e) then
      w ← map_word b q;
      r1 ← iterate_word pure_closure word_fuel q off r (Z.shiftr w (Z.land off (BitsPerWord - 1))) b s;
      let '(b, s, (continue, _)) := r1 in
      if negb continue then Some (b, s, false)
      else iterate_words pure_closure f (q + 1) (bit_index (q + 1)) e r b s
    else Some (b, s, true).
Proof using Type. reflexivity. Qed.

(** One turn of the outer loop that is not the last. *)
Lemma iterate_words_turn f b q off r e s w s' c off' :
  off < r -> q < e -> map_word b q = Some w ->
  iterate_word pure_closure word_fuel q off r (Z.shiftr w (off mod 64)) b s = Some (b, s', (c, off')) ->
  iterate_words pure_closure (Datatypes.S f) q off e r b s =
    if c then iterate_words pure_closure f (q + 1) (bit_index (q + 1)) e r b s' else Some (b, s', false).
Proof using Type.
  intros Hr%Z.ltb_lt He%Z.ltb_lt Hw Hi. rewrite iterate_words_eq, Hr, He. cbn [andb].
  rewrite (bind_Some _ _ _ Hw), land_63_mod, (bind_Some _ _ _ Hi). destruct c; reflexivity.
Qed.

Lemma iterate_words_spec fuel : forall b q off r e s, wf b -> 0 <= q ->
  q * 64 <= off -> (off < r -> off < q * 64 + 64) -> r <= bm_size b ->
  e = MIN2 (r / 64 + 1) ((bm_size b + 63) / 64) -> q <= e -> e - q < Z.of_nat fuel ->
  iterate_words pure_closure fuel q off e r b s =
    (let v := visit (set_bits_in b off r) s in Some (b, v.1, v.2)).
Proof.
  induction fuel as [|f IH]; intros b q off r e s Hb Hq Hoff Hoff2 Hr He Hqe Hf; [lia|].
  pose proof (wf_size b Hb). destruct (Z.ltb_spec off r) as [Hlt|Hge].
  2:{ rewrite set_bits_in_none by lia. cbn [iterate_words visit fst snd].
      destruct (Z.ltb_spec off r); [lia|done]. }
  assert (Hqe' : q < e) by (subst e; unfold MIN2; zcases; Z.div_mod_to_equations; lia).
  assert (He' : e <= (bm_size b + 63) / 64) by (subst e; unfold MIN2; zcases).
  destruct (word_present b Hb q ltac:(lia)) as [w Hw].
  destruct (iterate_word_spec word_fuel b q w off r s) as [off' Hi]; try done; try (unfold word_fuel; lia).
  replace (off - q * 64) with (off mod 64) in Hi by (Z.div_mod_to_equations; lia).
  rewrite (iterate_words_turn f b q off r e s w _ _ off' Hlt Hqe' Hw Hi).
  rewrite bit_index_mul by (Z.div_mod_to_equations; lia).
  rewrite (set_bits_in_app b off (Z.min r (q * 64 + 64)) r) by lia. rewrite visit_app.
  destruct (visit (set_bits_in b off (Z.min r (q * 64 + 64))) s) as [s' []]; cbn [fst snd negb]; [|done].
  destruct (Z.leb_spec r (q * 64 + 64)).
  - rewrite (IH b (q + 1) ((q + 1) * 64) r e s'); try done; try lia.
    by rewrite !set_bits_in_none by lia.
  - rewrite (IH b (q + 1) ((q + 1) * 64) r e s'); try done; try lia.
    by replace (Z.min r (q * 64 + 64)) with ((q + 1) * 64) by lia.
Qed.

(** [iterate] applies a closure that leaves the bitmap alone to exactly the
    set bits of the range, in increasing order, until the closure says stop, and
    reports whether it ran to the end. *)
Theorem iterate_spec (b : BitMap) (l r : Z) (s : St) :
  wf b -> 0 <= l <= r -> r <= bm_size b ->
  iterate pure_closure b s l r =
    (let v := visit (set_bits_in b l r) s in Some (b, v.1, v.2)).
Proof.
  intros Hb Hlr Hr. pose proof (wf_size b Hb). unfold iterate. rewrite !word_index_div.
  rewrite size_in_words_div by done.
  apply iterate_words_spec; try done; unfold MIN2; zcases; Z.div_mod_to_equations; lia.
Qed.
End IteratePure.

Lemma iterate_spec_witness :
  iterate (pure_closure (fun i s => (s ++ [i], true))) sample_bitmap [] 1 200 =
    (let v := visit (fun i s => (s ++ [i], true)) (set_bits_in sample_bitmap 1 200) [] in
     Some (sample_bitmap, v.1, v.2)) /\
  (visit (fun i s => (s ++ [i], true)) (set_bits_in sample_bitmap 1 200) []).1 = [2; 127; 192; 193; 194].
Proof.
  split; [|reflexivity].
  apply (iterate_spec (fun i s => (s ++ [i], true)) sample_bitmap 1 200 []);
    [apply sample_wf | lia | simpl; lia].
Defined.

(* ------------------------------------------------------------------ *)
(** ** Resizing *)

(** A resized bitmap: well-formed, of the new size, with the old bits below both
    array lengths and zeros above the old one. *)
Definition resized (b : BitMap) (n : Z) (o : option BitMap) : Prop :=
  exists b', o = Some b' /\ wf b' /\ bm_size b' = n /\
    forall i, 0 <= i -> bit_at b' i = (i <? (n + 63) / 64 * 64) && bit_at b i.

(** A bitmap whose words are not yet initialised: only the shape is known. *)
Record shaped (b : BitMap) (n : Z) : Prop := {
  shaped_size : bm_size b = n;
  shaped_length : Z.of_nat (length (bm_map b)) = (n + 63) / 64 }.

Lemma shaped_set b n q x : shaped b n -> 0 <= q < (n + 63) / 64 ->
  exists b', set_word b q x = Some b' /\ shaped b' n /\
    forall j, map_word b' j = if j =? q then Some x else map_word b j.
Proof.
  intros [Hs Hl] Hq. unfold set_word. rewrite arr_set_Some by lia. simpl. eexists. split; [done|].
  split; [split; simpl; [done|by rewrite length_insert]|]. intros j.
  unfold map_word. simpl. by rewrite arr_get_insert by lia.
Qed.

(** Growing or shrinking a bitmap keeps the bits that still have a word, and
    the words added are clear, whatever the fresh memory contained. *)
Theorem resize_spec (junk : Z -> Z) (b : BitMap) (n : Z) :
  wf b -> 0 <= n < 2 ^ 64 - 64 -> resized b n (resize junk b n).
Proof.
  intros Hb Hn. pose proof (wf_size b Hb) as Hsz. pose proof (wf_length b Hb) as Hlen.
  unfold resize. rewrite size_in_words_div by done.
  assert (Hnw : size_in_words {| bm_map := bm_map b; bm_size := n |} = (n + 63) / 64).
  { unfold size_in_words. simpl. rewrite word_index_div. change BitsPerWord with 64.
    rewrite uwrap_small by (unfold in_u; lia). f_equal. lia. }
  rewrite Hnw. set (ow := (bm_size b + 63) / 64) in *. set (nw := (n + 63) / 64) in *.
  assert (Hnw0 : 0 <= nw /\ nw * 64 < 2 ^ 64) by (unfold nw; Z.div_mod_to_equations; lia).
  assert (How0 : 0 <= ow) by (unfold ow; Z.div_mod_to_equations; lia).
  set (b0 := with_map _ (junk <$> seqZ 0 nw)).
  assert (Hb0 : shaped b0 n).
  { split; [done|]. simpl. rewrite length_fmap, length_seqZ. fold nw. lia. }
  clearbody b0.
  destruct (each_range_inv (fun k b' => shaped b' n /\
      forall j, 0 <= j < k -> map_word b' j = map_word b j)
    (fun i b' => w ← arr_get (bm_map b) i; set_word b' i w) 0 (MIN2 ow nw) b0)
    as (b1 & -> & Hb1 & Hcopy).
  { unfold MIN2. zcases. } { split; [done|]. intros j Hj. lia. }
  { intros k b' Hk [Hsh Hc]. destruct (word_present b Hb k) as [w Hw].
    { fold ow. unfold MIN2 in Hk. destruct (ow <? nw) eqn:?; zreflect; lia. }
    unfold map_word in Hw. rewrite Hw. cbn [mbind option_bind].
    destruct (shaped_set b' n k w Hsh) as (b'' & -> & Hsh' & Hget).
    { fold nw. unfold MIN2 in Hk. destruct (ow <? nw) eqn:?; zreflect; lia. }
    exists b''. split; [done|]. split; [done|]. intros j Hj. rewrite Hget.
    destruct (Z.eqb_spec j k) as [->|]; [by unfold map_word | apply Hc; lia]. }
  cbn [mbind option_bind].
  assert (Hfin : forall b2, shaped b2 n ->
     (forall j, 0 <= j < nw -> map_word b2 j = if j <? ow then map_word b j else Some 0) ->
     resized b n (Some b2)).
  { intros b2 [Hs2 Hl2] Hw2. fold nw in Hl2.
    assert (Hget : forall j x, map_word b2 j = Some x -> in_u 64 x).
    { intros j x Hx. pose proof (arr_get_lt _ _ _ Hx) as Hj. rewrite Hw2 in Hx by lia.
      destruct (j <? ow); [by eapply word_range|]. injection Hx as <-. unfold in_u. lia. }
    exists b2. split; [done|]. split.
    { split; [lia | by rewrite Hs2 | ]. apply Forall_lookup. intros j x Hx.
      apply (Hget (Z.of_nat j)). unfold map_word, arr_get.
      destruct (Z.leb_spec 0 (Z.of_nat j)); [|lia]. by rewrite Nat2Z.id. }
    split; [done|]. intros i Hi. split64 i. fold nw.
    destruct (Z.ltb_spec i (nw * 64)); simpl.
    - unfold bit_at. fold (map_word b2 (i / 64)). rewrite Hw2 by lia.
      destruct (Z.ltb_spec (i / 64) ow); [done|]. simpl. rewrite Z.testbit_0_l.
      fold (map_word b (i / 64)). unfold map_word. rewrite arr_get_out by lia.
      symmetry. apply Z.testbit_0_l.
    - unfold bit_at. rewrite arr_get_out by lia. apply Z.testbit_0_l. }
  destruct (Z.ltb_spec ow nw) as [Hlt|Hge].
  - assert (Hnw1 : size_in_words b1 = nw) by (unfold size_in_words; rewrite (shaped_size b1 n Hb1); exact Hnw).
    rewrite Hnw1. unfold clear_range_of_words.
    destruct (each_range_inv (fun k b' => shaped b' n /\
        forall j, 0 <= j < k -> map_word b' j = if j <? ow then map_word b j else Some 0)
      (fun i b => set_word b i 0) ow nw b1) as (b2 & -> & Hb2 & Hw2).
    + lia.
    + split; [done|]. intros j Hj. destruct (Z.ltb_spec j ow); [|lia]. apply Hcopy.
      unfold MIN2. zcases.
    + intros k b' Hk [Hsh Hc].
      destruct (shaped_set b' n k 0 Hsh ltac:(fold nw; lia)) as (b'' & -> & Hsh' & Hget).
      exists b''. split; [done|]. split; [done|]. intros j Hj. rewrite Hget.
      destruct (Z.eqb_spec j k) as [->|]; [destruct (Z.ltb_spec k ow); [lia|done] | apply Hc; lia].
    + apply Hfin; [done|]. intros j Hj. apply Hw2. lia.
  - apply Hfin; [done|]. intros j Hj. destruct (Z.ltb_spec j ow); [|lia]. apply Hcopy.
    unfold MIN2. zcases.
Qed.

Lemma resize_spec_witness : resized sample_bitmap 300 (resize (fun _ => -1) sample_bitmap 300).
Proof. apply (resize_spec (fun _ => -1) sample_bitmap 300); [apply sample_wf | lia]. Defined.

(** [at_put_grow] puts the bit wherever it is, growing the bitmap first when the
    index is not below the size; the one index it fails to make room for is 0 in an
    empty bitmap, whose doubled size is still 0. *)
Theorem at_put_grow_spec (junk : Z -> Z) (b : BitMap) (i : Z) (v : bool) :
  wf b -> 0 <= i -> bm_size b < 2 ^ 62 -> i < 2 ^ 62 ->
  if (bm_size b =? 0) && (i =? 0) then at_put_grow junk b i v = None
  else exists b', at_put_grow junk b i v = Some b' /\ wf b' /\
         bm_size b' = (if i <? bm_size b then bm_size b else 2 * Z.max (bm_size b) i) /\
         forall j, 0 <= j -> bit_at b' j = if j =? i then v else bit_at b j.
Proof.
  intros Hb Hi Hs Hi62. pose proof (wf_size b Hb). unfold at_put_grow.
  assert (Hput : forall b1, wf b1 -> i < bm_size b1 -> exists b', at_put b1 i v = Some b' /\ wf b' /\
            bm_size b' = bm_size b1 /\ forall j, 0 <= j -> bit_at b' j = if j =? i then v else bit_at b1 j).
  { intros b1 Hb1 Hlt. destruct (at_put_updates b1 i v Hb1 ltac:(lia)) as (b' & E & Hb' & Hs' & Hbits).
    exists b'. split_and!; try done. intros j Hj. rewrite Hbits by done. unfold put, in_range. zcases; done. }
  assert (Emax : MAX2 (bm_size b) i = Z.max (bm_size b) i) by (unfold MAX2; zcases).
  destruct (Z.leb_spec (bm_size b) i) as [Hge|Hlt].
  - rewrite Emax, Z.max_r by lia. rewrite (uwrap_small 64) by (unfold in_u; lia).
    destruct (resize_spec junk b (2 * i) Hb ltac:(lia)) as (b1 & -> & Hb1 & Hs1 & Hbits).
    cbn [mbind option_bind]. destruct (Z.eqb_spec (bm_size b) 0); destruct (Z.eqb_spec i 0); cbn [andb].
    { subst i. assert (Hl : bm_map b1 = []).
      { apply length_zero_iff_nil. pose proof (wf_length b1 Hb1) as Hl1. rewrite Hs1 in Hl1.
        change ((2 * 0 + 63) / 64) with 0 in Hl1. lia. }
      unfold at_put. destruct v; unfold set_bit, clear_bit, update_word_of, map_word; by rewrite Hl. }
    all: try lia.
    all: destruct (Hput b1 Hb1 ltac:(lia)) as (b' & -> & Hb' & Hs' & Hbits'); exists b';
      split; [done|]; split; [done|]; split; [rewrite Hs', Hs1; zcases|];
      intros j Hj; rewrite Hbits' by done; destruct (j =? i); [done|];
      rewrite Hbits by done; destruct (Z.ltb_spec j ((2 * i + 63) / 64 * 64)); [done|];
      simpl; symmetry; apply bit_at_beyond; [done|]; Z.div_mod_to_equations; lia.
  - cbn [mbind option_bind]. destruct (Z.eqb_spec (bm_size b) 0); [lia|]. cbn [andb].
    destruct (Hput b Hb Hlt) as (b' & E & Hb' & Hs' & Hbits). exists b'.
    split_and!; try done. zcases.
Qed.

Lemma at_put_grow_spec_witness :
  (if (bm_size sample_bitmap =? 0) && (500 =? 0) then at_put_grow (fun _ => 7) sample_bitmap 500 true = None
   else exists b', at_put_grow (fun _ => 7) sample_bitmap 500 true = Some b' /\ wf b' /\
         bm_size b' = (if 500 <? bm_size sample_bitmap then bm_size sample_bitmap
                       else 2 * Z.max (bm_size sample_bitmap) 500) /\
         forall j, 0 <= j -> bit_at b' j = if j =? 500 then true else bit_at sample_bitmap j).
Proof.
  apply (at_put_grow_spec (fun _ => 7) sample_bitmap 500 true); [apply sample_wf | lia | simpl; lia | lia].
Defined.

(** The documentation of [resize] promises to zero any newly addressable bit; it
    zeroes whole new words only, so a bit left beyond the size reappears. *)
Lemma resize_keeps_stale_bits :
  let b := {| bm_map := [2 ^ 10]; bm_size := 5 |} in
  wf b /\ exists b', resize (fun _ => 0) b 20 = Some b' /\ at_ b' 10 = Some true.
Proof. split; [solve_wf|]. eexists. split; reflexivity. Qed.
