(* ===== verification/BitMapPar.v ===== *)
(** * BitMapPar: threads racing in [BitMap::par_set_bit]

    The marking race of the parallel collectors: any number of threads run
    [par_set_bit] on bits of one word, in every interleaving of their reads and
    exchanges.  The steps of a thread are those of the loop modelled by
    [BitMap.par_set_loop]; the word is the shared state. *)

From stdpp Require Import relations.
From S2P Require Import Prelude GlobalDefs BitMap.

(** Where a thread is: before the first read, before an exchange that expects
    [old_val], or returned. *)
Inductive pc :=
  | AtRead
  | AtTry (old_val : Z)
  | Returned (won : bool).

Record thread := { th_bit : Z; th_pc : pc }.
Record config := { c_word : Z; c_threads : list thread }.

Definition at_pc (t : thread) (p : pc) : thread := {| th_bit := th_bit t; th_pc := p |}.

(** One access of the shared word by a thread, with the local computation around it. *)
Definition par_set_step (word : Z) (t : thread) : option (Z * thread) :=
  let mask := bit_mask (th_bit t) in
  match th_pc t with
  | AtRead => Some (word, at_pc t (AtTry word))
  | AtTry old_val =>
      let new_val := Z.lor old_val mask in
      if new_val =? old_val then Some (word, at_pc t (Returned false))
      else
        let '(word', cur_val) := cmpxchg word new_val old_val in
        if cur_val =? old_val then Some (word', at_pc t (Returned true))
        else Some (word', at_pc t (AtTry cur_val))
  | Returned _ => None
  end.

(** Any thread may take the next step. *)
Inductive par_step : config -> config -> Prop :=
  | par_step_thread word ts i t word' t' :
      ts !! i = Some t -> par_set_step word t = Some (word', t') ->
      par_step {| c_word := word; c_threads := ts |}
               {| c_word := word'; c_threads := <[i := t']> ts |}.

Definition par_init (word : Z) (bits : list Z) : config :=
  {| c_word := word; c_threads := (fun k => {| th_bit := k; th_pc := AtRead |}) <$> bits |}.

Definition returned (t : thread) : bool := match th_pc t with Returned _ => true | _ => false end.
Definition won (t : thread) : bool := match th_pc t with Returned w => w | _ => false end.
Definition winners (k : Z) (ts : list thread) : list thread :=
  filter (fun t => th_bit t = k /\ won t = true) ts.

(* ------------------------------------------------------------------ *)
(** ** The invariant *)

Section Race.
Context (word0 : Z) (bits : list Z).
Context (Hbits : Forall (fun k => 0 <= k < 64) bits).

(** A thread's view of the word: what it has read is still set, and if it lost,
    its bit is set. *)
Definition thread_ok (word : Z) (t : thread) : Prop :=
  match th_pc t with
  | AtRead => True
  | AtTry old_val => forall k, 0 <= k -> Z.testbit old_val k = true -> Z.testbit word k = true
  | Returned w => w = false -> Z.testbit word (th_bit t) = true
  end.

Record race_inv (c : config) : Prop := {
  inv_bits : th_bit <$> c_threads c = bits;
  inv_threads : Forall (thread_ok (c_word c)) (c_threads c);
  inv_word : forall k, 0 <= k -> Z.testbit (c_word c) k =
               Z.testbit word0 k || bool_decide (winners k (c_threads c) <> []);
  inv_unique : forall k, 0 <= k -> (length (winners k (c_threads c)) <= 1)%nat;
  inv_fresh : forall k, 0 <= k -> Z.testbit word0 k = true -> winners k (c_threads c) = [] }.

Lemma winners_insert_lost k ts i t t' : ts !! i = Some t -> th_bit t' = th_bit t ->
  won t = false -> won t' = false -> winners k (<[i := t']> ts) = winners k ts.
Proof using Type.
  unfold winners. revert i. induction ts as [|u ts IH]; intros [|i] Hi Hb Hw Hw'; simpl in *; try done.
  - injection Hi as ->. by rewrite !filter_cons_False by (simpl; intros [_ E]; congruence).
  - rewrite !filter_cons. by rewrite (IH i).
Qed.

Lemma winners_insert_won k ts i t t' : ts !! i = Some t -> th_bit t' = th_bit t ->
  won t = false -> won t' = true ->
  length (winners k (<[i := t']> ts)) =
    (length (winners k ts) + if decide (th_bit t = k) then 1 else 0)%nat.
Proof using Type.
  unfold winners. revert i. induction ts as [|u ts IH]; intros [|i] Hi Hb Hw Hw'; simpl in *; try done.
  - injection Hi as ->. rewrite !filter_cons.
    destruct (decide (th_bit t = k /\ won t = true)) as [[_ E]|]; [congruence|].
    destruct (decide (th_bit t = k)), (decide (th_bit t' = k /\ won t' = true)) as [[? ?]|Hn];
      simpl; try lia; exfalso; first [congruence | apply Hn; split; congruence].
  - rewrite !filter_cons. specialize (IH i Hi Hb Hw Hw').
    destruct (decide (th_bit u = k /\ won u = true)); simpl; lia.
Qed.

Lemma thread_ok_mono word word' t :
  (forall k, 0 <= k -> Z.testbit word k = true -> Z.testbit word' k = true) ->
  0 <= th_bit t -> thread_ok word t -> thread_ok word' t.
Proof using Type. unfold thread_ok. destruct (th_pc t); auto. Qed.

Lemma inv_bit_range c i t : race_inv c -> c_threads c !! i = Some t -> 0 <= th_bit t < 64.
Proof using Hbits.
  intros Hinv Hi. rewrite <- (inv_bits c Hinv) in Hbits.
  eapply Forall_lookup_1 with (x := th_bit t) (i := i) in Hbits; [done|].
  by rewrite list_lookup_fmap, Hi.
Qed.

Lemma bits_insert (ts : list thread) i t t' : ts !! i = Some t -> th_bit t' = th_bit t ->
  th_bit <$> <[i := t']> ts = th_bit <$> ts.
Proof using Type.
  intros Hi Hb. rewrite list_fmap_insert, Hb. apply list_insert_id.
  by rewrite list_lookup_fmap, Hi.
Qed.

Lemma lor_mask_same old k : 0 <= k < 64 ->
  (Z.lor old (bit_mask k) =? old) = Z.testbit old k.
Proof using Type.
  intros Hk. apply eq_true_iff_eq. rewrite Z.eqb_eq. split; intros E.
  - rewrite <- E, Z.lor_spec, bit_mask_testbit, Z.mod_small, Z.eqb_refl by lia. apply orb_true_r.
  - apply Z.bits_inj'. intros j Hj. rewrite Z.lor_spec, bit_mask_testbit, Z.mod_small by lia.
    destruct (Z.eqb_spec j k) as [->|]; [by rewrite E | apply orb_false_r].
Qed.

(** A step that only moves a losing thread keeps the invariant. *)
Lemma inv_move word ts i t p : race_inv {| c_word := word; c_threads := ts |} ->
  ts !! i = Some t -> won t = false -> won (at_pc t p) = false ->
  thread_ok word (at_pc t p) ->
  race_inv {| c_word := word; c_threads := <[i := at_pc t p]> ts |}.
Proof using Type.
  intros Hinv Hi Hw Hw' Hok.
  assert (Hwin : forall k, winners k (<[i := at_pc t p]> ts) = winners k ts)
    by (intros k; by eapply winners_insert_lost).
  destruct Hinv as [Hb Ht Hword Hu Hf]. simpl in *. split; simpl.
  - by rewrite (bits_insert ts i t).
  - by apply Forall_insert.
  - intros k Hk. rewrite Hwin. by apply Hword.
  - intros k Hk. rewrite Hwin. by apply Hu.
  - intros k Hk. rewrite Hwin. by apply Hf.
Qed.

Lemma inv_step c c' : race_inv c -> par_step c c' -> race_inv c'.
Proof using Hbits.
  intros Hinv Hstep. destruct Hstep as [word ts i t word' t' Hi Hs].
  pose proof (inv_bit_range _ i t Hinv Hi) as Hk. unfold par_set_step in Hs.
  pose proof (inv_threads _ Hinv) as Hall. simpl in Hall.
  pose proof (Forall_lookup_1 _ _ _ _ Hall Hi) as Hok. unfold thread_ok in Hok.
  destruct (th_pc t) as [|old|] eqn:Hpc; [| |done].
  { injection Hs as <- <-. apply inv_move; try done; [unfold won; by rewrite Hpc|]. intros k Hk0. done. }
  rewrite lor_mask_same in Hs by done. destruct (Z.testbit old (th_bit t)) eqn:Hbit.
  { injection Hs as <- <-. apply inv_move; try done; [unfold won; by rewrite Hpc|].
    intros _. simpl. apply Hok; (done || lia). }
  unfold cmpxchg in Hs. destruct (Z.eqb_spec word old) as [->|Hne].
  2:{ injection Hs as <- <-. apply inv_move; try done; [unfold won; by rewrite Hpc|].
      intros k Hk0. done. }
  injection Hs as <- <-. clear Hok.
  assert (Hlen : forall k, length (winners k (<[i := at_pc t (Returned true)]> ts)) =
            (length (winners k ts) + if decide (th_bit t = k) then 1 else 0)%nat).
  { intros k. eapply winners_insert_won; try done. unfold won. by rewrite Hpc. }
  assert (Hnew : forall k, 0 <= k -> Z.testbit (Z.lor old (bit_mask (th_bit t))) k =
            Z.testbit old k || (k =? th_bit t)).
  { intros k Hk0. by rewrite Z.lor_spec, bit_mask_testbit, (Z.mod_small (th_bit t)) by lia. }
  assert (Hrange : forall j u, ts !! j = Some u -> 0 <= th_bit u)
    by (intros j u Hj; pose proof (inv_bit_range _ j u Hinv Hj); lia).
  destruct Hinv as [Hb Ht Hword Hu Hf]. simpl in *.
  assert (Hno : winners (th_bit t) ts = []).
  { specialize (Hword (th_bit t) ltac:(lia)). rewrite Hbit in Hword. symmetry in Hword.
    apply orb_false_elim in Hword as [_ Hd]. apply bool_decide_eq_false in Hd.
    destruct (winners (th_bit t) ts); [done|]. exfalso. by apply Hd. }
  split; simpl.
  - by rewrite (bits_insert ts i t).
  - apply Forall_insert; [|intros [=]]. apply Forall_lookup. intros j u Hj.
    apply (thread_ok_mono old); [|by eapply Hrange|by eapply Forall_lookup_1].
    intros k Hk0 E. rewrite Hnew by done. by rewrite E.
  - intros k Hk0. rewrite Hnew, Hword by done. specialize (Hlen k). destruct (Z.eqb_spec k (th_bit t)) as [->|].
    + rewrite orb_true_r. symmetry. apply orb_true_iff. right. apply bool_decide_eq_true.
      intros E. rewrite E in Hlen. destruct (decide (th_bit t = th_bit t)); simpl in Hlen; [lia|done].
    + rewrite orb_false_r. f_equal. apply bool_decide_ext.
      destruct (decide (th_bit t = k)); [congruence|]. rewrite Nat.add_0_r in Hlen.
      destruct (winners k (<[i:=_]> ts)), (winners k ts); simpl in Hlen; done.
  - intros k Hk0. rewrite Hlen. destruct (decide (th_bit t = k)) as [<-|];
      [rewrite Hno; simpl; lia | specialize (Hu k Hk0); lia].
  - intros k Hk0 E. specialize (Hf k Hk0 E). specialize (Hlen k). rewrite Hf in Hlen. simpl in Hlen.
    destruct (decide (th_bit t = k)) as [<-|]; [|by apply length_zero_iff_nil].
    exfalso. specialize (Hword (th_bit t) Hk0). rewrite Hbit, E in Hword. done.
Qed.

Lemma winners_init k : winners k (c_threads (par_init word0 bits)) = [].
Proof using Type.
  simpl. clear Hbits. induction bits as [|b bs IH]; [done|].
  simpl. unfold winners in *. rewrite filter_cons. destruct (decide _) as [[_ [=]]|]. done.
Qed.

Lemma inv_init : race_inv (par_init word0 bits).
Proof using Type.
  split; simpl.
  - rewrite <- list_fmap_compose. apply list_fmap_id.
  - apply Forall_fmap. apply Forall_true. intros k. exact I.
  - intros k Hk. pose proof (winners_init k) as E. simpl in E. rewrite E.
    rewrite bool_decide_eq_false_2 by auto. by rewrite orb_false_r.
  - intros k Hk. pose proof (winners_init k) as E. simpl in E. rewrite E. simpl. lia.
  - intros k Hk _. apply (winners_init k).
Qed.

Lemma inv_reachable c : rtc par_step (par_init word0 bits) c -> race_inv c.
Proof using Hbits.
  intros Hr. pose proof inv_init as H0. revert Hr H0. generalize (par_init word0 bits).
  intros c0 Hr. induction Hr; eauto using inv_step.
Qed.

Lemma winners_all_won k ts : (forall t, t ∈ ts -> th_bit t = k -> won t = true) ->
  k ∈ (th_bit <$> ts) -> winners k ts <> [].
Proof using Type.
  intros Hall (t & -> & Ht)%list_elem_of_fmap E.
  assert (Hin : t ∈ winners (th_bit t) ts).
  { unfold winners. apply list_elem_of_filter. split; [|done]. split; [done|]. by apply Hall. }
  rewrite E in Hin. by apply not_elem_of_nil in Hin.
Qed.

(** C29: When all the threads of a marking race have returned, in any interleaving,
    the word holds the initial bits and the targeted ones, and for each bit that was
    clear exactly one of the threads that targeted it was told it set the bit; for a
    bit already set nobody was. *)
Theorem par_set_bit_race (c : config) (k : Z) :
  rtc par_step (par_init word0 bits) c -> Forall (fun t => returned t = true) (c_threads c) ->
  0 <= k < 64 ->
  Z.testbit (c_word c) k = Z.testbit word0 k || bool_decide (k ∈ bits) /\
  length (winners k (c_threads c)) =
    (if Z.testbit word0 k then 0 else if decide (k ∈ bits) then 1 else 0)%nat.
Proof using Hbits.
  intros Hr Hdone Hk. pose proof (inv_reachable c Hr) as Hinv.
  assert (Hsome : winners k (c_threads c) <> [] -> k ∈ bits).
  { destruct (winners k (c_threads c)) as [|t l] eqn:E; [done|]. intros _.
    assert (Ht : t ∈ winners k (c_threads c)) by (rewrite E; left).
    unfold winners in Ht. apply list_elem_of_filter in Ht as [[<- _] Ht].
    rewrite <- (inv_bits c Hinv). by apply list_elem_of_fmap_2. }
  assert (Hlost : Z.testbit word0 k = false -> k ∈ bits -> winners k (c_threads c) <> []).
  { intros H0 Hin E. rewrite <- (inv_bits c Hinv) in Hin.
    apply (winners_all_won k (c_threads c)) in Hin; [by apply Hin|]. intros t Ht Hb.
    apply list_elem_of_lookup in Ht as [i Hi].
    pose proof (Forall_lookup_1 _ _ _ _ Hdone Hi) as Hret. simpl in Hret.
    pose proof (Forall_lookup_1 _ _ _ _ (inv_threads c Hinv) Hi) as Hok.
    unfold thread_ok, returned, won in *. destruct (th_pc t) as [| |[]]; try done.
    specialize (Hok eq_refl). rewrite Hb, (inv_word c Hinv), H0 in Hok by lia.
    simpl in Hok. apply bool_decide_eq_true in Hok. done. }
  rewrite (inv_word c Hinv) by lia. pose proof (inv_unique c Hinv k ltac:(lia)) as Hu.
  destruct (Z.testbit word0 k) eqn:H0; simpl.
  { split; [done|]. by rewrite (inv_fresh c Hinv) by (done || lia). }
  destruct (decide (k ∈ bits)) as [Hin|Hnin].
  - specialize (Hlost eq_refl Hin). rewrite !bool_decide_eq_true_2 by done.
    destruct (winners k (c_threads c)); [done|]. simpl in *. split; [done|lia].
  - destruct (winners k (c_threads c)); [|exfalso; auto]. rewrite !bool_decide_eq_false_2 by auto.
    done.
Qed.
End Race.

(* ------------------------------------------------------------------ *)
(** ** Progress and termination *)

(** How many exchanges a thread may still fail before the word changes again. *)
Definition weight (word : Z) (t : thread) : nat :=
  match th_pc t with
  | AtRead => 1
  | AtTry old_val => if old_val =? word then 0 else 1
  | Returned _ => 0
  end.

Definition running (ts : list thread) : nat :=
  length (filter (fun t => returned t = false) ts).

(** The measure of a configuration: each return pays for one retry of every thread. *)
Definition race_measure (c : config) : nat :=
  running (c_threads c) * S (length (c_threads c)) +
  sum_list (weight (c_word c) <$> c_threads c).

Lemma weight_le word t : (weight word t <= 1)%nat.
Proof. unfold weight. destruct (th_pc t); [|case_match|]; lia. Qed.

Lemma weights_le word ts : (sum_list (weight word <$> ts) <= length ts)%nat.
Proof.
  induction ts as [|t ts IH]; csimpl; [lia|]. pose proof (weight_le word t). lia.
Qed.

Lemma weights_insert word ts i t t' : ts !! i = Some t ->
  (sum_list (weight word <$> <[i := t']> ts) + weight word t =
   sum_list (weight word <$> ts) + weight word t')%nat.
Proof.
  revert i. induction ts as [|u ts IH]; intros [|i] Hi; csimpl in *; try done.
  - injection Hi as ->. lia.
  - specialize (IH i Hi). lia.
Qed.

Lemma running_insert ts i t t' : ts !! i = Some t -> returned t = false ->
  (running (<[i := t']> ts) + (if returned t' then 1 else 0) = running ts)%nat.
Proof.
  unfold running. revert i. induction ts as [|u ts IH]; intros [|i] Hi Hr; simpl in *; try done.
  - injection Hi as ->. rewrite !filter_cons.
    destruct (decide (returned t = false)); [|done].
    destruct (decide (returned t' = false)) as [E|E]; [rewrite E; simpl; lia|].
    apply not_false_is_true in E. rewrite E. simpl. lia.
  - rewrite !filter_cons. specialize (IH i Hi Hr).
    destruct (decide (returned u = false)); simpl; lia.
Qed.

Lemma race_step_decreases c c' : par_step c c' -> (race_measure c' < race_measure c)%nat.
Proof.
  intros Hstep. destruct Hstep as [word ts i t word' t' Hi Hs].
  unfold race_measure. simpl. rewrite length_insert.
  assert (Hr : returned t = false).
  { unfold par_set_step in Hs. unfold returned. by destruct (th_pc t). }
  pose proof (running_insert ts i t t' Hi Hr) as Hrun.
  pose proof (weights_insert word' ts i t t' Hi) as Hw.
  pose proof (weights_le word' (<[i := t']> ts)) as Hle. rewrite length_insert in Hle.
  destruct (returned t') eqn:Hr'; [nia|].
  assert (word' = word /\ weight word t = 1%nat /\ weight word' t' = 0%nat) as (-> & E1 & E2).
  { unfold par_set_step in Hs. unfold weight. destruct (th_pc t) as [|old|]; [| |done].
    - injection Hs as <- <-. simpl. by rewrite Z.eqb_refl.
    - destruct (_ =? old) eqn:?; [injection Hs as <- <-; done|]. unfold cmpxchg in Hs.
      destruct (Z.eqb_spec word old) as [->|Hne]; [injection Hs as <- <-; done|].
      injection Hs as <- <-. simpl. rewrite Z.eqb_refl.
      by destruct (Z.eqb_spec old word) as [->|]. }
  nia.
Qed.

Lemma running_le ts : (running ts <= length ts)%nat.
Proof. apply length_filter. Qed.

(** [par_set_bit] is lock-free and the race terminates: with [n] threads no
    execution takes more than [n * (n + 2)] steps, and as long as a thread has not
    returned it can take one. *)
Theorem par_set_bit_terminates (word0 : Z) (bits : list Z) (m : nat) (c : config) :
  nsteps par_step m (par_init word0 bits) c ->
  (m <= length bits * (length bits + 2))%nat /\
  (Exists (fun t => returned t = false) (c_threads c) -> exists c', par_step c c').
Proof.
  intros Hn. split.
  - assert (Hm : (m + race_measure c <= race_measure (par_init word0 bits))%nat).
    { induction Hn as [|m x y z Hxy _ IH]; [lia|]. apply race_step_decreases in Hxy. lia. }
    unfold race_measure in Hm. simpl in Hm. rewrite length_fmap in Hm.
    pose proof (running_le ((fun k => {| th_bit := k; th_pc := AtRead |}) <$> bits)) as H1.
    pose proof (weights_le word0 ((fun k => {| th_bit := k; th_pc := AtRead |}) <$> bits)) as H2.
    rewrite length_fmap in H1, H2. nia.
  - intros (t & Ht & Hr)%Exists_exists. apply list_elem_of_In, list_elem_of_lookup in Ht as [i Hi].
    assert (exists r, par_set_step (c_word c) t = Some r) as [[word' t'] Hs].
    { unfold par_set_step, returned in *. destruct (th_pc t); [| |done]; repeat case_match; eauto. }
    destruct c as [word ts]. eexists. by econstructor.
Qed.

(* ------------------------------------------------------------------ *)
(** ** Schedules *)

(** Run the threads in the order of a schedule. *)
Fixpoint run_schedule (sched : list nat) (c : config) : option config :=
  match sched with
  | [] => Some c
  | i :: sched =>
      t ← c_threads c !! i;
      r ← par_set_step (c_word c) t;
      run_schedule sched {| c_word := r.1; c_threads := <[i := r.2]> (c_threads c) |}
  end.

Lemma run_schedule_steps sched : forall c c',
  run_schedule sched c = Some c' -> nsteps par_step (length sched) c c'.
Proof.
  induction sched as [|i sched IH]; intros c c'; simpl.
  - intros [= <-]. constructor.
  - destruct (c_threads c !! i) as [t|] eqn:Hi; [|done]. simpl.
    destruct (par_set_step (c_word c) t) as [[w t']|] eqn:Hs; [|done]. simpl. intros Hr.
    destruct c as [word ts]. eapply nsteps_l; [by econstructor|]. by apply IH.
Qed.

(** Two threads race for bit 3 and a third sets bit 5; thread 1 loses after a retry. *)
Definition race_result : config :=
  {| c_word := 40;
     c_threads := [ {| th_bit := 3; th_pc := Returned true |};
                    {| th_bit := 3; th_pc := Returned false |};
                    {| th_bit := 5; th_pc := Returned true |} ] |}.

Lemma race_run : run_schedule [0; 1; 2; 0; 1; 2; 2; 1]%nat (par_init 0 [3; 3; 5]) = Some race_result.
Proof. reflexivity. Qed.

Lemma par_set_bit_race_witness :
  Z.testbit (c_word race_result) 3 = Z.testbit 0 3 || bool_decide (3 ∈ [3; 3; 5]) /\
  length (winners 3 (c_threads race_result)) =
    (if Z.testbit 0 3 then 0 else if decide (3 ∈ [3; 3; 5]) then 1 else 0)%nat.
Proof.
  apply (par_set_bit_race 0 [3; 3; 5]).
  - repeat constructor; lia.
  - eapply rtc_nsteps_2, run_schedule_steps, race_run.
  - repeat constructor.
  - lia.
Defined.

Lemma par_set_bit_terminates_witness :
  (8 <= length [3; 3; 5] * (length [3; 3; 5] + 2))%nat /\
  (Exists (fun t => returned t = false) (c_threads race_result) -> exists c', par_step race_result c').
Proof.
  apply (par_set_bit_terminates 0 [3; 3; 5] 8 race_result).
  apply (run_schedule_steps [0; 1; 2; 0; 1; 2; 2; 1]%nat), race_run.
Defined.
