(* ===== verification/CompressedStream.v ===== *)
(** * CompressedStream: code/compressedStream.hpp and .cpp

    The streams debugging information is filed in: the UNSIGNED5 and SIGNED5
    codings of 32-bit integers, the bit reversal that makes floats short, and the
    typed reads and writes over a buffer with a position.  A [jfloat] is its 32-bit
    pattern and a [jdouble] its 64-bit pattern, which is what [jfloat_cast] and
    [jdouble_cast] exchange them for.  A buffer is a list of bytes; an access
    outside of it fails. *)

From S2P Require Import Prelude GlobalDefs.

(* ------------------------------------------------------------------ *)
(** ** The codings *)

Definition lg_H : Z := 6.
Definition H : Z := Z.shiftl 1 lg_H.
Definition L : Z := Z.shiftl 1 BitsPerByte - H.
Definition MAX_i : Z := 4.

Definition encode_sign (value : Z) : Z :=
  u32 (Z.lxor (s32 (Z.shiftl value 1)) (Z.shiftr value 31)).

Definition decode_sign (value : Z) : Z :=
  s32 (Z.lxor (Z.shiftr value 1) (u32 (- Z.land value 1))).

Definition reverse_int (i : Z) : Z :=
  let i := Z.lor (u32 (Z.shiftl (Z.land i 0x55555555) 1)) (Z.land (Z.shiftr i 1) 0x55555555) in
  let i := Z.lor (u32 (Z.shiftl (Z.land i 0x33333333) 2)) (Z.land (Z.shiftr i 2) 0x33333333) in
  let i := Z.lor (u32 (Z.shiftl (Z.land i 0x0f0f0f0f) 4)) (Z.land (Z.shiftr i 4) 0x0f0f0f0f) in
  Z.lor (Z.lor (Z.lor (u32 (Z.shiftl i 24)) (u32 (Z.shiftl (Z.land i 0xff00) 8)))
               (Z.land (Z.shiftr i 8) 0xff00)) (Z.shiftr i 24).

(* ------------------------------------------------------------------ *)
(** ** Reading *)

Record ReadStream := { rs_buffer : list Z; rs_position : Z }.

Definition set_position (s : ReadStream) (position : Z) : ReadStream :=
  {| rs_buffer := rs_buffer s; rs_position := position |}.

Definition read : stm ReadStream Z := fun s =>
  b ← arr_get (rs_buffer s) (rs_position s); Some (b, set_position s (s32 (rs_position s + 1))).

(** The loop of [read_int_mb]; [i] is incremented before the access. *)
Fixpoint read_mb_loop (fuel : nat) (pos i lg_H_i sum : Z) : stm ReadStream Z := fun s =>
  match fuel with
  | O => None
  | S f =>
      let i := i + 1 in
      b_i ← arr_get (rs_buffer s) (pos + i);
      let sum := s32 (sum + s32 (Z.shiftl b_i lg_H_i)) in
      if (b_i <? L) || (i =? MAX_i) then Some (sum, set_position s (s32 (pos + i + 1)))
      else read_mb_loop f pos i (lg_H_i + lg_H) sum s
  end.

Definition read_int_mb (b0 : Z) : stm ReadStream Z := fun s =>
  let pos := rs_position s - 1 in
  read_mb_loop 5 pos 0 lg_H b0 s.

Definition read_int : stm ReadStream Z :=
  let* b0 := read in
  if b0 <? L then sret b0 else read_int_mb b0.

Definition read_signed_int : stm ReadStream Z :=
  let* v := read_int in sret (decode_sign (u32 v)).
Definition read_bool : stm ReadStream Z := let* v := read in sret (u8 v).
Definition read_byte : stm ReadStream Z := let* v := read in sret (swrap 8 v).
Definition read_char : stm ReadStream Z := let* v := read_int in sret (u16 v).
Definition read_short : stm ReadStream Z := let* v := read_signed_int in sret (swrap 16 v).

Definition read_float : stm ReadStream Z :=
  let* rf := read_int in
  sret (s32 (reverse_int (u32 rf))).

Definition read_double : stm ReadStream Z :=
  let* rh := read_int in
  let* rl := read_int in
  let h := s32 (reverse_int (u32 rh)) in
  let l := s32 (reverse_int (u32 rl)) in
  sret (jlong_from h l).

Definition read_long : stm ReadStream Z :=
  let* low := read_signed_int in
  let* high := read_signed_int in
  sret (jlong_from high low).

(* ------------------------------------------------------------------ *)
(** ** Writing *)

Record WriteStream := { ws_buffer : list Z; ws_position : Z; ws_size : Z }.

Definition full (s : WriteStream) : bool := ws_size s <=? ws_position s.

Definition store (b : Z) : stm WriteStream unit := fun s =>
  buf ← arr_set (ws_buffer s) (ws_position s) b;
  Some (tt, {| ws_buffer := buf; ws_position := s32 (ws_position s + 1); ws_size := ws_size s |}).

Section Write.
(** What a freshly allocated array happens to contain. *)
Context (junk : Z -> Z).

Definition new_stream (initial_size : Z) : WriteStream :=
  {| ws_buffer := junk <$> seqZ 0 initial_size; ws_position := 0; ws_size := initial_size |}.

Definition grow : stm WriteStream unit := fun s =>
  let new_size := s32 (ws_size s * 2) in
  (* memcpy of [position] bytes into the new array *)
  guard_b ((0 <=? new_size) && (ws_position s <=? new_size) &&
           (ws_position s <=? Z.of_nat (length (ws_buffer s))))
    (Some (tt, {| ws_buffer := take (Z.to_nat (ws_position s)) (ws_buffer s) ++
                               (junk <$> seqZ (ws_position s) (new_size - ws_position s));
                  ws_position := ws_position s; ws_size := new_size |})).

Definition write (b : Z) : stm WriteStream unit := fun s =>
  if full s then (grow ;;; store b) s else store b s.

Fixpoint write_mb_loop (fuel : nat) (i sum : Z) : stm WriteStream unit := fun s =>
  match fuel with
  | O => None
  | S f =>
      if (sum <? L) || (i =? MAX_i) then write (u8 sum) s
      else
        let sum := u32 (sum - L) in
        let b_i := L + sum mod H in
        let sum := Z.shiftr sum lg_H in
        (write (u8 b_i) ;;; write_mb_loop f (i + 1) sum) s
  end.

Definition write_int_mb (value : Z) : stm WriteStream unit := write_mb_loop 5 0 (u32 value).

Definition write_int (value : Z) : stm WriteStream unit := fun s =>
  if (u32 value <? L) && negb (full s) then store (u8 value) s else write_int_mb value s.

Definition write_signed_int (value : Z) : stm WriteStream unit :=
  write_int (s32 (encode_sign value)).
Definition write_bool (value : Z) : stm WriteStream unit := write (u8 value).
Definition write_byte (value : Z) : stm WriteStream unit := write (u8 value).
Definition write_char (value : Z) : stm WriteStream unit := write_int value.
Definition write_short (value : Z) : stm WriteStream unit := write_signed_int value.

Definition write_float (value : Z) : stm WriteStream unit :=
  let f := u32 value in
  let rf := reverse_int f in
  write_int (s32 rf).

Definition write_double (value : Z) : stm WriteStream unit :=
  let h := u32 (high value) in
  let l := u32 (low value) in
  let rh := reverse_int h in
  let rl := reverse_int l in
  write_int (s32 rh) ;;; write_int (s32 rl).

Definition write_long (value : Z) : stm WriteStream unit :=
  write_signed_int (low value) ;;; write_signed_int (high value).
End Write.

(* ------------------------------------------------------------------ *)
(** * The grammar of the UNSIGNED5 coding *)

(** [coding n l]: [l] is a coding whose first byte may be followed by [n] more. *)
Inductive coding : nat -> list Z -> Prop :=
  | coding_low n b : 0 <= b < L -> coding n [b]
  | coding_last b : 0 <= b < 256 -> coding 0 [b]
  | coding_high n b l : L <= b < 256 -> coding n l -> coding (S n) (b :: l).

(** The sum of the bytes, each weighted by a power of 64. *)
Fixpoint value5 (l : list Z) : Z :=
  match l with [] => 0 | b :: l => b + 64 * value5 l end.

(** The coding the writer chooses. *)
Fixpoint unsigned5 (n : nat) (v : Z) : list Z :=
  match n with
  | O => [v]
  | S n => if v <? L then [v] else (L + (v - L) mod H) :: unsigned5 n ((v - L) / H)
  end.

(** The values [n + 1] bytes can hold. *)
Fixpoint limit5 (n : nat) : Z := match n with O => 256 | S n => L + 64 * limit5 n end.

Lemma unsigned5_spec n v :
  0 <= v < limit5 n -> coding n (unsigned5 n v) /\ value5 (unsigned5 n v) = v.
Proof.
  revert v. induction n as [|n IH]; intros v Hv; cbn [unsigned5 limit5] in *.
  - split; [by constructor|cbn; lia].
  - change L with 192 in *. change H with 64. destruct (Z.ltb_spec v 192) as [Hlt|Hge].
    + split; [constructor; change L with 192; lia|cbn; lia].
    + destruct (IH ((v - 192) / 64)) as [Hc Hval].
      { split; [apply Z.div_pos; lia|apply Z.div_lt_upper_bound; lia]. }
      assert (0 <= (v - 192) mod 64 < 64) by (apply Z.mod_pos_bound; lia).
      split; [constructor; [change L with 192; lia|done]|].
      cbn [value5]. rewrite Hval. pose proof (Z.div_mod (v - 192) 64). lia.
Qed.

Lemma coding_length n l : coding n l -> (1 <= length l <= S n)%nat.
Proof. induction 1; cbn; lia. Qed.

Lemma coding_bytes n l : coding n l -> Forall (fun b => 0 <= b < 256) l.
Proof. induction 1; constructor; change L with 192 in *; try constructor; try done; lia. Qed.

(* ------------------------------------------------------------------ *)
(** * The codings of signs and of bit orders *)

Lemma encode_sign_eq v :
  in_s 32 v -> encode_sign v = if 0 <=? v then 2 * v else - 2 * v - 1.
Proof.
  intros Hv. unfold in_s in Hv. unfold encode_sign.
  rewrite Z.shiftl_mul_pow2, Z.shiftr_div_pow2 by lia. change (2 ^ 1) with 2.
  destruct (Z.leb_spec 0 v).
  - rewrite (Z.div_small v) by lia. rewrite Z.lxor_0_r, uwrap_swrap by lia.
    rewrite uwrap_small; unfold in_u; lia.
  - assert (v / 2 ^ 31 = -1) as -> by (symmetry; apply (Z.div_unique _ _ _ (v + 2 ^ 31)); lia).
    rewrite Z.lxor_m1_r. destruct (swrap_cong 32 ltac:(lia) (v * 2)) as [k ->].
    rewrite <- (uwrap_small 32 ltac:(lia) (-2 * v - 1)) by (unfold in_u; lia).
    apply (uwrap_eq 32 ltac:(lia) _ _ (-k)). unfold Z.lnot. lia.
Qed.

Lemma decode_sign_eq u :
  in_u 32 u -> decode_sign u = if Z.even u then u / 2 else - (u / 2) - 1.
Proof.
  intros Hu. unfold in_u in Hu. unfold decode_sign.
  rewrite Z.shiftr_div_pow2 by lia. change (2 ^ 1) with 2.
  replace (Z.land u 1) with (u mod 2) by (symmetry; apply (Z.land_ones u 1); lia).
  rewrite Zmod_even. pose proof (Z.div_mod u 2). pose proof (Z.mod_pos_bound u 2).
  destruct (Z.even u).
  - change (u32 (- 0)) with 0. rewrite Z.lxor_0_r. apply swrap_small; [lia|unfold in_s; lia].
  - change (u32 (Z.opp 1)) with (Z.ones 32).
    rewrite <- (swrap_small 32 ltac:(lia) (- (u / 2) - 1)) by (unfold in_s; lia).
    rewrite <- (swrap_uwrap 32 ltac:(lia) (Z.lxor _ _)), <- (swrap_uwrap 32 ltac:(lia) (- (u / 2) - 1)).
    f_equal. replace (- (u / 2) - 1) with (Z.lnot (u / 2)) by (unfold Z.lnot; lia).
    apply Z.bits_inj'. intros k Hk.
    rewrite !uwrap_testbit, Z.lxor_spec, Z.lnot_spec by lia.
    destruct (Z.ltb_spec k 32); [|done]. rewrite Z.ones_spec_low by lia. btauto.
Qed.

(** One stage of the reversal exchanges the bits under the mask [m] with those [sh]
    above them; [stage_source] is where bit [k] of the result comes from. *)
Definition stage (m sh i : Z) : Z :=
  Z.lor (u32 (Z.shiftl (Z.land i m) sh)) (Z.land (Z.shiftr i sh) m).
Definition stage_source (m sh k : Z) : Z := if Z.testbit m k then k + sh else k - sh.
Definition stage_valid (m sh : Z) : bool :=
  (0 <=? m) && (0 <=? sh) &&
  forallb (fun k => eqb (Z.testbit m (k - sh)) (negb (Z.testbit m k)) &&
                    ((0 <=? stage_source m sh k) && (stage_source m sh k <? 32))) (seqZ 0 32).

Lemma forallb_word (f : Z -> bool) k :
  forallb f (seqZ 0 32) = true -> 0 <= k < 32 -> f k = true.
Proof.
  rewrite forallb_forall. intros Hf Hk. apply Hf, list_elem_of_In, elem_of_seqZ. lia.
Qed.

Lemma stage_testbit m sh i k :
  stage_valid m sh = true -> in_u 32 i -> 0 <= k < 32 ->
  0 <= stage_source m sh k < 32 /\
  Z.testbit (stage m sh i) k = Z.testbit i (stage_source m sh k).
Proof.
  unfold stage_valid. intros Hv Hi Hk. zreflect. apply (forallb_word _ k) in H1; [|done]. cbn beta in H1.
  zreflect. apply eqb_prop in H1. split; [lia|].
  unfold stage, stage_source in *.
  rewrite Z.lor_spec, uwrap_testbit, Z.shiftl_spec, !Z.land_spec, Z.shiftr_spec, H1 by lia.
  destruct (Z.ltb_spec k 32), (Z.testbit m k); lia || btauto.
Qed.

Lemma stage_range m sh i :
  stage_valid m sh = true -> in_u 32 i -> in_u 32 (stage m sh i).
Proof.
  unfold stage_valid. intros Hv Hi. zreflect. unfold stage. auto with machine.
Qed.

Definition byte_swap (i : Z) : Z :=
  Z.lor (Z.lor (Z.lor (u32 (Z.shiftl i 24)) (u32 (Z.shiftl (Z.land i 0xff00) 8)))
               (Z.land (Z.shiftr i 8) 0xff00)) (Z.shiftr i 24).

Lemma byte_swap_testbit i k :
  in_u 32 i -> 0 <= k < 32 ->
  Z.testbit (byte_swap i) k = Z.testbit i (8 * (3 - k / 8) + k mod 8).
Proof.
  intros Hi Hk. unfold byte_swap.
  rewrite !Z.lor_spec, !uwrap_testbit, !Z.shiftl_spec, !Z.land_spec, !Z.shiftr_spec by lia.
  assert (In k (seqZ 0 32)) as Hin by (apply list_elem_of_In, elem_of_seqZ; lia).
  let l := eval vm_compute in (seqZ 0 32) in change (seqZ 0 32) with l in Hin. cbn [In] in Hin.
  assert (forall j, 32 <= j -> Z.testbit i j = false) as Hout
    by (intros; apply (in_u_testbit 32); done || lia).
  assert (forall j, j < 0 -> Z.testbit i j = false) as Hneg by (by intros; apply Z.testbit_neg_r).
  clear Hi. revert Hout Hneg. generalize (Z.testbit i) as f. intros f Hout Hneg.
  repeat (destruct Hin as [<-|Hin]); [..|done]; vm_compute;
    repeat match goal with
           | |- context [f ?n] => first [rewrite (Hout n) by done | rewrite (Hneg n) by done]
           end; by repeat case_match.
Qed.

Lemma byte_swap_range i : in_u 32 i -> in_u 32 (byte_swap i).
Proof. intros Hi. unfold byte_swap. auto 10 with machine. Qed.

Definition reversal (k : Z) : Z :=
  stage_source 0x55555555 1 (stage_source 0x33333333 2 (stage_source 0x0f0f0f0f 4
    (8 * (3 - k / 8) + k mod 8))).

Lemma reverse_int_stages i :
  reverse_int i =
  byte_swap (stage 0x0f0f0f0f 4 (stage 0x33333333 2 (stage 0x55555555 1 i))).
Proof. cbv beta zeta delta [reverse_int byte_swap stage]. reflexivity. Qed.

(** [reverse_int] exchanges bit [k] and bit [31 - k]. *)
Lemma reverse_int_testbit i k :
  in_u 32 i -> 0 <= k < 32 -> Z.testbit (reverse_int i) k = Z.testbit i (31 - k).
Proof.
  intros Hi Hk.
  assert (reversal k = 31 - k) as <-.
  { apply Z.eqb_eq, (forallb_word (fun k => reversal k =? 31 - k)); [reflexivity|done]. }
  rewrite reverse_int_stages. unfold reversal. set (k' := 8 * _ + _).
  assert (0 <= k' < 32) as Hk'.
  { pose proof (Z.mod_pos_bound k 8). pose proof (Z.div_mod k 8). lia. }
  rewrite byte_swap_testbit by auto using stage_range. fold k'.
  destruct (stage_testbit 0x0f0f0f0f 4 (stage 0x33333333 2 (stage 0x55555555 1 i)) k')
    as [H1 ->]; auto using stage_range.
  destruct (stage_testbit 0x33333333 2 (stage 0x55555555 1 i) (stage_source 0x0f0f0f0f 4 k'))
    as [H2 ->]; auto using stage_range.
  by apply stage_testbit.
Qed.

Lemma reverse_int_range i : in_u 32 i -> in_u 32 (reverse_int i).
Proof. intros Hi. rewrite reverse_int_stages. auto 10 using byte_swap_range, stage_range. Qed.

Lemma reverse_int_involutive i : in_u 32 i -> reverse_int (reverse_int i) = i.
Proof.
  intros Hi. apply (in_u_eq 32); [lia|auto using reverse_int_range..|].
  intros k Hk. rewrite !reverse_int_testbit by (auto using reverse_int_range || lia).
  f_equal. lia.
Qed.

(* ------------------------------------------------------------------ *)
(** * What a read consumes and a write appends *)

Definition next_bytes (s : ReadStream) (l : list Z) : Prop :=
  0 <= rs_position s /\ rs_position s + Z.of_nat (length l) < 2 ^ 31 /\
  forall i b, l !! i = Some b -> arr_get (rs_buffer s) (rs_position s + Z.of_nat i) = Some b.

Definition advance (s : ReadStream) (n : nat) : ReadStream :=
  set_position s (rs_position s + Z.of_nat n).

Definition reads {A} (m : stm ReadStream A) (l : list Z) (v : A) : Prop :=
  forall s, next_bytes s l -> m s = Some (v, advance s (length l)).

Lemma next_bytes_app s l l' :
  next_bytes s (l ++ l') -> next_bytes s l /\ next_bytes (advance s (length l)) l'.
Proof.
  intros (Hp & Hlen & Hget). rewrite length_app in Hlen. split; split_and!; cbn; try lia.
  - intros i b Hi. apply Hget. by apply lookup_app_l_Some.
  - intros i b Hi. rewrite <- Z.add_assoc, <- Nat2Z.inj_add. apply Hget.
    rewrite lookup_app_r by lia. by rewrite Nat.add_sub_swap, Nat.sub_diag by lia.
Qed.

Lemma reads_bind {A B} (m : stm ReadStream A) (k : A -> stm ReadStream B) l l' v w :
  reads m l v -> reads (k v) l' w -> reads (sbind m k) (l ++ l') w.
Proof.
  intros Hm Hk s Hs. apply next_bytes_app in Hs as [Hl Hl'].
  rewrite (sbind_Some _ _ _ _ _ (Hm _ Hl)), (Hk _ Hl'), length_app. unfold advance, set_position.
  cbn. do 3 f_equal. lia.
Qed.

Lemma reads_map {A B} (m : stm ReadStream A) (f : A -> B) l v :
  reads m l v -> reads (sbind m (fun x => sret (f x))) l (f v).
Proof.
  intros Hm s Hs. by rewrite (sbind_Some _ _ _ _ _ (Hm _ Hs)).
Qed.

Lemma reads_read b : reads read [b] b.
Proof.
  intros s (Hp & Hlen & Hget). specialize (Hget 0%nat b eq_refl). cbn in Hlen, Hget.
  rewrite Z.add_0_r in Hget. unfold read. rewrite Hget. cbn.
  by rewrite swrap_small by (unfold in_s; lia).
Qed.

Lemma lg_H_pow i : 0 <= i -> 2 ^ (lg_H * i) = 64 ^ i.
Proof. intros. unfold lg_H. by rewrite Z.pow_mul_r by lia. Qed.

(** The loop after the bytes [0 .. i] of a coding that starts at [pos]. *)
Lemma read_mb_loop_spec n l s pos i sum fuel :
  coding n l -> (n < fuel)%nat -> 0 <= i -> i + Z.of_nat n = 3 ->
  0 <= pos -> pos + i + 1 + Z.of_nat (length l) < 2 ^ 31 ->
  (forall j b, l !! j = Some b -> arr_get (rs_buffer s) (pos + (i + 1 + Z.of_nat j)) = Some b) ->
  read_mb_loop fuel pos i (lg_H * (i + 1)) sum s =
  Some (s32 (sum + 64 ^ (i + 1) * value5 l),
        set_position s (pos + i + 1 + Z.of_nat (length l))).
Proof.
  intros Hc. revert i sum fuel. induction Hc as [n b Hb|b Hb|n b l Hb Hc IH];
    intros i sum [|fuel] Hf Hi Hn Hp Hlen Hget; try lia; cbn [read_mb_loop].
  all: pose proof (Hget 0%nat b eq_refl) as Hb0; rewrite Z.add_0_r in Hb0; rewrite Hb0.
  all: cbn [mbind option_bind]; rewrite swrap_add_r, Z.shiftl_mul_pow2, lg_H_pow by (unfold lg_H; lia).
  all: change MAX_i with 4; change L with 192 in *.
  - cbn [length value5] in *. destruct (Z.ltb_spec b 192); [|lia]. cbn [orb].
    rewrite (swrap_small 32 ltac:(lia) (_ + 1)) by (unfold in_s; lia). f_equal; f_equal; [f_equal|f_equal]; lia.
  - cbn [length value5] in *. replace (i + 1) with 4 by lia. rewrite orb_true_r.
    rewrite (swrap_small 32 ltac:(lia) (_ + 1)) by (unfold in_s; lia). f_equal; f_equal; [f_equal|f_equal]; lia.
  - destruct (Z.ltb_spec b 192); [lia|]. destruct (Z.eqb_spec (i + 1) 4); [lia|]. cbn [orb].
    replace (lg_H * (i + 1) + lg_H) with (lg_H * (i + 1 + 1)) by lia.
    cbn [length value5] in *. rewrite IH; try lia.
    2: { intros j c Hj. rewrite <- (Hget (S j) c Hj). f_equal. lia. }
    rewrite swrap_add_l, (Z.pow_add_r 64 (i + 1) 1) by lia. f_equal; f_equal; [f_equal|f_equal]; lia.
Qed.

Lemma reads_coding l : coding 4 l -> reads read_int l (s32 (value5 l)).
Proof.
  intros Hc s Hs. inversion Hc as [n b Hb|b Hb|n b l' Hb Hc']; subst.
  - unfold read_int. rewrite (sbind_Some _ _ _ _ _ (reads_read b _ Hs)).
    destruct (Z.ltb_spec b L); [|lia]. change L with 192 in *.
    cbn [value5]. rewrite swrap_small by (unfold in_s; lia). unfold sret. do 3 f_equal. lia.
  - unfold read_int. destruct (next_bytes_app s [b] l' Hs) as [Hb0 _].
    rewrite (sbind_Some _ _ _ _ _ (reads_read b _ Hb0)).
    destruct (Z.ltb_spec b L); [lia|]. unfold read_int_mb. destruct Hs as (Hp & Hlen & Hget).
    cbn [length advance set_position rs_position rs_buffer] in *.
    replace (rs_position s + Z.of_nat 1 - 1) with (rs_position s) by lia.
    change lg_H with (lg_H * (0 + 1)) at 1.
    rewrite (read_mb_loop_spec 3 l'); try lia; [|done|].
    + cbn [value5]. unfold advance, set_position. cbn. do 3 f_equal. lia.
    + cbn. intros j c Hj. rewrite <- (Hget (S j) c) by done. f_equal. lia.
Qed.

Definition contents (s : WriteStream) : list Z := take (Z.to_nat (ws_position s)) (ws_buffer s).

Record ws_wf (s : WriteStream) : Prop := {
  ws_wf_size : Z.of_nat (length (ws_buffer s)) = ws_size s;
  ws_wf_position : 0 <= ws_position s <= ws_size s;
  ws_wf_nonempty : 0 < ws_size s
}.

(** A write appends [l], as long as the stream stays below a gigabyte. *)
Definition writes (m : stm WriteStream unit) (l : list Z) : Prop :=
  forall s, ws_wf s -> ws_position s + Z.of_nat (length l) <= 2 ^ 30 ->
  exists s', m s = Some (tt, s') /\ ws_wf s' /\ contents s' = contents s ++ l /\
    ws_position s' = ws_position s + Z.of_nat (length l).

Lemma writes_bind m m' l l' :
  writes m l -> writes m' l' -> writes (m ;;; m') (l ++ l').
Proof.
  intros Hm Hm' s Hs Hlen. rewrite length_app in *.
  destruct (Hm s) as (s1 & E1 & Hs1 & Hc1 & Hp1); [done|lia|].
  destruct (Hm' s1) as (s2 & E2 & Hs2 & Hc2 & Hp2); [done|lia|].
  exists s2. rewrite (sbind_Some _ _ _ _ _ E1), Hc2, Hc1, <- app_assoc. split_and!; done || lia.
Qed.

Lemma store_spec b s :
  ws_wf s -> ws_position s < ws_size s -> ws_position s < 2 ^ 30 ->
  exists s', store b s = Some (tt, s') /\ ws_wf s' /\ contents s' = contents s ++ [b] /\
    ws_position s' = ws_position s + 1.
Proof.
  intros [Hsz Hp Hne] Hroom Hsmall. unfold store, contents.
  rewrite arr_set_Some by lia. cbn [mbind option_bind].
  eexists. split; [done|]. cbn. rewrite swrap_small by (unfold in_s; lia). split_and!.
  - constructor; cbn; rewrite ?length_insert; lia.
  - rewrite Z2Nat.inj_add, Nat.add_1_r by lia.
    rewrite (take_S_r _ _ b), take_insert_ge by (lia || (apply list_lookup_insert_eq; lia)). done.
  - done.
Qed.

Lemma take_app_exact {A} (l l' : list A) n : (n <= length l)%nat -> take n (take n l ++ l') = take n l.
Proof. intros Hn. rewrite take_app_le by (rewrite length_take; lia). rewrite take_take. f_equal. lia. Qed.

Section Appending.
Context (junk : Z -> Z).

Lemma grow_spec s :
  ws_wf s -> ws_size s < 2 ^ 30 ->
  exists s', grow junk s = Some (tt, s') /\ ws_wf s' /\ contents s' = contents s /\
    ws_position s' = ws_position s /\ ws_size s' = 2 * ws_size s.
Proof.
  intros [Hsz Hp Hne] Hsmall. unfold grow, contents.
  rewrite swrap_small by (unfold in_s; lia). eexists. split.
  - rewrite (proj2 (andb_true_iff _ _)) by lia. done.
  - cbn. split_and!; [|apply take_app_exact; lia|done|lia].
    constructor; cbn; [|lia..].
    rewrite length_app, length_take, length_fmap, length_seqZ. lia.
Qed.

Lemma writes_write b : writes (write junk b) [b].
Proof.
  intros s Hs Hlen. cbn [length] in Hlen. unfold write, full.
  destruct (Z.leb_spec (ws_size s) (ws_position s)).
  - destruct (grow_spec s) as (s1 & E1 & Hs1 & Hc1 & Hp1 & Hz1); [done|destruct Hs; lia|].
    rewrite (sbind_Some _ _ _ _ _ E1).
    destruct (store_spec b s1) as (s2 & E2 & Hs2 & Hc2 & Hp2); [done|destruct Hs; lia..|].
    exists s2. rewrite Hc2, Hc1. cbn [length]. split_and!; done || lia.
  - destruct (store_spec b s) as (s2 & E2 & Hs2 & Hc2 & Hp2); [done|lia..|].
    exists s2. cbn [length]. split_and!; done || lia.
Qed.

Lemma write_mb_loop_spec n i v fuel :
  i + Z.of_nat n = 4 -> (n < fuel)%nat -> 0 <= v < limit5 n -> v < 2 ^ 32 ->
  writes (write_mb_loop junk fuel i v) (unsigned5 n v).
Proof.
  revert i v fuel. induction n as [|n IH]; intros i v [|fuel] Hi Hf Hv H32; try lia;
    cbn [write_mb_loop unsigned5 limit5] in *; change MAX_i with 4; intros s Hs Hlen.
  - replace (i =? 4) with true by lia. rewrite orb_true_r.
    rewrite uwrap_small by (unfold in_u; lia). by apply writes_write.
  - replace (i =? 4) with false by lia. rewrite orb_false_r.
    change L with 192 in *. change H with 64 in *. destruct (Z.ltb_spec v 192).
    + rewrite uwrap_small by (unfold in_u; lia). by apply writes_write.
    + pose proof (Z.mod_pos_bound (v - 192) 64).
      rewrite (uwrap_small 32), uwrap_small, Z.shiftr_div_pow2 by (unfold in_u, lg_H; lia).
      change (2 ^ lg_H) with 64. revert s Hs Hlen. apply (writes_bind _ _ [_] (unsigned5 _ _)).
      * apply writes_write.
      * apply IH; [lia..| |]; [split; [apply Z.div_pos; lia|]|]; apply Z.div_lt_upper_bound; lia.
Qed.

Lemma writes_int v : writes (write_int junk v) (unsigned5 4 (u32 v)).
Proof.
  pose proof (uwrap_range 32 ltac:(lia) v) as Hv. unfold in_u in Hv.
  assert (writes (write_int_mb junk v) (unsigned5 4 (u32 v))) as Hmb.
  { apply write_mb_loop_spec; cbn; change L with 192; lia. }
  intros s Hs Hlen. unfold write_int, full.
  destruct ((u32 v <? L) && negb (ws_size s <=? ws_position s)) eqn:E; [|by apply Hmb].
  zreflect. cbn [unsigned5] in *. destruct (Z.ltb_spec (u32 v) L); [|lia]. cbn [length] in *.
  replace (u8 v) with (u32 v).
  - destruct (store_spec (u32 v) s) as (s' & ? & ? & ? & ?); [done|lia..|].
    exists s'. split_and!; done || lia.
  - change L with 192 in *. destruct (uwrap_cong 32 ltac:(lia) v) as [k E].
    rewrite <- (uwrap_small 8 ltac:(lia) (u32 v)) by (unfold in_u; lia).
    apply (uwrap_eq 8 ltac:(lia) _ _ (k * 2 ^ 24)). lia.
Qed.
End Appending.

Lemma u32_coding v : coding 4 (unsigned5 4 (u32 v)) /\ value5 (unsigned5 4 (u32 v)) = u32 v.
Proof.
  apply unsigned5_spec. pose proof (uwrap_range 32 ltac:(lia) v) as Hv. unfold in_u in Hv.
  cbn. change L with 192. lia.
Qed.

Lemma reads_int v : in_s 32 v -> reads read_int (unsigned5 4 (u32 v)) v.
Proof.
  intros Hv. destruct (u32_coding v) as [Hc E]. apply reads_coding in Hc.
  by rewrite E, swrap_uwrap, swrap_small in Hc by (done || lia).
Qed.

(* ------------------------------------------------------------------ *)
(** * The typed layer *)

(** Every [jint] is written as a coding of the documented grammar, of at most
    five bytes and of one byte exactly when it lies in [0..191], and reading that
    coding, whatever surrounds it in the buffer, gives the value back and leaves the
    position behind it. *)
Theorem unsigned5_roundtrip (junk : Z -> Z) (v : Z) :
  in_s 32 v ->
  exists l, writes (write_int junk v) l /\ coding 4 l /\ reads read_int l v /\
    (1 <= length l <= 5)%nat /\ (length l = 1%nat <-> 0 <= v < 192).
Proof.
  intros Hv. exists (unsigned5 4 (u32 v)). destruct (u32_coding v) as [Hc E].
  split_and!; auto using writes_int, reads_int.
  1, 2: apply coding_length in Hc; lia.
  destruct (uwrap_cong 32 ltac:(lia) v) as [k Hk].
  pose proof (uwrap_range 32 ltac:(lia) v) as Hr. unfold in_u, in_s in *.
  cbn [unsigned5]. change L with 192. destruct (Z.ltb_spec (u32 v) 192).
  - split; [cbn; lia|done].
  - split; [|lia]. by destruct (_ <? 192).
Qed.

Lemma unsigned5_roundtrip_witness :
  exists l, writes (write_int (fun _ => 0) (-5)) l /\ coding 4 l /\ reads read_int l (-5) /\
    (1 <= length l <= 5)%nat /\ (length l = 1%nat <-> 0 <= -5 < 192).
Proof. apply (unsigned5_roundtrip (fun _ => 0) (-5)). unfold in_s. lia. Defined.

Lemma encode_sign_range v : in_s 32 v -> in_u 32 (encode_sign v).
Proof. intros. apply uwrap_range. lia. Qed.

Lemma decode_encode_sign v : in_s 32 v -> decode_sign (encode_sign v) = v.
Proof.
  intros Hv. rewrite decode_sign_eq by by apply encode_sign_range. rewrite encode_sign_eq by done.
  unfold in_s in *. destruct (Z.leb_spec 0 v).
  - rewrite Z.even_mul. cbn [Z.even orb]. rewrite Z.mul_comm, Z.div_mul by lia. done.
  - replace (-2 * v - 1) with (1 + 2 * (- v - 1)) by lia.
    rewrite Z.even_add, Z.even_mul. cbn [Z.even orb eqb].
    rewrite (Z.mul_comm 2), Z.div_add by lia. change (1 / 2) with 0. lia.
Qed.

(** The two recodings are one-to-one: the sign coding maps the values of small
    magnitude to the small numbers and is inverted by [decode_sign], and the bit
    reversal is its own inverse and moves bit [k] to bit [31 - k]. *)
Theorem recodings_invertible (v u : Z) :
  in_s 32 v -> in_u 32 u ->
  encode_sign v = (if 0 <=? v then 2 * v else - 2 * v - 1) /\
  decode_sign (encode_sign v) = v /\ encode_sign (decode_sign u) = u /\
  reverse_int (reverse_int u) = u /\
  (forall k, 0 <= k < 32 -> Z.testbit (reverse_int u) k = Z.testbit u (31 - k)).
Proof.
  intros Hv Hu.
  assert (in_s 32 (decode_sign u)) as Hd by (apply swrap_range; lia).
  split_and!; auto using encode_sign_eq, decode_encode_sign, reverse_int_involutive,
    reverse_int_testbit.
  rewrite encode_sign_eq, decode_sign_eq by done. unfold in_u in Hu.
  pose proof (Z.div_mod u 2). pose proof (Zmod_even u).
  destruct (Z.even u); destruct (Z.leb_spec 0 (u / 2)); destruct (Z.leb_spec 0 (- (u / 2) - 1)); lia.
Qed.

Lemma recodings_invertible_witness :
  encode_sign (-3) = 5 /\ decode_sign (encode_sign (-3)) = -3 /\
  encode_sign (decode_sign 7) = 7 /\ reverse_int (reverse_int 7) = 7.
Proof.
  destruct (recodings_invertible (-3) 7) as (H1 & H2 & H3 & H4 & _); [unfold in_s; lia|unfold in_u; lia|].
  split_and!; assumption.
Defined.

(** The typed values a stream holds. *)
Inductive kind := KBool | KByte | KChar | KShort | KInt | KSigned | KFloat | KDouble | KLong.

(** The values of each kind; floats are their bit patterns. *)
Definition has_kind (k : kind) (v : Z) : Prop :=
  match k with
  | KBool => in_u 8 v | KByte => in_s 8 v | KChar => in_u 16 v | KShort => in_s 16 v
  | KInt | KSigned | KFloat => in_s 32 v | KDouble | KLong => in_s 64 v
  end.

Definition write_kind (junk : Z -> Z) (k : kind) (v : Z) : stm WriteStream unit :=
  match k with
  | KBool => write_bool junk v | KByte => write_byte junk v | KChar => write_char junk v
  | KShort => write_short junk v | KInt => write_int junk v | KSigned => write_signed_int junk v
  | KFloat => write_float junk v | KDouble => write_double junk v | KLong => write_long junk v
  end.

Definition read_kind (k : kind) : stm ReadStream Z :=
  match k with
  | KBool => read_bool | KByte => read_byte | KChar => read_char | KShort => read_short
  | KInt => read_int | KSigned => read_signed_int | KFloat => read_float
  | KDouble => read_double | KLong => read_long
  end.

Fixpoint write_all (junk : Z -> Z) (items : list (kind * Z)) : stm WriteStream unit :=
  match items with
  | [] => sret tt
  | (k, v) :: items => write_kind junk k v ;;; write_all junk items
  end.

Fixpoint read_all (kinds : list kind) : stm ReadStream (list Z) :=
  match kinds with
  | [] => sret []
  | k :: kinds => let* v := read_kind k in let* vs := read_all kinds in sret (v :: vs)
  end.

Lemma reads_signed v : in_s 32 v -> reads read_signed_int (unsigned5 4 (u32 (s32 (encode_sign v)))) v.
Proof.
  intros Hv. assert (E : decode_sign (u32 (s32 (encode_sign v))) = v).
  { rewrite uwrap_swrap, uwrap_small by (lia || by apply encode_sign_range).
    by apply decode_encode_sign. }
  rewrite <- E at 2.
  apply (reads_map _ (fun x => decode_sign (u32 x)) _ (s32 (encode_sign v))), reads_int, swrap_range.
  lia.
Qed.

Lemma reverse_twice v : s32 (reverse_int (u32 (s32 (reverse_int (u32 v))))) = s32 v.
Proof.
  assert (in_u 32 (u32 v)) as Hu by (apply uwrap_range; lia).
  rewrite uwrap_swrap, (uwrap_small 32 ltac:(lia) (reverse_int _)), reverse_int_involutive, swrap_uwrap
    by (lia || auto using reverse_int_range). done.
Qed.

Lemma reads_reversed {B} (f : Z -> B) v :
  reads (let* rf := read_int in sret (f (s32 (reverse_int (u32 rf)))))
    (unsigned5 4 (u32 (s32 (reverse_int (u32 v))))) (f (s32 v)).
Proof.
  rewrite <- (reverse_twice v).
  apply (reads_map _ (fun x => f (s32 (reverse_int (u32 x)))) _ (s32 (reverse_int (u32 v)))),
    reads_int, swrap_range. lia.
Qed.

Lemma reads_byte_cast (f : Z -> Z) b : reads (let* v := read in sret (f v)) [b] (f b).
Proof. apply (reads_map read f), reads_read. Qed.

(** The bytes of a typed value. *)
Definition kind_code (k : kind) (v : Z) : list Z :=
  let int v := unsigned5 4 (u32 v) in
  let signed v := int (s32 (encode_sign v)) in
  let reversed v := int (s32 (reverse_int (u32 v))) in
  match k with
  | KBool | KByte => [u8 v] | KChar | KInt => int v | KShort | KSigned => signed v
  | KFloat => reversed v | KDouble => reversed (high v) ++ reversed (low v)
  | KLong => signed (low v) ++ signed (high v)
  end.

Lemma writes_kind junk k v : writes (write_kind junk k v) (kind_code k v).
Proof. destruct k; repeat apply writes_bind; first [apply writes_write | apply writes_int]. Qed.

Lemma swrap_wider w v : 0 < w <= 32 -> in_s w v -> in_s 32 v.
Proof.
  unfold in_s. intros Hw Hv. pose proof (Z.pow_le_mono_r 2 (w - 1) (32 - 1)). lia.
Qed.

Lemma reads_kind k v : has_kind k v -> reads (read_kind k) (kind_code k v) v.
Proof.
  destruct k; cbn [has_kind read_kind kind_code]; intros Hv.
  - rewrite <- (uwrap_small 8 ltac:(lia) v) at 2 by done. rewrite <- uwrap_idem at 2 by lia.
    apply reads_byte_cast.
  - rewrite <- (swrap_small 8 ltac:(lia) v) at 2 by done. rewrite <- swrap_uwrap by lia.
    apply reads_byte_cast.
  - rewrite <- (uwrap_small 16 ltac:(lia) v) at 2 by done.
    apply (reads_map read_int u16), reads_int. unfold in_u, in_s in *. lia.
  - rewrite <- (swrap_small 16 ltac:(lia) v) at 2 by done.
    apply (reads_map read_signed_int (swrap 16)), reads_signed, (swrap_wider 16); [lia|done].
  - by apply reads_int.
  - by apply reads_signed.
  - rewrite <- (swrap_small 32 ltac:(lia) v) at 2 by done. apply (reads_reversed (fun x => x)).
  - assert (forall x, in_s 32 (s32 x)) as Hs by (intros; apply swrap_range; lia).
    assert (v = jlong_from (s32 (high v)) (s32 (low v))) as E
      by (unfold high, low; rewrite !swrap_idem by lia; symmetry; by apply jlong_from_halves).
    rewrite E at 3.
    apply (reads_bind _ _ _ _ (s32 (reverse_int (u32 (high v))))); [by apply reads_int|].
    rewrite reverse_twice. apply (reads_reversed (jlong_from (s32 (high v)))).
  - rewrite <- (jlong_from_halves v) at 3 by done. apply (reads_bind _ _ _ _ (low v)).
    + apply reads_signed, swrap_range. lia.
    + apply (reads_map _ (fun x => jlong_from x (low v))), reads_signed, swrap_range. lia.
Qed.

Fixpoint all_code (items : list (kind * Z)) : list Z :=
  match items with [] => [] | (k, v) :: items => kind_code k v ++ all_code items end.

Lemma writes_all junk items : writes (write_all junk items) (all_code items).
Proof.
  induction items as [|[k v] items IH]; cbn [write_all all_code].
  - intros s Hs _. exists s. rewrite app_nil_r. cbn [length]. split_and!; done || lia.
  - apply writes_bind; [apply writes_kind|done].
Qed.

Lemma reads_all items :
  Forall (fun '(k, v) => has_kind k v) items -> reads (read_all items.*1) (all_code items) items.*2.
Proof.
  induction 1 as [|[k v] items Hv Hall IH]; csimpl.
  - intros s (Hp & Hlen & _). cbn. unfold advance, set_position. destruct s; cbn. by rewrite Z.add_0_r.
  - apply (reads_bind _ _ _ _ v); [by apply reads_kind|]. by apply (reads_map _ (cons v)).
Qed.

(** The longest coding of each kind. *)
Definition kind_bytes (k : kind) : Z :=
  match k with KBool | KByte => 1 | KDouble | KLong => 10 | _ => 5 end.

Lemma kind_code_length k v : Z.of_nat (length (kind_code k v)) <= kind_bytes k.
Proof.
  assert (forall x, Z.of_nat (length (unsigned5 4 (u32 x))) <= 5).
  { intros x. destruct (u32_coding x) as [Hc _]. apply coding_length in Hc. lia. }
  destruct k; cbn [kind_code kind_bytes]; rewrite ?length_app, ?Nat2Z.inj_add; try done;
    change 10 with (5 + 5); auto using Z.add_le_mono.
Qed.

Lemma all_code_length items :
  Z.of_nat (length (all_code items)) <= foldr Z.add 0 (kind_bytes <$> items.*1).
Proof.
  induction items as [|[k v] items IH]; csimpl; [done|].
  rewrite length_app. pose proof (kind_code_length k v). lia.
Qed.

(** C39: Whatever typed values, of at most 2^30 bytes in all, are written to a fresh stream of positive initial size, however
    small, and whatever the buffers it grows through contained, no write fails (a stream of size 0 cannot grow: [empty_stream_write])
    and reading the values back in the order of writing gives them all and ends at the
    position the writer has reached. *)
Theorem stream_roundtrip (junk : Z -> Z) (initial_size : Z) (items : list (kind * Z)) :
  0 < initial_size < 2 ^ 31 -> Forall (fun '(k, v) => has_kind k v) items ->
  foldr Z.add 0 (kind_bytes <$> items.*1) <= 2 ^ 30 ->
  exists s' r',
    write_all junk items (new_stream junk initial_size) = Some (tt, s') /\
    read_all items.*1 {| rs_buffer := ws_buffer s'; rs_position := 0 |} = Some (items.*2, r') /\
    rs_position r' = ws_position s'.
Proof.
  intros Hsize Hkinds Hlen. pose proof (all_code_length items).
  destruct (writes_all junk items (new_stream junk initial_size)) as (s' & E & Hs' & Hc & Hp).
  - constructor; cbn; rewrite ?length_fmap, ?length_seqZ; lia.
  - cbn. lia.
  - exists s'. eexists. split; [done|]. rewrite (reads_all items Hkinds); [cbn in *; by rewrite Hp|].
    unfold next_bytes. cbn in Hp |- *. split_and!; [lia..|].
    intros i b Hi. unfold arr_get. destruct (Z.leb_spec 0 (0 + Z.of_nat i)); [|lia].
    rewrite Z.add_0_l, Nat2Z.id. rewrite <- (app_nil_l (all_code items)) in Hi.
    change [] with (contents (new_stream junk initial_size)) in Hi. rewrite <- Hc in Hi.
    unfold contents in Hi. apply lookup_take_Some in Hi. tauto.
Qed.

Lemma stream_roundtrip_witness :
  let items := [(KInt, -1); (KLong, 2 ^ 40); (KFloat, 0x3f800000); (KByte, -3)] in
  exists s' r',
    write_all (fun _ => 7) items (new_stream (fun _ => 7) 1) = Some (tt, s') /\
    read_all items.*1 {| rs_buffer := ws_buffer s'; rs_position := 0 |} = Some (items.*2, r') /\
    rs_position r' = ws_position s'.
Proof.
  apply stream_roundtrip; [lia| |cbn; lia].
  repeat constructor; unfold has_kind, in_s; lia.
Defined.

(** A stream that starts without a buffer cannot grow: doubling leaves it empty and the
    store is outside of it. *)
Lemma empty_stream_write (junk : Z -> Z) (v : Z) : write_int junk v (new_stream junk 0) = None.
Proof.
  unfold write_int. cbn [new_stream full ws_size ws_position]. rewrite andb_false_r.
  unfold write_int_mb. cbn [write_mb_loop]. by destruct (_ || _).
Qed.
