(* ===== verification/UTF8.v ===== *)
(** * UTF8: utilities/utf8.cpp

    The conversions between the modified UTF-8 of the class files and the UTF-16 of
    Java strings.  A [char*] into a string is an offset into the list of its bytes,
    each in [0, 256); a [jchar] is in [0, 2^16).  Reads and writes outside of an array
    fail, so a successful result is also a proof that none happens. *)

From S2P Require Import Prelude GlobalDefs.

(* ------------------------------------------------------------------ *)
(** ** Decoding *)

(** The next character of the string and the pointer behind it. *)
Definition next (str : list Z) (ptr : Z) : option (Z * Z) :=
  ch ← arr_get str ptr;
  let bad := Some (ch, ptr + 1) in
  let sw := Z.shiftr ch 4 in
  if (sw =? 0x8) || (sw =? 0x9) || (sw =? 0xA) || (sw =? 0xB) || (sw =? 0xF) then bad
  else if (sw =? 0xC) || (sw =? 0xD) then
    ch2 ← arr_get str (ptr + 1);
    if Z.land ch2 0xC0 =? 0x80 then
      let high_five := u8 (Z.land ch 0x1F) in
      let low_six := u8 (Z.land ch2 0x3F) in
      Some (u16 (Z.shiftl high_five 6 + low_six), ptr + 2)
    else bad
  else if sw =? 0xE then
    ch2 ← arr_get str (ptr + 1);
    if Z.land ch2 0xC0 =? 0x80 then
      ch3 ← arr_get str (ptr + 2);
      if Z.land ch3 0xC0 =? 0x80 then
        let high_four := u8 (Z.land ch 0x0f) in
        let mid_six := u8 (Z.land ch2 0x3f) in
        let low_six := u8 (Z.land ch3 0x3f) in
        Some (u16 (Z.shiftl (Z.shiftl high_four 6 + mid_six) 6 + low_six), ptr + 3)
      else bad
    else bad
  else Some (ch, ptr + 1).

(** The tests are made in order and stop at the first that fails. *)
Definition is_supplementary_character (str : list Z) (p : Z) : option bool :=
  b0 ← arr_get str p;
  if negb (Z.land b0 0xFF =? 0xED) then Some false else
  b1 ← arr_get str (p + 1);
  if negb (Z.land b1 0xF0 =? 0xA0) then Some false else
  b2 ← arr_get str (p + 2);
  if negb (Z.land b2 0xC0 =? 0x80) then Some false else
  b3 ← arr_get str (p + 3);
  if negb (Z.land b3 0xFF =? 0xED) then Some false else
  b4 ← arr_get str (p + 4);
  if negb (Z.land b4 0xF0 =? 0xB0) then Some false else
  b5 ← arr_get str (p + 5);
  Some (Z.land b5 0xC0 =? 0x80).

Definition get_supplementary_character (str : list Z) (p : Z) : option Z :=
  b1 ← arr_get str (p + 1); b2 ← arr_get str (p + 2);
  b4 ← arr_get str (p + 4); b5 ← arr_get str (p + 5);
  Some (s32 (0x10000 + Z.shiftl (Z.land b1 0x0f) 16 + Z.shiftl (Z.land b2 0x3f) 10
                     + Z.shiftl (Z.land b4 0x0f) 6 + Z.land b5 0x3f)).

Definition next_character (str : list Z) (ptr : Z) : option (Z * Z) :=
  supplementary ← is_supplementary_character str ptr;
  if (supplementary : bool) then
    v ← get_supplementary_character str ptr; Some (v, ptr + 6)
  else next str ptr.

(** [unicode_length(str, len)]. *)
Definition unicode_length (str : list Z) (len : Z) : option Z :=
  each_range 0 len
    (fun i (num_chars : Z) =>
       b ← arr_get str i; Some (if Z.land b 0xC0 =? 0x80 then num_chars - 1 else num_chars)) len.

(** [unicode_length(str)], up to the terminating zero. *)
Fixpoint unicode_length_loop (fuel : nat) (str : list Z) (p num_chars : Z) : option Z :=
  match fuel with
  | O => None
  | S f =>
      b ← arr_get str p;
      if b =? 0 then Some num_chars
      else unicode_length_loop f str (p + 1)
             (if negb (Z.land b 0xC0 =? 0x80) then s32 (num_chars + 1) else num_chars)
  end.

Definition unicode_length0 (str : list Z) : option Z :=
  unicode_length_loop (S (length str)) str 0 0.

(** The two loops of [convert_to_unicode]; [n] is what is left of [unicode_length]. *)
Fixpoint convert_rest (n : nat) (str : list Z) (ptr index : Z) (dst : list Z) : option (list Z) :=
  match n with
  | O => Some dst
  | S n =>
      r ← next str ptr;
      let '(value, ptr) := r in
      dst ← arr_set dst index value;
      convert_rest n str ptr (index + 1) dst
  end.

Fixpoint convert_ascii (n : nat) (str : list Z) (ptr index : Z) (dst : list Z) : option (list Z) :=
  match n with
  | O => Some dst
  | S n' =>
      ch ← arr_get str ptr;
      if 0x7F <? ch then convert_rest n str ptr index dst
      else dst ← arr_set dst index ch; convert_ascii n' str (ptr + 1) (index + 1) dst
  end.

Definition convert_to_unicode (str dst : list Z) (unicode_length : Z) : option (list Z) :=
  convert_ascii (Z.to_nat unicode_length) str 0 0 dst.

(* ------------------------------------------------------------------ *)
(** ** Searching and comparing *)

(** [while (--length >= 0 && base[length] != c);], the index or [NULL]. *)
Fixpoint strrchr_loop (n : nat) (base : list Z) (c : Z) : option (option Z) :=
  match n with
  | O => Some None
  | S n =>
      b ← arr_get base (Z.of_nat n);
      if negb (b =? c) then strrchr_loop n base c else Some (Some (Z.of_nat n))
  end.

Definition strrchr (base : list Z) (length : Z) (c : Z) : option (option Z) :=
  strrchr_loop (Z.to_nat length) base c.

Definition equal (base1 : list Z) (length1 : Z) (base2 : list Z) (length2 : Z) : option bool :=
  if negb (length1 =? length2) then Some false
  else
    r ← for_range 0 length1
      (fun i (_ : unit) =>
         x ← arr_get base1 i; y ← arr_get base2 i;
         Some (if negb (x =? y) then Return false else Next tt)) tt;
    Some (match r with Return v => v | Next _ => true end).

(* ------------------------------------------------------------------ *)
(** ** Encoding *)

(** Writes a character at [base] and returns the end. *)
Definition utf8_write (buf : list Z) (base ch : Z) : option (list Z * Z) :=
  if negb (ch =? 0) && (ch <=? 0x7f) then
    buf ← arr_set buf base (u8 ch); Some (buf, base + 1)
  else if ch <=? 0x7FF then
    let high_five := u8 (Z.shiftr ch 6) in
    let low_six := u8 (Z.land ch 0x3F) in
    buf ← arr_set buf base (Z.lor high_five 0xC0);
    buf ← arr_set buf (base + 1) (Z.lor low_six 0x80);
    Some (buf, base + 2)
  else
    let high_four := swrap 8 (Z.shiftr ch 12) in
    let mid_six := swrap 8 (Z.land (Z.shiftr ch 6) 0x3F) in
    let low_six := swrap 8 (Z.land ch 0x3f) in
    buf ← arr_set buf base (u8 (Z.lor high_four 0xE0));
    buf ← arr_set buf (base + 1) (u8 (Z.lor mid_six 0x80));
    buf ← arr_set buf (base + 2) (u8 (Z.lor low_six 0x80));
    Some (buf, base + 3).

Definition utf8_size (c : Z) : Z :=
  if (0x0001 <=? c) && (c <=? 0x007F) then 1 else if c <=? 0x07FF then 2 else 3.

(** The result is an [int]. *)
Definition utf8_length (base : list Z) (length : Z) : option Z :=
  each_range 0 length
    (fun index (result : Z) =>
       c ← arr_get base index;
       Some (if (0x0001 <=? c) && (c <=? 0x007F) then s32 (result + 1)
             else if c <=? 0x07FF then s32 (result + 2) else s32 (result + 3))) 0.

(** [for (index = 0; index < length; index++) p = utf8_write(p, base[index]);] *)
Definition write_chars (base : list Z) (length : Z) (buf : list Z) (p : Z)
  : option (list Z * Z) :=
  each_range 0 length
    (fun index '(buf, p) => c ← arr_get base index; utf8_write buf p c) (buf, p).

(** [as_utf8(base, length)] allocates its result; [junk] is what it contains.  A negative size cannot be allocated: the
    array is empty then, and the first write into it fails. *)
Definition as_utf8 (junk : Z -> Z) (base : list Z) (length : Z) : option (list Z) :=
  utf8_len ← utf8_length base length;
  let result := junk <$> seqZ 0 (s32 (utf8_len + 1)) in
  r ← write_chars base length result 0;
  let '(result, p) := r in
  arr_set result p 0.

(** [as_utf8(base, length, buf, buflen)]. *)
Definition as_utf8_buf (base : list Z) (length : Z) (buf : list Z) (buflen : Z)
  : option (list Z) :=
  r ← for_range 0 length
    (fun index '(buf, p) =>
       c ← arr_get base index;
       if buflen <=? p + utf8_size c then Some (Return (buf, p))
       else r ← utf8_write buf p c; Some (Next r)) (buf, 0);
  let '(buf, p) := match r with Next s => s | Return s => s end in
  arr_set buf p 0.

Definition convert_to_utf8 (base : list Z) (length : Z) (utf8_buffer : list Z)
  : option (list Z) :=
  r ← write_chars base length utf8_buffer 0;
  let '(utf8_buffer, p) := r in
  arr_set utf8_buffer p 0.

(* ------------------------------------------------------------------ *)
(** * The encoding as a function *)

Definition utf8_bytes (c : Z) : list Z :=
  if (1 <=? c) && (c <=? 127) then [c]
  else if c <=? 2047 then [192 + c / 64; 128 + c mod 64]
  else [224 + c / 4096; 128 + (c / 64) mod 64; 128 + c mod 64].

Definition encode (cs : list Z) : list Z := cs ≫= utf8_bytes.

(** [l] overwrites the array from [p] on. *)
Definition splice (buf : list Z) (p : nat) (l : list Z) : list Z :=
  take p buf ++ l ++ drop (p + length l) buf.

Definition is_cont (b : Z) : bool := (128 <=? b) && (b <? 192).

(* ------------------------------------------------------------------ *)
(** ** Bytes *)

Lemma byte_forall (f : Z -> bool) b :
  forallb f (seqZ 0 256) = true -> in_u 8 b -> f b = true.
Proof.
  rewrite forallb_forall. intros Hf Hb. apply Hf, list_elem_of_In, elem_of_seqZ.
  unfold in_u in Hb. lia.
Qed.

Lemma cont_test b : in_u 8 b -> (Z.land b 0xC0 =? 0x80) = is_cont b.
Proof.
  intros Hb. apply eqb_prop.
  by apply (byte_forall (fun b => eqb (Z.land b 0xC0 =? 0x80) (is_cont b))).
Qed.

Lemma land_low k b : 0 <= k -> Z.land b (Z.ones k) = b mod 2 ^ k.
Proof. apply Z.land_ones. Qed.

Lemma lor_high a k x : 0 <= k -> 0 <= x < 2 ^ k -> Z.lor x (a * 2 ^ k) = a * 2 ^ k + x.
Proof. intros. rewrite Z.lor_comm. by apply lor_shiftl_add. Qed.

Lemma utf8_size_length c : Z.of_nat (length (utf8_bytes c)) = utf8_size c.
Proof. unfold utf8_bytes, utf8_size. by repeat case_match. Qed.

Lemma utf8_bytes_range c : in_u 16 c -> Forall (fun b => 0 < b < 256) (utf8_bytes c).
Proof.
  unfold in_u, utf8_bytes. intros Hc.
  pose proof (Z.mod_pos_bound c 64). pose proof (Z.mod_pos_bound (c / 64) 64).
  assert (0 <= c / 64) by (apply Z.div_pos; lia). assert (0 <= c / 4096) by (apply Z.div_pos; lia).
  assert (c / 4096 < 16) by (apply Z.div_lt_upper_bound; lia).
  zcases; repeat constructor; try lia.
  all: assert (c / 64 < 32) by (apply Z.div_lt_upper_bound; lia); lia.
Qed.

(* ------------------------------------------------------------------ *)
(** ** Writing *)

Lemma splice_length buf p l :
  (p + length l <= length buf)%nat -> length (splice buf p l) = length buf.
Proof. intros. unfold splice. rewrite !length_app, length_take, length_drop. lia. Qed.

Lemma splice_app buf p l l' :
  (p + length l + length l' <= length buf)%nat ->
  splice (splice buf p l) (p + length l) l' = splice buf p (l ++ l').
Proof.
  intros Hlen. unfold splice.
  assert (length (take p buf ++ l) = (p + length l)%nat) as E
    by (rewrite length_app, length_take; lia).
  rewrite (app_assoc (take p buf) l), take_app_length' by done.
  rewrite drop_app_ge, E, drop_drop by lia. rewrite <- !app_assoc, length_app. do 4 f_equal. lia.
Qed.

Lemma splice_nil buf p : splice buf p [] = buf.
Proof. unfold splice. cbn. by rewrite Nat.add_0_r, take_drop. Qed.

Lemma arr_set_splice buf p b :
  (p < length buf)%nat -> arr_set buf (Z.of_nat p) b = Some (splice buf p [b]).
Proof.
  intros Hp. rewrite arr_set_Some by lia. unfold splice. rewrite Nat2Z.id, insert_take_drop by done.
  cbn. by rewrite Nat.add_1_r.
Qed.

Lemma arr_set_splice_next buf p l b q :
  q = Z.of_nat (p + length l) -> (p + length l < length buf)%nat ->
  arr_set (splice buf p l) q b = Some (splice buf p (l ++ [b])).
Proof.
  intros -> Hp. rewrite arr_set_splice by (rewrite splice_length; lia).
  by rewrite splice_app by (cbn; lia).
Qed.

Lemma utf8_write_spec buf p c :
  in_u 16 c -> (p + length (utf8_bytes c) <= length buf)%nat ->
  utf8_write buf (Z.of_nat p) c =
  Some (splice buf p (utf8_bytes c), Z.of_nat (p + length (utf8_bytes c))).
Proof.
  unfold in_u. intros Hc. unfold utf8_write, utf8_bytes.
  replace (negb (c =? 0) && (c <=? 127)) with ((1 <=? c) && (c <=? 127)) by lia.
  destruct ((1 <=? c) && (c <=? 127)) eqn:E1; [|destruct (Z.leb_spec c 2047)]; cbn [length];
    intros Hlen.
  - rewrite uwrap_small by (unfold in_u; lia). rewrite arr_set_splice by lia. cbn. by rewrite Nat2Z.inj_add.
  - change 0x3F with (Z.ones 6). rewrite Z.shiftr_div_pow2, land_low by lia.
    change (2 ^ 6) with 64. pose proof (Z.mod_pos_bound c 64).
    assert (0 <= c / 64 < 32) by (split; [apply Z.div_pos|apply Z.div_lt_upper_bound]; lia).
    rewrite !uwrap_small by (unfold in_u; lia).
    change 0xC0 with (6 * 2 ^ 5). change 0x80 with (1 * 2 ^ 7). rewrite !lor_high by lia.
    rewrite arr_set_splice by lia. cbn [mbind option_bind].
    rewrite arr_set_splice_next by (cbn [length]; lia). cbn [mbind option_bind app].
    by rewrite Nat2Z.inj_add.
  - change 0x3F with (Z.ones 6). rewrite !land_low, !Z.shiftr_div_pow2 by lia.
    change (2 ^ 6) with 64. change (2 ^ 12) with 4096.
    pose proof (Z.mod_pos_bound c 64). pose proof (Z.mod_pos_bound (c / 64) 64).
    assert (0 <= c / 4096 < 16) by (split; [apply Z.div_pos|apply Z.div_lt_upper_bound]; lia).
    rewrite !(swrap_small 8) by (unfold in_s; lia).
    change 0xE0 with (7 * 2 ^ 5). change 0x80 with (1 * 2 ^ 7). rewrite !lor_high by lia.
    rewrite !uwrap_small by (unfold in_u; lia).
    rewrite arr_set_splice by lia. cbn [mbind option_bind].
    rewrite arr_set_splice_next by (cbn [length]; lia). cbn [mbind option_bind app].
    rewrite arr_set_splice_next by (cbn [length]; lia). cbn [mbind option_bind app].
    by rewrite Nat2Z.inj_add.
Qed.

Lemma encode_app cs cs' : encode (cs ++ cs') = encode cs ++ encode cs'.
Proof. unfold encode. apply bind_app. Qed.

Lemma encode_cons c cs : encode (c :: cs) = utf8_bytes c ++ encode cs.
Proof. done. Qed.

Lemma encode_length cs : Z.of_nat (length cs) <= Z.of_nat (length (encode cs)) <= 3 * Z.of_nat (length cs).
Proof.
  induction cs as [|c cs IH]; [done|]. rewrite encode_cons, length_app. cbn [length].
  pose proof (utf8_size_length c) as Hc. unfold utf8_size in Hc. repeat case_match; lia.
Qed.

Lemma encode_snoc cs c : encode (cs ++ [c]) = encode cs ++ utf8_bytes c.
Proof. rewrite encode_app. f_equal. unfold encode. cbn. apply app_nil_r. Qed.

(** The characters before [k], as every loop over an array of characters meets them. *)
Lemma take_snoc {A} (l : list A) (k : Z) :
  0 <= k < Z.of_nat (length l) ->
  exists x, arr_get l k = Some x /\ take (Z.to_nat (k + 1)) l = take (Z.to_nat k) l ++ [x].
Proof.
  intros Hk. destruct (arr_get_Some l k Hk) as [x Hx]. exists x. split; [done|].
  unfold arr_get in Hx. destruct (Z.leb_spec 0 k); [|done].
  rewrite Z2Nat.inj_add, Nat.add_1_r by lia. by apply take_S_r.
Qed.

Section Encoding.
Context (cs : list Z) (Hcs : Forall (in_u 16) cs).

(** One more character of the string. *)
Lemma encode_step k c :
  arr_get cs k = Some c -> take (Z.to_nat (k + 1)) cs = take (Z.to_nat k) cs ++ [c] ->
  in_u 16 c /\ encode (take (Z.to_nat (k + 1)) cs) = encode (take (Z.to_nat k) cs) ++ utf8_bytes c.
Proof using Hcs.
  intros Hc ->. rewrite encode_snoc. split; [|done].
  by eapply arr_get_Forall.
Qed.

Lemma encode_prefix_length n : (length (encode (take n cs)) <= length (encode cs))%nat.
Proof using Type.
  rewrite <- (take_drop n cs) at 2. rewrite encode_app, length_app. lia.
Qed.

(** The length as an [int], which wraps around when it does not fit. *)
Lemma utf8_length_wraps :
  utf8_length cs (Z.of_nat (length cs)) = Some (s32 (Z.of_nat (length (encode cs)))).
Proof using Hcs.
  unfold utf8_length.
  edestruct (each_range_inv (fun k r => r = s32 (Z.of_nat (length (encode (take (Z.to_nat k) cs))))))
    as (r & -> & ->); [lia|done| |by rewrite Nat2Z.id, firstn_all].
  intros k r Hk ->. destruct (take_snoc cs k Hk) as (c & Hc & E).
  destruct (encode_step k c Hc E) as [_ ->]. rewrite Hc. eexists. split; [done|]. cbn beta.
  rewrite length_app, Nat2Z.inj_add, utf8_size_length, !swrap_add_l by lia. unfold utf8_size. by repeat case_match.
Qed.

Lemma utf8_length_spec : Z.of_nat (length (encode cs)) < 2 ^ 31 ->
  utf8_length cs (Z.of_nat (length cs)) = Some (Z.of_nat (length (encode cs))).
Proof using Hcs.
  intros H. rewrite utf8_length_wraps. by rewrite swrap_small by (lia || (unfold in_s; lia)).
Qed.

Lemma write_chars_spec buf :
  (length (encode cs) <= length buf)%nat ->
  write_chars cs (Z.of_nat (length cs)) buf 0 =
  Some (splice buf 0 (encode cs), Z.of_nat (length (encode cs))).
Proof using Hcs.
  intros Hlen. unfold write_chars.
  edestruct (each_range_inv (fun k '(b, p) =>
      b = splice buf 0 (encode (take (Z.to_nat k) cs)) /\
      p = Z.of_nat (length (encode (take (Z.to_nat k) cs)))))
    as ([b p] & -> & -> & ->); [lia|by rewrite splice_nil| |by rewrite Nat2Z.id, firstn_all].
  intros k [b p] Hk [-> ->]. destruct (take_snoc cs k Hk) as (c & Hc & E).
  pose proof (encode_prefix_length (Z.to_nat (k + 1))) as Hpre.
  destruct (encode_step k c Hc E) as [Hc16 Hstep]. rewrite Hstep in *. rewrite length_app in *.
  rewrite Hc. cbn [mbind option_bind]. set (l := encode (take (Z.to_nat k) cs)) in *.
  rewrite utf8_write_spec by (done || (rewrite splice_length; cbn; lia)).
  eexists. split; [done|]. cbn beta iota. split; [|done].
  apply (splice_app buf 0 l). lia.
Qed.

Lemma splice_all junk l : splice (junk <$> seqZ 0 (Z.of_nat (length l))) 0 l = l.
Proof using Type.
  unfold splice. cbn. rewrite drop_ge, app_nil_r; [done|].
  rewrite length_fmap, length_seqZ. lia.
Qed.

Lemma as_utf8_eq junk : Z.of_nat (length (encode cs)) < 2 ^ 31 - 1 ->
  as_utf8 junk cs (Z.of_nat (length cs)) = Some (encode cs ++ [0]).
Proof using Hcs.
  intros Hmax. unfold as_utf8. rewrite utf8_length_spec by lia. cbn [mbind option_bind].
  rewrite swrap_small by (lia || (unfold in_s; lia)).
  set (buf := junk <$> seqZ 0 _).
  assert (length buf = S (length (encode cs))) as Hbuf
    by (unfold buf; rewrite length_fmap, length_seqZ; lia).
  rewrite write_chars_spec by lia. cbn [mbind option_bind].
  rewrite arr_set_splice_next by (cbn; lia). f_equal. unfold buf.
  replace (Z.of_nat (length (encode cs)) + 1) with (Z.of_nat (length (encode cs ++ [0])))
    by (rewrite length_app; cbn; lia).
  apply splice_all.
Qed.

(** Encoding into a caller's buffer never writes at or behind [buflen]: it
    stores the encoding of a prefix of the characters, zero terminated and cut between
    two characters, and the prefix is the longest one that fits with its terminator. *)
Theorem as_utf8_buf_spec (buf : list Z) (buflen : Z) :
  0 < buflen <= Z.of_nat (length buf) ->
  exists k, (k <= length cs)%nat /\
    as_utf8_buf cs (Z.of_nat (length cs)) buf buflen = Some (splice buf 0 (encode (take k cs) ++ [0])) /\
    Z.of_nat (length (encode (take k cs) ++ [0])) <= buflen /\
    (k = length cs \/ buflen < Z.of_nat (length (encode (take (S k) cs) ++ [0]))).
Proof using Hcs.
  intros Hbuf. unfold as_utf8_buf.
  edestruct (for_range_inv
    (fun k '(b, p) =>
      b = splice buf 0 (encode (take (Z.to_nat k) cs)) /\
      p = Z.of_nat (length (encode (take (Z.to_nat k) cs))) /\ p < buflen)
    (fun '(b, p) => exists k, (k < length cs)%nat /\
      b = splice buf 0 (encode (take k cs)) /\
      p = Z.of_nat (length (encode (take k cs))) /\ p < buflen /\
      buflen <= Z.of_nat (length (encode (take (S k) cs)))))
    as (r & -> & Hr); [lia|split_and!; [by rewrite splice_nil|done|lia]| |].
  - intros k [b p] Hk (-> & -> & Hp). destruct (take_snoc cs k Hk) as (c & Hc & E).
    destruct (encode_step k c Hc E) as [Hc16 Hstep].
    rewrite Hc. cbn [mbind option_bind]. rewrite <- utf8_size_length.
    destruct (Z.leb_spec buflen (Z.of_nat (length (encode (take (Z.to_nat k) cs))) +
                Z.of_nat (length (utf8_bytes c)))).
    + eexists. split; [done|]. cbn beta iota. exists (Z.to_nat k).
      replace (S (Z.to_nat k)) with (Z.to_nat (k + 1)) by lia.
      rewrite Hstep, length_app. split_and!; done || lia.
    + rewrite utf8_write_spec by (done || (rewrite splice_length; cbn; lia)).
      eexists. split; [done|]. cbn beta iota. rewrite Hstep, length_app.
      split_and!; [|lia|lia]. apply (splice_app buf 0). cbn. lia.
  - destruct r as [[b p]|[b p]]; cbn [mbind option_bind].
    + rewrite Nat2Z.id in Hr. destruct Hr as (-> & -> & Hp). exists (length cs).
      rewrite arr_set_splice_next by (cbn; lia). rewrite length_app. cbn [length].
      split_and!; auto; lia.
    + destruct Hr as (k & Hk & -> & -> & Hp & Hmax). exists k.
      rewrite arr_set_splice_next by (cbn; lia). rewrite !length_app. cbn [length].
      split_and!; auto; lia.
Qed.
End Encoding.

Lemma as_utf8_buf_spec_witness :
  exists k, (k <= 3)%nat /\
    as_utf8_buf [65; 233; 8364] 3 [9; 9; 9; 9; 9] 5 =
      Some (splice [9; 9; 9; 9; 9] 0 (encode (take k [65; 233; 8364]) ++ [0])) /\
    Z.of_nat (length (encode (take k [65; 233; 8364]) ++ [0])) <= 5 /\
    (k = 3%nat \/ 5 < Z.of_nat (length (encode (take (S k) [65; 233; 8364]) ++ [0]))).
Proof.
  apply (as_utf8_buf_spec [65; 233; 8364]).
  - repeat constructor; unfold in_u; lia.
  - cbn. lia.
Defined.

(* ------------------------------------------------------------------ *)
(** * Decoding *)

(** How many continuation bytes a first byte calls for. *)
Definition tail_bytes (b : Z) : Z :=
  if (192 <=? b) && (b <? 224) then 1 else if (224 <=? b) && (b <? 240) then 2 else 0.

(** The first byte decides which case of [next] is taken. *)
Lemma next_case b :
  in_u 8 b ->
  (let sw := Z.shiftr b 4 in
   (sw =? 0x8) || (sw =? 0x9) || (sw =? 0xA) || (sw =? 0xB) || (sw =? 0xF)) =
    is_cont b || (240 <=? b) /\
  (let sw := Z.shiftr b 4 in (sw =? 0xC) || (sw =? 0xD)) = (tail_bytes b =? 1) /\
  (Z.shiftr b 4 =? 0xE) = (tail_bytes b =? 2).
Proof.
  intros Hb. pose (swb := fun b (l : list Z) => existsb (Z.eqb (Z.shiftr b 4)) l).
  pose proof (byte_forall (fun b =>
    eqb (swb b [8; 9; 10; 11; 15]) (is_cont b || (240 <=? b)) &&
    eqb (swb b [12; 13]) (tail_bytes b =? 1) && eqb (swb b [14]) (tail_bytes b =? 2))
    b eq_refl Hb) as E.
  cbn beta in E. apply andb_prop in E as [[E1 E2]%andb_prop E3].
  apply eqb_prop in E1, E2, E3. rewrite <- E1, <- E2, <- E3. subst swb.
  cbn [existsb]. rewrite !orb_false_r, !orb_assoc. done.
Qed.

Lemma next_0 str p b :
  in_u 8 b -> arr_get str p = Some b -> tail_bytes b = 0 -> next str p = Some (b, p + 1).
Proof.
  intros Hb Hp Ht. unfold next. rewrite Hp. cbn [mbind option_bind]. cbv zeta.
  destruct (next_case b Hb) as (E1 & E2 & E3). cbv zeta in *. rewrite E1, E2, E3, Ht.
  by destruct (is_cont b || (240 <=? b)).
Qed.

Lemma tail_not_bad b : tail_bytes b <> 0 -> is_cont b || (240 <=? b) = false.
Proof. unfold tail_bytes, is_cont. intros. repeat case_match; lia. Qed.

Lemma next_1 str p b c :
  in_u 8 b -> in_u 8 c -> arr_get str p = Some b -> arr_get str (p + 1) = Some c ->
  tail_bytes b = 1 ->
  next str p = Some (if is_cont c then ((b - 192) * 64 + (c - 128), p + 2) else (b, p + 1)).
Proof.
  intros Hb Hc Hp Hp1 Ht. unfold next. rewrite Hp. cbn [mbind option_bind]. cbv zeta.
  destruct (next_case b Hb) as (E1 & E2 & E3). cbv zeta in *.
  rewrite E1, E2, E3, tail_not_bad, Ht, Hp1 by lia. cbn [mbind option_bind Z.eqb Pos.eqb].
  rewrite cont_test by done. destruct (is_cont c) eqn:Hcc; [|done].
  unfold tail_bytes, is_cont, in_u in *. zreflect.
  change 0x1F with (Z.ones 5). change 0x3F with (Z.ones 6). rewrite !land_low by lia.
  rewrite Z.shiftl_mul_pow2 by lia.
  assert (b mod 2 ^ 5 = b - 192) as -> by (symmetry; apply (Zmod_unique _ _ 6); repeat case_match; lia).
  assert (c mod 2 ^ 6 = c - 128) as -> by (symmetry; apply (Zmod_unique _ _ 2); lia).
  assert (192 <= b < 224) by (repeat case_match; lia).
  rewrite !(uwrap_small 8), uwrap_small by (unfold in_u; lia). done.
Qed.

Lemma next_2 str p b c d :
  in_u 8 b -> in_u 8 c -> in_u 8 d ->
  arr_get str p = Some b -> arr_get str (p + 1) = Some c ->
  (is_cont c = true -> arr_get str (p + 2) = Some d) -> tail_bytes b = 2 ->
  next str p = Some (if is_cont c && is_cont d
                     then (((b - 224) * 64 + (c - 128)) * 64 + (d - 128), p + 3) else (b, p + 1)).
Proof.
  intros Hb Hc Hd Hp Hp1 Hp2 Ht. unfold next. rewrite Hp. cbn [mbind option_bind]. cbv zeta.
  destruct (next_case b Hb) as (E1 & E2 & E3). cbv zeta in *.
  rewrite E1, E2, E3, tail_not_bad, Ht, Hp1 by lia. cbn [mbind option_bind Z.eqb Pos.eqb].
  rewrite cont_test by done. destruct (is_cont c) eqn:Hcc; [|done].
  rewrite Hp2 by done. cbn [mbind option_bind andb].
  rewrite cont_test by done. destruct (is_cont d) eqn:Hdd; [|done].
  unfold tail_bytes, is_cont, in_u in *. zreflect.
  change 0x0F with (Z.ones 4). change 0x3F with (Z.ones 6). rewrite !land_low by lia.
  rewrite !Z.shiftl_mul_pow2 by lia.
  assert (b mod 2 ^ 4 = b - 224) as -> by (symmetry; apply (Zmod_unique _ _ 14); repeat case_match; lia).
  assert (c mod 2 ^ 6 = c - 128) as -> by (symmetry; apply (Zmod_unique _ _ 2); lia).
  assert (d mod 2 ^ 6 = d - 128) as -> by (symmetry; apply (Zmod_unique _ _ 2); lia).
  assert (224 <= b < 240) by (repeat case_match; lia).
  rewrite !(uwrap_small 8), uwrap_small by (unfold in_u; lia). done.
Qed.

Lemma arr_get_drop {A} (l : list A) p i :
  0 <= i -> arr_get l (Z.of_nat p + i) = arr_get (drop p l) i.
Proof.
  intros Hi. unfold arr_get. destruct (Z.leb_spec 0 (Z.of_nat p + i)), (Z.leb_spec 0 i); try lia.
  rewrite lookup_drop. f_equal. lia.
Qed.

Lemma next_drop str p :
  next str (Z.of_nat p) = (fun '(v, n) => (v, Z.of_nat p + n)) <$> next (drop p str) 0.
Proof.
  unfold next. rewrite !Z.add_0_l. rewrite <- (Z.add_0_r (Z.of_nat p)) at 1.
  rewrite !arr_get_drop by lia.
  destruct (arr_get (drop p str) 0) as [ch|]; [|done]. cbn [mbind option_bind]. cbv zeta.
  repeat match goal with |- context [if ?b then _ else _] => destruct b; try done end;
    destruct (arr_get (drop p str) 1); try done; cbn [mbind option_bind];
    repeat match goal with |- context [if ?b then _ else _] => destruct b; try done end.
  destruct (arr_get (drop p str) 2); try done; cbn [mbind option_bind].
  by destruct (_ =? _).
Qed.

Definition is_byte (b : Z) : Prop := 0 < b < 256.

(** A terminated string: [body] without zero bytes, a zero, and what follows. *)
Section Terminated.
Context (rest : list Z).

(** The byte behind a first byte, the terminator at the latest. *)
Lemma cont_next body :
  Forall is_byte body ->
  exists c, (body ++ 0 :: rest) !! 0%nat = Some c /\ in_u 8 c /\
    (is_cont c = true -> exists body1, body = c :: body1 /\ Forall is_byte body1).
Proof using Type.
  intros Hbody. destruct Hbody as [|c body1 Hc Hbody].
  - exists 0. split_and!; done || unfold in_u; lia.
  - exists c. unfold is_byte in Hc. split_and!; [done|unfold in_u; lia|]. by exists body1.
Qed.

Lemma next_progress b body :
  Forall is_byte (b :: body) ->
  exists v tail body', next ((b :: body) ++ 0 :: rest) 0 = Some (v, 1 + Z.of_nat (length tail)) /\
    body = tail ++ body' /\ Forall (fun c => is_cont c = true) tail /\ in_u 16 v /\
    (tail = [] -> v = b).
Proof using Type.
  intros Hbody. inversion Hbody as [|? ? Hb Hrest]; subst. clear Hbody. unfold is_byte in Hb.
  assert (in_u 8 b /\ in_u 16 b) as [Hb8 Hb16] by (unfold in_u; lia).
  set (str := (b :: body) ++ 0 :: rest).
  assert (arr_get str 0 = Some b) as H0 by done.
  assert (tail_bytes b = 0 \/ tail_bytes b = 1 \/ tail_bytes b = 2) as Ht
    by (unfold tail_bytes; repeat case_match; lia).
  destruct (cont_next body Hrest) as (c & H1 & Hc & Hcont).
  change ((body ++ 0 :: rest) !! 0%nat) with (arr_get str (0 + 1)) in H1.
  destruct Ht as [Ht|[Ht|Ht]].
  - exists b, [], body. by rewrite (next_0 _ 0 b).
  - rewrite (next_1 _ 0 b c) by done. destruct (is_cont c) eqn:Hcc; [|by exists b, [], body].
    destruct Hcont as (body1 & -> & _); [done|].
    eexists _, [c], body1. split_and!; [done|done|by repeat constructor| |done].
    unfold tail_bytes, is_cont, in_u in *. repeat case_match; lia.
  - destruct (is_cont c) eqn:Hcc.
    2: { rewrite (next_2 _ 0 b c 0), Hcc by (done || congruence). by exists b, [], body. }
    destruct Hcont as (body1 & -> & Hbody1); [done|].
    destruct (cont_next body1 Hbody1) as (d & H2 & Hd & Hcont').
    change ((body1 ++ 0 :: rest) !! 0%nat) with (arr_get str (0 + 2)) in H2.
    rewrite (next_2 _ 0 b c d), Hcc by done. destruct (is_cont d) eqn:Hdd; [|by exists b, [], (c :: body1)].
    destruct Hcont' as (body2 & -> & _); [done|].
    eexists _, [c; d], body2. split_and!; [done|done|by repeat constructor| |done].
    unfold tail_bytes, is_cont, in_u in *. repeat case_match; lia.
Qed.
End Terminated.

(** [next] undoes [utf8_write]. *)
Lemma next_encoded c l : in_u 16 c -> next (utf8_bytes c ++ l) 0 = Some (c, Z.of_nat (length (utf8_bytes c))).
Proof.
  intros Hc. pose proof (utf8_bytes_range c Hc) as Hr. unfold in_u in Hc. unfold utf8_bytes in *.
  pose proof (Z.mod_pos_bound c 64). pose proof (Z.mod_pos_bound (c / 64) 64).
  pose proof (Z.div_mod c 64). pose proof (Z.div_mod (c / 64) 64).
  assert (c / 64 / 64 = c / 4096) by by rewrite Z.div_div.
  assert (0 <= c / 64 /\ c / 4096 < 16) as [??] by (split; [apply Z.div_pos|apply Z.div_lt_upper_bound]; lia).
  repeat case_match; cbn [app length].
  - rewrite (next_0 _ 0 c); [done|unfold in_u; lia|done|]. unfold tail_bytes. repeat case_match; lia.
  - rewrite (next_1 _ 0 (192 + c / 64) (128 + c mod 64)); try done; try (unfold in_u; lia).
    + assert (is_cont (128 + c mod 64) = true) as -> by (unfold is_cont; lia).
      do 2 f_equal. lia.
    + unfold tail_bytes. repeat case_match; lia.
  - rewrite (next_2 _ 0 (224 + c / 4096) (128 + (c / 64) mod 64) (128 + c mod 64)); try done;
      try (unfold in_u; lia).
    + assert (is_cont (128 + c mod 64) = true) as -> by (unfold is_cont; lia).
      assert (is_cont (128 + (c / 64) mod 64) = true) as -> by (unfold is_cont; lia).
      cbn [andb]. do 2 f_equal. lia.
    + unfold tail_bytes. repeat case_match; lia.
Qed.

(** The number of characters: of bytes that are not continuation bytes. *)
Definition leads (l : list Z) : nat := length (List.filter (fun b => negb (is_cont b)) l).

Lemma leads_app l l' : leads (l ++ l') = (leads l + leads l')%nat.
Proof. unfold leads. by rewrite List.filter_app, length_app. Qed.

Lemma leads_cont l : Forall (fun c => is_cont c = true) l -> leads l = 0%nat.
Proof. induction 1 as [|c l Hc Hl IH]; [done|]. unfold leads in *. cbn. by rewrite Hc. Qed.

Lemma leads_cons b l : leads (b :: l) = ((if is_cont b then 0 else 1) + leads l)%nat.
Proof. unfold leads. cbn. by destruct (is_cont b). Qed.

Lemma leads_bytes c : in_u 16 c -> leads (utf8_bytes c) = 1%nat.
Proof.
  intros Hc. unfold in_u in Hc. unfold utf8_bytes.
  pose proof (Z.mod_pos_bound c 64). pose proof (Z.mod_pos_bound (c / 64) 64).
  assert (0 <= c / 64 /\ 0 <= c / 4096) as [??] by (split; apply Z.div_pos; lia).
  repeat case_match; rewrite !leads_cons; unfold is_cont; repeat case_match; zreflect; try lia; done.
Qed.

Lemma leads_encode cs : Forall (in_u 16) cs -> leads (encode cs) = length cs.
Proof.
  induction 1 as [|c cs Hc Hcs IH]; [done|].
  by rewrite encode_cons, leads_app, leads_bytes, IH.
Qed.

Lemma encode_bytes cs : Forall (in_u 16) cs -> Forall is_byte (encode cs).
Proof.
  induction 1 as [|c cs Hc Hcs IH]; [constructor|]. rewrite encode_cons.
  apply Forall_app. split; [|done]. by apply utf8_bytes_range.
Qed.

Lemma is_byte_in_u b : is_byte b -> in_u 8 b.
Proof. unfold is_byte, in_u. lia. Qed.

Lemma bytes_in_u l : Forall is_byte l -> Forall (in_u 8) l.
Proof. apply List.Forall_impl, is_byte_in_u. Qed.

Lemma arr_get_body {A} (body l : list A) k :
  0 <= k < Z.of_nat (length body) -> arr_get (body ++ l) k = arr_get body k.
Proof. intros. apply arr_get_app_l. lia. Qed.

Lemma unicode_length_eq body l :
  Forall is_byte body ->
  unicode_length (body ++ l) (Z.of_nat (length body)) = Some (Z.of_nat (leads body)).
Proof.
  intros Hbody. unfold unicode_length.
  edestruct (each_range_inv (fun k r =>
      r = Z.of_nat (length body) - k + Z.of_nat (leads (take (Z.to_nat k) body))))
    as (r & -> & ->); [lia|cbn beta; change (leads _) with 0%nat; lia| |rewrite Nat2Z.id, firstn_all; f_equal; lia].
  intros k r Hk ->. rewrite arr_get_body by done. destruct (take_snoc body k Hk) as (b & Hb & ->).
  rewrite Hb. cbn [mbind option_bind]. eexists. split; [done|]. cbn beta.
  rewrite cont_test by (eapply is_byte_in_u, arr_get_Forall; done).
  rewrite leads_app, leads_cons. change (leads []) with 0%nat. destruct (is_cont b); lia.
Qed.

Lemma drop_next {A} (l : list A) p x r : drop p l = x :: r -> l !! p = Some x /\ drop (S p) l = r.
Proof.
  intros E. split.
  - by rewrite <- (Nat.add_0_r p), <- lookup_drop, E.
  - by rewrite <- Nat.add_1_r, <- drop_drop, E.
Qed.

Lemma unicode_length_loop_eq body fuel str p rest num :
  drop p str = body ++ 0 :: rest -> Forall is_byte body -> (length body < fuel)%nat ->
  unicode_length_loop fuel str (Z.of_nat p) (s32 num) = Some (s32 (num + Z.of_nat (leads body))).
Proof.
  intros E Hbody. revert fuel p num E.
  induction Hbody as [|b body Hb Hbody IH]; intros [|fuel] p num E Hf; cbn in Hf; try lia;
    apply drop_next in E as [Hp Hd]; cbn [unicode_length_loop];
    (assert (arr_get str (Z.of_nat p) = str !! p) as ->
      by (unfold arr_get; destruct (Z.leb_spec 0 (Z.of_nat p)); [by rewrite Nat2Z.id|lia]));
    rewrite Hp; cbn [mbind option_bind].
  - cbn [Z.eqb]. do 2 f_equal. cbn. lia.
  - destruct (Z.eqb_spec b 0); [unfold is_byte in Hb; lia|].
    replace (Z.of_nat p + 1) with (Z.of_nat (S p)) by lia.
    rewrite cont_test, leads_cons by (by apply is_byte_in_u). rewrite swrap_add_l by lia.
    destruct (is_cont b); cbn [negb]; rewrite IH by (done || lia); do 2 f_equal; lia.
Qed.

Lemma unicode_length0_eq body rest :
  Forall is_byte body ->
  unicode_length0 (body ++ 0 :: rest) = Some (s32 (Z.of_nat (leads body))).
Proof.
  intros Hbody. unfold unicode_length0.
  apply (unicode_length_loop_eq body _ _ 0 rest 0 eq_refl Hbody). rewrite length_app. cbn. lia.
Qed.

(* ------------------------------------------------------------------ *)
(** ** convert_to_unicode *)

(** The loop for ASCII characters computes what the general loop does. *)
Lemma convert_ascii_eq n str ptr index dst :
  Forall (in_u 8) str -> convert_ascii n str ptr index dst = convert_rest n str ptr index dst.
Proof.
  intros Hstr. revert ptr index dst. induction n as [|n IH]; intros ptr index dst; [done|].
  cbn [convert_ascii]. destruct (arr_get str ptr) as [ch|] eqn:E; cbn [mbind option_bind].
  - destruct (Z.ltb_spec 127 ch); [done|]. cbn [convert_rest].
    assert (in_u 8 ch) as Hch by by eapply arr_get_Forall.
    rewrite (next_0 str ptr ch) by (try done; unfold tail_bytes; repeat case_match; lia).
    cbn [mbind option_bind]. destruct (arr_set dst index ch); [apply IH|done].
  - cbn [convert_rest]. unfold next. by rewrite E.
Qed.

Lemma convert_rest_safe n str p rest dst : forall body index,
  drop p str = body ++ 0 :: rest -> Forall is_byte body -> (n <= leads body)%nat ->
  (index + n <= length dst)%nat ->
  exists vs, length vs = n /\ Forall (in_u 16) vs /\
    convert_rest n str (Z.of_nat p) (Z.of_nat index) dst = Some (splice dst index vs).
Proof.
  revert p dst. induction n as [|n IH]; intros p dst body index E Hbody Hn Hdst.
  { exists []. by rewrite splice_nil. }
  destruct body as [|b body]; [cbn in Hn; lia|].
  destruct (next_progress rest b body Hbody) as (v & tail & body' & Hnext & -> & Htail & Hv & _).
  cbn [convert_rest]. rewrite next_drop, E, Hnext. cbn [fmap option_fmap option_map mbind option_bind].
  rewrite arr_set_splice by lia. cbn [mbind option_bind].
  replace (Z.of_nat p + (1 + Z.of_nat (length tail))) with (Z.of_nat (p + S (length tail))) by lia.
  replace (Z.of_nat index + 1) with (Z.of_nat (index + length [v])) by (cbn; lia).
  destruct (IH (p + S (length tail))%nat (splice dst index [v]) body' (index + length [v])%nat)
    as (vs & <- & Hvs & ->).
  - rewrite <- drop_drop, E. cbn. by rewrite <- app_assoc, drop_app_length.
  - apply list.Forall_cons in Hbody as [_ Hbody]. by apply Forall_app in Hbody as [_ ?].
  - rewrite leads_cons, leads_app, (leads_cont tail) in Hn by done. destruct (is_cont b); lia.
  - rewrite splice_length; cbn; lia.
  - exists (v :: vs). split_and!; [done|by constructor|].
    rewrite splice_app by (cbn in *; lia). done.
Qed.

Lemma convert_rest_encoded cs str l : forall p dst index,
  drop p str = encode cs ++ l -> Forall (in_u 16) cs -> (index + length cs <= length dst)%nat ->
  convert_rest (length cs) str (Z.of_nat p) (Z.of_nat index) dst = Some (splice dst index cs).
Proof.
  induction cs as [|c cs IH]; intros p dst index E Hcs Hdst; cbn [length convert_rest].
  { by rewrite splice_nil. }
  apply list.Forall_cons in Hcs as [Hc Hcs]. cbn in Hdst. rewrite encode_cons, <- app_assoc in E.
  rewrite next_drop, E, next_encoded by done. cbn [fmap option_fmap option_map mbind option_bind].
  rewrite arr_set_splice by lia. cbn [mbind option_bind]. rewrite <- Nat2Z.inj_add.
  replace (Z.of_nat index + 1) with (Z.of_nat (index + length [c])) by (cbn; lia).
  rewrite IH; [by rewrite splice_app by (cbn; lia)| |done|rewrite splice_length; cbn; lia].
  by rewrite <- drop_drop, E, drop_app_length.
Qed.

(* ------------------------------------------------------------------ *)
(** * The properties *)

(** C40: Encoding and decoding, for strings whose encoding with its terminator fits the [int] that counts its bytes: [as_utf8]
    needs exactly the memory [utf8_length]
    predicts, its result contains no zero but the terminator, both [unicode_length]
    functions recover the number of characters from it, and [convert_to_unicode]
    recovers the characters. *)
Theorem utf8_roundtrip (junk : Z -> Z) (cs dst : list Z) :
  Forall (in_u 16) cs -> length dst = length cs -> Z.of_nat (length (encode cs)) < 2 ^ 31 - 1 ->
  exists body,
    as_utf8 junk cs (Z.of_nat (length cs)) = Some (body ++ [0]) /\
    Forall is_byte body /\
    utf8_length cs (Z.of_nat (length cs)) = Some (Z.of_nat (length body)) /\
    unicode_length (body ++ [0]) (Z.of_nat (length body)) = Some (Z.of_nat (length cs)) /\
    unicode_length0 (body ++ [0]) = Some (Z.of_nat (length cs)) /\
    convert_to_unicode (body ++ [0]) dst (Z.of_nat (length cs)) = Some cs.
Proof.
  intros Hcs Hdst Hfits. exists (encode cs). pose proof (encode_length cs) as Hlen.
  pose proof (encode_bytes cs Hcs) as Hbytes.
  split_and!; [apply as_utf8_eq; [done|lia]|done|apply utf8_length_spec; [done|lia]| | |].
  - by rewrite unicode_length_eq, leads_encode.
  - rewrite (unicode_length0_eq (encode cs) []), leads_encode by done. by rewrite swrap_small by (lia || (unfold in_s; lia)).
  - unfold convert_to_unicode. rewrite Nat2Z.id, convert_ascii_eq.
    + etransitivity; [apply (convert_rest_encoded cs _ [0] 0 dst 0); done || lia|].
      unfold splice. cbn. rewrite drop_ge by lia. by rewrite app_nil_r.
    + apply list.Forall_app. split; [|by repeat constructor].
      by apply bytes_in_u.
Qed.

(** A string of 715827883 characters of three bytes each has a negative length. *)
Theorem utf8_length_overflows cs : Forall (fun c => c = 0xFFFF) cs -> Z.of_nat (length cs) = 715827883 ->
  utf8_length cs (Z.of_nat (length cs)) = Some (- 2147483647).
Proof.
  intros Hcs Hlen. assert (Hn : Z.of_nat (length (encode cs)) = 3 * Z.of_nat (length cs)).
  { clear Hlen. induction Hcs as [|c cs -> _ IH]; [done|]. rewrite encode_cons, length_app, Nat2Z.inj_add, IH. cbn [length].
    change (length (utf8_bytes 0xFFFF)) with 3%nat. lia. }
  rewrite utf8_length_wraps by (revert Hcs; apply Forall_impl; by intros c ->). by rewrite Hn, Hlen.
Qed.

Lemma utf8_roundtrip_witness :
  exists body,
    as_utf8 (fun _ => 9) [65; 0; 0xD834] 3 = Some (body ++ [0]) /\ Forall is_byte body /\
    utf8_length [65; 0; 0xD834] 3 = Some (Z.of_nat (length body)) /\
    unicode_length (body ++ [0]) (Z.of_nat (length body)) = Some 3 /\
    unicode_length0 (body ++ [0]) = Some 3 /\
    convert_to_unicode (body ++ [0]) [7; 7; 7] 3 = Some [65; 0; 0xD834].
Proof.
  apply (utf8_roundtrip (fun _ => 9) [65; 0; 0xD834] [7; 7; 7]); [|done|by vm_compute].
  repeat constructor; unfold in_u; lia.
Defined.

(** Decoding is safe on every terminated string, legal or not: [next] makes
    progress and never steps over the terminator, both [unicode_length] functions agree,
    and [convert_to_unicode] asked for that many characters stays within the string and
    its destination. *)
Theorem decoding_stays_in_string (body rest dst : list Z) (p : nat) :
  Forall is_byte body -> Forall (in_u 8) rest -> (p < length body)%nat -> length dst = leads body ->
  let str := body ++ 0 :: rest in
  (exists v p', next str (Z.of_nat p) = Some (v, p') /\
     Z.of_nat p < p' <= Z.of_nat (length body) /\ in_u 16 v) /\
  unicode_length str (Z.of_nat (length body)) = Some (Z.of_nat (leads body)) /\
  unicode_length0 str = Some (s32 (Z.of_nat (leads body))) /\
  (exists vs, convert_to_unicode str dst (Z.of_nat (leads body)) = Some vs /\
     length vs = leads body /\ Forall (in_u 16) vs).
Proof.
  intros Hbody Hrest Hp Hdst str. split_and!.
  - destruct (drop p body) as [|b body'] eqn:E.
    { apply (f_equal length) in E. rewrite length_drop in E. cbn in E. lia. }
    assert (Forall is_byte (b :: body')) as Hb by (rewrite <- E; by apply Forall_drop).
    destruct (next_progress rest b body' Hb) as (v & tail & body'' & Hn & -> & _ & Hv & _).
    exists v, (Z.of_nat p + (1 + Z.of_nat (length tail))). rewrite next_drop. unfold str.
    rewrite drop_app_le, E, Hn by lia. split_and!; [done|lia| |done].
    apply (f_equal length) in E. rewrite length_drop in E. cbn in E. rewrite length_app in E. lia.
  - by apply unicode_length_eq.
  - by apply unicode_length0_eq.
  - unfold convert_to_unicode. rewrite Nat2Z.id, convert_ascii_eq.
    + destruct (convert_rest_safe (leads body) str 0 rest dst body 0) as (vs & Hl & Hvs & E);
        try done; [lia|].
      exists vs. split_and!; [|done..]. etransitivity; [apply E|].
      unfold splice. cbn. rewrite drop_ge by lia. by rewrite app_nil_r.
    + apply list.Forall_app. split; [by apply bytes_in_u|].
      by constructor.
Qed.

Lemma decoding_stays_in_string_witness :
  let str := [0xE2; 0x82; 0x41; 0xC3] ++ [0] in
  (exists v p', next str 3 = Some (v, p') /\ 3 < p' <= 4 /\ in_u 16 v) /\
  unicode_length str 4 = Some 3 /\ unicode_length0 str = Some 3 /\
  (exists vs, convert_to_unicode str [0; 0; 0] 3 = Some vs /\ length vs = 3%nat /\ Forall (in_u 16) vs).
Proof.
  apply (decoding_stays_in_string [0xE2; 0x82; 0x41; 0xC3] [] [0; 0; 0] 3); try done; [|cbn; lia].
  repeat constructor; unfold is_byte; lia.
Defined.

(** The code point of a surrogate pair. *)
Definition is_high_surrogate (v : Z) : bool := (0xD800 <=? v) && (v <? 0xDC00).
Definition is_low_surrogate (v : Z) : bool := (0xDC00 <=? v) && (v <? 0xE000).
Definition code_point (hi lo : Z) : Z := 0x10000 + (hi - 0xD800) * 0x400 + (lo - 0xDC00).

(** The two tests of a surrogate's bytes, as a range of the character they encode. *)
Lemma surrogate_bytes c d x :
  in_u 8 c -> in_u 8 d -> is_cont c = true -> is_cont d = true ->
  x = (13 * 64 + (c - 128)) * 64 + (d - 128) ->
  (Z.land c 0xF0 =? 0xA0) = is_high_surrogate x /\
  (Z.land c 0xF0 =? 0xB0) = is_low_surrogate x /\
  Z.land c 0x0f = (c - 128) mod 16 /\ Z.land d 0x3f = d - 128.
Proof.
  intros Hc Hd Hcc Hdc ->. unfold is_cont in *.
  change 0x0f with (Z.ones 4). change 0x3f with (Z.ones 6). rewrite !land_low by lia.
  pose proof (byte_forall (fun c => implb (is_cont c)
    (eqb (Z.land c 0xF0 =? 0xA0) ((160 <=? c) && (c <? 176)) &&
     eqb (Z.land c 0xF0 =? 0xB0) ((176 <=? c) && (c <? 192)) &&
     (c mod 16 =? (c - 128) mod 16))) c eq_refl Hc) as E.
  cbn beta in E. assert (is_cont c = true) as Hc' by (unfold is_cont; lia).
  rewrite Hc' in E. cbn [implb] in E. apply andb_prop in E as [[E1 E2]%andb_prop E3].
  apply eqb_prop in E1, E2. rewrite E1, E2. unfold is_high_surrogate, is_low_surrogate.
  split_and!; [lia..| |].
  - change (2 ^ 4) with 16. lia.
  - symmetry. apply (Zmod_unique _ _ 2); change (2 ^ 6) with 64; lia.
Qed.

Section Surrogates.
Context (body rest : list Z) (Hbody : Forall is_byte body).
Abbreviation str := (body ++ 0 :: rest).
Abbreviation len := (Z.of_nat (length body)).

Lemma byte_at q : 0 <= q <= len ->
  exists b, arr_get str q = Some b /\ in_u 8 b /\ (b <> 0 -> q + 1 <= len).
Proof using Hbody.
  intros Hq. destruct (decide (q = len)) as [->|Hne].
  - exists 0. split_and!; [|unfold in_u; lia..]. unfold arr_get. destruct (Z.leb_spec 0 len); [|lia].
    rewrite Nat2Z.id, lookup_app_r, Nat.sub_diag by lia. done.
  - destruct (arr_get_Some body q) as [b Hb]; [lia|]. exists b.
    rewrite arr_get_body by lia. split_and!; [done| |lia].
    by eapply is_byte_in_u, arr_get_Forall.
Qed.

(** A position where the three bytes of a character in [0xD000, 0xE000) start. *)
Definition three_bytes (q c d : Z) : Prop :=
  arr_get str q = Some 0xED /\ arr_get str (q + 1) = Some c /\ arr_get str (q + 2) = Some d /\
  in_u 8 c /\ in_u 8 d /\ is_cont c = true /\ is_cont d = true.

(** The bytes from [q] on, as far as they are looked at. *)
Lemma surrogate_or_not q : 0 <= q <= len ->
  (exists c d, three_bytes q c d /\ q + 3 <= len /\
     next str q = Some ((13 * 64 + (c - 128)) * 64 + (d - 128), q + 3)) \/
  (exists v q', next str q = Some (v, q') /\ is_high_surrogate v = false /\ is_low_surrogate v = false) /\
  (exists b, arr_get str q = Some b /\ in_u 8 b /\
     (b = 0xED -> exists c, arr_get str (q + 1) = Some c /\ in_u 8 c /\
       (is_cont c = true -> exists d, arr_get str (q + 2) = Some d /\ in_u 8 d /\ is_cont d = false))).
Proof using Hbody.
  intros Hq. destruct (byte_at q Hq) as (b & Hb & Hb8 & Hb1).
  assert (Hsmall : forall v, v < 0xD000 \/ 0xE000 <= v ->
            is_high_surrogate v = false /\ is_low_surrogate v = false)
    by (unfold is_high_surrogate, is_low_surrogate; lia).
  pose proof Hb8 as Hbr. unfold in_u in Hbr.
  destruct (decide (tail_bytes b = 0)) as [Ht|Ht].
  { right. split; [|exists b; split_and!; [done..|by intros ->]].
    exists b, (q + 1). split; [by apply next_0|]. apply Hsmall. lia. }
  assert (b <> 0) as Hne by (intros ->; done).
  destruct (byte_at (q + 1)) as (c & Hc & Hc8 & Hc1); [specialize (Hb1 Hne); lia|].
  destruct (decide (tail_bytes b = 1)) as [Ht1|Ht1].
  { right. split; [|exists b; split_and!; [done..|by intros ->]].
    assert (192 <= b < 224) by (unfold tail_bytes in Ht1; repeat case_match; lia).
    rewrite (next_1 _ q b c) by done. unfold in_u in Hc8.
    destruct (is_cont c) eqn:Hcc; eexists _, _; (split; [done|]); apply Hsmall;
      unfold is_cont in *; lia. }
  assert (tail_bytes b = 2 /\ 224 <= b < 240) as [Ht2 Hr]
    by (unfold tail_bytes in *; repeat case_match; lia).
  assert (exists d, in_u 8 d /\ (is_cont c = true -> arr_get str (q + 2) = Some d /\
            (d <> 0 -> q + 3 <= len))) as (d & Hd8 & Hd).
  { destruct (is_cont c) eqn:Hcc; [|by exists 0].
    assert (c <> 0) as Hcne by (intros ->; done).
    destruct (byte_at (q + 2)) as (d & Hd & Hd8 & Hd1); [specialize (Hc1 Hcne); lia|].
    exists d. split; [done|]. intros _. split; [done|]. intros Hdne. specialize (Hd1 Hdne). lia. }
  pose proof (next_2 str q b c d Hb8 Hc8 Hd8 Hb Hc (fun E => proj1 (Hd E)) Ht2) as Hnext.
  unfold in_u in Hc8, Hd8.
  destruct (is_cont c && is_cont d) eqn:Hcd.
  - apply andb_prop in Hcd as [Hcc Hdc]. destruct (Hd Hcc) as [Hd2 Hd3].
    destruct (decide (b = 0xED)) as [->|Hned].
    + left. exists c, d. split_and!; try done. apply Hd3. by intros ->.
    + right. split; [|exists b; by split_and!].
      eexists _, _. split; [done|]. apply Hsmall. unfold is_cont in *. lia.
  - right. split.
    + eexists _, _. split; [done|]. apply Hsmall. lia.
    + exists b. split_and!; [done..|]. intros _. exists c. split_and!; [done..|].
      intros Hcc. exists d. rewrite Hcc in Hcd. cbn in Hcd. destruct (Hd Hcc). by split_and!.
Qed.

Lemma not_surrogate_pair q : 0 <= q <= len ->
  (forall c d, ~ three_bytes q c d) -> is_supplementary_character str q = Some false.
Proof using Hbody.
  intros Hq Hno. destruct (surrogate_or_not q Hq) as [(c & d & Ht & _)|[_ (b & Hb & Hb8 & HED)]].
  { by destruct (Hno c d). }
  unfold is_supplementary_character. rewrite Hb. cbn [mbind option_bind].
  change 0xFF with (Z.ones 8). rewrite land_low, Z.mod_small by (unfold in_u in *; lia).
  destruct (Z.eqb_spec b 0xED) as [->|]; [|done]. cbn [negb].
  destruct HED as (c & Hc & Hc8 & Hcd); [done|]. rewrite Hc. cbn [mbind option_bind].
  destruct (Z.land c 0xF0 =? 0xA0) eqn:E; [|done]. cbn [negb].
  destruct Hcd as (d & Hd & Hd8 & Hdc).
  { pose proof (byte_forall (fun c => implb (Z.land c 0xF0 =? 0xA0) (is_cont c)) c eq_refl Hc8) as Hi.
    cbn beta in Hi. by rewrite E in Hi. }
  rewrite Hd. cbn [mbind option_bind]. by rewrite cont_test, Hdc.
Qed.

(** [next_character] reads a supplementary character exactly when [next] would
    read a high surrogate followed by a low one, its value is the code point of the
    pair, and otherwise it reads what [next] reads; on a terminated string it looks at
    no byte behind the terminator. *)
Theorem next_character_spec (p : Z) :
  0 <= p < len ->
  next_character str p =
  ('(hi, p1) ← next str p;
   if is_high_surrogate hi then
     '(lo, p2) ← next str p1;
     Some (if is_low_surrogate lo then (code_point hi lo, p2) else (hi, p1))
   else Some (hi, p1)).
Proof using Hbody.
  intros Hp. unfold next_character.
  destruct (surrogate_or_not p ltac:(lia)) as [(c & d & Ht & Hlen & Hnext)|[(v & q' & Hnext & Hhi & _) Hno]].
  2: { rewrite not_surrogate_pair; [|lia|].
       - cbn [mbind option_bind]. by rewrite Hnext; cbn [mbind option_bind]; rewrite Hhi.
       - destruct Hno as (b & Hb & _ & HED). intros c d (E0 & E1 & E2 & _ & _ & Hcc & Hdc).
         destruct HED as (c' & E1' & _ & Hcd); [congruence|].
         destruct Hcd as (d' & E2' & _ & Hd'); congruence. }
  destruct Ht as (E0 & E1 & E2 & Hc8 & Hd8 & Hcc & Hdc).
  destruct (surrogate_bytes c d _ Hc8 Hd8 Hcc Hdc eq_refl) as (Thi & _ & Vc & Vd).
  rewrite Hnext. cbn [mbind option_bind]. rewrite <- Thi.
  unfold is_supplementary_character. rewrite E0, E1, E2. cbn [mbind option_bind].
  change (Z.land 0xED 0xFF =? 0xED) with true. cbn [negb].
  destruct (Z.land c 0xF0 =? 0xA0) eqn:Ehi; cbn [negb mbind option_bind]; [|done].
  rewrite cont_test, Hdc by done. cbn [negb].
  destruct (surrogate_or_not (p + 3) ltac:(lia))
    as [(e & f & (F0 & F1 & F2 & He8 & Hf8 & Hec & Hfc) & _ & Hnext')|[(v & q' & Hnext' & _ & Hlo) Hno]].
  - destruct (surrogate_bytes e f _ He8 Hf8 Hec Hfc eq_refl) as (_ & Tlo & Ve & Vf).
    rewrite F0. cbn [mbind option_bind].
    change (Z.land 0xED 0xFF =? 0xED) with true. cbn [negb].
    replace (p + 4) with (p + 3 + 1) by lia. replace (p + 5) with (p + 3 + 2) by lia.
    rewrite F1, Hnext'. cbn [mbind option_bind]. rewrite <- Tlo.
    destruct (Z.land e 0xF0 =? 0xB0) eqn:Elo; cbn [negb mbind option_bind]; [|done].
    rewrite F2. cbn [mbind option_bind]. rewrite cont_test, Hfc by done.
    unfold get_supplementary_character.
    replace (p + 4) with (p + 3 + 1) by lia. replace (p + 5) with (p + 3 + 2) by lia.
    rewrite E1, E2, F1, F2. cbn [mbind option_bind]. rewrite Vc, Vd, Ve, Vf.
    symmetry in Thi, Tlo. unfold is_high_surrogate, is_low_surrogate in Thi, Tlo.
    unfold in_u, is_cont in *. rewrite !Z.shiftl_mul_pow2 by lia.
    rewrite <- (Zmod_unique (c - 128) 16 2 (c - 160)), <- (Zmod_unique (e - 128) 16 3 (e - 176))
      by lia.
    unfold code_point. rewrite swrap_small by (unfold in_s; lia).
    do 2 f_equal; [|lia]. lia.
  - destruct Hno as (b & F0 & Hb8 & HED). rewrite F0, Hnext'. cbn [mbind option_bind]. rewrite Hlo.
    change 0xFF with (Z.ones 8). rewrite land_low, Z.mod_small by (unfold in_u in *; lia).
    destruct (Z.eqb_spec b 0xED) as [->|]; [|done]. cbn [negb].
    destruct HED as (e & F1 & He8 & Hcd); [done|].
    replace (p + 4) with (p + 3 + 1) by lia. replace (p + 5) with (p + 3 + 2) by lia.
    rewrite F1. cbn [mbind option_bind].
    destruct (Z.land e 0xF0 =? 0xB0) eqn:E; [|done]. cbn [negb].
    destruct Hcd as (f & F2 & Hf8 & Hfc).
    { pose proof (byte_forall (fun c => implb (Z.land c 0xF0 =? 0xB0) (is_cont c)) e eq_refl He8) as Hi.
      cbn beta in Hi. by rewrite E in Hi. }
    rewrite F2. cbn [mbind option_bind]. by rewrite cont_test, Hfc.
Qed.
End Surrogates.

Lemma next_character_spec_witness :
  let str := [0xED; 0xA0; 0xB4; 0xED; 0xB4; 0x9E] ++ [0] in
  next_character str 0 =
  ('(hi, p1) ← next str 0;
   if is_high_surrogate hi then
     '(lo, p2) ← next str p1;
     Some (if is_low_surrogate lo then (code_point hi lo, p2) else (hi, p1))
   else Some (hi, p1)).
Proof.
  apply (next_character_spec [0xED; 0xA0; 0xB4; 0xED; 0xB4; 0x9E] []); [|cbn; lia].
  repeat constructor; unfold is_byte; lia.
Defined.
