(* ===== verification/TypeLattice.v ===== *)
(** * TypeLattice: the type lattice of the optimizing compiler, opto/type.hpp and type.cpp

    The simple types, the constants of floating point and the integer ranges with their
    widening counts.  A float or double constant is its bit pattern.  Types are hash
    consed, so the pointer comparisons of the code are equality of these values.  A
    pointer, tuple, array or function type is an opaque [TBase]: the operations of those
    classes are not modelled, and dispatching to one of them, like the [ShouldNotReachHere]
    of [typerr], is [None]. *)

From S2P Require Import Prelude GlobalDefs.

(* ------------------------------------------------------------------ *)
(** ** The data *)

Inductive TYPES :=
  | Bad | Control | Top | Int | Long | Half | NarrowOop
  | Tuple | Array
  | AnyPtr | RawPtr | OopPtr | InstPtr | AryPtr | KlassPtr
  | Function | Abio | Return_Address | Memory
  | FloatTop | FloatCon | FloatBot | DoubleTop | DoubleCon | DoubleBot
  | Bottom.

#[export] Instance TYPES_eq_dec : EqDecision TYPES.
Proof. solve_decision. Defined.

Definition WidenMin : Z := 0.
Definition WidenMax : Z := 3.

(** [Type], [TypeInt], [TypeLong], [TypeF] and [TypeD]. *)
Inductive Type_ :=
  | TBase (b : TYPES)
  | TInt (lo hi widen : Z)
  | TLong (lo hi widen : Z)
  | TF (f : Z)
  | TD (d : Z).

#[export] Instance Type_eq_dec : EqDecision Type_.
Proof. solve_decision. Defined.

Definition base (t : Type_) : TYPES :=
  match t with
  | TBase b => b | TInt _ _ _ => Int | TLong _ _ _ => Long | TF _ => FloatCon | TD _ => DoubleCon
  end.

Definition TOP : Type_ := TBase Top.
Definition BOTTOM : Type_ := TBase Bottom.
Definition FLOAT : Type_ := TBase FloatBot.
Definition DOUBLE : Type_ := TBase DoubleBot.

Definition min_jint : Z := - 2 ^ 31.
Definition max_jint : Z := 2 ^ 31 - 1.
Definition max_juint : Z := 2 ^ 32 - 1.
Definition min_jlong : Z := - 2 ^ 63.
Definition max_jlong : Z := 2 ^ 63 - 1.
Definition max_julong : Z := 2 ^ 64 - 1.
Definition SMALLINT : Z := 3.

(* ------------------------------------------------------------------ *)
(** ** Making ranges *)

Definition TypeInt_con (lo : Z) : Type_ := TInt lo lo WidenMin.

Definition TypeInt_make (lo hi w : Z) : Type_ :=
  let w := if lo <=? hi then
             let w := if u32 (hi - lo) <=? SMALLINT then WidenMin else w in
             if max_juint <=? u32 (hi - lo) then WidenMax else w
           else w in
  TInt lo hi w.

Definition TypeLong_con (lo : Z) : Type_ := TLong lo lo WidenMin.

Definition TypeLong_make (lo hi w : Z) : Type_ :=
  let w := if lo <=? hi then
             let w := if u64 (hi - lo) <=? SMALLINT then WidenMin else w in
             if max_julong <=? u64 (hi - lo) then WidenMax else w
           else w in
  TLong lo hi w.

(** The types [Initialize_shared] builds, after the normalization of [make]. *)
Definition INT : Type_ := TypeInt_make min_jint max_jint WidenMax.
Definition LONG : Type_ := TypeLong_make min_jlong max_jlong WidenMax.
Definition INT_ZERO : Type_ := TypeInt_con 0.
Definition INT_ONE : Type_ := TypeInt_con 1.
Definition INT_MINUS_1 : Type_ := TypeInt_con (-1).
Definition INT_BOOL : Type_ := TypeInt_make 0 1 WidenMin.
Definition CC : Type_ := TypeInt_make (-1) 1 WidenMin.
Definition CC_LT : Type_ := TypeInt_make (-1) (-1) WidenMin.
Definition CC_GT : Type_ := TypeInt_make 1 1 WidenMin.
Definition CC_EQ : Type_ := TypeInt_make 0 0 WidenMin.
Definition CC_LE : Type_ := TypeInt_make (-1) 0 WidenMin.
Definition CC_GE : Type_ := TypeInt_make 0 1 WidenMin.
Definition LONG_ZERO : Type_ := TypeLong_con 0.
Definition LONG_ONE : Type_ := TypeLong_con 1.

(* ------------------------------------------------------------------ *)
(** ** Meet *)

Definition TypeInt_xmeet (lo hi w : Z) (t : Type_) : option Type_ :=
  let this := TInt lo hi w in
  if bool_decide (this = t) then Some this
  else
    match base t with
    | AnyPtr | RawPtr | OopPtr | InstPtr | KlassPtr | AryPtr | NarrowOop | Long
    | FloatTop | FloatCon | FloatBot | DoubleTop | DoubleCon | DoubleBot | Bottom => Some BOTTOM
    | Top => Some this
    | Int =>
        match t with
        | TInt rlo rhi rw => Some (TInt (MIN2 lo rlo) (MAX2 hi rhi) (MAX2 w rw))
        | _ => None
        end
    | _ => None
    end.

Definition TypeLong_xmeet (lo hi w : Z) (t : Type_) : option Type_ :=
  let this := TLong lo hi w in
  if bool_decide (this = t) then Some this
  else
    match base t with
    | AnyPtr | RawPtr | OopPtr | InstPtr | KlassPtr | AryPtr | NarrowOop | Int
    | FloatTop | FloatCon | FloatBot | DoubleTop | DoubleCon | DoubleBot | Bottom => Some BOTTOM
    | Top => Some this
    | Long =>
        match t with
        | TLong rlo rhi rw => Some (TLong (MIN2 lo rlo) (MAX2 hi rhi) (MAX2 w rw))
        | _ => None
        end
    | _ => None
    end.

Definition TypeF_xmeet (f : Z) (t : Type_) : option Type_ :=
  let this := TF f in
  if bool_decide (this = t) then Some this
  else
    match base t with
    | AnyPtr | RawPtr | OopPtr | InstPtr | KlassPtr | AryPtr | NarrowOop | Int | Long
    | DoubleTop | DoubleCon | DoubleBot | Bottom => Some BOTTOM
    | FloatBot => Some t
    | FloatCon =>
        match t with
        | TF f' => if negb (f =? f') then Some FLOAT else Some this
        | _ => None
        end
    | Top | FloatTop => Some this
    | _ => None
    end.

Definition TypeD_xmeet (d : Z) (t : Type_) : option Type_ :=
  let this := TD d in
  if bool_decide (this = t) then Some this
  else
    match base t with
    | AnyPtr | RawPtr | OopPtr | InstPtr | KlassPtr | AryPtr | NarrowOop | Int | Long
    | FloatTop | FloatCon | FloatBot | Bottom => Some BOTTOM
    | DoubleBot => Some t
    | DoubleCon =>
        match t with
        | TD d' => if negb (d =? d') then Some DOUBLE else Some this
        | _ => None
        end
    | Top | DoubleTop => Some this
    | _ => None
    end.

(** [xmeet] of the classes with a range or a constant. *)
Definition xmeet_virtual (this t : Type_) : option Type_ :=
  match this with
  | TInt lo hi w => TypeInt_xmeet lo hi w t
  | TLong lo hi w => TypeLong_xmeet lo hi w t
  | TF f => TypeF_xmeet f t
  | TD d => TypeD_xmeet d t
  | TBase _ => None
  end.

(** [Type::xmeet]; [b] is the base of [this]. *)
Definition Type_xmeet (b : TYPES) (t : Type_) : option Type_ :=
  let this := TBase b in
  let isb (c : TYPES) := bool_decide (b = c) in
  if bool_decide (this = t) then Some this
  else if isb Top then Some t
  else if isb Bottom then Some BOTTOM
  else
    match base t with
    | FloatCon | DoubleCon | Int | Long => xmeet_virtual t this
    | OopPtr | InstPtr | KlassPtr | AryPtr | NarrowOop => xmeet_virtual t this
    | Bottom => Some t
    | FloatTop =>
        if isb FloatTop then Some this
        else if isb FloatBot || isb FloatTop then Some FLOAT
        else if isb DoubleTop || isb DoubleBot then Some BOTTOM else None
    | FloatBot =>
        if isb FloatBot || isb FloatTop then Some FLOAT
        else if isb DoubleTop || isb DoubleBot then Some BOTTOM else None
    | DoubleTop =>
        if isb DoubleTop then Some this
        else if isb DoubleBot || isb DoubleTop then Some DOUBLE
        else if isb FloatTop || isb FloatBot then Some BOTTOM else None
    | DoubleBot =>
        if isb DoubleBot || isb DoubleTop then Some DOUBLE
        else if isb FloatTop || isb FloatBot then Some BOTTOM else None
    | Control | Abio | Memory => if bool_decide (b = base t) then Some this else None
    | Top => Some this
    | _ => None
    end.

Definition xmeet (this t : Type_) : option Type_ :=
  match this with
  | TBase b => Type_xmeet b t
  | _ => xmeet_virtual this t
  end.

(** The narrow oops [meet] treats specially are among the types not modelled. *)
Definition meet (this t : Type_) : option Type_ :=
  if bool_decide (base this = NarrowOop) && bool_decide (base t = NarrowOop) then None
  else xmeet this t.

(* ------------------------------------------------------------------ *)
(** ** Dual and join *)

Definition dual_type (b : TYPES) : TYPES :=
  match b with
  | Control => Control | Top => Bottom | Half => Half
  | Abio => Abio | Return_Address => Return_Address | Memory => Memory
  | FloatTop => FloatBot | FloatCon => FloatCon | FloatBot => FloatTop
  | DoubleTop => DoubleBot | DoubleCon => DoubleCon | DoubleBot => DoubleTop
  | Bottom => Top
  | _ => Bad
  end.

Definition xdual (t : Type_) : option Type_ :=
  match t with
  | TBase b => if bool_decide (dual_type b = Bad) then None else Some (TBase (dual_type b))
  | TInt lo hi w => Some (TInt hi lo (WidenMax - w))
  | TLong lo hi w => Some (TLong hi lo (WidenMax - w))
  | TF f => Some (TF f)
  | TD d => Some (TD d)
  end.

Definition join (this t : Type_) : option Type_ :=
  d ← xdual this; e ← xdual t; m ← meet d e; xdual m.

Definition higher_equal (this t : Type_) : option bool :=
  m ← meet this t; Some (bool_decide (m = t)).

(** [ShouldNotReachHere] for the bases that are never asked. *)
Definition empty (t : Type_) : option bool :=
  match t with
  | TInt lo hi _ => Some (hi <? lo)
  | TLong lo hi _ => Some (hi <? lo)
  | TF _ | TD _ => Some false
  | TBase (DoubleTop | FloatTop | Top) => Some true
  | TBase (Half | Abio | Return_Address | Memory | Bottom | FloatBot | DoubleBot) => Some false
  | TBase _ => None
  end.

Definition singleton (t : Type_) : bool :=
  match t with
  | TInt lo hi _ => hi <=? lo
  | TLong lo hi _ => hi <=? lo
  | TF _ | TD _ => true
  | TBase b => bool_decide (b = Top) || bool_decide (b = Half)
  end.

Definition type_filter (this kills : Type_) : option Type_ :=
  ft ← join this kills;
  match this, ft with
  | TInt _ _ w, TInt flo fhi fw =>
      if fhi <? flo then Some TOP
      else if fw <? w then Some (TypeInt_make flo fhi w) else Some ft
  | TInt _ _ _, _ => Some TOP
  | TLong _ _ w, TLong flo fhi fw =>
      if fhi <? flo then Some TOP
      else if fw <? w then Some (TypeLong_make flo fhi w) else Some ft
  | TLong _ _ _, _ => Some TOP
  | _, _ => e ← empty ft; Some (if (e : bool) then TOP else ft)
  end.

(* ------------------------------------------------------------------ *)
(** ** Widening and narrowing *)

Definition TypeInt_widen (lo hi w : Z) (old limit : Type_) : Type_ :=
  let this := TInt lo hi w in
  match old with
  | TInt olo ohi ow =>
      if (lo =? olo) && (hi =? ohi) then old
      else if (lo <=? olo) && (ohi <=? hi) then
        if ow <? w then this
        else if olo =? ohi then this
        else if w =? WidenMax then
          let '(max, min) :=
            match limit with TInt llo lhi _ => (lhi, llo) | _ => (max_jint, min_jint) end in
          if (min <? lo) && (hi <? max) then
            if (0 <=? lo) || (u32 (max - hi) <=? u32 (lo - min)) then TypeInt_make lo max WidenMax
            else TypeInt_make min hi WidenMax
          else INT
        else TypeInt_make lo hi (w + 1)
      else if (olo <=? lo) && (hi <=? ohi) then old
      else INT
  | _ => this
  end.

Definition TypeLong_widen (lo hi w : Z) (old limit : Type_) : Type_ :=
  let this := TLong lo hi w in
  match old with
  | TLong olo ohi ow =>
      if (lo =? olo) && (hi =? ohi) then old
      else if (lo <=? olo) && (ohi <=? hi) then
        if ow <? w then this
        else if olo =? ohi then this
        else if w =? WidenMax then
          let '(max, min) :=
            match limit with TLong llo lhi _ => (lhi, llo) | _ => (max_jlong, min_jlong) end in
          if (min <? lo) && (hi <? max) then
            if (0 <=? lo) || (u64 (max - hi) <=? u64 (lo - min)) then
              if (max_juint <=? max) && (hi <? max_juint) then TypeLong_make lo max_juint WidenMax
              else TypeLong_make lo max WidenMax
            else TypeLong_make min hi WidenMax
          else LONG
        else TypeLong_make lo hi (w + 1)
      else if (olo <=? lo) && (hi <=? ohi) then old
      else LONG
  | _ => this
  end.

Definition widen (this old limit : Type_) : Type_ :=
  match this with
  | TInt lo hi w => TypeInt_widen lo hi w old limit
  | TLong lo hi w => TypeLong_widen lo hi w old limit
  | _ => this
  end.

Definition TypeInt_narrow (lo hi w : Z) (old : option Type_) : Type_ :=
  let this := TInt lo hi w in
  if hi <=? lo then this
  else
    match old with
    | Some (TInt olo ohi ow) =>
        if (lo =? olo) && (hi =? ohi) then TInt olo ohi ow
        else if (olo =? min_jint) && (ohi =? max_jint) then this
        else if (lo <? olo) || (ohi <? hi) then this
        else
          let nrange := u32 (hi - lo) in
          let orange := u32 (ohi - olo) in
          if (nrange <? max_juint - 1) && (Z.shiftr orange 1 + SMALLINT * 2 <? nrange)
          then TInt olo ohi ow else this
    | _ => this
    end.

Definition TypeLong_narrow (lo hi w : Z) (old : option Type_) : Type_ :=
  let this := TLong lo hi w in
  if hi <=? lo then this
  else
    match old with
    | Some (TLong olo ohi ow) =>
        if (lo =? olo) && (hi =? ohi) then TLong olo ohi ow
        else if (olo =? min_jlong) && (ohi =? max_jlong) then this
        else if (lo <? olo) || (ohi <? hi) then this
        else
          let nrange := u64 (hi - lo) in
          let orange := u64 (ohi - olo) in
          if (nrange <? max_julong - 1) && (Z.shiftr orange 1 + SMALLINT * 2 <? nrange)
          then TLong olo ohi ow else this
    | _ => this
    end.

Definition narrow (this : Type_) (old : option Type_) : Type_ :=
  match this with
  | TInt lo hi w => TypeInt_narrow lo hi w old
  | TLong lo hi w => TypeLong_narrow lo hi w old
  | _ => this
  end.

(* ------------------------------------------------------------------ *)
(** * What the types mean *)

(** The values of the Java types the lattice describes. *)
Inductive jval := VInt (v : Z) | VLong (v : Z) | VFloat (bits : Z) | VDouble (bits : Z).

(** The values a type stands for. *)
Definition gamma (t : Type_) (v : jval) : Prop :=
  match t, v with
  | TBase Bottom, _ => True
  | TInt lo hi _, VInt v => lo <= v <= hi
  | TLong lo hi _, VLong v => lo <= v <= hi
  | TF f, VFloat f' => f' = f
  | TD d, VDouble d' => d' = d
  | TBase FloatBot, VFloat _ => True
  | TBase DoubleBot, VDouble _ => True
  | _, _ => False
  end.

(** The types of data: the part of the lattice between [Top] and [Bottom]. *)
Definition data (t : Type_) : bool :=
  match t with
  | TBase (Top | Bottom | FloatTop | FloatBot | DoubleTop | DoubleBot) => true
  | TBase _ => false
  | _ => true
  end.

(** Its meet, without the dispatch. *)
Definition data_meet (a b : Type_) : Type_ :=
  match a, b with
  | TBase Top, t | t, TBase Top => t
  | TInt lo hi w, TInt lo' hi' w' => TInt (Z.min lo lo') (Z.max hi hi') (Z.max w w')
  | TLong lo hi w, TLong lo' hi' w' => TLong (Z.min lo lo') (Z.max hi hi') (Z.max w w')
  | TBase FloatTop, TBase FloatTop => TBase FloatTop
  | TBase FloatTop, TF f | TF f, TBase FloatTop => TF f
  | TF f, TF f' => if f =? f' then TF f else FLOAT
  | TBase FloatBot, (TBase (FloatTop | FloatBot) | TF _)
  | (TBase FloatTop | TF _), TBase FloatBot => FLOAT
  | TBase DoubleTop, TBase DoubleTop => TBase DoubleTop
  | TBase DoubleTop, TD d | TD d, TBase DoubleTop => TD d
  | TD d, TD d' => if d =? d' then TD d else DOUBLE
  | TBase DoubleBot, (TBase (DoubleTop | DoubleBot) | TD _)
  | (TBase DoubleTop | TD _), TBase DoubleBot => DOUBLE
  | _, _ => BOTTOM
  end.

Definition data_dual (t : Type_) : Type_ :=
  match t with
  | TBase b => TBase (dual_type b)
  | TInt lo hi w => TInt hi lo (WidenMax - w)
  | TLong lo hi w => TLong hi lo (WidenMax - w)
  | _ => t
  end.

Lemma MIN2_min a b : MIN2 a b = Z.min a b.
Proof. unfold MIN2. destruct (Z.ltb_spec a b); lia. Qed.

Lemma MAX2_max a b : MAX2 a b = Z.max a b.
Proof. unfold MAX2. destruct (Z.ltb_spec b a); lia. Qed.

(** Destruct the types of data of the context. *)
Ltac data_cases :=
  repeat match goal with
  | H : data ?t = true |- _ =>
      destruct t as [[]| | | |]; try discriminate H; clear H
  end.

Lemma data_meet_closed a b : data a = true -> data b = true -> data (data_meet a b) = true.
Proof. intros. data_cases; cbn; try done; by case_match. Qed.

Lemma data_dual_closed a : data a = true -> data (data_dual a) = true.
Proof. intros. by data_cases. Qed.

Lemma meet_xmeet a b : data a = true -> meet a b = xmeet a b.
Proof. intros. unfold meet. by data_cases. Qed.

Lemma meet_data a b : data a = true -> data b = true -> meet a b = Some (data_meet a b).
Proof.
  intros. rewrite meet_xmeet by done. data_cases; try reflexivity;
    unfold xmeet, xmeet_virtual, TypeInt_xmeet, TypeLong_xmeet, TypeF_xmeet, TypeD_xmeet;
    cbn; rewrite ?MIN2_min, ?MAX2_max; case_bool_decide; simplify_eq; try done;
    rewrite ?Z.min_id, ?Z.max_id, ?Z.eqb_refl; try done;
    by match goal with |- context [?x =? ?y] => destruct (x =? y) end.
Qed.

Lemma xdual_data a : data a = true -> xdual a = Some (data_dual a).
Proof. intros. by data_cases. Qed.

Lemma join_data a b :
  data a = true -> data b = true ->
  join a b = Some (data_dual (data_meet (data_dual a) (data_dual b))).
Proof.
  intros Ha Hb. unfold join.
  rewrite !xdual_data by done. cbn [mbind option_bind].
  rewrite meet_data by auto using data_dual_closed. cbn [mbind option_bind].
  by rewrite xdual_data by auto using data_meet_closed, data_dual_closed.
Qed.

Lemma data_meet_comm a b : data a = true -> data b = true -> data_meet a b = data_meet b a.
Proof.
  intros. data_cases; cbn; try done; rewrite ?(Z.min_comm lo0), ?(Z.max_comm hi0), ?(Z.max_comm widen1);
    try done; rewrite Z.eqb_sym; case_match; zreflect; congruence.
Qed.

Lemma data_meet_assoc a b c :
  data a = true -> data b = true -> data c = true ->
  data_meet (data_meet a b) c = data_meet a (data_meet b c).
Proof.
  intros. unfold data_meet, FLOAT, DOUBLE, BOTTOM.
  data_cases; rewrite ?Z.min_assoc, ?Z.max_assoc; try done;
    repeat match goal with |- context [?x =? ?y] => destruct (Z.eqb_spec x y) end; congruence.
Qed.

Lemma data_dual_involutive a : data a = true -> data_dual (data_dual a) = a.
Proof. intros. data_cases; cbn; try done; f_equal; lia. Qed.

(** The two identities [Type::meet] asserts of every meet it computes. *)
Lemma data_meet_symmetric a b :
  data a = true -> data b = true ->
  data_meet (data_dual (data_meet a b)) (data_dual a) = data_dual a.
Proof.
  intros. unfold data_meet, FLOAT, DOUBLE, BOTTOM.
  data_cases; try reflexivity; cbn;
    repeat (cbn; rewrite ?Z.eqb_refl;
            match goal with |- context [?x =? ?y] => destruct (x =? y) end);
    cbn; rewrite ?Z.eqb_refl; try done; f_equal; lia.
Qed.

Lemma data_meet_idem a : data a = true -> data_meet a a = a.
Proof. intros. data_cases; cbn; rewrite ?Z.min_id, ?Z.max_id, ?Z.eqb_refl; done. Qed.

(** The types of data form a symmetric lattice: [meet] is total on them,
    commutative, associative and idempotent, with [TOP] neutral and [BOTTOM] absorbing;
    the dual is an involution; and a meet satisfies the symmetry identities the code
    asserts of it (the dual of the meet, met with the dual of an argument, is that dual). *)
Theorem data_lattice (a b c : Type_) :
  data a = true -> data b = true -> data c = true ->
  exists m, meet a b = Some m /\ meet b a = Some m /\ data m = true /\
    meet m c = (n ← meet b c; meet a n) /\
    meet a a = Some a /\ meet TOP a = Some a /\ meet BOTTOM a = Some BOTTOM /\
    (d ← xdual a; xdual d) = Some a /\
    (dm ← xdual m; da ← xdual a; meet dm da) = xdual a /\
    (dm ← xdual m; db ← xdual b; meet dm db) = xdual b.
Proof.
  intros Ha Hb Hc. exists (data_meet a b).
  pose proof (data_meet_closed a b Ha Hb). pose proof (data_meet_closed b c Hb Hc).
  rewrite (meet_data b c) by done. cbn [mbind option_bind].
  rewrite !meet_data by done. rewrite !xdual_data by done. cbn [mbind option_bind].
  rewrite !xdual_data, !meet_data by auto using data_dual_closed.
  rewrite data_meet_assoc, data_meet_idem, data_dual_involutive, data_meet_symmetric by done.
  rewrite (data_meet_comm b a) by done.
  assert (data_meet (data_dual (data_meet a b)) (data_dual b) = data_dual b) as ->
    by (rewrite (data_meet_comm a b) by done; by apply data_meet_symmetric).
  split_and!; try done. by destruct a as [[]| | | |].
Qed.

Lemma data_lattice_witness :
  exists m, meet (TInt 0 5 1) (TF 7) = Some m /\ meet (TF 7) (TInt 0 5 1) = Some m /\ data m = true /\
    meet m TOP = (n ← meet (TF 7) TOP; meet (TInt 0 5 1) n) /\
    meet (TInt 0 5 1) (TInt 0 5 1) = Some (TInt 0 5 1) /\ meet TOP (TInt 0 5 1) = Some (TInt 0 5 1) /\
    meet BOTTOM (TInt 0 5 1) = Some BOTTOM /\
    (d ← xdual (TInt 0 5 1); xdual d) = Some (TInt 0 5 1) /\
    (dm ← xdual m; da ← xdual (TInt 0 5 1); meet dm da) = xdual (TInt 0 5 1) /\
    (dm ← xdual m; db ← xdual (TF 7); meet dm db) = xdual (TF 7).
Proof. by apply (data_lattice (TInt 0 5 1) (TF 7) TOP). Defined.

(** A meet covers both of its arguments. *)
Lemma data_meet_sound a b :
  data a = true -> data b = true -> forall v, gamma a v \/ gamma b v -> gamma (data_meet a b) v.
Proof.
  intros Ha Hb v. unfold data_meet, FLOAT, DOUBLE, BOTTOM.
  data_cases; destruct v; cbn; try tauto; try lia;
    (destruct (Z.eqb_spec f0 f) || destruct (Z.eqb_spec d0 d)); cbn; try tauto; intuition congruence.
Qed.

(** [higher_equal] decides, on data, and implies inclusion. *)
Lemma higher_equal_sound a b :
  data a = true -> data b = true ->
  exists h, higher_equal a b = Some h /\ (h = true -> forall v, gamma a v -> gamma b v).
Proof.
  intros Ha Hb. exists (bool_decide (data_meet a b = b)). unfold higher_equal.
  rewrite meet_data by done. split; [done|]. intros Heq v Hv.
  apply bool_decide_eq_true in Heq. rewrite <- Heq. apply data_meet_sound; auto.
Qed.

Lemma gamma_TInt_empty lo hi w : (forall v, ~ gamma (TInt lo hi w) v) <-> hi < lo.
Proof.
  split; [|intros ? []; cbn; lia]. intros Hn.
  destruct (Z.ltb_spec hi lo); [done|]. destruct (Hn (VInt lo)). cbn. lia.
Qed.

Lemma gamma_TLong_empty lo hi w : (forall v, ~ gamma (TLong lo hi w) v) <-> hi < lo.
Proof.
  split; [|intros ? []; cbn; lia]. intros Hn.
  destruct (Z.ltb_spec hi lo); [done|]. destruct (Hn (VLong lo)). cbn. lia.
Qed.

Lemma gamma_base_empty b :
  (forall v, ~ gamma (TBase b) v) \/ gamma (TBase b) (VFloat 0) \/ gamma (TBase b) (VDouble 0).
Proof. destruct b; cbn; try (by left; intros []); auto. Qed.

Lemma empty_spec t :
  data t = true -> exists e, empty t = Some e /\ (e = true <-> forall v, ~ gamma t v).
Proof.
  intros. data_cases; eexists; (split; [reflexivity|]);
    rewrite ?gamma_TInt_empty, ?gamma_TLong_empty, ?Z.ltb_lt; try done.
  all: split; [try done|]; try (by intros _ []); intros Hn.
  all: first [done | by intros [] [] | destruct (Hn (VFloat 0)); done | destruct (Hn (VDouble 0)); done
             | destruct (Hn (VFloat f)); done | destruct (Hn (VDouble d)); done].
Qed.

(** What [filter] may return for [j]: [j], up to the widening count, or [TOP] for an
    empty [j]. *)
Definition filtered (j f : Type_) : Prop :=
  (forall v, gamma f v <-> gamma j v) /\ ((forall v, ~ gamma f v) -> f = TOP).

Lemma filtered_top j : (forall v, ~ gamma j v) -> filtered j TOP.
Proof. intros Hn. split; [|done]. intros v. specialize (Hn v). cbn. tauto. Qed.

Lemma filtered_same j f :
  (forall v, gamma f v <-> gamma j v) -> ~ (forall v, ~ gamma j v) -> filtered j f.
Proof. intros Hf Hn. split; [done|]. intros He. destruct Hn. intros v. rewrite <- Hf. apply He. Qed.

Lemma not_int_empty lo hi w j :
  data j = true -> (forall v, gamma j v -> gamma (TInt lo hi w) v) ->
  match j with TInt _ _ _ => True | _ => forall v, ~ gamma j v end.
Proof.
  intros Hj Hsub. data_cases; try done; intros v Hv; apply Hsub in Hv as Hv'; destruct v; try done;
    first [by apply (Hsub (VFloat 0)) | by apply (Hsub (VDouble 0))].
Qed.

Lemma not_long_empty lo hi w j :
  data j = true -> (forall v, gamma j v -> gamma (TLong lo hi w) v) ->
  match j with TLong _ _ _ => True | _ => forall v, ~ gamma j v end.
Proof.
  intros Hj Hsub. data_cases; try done; intros v Hv; apply Hsub in Hv as Hv'; destruct v; try done;
    first [by apply (Hsub (VFloat 0)) | by apply (Hsub (VDouble 0))].
Qed.

Lemma type_filter_spec a b j :
  join a b = Some j -> data a = true -> data j = true ->
  (forall v, gamma j v -> gamma a v) ->
  exists f, type_filter a b = Some f /\ filtered j f.
Proof.
  intros E Ha Hj Hsub. unfold type_filter. rewrite E. cbn [mbind option_bind].
  destruct (empty_spec j Hj) as (e & Ee & He).
  assert (Hother : exists f, (e0 ← empty j; Some (if (e0 : bool) then TOP else j)) = Some f /\
            filtered j f).
  { rewrite Ee. cbn [mbind option_bind]. destruct e; eexists; (split; [done|]).
    - apply filtered_top. by apply He.
    - apply filtered_same; [done|]. intros Hn. by apply He in Hn. }
  destruct a as [b0|lo hi w|lo hi w|f|d]; try exact Hother.
  - pose proof (not_int_empty _ _ _ _ Hj Hsub) as Hn.
    destruct j as [|jlo jhi jw| | |]; try (exists TOP; split; [done|by apply filtered_top]).
    destruct (Z.ltb_spec jhi jlo).
    + exists TOP. split; [done|]. by apply filtered_top, gamma_TInt_empty.
    + assert (~ (forall v, ~ gamma (TInt jlo jhi jw) v)) by (rewrite gamma_TInt_empty; lia).
      destruct (jw <? w); eexists; (split; [done|]); by apply filtered_same.
  - pose proof (not_long_empty _ _ _ _ Hj Hsub) as Hn.
    destruct j as [| |jlo jhi jw| |]; try (exists TOP; split; [done|by apply filtered_top]).
    destruct (Z.ltb_spec jhi jlo).
    + exists TOP. split; [done|]. by apply filtered_top, gamma_TLong_empty.
    + assert (~ (forall v, ~ gamma (TLong jlo jhi jw) v)) by (rewrite gamma_TLong_empty; lia).
      destruct (jw <? w); eexists; (split; [done|]); by apply filtered_same.
Qed.

(** C34: The lattice operations are sound for the values the types stand for: a meet
    covers both arguments, a join is exactly the intersection, [filter] keeps every value
    of the intersection, [TOP] is what it returns for an empty one, and [higher_equal]
    implies inclusion. *)
Theorem lattice_sound (a b : Type_) :
  data a = true -> data b = true ->
  exists m j f h, meet a b = Some m /\ join a b = Some j /\ type_filter a b = Some f /\
    higher_equal a b = Some h /\
    (forall v, gamma a v \/ gamma b v -> gamma m v) /\
    (forall v, gamma j v <-> gamma a v /\ gamma b v) /\
    (forall v, gamma f v <-> gamma a v /\ gamma b v) /\
    ((forall v, ~ gamma f v) -> f = TOP) /\
    (h = true -> forall v, gamma a v -> gamma b v).
Proof.
  intros Ha Hb.
  pose proof (data_meet_sound a b Ha Hb) as Hm.
  set (j := data_dual (data_meet (data_dual a) (data_dual b))).
  assert (Hj : forall v, gamma j v <-> gamma a v /\ gamma b v).
  { intros v. subst j. unfold data_meet, FLOAT, DOUBLE, BOTTOM.
    data_cases; destruct v; cbn; try tauto; try lia;
      (destruct (Z.eqb_spec f0 f) || destruct (Z.eqb_spec d0 d)); cbn; intuition congruence. }
  exists (data_meet a b), j.
  assert (Hdj : data j = true) by (unfold j; auto using data_dual_closed, data_meet_closed).
  assert (Ej : join a b = Some j) by by apply join_data.
  destruct (type_filter_spec a b j Ej Ha Hdj) as (f & Ef & [Hf Hempty]).
  { intros v Hv. by apply Hj. }
  destruct (higher_equal_sound a b Ha Hb) as (h & Eh & Hh).
  exists f, h. rewrite meet_data by done. split_and!; try done. intros v. by rewrite Hf, Hj.
Qed.

Lemma lattice_sound_witness :
  exists m j f h, meet (TInt 0 5 1) (TInt 3 9 0) = Some m /\ join (TInt 0 5 1) (TInt 3 9 0) = Some j /\
    type_filter (TInt 0 5 1) (TInt 3 9 0) = Some f /\ higher_equal (TInt 0 5 1) (TInt 3 9 0) = Some h /\
    (forall v, gamma (TInt 0 5 1) v \/ gamma (TInt 3 9 0) v -> gamma m v) /\
    (forall v, gamma j v <-> gamma (TInt 0 5 1) v /\ gamma (TInt 3 9 0) v) /\
    (forall v, gamma f v <-> gamma (TInt 0 5 1) v /\ gamma (TInt 3 9 0) v) /\
    ((forall v, ~ gamma f v) -> f = TOP) /\
    (h = true -> forall v, gamma (TInt 0 5 1) v -> gamma (TInt 3 9 0) v).
Proof. by apply (lattice_sound (TInt 0 5 1) (TInt 3 9 0)). Defined.

(* ------------------------------------------------------------------ *)
(** ** Widening *)

Definition int_range (t : Type_) : Prop :=
  match t with TInt lo hi w => min_jint <= lo /\ lo <= hi /\ hi <= max_jint /\ 0 <= w <= 3 | _ => False end.
Definition long_range (t : Type_) : Prop :=
  match t with TLong lo hi w => min_jlong <= lo /\ lo <= hi /\ hi <= max_jlong /\ 0 <= w <= 3 | _ => False end.

(** One turn of the optimistic analysis at a node of type [t] that receives a value of
    type [x]: the meet, widened against the previous type. *)
Definition widen_step (limit t x : Type_) : option Type_ :=
  m ← meet t x; Some (widen m t limit).

(** The turns that change the type. *)
Fixpoint widen_run (limit t : Type_) (xs : list Type_) : option (Type_ * nat) :=
  match xs with
  | [] => Some (t, 0%nat)
  | x :: xs =>
      t' ← widen_step limit t x;
      r ← widen_run limit t' xs;
      let '(u, n) := r in Some (u, if bool_decide (t' = t) then n else S n)
  end.

(** The potential of a range: how often it can still grow.  Ranges of at most four values
    are not widened (their count stays minimal); a larger one first uses up its widening
    count, then has one end moved to the limit, then becomes the whole type. *)
Definition int_potential (limit t : Type_) : nat :=
  let '(max, min) := match limit with TInt llo lhi _ => (lhi, llo) | _ => (max_jint, min_jint) end in
  match t with
  | TInt lo hi w =>
      if hi - lo <=? SMALLINT then Z.to_nat (9 - (hi - lo))
      else if (lo =? min_jint) && (hi =? max_jint) then 0%nat
      else Z.to_nat (1 + (3 - w) + (if (min <? lo) && (hi <? max) then 1 else 0))
  | _ => 0%nat
  end.

Lemma u32_range_diff a b : min_jint <= a -> a <= b -> b <= max_jint -> u32 (b - a) = b - a.
Proof. intros. apply uwrap_small; [lia|]. unfold min_jint, max_jint, in_u in *. lia. Qed.

Lemma u64_range_diff a b : min_jlong <= a -> a <= b -> b <= max_jlong -> u64 (b - a) = b - a.
Proof. intros. apply uwrap_small; [lia|]. unfold min_jlong, max_jlong, in_u in *. lia. Qed.

Lemma TypeInt_make_range lo hi w :
  min_jint <= lo -> lo <= hi -> hi <= max_jint ->
  TypeInt_make lo hi w =
  TInt lo hi (if hi - lo <=? SMALLINT then WidenMin
              else if (lo =? min_jint) && (hi =? max_jint) then WidenMax else w).
Proof.
  intros. unfold TypeInt_make. rewrite u32_range_diff by done.
  unfold SMALLINT, max_juint, min_jint, max_jint in *.
  destruct (Z.leb_spec lo hi); [|lia]. f_equal.
  destruct (Z.leb_spec (hi - lo) 3); zcases; lia || done.
Qed.

Lemma TypeLong_make_range lo hi w :
  min_jlong <= lo -> lo <= hi -> hi <= max_jlong ->
  TypeLong_make lo hi w =
  TLong lo hi (if hi - lo <=? SMALLINT then WidenMin
               else if (lo =? min_jlong) && (hi =? max_jlong) then WidenMax else w).
Proof.
  intros. unfold TypeLong_make. rewrite u64_range_diff by done.
  unfold SMALLINT, max_julong, min_jlong, max_jlong in *.
  destruct (Z.leb_spec lo hi); [|lia]. f_equal.
  destruct (Z.leb_spec (hi - lo) 3); zcases; lia || done.
Qed.

Lemma INT_eq : INT = TInt min_jint max_jint 3.
Proof. reflexivity. Qed.

Lemma LONG_eq : LONG = TLong min_jlong max_jlong 3.
Proof. reflexivity. Qed.

Definition limit_range (limit : Type_) : Prop :=
  match limit with
  | TInt lo hi _ => min_jint <= lo /\ hi <= max_jint
  | TLong lo hi _ => min_jlong <= lo /\ hi <= max_jlong
  | _ => True
  end.

(** Split on the conditions of the goal and compare the potentials. *)
Ltac potential :=
  unfold SMALLINT, WidenMin, WidenMax in *;
  repeat match goal with |- context [if ?b then _ else _] => destruct b eqn:? end;
  zreflect; lia.

(** A widening result covers the new and the old type and is again a range; it is the
    old type or of smaller potential. *)
Lemma TypeInt_widen_spec limit lo hi w olo ohi ow :
  limit_range limit -> int_range (TInt lo hi w) -> int_range (TInt olo ohi ow) ->
  lo <= olo -> ohi <= hi -> ow <= w ->
  let t' := TypeInt_widen lo hi w (TInt olo ohi ow) limit in
  (exists lo' hi' w', t' = TInt lo' hi' w' /\ int_range t' /\ lo' <= lo /\ hi <= hi') /\
  (t' = TInt olo ohi ow \/ (int_potential limit t' < int_potential limit (TInt olo ohi ow))%nat).
Proof.
  intros Hlim Hr Hor Hlo Hhi Hw t'. cbn [int_range] in Hr, Hor.
  unfold t', TypeInt_widen, int_potential. clear t'.
  match goal with |- context [let '(_, _) := ?p in _] => set (lim := p) end.
  assert (Hlims : min_jint <= lim.2 /\ lim.1 <= max_jint)
    by (unfold lim, min_jint, max_jint; destruct limit; cbn in *; unfold min_jint, max_jint in *; lia).
  destruct lim as [max min]. cbn [fst snd] in Hlims. rewrite INT_eq.
  destruct ((lo =? olo) && (hi =? ohi)) eqn:E1.
  { zreflect. subst. split; [by eexists _, _, _|by left]. }
  replace ((lo <=? olo) && (ohi <=? hi)) with true by lia.
  assert (hi - lo > ohi - olo) by lia.
  destruct (ow <? w) eqn:E2; [|destruct (olo =? ohi) eqn:E3; [|destruct (w =? WidenMax) eqn:E4]].
  - split; [by eexists _, _, _|]. right. potential.
  - split; [by eexists _, _, _|]. right. potential.
  - destruct ((min <? lo) && (hi <? max)) eqn:E5.
    + destruct ((0 <=? lo) || (u32 (max - hi) <=? u32 (lo - min))); rewrite TypeInt_make_range by lia;
        (split; [eexists _, _, _; split; [done|]; cbn [int_range]; potential|]; right; potential).
    + split; [eexists _, _, _; split; [done|]; cbn; unfold min_jint, max_jint in *; lia|].
      right. unfold min_jint, max_jint in *. potential.
  - rewrite TypeInt_make_range by lia.
    split; [eexists _, _, _; split; [done|]; cbn [int_range]; unfold WidenMax in *; potential|].
    right. unfold WidenMax in *. potential.
Qed.

(** A long range can also be moved to the end of the unsigned ints on its way. *)
Definition long_potential (limit t : Type_) : nat :=
  let '(max, min) := match limit with TLong llo lhi _ => (lhi, llo) | _ => (max_jlong, min_jlong) end in
  match t with
  | TLong lo hi w =>
      if hi - lo <=? SMALLINT then Z.to_nat (10 - (hi - lo))
      else if (lo =? min_jlong) && (hi =? max_jlong) then 0%nat
      else Z.to_nat (1 + (3 - w) + (if (min <? lo) && (hi <? max) then 1 else 0) +
                     (if hi <? max_juint then 1 else 0))
  | _ => 0%nat
  end.

Lemma TypeLong_widen_spec limit lo hi w olo ohi ow :
  limit_range limit -> long_range (TLong lo hi w) -> long_range (TLong olo ohi ow) ->
  lo <= olo -> ohi <= hi -> ow <= w ->
  let t' := TypeLong_widen lo hi w (TLong olo ohi ow) limit in
  (exists lo' hi' w', t' = TLong lo' hi' w' /\ long_range t' /\ lo' <= lo /\ hi <= hi') /\
  (t' = TLong olo ohi ow \/ (long_potential limit t' < long_potential limit (TLong olo ohi ow))%nat).
Proof.
  intros Hlim Hr Hor Hlo Hhi Hw t'. cbn [long_range] in Hr, Hor.
  unfold t', TypeLong_widen, long_potential. clear t'.
  match goal with |- context [let '(_, _) := ?p in _] => set (lim := p) end.
  assert (Hlims : min_jlong <= lim.2 /\ lim.1 <= max_jlong)
    by (unfold lim, min_jlong, max_jlong; destruct limit; cbn in *; unfold min_jlong, max_jlong in *; lia).
  destruct lim as [max min]. cbn [fst snd] in Hlims. rewrite LONG_eq.
  destruct ((lo =? olo) && (hi =? ohi)) eqn:E1.
  { zreflect. subst. split; [by eexists _, _, _|by left]. }
  replace ((lo <=? olo) && (ohi <=? hi)) with true by lia.
  assert (hi - lo > ohi - olo) by lia.
  destruct (ow <? w) eqn:E2; [|destruct (olo =? ohi) eqn:E3; [|destruct (w =? WidenMax) eqn:E4]].
  - split; [by eexists _, _, _|]. right. potential.
  - split; [by eexists _, _, _|]. right. potential.
  - destruct ((min <? lo) && (hi <? max)) eqn:E5.
    + destruct ((0 <=? lo) || (u64 (max - hi) <=? u64 (lo - min)));
        [destruct ((max_juint <=? max) && (hi <? max_juint)) eqn:E6|];
        rewrite TypeLong_make_range by lia;
        (split; [eexists _, _, _; split; [done|]; cbn [long_range]; potential|]; right; potential).
    + split; [eexists _, _, _; split; [done|]; cbn; unfold min_jlong, max_jlong in *; lia|].
      right. unfold min_jlong, max_jlong in *. potential.
  - rewrite TypeLong_make_range by lia.
    split; [eexists _, _, _; split; [done|]; cbn [long_range]; unfold WidenMax in *; potential|].
    right. unfold WidenMax in *. potential.
Qed.

(** A range type, of one of the two widths, and its potential. *)
Definition same_range_kind (t x : Type_) : Prop :=
  (int_range t /\ int_range x) \/ (long_range t /\ long_range x).

Definition potential_of (limit t : Type_) : nat :=
  match t with TInt _ _ _ => int_potential limit t | _ => long_potential limit t end.

Lemma widen_step_spec limit t x :
  limit_range limit -> same_range_kind t x ->
  exists t', widen_step limit t x = Some t' /\
    (forall v, gamma t v \/ gamma x v -> gamma t' v) /\
    (forall y, same_range_kind t y -> same_range_kind t' y) /\
    (t' = t \/ (potential_of limit t' < potential_of limit t)%nat).
Proof.
  intros Hlim [[Ht Hx]|[Ht Hx]]; unfold widen_step;
    destruct t as [|lo hi w|lo hi w| |], x as [|xlo xhi xw|xlo xhi xw| |]; try done;
    rewrite meet_data by done; cbn [mbind option_bind data_meet widen].
  - pose proof (TypeInt_widen_spec limit (Z.min lo xlo) (Z.max hi xhi) (Z.max w xw) lo hi w Hlim) as Hs.
    cbn [int_range] in *. destruct Hs as ((lo' & hi' & w' & E & Hr & Hlo & Hhi) & Hpot); [lia..|].
    rewrite E in *. eexists. split; [done|]. split_and!; [|by intros y [[? ?]|[? ?]]; [left|]|done].
    intros []; cbn; lia.
  - pose proof (TypeLong_widen_spec limit (Z.min lo xlo) (Z.max hi xhi) (Z.max w xw) lo hi w Hlim) as Hs.
    cbn [long_range] in *. destruct Hs as ((lo' & hi' & w' & E & Hr & Hlo & Hhi) & Hpot); [lia..|].
    rewrite E in *. eexists. split; [done|]. split_and!; [|by intros y [[? ?]|[? ?]]; [|right]|done].
    intros []; cbn; lia.
Qed.

(** C33: Widening is sound and makes the optimistic analysis terminate: from any range
    type and for any sequence of range types flowing in (and any limit), every step keeps
    covering all the values seen, and the type changes at most ten times however long the
    sequence is. *)
Theorem widening_terminates (limit t : Type_) (xs : list Type_) :
  limit_range limit -> same_range_kind t t -> Forall (same_range_kind t) xs ->
  exists u n, widen_run limit t xs = Some (u, n) /\ (n <= 10)%nat /\
    (forall v, gamma t v \/ Exists (fun x => gamma x v) xs -> gamma u v).
Proof.
  intros Hlim Ht Hxs.
  assert (Hpot : (potential_of limit t <= 10)%nat).
  { destruct Ht as [[Ht _]|[Ht _]]; destruct t; try done; cbn in Ht |- *;
      unfold int_potential, long_potential;
      match goal with |- context [let '(_, _) := ?p in _] => destruct p end; potential. }
  cut (exists u n, widen_run limit t xs = Some (u, n) /\ (n <= potential_of limit t)%nat /\
         (forall v, gamma t v \/ Exists (fun x => gamma x v) xs -> gamma u v)).
  { intros (u & n & ? & ? & ?). exists u, n. split_and!; [done|lia|done]. }
  clear Ht Hpot. revert t Hxs. induction xs as [|x xs IH]; intros t Hxs.
  - exists t, 0%nat. split_and!; [done|lia|]. intros v [Hv|Hv]; [done|by apply Exists_nil in Hv].
  - apply list.Forall_cons in Hxs as [Hx Hxs].
    destruct (widen_step_spec limit t x Hlim Hx) as (t' & E & Hcov & Hkind & Hdec).
    destruct (IH t') as (u & n & Eu & Hn & Hu); [by eapply List.Forall_impl; [apply Hkind|]|].
    exists u, (if bool_decide (t' = t) then n else S n). cbn [widen_run].
    rewrite E. cbn [mbind option_bind]. rewrite Eu. cbn [mbind option_bind]. split_and!; [done| |].
    + case_bool_decide as Heq; [by subst|]. destruct Hdec; [done|lia].
    + intros v Hv. apply Hu. rewrite Exists_cons in Hv. destruct Hv as [?|[?|?]]; auto.
Qed.

Lemma widening_terminates_witness :
  exists u n, widen_run TOP (TInt 0 0 0) [TInt 1 5 0; TInt 2 9 0; TInt 3 30 0; TInt (-4) 7 0] = Some (u, n) /\
    (n <= 10)%nat /\
    (forall v, gamma (TInt 0 0 0) v \/
       Exists (fun x => gamma x v) [TInt 1 5 0; TInt 2 9 0; TInt 3 30 0; TInt (-4) 7 0] -> gamma u v).
Proof.
  apply widening_terminates; [done|left; cbn; unfold min_jint, max_jint; lia|].
  repeat (apply List.Forall_cons; [left; cbn; unfold min_jint, max_jint; lia|]); constructor.
Defined.

(** Narrowing gives one of the two types it is asked about, and never loses a
    value of a new type that lies within the old one; it keeps the old type only when the
    new range is not smaller than about half of it. *)
Theorem narrow_spec (t old : Type_) :
  same_range_kind t old ->
  (narrow t (Some old) = t \/ narrow t (Some old) = old) /\
  (forall v, gamma t v -> gamma (narrow t (Some old)) v) /\
  (match t, old with
   | TInt lo hi _, TInt olo ohi _ | TLong lo hi _, TLong olo ohi _ =>
       olo <= lo -> hi <= ohi -> (lo, hi) <> (olo, ohi) -> narrow t (Some old) = old ->
       (ohi - olo) / 2 + 6 < hi - lo \/ t = old
   | _, _ => False
   end).
Proof.
  intros [[Ht Ho]|[Ht Ho]]; destruct t as [|lo hi w|lo hi w| |], old as [|olo ohi ow|olo ohi ow| |]; try done;
    cbn [int_range long_range] in Ht, Ho; cbn [narrow].
  - unfold TypeInt_narrow. rewrite !u32_range_diff, Z.shiftr_div_pow2 by lia. change (2 ^ 1) with 2.
    unfold SMALLINT. split_and!;
      repeat match goal with |- context [if ?b then _ else _] => destruct b eqn:? end;
      zreflect; auto; try (intros []; cbn; lia); intros; first [congruence | lia].
  - unfold TypeLong_narrow. rewrite !u64_range_diff, Z.shiftr_div_pow2 by lia. change (2 ^ 1) with 2.
    unfold SMALLINT. split_and!;
      repeat match goal with |- context [if ?b then _ else _] => destruct b eqn:? end;
      zreflect; auto; try (intros []; cbn; lia); intros; first [congruence | lia].
Qed.

Lemma narrow_spec_witness :
  (narrow (TInt 0 90 0) (Some (TInt 0 100 0)) = TInt 0 90 0 \/
   narrow (TInt 0 90 0) (Some (TInt 0 100 0)) = TInt 0 100 0) /\
  (forall v, gamma (TInt 0 90 0) v -> gamma (narrow (TInt 0 90 0) (Some (TInt 0 100 0))) v).
Proof.
  destruct (narrow_spec (TInt 0 90 0) (TInt 0 100 0)) as (H1 & H2 & _); [left; cbn; unfold min_jint, max_jint; lia|].
  by split.
Defined.
