(* ===== verification/NodeValue.v ===== *)
(** * NodeValue: the abstract interpretation of the optimizing compiler's integer nodes

    The [Value] methods of opto/addnode.cpp, subnode.cpp, mulnode.cpp, divnode.cpp and of
    the bit counting nodes of connode.cpp: from the types of the inputs of a node they
    compute a type for its result.  The arguments [t1] and [t2] are the types the phase
    has for the inputs; the questions a method asks about the graph itself are boolean
    arguments.  A cast ([is_int], [is_long]) of a type of another class is [None].
    The theorems say that the computed type contains every result the Java operation can
    have on values of the input types. *)

From S2P Require Import Prelude GlobalDefs TypeLattice.

Definition is_con (lo hi : Z) : bool := lo =? hi.

(* ------------------------------------------------------------------ *)
(** ** Additions and the operations shaped like them *)

(** What a class derived from [AddNode] supplies. *)
Record AddNode := {
  add_ring : Type_ -> Type_ -> option Type_;
  add_id : Type_;
  bottom_type : Type_
}.

Definition add_of_identity (n : AddNode) (t1 t2 : Type_) : option (option Type_) :=
  let zero := add_id n in
  h1 ← higher_equal t1 zero;
  if (h1 : bool) then Some (Some t2)
  else
    h2 ← higher_equal t2 zero;
    if (h2 : bool) then Some (Some t1) else Some None.

Definition AddNode_Value (n : AddNode) (t1 t2 : Type_) : option Type_ :=
  if bool_decide (t1 = TOP) then Some TOP
  else if bool_decide (t2 = TOP) then Some TOP
  else
    let bot := bottom_type n in
    if bool_decide (t1 = bot) || bool_decide (t2 = bot) ||
       bool_decide (t1 = BOTTOM) || bool_decide (t2 = BOTTOM) then Some bot
    else
      tadd ← add_of_identity n t1 t2;
      match tadd with Some t => Some t | None => add_ring n t1 t2 end.

Definition AddI_add_ring (t0 t1 : Type_) : option Type_ :=
  match t0, t1 with
  | TInt lo0 hi0 w0, TInt lo1 hi1 w1 =>
      let lo := s32 (lo0 + lo1) in
      let hi := s32 (hi0 + hi1) in
      let '(lo, hi) :=
        if negb (is_con lo0 hi0 && is_con lo1 hi1) then
          let '(lo, hi) :=
            if (Z.land lo0 lo1 <? 0) && (0 <=? lo) then (min_jint, max_jint) else (lo, hi) in
          let '(lo, hi) :=
            if (Z.lnot (Z.lor hi0 hi1) <? 0) && (hi <? 0) then (min_jint, max_jint) else (lo, hi) in
          if hi <? lo then (min_jint, max_jint) else (lo, hi)
        else (lo, hi) in
      Some (TypeInt_make lo hi (MAX2 w0 w1))
  | _, _ => None
  end.

Definition AddL_add_ring (t0 t1 : Type_) : option Type_ :=
  match t0, t1 with
  | TLong lo0 hi0 w0, TLong lo1 hi1 w1 =>
      let lo := s64 (lo0 + lo1) in
      let hi := s64 (hi0 + hi1) in
      let '(lo, hi) :=
        if negb (is_con lo0 hi0 && is_con lo1 hi1) then
          let '(lo, hi) :=
            if (Z.land lo0 lo1 <? 0) && (0 <=? lo) then (min_jlong, max_jlong) else (lo, hi) in
          let '(lo, hi) :=
            if (Z.lnot (Z.lor hi0 hi1) <? 0) && (hi <? 0) then (min_jlong, max_jlong) else (lo, hi) in
          if hi <? lo then (min_jlong, max_jlong) else (lo, hi)
        else (lo, hi) in
      Some (TypeLong_make lo hi (MAX2 w0 w1))
  | _, _ => None
  end.

Definition OrI_add_ring (t0 t1 : Type_) : option Type_ :=
  match t0, t1 with
  | TInt lo0 hi0 w0, TInt lo1 hi1 w1 =>
      let rest :=
        if negb (is_con lo0 hi0) || negb (is_con lo1 hi1) then Some INT
        else Some (TypeInt_con (Z.lor lo0 lo1)) in
      if bool_decide (t0 = INT_BOOL) then
        if bool_decide (t1 = INT_ONE) then Some INT_ONE
        else if bool_decide (t1 = INT_BOOL) then Some INT_BOOL
        else rest
      else if bool_decide (t0 = INT_ONE) then
        if bool_decide (t1 = INT_BOOL) then Some INT_ONE else rest
      else rest
  | _, _ => None
  end.

Definition OrL_add_ring (t0 t1 : Type_) : option Type_ :=
  match t0, t1 with
  | TLong lo0 hi0 w0, TLong lo1 hi1 w1 =>
      if negb (is_con lo0 hi0) || negb (is_con lo1 hi1) then Some LONG
      else Some (TypeLong_con (Z.lor lo0 lo1))
  | _, _ => None
  end.

Definition XorI_add_ring (t0 t1 : Type_) : option Type_ :=
  match t0, t1 with
  | TInt lo0 hi0 w0, TInt lo1 hi1 w1 =>
      if bool_decide (t0 = INT_BOOL) && (bool_decide (t1 = INT_ONE) || bool_decide (t1 = INT_BOOL))
      then Some INT_BOOL
      else if negb (is_con lo0 hi0) || negb (is_con lo1 hi1) then Some INT
      else Some (TypeInt_con (Z.lxor lo0 lo1))
  | _, _ => None
  end.

Definition XorL_add_ring (t0 t1 : Type_) : option Type_ :=
  match t0, t1 with
  | TLong lo0 hi0 w0, TLong lo1 hi1 w1 =>
      if negb (is_con lo0 hi0) || negb (is_con lo1 hi1) then Some LONG
      else Some (TypeLong_con (Z.lxor lo0 lo1))
  | _, _ => None
  end.

Definition MaxI_add_ring (t0 t1 : Type_) : option Type_ :=
  match t0, t1 with
  | TInt lo0 hi0 w0, TInt lo1 hi1 w1 => Some (TypeInt_make (MAX2 lo0 lo1) (MAX2 hi0 hi1) (MAX2 w0 w1))
  | _, _ => None
  end.

Definition MinI_add_ring (t0 t1 : Type_) : option Type_ :=
  match t0, t1 with
  | TInt lo0 hi0 w0, TInt lo1 hi1 w1 => Some (TypeInt_make (MIN2 lo0 lo1) (MIN2 hi0 hi1) (MAX2 w0 w1))
  | _, _ => None
  end.

Definition AddINode := {| add_ring := AddI_add_ring; add_id := INT_ZERO; bottom_type := INT |}.
Definition AddLNode := {| add_ring := AddL_add_ring; add_id := LONG_ZERO; bottom_type := LONG |}.
Definition OrINode := {| add_ring := OrI_add_ring; add_id := INT_ZERO; bottom_type := INT |}.
Definition OrLNode := {| add_ring := OrL_add_ring; add_id := LONG_ZERO; bottom_type := LONG |}.
Definition XorINode := {| add_ring := XorI_add_ring; add_id := INT_ZERO; bottom_type := INT |}.
Definition XorLNode := {| add_ring := XorL_add_ring; add_id := LONG_ZERO; bottom_type := LONG |}.
Definition MaxINode :=
  {| add_ring := MaxI_add_ring; add_id := TypeInt_con min_jint; bottom_type := INT |}.
Definition MinINode :=
  {| add_ring := MinI_add_ring; add_id := TypeInt_con max_jint; bottom_type := INT |}.

(* ------------------------------------------------------------------ *)
(** ** Multiplications and the operations shaped like them *)

(** An integer as a [double]: the nearest number with 53 significant bits, ties to even.
    The values converted and multiplied here are integers far below the overflow of the
    format, so this is what the conversion and, applied to the exact product, the
    multiplication compute. *)
Definition to_double (x : Z) : Z :=
  let a := Z.abs x in
  let n := Z.log2 a + 1 in
  if n <=? 53 then x
  else
    let k := n - 53 in
    let q := Z.shiftr a k in
    let r := a mod 2 ^ k in
    let half := 2 ^ (k - 1) in
    let q := if (half <? r) || ((r =? half) && Z.odd q) then q + 1 else q in
    Z.sgn x * (q * 2 ^ k).

Definition double_mul (a c : Z) : Z := to_double (a * c).

Record MulNode := {
  mul_ring : Type_ -> Type_ -> option Type_;
  mul_zero : Type_;
  mul_bottom_type : Type_
}.

(** For the four integer opcodes. *)
Definition MulNode_Value (n : MulNode) (t1 t2 : Type_) : option Type_ :=
  if bool_decide (t1 = TOP) then Some TOP
  else if bool_decide (t2 = TOP) then Some TOP
  else
    let zero := mul_zero n in
    h1 ← higher_equal t1 zero;
    if (h1 : bool) then Some zero
    else
      h2 ← higher_equal t2 zero;
      if (h2 : bool) then Some zero
      else if bool_decide (t1 = BOTTOM) || bool_decide (t2 = BOTTOM) then Some (mul_bottom_type n)
      else mul_ring n t1 t2.

(** The endpoints sorted, and extended by the other two. *)
Definition sort_endpoints (A B C D : Z) : Z * Z :=
  let '(lo0, hi0) := if A <? B then (A, B) else (B, A) in
  if C <? D then
    let lo0 := if C <? lo0 then C else lo0 in
    let hi0 := if hi0 <? D then D else hi0 in (lo0, hi0)
  else
    let lo0 := if D <? lo0 then D else lo0 in
    let hi0 := if hi0 <? C then C else hi0 in (lo0, hi0).

Definition MulI_mul_ring (t0 t1 : Type_) : option Type_ :=
  match t0, t1 with
  | TInt lo0 hi0 w0, TInt lo1 hi1 w1 =>
      let a := to_double lo0 in let b := to_double hi0 in
      let c := to_double lo1 in let d := to_double hi1 in
      let A := s32 (lo0 * lo1) in
      if negb (to_double A =? double_mul a c) then Some INT else
      let B := s32 (lo0 * hi1) in
      if negb (to_double B =? double_mul a d) then Some INT else
      let C := s32 (hi0 * lo1) in
      if negb (to_double C =? double_mul b c) then Some INT else
      let D := s32 (hi0 * hi1) in
      if negb (to_double D =? double_mul b d) then Some INT else
      let '(lo, hi) := sort_endpoints A B C D in
      Some (TypeInt_make lo hi (MAX2 w0 w1))
  | _, _ => None
  end.

Definition MulL_mul_ring (t0 t1 : Type_) : option Type_ :=
  match t0, t1 with
  | TLong lo0 hi0 w0, TLong lo1 hi1 w1 =>
      let a := to_double lo0 in let b := to_double hi0 in
      let c := to_double lo1 in let d := to_double hi1 in
      let A := s64 (lo0 * lo1) in
      if negb (to_double A =? double_mul a c) then Some LONG else
      let B := s64 (lo0 * hi1) in
      if negb (to_double B =? double_mul a d) then Some LONG else
      let C := s64 (hi0 * lo1) in
      if negb (to_double C =? double_mul b c) then Some LONG else
      let D := s64 (hi0 * hi1) in
      if negb (to_double D =? double_mul b d) then Some LONG else
      let '(lo, hi) := sort_endpoints A B C D in
      Some (TypeLong_make lo hi (MAX2 w0 w1))
  | _, _ => None
  end.

Definition AndI_mul_ring (t0 t1 : Type_) : option Type_ :=
  match t0, t1 with
  | TInt lo0 hi0 w0, TInt lo1 hi1 w1 =>
      let widen := MAX2 w0 w1 in
      if negb (is_con lo0 hi0) && negb (is_con lo1 hi1) then
        Some INT
      else if is_con lo0 hi0 && is_con lo1 hi1 then Some (TypeInt_con (Z.land lo0 lo1))
      else if is_con lo0 hi0 && (0 <? lo0) then Some (TypeInt_make 0 lo0 widen)
      else if is_con lo1 hi1 && (0 <? lo1) then Some (TypeInt_make 0 lo1 widen)
      else if bool_decide (t0 = INT_BOOL) || bool_decide (t1 = INT_BOOL) then Some INT_BOOL
      else Some INT
  | _, _ => None
  end.

Definition AndL_mul_ring (t0 t1 : Type_) : option Type_ :=
  match t0, t1 with
  | TLong lo0 hi0 w0, TLong lo1 hi1 w1 =>
      let widen := MAX2 w0 w1 in
      if negb (is_con lo0 hi0) && negb (is_con lo1 hi1) then Some LONG
      else if is_con lo0 hi0 && is_con lo1 hi1 then Some (TypeLong_con (Z.land lo0 lo1))
      else if is_con lo0 hi0 && (0 <? lo0) then Some (TypeLong_make 0 lo0 widen)
      else if is_con lo1 hi1 && (0 <? lo1) then Some (TypeLong_make 0 lo1 widen)
      else Some LONG
  | _, _ => None
  end.

Definition MulINode := {| mul_ring := MulI_mul_ring; mul_zero := INT_ZERO; mul_bottom_type := INT |}.
Definition MulLNode := {| mul_ring := MulL_mul_ring; mul_zero := LONG_ZERO; mul_bottom_type := LONG |}.
Definition AndINode := {| mul_ring := AndI_mul_ring; mul_zero := INT_ZERO; mul_bottom_type := INT |}.
Definition AndLNode := {| mul_ring := AndL_mul_ring; mul_zero := LONG_ZERO; mul_bottom_type := LONG |}.

(* ------------------------------------------------------------------ *)
(** ** Subtractions and comparisons *)

Record SubNode := {
  sub : Type_ -> Type_ -> option Type_;
  sub_add_id : Type_;
  sub_bottom_type : Type_
}.

(** [eqv]: both inputs are the same node up to casts. *)
Definition SubNode_Value (n : SubNode) (eqv : bool) (t1 t2 : Type_) : option Type_ :=
  if bool_decide (t1 = TOP) then Some TOP
  else if bool_decide (t2 = TOP) then Some TOP
  else if eqv then Some (sub_add_id n)
  else if bool_decide (t1 = BOTTOM) || bool_decide (t2 = BOTTOM) then Some (sub_bottom_type n)
  else sub n t1 t2.

Definition SubI_sub (t1 t2 : Type_) : option Type_ :=
  match t1, t2 with
  | TInt lo0 hi0 w0, TInt lo1 hi1 w1 =>
      let lo := s32 (lo0 - hi1) in
      let hi := s32 (hi0 - lo1) in
      if ((0 <=? Z.lxor lo0 hi1) || (0 <=? Z.lxor lo0 lo)) &&
         ((0 <=? Z.lxor hi0 lo1) || (0 <=? Z.lxor hi0 hi))
      then Some (TypeInt_make lo hi (MAX2 w0 w1))
      else Some INT
  | _, _ => None
  end.

Definition SubL_sub (t1 t2 : Type_) : option Type_ :=
  match t1, t2 with
  | TLong lo0 hi0 w0, TLong lo1 hi1 w1 =>
      let lo := s64 (lo0 - hi1) in
      let hi := s64 (hi0 - lo1) in
      if ((0 <=? Z.lxor lo0 hi1) || (0 <=? Z.lxor lo0 lo)) &&
         ((0 <=? Z.lxor hi0 lo1) || (0 <=? Z.lxor hi0 hi))
      then Some (TypeLong_make lo hi (MAX2 w0 w1))
      else Some LONG
  | _, _ => None
  end.

Definition CmpI_sub (t1 t2 : Type_) : option Type_ :=
  match t1, t2 with
  | TInt lo0 hi0 _, TInt lo1 hi1 _ =>
      Some (if hi0 <? lo1 then CC_LT
            else if hi1 <? lo0 then CC_GT
            else if is_con lo0 hi0 && is_con lo1 hi1 then CC_EQ
            else if hi0 =? lo1 then CC_LE
            else if lo0 =? hi1 then CC_GE
            else CC)
  | _, _ => None
  end.

Definition CmpL_sub (t1 t2 : Type_) : option Type_ :=
  match t1, t2 with
  | TLong lo0 hi0 _, TLong lo1 hi1 _ =>
      Some (if hi0 <? lo1 then CC_LT
            else if hi1 <? lo0 then CC_GT
            else if is_con lo0 hi0 && is_con lo1 hi1 then CC_EQ
            else if hi0 =? lo1 then CC_LE
            else if lo0 =? hi1 then CC_GE
            else CC)
  | _, _ => None
  end.

(** [mod_in2]: the first input is a [ModI] whose divisor is the second input;
    [mod_in2_uncast]: so it is up to casts. *)
Definition CmpU_sub (mod_in2 mod_in2_uncast : bool) (t1 t2 : Type_) : option Type_ :=
  match t1, t2 with
  | TInt lo_0 hi_0 _, TInt lo_1 hi_1 _ =>
      let lo0 := u32 lo_0 in let hi0 := u32 hi_0 in
      let lo1 := u32 lo_1 in let hi1 := u32 hi_1 in
      let bot0 := s32 (Z.lxor lo0 hi0) <? 0 in
      let bot1 := s32 (Z.lxor lo1 hi1) <? 0 in
      let rest :=
        if (0 <=? s32 lo0) && (0 <=? s32 lo1) && mod_in2_uncast then Some CC_LT else Some CC in
      if bot0 || bot1 then
        if (lo0 =? 0) && (hi0 =? 0) then Some CC_LE
        else if (lo1 =? 0) && (hi1 =? 0) then Some CC_GE
        else rest
      else
        if hi0 <? lo1 then Some CC_LT
        else if hi1 <? lo0 then Some CC_GT
        else if (hi0 =? lo1) && (lo0 =? hi1) then Some CC_EQ
        else if hi1 <=? lo0 then Some CC_GE
        else if hi0 <=? lo1 then
          if (0 <=? s32 lo0) && (0 <=? s32 lo1) && mod_in2 then Some CC_LT else Some CC_LE
        else rest
  | _, _ => None
  end.

Definition SubINode := {| sub := SubI_sub; sub_add_id := INT_ZERO; sub_bottom_type := INT |}.
Definition SubLNode := {| sub := SubL_sub; sub_add_id := LONG_ZERO; sub_bottom_type := LONG |}.
Definition CmpINode := {| sub := CmpI_sub; sub_add_id := INT_ZERO; sub_bottom_type := CC |}.
Definition CmpLNode := {| sub := CmpL_sub; sub_add_id := INT_ZERO; sub_bottom_type := CC |}.
Definition CmpUNode (mod_in2 mod_in2_uncast : bool) :=
  {| sub := CmpU_sub mod_in2 mod_in2_uncast; sub_add_id := INT_ZERO; sub_bottom_type := CC |}.

(* ------------------------------------------------------------------ *)
(** * Soundness: the interface *)

(** The two integer types of the machine. *)
Inductive jtype := JInt | JLong.

Definition jwidth (j : jtype) : Z := match j with JInt => 32 | JLong => 64 end.
Definition jv (j : jtype) : Z -> jval := match j with JInt => VInt | JLong => VLong end.
Definition jt (j : jtype) : Z -> Z -> Z -> Type_ := match j with JInt => TInt | JLong => TLong end.
Definition jmake (j : jtype) : Z -> Z -> Z -> Type_ :=
  match j with JInt => TypeInt_make | JLong => TypeLong_make end.
Definition jbottom (j : jtype) : Type_ := match j with JInt => INT | JLong => LONG end.
Definition jrange (j : jtype) : Type_ -> Prop :=
  match j with JInt => int_range | JLong => long_range end.

(** A type an analysis phase has for a node of machine type [j]. *)
Definition phase_type (j : jtype) (t : Type_) : Prop := t = TOP \/ t = BOTTOM \/ jrange j t.

(** [V] computes, from phase types of the inputs, a phase type that contains every result
    of an operation, given as the relation [op] of inputs and result. *)
Definition value_sound (V : Type_ -> Type_ -> option Type_) (j1 j2 j : jtype)
    (op : Z -> Z -> Z -> Prop) : Prop :=
  forall t1 t2, phase_type j1 t1 -> phase_type j2 t2 ->
  exists t, V t1 t2 = Some t /\ phase_type j t /\
    forall a b c, in_s (jwidth j1) a -> in_s (jwidth j2) b ->
      gamma t1 (jv j1 a) -> gamma t2 (jv j2 b) -> op a b c -> gamma t (jv j c).

(** The operation as a function. *)
Definition fn (op : Z -> Z -> Z) (a b c : Z) : Prop := c = op a b.

(** A ring operation on two range types. *)
Definition ring_ok (j : jtype) (o : option Type_) (t1 t2 : Type_) (op : Z -> Z -> Z -> Prop) : Prop :=
  exists t, o = Some t /\ jrange j t /\
    forall a b c, gamma t1 (jv j a) -> gamma t2 (jv j b) -> op a b c -> gamma t (jv j c).

(** What a subclass promises to [AddNode]. *)
Class AddNode_laws (n : AddNode) (j : jtype) (op : Z -> Z -> Z) := {
  add_ring_sound t1 t2 : jrange j t1 -> jrange j t2 -> ring_ok j (add_ring n t1 t2) t1 t2 (fn op);
  add_id_range : jrange j (add_id n);
  add_id_left a b : gamma (add_id n) (jv j a) -> in_s (jwidth j) b -> op a b = b;
  add_id_right a b : gamma (add_id n) (jv j b) -> in_s (jwidth j) a -> op a b = a;
  add_op_range a b : in_s (jwidth j) a -> in_s (jwidth j) b -> in_s (jwidth j) (op a b);
  add_bottom : bottom_type n = jbottom j
}.

(** What a subclass promises to [MulNode]. *)
Class MulNode_laws (n : MulNode) (j : jtype) (op : Z -> Z -> Z) := {
  mul_ring_sound t1 t2 : jrange j t1 -> jrange j t2 -> ring_ok j (mul_ring n t1 t2) t1 t2 (fn op);
  mul_zero_range : jrange j (mul_zero n);
  mul_zero_left a b : gamma (mul_zero n) (jv j a) -> gamma (mul_zero n) (jv j (op a b));
  mul_zero_right a b : gamma (mul_zero n) (jv j b) -> gamma (mul_zero n) (jv j (op a b));
  mul_op_range a b : in_s (jwidth j) a -> in_s (jwidth j) b -> in_s (jwidth j) (op a b);
  mul_bottom : mul_bottom_type n = jbottom j
}.

(** What a subclass promises to [SubNode], for inputs of type [j1] and a result of type
    [j2]. *)
Class SubNode_laws (n : SubNode) (j1 j2 : jtype) (op : Z -> Z -> Z -> Prop) := {
  sub_sound t1 t2 : jrange j1 t1 -> jrange j1 t2 ->
    exists t, sub n t1 t2 = Some t /\ jrange j2 t /\
      forall a b c, in_s (jwidth j1) a -> in_s (jwidth j1) b ->
        gamma t1 (jv j1 a) -> gamma t2 (jv j1 b) -> op a b c -> gamma t (jv j2 c);
  sub_id_range : jrange j2 (sub_add_id n);
  sub_same a c : op a a c -> gamma (sub_add_id n) (jv j2 c);
  sub_bottom a b c : in_s (jwidth j1) a -> in_s (jwidth j1) b -> op a b c ->
    gamma (sub_bottom_type n) (jv j2 c);
  sub_bottom_range : jrange j2 (sub_bottom_type n)
}.

(* ------------------------------------------------------------------ *)
(** ** Types and integers *)

Lemma jrange_inv j t : jrange j t -> exists lo hi w, t = jt j lo hi w /\
  - 2 ^ (jwidth j - 1) <= lo <= hi /\ hi <= 2 ^ (jwidth j - 1) - 1 /\ 0 <= w <= 3.
Proof.
  destruct j, t; try done; intros H; eexists _, _, _; (split; [done|]); cbn in *;
    unfold min_jint, max_jint, min_jlong, max_jlong in *; lia.
Qed.

Lemma jrange_make j lo hi w :
  - 2 ^ (jwidth j - 1) <= lo <= hi -> hi <= 2 ^ (jwidth j - 1) - 1 -> 0 <= w <= 3 ->
  jrange j (jmake j lo hi w).
Proof.
  destruct j; cbn -[Z.pow TypeInt_make TypeLong_make int_range long_range]; intros.
  - rewrite TypeInt_make_range by (unfold min_jint, max_jint; lia). cbn.
    unfold min_jint, max_jint, WidenMin, WidenMax. repeat case_match; lia.
  - rewrite TypeLong_make_range by (unfold min_jlong, max_jlong; lia). cbn.
    unfold min_jlong, max_jlong, WidenMin, WidenMax. repeat case_match; lia.
Qed.

Lemma gamma_jt j lo hi w v : gamma (jt j lo hi w) (jv j v) <-> lo <= v <= hi.
Proof. by destruct j. Qed.

Lemma gamma_make j lo hi w v : gamma (jmake j lo hi w) (jv j v) <-> lo <= v <= hi.
Proof. by destruct j. Qed.

Lemma gamma_jbottom j v : gamma (jbottom j) (jv j v) <-> in_s (jwidth j) v.
Proof.
  destruct j; cbn; unfold in_s, min_jint, max_jint, min_jlong, max_jlong; cbn; lia.
Qed.

Lemma jrange_jbottom j : jrange j (jbottom j).
Proof.
  destruct j; cbn [jrange jbottom]; rewrite ?INT_eq, ?LONG_eq; cbn [int_range long_range];
    unfold min_jint, max_jint, min_jlong, max_jlong; lia.
Qed.

Lemma jrange_data j t : jrange j t -> data t = true.
Proof. by destruct j, t. Qed.

Lemma jrange_phase j t : jrange j t -> phase_type j t.
Proof. unfold phase_type. auto. Qed.

Lemma phase_data j t : phase_type j t -> data t = true.
Proof. intros [->|[->|?]]; [done|done|by eapply jrange_data]. Qed.

Lemma jrange_not_top j t : jrange j t -> t <> TOP.
Proof. by intros ? ->; destruct j. Qed.

Lemma jrange_not_bottom j t : jrange j t -> t <> BOTTOM.
Proof. by intros ? ->; destruct j. Qed.

Lemma max_widen_range w w' : 0 <= w <= 3 -> 0 <= w' <= 3 -> 0 <= MAX2 w w' <= 3.
Proof. rewrite MAX2_max. lia. Qed.
Create HintDb nodes.
#[export] Hint Resolve jrange_phase jrange_jbottom max_widen_range : nodes.

(** The two ways a ring operation answers. *)
Lemma ring_ok_make j lo0 hi0 w0 lo1 hi1 w1 op lo hi w :
  - 2 ^ (jwidth j - 1) <= lo <= hi -> hi <= 2 ^ (jwidth j - 1) - 1 -> 0 <= w <= 3 ->
  (forall a b, lo0 <= a <= hi0 -> lo1 <= b <= hi1 -> lo <= op a b <= hi) ->
  ring_ok j (Some (jmake j lo hi w)) (jt j lo0 hi0 w0) (jt j lo1 hi1 w1) (fn op).
Proof.
  intros ? ? ? Hop. eexists. split; [done|]. split; [by apply jrange_make|].
  intros a b c. rewrite !gamma_jt, gamma_make. intros ? ? ->. by apply Hop.
Qed.

Lemma ring_ok_bottom j lo0 hi0 w0 lo1 hi1 w1 op :
  (forall a b, lo0 <= a <= hi0 -> lo1 <= b <= hi1 -> in_s (jwidth j) (op a b)) ->
  ring_ok j (Some (jbottom j)) (jt j lo0 hi0 w0) (jt j lo1 hi1 w1) (fn op).
Proof.
  intros Hop. eexists. split; [done|]. split; [apply jrange_jbottom|].
  intros a b c. rewrite !gamma_jt, gamma_jbottom. intros ? ? ->. by apply Hop.
Qed.

Lemma swrap_cases w x : 0 < w -> - 2 ^ w <= x < 2 ^ w ->
  (- 2 ^ (w - 1) <= x < 2 ^ (w - 1) /\ swrap w x = x) \/
  (x < - 2 ^ (w - 1) /\ swrap w x = x + 2 ^ w) \/
  (2 ^ (w - 1) <= x /\ swrap w x = x - 2 ^ w).
Proof.
  intros Hw Hx. pose proof (pow2_half w Hw).
  destruct (Z.ltb_spec x (- 2 ^ (w - 1))) as [|]; [|destruct (Z.ltb_spec x (2 ^ (w - 1)))].
  - right. left. split; [done|]. rewrite <- (swrap_small w Hw (x + 2 ^ w)) by (unfold in_s; lia).
    apply (swrap_eq w Hw _ _ (-1)). lia.
  - left. split; [lia|]. apply swrap_small; [done|unfold in_s; lia].
  - right. right. split; [done|]. rewrite <- (swrap_small w Hw (x - 2 ^ w)) by (unfold in_s; lia).
    apply (swrap_eq w Hw _ _ 1). lia.
Qed.

Lemma land_sign a b : (Z.land a b <? 0) = (a <? 0) && (b <? 0).
Proof. pose proof (Z.land_neg a b). zcases; tauto || done. Qed.

Lemma lnot_lor_sign a b : (Z.lnot (Z.lor a b) <? 0) = (0 <=? a) && (0 <=? b).
Proof. pose proof (Z.lor_nonneg a b). unfold Z.lnot. zcases; try done; lia. Qed.

Lemma lxor_sign a b : (0 <=? Z.lxor a b) = Bool.eqb (0 <=? a) (0 <=? b).
Proof. pose proof (Z.lxor_nonneg a b). zcases; try done; intuition lia. Qed.

(** The bit operations stay within the width. *)
Lemma in_s_shiftr w x : 0 < w -> in_s w x <-> Z.shiftr x (w - 1) = 0 \/ Z.shiftr x (w - 1) = -1.
Proof.
  intros Hw. rewrite Z.shiftr_div_pow2 by lia. unfold in_s.
  assert (0 < 2 ^ (w - 1)) by (apply pow2_pos; lia).
  pose proof (Z.div_mod x (2 ^ (w - 1)) ltac:(lia)).
  pose proof (Z.mod_pos_bound x (2 ^ (w - 1)) ltac:(lia)). split; [nia|].
  intros [E|E]; rewrite E in *; lia.
Qed.

Lemma in_s_lor w a b : 0 < w -> in_s w a -> in_s w b -> in_s w (Z.lor a b).
Proof. intros Hw. rewrite !in_s_shiftr, Z.shiftr_lor by done. by intros [-> | ->] [-> | ->]; auto. Qed.

Lemma in_s_lxor w a b : 0 < w -> in_s w a -> in_s w b -> in_s w (Z.lxor a b).
Proof. intros Hw. rewrite !in_s_shiftr, Z.shiftr_lxor by done. by intros [-> | ->] [-> | ->]; auto. Qed.

Lemma in_s_land w a b : 0 < w -> in_s w a -> in_s w b -> in_s w (Z.land a b).
Proof. intros Hw. rewrite !in_s_shiftr, Z.shiftr_land by done. by intros [-> | ->] [-> | ->]; auto. Qed.

Lemma land_pos_range a b : 0 <= a -> 0 <= Z.land a b <= a.
Proof.
  intros Ha. split; [by apply Z.land_nonneg; left|].
  rewrite <- (Z.lor_ldiff_and a b) at 2.
  assert (Hd : Z.land (Z.ldiff a b) (Z.land a b) = 0).
  { apply Z.bits_inj'. intros i Hi. zbits. by destruct (Z.testbit a i), (Z.testbit b i). }
  rewrite <- Z.add_nocarry_lor by done.
  pose proof (proj2 (Z.ldiff_nonneg a b) (or_introl Ha)). lia.
Qed.

Lemma jwidth_pos j : 0 < jwidth j.
Proof. by destruct j. Qed.
#[export] Hint Resolve jwidth_pos in_s_lor in_s_lxor in_s_land swrap_range : nodes.

(* ------------------------------------------------------------------ *)
(** ** The three kinds of node, against their interfaces *)

Lemma gamma_TOP v : ~ gamma TOP v.
Proof. by intros H; destruct v. Qed.

Section AddNode.
Context {n : AddNode} {j : jtype} {op : Z -> Z -> Z} `{!AddNode_laws n j op}.

Lemma add_of_identity_spec t1 t2 : jrange j t1 -> jrange j t2 ->
  exists o, add_of_identity n t1 t2 = Some o /\
    forall t, o = Some t -> jrange j t /\
      forall a b, in_s (jwidth j) a -> in_s (jwidth j) b ->
        gamma t1 (jv j a) -> gamma t2 (jv j b) -> gamma t (jv j (op a b)).
Proof using All.
  intros H1 H2. unfold add_of_identity.
  pose proof (jrange_data _ _ add_id_range) as Hid.
  destruct (higher_equal_sound t1 (add_id n)) as (h1 & -> & Hh1); [by eapply jrange_data|done|].
  cbn [mbind option_bind]. destruct h1.
  { eexists. split; [done|]. intros t [= <-]. split; [done|]. intros a b Ha Hb Ga Gb.
    rewrite add_id_left; auto. }
  destruct (higher_equal_sound t2 (add_id n)) as (h2 & -> & Hh2); [by eapply jrange_data|done|].
  cbn [mbind option_bind]. destruct h2; (eexists; split; [done|]); [|done].
  intros t [= <-]. split; [done|]. intros a b Ha Hb Ga Gb. rewrite add_id_right; auto.
Qed.

Lemma AddNode_Value_sound : value_sound (AddNode_Value n) j j j (fn op).
Proof using All.
  intros t1 t2 H1 H2. unfold AddNode_Value. rewrite add_bottom.
  case_bool_decide as E1; [subst; exists TOP; split_and!; [done|by left|by intros a b c ? ? ?%gamma_TOP]|].
  case_bool_decide as E2; [subst; exists TOP; split_and!; [done|by left|by intros a b c ? ? ? ?%gamma_TOP]|].
  destruct (_ || _) eqn:Ebot.
  { exists (jbottom j). split_and!; [done|auto with nodes|]. intros a b c ? ? _ _ ->.
    by apply gamma_jbottom, add_op_range. }
  rewrite !orb_false_iff, !bool_decide_eq_false in Ebot.
  destruct H1 as [?|[?|H1]]; [tauto..|]. destruct H2 as [?|[?|H2]]; [tauto..|].
  destruct (add_of_identity_spec t1 t2 H1 H2) as (o & -> & Ho). cbn [mbind option_bind].
  destruct o as [t|].
  - destruct (Ho t eq_refl) as [Hr Hop]. exists t. split_and!; [done|auto with nodes|].
    intros a b c ? ? ? ? ->. by apply Hop.
  - destruct (add_ring_sound t1 t2 H1 H2) as (t & E & Hr & Hop). exists t.
    split_and!; [done|auto with nodes|]. intros a b c ? ?. apply Hop.
Qed.
End AddNode.

Section MulNode.
Context {n : MulNode} {j : jtype} {op : Z -> Z -> Z} `{!MulNode_laws n j op}.

Lemma MulNode_Value_sound : value_sound (MulNode_Value n) j j j (fn op).
Proof using All.
  intros t1 t2 H1 H2. unfold MulNode_Value. rewrite mul_bottom.
  pose proof (jrange_data _ _ mul_zero_range) as Hz.
  case_bool_decide as E1; [subst; exists TOP; split_and!; [done|by left|by intros a b c ? ? ?%gamma_TOP]|].
  case_bool_decide as E2; [subst; exists TOP; split_and!; [done|by left|by intros a b c ? ? ? ?%gamma_TOP]|].
  assert (Hzero : phase_type j (mul_zero n)) by (right; right; apply mul_zero_range).
  destruct (higher_equal_sound t1 (mul_zero n)) as (h1 & -> & Hh1); [by eapply phase_data|done|].
  cbn [mbind option_bind]. destruct h1.
  { eexists. split_and!; [done|done|]. intros a b c ? ? Ga ? ->. apply mul_zero_left. auto. }
  destruct (higher_equal_sound t2 (mul_zero n)) as (h2 & -> & Hh2); [by eapply phase_data|done|].
  cbn [mbind option_bind]. destruct h2.
  { eexists. split_and!; [done|done|]. intros a b c ? ? ? Gb ->. apply mul_zero_right. auto. }
  destruct (_ || _) eqn:Ebot.
  { exists (jbottom j). split_and!; [done|auto with nodes|]. intros a b c ? ? _ _ ->.
    by apply gamma_jbottom, mul_op_range. }
  rewrite !orb_false_iff, !bool_decide_eq_false in Ebot.
  destruct H1 as [?|[?|H1]]; [tauto..|]. destruct H2 as [?|[?|H2]]; [tauto..|].
  destruct (mul_ring_sound t1 t2 H1 H2) as (t & E & Hr & Hop). exists t.
  split_and!; [done|auto with nodes|]. intros a b c ? ?. apply Hop.
Qed.
End MulNode.

Section SubNode.
Context {n : SubNode} {j1 j2 : jtype} {op : Z -> Z -> Z -> Prop} `{!SubNode_laws n j1 j2 op}.

(** The flag [eqv] is only set when both inputs have the same value. *)
Lemma SubNode_Value_sound (eqv : bool) :
  value_sound (SubNode_Value n eqv) j1 j1 j2 (fun a b c => (eqv = true -> a = b) /\ op a b c).
Proof using All.
  intros t1 t2 H1 H2. unfold SubNode_Value.
  case_bool_decide as E1; [subst; exists TOP; split_and!; [done|by left|by intros a b c ? ? ?%gamma_TOP]|].
  case_bool_decide as E2; [subst; exists TOP; split_and!; [done|by left|by intros a b c ? ? ? ?%gamma_TOP]|].
  destruct eqv.
  { eexists. split_and!; [done|apply jrange_phase, sub_id_range|].
    intros a b c ? ? _ _ [Heq Hop]. rewrite <- (Heq eq_refl) in Hop. by eapply sub_same. }
  destruct (_ || _) eqn:Ebot.
  { eexists. split_and!; [done|apply jrange_phase, sub_bottom_range|].
    intros a b c ? ? _ _ [_ Hop]. by eapply (sub_bottom a b). }
  rewrite !orb_false_iff, !bool_decide_eq_false in Ebot.
  destruct H1 as [?|[?|H1]]; [tauto..|]. destruct H2 as [?|[?|H2]]; [tauto..|].
  destruct (sub_sound t1 t2 H1 H2) as (t & E & Hr & Hop). exists t.
  split_and!; [done|auto with nodes|]. intros a b c ? ? ? ? [_ ?]. by eapply (Hop a b).
Qed.
End SubNode.

(* ------------------------------------------------------------------ *)
(** ** Additions *)

(** The Java operations on [w]-bit integers. *)
Definition jadd (w a b : Z) : Z := swrap w (a + b).
Definition jsub (w a b : Z) : Z := swrap w (a - b).
Definition jmul (w a b : Z) : Z := swrap w (a * b).

Ltac range_inv H1 H2 :=
  apply jrange_inv in H1 as (lo0 & hi0 & w0 & -> & ? & ? & ?);
  apply jrange_inv in H2 as (lo1 & hi1 & w1 & -> & ? & ? & ?);
  cbn [jwidth jt] in *;
  change (2 ^ (32 - 1)) with (2 ^ 31) in *; change (2 ^ (64 - 1)) with (2 ^ 63) in *.

(** The case analysis of a wrapped sum. *)
Ltac sum_cases w x :=
  destruct (swrap_cases w x ltac:(lia) ltac:(lia)) as [[? ?]|[[? ?]|[? ?]]].

(** Decide the tests of a ring operation, and leave a range to be justified. *)
Ltac ring_cases j :=
  repeat match goal with |- context [if ?b then _ else _] => destruct b eqn:? end; zreflect;
  try lia; apply (ring_ok_make j); try (by apply max_widen_range); cbn [jwidth];
  change (2 ^ (32 - 1)) with (2 ^ 31) in *; change (2 ^ (64 - 1)) with (2 ^ 63) in *; try lia.

Lemma AddI_ring_sound t1 t2 :
  jrange JInt t1 -> jrange JInt t2 -> ring_ok JInt (AddI_add_ring t1 t2) t1 t2 (fn (jadd 32)).
Proof.
  intros H1 H2. range_inv H1 H2. cbn [AddI_add_ring]. rewrite land_sign, lnot_lor_sign.
  unfold is_con, min_jint, max_jint.
  sum_cases 32 (lo0 + lo1); sum_cases 32 (hi0 + hi1); ring_cases JInt;
    intros a b ? ?; unfold jadd; sum_cases 32 (a + b); lia.
Qed.

Lemma AddL_ring_sound t1 t2 :
  jrange JLong t1 -> jrange JLong t2 -> ring_ok JLong (AddL_add_ring t1 t2) t1 t2 (fn (jadd 64)).
Proof.
  intros H1 H2. range_inv H1 H2. cbn [AddL_add_ring]. rewrite land_sign, lnot_lor_sign.
  unfold is_con, min_jlong, max_jlong.
  sum_cases 64 (lo0 + lo1); sum_cases 64 (hi0 + hi1); ring_cases JLong;
    intros a b ? ?; unfold jadd; sum_cases 64 (a + b); lia.
Qed.

(** Enumerate a value between two literals. *)
Lemma bool_range a : 0 <= a <= 1 -> a = 0 \/ a = 1.
Proof. lia. Qed.

Lemma jt_inj j lo hi w lo' hi' w' :
  jt j lo hi w = jt j lo' hi' w' -> lo = lo' /\ hi = hi' /\ w = w'.
Proof. destruct j; cbn; intros; by simplify_eq. Qed.

(** A ring operation on constants, and one that gives up. *)
Lemma ring_ok_con j lo0 hi0 w0 lo1 hi1 w1 op :
  is_con lo0 hi0 = true -> is_con lo1 hi1 = true -> in_s (jwidth j) (op lo0 lo1) ->
  ring_ok j (Some (jmake j (op lo0 lo1) (op lo0 lo1) WidenMin)) (jt j lo0 hi0 w0) (jt j lo1 hi1 w1) (fn op).
Proof.
  unfold is_con, in_s. intros ? ? Hr. zreflect. subst.
  apply ring_ok_make; [lia|lia|unfold WidenMin; lia|].
  intros a b ? ?. replace a with hi0 by lia. replace b with hi1 by lia. lia.
Qed.

Lemma TypeInt_con_make v : TypeInt_con v = TypeInt_make v v WidenMin.
Proof.
  unfold TypeInt_con, TypeInt_make. rewrite Z.sub_diag, Z.leb_refl. reflexivity.
Qed.

Lemma TypeLong_con_make v : TypeLong_con v = TypeLong_make v v WidenMin.
Proof.
  unfold TypeLong_con, TypeLong_make. rewrite Z.sub_diag, Z.leb_refl. reflexivity.
Qed.

(** The part of the bitwise operations shared by both widths. *)
Lemma bitwise_ring_ok j lo0 hi0 w0 lo1 hi1 w1 op :
  jrange j (jt j lo0 hi0 w0) -> jrange j (jt j lo1 hi1 w1) ->
  (forall a b, in_s (jwidth j) a -> in_s (jwidth j) b -> in_s (jwidth j) (op a b)) ->
  ring_ok j (if negb (is_con lo0 hi0) || negb (is_con lo1 hi1) then Some (jbottom j)
             else Some (jmake j (op lo0 lo1) (op lo0 lo1) WidenMin))
    (jt j lo0 hi0 w0) (jt j lo1 hi1 w1) (fn op).
Proof.
  intros H0 H1 Hop.
  apply jrange_inv in H0 as (l0 & h0 & u0 & (-> & -> & ->)%jt_inj & ? & ? & ?).
  apply jrange_inv in H1 as (l1 & h1 & u1 & (-> & -> & ->)%jt_inj & ? & ? & ?).
  destruct (_ || _) eqn:E; zreflect.
  - apply ring_ok_bottom. intros a b ? ?. apply Hop; unfold in_s; lia.
  - apply ring_ok_con; [done|done|]. apply Hop; unfold in_s; lia.
Qed.

Lemma INT_ONE_make : INT_ONE = TypeInt_make 1 1 0.
Proof. reflexivity. Qed.

Lemma INT_BOOL_make : INT_BOOL = TypeInt_make 0 1 0.
Proof. reflexivity. Qed.

Lemma OrI_ring_sound t1 t2 :
  jrange JInt t1 -> jrange JInt t2 -> ring_ok JInt (OrI_add_ring t1 t2) t1 t2 (fn Z.lor).
Proof.
  intros H1 H2. pose proof H1 as R1. pose proof H2 as R2. range_inv H1 H2.
  cbn [OrI_add_ring]. rewrite TypeInt_con_make.
  pose proof (bitwise_ring_ok JInt lo0 hi0 w0 lo1 hi1 w1 Z.lor R1 R2 ltac:(auto with nodes)) as Hrest.
  repeat case_bool_decide; try exact Hrest.
  all: repeat match goal with
    | H : TInt _ _ _ = INT_BOOL |- _ => change INT_BOOL with (TInt 0 1 0) in H; injection H as -> -> ->
    | H : TInt _ _ _ = INT_ONE |- _ => change INT_ONE with (TInt 1 1 0) in H; injection H as -> -> ->
    end; try lia.
  all: first [rewrite INT_ONE_make | rewrite INT_BOOL_make].
  all: apply (ring_ok_make JInt); cbn; try lia.
  all: intros a b ? ?; destruct (bool_range a) as [-> | ->], (bool_range b) as [-> | ->]; lia || by (split; vm_compute).
Qed.

Lemma XorI_ring_sound t1 t2 :
  jrange JInt t1 -> jrange JInt t2 -> ring_ok JInt (XorI_add_ring t1 t2) t1 t2 (fn Z.lxor).
Proof.
  intros H1 H2. pose proof H1 as R1. pose proof H2 as R2. range_inv H1 H2.
  cbn [XorI_add_ring]. rewrite TypeInt_con_make.
  destruct (_ && _) eqn:E; [|apply (bitwise_ring_ok JInt); auto with nodes].
  apply andb_prop in E as [E1%bool_decide_eq_true E2%orb_true_iff].
  rewrite !bool_decide_eq_true in E2. injection E1 as -> -> ->.
  assert (0 <= lo1 <= 1 /\ 0 <= hi1 <= 1) as [? ?]
    by (destruct E2 as [E2|E2]; injection E2 as -> -> ->; lia).
  rewrite INT_BOOL_make. apply (ring_ok_make JInt); cbn; try lia.
  intros a b ? ?. destruct (bool_range a) as [-> | ->], (bool_range b) as [-> | ->]; lia || by (split; vm_compute).
Qed.

Lemma OrL_ring_sound t1 t2 :
  jrange JLong t1 -> jrange JLong t2 -> ring_ok JLong (OrL_add_ring t1 t2) t1 t2 (fn Z.lor).
Proof.
  intros H1 H2. pose proof H1 as R1. pose proof H2 as R2. range_inv H1 H2.
  cbn [OrL_add_ring]. rewrite TypeLong_con_make. apply (bitwise_ring_ok JLong); auto with nodes.
Qed.

Lemma XorL_ring_sound t1 t2 :
  jrange JLong t1 -> jrange JLong t2 -> ring_ok JLong (XorL_add_ring t1 t2) t1 t2 (fn Z.lxor).
Proof.
  intros H1 H2. pose proof H1 as R1. pose proof H2 as R2. range_inv H1 H2.
  cbn [XorL_add_ring]. rewrite TypeLong_con_make. apply (bitwise_ring_ok JLong); auto with nodes.
Qed.

Lemma MaxI_ring_sound t1 t2 :
  jrange JInt t1 -> jrange JInt t2 -> ring_ok JInt (MaxI_add_ring t1 t2) t1 t2 (fn Z.max).
Proof.
  intros H1 H2. range_inv H1 H2. cbn [MaxI_add_ring]. rewrite !(MAX2_max lo0), !(MAX2_max hi0).
  apply (ring_ok_make JInt); cbn; auto with nodes; lia.
Qed.

Lemma MinI_ring_sound t1 t2 :
  jrange JInt t1 -> jrange JInt t2 -> ring_ok JInt (MinI_add_ring t1 t2) t1 t2 (fn Z.min).
Proof.
  intros H1 H2. range_inv H1 H2. cbn [MinI_add_ring]. rewrite !(MIN2_min lo0), !(MIN2_min hi0).
  apply (ring_ok_make JInt); cbn; auto with nodes; lia.
Qed.

Lemma jrange_con j v : in_s (jwidth j) v -> jrange j (jt j v v 0).
Proof.
  unfold in_s. destruct j; cbn; unfold min_jint, max_jint, min_jlong, max_jlong; lia.
Qed.

(** Discharge the laws of the identity. *)
Ltac add_laws j w :=
  match goal with
  | |- jrange _ _ => apply (jrange_con j); unfold in_s; cbn [jwidth]; lia
  | |- forall a b, gamma _ (jv _ a) -> _ =>
      intros a b Ha Hb; assert (a = 0) as -> by (cbn in Ha; lia);
      unfold jadd; first [by rewrite ?Z.lor_0_l, ?Z.lxor_0_l | rewrite Z.add_0_l; by apply swrap_small]
  | |- forall a b, gamma _ (jv _ b) -> _ =>
      intros a b Hb Ha; assert (b = 0) as -> by (cbn in Hb; lia);
      unfold jadd; first [by rewrite ?Z.lor_0_r, ?Z.lxor_0_r | rewrite Z.add_0_r; by apply swrap_small]
  | |- forall a b, in_s _ a -> _ =>
      intros; first [by apply swrap_range | by apply in_s_lor | by apply in_s_lxor]
  | |- _ = _ => done
  end.

#[export] Instance AddI_laws : AddNode_laws AddINode JInt (jadd 32).
Proof. split; [exact AddI_ring_sound|..]; add_laws JInt 32. Qed.
#[export] Instance AddL_laws : AddNode_laws AddLNode JLong (jadd 64).
Proof. split; [exact AddL_ring_sound|..]; add_laws JLong 64. Qed.
#[export] Instance OrI_laws : AddNode_laws OrINode JInt Z.lor.
Proof. split; [exact OrI_ring_sound|..]; add_laws JInt 32. Qed.
#[export] Instance OrL_laws : AddNode_laws OrLNode JLong Z.lor.
Proof. split; [exact OrL_ring_sound|..]; add_laws JLong 64. Qed.
#[export] Instance XorI_laws : AddNode_laws XorINode JInt Z.lxor.
Proof. split; [exact XorI_ring_sound|..]; add_laws JInt 32. Qed.
#[export] Instance XorL_laws : AddNode_laws XorLNode JLong Z.lxor.
Proof. split; [exact XorL_ring_sound|..]; add_laws JLong 64. Qed.

#[export] Instance MaxI_laws : AddNode_laws MaxINode JInt Z.max.
Proof.
  split; [exact MaxI_ring_sound|..]; cbn -[Z.pow]; unfold min_jint, in_s;
    (done || (unfold max_jint; cbn -[Z.pow]; lia)).
Qed.
#[export] Instance MinI_laws : AddNode_laws MinINode JInt Z.min.
Proof.
  split; [exact MinI_ring_sound|..]; cbn -[Z.pow]; unfold max_jint, in_s;
    (done || (unfold min_jint; cbn -[Z.pow]; lia)).
Qed.

(** C36: The additive nodes (addition, or, exclusive or, maximum and minimum, on ints
    and longs): from any types the compiler has for the inputs, [AddNode::Value] computes a
    type that contains the result of the Java operation, with its wrap-around, on all
    values of the input types; it never fails and always answers with a well-formed
    type. *)
Theorem add_values_sound :
  value_sound (AddNode_Value AddINode) JInt JInt JInt (fn (jadd 32)) /\
  value_sound (AddNode_Value AddLNode) JLong JLong JLong (fn (jadd 64)) /\
  value_sound (AddNode_Value OrINode) JInt JInt JInt (fn Z.lor) /\
  value_sound (AddNode_Value OrLNode) JLong JLong JLong (fn Z.lor) /\
  value_sound (AddNode_Value XorINode) JInt JInt JInt (fn Z.lxor) /\
  value_sound (AddNode_Value XorLNode) JLong JLong JLong (fn Z.lxor) /\
  value_sound (AddNode_Value MaxINode) JInt JInt JInt (fn Z.max) /\
  value_sound (AddNode_Value MinINode) JInt JInt JInt (fn Z.min).
Proof. split_and!; apply AddNode_Value_sound. Qed.

(* ------------------------------------------------------------------ *)
(** ** Multiplications *)

(** The relative error of the conversion to [double]. *)
Lemma to_double_error x : Z.abs (to_double x - x) * 2 ^ 53 <= Z.abs x.
Proof.
  unfold to_double. set (a := Z.abs x). set (n := Z.log2 a + 1).
  destruct (Z.leb_spec n 53); [lia|]. set (k := n - 53).
  assert (Ha : 2 ^ (n - 1) <= a).
  { unfold n. rewrite Z.add_simpl_r. apply Z.log2_spec.
    destruct (Z.ltb_spec 0 a); [done|]. unfold n in *. rewrite Z.log2_nonpos in * by done. lia. }
  replace (n - 1) with ((k - 1) + 53) in Ha by lia. rewrite Z.pow_add_r in Ha by lia.
  assert (Hk : 2 ^ k = 2 * 2 ^ (k - 1)) by (rewrite <- Z.pow_succ_r by lia; f_equal; lia).
  assert (Hpos : 0 < 2 ^ (k - 1)) by (apply pow2_pos; lia).
  rewrite Z.shiftr_div_pow2 by lia.
  pose proof (Z.div_mod a (2 ^ k) ltac:(lia)) as Hdm.
  pose proof (Z.mod_pos_bound a (2 ^ k) ltac:(lia)).
  set (r := a mod 2 ^ k) in *. set (q := a / 2 ^ k) in *.
  assert (Hround : forall q', (q' = q /\ r <= 2 ^ (k - 1)) \/ (q' = q + 1 /\ 2 ^ (k - 1) <= r) ->
            Z.abs (Z.sgn x * (q' * 2 ^ k) - x) <= 2 ^ (k - 1)).
  { intros q' Hq. assert (Z.abs (q' * 2 ^ k - a) <= 2 ^ (k - 1)).
    { destruct Hq as [[-> ?]|[-> ?]]; rewrite ?Z.mul_add_distr_r; lia. }
    unfold a in *. destruct (Z.sgn_spec x) as [[? ->]|[[? ->]|[? ->]]]; lia. }
  apply Z.le_trans with (2 ^ (k - 1) * 2 ^ 53); [|done].
  apply Z.mul_le_mono_nonneg_r; [lia|]. apply Hround.
  destruct (_ || _) eqn:E; zreflect.
  - right. split; [done|]. apply orb_prop in E as [E|E]; zreflect; lia.
  - left. split; [done|]. lia.
Qed.

Lemma abs_mul_le a b p q : Z.abs a * p <= Z.abs b -> 0 <= p -> 0 <= q -> Z.abs (a * q) * p <= Z.abs b * q.
Proof. intros. rewrite Z.abs_mul, (Z.abs_eq q) by done. nia. Qed.

(** The product of the rounded factors is close to the product. *)
Lemma double_factors_error x y :
  Z.abs (to_double x * to_double y - x * y) * 2 ^ 53 <= 3 * Z.abs (x * y).
Proof.
  pose proof (to_double_error x) as Hx. pose proof (to_double_error y) as Hy.
  set (dx := to_double x - x) in *. set (dy := to_double y - y) in *.
  replace (to_double x) with (x + dx) by lia. replace (to_double y) with (y + dy) by lia.
  assert (H1 : Z.abs (x * dy) * 2 ^ 53 <= Z.abs (x * y)).
  { rewrite !Z.abs_mul, <- Z.mul_assoc. by apply Z.mul_le_mono_nonneg_l; [lia|]. }
  assert (H2 : Z.abs (dx * y) * 2 ^ 53 <= Z.abs (x * y)).
  { rewrite !Z.abs_mul, (Z.mul_comm (Z.abs dx)), (Z.mul_comm (Z.abs x)), <- Z.mul_assoc.
    by apply Z.mul_le_mono_nonneg_l; [lia|]. }
  assert (H3 : Z.abs (dx * dy) * 2 ^ 53 <= Z.abs (x * y)).
  { apply Z.le_trans with (Z.abs (x * dy) * 2 ^ 53); [|done].
    apply Z.mul_le_mono_nonneg_r; [lia|]. rewrite !Z.abs_mul.
    apply Z.mul_le_mono_nonneg_r; lia. }
  lia.
Qed.

(** Comparing the wrapped product with the product in [double] detects every overflow. *)
Lemma overflow_check j x y :
  to_double (swrap (jwidth j) (x * y)) = double_mul (to_double x) (to_double y) ->
  swrap (jwidth j) (x * y) = x * y.
Proof.
  intros E. unfold double_mul in E.
  destruct (swrap_cong (jwidth j) (jwidth_pos j) (x * y)) as [k Ek].
  pose proof (swrap_range (jwidth j) (jwidth_pos j) (x * y)) as Hr. unfold in_s in Hr.
  pose proof (to_double_error (swrap (jwidth j) (x * y))) as H1. rewrite E in H1.
  pose proof (to_double_error (to_double x * to_double y)) as H2.
  pose proof (double_factors_error x y) as H3.
  set (A := swrap (jwidth j) (x * y)) in *.
  generalize dependent (to_double (to_double x * to_double y)). intros F _ ? ?.
  generalize dependent (to_double x * to_double y). intros ac ? ?.
  generalize dependent (x * y). intros P ? ?. clearbody A.
  destruct j; cbn [jwidth] in *; lia.
Qed.

Lemma sort_endpoints_spec A B C D lo hi :
  sort_endpoints A B C D = (lo, hi) ->
  lo = Z.min (Z.min A B) (Z.min C D) /\ hi = Z.max (Z.max A B) (Z.max C D).
Proof. unfold sort_endpoints. zcases; intros [= <- <-]; lia. Qed.

(** A linear function over an interval lies between its values at the ends. *)
Lemma mul_between lo hi a c : lo <= a <= hi -> Z.min (lo * c) (hi * c) <= a * c <= Z.max (lo * c) (hi * c).
Proof. intros. destruct (Z.leb_spec 0 c); [|]; nia. Qed.

Lemma mul_endpoints lo0 hi0 lo1 hi1 a b :
  lo0 <= a <= hi0 -> lo1 <= b <= hi1 ->
  Z.min (Z.min (lo0 * lo1) (lo0 * hi1)) (Z.min (hi0 * lo1) (hi0 * hi1)) <= a * b <=
  Z.max (Z.max (lo0 * lo1) (lo0 * hi1)) (Z.max (hi0 * lo1) (hi0 * hi1)).
Proof.
  intros Ha Hb. pose proof (mul_between lo0 hi0 a b Ha).
  pose proof (mul_between lo1 hi1 b lo0 Hb). pose proof (mul_between lo1 hi1 b hi0 Hb).
  lia.
Qed.

(** What both multiplications do once the factors are known. *)
Lemma mul_ring_ok j lo0 hi0 w0 lo1 hi1 w1 :
  jrange j (jt j lo0 hi0 w0) -> jrange j (jt j lo1 hi1 w1) ->
  ring_ok j
    (let a := to_double lo0 in let b := to_double hi0 in
     let c := to_double lo1 in let d := to_double hi1 in
     let A := swrap (jwidth j) (lo0 * lo1) in
     if negb (to_double A =? double_mul a c) then Some (jbottom j) else
     let B := swrap (jwidth j) (lo0 * hi1) in
     if negb (to_double B =? double_mul a d) then Some (jbottom j) else
     let C := swrap (jwidth j) (hi0 * lo1) in
     if negb (to_double C =? double_mul b c) then Some (jbottom j) else
     let D := swrap (jwidth j) (hi0 * hi1) in
     if negb (to_double D =? double_mul b d) then Some (jbottom j) else
     let '(lo, hi) := sort_endpoints A B C D in
     Some (jmake j lo hi (MAX2 w0 w1)))
    (jt j lo0 hi0 w0) (jt j lo1 hi1 w1) (fn (jmul (jwidth j))).
Proof.
  intros H0 H1.
  apply jrange_inv in H0 as (l0 & h0 & u0 & (-> & -> & ->)%jt_inj & ? & ? & ?).
  apply jrange_inv in H1 as (l1 & h1 & u1 & (-> & -> & ->)%jt_inj & ? & ? & ?).
  cbv zeta.
  assert (Hbot : ring_ok j (Some (jbottom j)) (jt j l0 h0 u0) (jt j l1 h1 u1) (fn (jmul (jwidth j))))
    by (apply ring_ok_bottom; intros; apply swrap_range, jwidth_pos).
  repeat match goal with |- context [negb (?x =? ?y)] =>
    let E := fresh "E" in
    destruct (Z.eqb_spec x y) as [E%overflow_check|]; cbn [negb]; [|exact Hbot] end.
  destruct (sort_endpoints _ _ _ _) as [lo hi] eqn:Es. apply sort_endpoints_spec in Es as [Elo Ehi].
  pose proof (mul_endpoints l0 h0 l1 h1) as Hend.
  assert (Hw : forall x, in_s (jwidth j) (swrap (jwidth j) x)) by (intros; apply swrap_range, jwidth_pos).
  pose proof (Hw (l0 * l1)). pose proof (Hw (l0 * h1)). pose proof (Hw (h0 * l1)). pose proof (Hw (h0 * h1)).
  unfold in_s in *. rewrite E, E0, E1, E2 in *. clear Hw.
  apply ring_ok_make; [lia|lia|by apply max_widen_range|].
  intros a b Ha Hb. specialize (Hend a b Ha Hb). unfold jmul. rewrite swrap_small; [lia|apply jwidth_pos|].
  unfold in_s. lia.
Qed.

Lemma AndI_ring_sound t1 t2 :
  jrange JInt t1 -> jrange JInt t2 -> ring_ok JInt (AndI_mul_ring t1 t2) t1 t2 (fn Z.land).
Proof.
  intros H1 H2. range_inv H1 H2. cbn [AndI_mul_ring].
  assert (Hbot : ring_ok JInt (Some INT) (TInt lo0 hi0 w0) (TInt lo1 hi1 w1) (fn Z.land)).
  { apply (ring_ok_bottom JInt). intros a b ? ?. apply in_s_land; [done|unfold in_s; cbn [jwidth]; lia..]. }
  destruct (negb (is_con lo0 hi0) && negb (is_con lo1 hi1)); [exact Hbot|].
  destruct (is_con lo0 hi0 && is_con lo1 hi1) eqn:Econ.
  { apply andb_prop in Econ as [? ?]. rewrite TypeInt_con_make. apply (ring_ok_con JInt); [done|done|].
    apply in_s_land; [done|unfold in_s; cbn [jwidth]; lia..]. }
  unfold is_con in *.
  destruct ((lo0 =? hi0) && (0 <? lo0)) eqn:E1; zreflect.
  { apply (ring_ok_make JInt); try (by apply max_widen_range); cbn [jwidth]; [lia..|].
    intros a b ? ?. replace a with lo0 by lia. apply land_pos_range. lia. }
  destruct ((lo1 =? hi1) && (0 <? lo1)) eqn:E2; zreflect.
  { apply (ring_ok_make JInt); try (by apply max_widen_range); cbn [jwidth]; [lia..|].
    intros a b ? ?. replace b with lo1 by lia. rewrite Z.land_comm. apply land_pos_range. lia. }
  destruct (_ || _) eqn:E3; [|exact Hbot]. rewrite INT_BOOL_make.
  apply (ring_ok_make JInt); cbn [jwidth]; [lia..|]. intros a b ? ?.
  apply orb_prop in E3 as [E3|E3]; apply bool_decide_eq_true in E3; injection E3 as -> -> ->.
  - pose proof (land_pos_range a b). lia.
  - pose proof (land_pos_range b a). rewrite (Z.land_comm a b). lia.
Qed.

Lemma AndL_ring_sound t1 t2 :
  jrange JLong t1 -> jrange JLong t2 -> ring_ok JLong (AndL_mul_ring t1 t2) t1 t2 (fn Z.land).
Proof.
  intros H1 H2. range_inv H1 H2. cbn [AndL_mul_ring].
  assert (Hbot : ring_ok JLong (Some LONG) (TLong lo0 hi0 w0) (TLong lo1 hi1 w1) (fn Z.land)).
  { apply (ring_ok_bottom JLong). intros a b ? ?. apply in_s_land; [done|unfold in_s; cbn [jwidth]; lia..]. }
  destruct (negb (is_con lo0 hi0) && negb (is_con lo1 hi1)); [exact Hbot|].
  destruct (is_con lo0 hi0 && is_con lo1 hi1) eqn:Econ.
  { apply andb_prop in Econ as [? ?]. rewrite TypeLong_con_make. apply (ring_ok_con JLong); [done|done|].
    apply in_s_land; [done|unfold in_s; cbn [jwidth]; lia..]. }
  unfold is_con in *.
  destruct ((lo0 =? hi0) && (0 <? lo0)) eqn:E1; zreflect.
  { apply (ring_ok_make JLong); try (by apply max_widen_range); cbn [jwidth]; [lia..|].
    intros a b ? ?. replace a with lo0 by lia. apply land_pos_range. lia. }
  destruct ((lo1 =? hi1) && (0 <? lo1)) eqn:E2; zreflect; [|exact Hbot].
  apply (ring_ok_make JLong); try (by apply max_widen_range); cbn [jwidth]; [lia..|].
  intros a b ? ?. replace b with lo1 by lia. rewrite Z.land_comm. apply land_pos_range. lia.
Qed.

Lemma MulI_ring_sound t1 t2 :
  jrange JInt t1 -> jrange JInt t2 -> ring_ok JInt (MulI_mul_ring t1 t2) t1 t2 (fn (jmul 32)).
Proof. intros H1 H2. destruct t1, t2; try done. by apply (mul_ring_ok JInt). Qed.

Lemma MulL_ring_sound t1 t2 :
  jrange JLong t1 -> jrange JLong t2 -> ring_ok JLong (MulL_mul_ring t1 t2) t1 t2 (fn (jmul 64)).
Proof. intros H1 H2. destruct t1, t2; try done. by apply (mul_ring_ok JLong). Qed.

(** Discharge the laws of the absorbing element. *)
Ltac mul_laws j :=
  match goal with
  | |- jrange _ _ => apply (jrange_con j); unfold in_s; cbn [jwidth]; lia
  | |- forall a b, gamma _ (jv _ a) -> _ =>
      intros a b Ha; assert (a = 0) as -> by (cbn in Ha; lia);
      unfold jmul; rewrite ?Z.land_0_l, ?Z.mul_0_l; done
  | |- forall a b, gamma _ (jv _ b) -> _ =>
      intros a b Hb; assert (b = 0) as -> by (cbn in Hb; lia);
      unfold jmul; rewrite ?Z.land_0_r, ?Z.mul_0_r; done
  | |- forall a b, in_s _ a -> _ => intros; first [by apply swrap_range | by apply in_s_land]
  | |- _ = _ => done
  end.

#[export] Instance MulI_laws : MulNode_laws MulINode JInt (jmul 32).
Proof. split; [exact MulI_ring_sound|..]; mul_laws JInt. Qed.
#[export] Instance MulL_laws : MulNode_laws MulLNode JLong (jmul 64).
Proof. split; [exact MulL_ring_sound|..]; mul_laws JLong. Qed.
#[export] Instance AndI_laws : MulNode_laws AndINode JInt Z.land.
Proof. split; [exact AndI_ring_sound|..]; mul_laws JInt. Qed.
#[export] Instance AndL_laws : MulNode_laws AndLNode JLong Z.land.
Proof. split; [exact AndL_ring_sound|..]; mul_laws JLong. Qed.

(** C35: The multiplicative nodes (multiplication and the bitwise and, on ints and
    longs): [MulNode::Value] computes, from any input types, a type that contains the result
    of the Java operation.  For the multiplications this includes that comparing the
    wrapped product of two end points with their product in [double] catches every
    overflow, for longs as well, whose end points are themselves rounded. *)
Theorem mul_values_sound :
  value_sound (MulNode_Value MulINode) JInt JInt JInt (fn (jmul 32)) /\
  value_sound (MulNode_Value MulLNode) JLong JLong JLong (fn (jmul 64)) /\
  value_sound (MulNode_Value AndINode) JInt JInt JInt (fn Z.land) /\
  value_sound (MulNode_Value AndLNode) JLong JLong JLong (fn Z.land).
Proof. split_and!; apply MulNode_Value_sound. Qed.

(* ------------------------------------------------------------------ *)
(** ** Subtractions and comparisons *)

(** The comparison of two integers, -1, 0 or 1. *)
Definition jcmp (a b : Z) : Z := if a <? b then -1 else if a =? b then 0 else 1.

(** The unsigned comparison of ints. *)
Definition jcmpu (a b : Z) : Z := jcmp (u32 a) (u32 b).

(** The remainder of Java, for a divisor other than 0. *)
Definition jrem (a b : Z) : Z := Z.rem a b.

Lemma sub_ring_ok j lo0 hi0 w0 lo1 hi1 w1 :
  jrange j (jt j lo0 hi0 w0) -> jrange j (jt j lo1 hi1 w1) ->
  ring_ok j
    (let lo := swrap (jwidth j) (lo0 - hi1) in
     let hi := swrap (jwidth j) (hi0 - lo1) in
     if ((0 <=? Z.lxor lo0 hi1) || (0 <=? Z.lxor lo0 lo)) &&
        ((0 <=? Z.lxor hi0 lo1) || (0 <=? Z.lxor hi0 hi))
     then Some (jmake j lo hi (MAX2 w0 w1)) else Some (jbottom j))
    (jt j lo0 hi0 w0) (jt j lo1 hi1 w1) (fn (jsub (jwidth j))).
Proof.
  intros H0 H1.
  apply jrange_inv in H0 as (l0 & h0 & u0 & (-> & -> & ->)%jt_inj & ? & ? & ?).
  apply jrange_inv in H1 as (l1 & h1 & u1 & (-> & -> & ->)%jt_inj & ? & ? & ?).
  cbv zeta. rewrite !lxor_sign. pose proof (pow2_half (jwidth j) (jwidth_pos j)).
  pose proof (jwidth_pos j).
  sum_cases (jwidth j) (l0 - h1); sum_cases (jwidth j) (h0 - l1);
    (destruct (_ && _) eqn:E;
     [|apply ring_ok_bottom; intros; by apply swrap_range]);
    (apply ring_ok_make; [lia|lia|by apply max_widen_range|]);
    intros a b ? ?; unfold jsub; sum_cases (jwidth j) (a - b); lia.
Qed.

(** The six answers of a comparison are what their names say. *)
Lemma CC_spec v :
  (gamma CC (VInt v) <-> -1 <= v <= 1) /\ (gamma CC_LT (VInt v) <-> v = -1) /\
  (gamma CC_GT (VInt v) <-> v = 1) /\ (gamma CC_EQ (VInt v) <-> v = 0) /\
  (gamma CC_LE (VInt v) <-> -1 <= v <= 0) /\ (gamma CC_GE (VInt v) <-> 0 <= v <= 1).
Proof. cbn. lia. Qed.

(** An answer of a comparison that is right for the two values. *)
Definition cc_ok (t : Type_) (ok : Z -> Prop) : Prop :=
  int_range t /\ forall v, ok v -> gamma t (VInt v).

Lemma cc_ok_intro t (ok : Z -> Prop) :
  In t [CC; CC_LT; CC_GT; CC_EQ; CC_LE; CC_GE] -> (forall v, ok v -> gamma t (VInt v)) -> cc_ok t ok.
Proof.
  intros Hin Hok. split; [|done]. cbn [In] in Hin.
  repeat (destruct Hin as [<-|Hin];
          [apply (jrange_make JInt); cbn [jwidth]; unfold WidenMin; lia|]). done.
Qed.

Lemma jcmp_cases a b :
  (a < b /\ jcmp a b = -1) \/ (a = b /\ jcmp a b = 0) \/ (b < a /\ jcmp a b = 1).
Proof. unfold jcmp. zcases. Qed.

(** Signed comparison of two ranges. *)
Lemma cmp_range_ok lo0 hi0 lo1 hi1 :
  lo0 <= hi0 -> lo1 <= hi1 ->
  cc_ok (if hi0 <? lo1 then CC_LT
         else if hi1 <? lo0 then CC_GT
         else if is_con lo0 hi0 && is_con lo1 hi1 then CC_EQ
         else if hi0 =? lo1 then CC_LE
         else if lo0 =? hi1 then CC_GE
         else CC)
    (fun v => exists a b, lo0 <= a <= hi0 /\ lo1 <= b <= hi1 /\ v = jcmp a b).
Proof.
  intros ? ?. unfold is_con.
  repeat match goal with |- context [if ?b then _ else _] => destruct b eqn:? end; zreflect;
    (apply cc_ok_intro; [cbn; tauto|]); intros v (a & b & ? & ? & ->);
    pose proof (jcmp_cases a b); generalize dependent (jcmp a b); intros v ?; apply CC_spec; lia.
Qed.

Lemma CmpI_sub_sound t1 t2 : jrange JInt t1 -> jrange JInt t2 ->
  exists t, CmpI_sub t1 t2 = Some t /\ jrange JInt t /\
    forall a b c, in_s 32 a -> in_s 32 b ->
      gamma t1 (VInt a) -> gamma t2 (VInt b) -> c = jcmp a b -> gamma t (VInt c).
Proof.
  intros H1 H2. range_inv H1 H2. eexists. split; [reflexivity|].
  destruct (cmp_range_ok lo0 hi0 lo1 hi1) as [Hr Hok]; [lia..|]. split; [exact Hr|].
  intros a b c _ _ Ha Hb Hc. apply Hok. eauto.
Qed.

Lemma CmpL_sub_sound t1 t2 : jrange JLong t1 -> jrange JLong t2 ->
  exists t, CmpL_sub t1 t2 = Some t /\ jrange JInt t /\
    forall a b c, in_s 64 a -> in_s 64 b ->
      gamma t1 (VLong a) -> gamma t2 (VLong b) -> c = jcmp a b -> gamma t (VInt c).
Proof.
  intros H1 H2. range_inv H1 H2. eexists. split; [reflexivity|].
  destruct (cmp_range_ok lo0 hi0 lo1 hi1) as [Hr Hok]; [lia..|]. split; [exact Hr|].
  intros a b c _ _ Ha Hb Hc. apply Hok. eauto.
Qed.

(** The operation of [CmpU], with what the two flags say of its first input. *)
Definition cmpu_op (mod_in2 mod_in2_uncast : bool) (a b c : Z) : Prop :=
  c = jcmpu a b /\ ((mod_in2 = true \/ mod_in2_uncast = true) -> b <> 0 /\ exists x, a = jrem x b).

Lemma u32_cases x : - 2 ^ 31 <= x < 2 ^ 31 ->
  (0 <= x /\ u32 x = x) \/ (x < 0 /\ u32 x = x + 2 ^ 32).
Proof.
  intros. destruct (Z.ltb_spec x 0).
  - right. split; [done|]. rewrite <- (uwrap_small 32 ltac:(lia) (x + 2 ^ 32)) by (unfold in_u; lia).
    apply (uwrap_eq 32 ltac:(lia) _ _ (-1)). lia.
  - left. split; [done|]. apply uwrap_small; [lia|unfold in_u; lia].
Qed.

(** The sign of the exclusive or of two ints seen as unsigned. *)
Lemma u32_lxor_sign x y : in_s 32 x -> in_s 32 y ->
  (s32 (Z.lxor (u32 x) (u32 y)) <? 0) = negb (Bool.eqb (0 <=? x) (0 <=? y)).
Proof.
  intros Hx Hy.
  assert (E : s32 (Z.lxor (u32 x) (u32 y)) = Z.lxor x y).
  { rewrite <- (swrap_small 32 ltac:(lia) (Z.lxor x y)) by by apply in_s_lxor.
    rewrite <- (swrap_uwrap 32 ltac:(lia) (Z.lxor x y)). f_equal.
    apply Z.bits_inj'. intros i Hi. zbits. by destruct (i <? 32), (Z.testbit x i), (Z.testbit y i). }
  rewrite E, <- lxor_sign. by rewrite Z.leb_antisym, negb_involutive.
Qed.

(** A remainder is below its positive divisor. *)
Lemma jrem_lt x b : 0 < b -> jrem x b < b.
Proof. intros. unfold jrem. pose proof (Z.rem_bound_abs x b). lia. Qed.

Lemma jcmpu_cases a b : in_s 32 a -> in_s 32 b ->
  (u32 a < u32 b /\ jcmpu a b = -1) \/ (u32 a = u32 b /\ jcmpu a b = 0) \/
  (u32 b < u32 a /\ jcmpu a b = 1).
Proof. intros. apply jcmp_cases. Qed.

(** An interval of one sign is an interval of unsigned values. *)
Lemma u32_interval lo hi a : in_s 32 lo -> in_s 32 hi -> lo <= a <= hi ->
  (0 <=? lo) = (0 <=? hi) -> u32 lo <= u32 a <= u32 hi.
Proof.
  unfold in_s. intros. change (2 ^ (32 - 1)) with (2 ^ 31) in *.
  destruct (u32_cases lo), (u32_cases hi), (u32_cases a); lia.
Qed.

Lemma u32_zero x : in_s 32 x -> u32 x = 0 -> x = 0.
Proof. unfold in_s. intros. change (2 ^ (32 - 1)) with (2 ^ 31) in *. destruct (u32_cases x); lia. Qed.

Lemma u32_nonneg x : 0 <= u32 x.
Proof. apply (uwrap_range 32). lia. Qed.

Lemma CmpU_mod_below m1 m2 lo0 lo1 a b c :
  0 <= lo0 <= a -> 0 <= lo1 <= b -> in_s 32 a -> in_s 32 b -> m1 = true \/ m2 = true ->
  cmpu_op m1 m2 a b c -> c = -1.
Proof.
  unfold in_s. intros ? ? ? ? Hm [-> Hmod]. destruct (Hmod Hm) as [? [x ->]].
  pose proof (jrem_lt x b ltac:(lia)). change (2 ^ (32 - 1)) with (2 ^ 31) in *.
  destruct (jcmpu_cases (jrem x b) b), (u32_cases (jrem x b)), (u32_cases b); unfold in_s; lia.
Qed.

Lemma CmpU_sub_sound m1 m2 t1 t2 : jrange JInt t1 -> jrange JInt t2 ->
  exists t, CmpU_sub m1 m2 t1 t2 = Some t /\
    cc_ok t (fun c => exists a b, in_s 32 a /\ in_s 32 b /\
               gamma t1 (VInt a) /\ gamma t2 (VInt b) /\ cmpu_op m1 m2 a b c).
Proof.
  intros H1 H2. range_inv H1 H2. cbn [CmpU_sub gamma].
  assert (in_s 32 lo0 /\ in_s 32 hi0 /\ in_s 32 lo1 /\ in_s 32 hi1) as (? & ? & ? & ?)
    by (unfold in_s; lia).
  rewrite !u32_lxor_sign, !swrap_uwrap, !(swrap_small 32) by (done || lia).
  pose proof (u32_zero lo0). pose proof (u32_zero hi0). pose proof (u32_zero lo1).
  pose proof (u32_zero hi1).
  repeat match goal with |- context [if ?b then _ else _] => destruct b eqn:? end;
    (eexists; split; [reflexivity|]; apply cc_ok_intro; [cbn [In]; tauto|]);
    intros c (a & b & Ha & Hb & Ga & Gb & Hop); zreflect;
    try (replace c with (-1) by (symmetry; apply (CmpU_mod_below m1 m2 lo0 lo1 a b); auto; lia);
         by apply CC_spec).
  all: destruct Hop as [-> _]; pose proof (jcmpu_cases a b Ha Hb) as Hcmp.
  all: pose proof (u32_interval lo0 hi0 a); pose proof (u32_interval lo1 hi1 b).
  all: pose proof (u32_nonneg a); pose proof (u32_nonneg b).
  all: generalize dependent (jcmpu a b); intros v Hcmp; apply CC_spec.
  all: try (replace a with 0 in * by lia; change (u32 0) with 0 in * ); try (replace b with 0 in * by lia; change (u32 0) with 0 in * ).
  all: intuition lia.
Qed.

Lemma SubI_sub_sound t1 t2 :
  jrange JInt t1 -> jrange JInt t2 -> ring_ok JInt (SubI_sub t1 t2) t1 t2 (fn (jsub 32)).
Proof. intros H1 H2. destruct t1, t2; try done. by apply (sub_ring_ok JInt). Qed.

Lemma SubL_sub_sound t1 t2 :
  jrange JLong t1 -> jrange JLong t2 -> ring_ok JLong (SubL_sub t1 t2) t1 t2 (fn (jsub 64)).
Proof. intros H1 H2. destruct t1, t2; try done. by apply (sub_ring_ok JLong). Qed.

#[export] Instance SubI_laws : SubNode_laws SubINode JInt JInt (fn (jsub 32)).
Proof.
  split.
  - intros t1 t2 H1 H2. destruct (SubI_sub_sound t1 t2 H1 H2) as (t & ? & ? & Hok).
    exists t. split_and!; [done|done|]. intros a b c _ _. apply Hok.
  - apply (jrange_con JInt). unfold in_s. cbn [jwidth]. lia.
  - intros a c ->. unfold jsub. rewrite Z.sub_diag. done.
  - intros a b c _ _ ->. apply (gamma_jbottom JInt), swrap_range. done.
  - apply (jrange_jbottom JInt).
Qed.

#[export] Instance SubL_laws : SubNode_laws SubLNode JLong JLong (fn (jsub 64)).
Proof.
  split.
  - intros t1 t2 H1 H2. destruct (SubL_sub_sound t1 t2 H1 H2) as (t & ? & ? & Hok).
    exists t. split_and!; [done|done|]. intros a b c _ _. apply Hok.
  - apply (jrange_con JLong). unfold in_s. cbn [jwidth]. lia.
  - intros a c ->. unfold jsub. rewrite Z.sub_diag. done.
  - intros a b c _ _ ->. apply (gamma_jbottom JLong), swrap_range. done.
  - apply (jrange_jbottom JLong).
Qed.

(** The laws of the comparisons other than the one of [sub]. *)
Lemma cmp_zero_range : jrange JInt INT_ZERO.
Proof. apply (jrange_con JInt). unfold in_s. cbn [jwidth]. lia. Qed.

Lemma CC_jrange : jrange JInt CC.
Proof. apply (jrange_make JInt); cbn [jwidth]; unfold WidenMin; lia. Qed.

Lemma jcmp_self a : jcmp a a = 0.
Proof. destruct (jcmp_cases a a); lia. Qed.

Lemma jcmp_CC a b : gamma CC (VInt (jcmp a b)).
Proof. apply CC_spec. destruct (jcmp_cases a b); lia. Qed.

#[export] Instance CmpI_laws : SubNode_laws CmpINode JInt JInt (fn jcmp).
Proof.
  split; [exact CmpI_sub_sound|exact cmp_zero_range| | |exact CC_jrange].
  - intros a c ->. by rewrite jcmp_self.
  - intros a b c _ _ ->. apply jcmp_CC.
Qed.

#[export] Instance CmpL_laws : SubNode_laws CmpLNode JLong JInt (fn jcmp).
Proof.
  split; [exact CmpL_sub_sound|exact cmp_zero_range| | |exact CC_jrange].
  - intros a c ->. by rewrite jcmp_self.
  - intros a b c _ _ ->. apply jcmp_CC.
Qed.

#[export] Instance CmpU_laws m1 m2 : SubNode_laws (CmpUNode m1 m2) JInt JInt (cmpu_op m1 m2).
Proof.
  split; [|exact cmp_zero_range| | |exact CC_jrange].
  - intros t1 t2 H1 H2. destruct (CmpU_sub_sound m1 m2 t1 t2 H1 H2) as (t & ? & Hr & Hok).
    exists t. split_and!; [done|exact Hr|]. intros a b c ? ? ? ? ?. apply Hok. by exists a, b.
  - intros a c [-> _]. unfold jcmpu. by rewrite jcmp_self.
  - intros a b c _ _ [-> _]. apply jcmp_CC.
Qed.

(** The subtractive nodes (subtraction and the signed, long and unsigned
    comparisons): [SubNode::Value] computes a type that contains the result of the
    operation, provided its question whether both inputs are the same node up to casts
    is only answered yes for equal values; the unsigned comparison also uses that its first
    input is a remainder by the second only when it is. *)
Theorem sub_values_sound (eqv m1 m2 : bool) :
  value_sound (SubNode_Value SubINode eqv) JInt JInt JInt
    (fun a b c => (eqv = true -> a = b) /\ c = jsub 32 a b) /\
  value_sound (SubNode_Value SubLNode eqv) JLong JLong JLong
    (fun a b c => (eqv = true -> a = b) /\ c = jsub 64 a b) /\
  value_sound (SubNode_Value CmpINode eqv) JInt JInt JInt
    (fun a b c => (eqv = true -> a = b) /\ c = jcmp a b) /\
  value_sound (SubNode_Value CmpLNode eqv) JLong JLong JInt
    (fun a b c => (eqv = true -> a = b) /\ c = jcmp a b) /\
  value_sound (SubNode_Value (CmpUNode m1 m2) eqv) JInt JInt JInt
    (fun a b c => (eqv = true -> a = b) /\ c = jcmp (u32 a) (u32 b) /\
       ((m1 = true \/ m2 = true) -> b <> 0 /\ exists x, a = Z.rem x b)).
Proof.
  split_and!; [exact (SubNode_Value_sound (op := fn (jsub 32)) eqv)
              |exact (SubNode_Value_sound (op := fn (jsub 64)) eqv)
              |exact (SubNode_Value_sound (op := fn jcmp) eqv)
              |exact (SubNode_Value_sound (op := fn jcmp) eqv)
              |exact (SubNode_Value_sound (op := cmpu_op m1 m2) eqv)].
Qed.

Lemma int_phase lo hi w : - 2 ^ 31 <= lo -> lo <= hi -> hi < 2 ^ 31 -> 0 <= w <= 3 -> phase_type JInt (TInt lo hi w).
Proof. intros. apply jrange_phase. cbn. unfold min_jint, max_jint. lia. Qed.

Lemma long_phase lo hi w : - 2 ^ 63 <= lo -> lo <= hi -> hi < 2 ^ 63 -> 0 <= w <= 3 -> phase_type JLong (TLong lo hi w).
Proof. intros. apply jrange_phase. cbn. unfold min_jlong, max_jlong. lia. Qed.

Lemma add_values_sound_witness :
  exists t, AddNode_Value AddINode (TInt 1 10 0) (TInt 5 6 1) = Some t /\ phase_type JInt t /\
    gamma t (VInt 16).
Proof.
  destruct (proj1 add_values_sound (TInt 1 10 0) (TInt 5 6 1)) as (t & E & Ht & Hg); [by apply int_phase..|].
  exists t. split; [exact E|]. split; [exact Ht|].
  apply (Hg 10 6 16); [unfold in_s; cbn; lia|unfold in_s; cbn; lia|cbn; lia|cbn; lia|reflexivity].
Defined.

Lemma mul_values_sound_witness :
  exists t, MulNode_Value MulINode (TInt (-3) 10 0) (TInt 5 6 1) = Some t /\ phase_type JInt t /\
    gamma t (VInt (-18)).
Proof.
  destruct (proj1 mul_values_sound (TInt (-3) 10 0) (TInt 5 6 1)) as (t & E & Ht & Hg); [by apply int_phase..|].
  exists t. split; [exact E|]. split; [exact Ht|].
  apply (Hg (-3) 6 (-18)); [unfold in_s; cbn; lia|unfold in_s; cbn; lia|cbn; lia|cbn; lia|reflexivity].
Defined.

Lemma sub_values_sound_witness :
  exists t, SubNode_Value SubINode false (TInt (-3) 10 0) (TInt 5 6 1) = Some t /\ phase_type JInt t /\
    gamma t (VInt (-9)).
Proof.
  destruct (proj1 (sub_values_sound false false false) (TInt (-3) 10 0) (TInt 5 6 1)) as (t & E & Ht & Hg); [by apply int_phase..|].
  exists t. split; [exact E|]. split; [exact Ht|].
  apply (Hg (-3) 6 (-9)); [unfold in_s; cbn; lia|unfold in_s; cbn; lia|cbn; lia|cbn; lia|by split].
Defined.

(** The theorems at concrete types: 1..10 plus or times 5..6, and the comparison of
    0..3 with 3..9. *)
Lemma add_values_example :
  AddNode_Value AddINode (TInt 1 10 0) (TInt 5 6 1) = Some (TInt 6 16 1) /\
  AddNode_Value AddINode (TInt 1 max_jint 0) (TInt 5 6 1) = Some INT /\
  MulNode_Value MulLNode (TLong 1 10 0) (TLong (-5) 6 1) = Some (TLong (-50) 60 1) /\
  MulNode_Value MulLNode (TLong 1 (2 ^ 62 + 1) 0) (TLong 2 2 0) = Some LONG /\
  SubNode_Value CmpINode false (TInt 0 3 0) (TInt 3 9 0) = Some CC_LE /\
  SubNode_Value (CmpUNode true true) false (TInt 0 8 0) (TInt 9 20 0) = Some CC_LT.
Proof. by vm_compute. Qed.
