(* ===== verification/NodeShiftDiv.v ===== *)
(** * NodeShiftDiv: the types of shifts, divisions, bit counts and conversions

    The [Value] methods of the shift nodes (opto/mulnode.cpp), of the integer divisions and
    remainders (opto/divnode.cpp) and of the bit counting and integer conversion nodes
    (opto/connode.cpp), in the manner of [NodeValue], whose notion of soundness the theorems
    use.  A value of type [int] passed where the code converts it to [juint] is converted by
    [u32]. *)

From S2P Require Import Prelude GlobalDefs TypeLattice NodeValue.

Definition BitsPerJavaInteger : Z := 32.
Definition BitsPerJavaLong : Z := 64.
Definition BitsPerInt : Z := 32.
Definition BitsPerLong : Z := 64.
Definition INT_POS : Type_ := TypeInt_make 0 max_jint WidenMin.
Definition LONG_POS : Type_ := TypeLong_make 0 max_jlong WidenMin.

(* ------------------------------------------------------------------ *)
(** ** Shifts *)

Definition LShiftI_Value (t1 t2 : Type_) : option Type_ :=
  if bool_decide (t1 = TOP) then Some TOP
  else if bool_decide (t2 = TOP) then Some TOP
  else if bool_decide (t1 = INT_ZERO) then Some INT_ZERO
  else if bool_decide (t2 = INT_ZERO) then Some t1
  else if bool_decide (t1 = INT) || bool_decide (t2 = INT) ||
          bool_decide (t1 = BOTTOM) || bool_decide (t2 = BOTTOM) then Some INT
  else
    match t1, t2 with
    | TInt lo hi w1, TInt lo2 hi2 w2 =>
        if negb (is_con lo2 hi2) then Some INT
        else
          let shift := Z.land (u32 lo2) (BitsPerJavaInteger - 1) in
          if shift =? 0 then Some t1
          else if negb (is_con lo hi) then
            if (Z.shiftr (s32 (Z.shiftl lo shift)) shift =? lo) &&
               (Z.shiftr (s32 (Z.shiftl hi shift)) shift =? hi)
            then Some (TypeInt_make (s32 (Z.shiftl lo shift)) (s32 (Z.shiftl hi shift)) (MAX2 w1 w2))
            else Some INT
          else Some (TypeInt_con (s32 (Z.shiftl lo shift)))
    | _, _ => None
    end.

Definition LShiftL_Value (t1 t2 : Type_) : option Type_ :=
  if bool_decide (t1 = TOP) then Some TOP
  else if bool_decide (t2 = TOP) then Some TOP
  else if bool_decide (t1 = LONG_ZERO) then Some LONG_ZERO
  else if bool_decide (t2 = INT_ZERO) then Some t1
  else if bool_decide (t1 = LONG) || bool_decide (t2 = INT) ||
          bool_decide (t1 = BOTTOM) || bool_decide (t2 = BOTTOM) then Some LONG
  else
    match t1, t2 with
    | TLong lo hi w1, TInt lo2 hi2 w2 =>
        if negb (is_con lo2 hi2) then Some LONG
        else
          let shift := Z.land (u32 lo2) (BitsPerJavaLong - 1) in
          if shift =? 0 then Some t1
          else if negb (is_con lo hi) then
            if (Z.shiftr (s64 (Z.shiftl lo shift)) shift =? lo) &&
               (Z.shiftr (s64 (Z.shiftl hi shift)) shift =? hi)
            then Some (TypeLong_make (s64 (Z.shiftl lo shift)) (s64 (Z.shiftl hi shift)) (MAX2 w1 w2))
            else Some LONG
          else Some (TypeLong_con (s64 (Z.shiftl lo shift)))
    | _, _ => None
    end.

Definition RShiftI_Value (t1 t2 : Type_) : option Type_ :=
  if bool_decide (t1 = TOP) then Some TOP
  else if bool_decide (t2 = TOP) then Some TOP
  else if bool_decide (t1 = INT_ZERO) then Some INT_ZERO
  else if bool_decide (t2 = INT_ZERO) then Some t1
  else if bool_decide (t1 = BOTTOM) || bool_decide (t2 = BOTTOM) then Some INT
  else if bool_decide (t2 = INT) then Some INT
  else
    match t1, t2 with
    | TInt lo1 hi1 w1, TInt lo2 hi2 w2 =>
        if is_con lo2 hi2 then
          let shift := Z.land (u32 lo2) (BitsPerJavaInteger - 1) in
          if shift =? 0 then Some t1
          else Some (TypeInt_make (Z.shiftr lo1 shift) (Z.shiftr hi1 shift) (MAX2 w1 w2))
        else if negb (is_con lo1 hi1) || negb (is_con lo2 hi2) then Some INT
        else Some (TypeInt_con (Z.shiftr lo1 (Z.land lo2 31)))
    | _, _ => None
    end.

Definition RShiftL_Value (t1 t2 : Type_) : option Type_ :=
  if bool_decide (t1 = TOP) then Some TOP
  else if bool_decide (t2 = TOP) then Some TOP
  else if bool_decide (t1 = LONG_ZERO) then Some LONG_ZERO
  else if bool_decide (t2 = INT_ZERO) then Some t1
  else if bool_decide (t1 = BOTTOM) || bool_decide (t2 = BOTTOM) then Some LONG
  else if bool_decide (t2 = INT) then Some LONG
  else
    match t1, t2 with
    | TLong lo1 hi1 w1, TInt lo2 hi2 w2 =>
        if is_con lo2 hi2 then
          let shift := Z.land (u32 lo2) (2 * BitsPerJavaInteger - 1) in
          if shift =? 0 then Some t1
          else Some (TypeLong_make (Z.shiftr lo1 shift) (Z.shiftr hi1 shift) (MAX2 w1 w2))
        else Some LONG
    | _, _ => None
    end.

Definition URShiftI_Value (t1 t2 : Type_) : option Type_ :=
  if bool_decide (t1 = TOP) then Some TOP
  else if bool_decide (t2 = TOP) then Some TOP
  else if bool_decide (t1 = INT_ZERO) then Some INT_ZERO
  else if bool_decide (t2 = INT_ZERO) then Some t1
  else if bool_decide (t1 = BOTTOM) || bool_decide (t2 = BOTTOM) then Some INT
  else if bool_decide (t2 = INT) then Some INT
  else
    match t1, t2 with
    | TInt lo1 hi1 w1, TInt lo2 hi2 w2 =>
        if is_con lo2 hi2 then
          let shift := Z.land (u32 lo2) (BitsPerJavaInteger - 1) in
          if shift =? 0 then Some t1
          else
            let lo := s32 (Z.shiftr (u32 lo1) shift) in
            let hi := s32 (Z.shiftr (u32 hi1) shift) in
            let '(lo, hi) :=
              if (0 <=? hi1) && (lo1 <? 0) then
                let neg_lo := lo in
                let neg_hi := s32 (Z.shiftr (u32 (-1)) shift) in
                let pos_lo := s32 (Z.shiftr 0 shift) in
                let pos_hi := hi in
                (MIN2 neg_lo pos_lo, MAX2 neg_hi pos_hi)
              else (lo, hi) in
            Some (TypeInt_make lo hi (MAX2 w1 w2))
        else Some INT
    | _, _ => None
    end.

Definition URShiftL_Value (t1 t2 : Type_) : option Type_ :=
  if bool_decide (t1 = TOP) then Some TOP
  else if bool_decide (t2 = TOP) then Some TOP
  else if bool_decide (t1 = LONG_ZERO) then Some LONG_ZERO
  else if bool_decide (t2 = INT_ZERO) then Some t1
  else if bool_decide (t1 = BOTTOM) || bool_decide (t2 = BOTTOM) then Some LONG
  else if bool_decide (t2 = INT) then Some LONG
  else
    match t1, t2 with
    | TLong lo1 hi1 w1, TInt lo2 hi2 w2 =>
        if is_con lo2 hi2 then
          let shift := Z.land (u32 lo2) (BitsPerJavaLong - 1) in
          if shift =? 0 then Some t1
          else
            let lo := s64 (Z.shiftr (u64 lo1) shift) in
            let hi := s64 (Z.shiftr (u64 hi1) shift) in
            let '(lo, hi) :=
              if (0 <=? hi1) && (lo1 <? 0) then
                let neg_lo := lo in
                let neg_hi := s64 (Z.shiftr (u64 (-1)) shift) in
                let pos_lo := s64 (Z.shiftr 0 shift) in
                let pos_hi := hi in
                (if neg_lo <? pos_lo then neg_lo else pos_lo,
                 if pos_hi <? neg_hi then neg_hi else pos_hi)
              else (lo, hi) in
            Some (TypeLong_make lo hi (MAX2 w1 w2))
        else Some LONG
    | _, _ => None
    end.

(* ------------------------------------------------------------------ *)
(** ** Division and remainder *)

Definition DivI_Value (eqv : bool) (t1 t2 : Type_) : option Type_ :=
  if bool_decide (t1 = TOP) then Some TOP
  else if bool_decide (t2 = TOP) then Some TOP
  else if eqv then Some INT_ONE
  else if bool_decide (t1 = INT) || bool_decide (t2 = INT) ||
          bool_decide (t1 = BOTTOM) || bool_decide (t2 = BOTTOM) then Some INT
  else
    match t1, t2 with
    | TInt lo1 hi1 w1, TInt lo2 hi2 w2 =>
        let widen := MAX2 w1 w2 in
        if is_con lo2 hi2 && negb (lo2 =? 0) then
          let d := lo2 in
          let '(lo, hi) :=
            if 0 <=? d then (Z.quot lo1 d, Z.quot hi1 d)
            else if (d =? -1) && (lo1 =? min_jint) then
              (min_jint, if hi1 =? min_jint then min_jint else max_jint)
            else (Z.quot hi1 d, Z.quot lo1 d) in
          Some (TypeInt_make lo hi widen)
        else if is_con lo1 hi1 then
          let d := lo1 in
          if d <? 0 then
            if d =? min_jint then Some (TypeInt_make min_jint (max_jint / 2 + 1) widen)
            else Some (TypeInt_make d (- d) widen)
          else Some (TypeInt_make (- d) d widen)
        else Some INT
    | _, _ => None
    end.

Definition DivL_Value (eqv : bool) (t1 t2 : Type_) : option Type_ :=
  if bool_decide (t1 = TOP) then Some TOP
  else if bool_decide (t2 = TOP) then Some TOP
  else if eqv then Some LONG_ONE
  else if bool_decide (t1 = LONG) || bool_decide (t2 = LONG) ||
          bool_decide (t1 = BOTTOM) || bool_decide (t2 = BOTTOM) then Some LONG
  else
    match t1, t2 with
    | TLong lo1 hi1 w1, TLong lo2 hi2 w2 =>
        let widen := MAX2 w1 w2 in
        if is_con lo2 hi2 && negb (lo2 =? 0) then
          let d := lo2 in
          let '(lo, hi) :=
            if 0 <=? d then (Z.quot lo1 d, Z.quot hi1 d)
            else if (d =? -1) && (lo1 =? min_jlong) then
              (min_jlong, if hi1 =? min_jlong then min_jlong else max_jlong)
            else (Z.quot hi1 d, Z.quot lo1 d) in
          Some (TypeLong_make lo hi widen)
        else if is_con lo1 hi1 then
          let d := lo1 in
          if d <? 0 then
            if d =? min_jlong then Some (TypeLong_make min_jlong (max_jlong / 2 + 1) widen)
            else Some (TypeLong_make d (- d) widen)
          else Some (TypeLong_make (- d) d widen)
        else Some LONG
    | _, _ => None
    end.

Definition ModI_Value (eqv : bool) (t1 t2 : Type_) : option Type_ :=
  if bool_decide (t1 = TOP) then Some TOP
  else if bool_decide (t2 = TOP) then Some TOP
  else if bool_decide (t1 = INT_ZERO) then Some INT_ZERO
  else if eqv then Some INT_ZERO
  else if bool_decide (t1 = INT) || bool_decide (t2 = INT) ||
          bool_decide (t1 = BOTTOM) || bool_decide (t2 = BOTTOM) then Some INT
  else
    match t1, t2 with
    | TInt lo1 hi1 _, TInt lo2 hi2 _ =>
        if negb (is_con lo1 hi1) || negb (is_con lo2 hi2) then
          if (0 <=? lo1) && (0 <=? lo2) then Some INT_POS else Some INT
        else if lo2 =? 0 then Some INT_POS
        else if (lo1 =? min_jint) && (lo2 =? -1) then Some INT_ZERO
        else Some (TypeInt_con (Z.rem lo1 lo2))
    | _, _ => None
    end.

Definition ModL_Value (eqv : bool) (t1 t2 : Type_) : option Type_ :=
  if bool_decide (t1 = TOP) then Some TOP
  else if bool_decide (t2 = TOP) then Some TOP
  else if bool_decide (t1 = LONG_ZERO) then Some LONG_ZERO
  else if eqv then Some LONG_ZERO
  else if bool_decide (t1 = LONG) || bool_decide (t2 = LONG) ||
          bool_decide (t1 = BOTTOM) || bool_decide (t2 = BOTTOM) then Some LONG
  else
    match t1, t2 with
    | TLong lo1 hi1 _, TLong lo2 hi2 _ =>
        if negb (is_con lo1 hi1) || negb (is_con lo2 hi2) then
          if (0 <=? lo1) && (0 <=? lo2) then Some LONG_POS else Some LONG
        else if lo2 =? 0 then Some LONG_POS
        else if (lo1 =? min_jlong) && (lo2 =? -1) then Some LONG_ZERO
        else Some (TypeLong_con (Z.rem lo1 lo2))
    | _, _ => None
    end.

(* ------------------------------------------------------------------ *)
(** ** Bit counts *)

(** One turn of the binary search for the leading one. *)
Definition clz_step (k s : Z) (nx : Z * Z) : Z * Z :=
  let '(n, x) := nx in if Z.shiftr x k =? 0 then (n + s, u32 (Z.shiftl x s)) else (n, x).

Definition clz_search (n x : Z) : Z :=
  let '(n, x) := clz_step 30 2 (clz_step 28 4 (clz_step 24 8 (clz_step 16 16 (n, x)))) in
  n - Z.shiftr x 31.

Definition CountLeadingZerosI_Value (t : Type_) : Type_ :=
  if bool_decide (t = TOP) then TOP
  else
    match t with
    | TInt lo hi _ =>
        if is_con lo hi then
          let i := lo in
          if i =? 0 then TypeInt_con BitsPerInt
          else TypeInt_con (clz_search 1 (u32 i))
        else INT
    | _ => INT
    end.

Definition CountLeadingZerosL_Value (t : Type_) : Type_ :=
  if bool_decide (t = TOP) then TOP
  else
    match t with
    | TLong lo hi _ =>
        if is_con lo hi then
          let l := lo in
          if l =? 0 then TypeInt_con BitsPerLong
          else
            let n := 1 in
            let x := u32 (Z.shiftr (u64 l) 32) in
            let '(n, x) := if x =? 0 then (n + 32, u32 (s32 l)) else (n, x) in
            TypeInt_con (clz_search n x)
        else INT
    | _ => INT
    end.

(** One turn of the binary search for the trailing one; [y] is an [int]. *)
Definition ctz_step (s : Z) (ni : Z * Z) : Z * Z :=
  let '(n, i) := ni in
  let y := s32 (Z.shiftl i s) in if negb (y =? 0) then (n - s, y) else (n, i).

Definition ctz_search (n i : Z) : Z :=
  let '(n, i) := ctz_step 2 (ctz_step 4 (ctz_step 8 (ctz_step 16 (n, i)))) in
  let y := s32 (Z.shiftl i 1) in if negb (y =? 0) then n - 1 else n.

Definition CountTrailingZerosI_Value (t : Type_) : Type_ :=
  if bool_decide (t = TOP) then TOP
  else
    match t with
    | TInt lo hi _ =>
        if is_con lo hi then
          let i := lo in
          if i =? 0 then TypeInt_con BitsPerInt
          else TypeInt_con (ctz_search 31 i)
        else INT
    | _ => INT
    end.

Definition CountTrailingZerosL_Value (t : Type_) : Type_ :=
  if bool_decide (t = TOP) then TOP
  else
    match t with
    | TLong lo hi _ =>
        if is_con lo hi then
          let l := lo in
          if l =? 0 then TypeInt_con BitsPerLong
          else
            let n := 63 in
            let y := s32 l in
            let '(n, x) := if negb (y =? 0) then (n - 32, y) else (n, s32 (Z.shiftr (u64 l) 32)) in
            TypeInt_con (ctz_search n x)
        else INT
    | _ => INT
    end.

(* ------------------------------------------------------------------ *)
(** ** Conversions *)

(** [type] is the type the node declares. *)
Definition ConvI2L_Value (type t : Type_) : option Type_ :=
  if bool_decide (t = TOP) then Some TOP
  else
    match t with
    | TInt lo hi w => type_filter (TypeLong_make lo hi w) type
    | _ => None
    end.

Definition ConvL2I_Value (t : Type_) : option Type_ :=
  if bool_decide (t = TOP) then Some TOP
  else
    match t with
    | TLong lo hi _ => if is_con lo hi then Some (TypeInt_con (s32 lo)) else Some INT
    | _ => None
    end.

(* ------------------------------------------------------------------ *)
(** * The Java operations *)

Definition jshl (w a b : Z) : Z := swrap w (Z.shiftl a (Z.land b (w - 1))).
Definition jshr (w a b : Z) : Z := Z.shiftr a (Z.land b (w - 1)).
Definition jushr (w a b : Z) : Z := swrap w (Z.shiftr (uwrap w a) (Z.land b (w - 1))).

(** Division fails on a zero divisor, and wraps for the most negative value. *)
Definition jdiv (w a b c : Z) : Prop := b <> 0 /\ c = swrap w (Z.quot a b).
Definition jmod (a b c : Z) : Prop := b <> 0 /\ c = Z.rem a b.

(** [n] is the position of the lowest, or of the highest, bit of [x] that is set. *)
Definition lowest_bit (x n : Z) : Prop :=
  0 <= n /\ Z.testbit x n = true /\ forall m, 0 <= m < n -> Z.testbit x m = false.
Definition highest_bit (x n : Z) : Prop := 0 < x /\ 0 <= n /\ n = Z.log2 x.

(** The number of zeros above the highest bit and below the lowest bit of a [w]-bit
    value. *)
Definition jnlz (w a c : Z) : Prop :=
  if a =? 0 then c = w else highest_bit (uwrap w a) (w - 1 - c).
Definition jntz (w a c : Z) : Prop :=
  if a =? 0 then c = w else lowest_bit a c.

(* ------------------------------------------------------------------ *)
(** ** Shifts *)

Lemma jwidth_log j : exists k, jwidth j = 2 ^ k /\ 0 <= k <= 32.
Proof. destruct j; [exists 5|exists 6]; cbn [jwidth]; lia. Qed.

(** The distance of a shift. *)
Lemma shift_count j x : 0 <= Z.land x (jwidth j - 1) < jwidth j.
Proof.
  destruct (jwidth_log j) as (k & -> & ?). rewrite land_ones_mod by lia.
  apply Z.mod_pos_bound, pow2_pos. lia.
Qed.

Lemma shift_count_u32 j x : Z.land (u32 x) (jwidth j - 1) = Z.land x (jwidth j - 1).
Proof.
  destruct (jwidth_log j) as (k & -> & ?). rewrite Z.sub_1_r, <- Z.ones_equiv.
  apply Z.bits_inj'. intros i Hi. zbits. rewrite Z.testbit_ones_nonneg by lia.
  destruct (Z.ltb_spec i k), (Z.ltb_spec i 32); try lia; by rewrite ?andb_false_r, ?andb_true_l.
Qed.

Lemma shiftl_mul a s : 0 <= s -> Z.shiftl a s = a * 2 ^ s.
Proof. apply Z.shiftl_mul_pow2. Qed.

(** Shifting back finds out whether a left shift overflowed. *)
Lemma shl_exact j x s : 0 <= s < jwidth j ->
  Z.shiftr (swrap (jwidth j) (Z.shiftl x s)) s = x ->
  swrap (jwidth j) (Z.shiftl x s) = x * 2 ^ s.
Proof.
  intros Hs. rewrite shiftl_mul by lia. destruct (swrap_cong _ (jwidth_pos j) (x * 2 ^ s)) as [k ->].
  replace (jwidth j) with (jwidth j - s + s) by lia. rewrite Z.pow_add_r, Z.mul_assoc by lia.
  assert (0 < 2 ^ s) by (apply pow2_pos; lia).
  assert (0 < 2 ^ (jwidth j - s)) by (apply pow2_pos; lia).
  rewrite Z.shiftr_div_pow2, <- Z.mul_add_distr_r, Z.div_mul by lia. intros E.
  assert (k = 0) as -> by nia. lia.
Qed.

Lemma shl_range j lo hi s a : 0 <= s < jwidth j ->
  Z.shiftr (swrap (jwidth j) (Z.shiftl lo s)) s = lo ->
  Z.shiftr (swrap (jwidth j) (Z.shiftl hi s)) s = hi -> lo <= a <= hi ->
  in_s (jwidth j) (swrap (jwidth j) (Z.shiftl lo s)) /\
  in_s (jwidth j) (swrap (jwidth j) (Z.shiftl hi s)) /\
  swrap (jwidth j) (Z.shiftl lo s) <= swrap (jwidth j) (Z.shiftl a s) <=
  swrap (jwidth j) (Z.shiftl hi s).
Proof.
  intros Hs Elo Ehi Ha.
  pose proof (swrap_range _ (jwidth_pos j) (Z.shiftl lo s)) as Rlo.
  pose proof (swrap_range _ (jwidth_pos j) (Z.shiftl hi s)) as Rhi.
  split_and!; try done; apply shl_exact in Elo, Ehi; try done;
    rewrite Elo, Ehi in *; assert (0 < 2 ^ s) by (apply pow2_pos; lia);
    (rewrite swrap_small; [|apply jwidth_pos|]; rewrite shiftl_mul by lia;
     [nia|unfold in_s in *; nia]).
Qed.

Lemma shiftr_mono a b s : 0 <= s -> a <= b -> Z.shiftr a s <= Z.shiftr b s.
Proof. intros. rewrite !Z.shiftr_div_pow2 by done. apply Z.div_le_mono; [apply pow2_pos; lia|done]. Qed.

Lemma shiftr_bounds w x s : 0 < w -> 0 <= s -> in_s w x -> in_s w (Z.shiftr x s).
Proof.
  unfold in_s. intros Hw Hs Hx. rewrite Z.shiftr_div_pow2 by done.
  assert (0 < 2 ^ s) by (apply pow2_pos; lia). assert (0 < 2 ^ (w - 1)) by (apply pow2_pos; lia).
  split; [apply Z.div_le_lower_bound; nia|apply Z.div_lt_upper_bound; nia].
Qed.

(** An unsigned shift by at least one place gives a non-negative signed value. *)
Lemma ushr_small w x s : 0 < w -> 0 < s ->
  0 <= Z.shiftr (uwrap w x) s < 2 ^ (w - 1) /\
  swrap w (Z.shiftr (uwrap w x) s) = Z.shiftr (uwrap w x) s.
Proof.
  intros Hw Hs. pose proof (uwrap_range w ltac:(lia) x) as Hx. unfold in_u in Hx.
  assert (Hr : 0 <= Z.shiftr (uwrap w x) s < 2 ^ (w - 1)).
  { split; [apply Z.shiftr_nonneg; lia|]. apply Z.le_lt_trans with (Z.shiftr (uwrap w x) 1).
    - rewrite !Z.shiftr_div_pow2 by lia. apply Z.div_le_compat_l; [lia|].
      split; [lia|]. apply Z.pow_le_mono_r; lia.
    - rewrite Z.shiftr_div_pow2 by lia. apply Z.div_lt_upper_bound; [lia|].
      rewrite (pow2_half w) in Hx by done. lia. }
  split; [done|]. apply swrap_small; [done|]. unfold in_s. lia.
Qed.

(** The unsigned value of an integer of known sign. *)
Lemma uwrap_sign w x : 0 < w -> in_s w x -> uwrap w x = if 0 <=? x then x else x + 2 ^ w.
Proof.
  unfold in_s. intros Hw Hx. pose proof (pow2_half w Hw). destruct (Z.leb_spec 0 x).
  - apply uwrap_small; [lia|unfold in_u; lia].
  - rewrite <- (uwrap_small w ltac:(lia) (x + 2 ^ w)) by (unfold in_u; lia).
    apply (uwrap_eq w Hw _ _ (-1)). lia.
Qed.

Lemma ushr_range w lo hi a s : 0 < w -> 0 < s -> in_s w lo -> in_s w hi -> lo <= a <= hi ->
  (0 <= hi -> 0 <= lo) ->
  Z.shiftr (uwrap w lo) s <= Z.shiftr (uwrap w a) s <= Z.shiftr (uwrap w hi) s.
Proof.
  intros Hw Hs Hlo Hhi Ha Hsign. assert (in_s w a) by (unfold in_s in *; lia).
  rewrite !(uwrap_sign w) by done. split; apply shiftr_mono; zcases; lia.
Qed.

Lemma shl_zero w b : 0 < w -> jshl w 0 b = 0.
Proof. intros. unfold jshl. rewrite Z.shiftl_0_l. apply swrap_small; [done|]. unfold in_s.
  assert (0 < 2 ^ (w - 1)) by (apply pow2_pos; lia). lia. Qed.

Lemma ushr_zero w b : 0 < w -> jushr w 0 b = 0.
Proof.
  intros. unfold jushr, uwrap. rewrite Z.mod_0_l, Z.shiftr_0_l by (pose proof (pow2_pos w); lia).
  apply swrap_small; [done|]. unfold in_s. assert (0 < 2 ^ (w - 1)) by (apply pow2_pos; lia). lia.
Qed.

(** A shift by a multiple of the width does nothing. *)
Lemma shl_none w a b : 0 < w -> in_s w a -> Z.land b (w - 1) = 0 -> jshl w a b = a.
Proof. intros Hw Ha E. unfold jshl. rewrite E, Z.shiftl_0_r. by apply swrap_small. Qed.

Lemma shr_none w a b : Z.land b (w - 1) = 0 -> jshr w a b = a.
Proof. intros E. unfold jshr. rewrite E. apply Z.shiftr_0_r. Qed.

Lemma ushr_none w a b : 0 < w -> in_s w a -> Z.land b (w - 1) = 0 -> jushr w a b = a.
Proof. intros Hw Ha E. unfold jushr. rewrite E, Z.shiftr_0_r, swrap_uwrap by done. by apply swrap_small. Qed.

(** What [value_sound] says of one pair of input types. *)
Definition value_ok (o : option Type_) (t1 t2 : Type_) (j1 j2 j : jtype)
    (op : Z -> Z -> Z -> Prop) : Prop :=
  exists t, o = Some t /\ phase_type j t /\
    forall a b c, in_s (jwidth j1) a -> in_s (jwidth j2) b ->
      gamma t1 (jv j1 a) -> gamma t2 (jv j2 b) -> op a b c -> gamma t (jv j c).

Lemma value_TOP1 j1 j2 j t2 op : value_ok (Some TOP) TOP t2 j1 j2 j op.
Proof. exists TOP. split_and!; [done|by left|]. by intros a b c ? ? ?%gamma_TOP. Qed.

Lemma value_TOP2 j1 j2 j t1 op : value_ok (Some TOP) t1 TOP j1 j2 j op.
Proof. exists TOP. split_and!; [done|by left|]. by intros a b c ? ? ? ?%gamma_TOP. Qed.

Lemma value_bottom j1 j2 j t1 t2 op :
  (forall a b c, in_s (jwidth j1) a -> in_s (jwidth j2) b -> op a b c -> in_s (jwidth j) c) ->
  value_ok (Some (jbottom j)) t1 t2 j1 j2 j op.
Proof.
  intros Hop. exists (jbottom j). split_and!; [done|auto with nodes|].
  intros a b c ? ? _ _ ?. apply gamma_jbottom. eauto.
Qed.

Lemma value_make j1 j2 j t1 t2 op lo hi w :
  - 2 ^ (jwidth j - 1) <= lo <= hi -> hi <= 2 ^ (jwidth j - 1) - 1 -> 0 <= w <= 3 ->
  (forall a b c, in_s (jwidth j1) a -> in_s (jwidth j2) b ->
      gamma t1 (jv j1 a) -> gamma t2 (jv j2 b) -> op a b c -> lo <= c <= hi) ->
  value_ok (Some (jmake j lo hi w)) t1 t2 j1 j2 j op.
Proof.
  intros ? ? ? Hop. eexists. split; [done|]. split; [by apply jrange_phase, jrange_make|].
  intros a b c ? ? ? ? ?. apply gamma_make. eauto.
Qed.

Lemma value_first j1 j2 t1 t2 op :
  phase_type j1 t1 ->
  (forall a b c, in_s (jwidth j1) a -> in_s (jwidth j2) b ->
     gamma t1 (jv j1 a) -> gamma t2 (jv j2 b) -> op a b c -> c = a) ->
  value_ok (Some t1) t1 t2 j1 j2 j1 op.
Proof.
  intros ? Hop. exists t1. split_and!; [done|done|]. intros a b c ? ? ? ? ?.
  by rewrite (Hop a b c).
Qed.

(** The cases all six shifts start with. *)
Lemma shift_frame j f zero t1 t2 rest :
  zero = jt j 0 0 0 ->
  (forall b, f 0 b = 0) ->
  (forall a b, in_s (jwidth j) a -> Z.land b (jwidth j - 1) = 0 -> f a b = a) ->
  phase_type j t1 -> phase_type JInt t2 ->
  (t1 <> TOP -> t2 <> TOP -> value_ok rest t1 t2 j JInt j (fn f)) ->
  value_ok (if bool_decide (t1 = TOP) then Some TOP
            else if bool_decide (t2 = TOP) then Some TOP
            else if bool_decide (t1 = zero) then Some zero
            else if bool_decide (t2 = INT_ZERO) then Some t1
            else rest) t1 t2 j JInt j (fn f).
Proof.
  intros Hz Hf0 Hfs H1 H2 Hrest.
  case_bool_decide; [subst; apply value_TOP1|]. case_bool_decide; [subst; apply value_TOP2|].
  case_bool_decide as E1.
  { rewrite <- E1. apply value_first; [done|]. intros a b c _ _ Ha _ ->.
    rewrite E1, Hz, gamma_jt in Ha. assert (a = 0) as -> by lia. by rewrite Hf0. }
  case_bool_decide as E2; [|auto].
  apply value_first; [done|]. intros a b c Ha _ _ Hb ->.
  rewrite E2 in Hb. assert (b = 0) as -> by (cbn in Hb; lia). by apply Hfs.
Qed.

(** Once the inputs are neither [TOP] nor [BOTTOM]. *)
Ltac phase_ranges :=
  repeat match goal with
  | H : (_ || _) = false |- _ => apply orb_false_elim in H; destruct H
  | H : bool_decide _ = false |- _ => apply bool_decide_eq_false in H
  | H : phase_type _ _ |- _ => destruct H as [?|[?|?]]; [contradiction|contradiction|]
  end;
  repeat match goal with
  | H : jrange _ ?t |- _ =>
      destruct t; try (exfalso; exact H); unfold jrange, int_range, long_range in H
  end; unfold min_jint, max_jint, min_jlong, max_jlong in *.

Lemma shl_in_range j a b : in_s (jwidth j) (jshl (jwidth j) a b).
Proof. apply swrap_range, jwidth_pos. Qed.

Lemma ushr_in_range j a b : in_s (jwidth j) (jushr (jwidth j) a b).
Proof. apply swrap_range, jwidth_pos. Qed.

Lemma shr_in_range j a b : in_s (jwidth j) a -> in_s (jwidth j) (jshr (jwidth j) a b).
Proof. apply shiftr_bounds; [apply jwidth_pos|apply shift_count]. Qed.
#[export] Hint Resolve shl_in_range ushr_in_range shr_in_range : nodes.

(** What the left shifts do for a constant distance. *)
Lemma lshift_ok j lo hi w1 lo2 hi2 w2 :
  jrange j (jt j lo hi w1) -> 0 <= w2 <= 3 ->
  value_ok
    (if negb (is_con lo2 hi2) then Some (jbottom j)
     else
       let shift := Z.land (u32 lo2) (jwidth j - 1) in
       if shift =? 0 then Some (jt j lo hi w1)
       else if negb (is_con lo hi) then
         if (Z.shiftr (swrap (jwidth j) (Z.shiftl lo shift)) shift =? lo) &&
            (Z.shiftr (swrap (jwidth j) (Z.shiftl hi shift)) shift =? hi)
         then Some (jmake j (swrap (jwidth j) (Z.shiftl lo shift))
                      (swrap (jwidth j) (Z.shiftl hi shift)) (MAX2 w1 w2))
         else Some (jbottom j)
       else Some (jmake j (swrap (jwidth j) (Z.shiftl lo shift))
                    (swrap (jwidth j) (Z.shiftl lo shift)) WidenMin))
    (jt j lo hi w1) (TInt lo2 hi2 w2) j JInt j (fn (jshl (jwidth j))).
Proof.
  intros H1 Hw2. pose proof H1 as Hp.
  apply jrange_inv in H1 as (l0 & h0 & u0 & (-> & -> & ->)%jt_inj & ? & ? & ?).
  assert (Hbot : value_ok (Some (jbottom j)) (jt j l0 h0 u0) (TInt lo2 hi2 w2) j JInt j
            (fn (jshl (jwidth j)))).
  { apply value_bottom. intros a b c ? ? ->. apply shl_in_range. }
  unfold is_con in *. destruct (Z.eqb_spec lo2 hi2) as [->|]; cbn [negb]; [|exact Hbot].
  cbv zeta. rewrite shift_count_u32. pose proof (shift_count j hi2) as Hs.
  destruct (Z.eqb_spec (Z.land hi2 (jwidth j - 1)) 0) as [E0|Hs0].
  { apply value_first; [by apply jrange_phase|]. intros a b c Ha _ _ Hb ->. cbn in Hb.
    assert (b = hi2) as -> by lia. apply shl_none; [apply jwidth_pos|done|done]. }
  set (s := Z.land hi2 (jwidth j - 1)) in *.
  destruct (Z.eqb_spec l0 h0) as [->|]; cbn [negb].
  - pose proof (swrap_range _ (jwidth_pos j) (Z.shiftl h0 s)) as Hr. unfold in_s in Hr.
    apply value_make; [lia|lia|unfold WidenMin; lia|]. intros a b c _ _ Ha Hb ->.
    rewrite gamma_jt in Ha. cbn in Hb. assert (a = h0) as -> by lia.
    assert (b = hi2) as -> by lia. unfold jshl. fold s. lia.
  - destruct (_ && _) eqn:E; [|exact Hbot]. zreflect.
    destruct (shl_range j l0 h0 s l0) as (Hr1 & Hr2 & Hr3); [lia|done|done|lia|].
    destruct (shl_range j l0 h0 s h0) as (_ & _ & Hr4); [lia|done|done|lia|].
    unfold in_s in Hr1, Hr2. apply value_make; [lia|lia|by apply max_widen_range|].
    intros a b c _ _ Ha Hb ->. rewrite gamma_jt in Ha. cbn in Hb. assert (b = hi2) as -> by lia.
    unfold jshl. fold s. apply shl_range; auto; lia.
Qed.

Lemma LShiftI_sound : value_sound LShiftI_Value JInt JInt JInt (fn (jshl 32)).
Proof.
  intros t1 t2 H1 H2. apply (shift_frame JInt (jshl 32) INT_ZERO); try done.
  - intros; by apply shl_zero.
  - intros; by apply shl_none.
  - intros ? ?. destruct (_ || _) eqn:E.
    + apply (value_bottom JInt JInt JInt). intros a b c ? ? ->. apply (shl_in_range JInt).
    + phase_ranges. cbv beta iota zeta. rewrite TypeInt_con_make. apply (lshift_ok JInt); [done|].
      apply H2.
Qed.

Lemma LShiftL_sound : value_sound LShiftL_Value JLong JInt JLong (fn (jshl 64)).
Proof.
  intros t1 t2 H1 H2. apply (shift_frame JLong (jshl 64) LONG_ZERO); try done.
  - intros; by apply shl_zero.
  - intros; by apply shl_none.
  - intros ? ?. destruct (_ || _) eqn:E.
    + apply (value_bottom JLong JInt JLong). intros a b c ? ? ->. apply (shl_in_range JLong).
    + phase_ranges. cbv beta iota zeta. rewrite TypeLong_con_make. apply (lshift_ok JLong); [done|]. apply H2.
Qed.

(** The right shifts for a constant distance. *)
Lemma rshift_ok j lo hi w1 lo2 hi2 w2 other :
  jrange j (jt j lo hi w1) -> 0 <= w2 <= 3 ->
  (is_con lo2 hi2 = false -> other = Some (jbottom j)) ->
  value_ok
    (if is_con lo2 hi2 then
       let shift := Z.land (u32 lo2) (jwidth j - 1) in
       if shift =? 0 then Some (jt j lo hi w1)
       else Some (jmake j (Z.shiftr lo shift) (Z.shiftr hi shift) (MAX2 w1 w2))
     else other)
    (jt j lo hi w1) (TInt lo2 hi2 w2) j JInt j (fn (jshr (jwidth j))).
Proof.
  intros H1 Hw2 Hother. pose proof H1 as Hp.
  apply jrange_inv in H1 as (l0 & h0 & u0 & (-> & -> & ->)%jt_inj & ? & ? & ?).
  destruct (is_con lo2 hi2) eqn:Econ; unfold is_con in *.
  2: { rewrite Hother by done. apply value_bottom. intros a b c ? ? ->. auto with nodes. }
  zreflect. subst lo2. cbv zeta. rewrite shift_count_u32. pose proof (shift_count j hi2) as Hs.
  destruct (Z.eqb_spec (Z.land hi2 (jwidth j - 1)) 0) as [E0|Hs0].
  { apply value_first; [by apply jrange_phase|]. intros a b c Ha _ _ Hb ->. cbn in Hb.
    assert (b = hi2) as -> by lia. by apply shr_none. }
  set (s := Z.land hi2 (jwidth j - 1)) in *.
  pose proof (shiftr_bounds (jwidth j) l0 s (jwidth_pos j) ltac:(lia) ltac:(unfold in_s; lia)) as Rl.
  pose proof (shiftr_bounds (jwidth j) h0 s (jwidth_pos j) ltac:(lia) ltac:(unfold in_s; lia)) as Rh.
  unfold in_s in Rl, Rh. pose proof (shiftr_mono l0 h0 s).
  apply value_make; [lia|lia|by apply max_widen_range|].
  intros a b c _ _ Ha Hb ->. rewrite gamma_jt in Ha. cbn in Hb. assert (b = hi2) as -> by lia.
  unfold jshr. fold s. split; apply shiftr_mono; lia.
Qed.

(** The unsigned right shifts. *)
Lemma urshift_ok j lo hi w1 lo2 hi2 w2 :
  jrange j (jt j lo hi w1) -> 0 <= w2 <= 3 ->
  value_ok
    (if is_con lo2 hi2 then
       let shift := Z.land (u32 lo2) (jwidth j - 1) in
       if shift =? 0 then Some (jt j lo hi w1)
       else
         let lo' := swrap (jwidth j) (Z.shiftr (uwrap (jwidth j) lo) shift) in
         let hi' := swrap (jwidth j) (Z.shiftr (uwrap (jwidth j) hi) shift) in
         let '(lo', hi') :=
           if (0 <=? hi) && (lo <? 0) then
             let neg_lo := lo' in
             let neg_hi := swrap (jwidth j) (Z.shiftr (uwrap (jwidth j) (-1)) shift) in
             let pos_lo := swrap (jwidth j) (Z.shiftr 0 shift) in
             let pos_hi := hi' in
             (MIN2 neg_lo pos_lo, MAX2 neg_hi pos_hi)
           else (lo', hi') in
         Some (jmake j lo' hi' (MAX2 w1 w2))
     else Some (jbottom j))
    (jt j lo hi w1) (TInt lo2 hi2 w2) j JInt j (fn (jushr (jwidth j))).
Proof.
  intros H1 Hw2. pose proof H1 as Hp.
  apply jrange_inv in H1 as (l0 & h0 & u0 & (-> & -> & ->)%jt_inj & ? & ? & ?).
  destruct (is_con lo2 hi2) eqn:Econ; unfold is_con in *.
  2: { apply value_bottom. intros a b c ? ? ->. auto with nodes. }
  zreflect. subst lo2. cbv zeta. rewrite shift_count_u32. pose proof (shift_count j hi2) as Hs.
  pose proof (jwidth_pos j) as Hw.
  destruct (Z.eqb_spec (Z.land hi2 (jwidth j - 1)) 0) as [E0|Hs0].
  { apply value_first; [by apply jrange_phase|]. intros a b c Ha _ _ Hb ->. cbn in Hb.
    assert (b = hi2) as -> by lia. by apply ushr_none. }
  set (s := Z.land hi2 (jwidth j - 1)) in *.
  assert (Hsmall : forall x, 0 <= Z.shiftr (uwrap (jwidth j) x) s < 2 ^ (jwidth j - 1) /\
            swrap (jwidth j) (Z.shiftr (uwrap (jwidth j) x) s) = Z.shiftr (uwrap (jwidth j) x) s)
    by (intros x; apply ushr_small; lia).
  assert (Hr : forall lo hi a, in_s (jwidth j) lo -> in_s (jwidth j) hi -> lo <= a <= hi ->
            (0 <= hi -> 0 <= lo) ->
            Z.shiftr (uwrap (jwidth j) lo) s <= Z.shiftr (uwrap (jwidth j) a) s <=
            Z.shiftr (uwrap (jwidth j) hi) s)
    by (intros; apply ushr_range; auto; lia).
  assert (Hin : in_s (jwidth j) l0 /\ in_s (jwidth j) h0 /\ in_s (jwidth j) (-1) /\ in_s (jwidth j) 0)
    by (unfold in_s; assert (0 < 2 ^ (jwidth j - 1)) by (apply pow2_pos; lia); lia).
  destruct Hin as (Hl & Hh & Hm1 & Hz).
  assert (E00 : Z.shiftr (uwrap (jwidth j) 0) s = 0).
  { rewrite uwrap_small, Z.shiftr_0_l; [done|lia|]. unfold in_u.
    pose proof (pow2_pos (jwidth j)). lia. }
  rewrite !(proj2 (Hsmall _)).
  destruct ((0 <=? h0) && (l0 <? 0)) eqn:E; zreflect.
  - rewrite MIN2_min, MAX2_max, Z.shiftr_0_l, (swrap_small _ Hw 0) by done.
    pose proof (proj1 (Hsmall l0)). pose proof (proj1 (Hsmall h0)). pose proof (proj1 (Hsmall (-1))).
    apply value_make; [lia|lia|by apply max_widen_range|].
    intros a b c _ _ Ha Hb ->. rewrite gamma_jt in Ha. cbn in Hb. assert (b = hi2) as -> by lia.
    unfold jushr. fold s. rewrite !(proj2 (Hsmall _)). destruct (Z.leb_spec 0 a).
    + pose proof (Hr 0 h0 a Hz Hh). lia.
    + pose proof (Hr l0 (-1) a Hl Hm1). lia.
  - assert (Hsign : 0 <= h0 -> 0 <= l0) by lia.
    pose proof (Hr l0 h0 l0 Hl Hh ltac:(lia) Hsign). pose proof (proj1 (Hsmall l0)).
    pose proof (proj1 (Hsmall h0)). apply value_make; [lia|lia|by apply max_widen_range|].
    intros a b c _ _ Ha Hb ->. rewrite gamma_jt in Ha. cbn in Hb. assert (b = hi2) as -> by lia.
    unfold jushr. fold s. rewrite !(proj2 (Hsmall _)). by apply Hr.
Qed.

(** Both tests for a type without information answer the bottom type. *)
Ltac shift_bottom j :=
  destruct (bool_decide (_ = INT)) eqn:?; [apply (value_bottom j JInt j); intros a b c ? ? ->; apply (shr_in_range j) || apply (ushr_in_range j); done|].

Lemma RShiftI_sound : value_sound RShiftI_Value JInt JInt JInt (fn (jshr 32)).
Proof.
  intros t1 t2 H1 H2. apply (shift_frame JInt (jshr 32) INT_ZERO); try done.
  - intros; apply Z.shiftr_0_l.
  - intros; by apply shr_none.
  - intros ? ?. destruct (_ || _) eqn:E.
    { apply (value_bottom JInt JInt JInt). intros a b c ? ? ->. by apply (shr_in_range JInt). }
    shift_bottom JInt. phase_ranges.
    apply (rshift_ok JInt); [done|apply H2|]. intros ->. by rewrite orb_true_r.
Qed.

Lemma RShiftL_sound : value_sound RShiftL_Value JLong JInt JLong (fn (jshr 64)).
Proof.
  intros t1 t2 H1 H2. apply (shift_frame JLong (jshr 64) LONG_ZERO); try done.
  - intros; apply Z.shiftr_0_l.
  - intros; by apply shr_none.
  - intros ? ?. destruct (_ || _) eqn:E.
    { apply (value_bottom JLong JInt JLong). intros a b c ? ? ->. by apply (shr_in_range JLong). }
    shift_bottom JLong. phase_ranges. by apply (rshift_ok JLong); [|apply H2|].
Qed.

Lemma URShiftI_sound : value_sound URShiftI_Value JInt JInt JInt (fn (jushr 32)).
Proof.
  intros t1 t2 H1 H2. apply (shift_frame JInt (jushr 32) INT_ZERO); try done.
  - intros; by apply ushr_zero.
  - intros; by apply ushr_none.
  - intros ? ?. destruct (_ || _) eqn:E.
    { apply (value_bottom JInt JInt JInt). intros a b c ? ? ->. by apply (ushr_in_range JInt). }
    shift_bottom JInt. phase_ranges. by apply (urshift_ok JInt); [|apply H2].
Qed.

Lemma URShiftL_sound : value_sound URShiftL_Value JLong JInt JLong (fn (jushr 64)).
Proof.
  intros t1 t2 H1 H2. apply (shift_frame JLong (jushr 64) LONG_ZERO); try done.
  - intros; by apply ushr_zero.
  - intros; by apply ushr_none.
  - intros ? ?. destruct (_ || _) eqn:E.
    { apply (value_bottom JLong JInt JLong). intros a b c ? ? ->. by apply (ushr_in_range JLong). }
    shift_bottom JLong. phase_ranges. by apply (urshift_ok JLong); [|apply H2].
Qed.

(** C38: The shifts (left, arithmetic right and logical right, of ints and longs): from
    any input types [Value] computes a type that contains the result of the Java shift,
    whose distance is taken modulo the width; in particular a left shift keeps its range
    only when neither end point overflows, and a logical shift of a range with both signs
    covers both halves. *)
Theorem shift_values_sound :
  value_sound LShiftI_Value JInt JInt JInt (fn (jshl 32)) /\
  value_sound LShiftL_Value JLong JInt JLong (fn (jshl 64)) /\
  value_sound RShiftI_Value JInt JInt JInt (fn (jshr 32)) /\
  value_sound RShiftL_Value JLong JInt JLong (fn (jshr 64)) /\
  value_sound URShiftI_Value JInt JInt JInt (fn (jushr 32)) /\
  value_sound URShiftL_Value JLong JInt JLong (fn (jushr 64)).
Proof.
  split_and!; [apply LShiftI_sound|apply LShiftL_sound|apply RShiftI_sound|apply RShiftL_sound
              |apply URShiftI_sound|apply URShiftL_sound].
Qed.

Lemma shift_values_sound_witness :
  exists t, URShiftI_Value (TInt (-8) 5 0) (TInt 28 28 0) = Some t /\ phase_type JInt t /\
    gamma t (VInt 15).
Proof.
  destruct shift_values_sound as (_ & _ & _ & _ & H & _).
  destruct (H (TInt (-8) 5 0) (TInt 28 28 0)) as (t & E & Ht & Hg); [by apply int_phase..|].
  exists t. split; [exact E|]. split; [exact Ht|].
  apply (Hg (-8) 28 15); [unfold in_s; cbn; lia|unfold in_s; cbn; lia|cbn; lia|cbn; lia|reflexivity].
Defined.

(* ------------------------------------------------------------------ *)
(** ** Division and remainder *)

Definition jmin (j : jtype) : Z := match j with JInt => min_jint | JLong => min_jlong end.
Definition jmax (j : jtype) : Z := match j with JInt => max_jint | JLong => max_jlong end.

Lemma jmin_eq j : jmin j = - 2 ^ (jwidth j - 1).
Proof. by destruct j. Qed.

Lemma jmax_eq j : jmax j = 2 ^ (jwidth j - 1) - 1.
Proof. by destruct j. Qed.

Lemma jmax_half j : jmax j / 2 + 1 = 2 ^ (jwidth j - 2).
Proof. by destruct j. Qed.

Lemma quot_mono a b d : 0 < d -> a <= b -> Z.quot a d <= Z.quot b d.
Proof. intros. apply Z.quot_le_mono; lia. Qed.

Lemma quot_anti a b d : d < 0 -> a <= b -> Z.quot b d <= Z.quot a d.
Proof.
  intros Hd Hab. replace d with (- (- d)) by lia. rewrite (Z.quot_opp_r a (- d)), (Z.quot_opp_r b (- d)) by lia.
  pose proof (quot_mono a b (- d) ltac:(lia) Hab). lia.
Qed.

(** A quotient is no larger than the dividend, and at most half of it when the divisor is
    not 1 or -1. *)
Lemma quot_abs a d : d <> 0 ->
  Z.abs (Z.quot a d) <= Z.abs a /\ (1 < Z.abs d -> 2 * Z.abs (Z.quot a d) <= Z.abs a).
Proof.
  intros Hd. rewrite <- Z.quot_abs by done.
  pose proof (Z.quot_rem' (Z.abs a) (Z.abs d)) as E.
  pose proof (Z.rem_bound_pos (Z.abs a) (Z.abs d) ltac:(lia) ltac:(lia)).
  pose proof (Z.quot_pos (Z.abs a) (Z.abs d) ltac:(lia) ltac:(lia)).
  set (q := Z.quot (Z.abs a) (Z.abs d)) in *. split; [nia|]. intros ?. nia.
Qed.

Lemma quot_one a : Z.quot a 1 = a.
Proof. apply Z.quot_1_r. Qed.

Lemma quot_minus_one a : Z.quot a (-1) = - a.
Proof. change (-1) with (- (1)). rewrite Z.quot_opp_r by lia. by rewrite Z.quot_1_r. Qed.

(** Only the most negative value divided by -1 overflows. *)
Lemma quot_in_s w a d : 0 < w -> in_s w a -> d <> 0 -> (d = -1 -> a <> - 2 ^ (w - 1)) ->
  in_s w (Z.quot a d).
Proof.
  unfold in_s. intros Hw Ha Hd Hov. pose proof (quot_abs a d Hd) as [H1 H2].
  destruct (Z.eqb_spec d (-1)) as [->|]; [rewrite quot_minus_one; lia|].
  destruct (Z.eqb_spec d 1) as [->|]; [rewrite quot_one; lia|]. lia.
Qed.

(** The most negative value divided by -1 is itself. *)
Lemma div_wraps j : swrap (jwidth j) (- - 2 ^ (jwidth j - 1)) = - 2 ^ (jwidth j - 1).
Proof. by destruct j. Qed.

(** The division of a range by a constant. *)
Lemma div_by_con_ok j l1 h1 u1 d h2 u2 w :
  - 2 ^ (jwidth j - 1) <= l1 <= h1 -> h1 <= 2 ^ (jwidth j - 1) - 1 -> 0 <= w <= 3 ->
  d = h2 -> d <> 0 ->
  value_ok
    (let '(lo, hi) :=
       if 0 <=? d then (Z.quot l1 d, Z.quot h1 d)
       else if (d =? -1) && (l1 =? jmin j) then
         (jmin j, if h1 =? jmin j then jmin j else jmax j)
       else (Z.quot h1 d, Z.quot l1 d) in
     Some (jmake j lo hi w))
    (jt j l1 h1 u1) (jt j d h2 u2) j j j (jdiv (jwidth j)).
Proof.
  intros ? ? ? <- Hd. rewrite jmin_eq, jmax_eq. pose proof (jwidth_pos j) as Hw.
  assert (0 < 2 ^ (jwidth j - 1)) by (apply pow2_pos; lia).
  assert (Hq : forall a, l1 <= a <= h1 -> (d = -1 -> a <> - 2 ^ (jwidth j - 1)) ->
            in_s (jwidth j) (Z.quot a d)) by (intros; apply quot_in_s; auto; unfold in_s; lia).
  destruct (0 <=? d) eqn:Ed; [|destruct ((d =? -1) && (l1 =? - 2 ^ (jwidth j - 1))) eqn:Em]; zreflect.
  - pose proof (quot_mono l1 h1 d). pose proof (Hq l1 ltac:(lia) ltac:(lia)).
    pose proof (Hq h1 ltac:(lia) ltac:(lia)). unfold in_s in *.
    apply value_make; [lia|lia|done|]. intros a b c _ _ Ha Hb [_ ->].
    rewrite gamma_jt in Ha, Hb. assert (b = d) as -> by lia.
    rewrite swrap_small by (done || (apply Hq; lia)). split; apply quot_mono; lia.
  - subst d l1. destruct (Z.eqb_spec h1 (- 2 ^ (jwidth j - 1))) as [->|];
      (apply value_make; [lia|lia|done|]); intros a b c _ _ Ha Hb [_ ->].
    + rewrite gamma_jt in Ha, Hb. assert (b = -1) as -> by lia.
      assert (a = - 2 ^ (jwidth j - 1)) as -> by lia. rewrite quot_minus_one, div_wraps. lia.
    + pose proof (swrap_range (jwidth j) Hw (Z.quot a b)). unfold in_s in *. lia.
  - assert (Hm : d = -1 -> l1 <> - 2 ^ (jwidth j - 1)) by lia.
    pose proof (quot_anti l1 h1 d). pose proof (Hq l1 ltac:(lia) ltac:(lia)).
    pose proof (Hq h1 ltac:(lia) ltac:(lia)). unfold in_s in *.
    apply value_make; [lia|lia|done|]. intros a b c _ _ Ha Hb [_ ->].
    rewrite gamma_jt in Ha, Hb. assert (b = d) as -> by lia.
    rewrite swrap_small by (done || (apply Hq; lia)). split; apply quot_anti; lia.
Qed.

(** The division of a constant by a range. *)
Lemma div_of_con_ok j d h1 u1 l2 h2 u2 w :
  - 2 ^ (jwidth j - 1) <= d <= 2 ^ (jwidth j - 1) - 1 -> 0 <= w <= 3 -> d = h1 ->
  value_ok
    (if d <? 0 then
       if d =? jmin j then Some (jmake j (jmin j) (jmax j / 2 + 1) w)
       else Some (jmake j d (- d) w)
     else Some (jmake j (- d) d w))
    (jt j d h1 u1) (jt j l2 h2 u2) j j j (jdiv (jwidth j)).
Proof.
  intros ? ? <-. pose proof (jwidth_pos j) as Hw.
  assert (Hhalf : 2 ^ (jwidth j - 1) = 2 * 2 ^ (jwidth j - 2)) by by destruct j.
  assert (0 < 2 ^ (jwidth j - 2)) by by destruct j.
  rewrite jmax_half, jmin_eq.
  destruct (Z.ltb_spec d 0); [destruct (Z.eqb_spec d (- 2 ^ (jwidth j - 1))) as [Em|]|];
    (apply value_make; [lia|lia|done|]); intros a b c _ _ Ha _ [Hb ->];
    rewrite gamma_jt in Ha; (assert (a = d) as -> by lia); pose proof (quot_abs d b Hb) as [Hq Hq2].
  2,3: rewrite swrap_small by (done || unfold in_s; lia); lia.
  destruct (Z.eqb_spec b (-1)) as [->|]; [|destruct (Z.eqb_spec b 1) as [->|]].
  - rewrite quot_minus_one, Em, div_wraps. lia.
  - rewrite quot_one, swrap_small by (done || unfold in_s; lia). lia.
  - rewrite swrap_small by (done || unfold in_s; lia). lia.
Qed.

(** The first tests of the divisions, on types that are neither [TOP] nor [BOTTOM]. *)
Lemma div_ok j lo1 hi1 w1 lo2 hi2 w2 :
  jrange j (jt j lo1 hi1 w1) -> jrange j (jt j lo2 hi2 w2) ->
  value_ok
    (let widen := MAX2 w1 w2 in
     if is_con lo2 hi2 && negb (lo2 =? 0) then
       let d := lo2 in
       let '(lo, hi) :=
         if 0 <=? d then (Z.quot lo1 d, Z.quot hi1 d)
         else if (d =? -1) && (lo1 =? jmin j) then
           (jmin j, if hi1 =? jmin j then jmin j else jmax j)
         else (Z.quot hi1 d, Z.quot lo1 d) in
       Some (jmake j lo hi widen)
     else if is_con lo1 hi1 then
       let d := lo1 in
       if d <? 0 then
         if d =? jmin j then Some (jmake j (jmin j) (jmax j / 2 + 1) widen)
         else Some (jmake j d (- d) widen)
       else Some (jmake j (- d) d widen)
     else Some (jbottom j))
    (jt j lo1 hi1 w1) (jt j lo2 hi2 w2) j j j (jdiv (jwidth j)).
Proof.
  intros H1 H2.
  apply jrange_inv in H1 as (l1 & h1 & u1 & (-> & -> & ->)%jt_inj & ? & ? & ?).
  apply jrange_inv in H2 as (l2 & h2 & u2 & (-> & -> & ->)%jt_inj & ? & ? & ?).
  pose proof (max_widen_range u1 u2 ltac:(done) ltac:(done)) as Hwid. unfold is_con. cbv zeta.
  destruct ((l2 =? h2) && negb (l2 =? 0)) eqn:E2; zreflect; [by apply div_by_con_ok|].
  destruct (Z.eqb_spec l1 h1); [apply div_of_con_ok; [lia|done|done]|].
  apply value_bottom. intros a b c ? ? [_ ->]. apply swrap_range, jwidth_pos.
Qed.

Lemma jdiv_self j a c : in_s (jwidth j) a -> jdiv (jwidth j) a a c -> c = 1.
Proof. intros _ [Ha ->]. rewrite Z.quot_same by done. by destruct j. Qed.

(** The result of an operation on equal inputs. *)
Lemma value_same j t1 t2 v (op : Z -> Z -> Z -> Prop) :
  in_s (jwidth j) v -> (forall a b c, in_s (jwidth j) a -> op a b c -> c = v) ->
  value_ok (Some (jt j v v 0)) t1 t2 j j j op.
Proof.
  intros Hv Hop. eexists. split; [done|]. split; [by apply jrange_phase, jrange_con|].
  intros a b c Ha _ _ _ Hc. apply gamma_jt. rewrite (Hop a b c); [lia|done|done].
Qed.

Lemma value_ok_weaken o t1 t2 j1 j2 j (op op' : Z -> Z -> Z -> Prop) :
  (forall a b c, op a b c -> op' a b c) -> value_ok o t1 t2 j1 j2 j op' ->
  value_ok o t1 t2 j1 j2 j op.
Proof.
  intros Himp (t & E & Ht & Hop). exists t. split_and!; [done|done|].
  intros a b c ? ? ? ? ?. eauto.
Qed.

Lemma DivI_sound eqv :
  value_sound (DivI_Value eqv) JInt JInt JInt (fun a b c => (eqv = true -> a = b) /\ jdiv 32 a b c).
Proof.
  intros t1 t2 H1 H2.
  change (value_ok (DivI_Value eqv t1 t2) t1 t2 JInt JInt JInt
            (fun a b c => (eqv = true -> a = b) /\ jdiv 32 a b c)).
  unfold DivI_Value. case_bool_decide; [subst; apply value_TOP1|].
  case_bool_decide; [subst; apply value_TOP2|]. destruct eqv.
  { apply (value_same JInt); [done|]. intros a b c Ha [Heq Hd].
    rewrite <- (Heq eq_refl) in Hd. by apply (jdiv_self JInt a). }
  apply (value_ok_weaken _ _ _ _ _ _ _ (jdiv 32)); [tauto|]. destruct (_ || _) eqn:E.
  { apply (value_bottom JInt JInt JInt). intros a b c ? ? [_ ->]. by apply swrap_range. }
  phase_ranges. by apply (div_ok JInt).
Qed.

Lemma DivL_sound eqv :
  value_sound (DivL_Value eqv) JLong JLong JLong (fun a b c => (eqv = true -> a = b) /\ jdiv 64 a b c).
Proof.
  intros t1 t2 H1 H2.
  change (value_ok (DivL_Value eqv t1 t2) t1 t2 JLong JLong JLong
            (fun a b c => (eqv = true -> a = b) /\ jdiv 64 a b c)).
  unfold DivL_Value. case_bool_decide; [subst; apply value_TOP1|].
  case_bool_decide; [subst; apply value_TOP2|]. destruct eqv.
  { apply (value_same JLong); [done|]. intros a b c Ha [Heq Hd].
    rewrite <- (Heq eq_refl) in Hd. by apply (jdiv_self JLong a). }
  apply (value_ok_weaken _ _ _ _ _ _ _ (jdiv 64)); [tauto|]. destruct (_ || _) eqn:E.
  { apply (value_bottom JLong JLong JLong). intros a b c ? ? [_ ->]. by apply swrap_range. }
  phase_ranges. by apply (div_ok JLong).
Qed.

Lemma rem_abs a d : d <> 0 -> Z.abs (Z.rem a d) <= Z.abs a.
Proof.
  intros Hd. rewrite <- Z.rem_abs by done. rewrite Z.rem_mod_nonneg by lia.
  destruct (Z.ltb_spec (Z.abs a) (Z.abs d)); [rewrite Z.mod_small; lia|].
  pose proof (Z.mod_pos_bound (Z.abs a) (Z.abs d)). lia.
Qed.

Lemma rem_in_s w a d : in_s w a -> d <> 0 -> in_s w (Z.rem a d).
Proof.
  unfold in_s. intros Ha Hd. pose proof (rem_abs a d Hd).
  destruct (Z.ltb_spec a 0).
  - pose proof (Z.rem_nonpos a d Hd ltac:(lia)). lia.
  - pose proof (Z.rem_nonneg a d Hd ltac:(lia)). lia.
Qed.

(** The remainder of ranges; [pos] is the type of the non-negative values. *)
Lemma mod_ok j lo1 hi1 w1 lo2 hi2 w2 :
  jrange j (jt j lo1 hi1 w1) -> jrange j (jt j lo2 hi2 w2) ->
  value_ok
    (if negb (is_con lo1 hi1) || negb (is_con lo2 hi2) then
       if (0 <=? lo1) && (0 <=? lo2) then Some (jmake j 0 (jmax j) WidenMin) else Some (jbottom j)
     else if lo2 =? 0 then Some (jmake j 0 (jmax j) WidenMin)
     else if (lo1 =? jmin j) && (lo2 =? -1) then Some (jt j 0 0 0)
     else Some (jmake j (Z.rem lo1 lo2) (Z.rem lo1 lo2) WidenMin))
    (jt j lo1 hi1 w1) (jt j lo2 hi2 w2) j j j jmod.
Proof.
  intros H1 H2.
  apply jrange_inv in H1 as (l1 & h1 & u1 & (-> & -> & ->)%jt_inj & ? & ? & ?).
  apply jrange_inv in H2 as (l2 & h2 & u2 & (-> & -> & ->)%jt_inj & ? & ? & ?).
  assert (0 < 2 ^ (jwidth j - 1)) by (apply pow2_pos; pose proof (jwidth_pos j); lia).
  rewrite jmax_eq, jmin_eq. unfold is_con, WidenMin.
  destruct (_ || _) eqn:E; [destruct ((0 <=? l1) && (0 <=? l2)) eqn:Ep; zreflect|].
  - apply value_make; [lia|lia|lia|]. intros a b c Ha _ Ga Gb [Hb ->].
    rewrite gamma_jt in Ga, Gb. pose proof (rem_in_s _ a b Ha Hb) as Hr. unfold in_s in Hr.
    pose proof (Z.rem_nonneg a b Hb). lia.
  - apply value_bottom. intros a b c Ha _ [Hb ->]. by apply rem_in_s.
  - zreflect. subst l1 l2. destruct (Z.eqb_spec h2 0) as [->|Hh2].
    { apply value_make; [lia|lia|lia|]. intros a b c _ _ _ Gb [Hb _]. rewrite gamma_jt in Gb. lia. }
    destruct (_ && _) eqn:Em; zreflect.
    + subst h1 h2. eexists. split; [done|]. split; [apply jrange_phase, jrange_con; unfold in_s; lia|].
      intros a b c _ _ _ Gb [_ ->]. rewrite gamma_jt in *. assert (b = -1) as -> by lia.
      pose proof (Z.rem_bound_abs a (-1)). lia.
    + pose proof (rem_in_s (jwidth j) h1 h2 ltac:(unfold in_s; lia) Hh2) as Hr. unfold in_s in Hr.
      apply value_make; [lia|lia|lia|]. intros a b c _ _ Ga Gb [_ ->]. rewrite gamma_jt in *.
      assert (a = h1) as -> by lia. assert (b = h2) as -> by lia. lia.
Qed.

Lemma jmod_self a c : jmod a a c -> c = 0.
Proof. intros [Ha ->]. by apply Z.rem_same. Qed.

(** The first input is zero. *)
Lemma mod_zero j t1 t2 op :
  t1 = jt j 0 0 0 -> (forall b c, op 0 b c -> c = 0) ->
  value_ok (Some (jt j 0 0 0)) t1 t2 j j j op.
Proof.
  intros -> Hop. eexists. split; [done|]. split.
  { apply jrange_phase, jrange_con. unfold in_s. assert (0 < 2 ^ (jwidth j - 1)) by (apply pow2_pos; pose proof (jwidth_pos j); lia). lia. }
  intros a b c _ _ Ga _ Hc. rewrite gamma_jt in *. assert (a = 0) as -> by lia.
  rewrite (Hop b c Hc). lia.
Qed.

Lemma ModI_sound eqv :
  value_sound (ModI_Value eqv) JInt JInt JInt (fun a b c => (eqv = true -> a = b) /\ jmod a b c).
Proof.
  intros t1 t2 H1 H2.
  change (value_ok (ModI_Value eqv t1 t2) t1 t2 JInt JInt JInt
            (fun a b c => (eqv = true -> a = b) /\ jmod a b c)).
  unfold ModI_Value. case_bool_decide; [subst; apply value_TOP1|].
  case_bool_decide; [subst; apply value_TOP2|].
  case_bool_decide as E0.
  { apply (mod_zero JInt); [done|]. intros b c [_ [? ->]]. by apply Z.rem_0_l. }
  destruct eqv.
  { apply (value_same JInt); [done|]. intros a b c _ [Heq Hd]. rewrite <- (Heq eq_refl) in Hd.
    by eapply jmod_self. }
  apply (value_ok_weaken _ _ _ _ _ _ _ jmod); [tauto|]. destruct (_ || _) eqn:E.
  { apply (value_bottom JInt JInt JInt). intros a b c ? ? [? ->]. by apply rem_in_s. }
  phase_ranges. rewrite TypeInt_con_make. by apply (mod_ok JInt).
Qed.

Lemma ModL_sound eqv :
  value_sound (ModL_Value eqv) JLong JLong JLong (fun a b c => (eqv = true -> a = b) /\ jmod a b c).
Proof.
  intros t1 t2 H1 H2.
  change (value_ok (ModL_Value eqv t1 t2) t1 t2 JLong JLong JLong
            (fun a b c => (eqv = true -> a = b) /\ jmod a b c)).
  unfold ModL_Value. case_bool_decide; [subst; apply value_TOP1|].
  case_bool_decide; [subst; apply value_TOP2|].
  case_bool_decide as E0.
  { apply (mod_zero JLong); [done|]. intros b c [_ [? ->]]. by apply Z.rem_0_l. }
  destruct eqv.
  { apply (value_same JLong); [done|]. intros a b c _ [Heq Hd]. rewrite <- (Heq eq_refl) in Hd.
    by eapply jmod_self. }
  apply (value_ok_weaken _ _ _ _ _ _ _ jmod); [tauto|]. destruct (_ || _) eqn:E.
  { apply (value_bottom JLong JLong JLong). intros a b c ? ? [? ->]. by apply rem_in_s. }
  phase_ranges. rewrite TypeLong_con_make. by apply (mod_ok JLong).
Qed.

(** C37: Division and remainder of ints and longs: from any input types [Value]
    computes a type that contains the result of the Java operation whenever the divisor is
    not zero, the overflow of the most negative value divided by -1 included. *)
Theorem div_values_sound (eqv : bool) :
  value_sound (DivI_Value eqv) JInt JInt JInt (fun a b c => (eqv = true -> a = b) /\ jdiv 32 a b c) /\
  value_sound (DivL_Value eqv) JLong JLong JLong (fun a b c => (eqv = true -> a = b) /\ jdiv 64 a b c) /\
  value_sound (ModI_Value eqv) JInt JInt JInt (fun a b c => (eqv = true -> a = b) /\ jmod a b c) /\
  value_sound (ModL_Value eqv) JLong JLong JLong (fun a b c => (eqv = true -> a = b) /\ jmod a b c).
Proof. split_and!; [apply DivI_sound|apply DivL_sound|apply ModI_sound|apply ModL_sound]. Qed.

Lemma div_values_sound_witness :
  exists t, DivI_Value false (TInt min_jint 5 0) (TInt (-1) (-1) 0) = Some t /\ phase_type JInt t /\
    gamma t (VInt min_jint).
Proof.
  destruct (proj1 (div_values_sound false) (TInt min_jint 5 0) (TInt (-1) (-1) 0)) as (t & E & Ht & Hg); [by apply int_phase..|].
  exists t. split; [exact E|]. split; [exact Ht|].
  apply (Hg min_jint (-1) min_jint); [by vm_compute|by vm_compute|by vm_compute|cbn; lia|].
  split; [discriminate|]. split; [lia|reflexivity].
Defined.

(* ------------------------------------------------------------------ *)
(** ** Bit counts *)

(** The invariant of the search for the leading one: [x] is the value moved left, its
    leading one is at place [b] or above. *)
Definition clz_inv (m b : Z) (nx : Z * Z) : Prop :=
  let '(n, x) := nx in
  0 < x < 2 ^ 32 /\ 2 ^ b <= x /\ Z.log2 x = 31 - m + n - 1.

Lemma clz_step_inv m b k s n x :
  0 <= b -> k = 32 - s -> 0 < s -> b + s = k -> clz_inv m b (n, x) ->
  clz_inv m k (clz_step k s (n, x)).
Proof.
  intros Hb -> Hs Hk (Hx & Hlow & Hlog). unfold clz_step.
  pose proof (Z.log2_spec x ltac:(lia)) as [L1 L2]. rewrite Z.shiftr_div_pow2 by lia.
  assert (0 < 2 ^ (32 - s)) by (apply pow2_pos; lia).
  destruct (Z.eqb_spec (x / 2 ^ (32 - s)) 0) as [E|E].
  - apply Z.div_small_iff in E; [|lia]. assert (Hlt : x < 2 ^ (32 - s)) by lia.
    assert (Hp : 2 ^ (32 - s) * 2 ^ s = 2 ^ 32) by (rewrite <- Z.pow_add_r by lia; f_equal; lia).
    assert (0 < 2 ^ s) by (apply pow2_pos; lia).
    assert (x * 2 ^ s < 2 ^ 32) by nia.
    rewrite Z.shiftl_mul_pow2, uwrap_small by (lia || unfold in_u; nia).
    split_and!; [nia|nia| |].
    + replace (32 - s) with (b + s) by lia. rewrite Z.pow_add_r by lia. nia.
    + rewrite Z.log2_mul_pow2 by lia. lia.
  - split_and!; [lia|lia| |done].
    destruct (Z.ltb_spec x (2 ^ (32 - s))) as [Hlt|]; [|done]. destruct E. apply Z.div_small. lia.
Qed.

Lemma clz_search_spec m n x : clz_inv m 0 (n, x) -> clz_search n x = m.
Proof.
  intros H0. unfold clz_search.
  pose proof (clz_step_inv m 0 16 16 n x ltac:(lia) eq_refl ltac:(lia) eq_refl H0) as H1.
  destruct (clz_step 16 16 (n, x)) as [n1 x1].
  pose proof (clz_step_inv m 16 24 8 n1 x1 ltac:(lia) eq_refl ltac:(lia) eq_refl H1) as H2.
  destruct (clz_step 24 8 (n1, x1)) as [n2 x2].
  pose proof (clz_step_inv m 24 28 4 n2 x2 ltac:(lia) eq_refl ltac:(lia) eq_refl H2) as H3.
  destruct (clz_step 28 4 (n2, x2)) as [n3 x3].
  pose proof (clz_step_inv m 28 30 2 n3 x3 ltac:(lia) eq_refl ltac:(lia) eq_refl H3) as H4.
  destruct (clz_step 30 2 (n3, x3)) as [n4 x4].
  destruct H4 as (Hx & Hlow & Hlog). rewrite Z.shiftr_div_pow2 by lia.
  pose proof (Z.log2_spec x4 ltac:(lia)) as [L1 L2].
  destruct (Z.ltb_spec x4 (2 ^ 31)).
  - rewrite Z.div_small by lia. assert (Z.log2 x4 = 30); [|lia].
    apply Z.log2_unique; lia.
  - assert (x4 / 2 ^ 31 = 1) as -> by (symmetry; apply (Z.div_unique _ _ 1 (x4 - 2 ^ 31)); lia).
    assert (Z.log2 x4 = 31); [|lia]. apply Z.log2_unique; lia.
Qed.

Lemma lowest_bit_exists x : x <> 0 -> exists n, lowest_bit x n.
Proof.
  intros Hx.
  assert (Hs : forall N : nat, (forall m, 0 <= m < Z.of_nat N -> Z.testbit x m = false) \/ exists n, lowest_bit x n).
  { induction N as [|N [IH|IH]]; [left; lia| |by right].
    destruct (Z.testbit x (Z.of_nat N)) eqn:E.
    - right. exists (Z.of_nat N). split_and!; [lia|done|done].
    - left. intros m Hm. destruct (Z.eq_dec m (Z.of_nat N)) as [->|]; [done|]. apply IH. lia. }
  set (N := Z.to_nat (Z.log2_up (Z.abs x + 1) + 1)).
  destruct (Hs (S N)) as [Hn|Hn]; [|done]. destruct Hx.
  assert (Hb : in_s (Z.of_nat N) x).
  { unfold in_s, N. rewrite Z2Nat.id by (pose proof (Z.log2_up_nonneg (Z.abs x + 1)); lia).
    rewrite Z.add_simpl_r. pose proof (Z.log2_up_le_pow2 (Z.abs x + 1) (Z.log2_up (Z.abs x + 1)) ltac:(lia)). lia. }
  assert (0 < Z.of_nat N) by (unfold N; pose proof (Z.log2_up_nonneg (Z.abs x + 1)); lia).
  apply Z.bits_inj'. intros i Hi. rewrite Z.testbit_0_l.
  destruct (Z.ltb_spec i (Z.of_nat N)); [apply Hn; lia|].
  assert (Hsign : Z.testbit x i = Z.testbit x (Z.of_nat N - 1)).
  { apply (in_s_shiftr _ _ ltac:(done)) in Hb.
    assert (forall k, 0 <= k -> Z.testbit x (k + (Z.of_nat N - 1)) = Z.testbit (Z.shiftr x (Z.of_nat N - 1)) k) as Hk
      by (intros; by rewrite Z.shiftr_spec).
    replace i with ((i - (Z.of_nat N - 1)) + (Z.of_nat N - 1)) by lia.
    replace (Z.of_nat N - 1) with (0 + (Z.of_nat N - 1)) at 3 by lia.
    rewrite !Hk by lia. destruct Hb as [-> | ->]; [by rewrite !Z.testbit_0_l|].
    rewrite !Z.bits_m1 by lia. done. }
  rewrite Hsign. apply Hn. lia.
Qed.

(** The lowest bit after a move to the left within an [int]. *)
Lemma lowest_bit_shift i k s : lowest_bit i k -> 0 <= s < 32 ->
  (k + s < 32 -> lowest_bit (s32 (Z.shiftl i s)) (k + s)) /\
  (32 <= k + s -> s32 (Z.shiftl i s) = 0).
Proof.
  intros (Hk & Hbit & Hlow) Hs.
  assert (Htb : forall j, 0 <= j < 32 -> Z.testbit (s32 (Z.shiftl i s)) j = if j <? s then false else Z.testbit i (j - s)).
  { intros j Hj. rewrite swrap_testbit, Z.shiftl_spec by lia.
    destruct (Z.ltb_spec j s); [apply Z.testbit_neg_r; lia|done]. }
  split; intros Hks.
  - split_and!; [lia| |].
    + rewrite Htb by lia. zcases. by rewrite Z.add_simpl_r.
    + intros m Hm. rewrite Htb by lia. destruct (Z.ltb_spec m s); [done|]. apply Hlow. lia.
  - rewrite <- (swrap_uwrap 32) by lia. replace (u32 (Z.shiftl i s)) with 0; [done|].
    apply Z.bits_inj'. intros j Hj. rewrite Z.testbit_0_l, uwrap_testbit by lia.
    destruct (Z.ltb_spec j 32); [|done]. rewrite <- (swrap_testbit 32) by lia.
    rewrite Htb by lia. destruct (Z.ltb_spec j s); [done|]. symmetry. apply Hlow. lia.
Qed.

Lemma lowest_bit_nonzero x n : lowest_bit x n -> x <> 0.
Proof. intros (_ & Hb & _) ->. by rewrite Z.testbit_0_l in Hb. Qed.

Lemma lowest_bit_small x n : lowest_bit x n -> in_s 32 x -> n < 32.
Proof.
  intros Hl Hx. destruct (Z.ltb_spec n 32) as [|Hge]; [done|].
  destruct (lowest_bit_shift x n 0 Hl ltac:(lia)) as [_ H0].
  rewrite Z.shiftl_0_r, swrap_small in H0 by (done || lia).
  destruct (lowest_bit_nonzero x n Hl). apply H0. lia.
Qed.

(** The invariant of the search for the trailing one. *)
Definition ctz_inv (m b : Z) (ni : Z * Z) : Prop :=
  let '(n, i) := ni in exists k, lowest_bit i k /\ b <= k < 32 /\ m = n - 31 + k.

Lemma ctz_step_inv m b s n i :
  0 <= b -> 0 < s < 32 -> b + s + s = 32 -> ctz_inv m b (n, i) ->
  ctz_inv m (b + s) (ctz_step s (n, i)).
Proof.
  intros Hb Hs Hbs (k & Hl & Hk & ->). unfold ctz_step.
  destruct (lowest_bit_shift i k s Hl ltac:(lia)) as [H1 H2].
  destruct (Z.ltb_spec (k + s) 32).
  - specialize (H1 ltac:(lia)). destruct (Z.eqb_spec (s32 (Z.shiftl i s)) 0) as [E|].
    + by apply lowest_bit_nonzero in H1.
    + cbn [negb]. exists (k + s). split_and!; [done|lia|lia|lia].
  - rewrite H2 by lia. cbn [negb Z.eqb]. exists k. split_and!; [done|lia|lia|lia].
Qed.

Lemma ctz_search_spec m n i : ctz_inv m 0 (n, i) -> ctz_search n i = m.
Proof.
  intros H0. unfold ctz_search.
  pose proof (ctz_step_inv m 0 16 n i ltac:(lia) ltac:(lia) eq_refl H0) as H1.
  destruct (ctz_step 16 (n, i)) as [n1 i1].
  pose proof (ctz_step_inv m 16 8 n1 i1 ltac:(lia) ltac:(lia) eq_refl H1) as H2.
  destruct (ctz_step 8 (n1, i1)) as [n2 i2].
  pose proof (ctz_step_inv m 24 4 n2 i2 ltac:(lia) ltac:(lia) eq_refl H2) as H3.
  destruct (ctz_step 4 (n2, i2)) as [n3 i3].
  pose proof (ctz_step_inv m 28 2 n3 i3 ltac:(lia) ltac:(lia) eq_refl H3) as H4.
  destruct (ctz_step 2 (n3, i3)) as [n4 i4]. destruct H4 as (k & Hl & Hk & ->).
  destruct (lowest_bit_shift i4 k 1 Hl ltac:(lia)) as [Ha Hb].
  destruct (Z.ltb_spec (k + 1) 32).
  - specialize (Ha ltac:(lia)). destruct (Z.eqb_spec (s32 (Z.shiftl i4 1)) 0) as [E|].
    + by apply lowest_bit_nonzero in Ha.
    + cbn [negb]. lia.
  - rewrite Hb by lia. cbn [negb Z.eqb]. lia.
Qed.

Lemma lowest_bit_bound x n : lowest_bit x n -> 2 ^ n <= Z.abs x.
Proof.
  intros Hl. pose proof (lowest_bit_nonzero x n Hl) as Hx. destruct Hl as (Hn & _ & Hlow).
  assert (Hp : 0 < 2 ^ n) by by apply pow2_pos.
  assert (E : x mod 2 ^ n = 0).
  { apply Z.bits_inj'. intros i Hi. rewrite Z.testbit_0_l. destruct (Z.ltb_spec i n).
    - rewrite Z.mod_pow2_bits_low by lia. apply Hlow. lia.
    - by apply Z.mod_pow2_bits_high. }
  pose proof (Z.div_mod x (2 ^ n) ltac:(lia)) as Hd. rewrite E, Z.add_0_r in Hd.
  assert (x / 2 ^ n <> 0) by (intros Eq; rewrite Eq in Hd; lia).
  generalize dependent (x / 2 ^ n). intros q -> Hq. rewrite Z.abs_mul, (Z.abs_eq (2 ^ n)) by lia. nia.
Qed.

(** Operations of one input. *)
Definition unary_sound (V : Type_ -> option Type_) (P : Type_ -> Prop) (j1 j : jtype)
    (op : Z -> Z -> Prop) : Prop :=
  forall t, P t ->
  exists t', V t = Some t' /\ phase_type j t' /\
    forall a c, in_s (jwidth j1) a -> gamma t (jv j1 a) -> op a c -> gamma t' (jv j c).

(** What [unary_sound] says of one input type. *)
Definition unary_ok (o : option Type_) (t : Type_) (j1 j : jtype) (op : Z -> Z -> Prop) : Prop :=
  exists t', o = Some t' /\ phase_type j t' /\
    forall a c, in_s (jwidth j1) a -> gamma t (jv j1 a) -> op a c -> gamma t' (jv j c).

Lemma unary_TOP j1 j op : unary_ok (Some TOP) TOP j1 j op.
Proof. exists TOP. split_and!; [done|by left|]. by intros a c _ ?%gamma_TOP. Qed.

Lemma unary_INT t j op :
  (forall a c, in_s (jwidth j) a -> op a c -> 0 <= c <= jwidth j) ->
  unary_ok (Some INT) t j JInt op.
Proof.
  intros Hop. exists INT. split_and!; [done|apply jrange_phase, (jrange_jbottom JInt)|].
  intros a c Ha _ Hc. apply (gamma_jbottom JInt). specialize (Hop a c Ha Hc). unfold in_s.
  destruct j; cbn [jwidth] in *; lia.
Qed.

Lemma unary_con t v j op :
  0 <= v <= jwidth j -> (forall a c, in_s (jwidth j) a -> gamma t (jv j a) -> op a c -> c = v) ->
  unary_ok (Some (TypeInt_con v)) t j JInt op.
Proof.
  intros Hv Hop. exists (TypeInt_con v). split; [done|]. split.
  - apply jrange_phase, (jrange_con JInt). unfold in_s. destruct j; cbn [jwidth] in *; lia.
  - intros a c Ha Ga Hc. rewrite (Hop a c Ha Ga Hc). apply (gamma_jt JInt _ _ 0). lia.
Qed.

(** What the counting nodes need: [f] is the count of every value other than 0. *)
Definition count_fun (w : Z) (f : Z -> Z) (count : Z -> Z -> Prop) : Prop :=
  (forall a c, in_s w a -> count a c -> 0 <= c <= w) /\
  (forall c, count 0 c -> c = w) /\
  (forall a, a <> 0 -> in_s w a -> 0 <= f a <= w /\ forall c, count a c -> c = f a).

Lemma count_ok j lo hi w f count :
  jrange j (jt j lo hi w) -> count_fun (jwidth j) f count ->
  unary_ok (Some (if is_con lo hi then
                    if lo =? 0 then TypeInt_con (jwidth j) else TypeInt_con (f lo)
                  else INT)) (jt j lo hi w) j JInt count.
Proof.
  intros H (Hb & H0 & Hf).
  apply jrange_inv in H as (l & h & u & (-> & -> & ->)%jt_inj & ? & ? & ?).
  unfold is_con. destruct (Z.eqb_spec l h) as [->|]; [|by apply unary_INT].
  destruct (Z.eqb_spec h 0) as [->|Hnz].
  - apply unary_con; [pose proof (jwidth_pos j); lia|]. intros a c _ Ga Hc.
    rewrite gamma_jt in Ga. assert (a = 0) as -> by lia. by apply H0.
  - destruct (Hf h Hnz) as [Hr Hc]; [unfold in_s; lia|]. apply unary_con; [done|].
    intros a c _ Ga Ha. rewrite gamma_jt in Ga. assert (a = h) as -> by lia. by apply Hc.
Qed.

Lemma jnlz_fun w f :
  0 < w -> (forall a, a <> 0 -> in_s w a -> f a = w - 1 - Z.log2 (uwrap w a)) ->
  count_fun w f (jnlz w).
Proof.
  intros Hw Hf.
  assert (Hlog : forall a, 0 < uwrap w a -> 0 <= Z.log2 (uwrap w a) < w).
  { intros a Ha. split; [apply Z.log2_nonneg|]. apply Z.log2_lt_pow2; [done|].
    apply uwrap_range. lia. }
  split_and!.
  - intros a c Ha. unfold jnlz, highest_bit. destruct (Z.eqb_spec a 0); [lia|].
    intros (Hp & ? & E). specialize (Hlog a Hp). lia.
  - intros c. unfold jnlz. by rewrite Z.eqb_refl.
  - intros a Ha Hin. assert (Hp : 0 < uwrap w a).
    { rewrite uwrap_sign by done. unfold in_s in Hin. pose proof (pow2_half w Hw). zcases. }
    specialize (Hlog a Hp). rewrite (Hf a Ha Hin). split; [lia|]. intros c. unfold jnlz, highest_bit.
    destruct (Z.eqb_spec a 0); [done|]. intros (_ & _ & E). lia.
Qed.

Lemma jntz_fun w f :
  0 < w -> (forall a n, in_s w a -> lowest_bit a n -> f a = n) -> count_fun w f (jntz w).
Proof.
  intros Hw Hf.
  assert (Hn : forall a n, in_s w a -> lowest_bit a n -> 0 <= n <= w).
  { intros a n Ha Hl. pose proof (lowest_bit_bound a n Hl). split; [apply Hl|].
    destruct (Z.leb_spec n w) as [|Hgt]; [done|]. unfold in_s in Ha.
    pose proof (Z.pow_lt_mono_r 2 (w - 1) n). lia. }
  split_and!.
  - intros a c Ha. unfold jntz. destruct (Z.eqb_spec a 0); [lia|]. eauto.
  - intros c. unfold jntz. by rewrite Z.eqb_refl.
  - intros a Ha Hin. destruct (lowest_bit_exists a Ha) as [n Hl]. rewrite (Hf a n Hin Hl).
    split; [eauto|]. intros c. unfold jntz. destruct (Z.eqb_spec a 0); [done|].
    intros Hc. by rewrite <- (Hf a n Hin Hl), <- (Hf a c Hin Hc).
Qed.

(** The 32-bit search started on a value other than 0. *)
Lemma clz_start n x : 0 < x < 2 ^ 32 -> clz_search n x = 31 - Z.log2 x + n - 1.
Proof. intros Hx. apply clz_search_spec. split_and!; lia. Qed.

Lemma CLZI_fun : count_fun 32 (fun a => clz_search 1 (u32 a)) (jnlz 32).
Proof.
  apply jnlz_fun; [lia|]. intros a Ha Hin. pose proof (uwrap_range 32 ltac:(lia) a) as Hr.
  unfold in_u in Hr. assert (0 < u32 a).
  { rewrite uwrap_sign in * by (done || lia). unfold in_s in Hin. change (2 ^ (32 - 1)) with (2 ^ 31) in *. zcases. }
  rewrite clz_start by lia. lia.
Qed.

Lemma CLZL_fun :
  count_fun 64
    (fun l => let '(n, x) := if u32 (Z.shiftr (u64 l) 32) =? 0 then (1 + 32, u32 (s32 l))
                             else (1, u32 (Z.shiftr (u64 l) 32)) in clz_search n x) (jnlz 64).
Proof.
  apply jnlz_fun; [lia|]. intros a Ha Hin. pose proof (uwrap_range 64 ltac:(lia) a) as Hr.
  unfold in_u in Hr. assert (0 < u64 a).
  { rewrite uwrap_sign in * by (done || lia). unfold in_s in Hin. change (2 ^ (64 - 1)) with (2 ^ 63) in *. zcases. }
  rewrite uwrap_swrap by lia. rewrite Z.shiftr_div_pow2 by lia.
  assert (Hlow : u32 a = u64 a mod 2 ^ 32).
  { destruct (uwrap_cong 64 ltac:(lia) a) as [k ->]. unfold uwrap.
    replace (a + k * 2 ^ 64) with (a + (k * 2 ^ 32) * 2 ^ 32) by lia. by rewrite Z.mod_add. }
  pose proof (Z.div_mod (u64 a) (2 ^ 32) ltac:(lia)) as Hdm.
  pose proof (Z.mod_pos_bound (u64 a) (2 ^ 32) ltac:(lia)).
  assert (Hh : 0 <= u64 a / 2 ^ 32 < 2 ^ 32)
    by (split; [apply Z.div_pos; lia|apply Z.div_lt_upper_bound; lia]).
  rewrite (uwrap_small 32) by (lia || done). destruct (Z.eqb_spec (u64 a / 2 ^ 32) 0) as [E|E].
  - rewrite clz_start by lia. rewrite Hlow. replace (u64 a mod 2 ^ 32) with (u64 a) by lia. lia.
  - rewrite clz_start by lia.
    rewrite <- (Z.shiftr_div_pow2 (u64 a) 32), Z.log2_shiftr by lia.
    assert (32 <= Z.log2 (u64 a)); [|lia]. apply Z.log2_le_pow2; [done|].
    destruct (Z.ltb_spec (u64 a) (2 ^ 32)); [|done]. destruct E. apply Z.div_small. lia.
Qed.

Lemma CTZI_fun : count_fun 32 (ctz_search 31) (jntz 32).
Proof.
  apply jntz_fun; [lia|]. intros a n Ha Hl. apply ctz_search_spec. exists n.
  pose proof (lowest_bit_small a n Hl Ha). split_and!; [done|apply Hl|done|lia].
Qed.

Lemma CTZL_fun :
  count_fun 64
    (fun l => let '(n, x) := if negb (s32 l =? 0) then (63 - 32, s32 l)
                             else (63, s32 (Z.shiftr (u64 l) 32)) in ctz_search n x) (jntz 64).
Proof.
  apply jntz_fun; [lia|]. intros a n Ha Hl. pose proof (lowest_bit_shift a n 0 Hl ltac:(lia)) as [H1 H2].
  rewrite Z.shiftl_0_r, Z.add_0_r in *. pose proof (lowest_bit_bound a n Hl) as Hb.
  assert (Hn : n < 64).
  { unfold in_s in Ha. destruct (Z.ltb_spec n 64); [done|].
    pose proof (Z.pow_le_mono_r 2 64 n). change (2 ^ (64 - 1)) with (2 ^ 63) in *. lia. }
  destruct Hl as (Hn0 & Hbit & Hlow). destruct (Z.ltb_spec n 32) as [Hlt|Hge].
  - specialize (H1 Hlt). destruct (Z.eqb_spec (s32 a) 0); [by apply lowest_bit_nonzero in H1|].
    cbn [negb]. apply ctz_search_spec. exists n. split_and!; [done|lia|done|lia].
  - rewrite H2 by done. cbn [negb Z.eqb]. apply ctz_search_spec. exists (n - 32).
    assert (Htb : forall i, 0 <= i < 32 -> Z.testbit (s32 (Z.shiftr (u64 a) 32)) i = Z.testbit a (i + 32)).
    { intros i Hi. rewrite swrap_testbit by lia. zbits. destruct (Z.ltb_spec (i + 32) 64); [done|lia]. }
    split_and!; [|lia|lia|lia]. split_and!; [lia| |].
    + rewrite Htb by lia. by rewrite Z.sub_add.
    + intros m Hm. rewrite Htb by lia. apply Hlow. lia.
Qed.

(** The counting nodes on a phase type, up to the range test. *)
Ltac count_node j fn_lemma :=
  intros t [-> | [-> | Ht]];
  [apply (unary_TOP j JInt)|apply (unary_INT _ j); intros a c; apply fn_lemma|];
  destruct (jrange_inv j t Ht) as (lo & hi & w & -> & _); apply (count_ok j _ _ _ _ _ Ht fn_lemma).

Lemma CountLeadingZerosL_eq lo hi w :
  CountLeadingZerosL_Value (TLong lo hi w) =
  if is_con lo hi then
    if lo =? 0 then TypeInt_con 64
    else TypeInt_con (let '(n, x) := if u32 (Z.shiftr (u64 lo) 32) =? 0 then (1 + 32, u32 (s32 lo))
                                     else (1, u32 (Z.shiftr (u64 lo) 32)) in clz_search n x)
  else INT.
Proof.
  unfold CountLeadingZerosL_Value. case_bool_decide; [done|].
  destruct (is_con lo hi), (lo =? 0), (u32 (Z.shiftr (u64 lo) 32) =? 0); reflexivity.
Qed.

Lemma CountTrailingZerosL_eq lo hi w :
  CountTrailingZerosL_Value (TLong lo hi w) =
  if is_con lo hi then
    if lo =? 0 then TypeInt_con 64
    else TypeInt_con (let '(n, x) := if negb (s32 lo =? 0) then (63 - 32, s32 lo)
                                     else (63, s32 (Z.shiftr (u64 lo) 32)) in ctz_search n x)
  else INT.
Proof.
  unfold CountTrailingZerosL_Value. case_bool_decide; [done|].
  destruct (is_con lo hi), (lo =? 0), (s32 lo =? 0); reflexivity.
Qed.

(** The counting nodes: the binary searches that fold the number of leading and of
    trailing zeros of a constant compute exactly these numbers, for ints and for longs
    (whose upper or lower half is searched), the width for 0 included; for any other type
    the answer covers the count of every value. *)
Theorem count_values_sound :
  unary_sound (fun t => Some (CountLeadingZerosI_Value t)) (phase_type JInt) JInt JInt (jnlz 32) /\
  unary_sound (fun t => Some (CountLeadingZerosL_Value t)) (phase_type JLong) JLong JInt (jnlz 64) /\
  unary_sound (fun t => Some (CountTrailingZerosI_Value t)) (phase_type JInt) JInt JInt (jntz 32) /\
  unary_sound (fun t => Some (CountTrailingZerosL_Value t)) (phase_type JLong) JLong JInt (jntz 64).
Proof.
  split_and!.
  - count_node JInt CLZI_fun.
  - intros t [-> | [-> | Ht]];
      [apply (unary_TOP JLong JInt)|apply (unary_INT _ JLong); intros a c; apply CLZL_fun|].
    destruct (jrange_inv JLong t Ht) as (lo & hi & w & -> & _).
    rewrite CountLeadingZerosL_eq. apply (count_ok JLong _ _ _ _ _ Ht CLZL_fun).
  - count_node JInt CTZI_fun.
  - intros t [-> | [-> | Ht]];
      [apply (unary_TOP JLong JInt)|apply (unary_INT _ JLong); intros a c; apply CTZL_fun|].
    destruct (jrange_inv JLong t Ht) as (lo & hi & w & -> & _).
    rewrite CountTrailingZerosL_eq. apply (count_ok JLong _ _ _ _ _ Ht CTZL_fun).
Qed.

Lemma count_values_sound_witness :
  exists t, CountLeadingZerosL_Value (TLong 0x1234 0x1234 0) = t /\ phase_type JInt t /\
    gamma t (VInt 51).
Proof.
  destruct count_values_sound as (_ & H & _).
  destruct (H (TLong 0x1234 0x1234 0)) as (t & E & Ht & Hg); [by apply long_phase|].
  exists t. split; [by injection E|]. split; [exact Ht|].
  apply (Hg 0x1234 51); [by vm_compute|cbn; lia|by vm_compute].
Defined.

Lemma count_values_example :
  CountLeadingZerosL_Value (TLong 0x1234 0x1234 0) = TypeInt_con 51 /\
  CountTrailingZerosL_Value (TLong (-2 ^ 40) (-2 ^ 40) 0) = TypeInt_con 40 /\
  CountTrailingZerosI_Value (TInt min_jint min_jint 0) = TypeInt_con 31.
Proof. by vm_compute. Qed.

(* ------------------------------------------------------------------ *)
(** ** Conversions *)

(** A type a conversion accepts. *)
Definition convertible (j : jtype) (t : Type_) : Prop := t = TOP \/ jrange j t.

Lemma long_filter lo hi w lo' hi' w' :
  jrange JLong (TLong lo hi w) -> jrange JLong (TLong lo' hi' w') ->
  exists t, type_filter (TLong lo hi w) (TLong lo' hi' w') = Some t /\ phase_type JLong t /\
    forall v, gamma (TLong lo hi w) (VLong v) -> gamma (TLong lo' hi' w') (VLong v) -> gamma t (VLong v).
Proof.
  intros H1 H2. cbn [jrange long_range] in H1, H2. unfold type_filter.
  rewrite join_data by done. cbn [mbind option_bind data_dual data_meet].
  assert (Hr : forall u, 0 <= u <= 3 -> Z.max lo lo' <= Z.min hi hi' ->
            jrange JLong (TLong (Z.max lo lo') (Z.min hi hi') u)) by (intros; cbn; lia).
  destruct (Z.ltb_spec (Z.min hi hi') (Z.max lo lo')).
  { exists TOP. split_and!; [done|by left|]. intros v; cbn; lia. }
  destruct (_ <? w); (eexists; split; [reflexivity|]; split; [|intros v; cbn; lia]).
  - apply jrange_phase, (jrange_make JLong); cbn [jwidth]; unfold min_jlong, max_jlong in *;
      change (2 ^ (64 - 1)) with (2 ^ 63); lia.
  - apply jrange_phase, Hr; unfold WidenMax; lia.
Qed.

(** The conversions between ints and longs: an int becomes a long of the same
    range, intersected with the type the node declares (which every value must satisfy); a
    long constant becomes its low half, and any other long an arbitrary int. *)
Theorem conversion_values_sound (declared : Type_) :
  jrange JLong declared ->
  unary_sound (ConvI2L_Value declared) (convertible JInt) JInt JLong
    (fun a c => c = a /\ gamma declared (VLong a)) /\
  unary_sound ConvL2I_Value (convertible JLong) JLong JInt (fun a c => c = s32 a).
Proof.
  intros Hd. split; intros t [-> | Ht].
  - apply (unary_TOP JInt JLong).
  - destruct (jrange_inv JInt t Ht) as (lo & hi & w & -> & Hlo & Hhi & Hw).
    destruct (jrange_inv JLong declared Hd) as (lo' & hi' & w' & -> & _). cbn [jt] in *. unfold ConvI2L_Value.
    rewrite bool_decide_false by done. cbn [jwidth] in *. change (2 ^ (32 - 1)) with (2 ^ 31) in *.
    assert (Hm : jrange JLong (TypeLong_make lo hi w))
      by (apply (jrange_make JLong); cbn [jwidth]; change (2 ^ (64 - 1)) with (2 ^ 63); lia).
    destruct (long_filter lo hi (match TypeLong_make lo hi w with TLong _ _ u => u | _ => 0 end) lo' hi' w' Hm Hd)
      as (t & E & Ht' & Hg).
    exists t. split_and!; [exact E|done|]. intros a c _ Ga [-> Gd]. by apply Hg.
  - apply (unary_TOP JLong JInt).
  - destruct (jrange_inv JLong t Ht) as (lo & hi & w & -> & _). cbn [jt] in *. unfold ConvL2I_Value.
    rewrite bool_decide_false by done. unfold is_con. destruct (Z.eqb_spec lo hi) as [->|].
    + eexists. split; [done|]. split; [apply jrange_phase, (jrange_con JInt), swrap_range; done|].
      intros a c _ Ga ->. cbn in Ga. assert (a = hi) as -> by lia. cbn. lia.
    + exists INT. split_and!; [done|apply jrange_phase, (jrange_jbottom JInt)|].
      intros a c _ _ ->. apply (gamma_jbottom JInt), swrap_range. done.
Qed.

Lemma conversion_values_sound_witness :
  exists t, ConvI2L_Value (TLong 0 100 0) (TInt (-5) 7 0) = Some t /\ phase_type JLong t /\
    gamma t (VLong 6).
Proof.
  destruct (conversion_values_sound (TLong 0 100 0)) as [H _].
  { cbn. unfold min_jlong, max_jlong. lia. }
  destruct (H (TInt (-5) 7 0)) as (t & E & Ht & Hg); [right; cbn; unfold min_jint, max_jint; lia|].
  exists t. split; [exact E|]. split; [exact Ht|]. apply (Hg 6 6); cbn; [unfold in_s; lia|lia|lia].
Defined.
