(* ===== verification/DivMagic.v ===== *)
(** * DivMagic: division by constants, opto/divnode.cpp

    The optimizing compiler replaces a division by a constant by a graph of cheaper
    nodes: a negation, a rounded shift, or a multiplication by a magic number.  The graph is
    an expression [Node] over the Java operations, with an evaluation; the phase is a record
    with what the code asks of it ([transform], which may replace a node by an equivalent
    one, and the type of a node) and a class of the two laws the code relies on.  The
    theorems say that the search for the magic number terminates within its word, and that
    the graph computes the truncated division of Java for every dividend. *)

From S2P Require Import Prelude GlobalDefs TypeLattice NodeValue NodeShiftDiv.

(* ------------------------------------------------------------------ *)
(** ** Graphs *)

(** The nodes the transformation builds and looks at; [Parm] is any other node. *)
Inductive Node :=
  | Parm (n : nat)
  | intcon (c : Z)
  | longcon (c : Z)
  | AddI (a b : Node) | SubI (a b : Node) | AndI (a b : Node)
  | RShiftI (a b : Node) | URShiftI (a b : Node)
  | AddL (a b : Node) | SubL (a b : Node) | AndL (a b : Node) | MulL (a b : Node)
  | MulHiL (a b : Node)
  | RShiftL (a b : Node) | URShiftL (a b : Node)
  | ConvI2L (a : Node) | ConvL2I (a : Node).

(** What the code asks of the phase and of the matcher. *)
Record PhaseGVN := {
  transform : Node -> Node;
  type : Node -> Type_;
  has_MulHiL : bool
}.

(* ------------------------------------------------------------------ *)
(** ** Magic numbers *)

(** The state of the search: [p], [q1], [r1], [q2], [r2]; the variables other than [p]
    are unsigned [w]-bit integers. *)
Record magic_state := { mp : Z; mq1 : Z; mr1 : Z; mq2 : Z; mr2 : Z }.

(** The body of the [do] loop. *)
Definition magic_step (w ad anc : Z) (m : magic_state) : magic_state :=
  let p := mp m + 1 in
  let q1 := uwrap w (2 * mq1 m) in
  let r1 := uwrap w (2 * mr1 m) in
  let '(q1, r1) := if anc <=? r1 then (uwrap w (q1 + 1), uwrap w (r1 - anc)) else (q1, r1) in
  let q2 := uwrap w (2 * mq2 m) in
  let r2 := uwrap w (2 * mr2 m) in
  let '(q2, r2) := if ad <=? r2 then (uwrap w (q2 + 1), uwrap w (r2 - ad)) else (q2, r2) in
  {| mp := p; mq1 := q1; mr1 := r1; mq2 := q2; mr2 := r2 |}.

(** Its condition to go on. *)
Definition magic_again (w ad : Z) (m : magic_state) : bool :=
  let delta := uwrap w (ad - mr2 m) in
  (mq1 m <? delta) || ((mq1 m =? delta) && (mr1 m =? 0)).

Fixpoint magic_loop (fuel : nat) (w ad anc : Z) (m : magic_state) : option magic_state :=
  match fuel with
  | O => None
  | S fuel =>
      let m := magic_step w ad anc m in
      if magic_again w ad m then magic_loop fuel w ad anc m else Some m
  end.

(** The search for a width of [w] bits: the outer [None] is a division by zero, the inner
    one the answer [false]. *)
Definition magic_divide_constants (w d : Z) : option (option (Z * Z)) :=
  let two := 2 ^ (w - 1) in
  let ad := uwrap w (ABS d) in
  if (d =? 0) || (d =? 1) then Some None
  else
    let t := uwrap w (two + Z.shiftr (uwrap w d) (w - 1)) in
    if ad =? 0 then None else
    let anc := uwrap w (t - 1 - t mod ad) in
    if anc =? 0 then None else
    let p := w - 1 in
    let q1 := two / anc in
    let r1 := uwrap w (two - q1 * anc) in
    let q2 := two / ad in
    let r2 := uwrap w (two - q2 * ad) in
    m ← magic_loop (Z.to_nat w) w ad anc {| mp := p; mq1 := q1; mr1 := r1; mq2 := q2; mr2 := r2 |};
    let M := swrap w (uwrap w (mq2 m + 1)) in
    let M := if d <? 0 then swrap w (- M) else M in
    let s := mp m - w in
    Some (Some (M, s)).

Definition magic_int_divide_constants (d : Z) : option (option (Z * Z)) :=
  magic_divide_constants 32 d.
Definition magic_long_divide_constants (d : Z) : option (option (Z * Z)) :=
  magic_divide_constants 64 d.

(* ------------------------------------------------------------------ *)
(** ** The transformation *)

(** The transformation asks for the type of a node; only a range of ints, or of longs, is
    of interest. *)
Definition isa_int (t : Type_) : option (Z * Z) :=
  match t with TInt lo hi _ => Some (lo, hi) | _ => None end.
Definition isa_long (t : Type_) : option (Z * Z) :=
  match t with TLong lo hi _ => Some (lo, hi) | _ => None end.

(** Whether the lower bound of a type passes a test. *)
Definition lo_test (t : option (Z * Z)) (test : Z -> bool) : bool :=
  match t with Some (lo, _) => test lo | None => false end.

(** The constant of a constant type. *)
Definition con_of (t : option (Z * Z)) : option Z :=
  match t with Some (lo, hi) => if is_con lo hi then Some lo else None | None => None end.

(** The dividend that is shifted, without a mask the shift makes superfluous, and whether
    the shift needs rounding. *)
Definition rounding_int (phase : PhaseGVN) (dividend : Node) (d : Z) : Node * bool :=
  if lo_test (isa_int (type phase dividend)) (fun lo => 0 <=? lo) then (dividend, false)
  else
    match dividend with
    | AndI in1 in2 =>
        match con_of (isa_int (type phase in2)) with
        | Some andconi =>
            let neg := s32 (- andconi) in
            if (andconi <? 0) && is_power_of_2 neg && (d <=? neg)
            then (if neg =? d then in1 else dividend, false)
            else (dividend, true)
        | None => (dividend, true)
        end
    | _ => (dividend, true)
    end.

(** The inner option is the null pointer of no transformation. *)
Definition transform_int_divide (phase : PhaseGVN) (dividend : Node) (divisor : Z)
    : option (option Node) :=
  let tr := transform phase in
  let d_pos := 0 <=? divisor in
  let d := if d_pos then divisor else s32 (- divisor) in
  let N := 32 in
  if d =? 1 then
    if negb d_pos then Some (Some (SubI (intcon 0) dividend)) else Some None
  else if is_power_of_2 d then
    let '(dividend, needs_rounding) := rounding_int phase dividend d in
    l ← log2_intptr (d - 1);
    let l := l + 1 in
    let dividend :=
      if (needs_rounding : bool) then
        let sign := tr (RShiftI dividend (intcon (N - 1))) in
        let round := tr (URShiftI sign (intcon (N - l))) in
        tr (AddI dividend round)
      else dividend in
    let q := RShiftI dividend (intcon l) in
    Some (Some (if negb d_pos then SubI (intcon 0) (tr q) else q))
  else
    r ← magic_int_divide_constants d;
    match r with
    | Some (magic_const, shift_const) =>
        let magic := longcon magic_const in
        let dividend_long := tr (ConvI2L dividend) in
        let mul_hi := tr (MulL dividend_long magic) in
        let mul_hi :=
          if magic_const <? 0 then
            let mul_hi := tr (RShiftL mul_hi (intcon N)) in
            let mul_hi := tr (ConvL2I mul_hi) in
            let mul_hi := tr (AddI dividend mul_hi) in
            if negb (shift_const =? 0) then tr (RShiftI mul_hi (intcon shift_const)) else mul_hi
          else
            let mul_hi := tr (RShiftL mul_hi (intcon (N + shift_const))) in
            tr (ConvL2I mul_hi) in
        let addend0 := mul_hi in
        let addend1 := tr (RShiftI dividend (intcon (N - 1))) in
        let '(addend0, addend1) :=
          if negb d_pos then (addend1, addend0) else (addend0, addend1) in
        Some (Some (SubI addend0 addend1))
    | None => Some None
    end.

Definition long_by_long_mulhi (phase : PhaseGVN) (dividend : Node) (magic_const : Z) : Node :=
  let tr := transform phase in
  if has_MulHiL phase then MulHiL dividend (longcon magic_const)
  else
    let N := 64 in
    let u0 := tr (AndL dividend (longcon 0xFFFFFFFF)) in
    let u1 := tr (RShiftL dividend (intcon (N / 2))) in
    let v0 := longcon (Z.land magic_const 0xFFFFFFFF) in
    let v1 := longcon (Z.shiftr magic_const (N / 2)) in
    let w0 := tr (MulL u0 v0) in
    let u1v0 := tr (MulL u1 v0) in
    let temp := tr (URShiftL w0 (intcon (N / 2))) in
    let t := tr (AddL u1v0 temp) in
    let w1 := AndL t (longcon 0xFFFFFFFF) in
    let w2 := RShiftL t (intcon (N / 2)) in
    let w2 := tr w2 in
    let w1 := tr w1 in
    let u0v1 := tr (MulL u0 v1) in
    let w1 := tr (AddL u0v1 w1) in
    let u1v1 := tr (MulL u1 v1) in
    let temp1 := tr (AddL u1v1 w2) in
    let temp2 := tr (RShiftL w1 (intcon (N / 2))) in
    AddL temp1 temp2.

Definition rounding_long (phase : PhaseGVN) (dividend : Node) (d : Z) : Node * bool :=
  if lo_test (isa_long (type phase dividend)) (fun lo => 0 <? lo) then (dividend, false)
  else
    match dividend with
    | AndL in1 in2 =>
        match con_of (isa_long (type phase in2)) with
        | Some andconl =>
            let neg := s64 (- andconl) in
            if (andconl <? 0) && is_power_of_2_long neg && (d <=? neg)
            then (if neg =? d then in1 else dividend, false)
            else (dividend, true)
        | None => (dividend, true)
        end
    | _ => (dividend, true)
    end.

Definition transform_long_divide (phase : PhaseGVN) (dividend : Node) (divisor : Z)
    : option (option Node) :=
  let tr := transform phase in
  let d_pos := 0 <=? divisor in
  let d := if d_pos then divisor else s64 (- divisor) in
  let N := 64 in
  if d =? 1 then
    if negb d_pos then Some (Some (SubL (longcon 0) dividend)) else Some None
  else if is_power_of_2_long d then
    let '(dividend, needs_rounding) := rounding_long phase dividend d in
    l ← log2_long (d - 1);
    let l := l + 1 in
    let dividend :=
      if (needs_rounding : bool) then
        let sign := tr (RShiftL dividend (intcon (N - 1))) in
        let round := tr (URShiftL sign (intcon (N - l))) in
        tr (AddL dividend round)
      else dividend in
    let q := RShiftL dividend (intcon l) in
    Some (Some (if negb d_pos then SubL (longcon 0) (tr q) else q))
  else
    r ← magic_long_divide_constants d;
    match r with
    | Some (magic_const, shift_const) =>
        let mul_hi := tr (long_by_long_mulhi phase dividend magic_const) in
        let mul_hi := if magic_const <? 0 then tr (AddL dividend mul_hi) else mul_hi in
        let mul_hi :=
          if negb (shift_const =? 0) then tr (RShiftL mul_hi (intcon shift_const)) else mul_hi in
        let addend0 := mul_hi in
        let addend1 := tr (RShiftL dividend (intcon (N - 1))) in
        let '(addend0, addend1) :=
          if negb d_pos then (addend1, addend0) else (addend0, addend1) in
        Some (Some (SubL addend0 addend1))
    | None => Some None
    end.

(* ------------------------------------------------------------------ *)
(** * What a graph computes *)

Definition on_ints (f : Z -> Z -> Z) (x y : option jval) : option jval :=
  match x, y with Some (VInt a), Some (VInt b) => Some (VInt (f a b)) | _, _ => None end.
Definition on_longs (f : Z -> Z -> Z) (x y : option jval) : option jval :=
  match x, y with Some (VLong a), Some (VLong b) => Some (VLong (f a b)) | _, _ => None end.
Definition on_long_int (f : Z -> Z -> Z) (x y : option jval) : option jval :=
  match x, y with Some (VLong a), Some (VInt b) => Some (VLong (f a b)) | _, _ => None end.

(** The value of a graph, [env] being the values of the other nodes. *)
Fixpoint eval (env : nat -> option jval) (n : Node) : option jval :=
  match n with
  | Parm k => env k
  | intcon c => Some (VInt c)
  | longcon c => Some (VLong c)
  | AddI a b => on_ints (jadd 32) (eval env a) (eval env b)
  | SubI a b => on_ints (jsub 32) (eval env a) (eval env b)
  | AndI a b => on_ints Z.land (eval env a) (eval env b)
  | RShiftI a b => on_ints (jshr 32) (eval env a) (eval env b)
  | URShiftI a b => on_ints (jushr 32) (eval env a) (eval env b)
  | AddL a b => on_longs (jadd 64) (eval env a) (eval env b)
  | SubL a b => on_longs (jsub 64) (eval env a) (eval env b)
  | AndL a b => on_longs Z.land (eval env a) (eval env b)
  | MulL a b => on_longs (jmul 64) (eval env a) (eval env b)
  | MulHiL a b => on_longs (fun x y => Z.shiftr (x * y) 64) (eval env a) (eval env b)
  | RShiftL a b => on_long_int (jshr 64) (eval env a) (eval env b)
  | URShiftL a b => on_long_int (jushr 64) (eval env a) (eval env b)
  | ConvI2L a => match eval env a with Some (VInt x) => Some (VLong x) | _ => None end
  | ConvL2I a => match eval env a with Some (VLong x) => Some (VInt (s32 x)) | _ => None end
  end.

(** What the code relies on: the phase replaces a node by one of the same value, the type
    it has for a node contains the node's value, and the bounds of a range are machine
    integers. *)
Class PhaseGVN_laws (phase : PhaseGVN) (env : nat -> option jval) := {
  transform_value n : eval env (transform phase n) = eval env n;
  type_value n v : eval env n = Some v -> gamma (type phase n) v;
  type_int_range n lo hi : isa_int (type phase n) = Some (lo, hi) -> in_s 32 lo;
  type_long_range n lo hi : isa_long (type phase n) = Some (lo, hi) -> in_s 64 lo
}.

(* ------------------------------------------------------------------ *)
(** * The magic number *)

(** The search as it is meant, on integers that are checked: it fails where an unsigned operation would overflow. *)
Definition fits (w x : Z) : option Z := guard_b ((0 <=? x) && (x <? 2 ^ w)) (Some x).

(** A quotient and a remainder by [n], doubled. *)
Definition doubled (w n q r : Z) : option (Z * Z) :=
  q ← fits w (2 * q); r ← fits w (2 * r);
  if n <=? r then q ← fits w (q + 1); r ← fits w (r - n); Some (q, r) else Some (q, r).

Definition checked_step (w ad anc : Z) (m : magic_state) : option magic_state :=
  '(q1, r1) ← doubled w anc (mq1 m) (mr1 m);
  '(q2, r2) ← doubled w ad (mq2 m) (mr2 m);
  Some {| mp := mp m + 1; mq1 := q1; mr1 := r1; mq2 := q2; mr2 := r2 |}.

Fixpoint checked_loop (fuel : nat) (w ad anc : Z) (m : magic_state) : option magic_state :=
  match fuel with
  | O => None
  | S fuel =>
      m ← checked_step w ad anc m;
      delta ← fits w (ad - mr2 m);
      if (mq1 m <? delta) || ((mq1 m =? delta) && (mr1 m =? 0)) then checked_loop fuel w ad anc m else Some m
  end.

(** For a positive divisor: the multiplier as an unsigned number and the shift. *)
Definition checked_search (w d : Z) : option (Z * Z) :=
  t ← fits w (2 ^ (w - 1) + Z.shiftr d (w - 1));
  anc ← fits w (t - 1 - t mod d);
  let two := 2 ^ (w - 1) in
  n1 ← fits w (two / anc * anc); r1 ← fits w (two - n1);
  n2 ← fits w (two / d * d); r2 ← fits w (two - n2);
  m ← checked_loop (Z.to_nat w) w d anc {| mp := w - 1; mq1 := two / anc; mr1 := r1; mq2 := two / d; mr2 := r2 |};
  M ← fits w (mq2 m + 1);
  Some (M, mp m - w).

Lemma fits_some w x : in_u w x -> fits w x = Some x.
Proof. intros Hx. unfold fits, guard_b. unfold in_u in Hx. destruct (Z.leb_spec 0 x), (Z.ltb_spec x (2 ^ w)); by try lia. Qed.

Section Magic.
Context (w d : Z) (Hw : 3 <= w) (Hd : 3 <= d < 2 ^ (w - 1)).

Local Abbreviation W := (2 ^ (w - 1)).

(** The greatest dividend with remainder [d - 1]. *)
Local Abbreviation nc := (W - 1 - W mod d).

Lemma nc_bounds : d - 1 <= nc <= W - 1 /\ W - d <= nc /\ exists c, nc + 1 = d * c.
Proof using Hw Hd.
  pose proof (Z.div_mod W d ltac:(lia)). pose proof (Z.mod_pos_bound W d ltac:(lia)).
  assert (1 <= W / d) by (apply Z.div_le_lower_bound; lia).
  split; [nia|]. split; [lia|]. exists (W / d). lia.
Qed.

(** The quotients and remainders the state stands for. *)
Definition magic_inv (m : magic_state) : Prop :=
  w - 1 <= mp m /\
  2 ^ mp m = mq1 m * nc + mr1 m /\ 0 <= mr1 m < nc /\ 0 <= mq1 m /\
  2 ^ mp m = mq2 m * d + mr2 m /\ 0 <= mr2 m < d /\ 0 <= mq2 m.

(** What lets the next doubling stay within the word. *)
Definition magic_room (m : magic_state) : Prop :=
  mq1 m < W /\ 2 ^ mp m <= (W - 1) * d.

Lemma double_u x : 0 <= x < W -> uwrap w (2 * x) = 2 * x.
Proof using Hw Hd.
  intros. apply uwrap_small; [lia|]. unfold in_u. rewrite (pow2_half w) by lia. lia.
Qed.

(** Doubling a quotient and its remainder. *)
Lemma double_step n q r P : 0 < n <= W - 1 -> P = q * n + r -> 0 <= r < n -> 0 <= q < W ->
  let '(q', r') := if n <=? uwrap w (2 * r) then (uwrap w (uwrap w (2 * q) + 1), uwrap w (uwrap w (2 * r) - n))
                   else (uwrap w (2 * q), uwrap w (2 * r)) in
  2 * P = q' * n + r' /\ 0 <= r' < n /\ 0 <= q'.
Proof using Hw Hd.
  intros Hn HP Hr Hq. rewrite !double_u by lia. pose proof (pow2_half w ltac:(lia)).
  destruct (Z.leb_spec n (2 * r)); [|lia].
  rewrite !uwrap_small by (lia || (unfold in_u; lia)). lia.
Qed.

Lemma magic_step_inv m : magic_inv m -> magic_room m ->
  magic_inv (magic_step w d nc m) /\ mp (magic_step w d nc m) = mp m + 1 /\
  2 ^ (mp m + 1) <= (2 * W - 2) * d.
Proof using Hw Hd.
  intros (Hp & E1 & R1 & Q1 & E2 & R2 & Q2) [L1 L2].
  pose proof nc_bounds as (Hnc & _ & _).
  assert (Hpow : 2 ^ (mp m + 1) = 2 * 2 ^ mp m) by (rewrite Z.pow_add_r by lia; lia).
  assert (mq2 m < W) by nia.
  pose proof (double_step nc (mq1 m) (mr1 m) (2 ^ mp m) ltac:(lia) E1 R1 ltac:(lia)) as D1.
  pose proof (double_step d (mq2 m) (mr2 m) (2 ^ mp m) ltac:(lia) E2 R2 ltac:(lia)) as D2.
  unfold magic_step. destruct (if nc <=? _ then _ else _) as [q1 r1].
  destruct (if d <=? _ then _ else _) as [q2 r2].
  split; [|split; [reflexivity|lia]]. unfold magic_inv. cbn [mp mq1 mr1 mq2 mr2].
  rewrite Hpow. split_and!; lia.
Qed.

(** The loop goes on exactly when the power is still too small. *)
Lemma magic_again_spec m : magic_inv m ->
  magic_again w d m = true <-> 2 ^ mp m <= nc * (d - mr2 m).
Proof using Hw Hd.
  intros (Hp & E1 & R1 & Q1 & E2 & R2 & Q2). unfold magic_again.
  pose proof (pow2_half w ltac:(lia)).
  rewrite (uwrap_small w) by (lia || (unfold in_u; lia)). rewrite E1.
  rewrite orb_true_iff, andb_true_iff, Z.ltb_lt, !Z.eqb_eq. split.
  - intros [Hlt|[-> ->]]; nia.
  - intros Hle. destruct (Z.ltb_spec (mq1 m) (d - mr2 m)); [by left|]. right.
    assert (mq1 m <= d - mr2 m) by nia. nia.
Qed.

Lemma magic_again_room m : magic_inv m -> magic_again w d m = true ->
  magic_room m /\ 2 ^ mp m < 2 ^ (2 * w - 2).
Proof using Hw Hd.
  intros Hinv Ha. apply (magic_again_spec m Hinv) in Ha as Hle. pose proof nc_bounds as (Hnc & _ & _).
  destruct Hinv as (Hp & E1 & R1 & Q1 & E2 & R2 & Q2). split; [split|].
  - rewrite E1 in Hle. nia.
  - nia.
  - replace (2 * w - 2) with ((w - 1) + (w - 1)) by lia. rewrite Z.pow_add_r by lia. nia.
Qed.

(** The state in which the loop ends. *)
Definition magic_done (m : magic_state) : Prop :=
  magic_inv m /\ w <= mp m /\ nc * (d - mr2 m) < 2 ^ mp m /\ 2 ^ mp m <= (2 * W - 2) * d /\
  mp m <= 2 * w - 2 /\
  (w < mp m -> 2 ^ w <= nc * (d - 2 ^ w mod d)).

Lemma magic_loop_spec fuel : forall m,
  magic_inv m -> magic_room m -> mp m < 2 * w - 2 <= mp m + Z.of_nat fuel ->
  (w <= mp m -> 2 ^ w <= nc * (d - 2 ^ w mod d)) ->
  exists m', magic_loop fuel w d nc m = Some m' /\ magic_done m'.
Proof using Hw Hd.
  induction fuel as [|fuel IH]; intros m Hinv Hroom Hf Hhist; [lia|].
  destruct (magic_step_inv m Hinv Hroom) as (Hinv' & Hp' & Hle). cbn [magic_loop].
  set (m1 := magic_step w d nc m) in *.
  assert (Hhist' : magic_again w d m1 = true -> w <= mp m1 -> 2 ^ w <= nc * (d - 2 ^ w mod d)).
  { intros Ha Hge. destruct (Z.eqb_spec (mp m1) w) as [Eq|]; [|apply Hhist; lia].
    apply (magic_again_spec m1 Hinv') in Ha.
    destruct Hinv' as (_ & _ & _ & _ & E2 & R2 & _). rewrite Eq in *.
    replace (2 ^ w mod d) with (mr2 m1); [done|]. apply (Z.mod_unique _ _ (mq2 m1)); lia. }
  destruct (magic_again w d m1) eqn:Ha.
  - destruct (magic_again_room m1 Hinv' Ha) as [Hroom' Hlt].
    apply Z.pow_lt_mono_r_iff in Hlt; [|lia|lia].
    apply IH; [done|done|lia|by apply Hhist'].
  - exists m1. split; [done|]. destruct Hinv as (Hp & _). split_and!; [done|lia| |rewrite Hp'; lia|lia|].
    + destruct (Z.ltb_spec (nc * (d - mr2 m1)) (2 ^ mp m1)) as [|Hge]; [done|].
      apply (magic_again_spec m1 Hinv') in Hge. congruence.
    + intros Hgt. apply Hhist. lia.
Qed.

Lemma magic_start :
  let m := {| mp := w - 1; mq1 := W / nc; mr1 := W - W / nc * nc; mq2 := W / d; mr2 := W - W / d * d |} in
  magic_inv m /\ magic_room m.
Proof using Hw Hd.
  pose proof nc_bounds as (Hnc & _ & _). cbv zeta. unfold magic_inv, magic_room. cbn [mp mq1 mr1 mq2 mr2].
  pose proof (Z.div_mod W nc ltac:(lia)). pose proof (Z.mod_pos_bound W nc ltac:(lia)).
  pose proof (Z.div_mod W d ltac:(lia)). pose proof (Z.mod_pos_bound W d ltac:(lia)).
  assert (0 <= W / nc) by (apply Z.div_pos; lia). assert (0 <= W / d) by (apply Z.div_pos; lia).
  assert (W / nc < W) by (apply Z.div_lt; lia). split_and!; nia.
Qed.

(** No operation overflows: the checked search does the same. *)
Lemma doubled_spec n q r : 0 < n <= W - 1 -> 0 <= r < n -> 0 <= q < W ->
  doubled w n q r = Some (if n <=? uwrap w (2 * r) then (uwrap w (uwrap w (2 * q) + 1), uwrap w (uwrap w (2 * r) - n))
                          else (uwrap w (2 * q), uwrap w (2 * r))).
Proof using Hw Hd.
  intros Hn Hr Hq. pose proof (pow2_half w ltac:(lia)). rewrite !double_u by lia. unfold doubled.
  rewrite !(fits_some w) by (unfold in_u; lia). cbn [mbind option_bind].
  destruct (Z.leb_spec n (2 * r)); [|done]. rewrite !(fits_some w), !(uwrap_small w) by (lia || (unfold in_u; lia)). done.
Qed.

Lemma checked_step_spec m : magic_inv m -> magic_room m -> checked_step w d nc m = Some (magic_step w d nc m).
Proof using Hw Hd.
  intros (Hp & E1 & R1 & Q1 & E2 & R2 & Q2) [L1 L2]. pose proof nc_bounds as (Hnc & _ & _). assert (mq2 m < W) by nia.
  unfold checked_step, magic_step. rewrite !doubled_spec by lia. cbn [mbind option_bind].
  destruct (if nc <=? _ then _ else _) as [q1 r1]. cbn [mbind option_bind]. by destruct (if d <=? _ then _ else _) as [q2 r2].
Qed.

Lemma checked_loop_spec fuel : forall m m', magic_inv m -> magic_room m ->
  magic_loop fuel w d nc m = Some m' -> checked_loop fuel w d nc m = Some m'.
Proof using Hw Hd.
  induction fuel as [|fuel IH]; intros m m' Hinv Hroom; [done|]. cbn [magic_loop checked_loop].
  rewrite (checked_step_spec m Hinv Hroom). cbn [mbind option_bind].
  destruct (magic_step_inv m Hinv Hroom) as (Hinv1 & _ & _). set (m1 := magic_step w d nc m) in *.
  pose proof (pow2_half w ltac:(lia)). pose proof Hinv1 as (_ & _ & _ & _ & _ & R2 & _).
  assert (Hu : in_u w (d - mr2 m1)) by (unfold in_u; lia).
  rewrite (fits_some w _ Hu). cbn [mbind option_bind]. replace ((mq1 m1 <? d - mr2 m1) || _) with (magic_again w d m1) by (unfold magic_again; by rewrite (uwrap_small w ltac:(lia) _ Hu)).
  destruct (magic_again w d m1) eqn:Ha; [|done]. destruct (magic_again_room m1 Hinv1 Ha) as [Hroom1 _]. by apply IH.
Qed.

(** The search on a divisor of interest. *)
Lemma magic_search_spec :
  let m := {| mp := w - 1; mq1 := W / nc; mr1 := W - W / nc * nc; mq2 := W / d; mr2 := W - W / d * d |} in
  exists m', magic_loop (Z.to_nat w) w d nc m = Some m' /\ checked_loop (Z.to_nat w) w d nc m = Some m' /\
    magic_done m' /\ 0 <= mq2 m' + 1 < 2 ^ w.
Proof using Hw Hd.
  cbv zeta. pose proof (pow2_half w ltac:(lia)). destruct magic_start as [Hinv Hroom].
  destruct (magic_loop_spec (Z.to_nat w) _ Hinv Hroom) as (m' & Hl & Hm); cbn [mp]; [lia|lia|].
  exists m'. split_and!; [done|by apply checked_loop_spec|done| |]; destruct Hm as (Hi & _ & _ & Hle & _);
    destruct Hi as (_ & _ & _ & _ & E2 & R2' & Q2); nia.
Qed.

(** The function, and its checked form. *)
Lemma magic_divide_constants_spec :
  exists m, magic_divide_constants w d = Some (Some (swrap w (mq2 m + 1), mp m - w)) /\
    checked_search w d = Some (mq2 m + 1, mp m - w) /\ magic_done m /\ 0 <= mq2 m + 1 < 2 ^ w.
Proof using Hw Hd.
  pose proof (pow2_half w ltac:(lia)). pose proof nc_bounds as (Hnc & _ & _).
  pose proof (Z.mod_pos_bound W d ltac:(lia)).
  assert (Hsh : Z.shiftr d (w - 1) = 0) by (rewrite Z.shiftr_div_pow2 by lia; apply Z.div_small; lia).
  destruct magic_start as [Hinv _]. pose proof Hinv as (_ & _ & R1 & _ & _ & R2 & _). cbn [mp mq1 mr1 mq2 mr2] in R1, R2.
  destruct magic_search_spec as (m & Hl & Hc & Hm & Hq). exists m. split_and!; [| |done|lia|lia].
  - assert (Ead : uwrap w (ABS d) = d) by (unfold ABS; zcases; apply uwrap_small; [lia|unfold in_u; lia]).
    unfold magic_divide_constants. rewrite Ead, (uwrap_small w ltac:(lia) d), Hsh, Z.add_0_r by (unfold in_u; lia).
    rewrite (uwrap_small w ltac:(lia) W) by (unfold in_u; lia).
    destruct (Z.eqb_spec d 0), (Z.eqb_spec d 1); try lia. cbn [orb].
    rewrite (uwrap_small w ltac:(lia) nc) by (unfold in_u; lia). destruct (Z.eqb_spec nc 0); [lia|].
    rewrite !(uwrap_small w ltac:(lia) (_ - _)) by (unfold in_u; lia). rewrite Hl. cbn [mbind option_bind].
    destruct (Z.ltb_spec d 0); [lia|]. by rewrite (uwrap_small w) by (lia || done).
  - assert (Hn : 0 <= W / nc * nc < 2 ^ w /\ 0 <= W / d * d < 2 ^ w).
    { pose proof (Z.div_pos W nc). pose proof (Z.div_pos W d). nia. }
    unfold checked_search. rewrite Hsh, Z.add_0_r. rewrite (fits_some w W) by (unfold in_u; lia). cbn [mbind option_bind].
    rewrite (fits_some w nc) by (unfold in_u; lia). cbn [mbind option_bind].
    rewrite (fits_some w (W / nc * nc)) by (unfold in_u; lia). cbn [mbind option_bind].
    rewrite (fits_some w (W - W / nc * nc)) by (unfold in_u; lia). cbn [mbind option_bind].
    rewrite (fits_some w (W / d * d)) by (unfold in_u; lia). cbn [mbind option_bind].
    rewrite (fits_some w (W - W / d * d)) by (unfold in_u; lia). cbn [mbind option_bind].
    rewrite Hc. cbn [mbind option_bind]. by rewrite (fits_some w) by done.
Qed.

(* ------------------------------------------------------------------ *)
(** ** Multiplying by it *)

(** The error of the multiplication stays below the distance to the next quotient. *)
Lemma magic_error m x : magic_done m -> 0 <= x <= W ->
  (d - mr2 m) * x <= 2 ^ mp m * (d - x mod d) /\
  (x < W -> (d - mr2 m) * x < 2 ^ mp m * (d - x mod d)).
Proof using Hw Hd.
  intros ((Hp & _ & _ & _ & E2 & R2 & _) & Hpw & Hdone & _ & _ & Hhist) Hx.
  pose proof nc_bounds as (Hnc & Hnc2 & c & Hc).
  pose proof (Z.mod_pos_bound x d ltac:(lia)) as Hr. pose proof (Z.mod_pos_bound W d ltac:(lia)) as HrW.
  set (delta := d - mr2 m) in *. assert (0 < 2 ^ mp m) by (apply pow2_pos; lia).
  destruct (Z.leb_spec x nc) as [Hle|Hgt].
  { assert (delta * x <= delta * nc) by (apply Z.mul_le_mono_nonneg_l; lia).
    assert (2 ^ mp m * 1 <= 2 ^ mp m * (d - x mod d)) by (apply Z.mul_le_mono_nonneg_l; lia).
    rewrite (Z.mul_comm nc delta) in Hdone. lia. }
  assert (Er : x mod d = x - nc - 1).
  { symmetry. apply (Z.mod_unique x d c); lia. }
  destruct (Z.leb_spec (x - nc) (d - 1)) as [Hk|Hk].
  { rewrite Er. assert (delta * x <= delta * (2 * nc)) by (apply Z.mul_le_mono_nonneg_l; lia).
    assert (2 ^ mp m * 2 <= 2 ^ mp m * (d - (x - nc - 1))) by (apply Z.mul_le_mono_nonneg_l; lia).
    rewrite (Z.mul_comm nc delta) in Hdone. lia. }
  assert (x = W) as -> by lia. split; [|lia]. assert (EW : W mod d = d - 1) by lia.
  assert (Ew : 2 ^ w mod d = d - 2).
  { rewrite (pow2_half w) by lia. symmetry. pose proof (Z.div_mod W d ltac:(lia)).
    apply (Z.mod_unique _ d (2 * (W / d) + 1)); lia. }
  assert (mp m = w) as Epw.
  { destruct (Z.eqb_spec (mp m) w); [done|]. specialize (Hhist ltac:(lia)). rewrite Ew in Hhist.
    rewrite (pow2_half w) in Hhist by lia. nia. }
  assert (Emr : mr2 m = d - 2).
  { rewrite <- Ew, <- Epw. apply (Z.mod_unique _ _ (mq2 m)); lia. }
  subst delta. rewrite Emr, EW, Epw, (pow2_half w) by lia. lia.
Qed.

Lemma div_bounds a b q : 0 < b -> b * q <= a < b * (q + 1) -> a / b = q.
Proof using Type. clear w d Hw Hd. intros. symmetry. apply (Z.div_unique a b q (a - b * q)); lia. Qed.

(** The high part of the product is the truncated quotient, one less for a negative
    dividend. *)
Lemma magic_product m x : magic_done m -> - W <= x < W ->
  Z.shiftr (x * (mq2 m + 1)) (mp m) = Z.quot x d - (if x <? 0 then 1 else 0).
Proof using Hw Hd.
  intros Hm Hx. pose proof Hm as ((Hp & _ & _ & _ & E2 & R2 & _) & _).
  assert (Hpos : 0 < 2 ^ mp m) by (apply pow2_pos; lia). rewrite Z.shiftr_div_pow2 by lia.
  assert (HM : (mq2 m + 1) * d = 2 ^ mp m + (d - mr2 m)) by lia.
  set (M := mq2 m + 1) in *. set (P := 2 ^ mp m) in *. set (delta := d - mr2 m) in *.
  destruct (Z.ltb_spec x 0) as [Hneg|Hnn].
  - pose proof (magic_error m (- x) Hm ltac:(lia)) as [He _]. fold P delta in He.
    replace (Z.quot x d) with (- ((- x) / d)).
    2: { rewrite <- Z.quot_div_nonneg by lia. rewrite Z.quot_opp_l by lia. lia. }
    pose proof (Z.div_mod (- x) d ltac:(lia)) as Hdm. pose proof (Z.mod_pos_bound (- x) d ltac:(lia)).
    set (q := (- x) / d) in *. set (r := (- x) mod d) in *.
    assert (HMx : d * (- x * M) = P * (d * q + r) + delta * - x) by (rewrite <- Hdm; nia).
    apply div_bounds; [done|]. split; [|].
    + assert (d * (- x * M) <= d * (P * (q + 1))) by nia. nia.
    + assert (d * (P * q) < d * (- x * M)) by nia. nia.
  - pose proof (magic_error m x Hm ltac:(lia)) as [_ He]. specialize (He ltac:(lia)). fold P delta in He.
    rewrite Z.sub_0_r, Z.quot_div_nonneg by lia.
    pose proof (Z.div_mod x d ltac:(lia)) as Hdm. pose proof (Z.mod_pos_bound x d ltac:(lia)).
    set (q := x / d) in *. set (r := x mod d) in *.
    assert (HMx : d * (x * M) = P * (d * q + r) + delta * x) by (rewrite <- Hdm; nia).
    apply div_bounds; [done|]. split.
    + assert (d * (P * q) <= d * (x * M)) by nia. nia.
    + assert (d * (x * M) < d * (P * (q + 1))) by nia. nia.
Qed.
End Magic.

(* ------------------------------------------------------------------ *)
(** * Shifts *)

Lemma count_id j b : 0 <= b < jwidth j -> Z.land b (jwidth j - 1) = b.
Proof.
  destruct (jwidth_log j) as (k & -> & ?). intros. rewrite land_ones_mod by lia.
  by apply Z.mod_small.
Qed.

Lemma jshr_eq j x b : 0 <= b < jwidth j -> jshr (jwidth j) x b = x / 2 ^ b.
Proof. intros. unfold jshr. rewrite count_id by done. apply Z.shiftr_div_pow2. lia. Qed.

(** The sign of a value, -1 or 0. *)
Lemma sign_value j x : in_s (jwidth j) x ->
  jshr (jwidth j) x (jwidth j - 1) = if x <? 0 then -1 else 0.
Proof.
  intros Hx. pose proof (jwidth_pos j). rewrite jshr_eq by lia. unfold in_s in Hx.
  destruct (Z.ltb_spec x 0); symmetry;
    [apply (Z.div_unique _ _ (-1) (x + 2 ^ (jwidth j - 1)))|apply (Z.div_unique _ _ 0 x)]; lia.
Qed.

(** The rounding term: the low bits of the sign. *)
Lemma round_value j l : 0 < l < jwidth j ->
  jushr (jwidth j) (-1) (jwidth j - l) = 2 ^ l - 1 /\ jushr (jwidth j) 0 (jwidth j - l) = 0.
Proof.
  intros Hl. pose proof (jwidth_pos j) as Hw. split; [|by apply ushr_zero].
  assert (Hp : 0 < 2 ^ l) by (apply pow2_pos; lia).
  assert (2 ^ l <= 2 ^ (jwidth j - 1)) by (apply Z.pow_le_mono_r; lia).
  assert (Hs : 2 ^ jwidth j = 2 ^ l * 2 ^ (jwidth j - l)) by (rewrite <- Z.pow_add_r by lia; f_equal; lia).
  assert (0 < 2 ^ (jwidth j - l)) by (apply pow2_pos; lia).
  unfold jushr. rewrite count_id by lia.
  rewrite uwrap_sign by (done || (unfold in_s; lia)). cbn [Z.leb Z.compare].
  rewrite Z.shiftr_div_pow2 by lia.
  assert ((-1 + 2 ^ jwidth j) / 2 ^ (jwidth j - l) = 2 ^ l - 1) as ->.
  { symmetry. apply (Z.div_unique _ _ _ (2 ^ (jwidth j - l) - 1)); nia. }
  apply swrap_small; [done|unfold in_s; lia].
Qed.

(** A shift of a value that needs no rounding. *)
Lemma shift_quot_nonneg x l : 0 <= l -> 0 <= x -> x / 2 ^ l = Z.quot x (2 ^ l).
Proof. intros. symmetry. apply Z.quot_div_nonneg; [done|by apply pow2_pos]. Qed.

Lemma shift_quot_exact k l : 0 <= l -> (2 ^ l * k) / 2 ^ l = Z.quot (2 ^ l * k) (2 ^ l).
Proof.
  intros. pose proof (pow2_pos l ltac:(done)). rewrite (Z.mul_comm (2 ^ l)).
  by rewrite Z.div_mul, Z.quot_mul by lia.
Qed.

(** The rounded shift is the truncated division. *)
Lemma rounded_shift j x l : in_s (jwidth j) x -> 0 < l < jwidth j ->
  jshr (jwidth j)
    (jadd (jwidth j) x
      (jushr (jwidth j) (jshr (jwidth j) x (jwidth j - 1)) (jwidth j - l))) l = Z.quot x (2 ^ l).
Proof.
  intros Hx Hl. rewrite sign_value, jshr_eq by (done || lia). unfold jadd.
  destruct (round_value j l Hl) as [E1 E0]. pose proof (jwidth_pos j) as Hw.
  assert (Hp : 0 < 2 ^ l) by (apply pow2_pos; lia).
  assert (2 ^ l <= 2 ^ (jwidth j - 1)) by (apply Z.pow_le_mono_r; lia). unfold in_s in Hx.
  destruct (Z.ltb_spec x 0).
  - rewrite E1, swrap_small by (done || (unfold in_s; lia)).
    replace (Z.quot x (2 ^ l)) with (- ((- x) / 2 ^ l)).
    2: { rewrite <- Z.quot_div_nonneg, Z.quot_opp_l by lia. lia. }
    pose proof (Z.div_mod (- x) (2 ^ l) ltac:(lia)). pose proof (Z.mod_pos_bound (- x) (2 ^ l) ltac:(lia)).
    symmetry. apply (Z.div_unique _ _ _ (2 ^ l - 1 - (- x) mod 2 ^ l)); lia.
  - rewrite E0, Z.add_0_r, swrap_small by (done || (unfold in_s; lia)). apply shift_quot_nonneg; lia.
Qed.

(** Masking with the negation of a power of two clears the low bits. *)
Lemma land_neg_pow a m : 0 <= m -> Z.land a (- 2 ^ m) = 2 ^ m * (a / 2 ^ m).
Proof.
  intros. replace (- 2 ^ m) with (Z.lnot (2 ^ m - 1)) by (unfold Z.lnot; lia).
  rewrite land_lnot_ones by done. pose proof (Z.div_mod a (2 ^ m) ltac:(pose proof (pow2_pos m); lia)). lia.
Qed.

(** A mask that makes rounding superfluous, and may itself be. *)
Lemma masked_shift a m l : 0 <= l <= m ->
  Z.land a (- 2 ^ m) / 2 ^ l = Z.quot (Z.land a (- 2 ^ m)) (2 ^ l) /\
  (m = l -> a / 2 ^ l = Z.quot (Z.land a (- 2 ^ m)) (2 ^ l)).
Proof.
  intros Hl. rewrite land_neg_pow by lia. pose proof (pow2_pos l ltac:(lia)). split.
  - replace (2 ^ m) with (2 ^ l * 2 ^ (m - l)) by (rewrite <- Z.pow_add_r by lia; f_equal; lia).
    rewrite <- Z.mul_assoc. apply shift_quot_exact. lia.
  - intros ->. rewrite <- shift_quot_exact by lia. by rewrite (Z.mul_comm (2 ^ l)), Z.div_mul by lia.
Qed.

(** Negating the quotient negates the divisor. *)
Lemma neg_quot j x divisor : divisor < 0 ->
  jsub (jwidth j) 0 (Z.quot x (- divisor)) = swrap (jwidth j) (Z.quot x divisor).
Proof.
  intros. unfold jsub. f_equal. destruct (Z.eqb_spec divisor 0); [lia|].
  rewrite Z.quot_opp_r by done. lia.
Qed.

(* ------------------------------------------------------------------ *)
(** * The transformations *)

Section Graphs.
Context (phase : PhaseGVN) (env : nat -> option jval) `{!PhaseGVN_laws phase env}.

Lemma isa_int_value n lo hi x :
  isa_int (type phase n) = Some (lo, hi) -> eval env n = Some (VInt x) -> lo <= x <= hi.
Proof using All.
  intros Ht Hx. pose proof (type_value n _ Hx) as Hg.
  destruct (type phase n); try discriminate. by injection Ht as -> ->.
Qed.

Lemma isa_long_value n lo hi x :
  isa_long (type phase n) = Some (lo, hi) -> eval env n = Some (VLong x) -> lo <= x <= hi.
Proof using All.
  intros Ht Hx. pose proof (type_value n _ Hx) as Hg.
  destruct (type phase n); try discriminate. by injection Ht as -> ->.
Qed.

Lemma con_of_value_int n c x :
  con_of (isa_int (type phase n)) = Some c -> eval env n = Some (VInt x) -> x = c /\ in_s 32 c.
Proof using All.
  intros Hc Hx. destruct (isa_int (type phase n)) as [[lo hi]|] eqn:Ht; [|done].
  cbn [con_of] in Hc. unfold is_con in Hc. destruct (Z.eqb_spec lo hi) as [->|]; [|done].
  injection Hc as <-. pose proof (isa_int_value n _ _ _ Ht Hx).
  split; [lia|by eapply type_int_range].
Qed.

Lemma con_of_value_long n c x :
  con_of (isa_long (type phase n)) = Some c -> eval env n = Some (VLong x) -> x = c /\ in_s 64 c.
Proof using All.
  intros Hc Hx. destruct (isa_long (type phase n)) as [[lo hi]|] eqn:Ht; [|done].
  cbn [con_of] in Hc. unfold is_con in Hc. destruct (Z.eqb_spec lo hi) as [->|]; [|done].
  injection Hc as <-. pose proof (isa_long_value n _ _ _ Ht Hx).
  split; [lia|by eapply type_long_range].
Qed.

(** The negation of a mask that passes the test. *)
Lemma mask_power j c l : in_s (jwidth j) c -> 0 <= l ->
  c < 0 -> is_power_of_2 (swrap (jwidth j) (- c)) = true -> 2 ^ l <= swrap (jwidth j) (- c) ->
  exists m, l <= m /\ c = - 2 ^ m /\ swrap (jwidth j) (- c) = 2 ^ m.
Proof using Type.
  intros Hc Hl Hneg Hp Hle. pose proof (jwidth_pos j) as Hw. unfold in_s in Hc.
  pose proof (pow2_pos l Hl).
  destruct (Z.eqb_spec c (- 2 ^ (jwidth j - 1))) as [->|Hne].
  { rewrite div_wraps in Hle. pose proof (pow2_pos (jwidth j - 1)). lia. }
  rewrite swrap_small in * by (done || (unfold in_s; lia)).
  assert (2 ^ (jwidth j - 1) <= 2 ^ 63) by by destruct j.
  destruct (is_power_of_2_pos (- c) ltac:(lia) Hp) as (m & Hm & E). exists m.
  split_and!; [|lia|lia]. apply (Z.pow_le_mono_r_iff 2); lia.
Qed.

(** What the shift gets: the dividend to be rounded, or one that can be shifted as is. *)
Lemma rounding_int_spec dividend x l : 0 <= l < 32 -> eval env dividend = Some (VInt x) ->
  let '(n, needs_rounding) := rounding_int phase dividend (2 ^ l) in
  exists y, eval env n = Some (VInt y) /\
    if (needs_rounding : bool) then y = x else y / 2 ^ l = Z.quot x (2 ^ l).
Proof using All.
  intros Hl Hx. unfold rounding_int.
  destruct (lo_test _ _) eqn:Elo.
  { exists x. split; [done|]. apply shift_quot_nonneg; [lia|].
    destruct (isa_int (type phase dividend)) as [[lo hi]|] eqn:Ht; [|done].
    cbn [lo_test] in Elo. pose proof (isa_int_value _ _ _ _ Ht Hx). lia. }
  destruct dividend as [| | | | |in1 in2| | | | | | | | | | |]; try by exists x.
  destruct (con_of _) as [c|] eqn:Ec; [|by exists x]. cbv zeta.
  destruct ((c <? 0) && is_power_of_2 (s32 (- c)) && (2 ^ l <=? s32 (- c))) eqn:E; [|by exists x].
  apply andb_prop in E as [[? ?]%andb_prop ?]. zreflect. cbn [eval] in Hx.
  destruct (eval env in1) as [[a| | |]|] eqn:E1; try discriminate.
  destruct (eval env in2) as [[b| | |]|] eqn:E2; try discriminate. injection Hx as <-.
  destruct (con_of_value_int in2 c b Ec E2) as [-> Hc].
  destruct (mask_power JInt c l) as (m & Hm & -> & Em); [done|lia|lia|done|done|].
  cbn [jwidth] in Em. rewrite Em. destruct (masked_shift a m l) as [M1 M2]; [lia|].
  destruct (Z.eqb_spec (2 ^ m) (2 ^ l)) as [Eq|].
  - exists a. split; [done|]. apply M2. apply (Z.pow_inj_r 2); lia.
  - exists (Z.land a (- 2 ^ m)). split; [|done]. cbn [eval]. by rewrite E1, E2.
Qed.

Lemma rounding_long_spec dividend x l : 0 <= l < 64 -> eval env dividend = Some (VLong x) ->
  let '(n, needs_rounding) := rounding_long phase dividend (2 ^ l) in
  exists y, eval env n = Some (VLong y) /\
    if (needs_rounding : bool) then y = x else y / 2 ^ l = Z.quot x (2 ^ l).
Proof using All.
  intros Hl Hx. unfold rounding_long.
  destruct (lo_test _ _) eqn:Elo.
  { exists x. split; [done|]. apply shift_quot_nonneg; [lia|].
    destruct (isa_long (type phase dividend)) as [[lo hi]|] eqn:Ht; [|done].
    cbn [lo_test] in Elo. pose proof (isa_long_value _ _ _ _ Ht Hx). lia. }
  destruct dividend as [| | | | | | | | | |in1 in2| | | | | |]; try by exists x.
  destruct (con_of _) as [c|] eqn:Ec; [|by exists x]. cbv zeta.
  destruct ((c <? 0) && is_power_of_2_long (s64 (- c)) && (2 ^ l <=? s64 (- c))) eqn:E; [|by exists x].
  apply andb_prop in E as [[? ?]%andb_prop ?]. zreflect. cbn [eval] in Hx.
  destruct (eval env in1) as [[|a| |]|] eqn:E1; try discriminate.
  destruct (eval env in2) as [[|b| |]|] eqn:E2; try discriminate. injection Hx as <-.
  destruct (con_of_value_long in2 c b Ec E2) as [-> Hc].
  destruct (mask_power JLong c l) as (m & Hm & -> & Em); [done|lia|lia|done|done|].
  cbn [jwidth] in Em. rewrite Em. destruct (masked_shift a m l) as [M1 M2]; [lia|].
  destruct (Z.eqb_spec (2 ^ m) (2 ^ l)) as [Eq|].
  - exists a. split; [done|]. apply M2. apply (Z.pow_inj_r 2); lia.
  - exists (Z.land a (- 2 ^ m)). split; [|done]. cbn [eval]. by rewrite E1, E2.
Qed.

(** ** The high half of a product *)

(** The halves of a value: the low one unsigned, the high one signed. *)
Lemma halves u : in_s 64 u ->
  Z.land u 0xFFFFFFFF = u mod 2 ^ 32 /\ jshr 64 u 32 = u / 2 ^ 32 /\
  0 <= u mod 2 ^ 32 < 2 ^ 32 /\ - 2 ^ 31 <= u / 2 ^ 32 < 2 ^ 31 /\
  u = (u / 2 ^ 32) * 2 ^ 32 + u mod 2 ^ 32.
Proof using Type.
  clear phase env PhaseGVN_laws0. intros Hu. unfold in_s in Hu.
  change (2 ^ (64 - 1)) with (2 ^ 31 * 2 ^ 32) in Hu.
  pose proof (Z.mod_pos_bound u (2 ^ 32) ltac:(lia)). pose proof (Z.div_mod u (2 ^ 32) ltac:(lia)).
  split_and!; try lia.
  - apply (land_ones_mod u 32). lia.
  - apply (jshr_eq JLong). cbn [jwidth]. lia.
Qed.

(** A product of a signed and an unsigned half, and a carry, fit in a long. *)
Lemma half_product_range a b c :
  - 2 ^ 31 <= a < 2 ^ 31 -> 0 <= b < 2 ^ 32 -> 0 <= c < 2 ^ 32 ->
  in_s 64 (a * b) /\ in_s 64 (a * b + c).
Proof using Type.
  clear phase env PhaseGVN_laws0. intros Ha Hb Hc. unfold in_s.
  change (2 ^ (64 - 1)) with (2 ^ 31 * 2 ^ 32).
  assert (- 2 ^ 31 * (2 ^ 32 - 1) <= a * b <= (2 ^ 31 - 1) * (2 ^ 32 - 1)) by nia. lia.
Qed.

(** Adding up the partial products. *)
Lemma mulhi_arith u0 u1 v0 v1 a0 a1 t0 t1 wl wh :
  u0 * v0 = 2 ^ 32 * a1 + a0 -> u1 * v0 + a1 = t1 * 2 ^ 32 + t0 -> v1 * u0 + t0 = wh * 2 ^ 32 + wl ->
  (u1 * 2 ^ 32 + u0) * (v1 * 2 ^ 32 + v0) = (u1 * v1 + t1 + wh) * 2 ^ 64 + (wl * 2 ^ 32 + a0).
Proof using Type. clear phase env PhaseGVN_laws0. intros. lia. Qed.

Lemma mulhi_graph u v : in_s 64 u -> in_s 64 v ->
  let u0 := u mod 2 ^ 32 in let u1 := u / 2 ^ 32 in
  let v0 := v mod 2 ^ 32 in let v1 := v / 2 ^ 32 in
  let t := jadd 64 (jmul 64 u1 v0) (jushr 64 (jmul 64 u0 v0) 32) in
  let w1 := jadd 64 (jmul 64 u0 v1) (Z.land t 0xFFFFFFFF) in
  jadd 64 (jadd 64 (jmul 64 u1 v1) (jshr 64 t 32)) (jshr 64 w1 32) = Z.shiftr (u * v) 64.
Proof using Type.
  clear phase env PhaseGVN_laws0. intros Hu Hv.
  destruct (halves u Hu) as (_ & _ & Hu0 & Hu1 & Eu). destruct (halves v Hv) as (_ & _ & Hv0 & Hv1 & Ev).
  set (u0 := u mod 2 ^ 32) in *. set (u1 := u / 2 ^ 32) in *.
  set (v0 := v mod 2 ^ 32) in *. set (v1 := v / 2 ^ 32) in *. cbv zeta.
  assert (Hw0 : 0 <= u0 * v0 < 2 ^ 64) by (change (2 ^ 64) with (2 ^ 32 * 2 ^ 32); nia).
  assert (Ecarry : jushr 64 (jmul 64 u0 v0) 32 = u0 * v0 / 2 ^ 32).
  { unfold jushr, jmul. rewrite uwrap_swrap, (uwrap_small 64) by (lia || done).
    change (Z.land 32 (64 - 1)) with 32. rewrite Z.shiftr_div_pow2 by lia. apply swrap_small; [lia|].
    pose proof (Z.div_pos (u0 * v0) (2 ^ 32)).
    assert (u0 * v0 / 2 ^ 32 < 2 ^ 32) by (apply Z.div_lt_upper_bound; lia).
    unfold in_s. change (2 ^ (64 - 1)) with (2 ^ 63). lia. }
  pose proof (Z.div_mod (u0 * v0) (2 ^ 32) ltac:(lia)) as Ea.
  pose proof (Z.mod_pos_bound (u0 * v0) (2 ^ 32) ltac:(lia)).
  set (a1 := u0 * v0 / 2 ^ 32) in *. set (a0 := (u0 * v0) mod 2 ^ 32) in *.
  assert (0 <= a1 < 2 ^ 32) by lia.
  destruct (half_product_range u1 v0 a1) as [R1 R2]; [lia..|].
  assert (Et : jadd 64 (jmul 64 u1 v0) (jushr 64 (jmul 64 u0 v0) 32) = u1 * v0 + a1).
  { rewrite Ecarry. unfold jadd, jmul. rewrite (swrap_small 64 ltac:(lia) (u1 * v0)) by done.
    by apply swrap_small. }
  rewrite Et. set (t := u1 * v0 + a1) in *.
  destruct (halves t R2) as (Etl & Eth & Ht0 & Ht1 & Ett). rewrite Etl, Eth.
  destruct (half_product_range v1 u0 (t mod 2 ^ 32)) as [R3 R4]; [lia..|].
  assert (Ew1 : jadd 64 (jmul 64 u0 v1) (t mod 2 ^ 32) = v1 * u0 + t mod 2 ^ 32).
  { unfold jadd, jmul. rewrite (Z.mul_comm u0), (swrap_small 64 ltac:(lia) (v1 * u0)) by done.
    by apply swrap_small. }
  rewrite Ew1. destruct (halves _ R4) as (_ & -> & Hw10 & Hw11 & Eww).
  set (w1 := v1 * u0 + t mod 2 ^ 32) in *. unfold jadd, jmul.
  rewrite !swrap_add_l by lia.
  assert (Euv : u * v = (u1 * v1 + t / 2 ^ 32 + w1 / 2 ^ 32) * 2 ^ 64 + ((w1 mod 2 ^ 32) * 2 ^ 32 + a0)).
  { rewrite Eu, Ev at 1. apply mulhi_arith with (a1 := a1) (t0 := t mod 2 ^ 32); lia. }
  rewrite Euv, shiftr_mul_add by (change (2 ^ 64) with (2 ^ 32 * 2 ^ 32); lia).
  rewrite <- Z.add_assoc, swrap_add_l, Z.add_assoc by lia. apply swrap_small; [lia|].
  unfold in_s. change (2 ^ (64 - 1)) with (2 ^ 63).
  pose proof (mul_endpoints (- 2 ^ 31) (2 ^ 31) (- 2 ^ 31) (2 ^ 31) u1 v1 ltac:(lia) ltac:(lia)).
  generalize dependent (u1 * v1). intros. clear Eu Ev Ea Ett Eww Euv. lia.
Qed.

Lemma long_by_long_mulhi_spec dividend x c :
  eval env dividend = Some (VLong x) -> in_s 64 x -> in_s 64 c ->
  eval env (long_by_long_mulhi phase dividend c) = Some (VLong (Z.shiftr (x * c) 64)).
Proof using All.
  intros Hx Rx Rc. unfold long_by_long_mulhi. destruct (has_MulHiL phase).
  { cbn [eval]. by rewrite Hx. }
  cbn [eval]. repeat (rewrite transform_value; cbn [eval]). rewrite Hx. cbn [on_longs on_long_int].
  destruct (halves x Rx) as (E0 & E1 & _). destruct (halves c Rc) as (C0 & _ & _).
  change (64 / 2) with 32. rewrite E0, E1, C0, (Z.shiftr_div_pow2 c) by lia.
  do 2 f_equal. by apply mulhi_graph.
Qed.

(* ------------------------------------------------------------------ *)
(** ** The quotient *)

(** The last step: the sign of the dividend is subtracted, in the order that fits the
    sign of the divisor. *)
Lemma finish_quot j x d divisor :
  in_s (jwidth j) x -> 0 < d < 2 ^ (jwidth j - 1) -> 1 < d ->
  (divisor = d -> jsub (jwidth j) (Z.quot x d - (if x <? 0 then 1 else 0)) (if x <? 0 then -1 else 0)
                  = swrap (jwidth j) (Z.quot x divisor)) /\
  (divisor = - d -> jsub (jwidth j) (if x <? 0 then -1 else 0) (Z.quot x d - (if x <? 0 then 1 else 0))
                  = swrap (jwidth j) (Z.quot x divisor)).
Proof using Type.
  clear phase env PhaseGVN_laws0. intros Hx Hd Hd1. split; intros ->; unfold jsub; f_equal.
  - destruct (x <? 0); lia.
  - rewrite Z.quot_opp_r by lia. destruct (x <? 0); lia.
Qed.

(** The high half of the product with a magic number of [jwidth j] unsigned bits. *)
Lemma mulhi_adjust j x M : in_s (jwidth j) x -> 0 <= M < 2 ^ jwidth j ->
  let mc := swrap (jwidth j) M in
  in_s (jwidth j) mc /\ in_s (jwidth j) (x * mc / 2 ^ jwidth j) /\
  in_s (jwidth j) (x * M / 2 ^ jwidth j) /\
  (mc < 0 -> jadd (jwidth j) x (x * mc / 2 ^ jwidth j) = x * M / 2 ^ jwidth j) /\
  (0 <= mc -> mc = M).
Proof using Type.
  clear phase env PhaseGVN_laws0. intros Hx HM. cbv zeta. pose proof (jwidth_pos j) as Hw.
  pose proof (pow2_half _ Hw) as Hh. pose proof (swrap_range _ Hw M) as Rmc.
  assert (Hp : 0 < 2 ^ (jwidth j - 1)) by (apply pow2_pos; lia).
  assert (Hin : forall y, - 2 ^ jwidth j < y < 2 ^ jwidth j -> in_s (jwidth j) (x * y / 2 ^ jwidth j)).
  { intros y Hy. unfold in_s in *. set (H := 2 ^ (jwidth j - 1)) in *. rewrite Hh in *.
    split; [apply Z.div_le_lower_bound; nia|apply Z.div_lt_upper_bound; nia]. }
  assert (Hmc : swrap (jwidth j) M = if M <? 2 ^ (jwidth j - 1) then M else M - 2 ^ jwidth j).
  { destruct (swrap_cases (jwidth j) M) as [[? E]|[[? E]|[? E]]]; try lia; rewrite E; zcases. }
  split_and!; [done|apply Hin; unfold in_s in Rmc; lia|apply Hin; lia| |].
  - intros Hneg. rewrite Hmc in *. destruct (Z.ltb_spec M (2 ^ (jwidth j - 1))); [lia|].
    unfold jadd. replace (x * (M - 2 ^ jwidth j)) with (x * M + (- x) * 2 ^ jwidth j) by lia.
    rewrite Z.div_add by lia. replace (x + (x * M / 2 ^ jwidth j + - x)) with (x * M / 2 ^ jwidth j) by lia.
    apply swrap_small; [done|]. apply Hin. lia.
  - intros Hnn. rewrite Hmc in *. destruct (Z.ltb_spec M (2 ^ (jwidth j - 1))); [done|lia].
Qed.

(** Shifting twice. *)
Lemma shift_twice j y s : 0 <= s < jwidth j ->
  jshr (jwidth j) (y / 2 ^ jwidth j) s = y / 2 ^ (jwidth j + s).
Proof using Type.
  clear phase env PhaseGVN_laws0. intros Hs. pose proof (jwidth_pos j). rewrite jshr_eq by done.
  rewrite Z.div_div by (try lia; apply pow2_pos; lia). by rewrite <- Z.pow_add_r by lia.
Qed.

(** The quotient of a dividend and the bounds it obeys. *)
Lemma quot_in_range j x d : in_s (jwidth j) x -> 1 < d -> in_s (jwidth j) (Z.quot x d - (if x <? 0 then 1 else 0)).
Proof using Type.
  clear phase env PhaseGVN_laws0. unfold in_s. intros Hx Hd. pose proof (quot_abs x d ltac:(lia)) as [H1 H2].
  destruct (Z.ltb_spec x 0); [|lia].
  assert (2 * Z.abs (Z.quot x d) <= Z.abs x) by (apply H2; lia).
  assert (Z.quot x d <= 0) by (pose proof (Z.quot_opp_l x d ltac:(lia)); pose proof (Z.quot_pos (- x) d ltac:(lia) ltac:(lia)); lia).
  lia.
Qed.

Ltac trv := repeat (rewrite transform_value; cbn [eval]).

(** The two shapes of the multiplication for an int divisor. *)
Lemma mul_hi_int dividend x M p : eval env dividend = Some (VInt x) -> in_s 32 x ->
  0 <= M < 2 ^ 32 -> 32 <= p <= 62 -> in_s 32 (x * M / 2 ^ p) ->
  let tr := transform phase in
  let mul_hi := tr (MulL (tr (ConvI2L dividend)) (longcon (s32 M))) in
  eval env
    (if s32 M <? 0 then
       let mul_hi := tr (AddI dividend (tr (ConvL2I (tr (RShiftL mul_hi (intcon 32)))))) in
       if negb (p - 32 =? 0) then tr (RShiftI mul_hi (intcon (p - 32))) else mul_hi
     else tr (ConvL2I (tr (RShiftL mul_hi (intcon (32 + (p - 32))))))) = Some (VInt (x * M / 2 ^ p)).
Proof using All.
  intros Hx Rx HM Hp Hr. cbv zeta.
  destruct (mulhi_adjust JInt x M Rx HM) as (Rmc & Rhi & _ & Hneg & Hpos). cbn [jwidth] in *.
  assert (Hmul : jmul 64 x (s32 M) = x * s32 M).
  { apply swrap_small; [lia|]. unfold in_s in *. change (2 ^ (32 - 1)) with (2 ^ 31) in *.
    change (2 ^ (64 - 1)) with (2 ^ 63).
    pose proof (mul_endpoints (- 2 ^ 31) (2 ^ 31) (- 2 ^ 31) (2 ^ 31) x (s32 M) ltac:(lia) ltac:(lia)). lia. }
  destruct (Z.ltb_spec (s32 M) 0) as [Hn|Hnn].
  - assert (E : eval env (transform phase (AddI dividend (transform phase (ConvL2I (transform phase (RShiftL
                  (transform phase (MulL (transform phase (ConvI2L dividend)) (longcon (s32 M)))) (intcon 32)))))))
                = Some (VInt (x * M / 2 ^ 32))).
    { trv. rewrite Hx. cbn [on_longs on_long_int]. rewrite Hmul, (jshr_eq JLong) by (cbn [jwidth]; lia).
      rewrite (swrap_small 32) by (done || lia). cbn [on_ints]. by rewrite Hneg. }
    destruct (Z.eqb_spec (p - 32) 0) as [E0|]; cbn [negb].
    + rewrite E. do 3 f_equal. f_equal. lia.
    + rewrite transform_value. cbn [eval]. rewrite E. cbn [on_ints].
      rewrite (shift_twice JInt) by (cbn [jwidth]; lia). cbn [jwidth]. by rewrite Zplus_minus.
  - trv. rewrite Hx. cbn [on_longs on_long_int]. rewrite Hmul, Zplus_minus, (Hpos Hnn).
    rewrite (jshr_eq JLong) by (cbn [jwidth]; lia). do 2 f_equal. by apply swrap_small.
Qed.

(** And for a long one. *)
Lemma mul_hi_long dividend x M p : eval env dividend = Some (VLong x) -> in_s 64 x ->
  0 <= M < 2 ^ 64 -> 64 <= p <= 126 ->
  let tr := transform phase in
  let mul_hi := tr (long_by_long_mulhi phase dividend (s64 M)) in
  let mul_hi := if s64 M <? 0 then tr (AddL dividend mul_hi) else mul_hi in
  eval env (if negb (p - 64 =? 0) then tr (RShiftL mul_hi (intcon (p - 64))) else mul_hi)
    = Some (VLong (x * M / 2 ^ p)).
Proof using All.
  intros Hx Rx HM Hp. cbv zeta.
  destruct (mulhi_adjust JLong x M Rx HM) as (Rmc & Rhi & _ & Hneg & Hpos). cbn [jwidth] in *.
  assert (E : eval env (if s64 M <? 0 then transform phase (AddL dividend (transform phase (long_by_long_mulhi phase dividend (s64 M))))
                        else transform phase (long_by_long_mulhi phase dividend (s64 M)))
              = Some (VLong (x * M / 2 ^ 64))).
  { pose proof (long_by_long_mulhi_spec dividend x (s64 M) Hx Rx Rmc) as Eh.
    rewrite Z.shiftr_div_pow2 in Eh by lia.
    destruct (Z.ltb_spec (s64 M) 0) as [Hn|Hnn]; rewrite !transform_value; cbn [eval].
    - rewrite transform_value, Eh, Hx. cbn [on_longs]. by rewrite Hneg.
    - rewrite Eh. by rewrite Hpos. }
  destruct (Z.eqb_spec (p - 64) 0) as [E0|]; cbn [negb].
  - rewrite E. do 3 f_equal. f_equal. lia.
  - rewrite transform_value. cbn [eval]. rewrite E. cbn [on_long_int].
    rewrite (shift_twice JLong) by (cbn [jwidth]; lia). cbn [jwidth]. by rewrite Zplus_minus.
Qed.

(** The divisor without its sign. *)
Lemma divisor_abs j divisor : in_s (jwidth j) divisor -> divisor <> 0 -> divisor <> - 2 ^ (jwidth j - 1) ->
  let d := if 0 <=? divisor then divisor else swrap (jwidth j) (- divisor) in
  d = Z.abs divisor /\ 0 < d < 2 ^ (jwidth j - 1).
Proof using Type.
  clear phase env PhaseGVN_laws0. unfold in_s. intros. pose proof (jwidth_pos j). cbv zeta.
  destruct (Z.leb_spec 0 divisor); [lia|]. rewrite swrap_small by (done || (unfold in_s; lia)). lia.
Qed.

(** A divisor that is left for the multiplication. *)
Lemma magic_divisor d : d <> 1 -> 0 < d < 2 ^ 63 -> is_power_of_2 d = false -> 3 <= d.
Proof using Type.
  clear phase env PhaseGVN_laws0. intros. destruct (Z.eqb_spec d 2) as [->|]; [|lia].
  by pose proof (is_power_of_2_pow 1 ltac:(lia)).
Qed.

(** The number of places of a power of two. *)
Lemma log2_places k : 1 <= k < 63 -> log2_loop 65 (-1) 1 (u64 (2 ^ k - 1)) = Some (k - 1).
Proof using Type.
  clear phase env PhaseGVN_laws0. intros Hk.
  assert (2 ^ 1 <= 2 ^ k) by (apply Z.pow_le_mono_r; lia). assert (2 ^ k < 2 ^ 63) by (apply Z.pow_lt_mono_r; lia).
  rewrite uwrap_small by (lia || (unfold in_u; change (2 ^ 64) with (2 * 2 ^ 63); lia)).
  rewrite log2_long_pos by (change (2 ^ 64) with (2 * 2 ^ 63); lia). f_equal.
  assert (2 ^ k = 2 * 2 ^ (k - 1)) by (rewrite <- Z.pow_succ_r by lia; f_equal; lia).
  assert (0 < 2 ^ (k - 1)) by (apply pow2_pos; lia).
  apply Z.log2_unique; [lia|]. replace (Z.succ (k - 1)) with k by lia. lia.
Qed.

(** The outcome of a transformation: a graph of the value of the division, or none for
    the divisor 1. *)
Definition divides (val : Z -> jval) (w x divisor : Z) (o : option (option Node)) : Prop :=
  match o with
  | Some (Some q) => eval env q = Some (val (swrap w (Z.quot x divisor)))
  | Some None => divisor = 1
  | None => False
  end.

Lemma transform_int_divide_spec dividend x divisor :
  eval env dividend = Some (VInt x) -> in_s 32 x ->
  in_s 32 divisor -> divisor <> 0 -> divisor <> min_jint ->
  divides VInt 32 x divisor (transform_int_divide phase dividend divisor).
Proof using All.
  intros Hx Rx Rd Hnz Hmin.
  destruct (divisor_abs JInt divisor Rd Hnz Hmin) as [Ed Hd]. cbn [jwidth] in Ed, Hd.
  unfold transform_int_divide. set (d := if 0 <=? divisor then divisor else s32 (- divisor)) in *.
  clearbody d. change (2 ^ (32 - 1)) with (2 ^ 31) in Hd.
  destruct (Z.eqb_spec d 1) as [E1|Hd1].
  { destruct (Z.leb_spec 0 divisor); cbn [negb divides]; [lia|].
    assert (divisor = -1) as -> by lia. cbn [eval]. rewrite Hx. cbn [on_ints].
    unfold jsub. by rewrite quot_minus_one. }
  destruct (is_power_of_2 d) eqn:Ep.
  - destruct (is_power_of_2_pos d ltac:(lia) Ep) as (l & Hl & El).
    assert (Hl0 : 1 <= l < 32).
    { split; [destruct (Z.eqb_spec l 0) as [->|]; [change (2 ^ 0) with 1 in El|]; lia|].
      assert (2 ^ l < 2 ^ 32) by lia. apply (Z.pow_lt_mono_r_iff 2); lia. }
    rewrite El. pose proof (rounding_int_spec dividend x l ltac:(lia) Hx) as Hround.
    destruct (rounding_int _ _ _) as [n nr]. destruct Hround as (y & Ey & Hy).
    unfold log2_intptr. rewrite log2_places by lia. cbn [mbind option_bind]. rewrite Z.sub_add.
    assert (Eq : eval env (RShiftI
        (if nr then transform phase (AddI n (transform phase (URShiftI (transform phase (RShiftI n (intcon (32 - 1)))) (intcon (32 - l)))))
         else n) (intcon l)) = Some (VInt (Z.quot x (2 ^ l)))).
    { cbn [eval]. destruct nr.
      - subst y. trv. rewrite Ey. cbn [on_ints]. do 2 f_equal. apply (rounded_shift JInt); [done|cbn [jwidth]; lia].
      - rewrite Ey. cbn [on_ints]. rewrite (jshr_eq JInt) by (cbn [jwidth]; lia). by rewrite Hy. }
    destruct (Z.leb_spec 0 divisor); cbn [negb divides].
    + rewrite Eq. replace divisor with (2 ^ l) by lia. do 2 f_equal. symmetry.
      apply swrap_small; [lia|]. apply (quot_in_s 32); [lia|done|lia|lia].
    + cbn [eval]. rewrite transform_value, Eq. cbn [on_ints]. do 2 f_equal.
      rewrite <- El, Ed, Z.abs_neq by lia. apply (neg_quot JInt). lia.
  - pose proof (magic_divisor d Hd1 ltac:(lia) Ep) as Hd3. unfold magic_int_divide_constants.
    destruct (magic_divide_constants_spec 32 d ltac:(lia) ltac:(change (2 ^ (32 - 1)) with (2 ^ 31); lia))
      as (m & -> & _ & Hm & HM). cbn [mbind option_bind].
    pose proof (magic_product 32 d ltac:(lia) ltac:(change (2 ^ (32 - 1)) with (2 ^ 31); lia) m x Hm Rx) as Hprod.
    pose proof Hm as ((Hp & _) & Hp32 & _ & _ & Hp62 & _). rewrite Z.shiftr_div_pow2 in Hprod by lia.
    pose proof (quot_in_range JInt x d Rx ltac:(lia)) as Hqr. cbn [jwidth] in Hqr.
    pose proof (mul_hi_int dividend x (mq2 m + 1) (mp m) Hx Rx HM ltac:(lia) ltac:(by rewrite Hprod)) as Hhi.
    cbv zeta in Hhi |- *. rewrite Hprod in Hhi.
    assert (Hsign : eval env (transform phase (RShiftI dividend (intcon (32 - 1)))) = Some (VInt (if x <? 0 then -1 else 0))).
    { trv. rewrite Hx. cbn [on_ints]. by rewrite (sign_value JInt) by done. }
    destruct (finish_quot JInt x d divisor Rx ltac:(cbn [jwidth]; change (2 ^ (32 - 1)) with (2 ^ 31); lia) ltac:(lia)) as [F1 F2].
    destruct (Z.leb_spec 0 divisor); cbn [negb divides]; cbn [eval]; rewrite Hhi, Hsign; cbn [on_ints];
      do 2 f_equal; [apply F1|apply F2]; lia.
Qed.

Lemma transform_long_divide_spec dividend x divisor :
  eval env dividend = Some (VLong x) -> in_s 64 x ->
  in_s 64 divisor -> divisor <> 0 -> divisor <> min_jlong ->
  divides VLong 64 x divisor (transform_long_divide phase dividend divisor).
Proof using All.
  intros Hx Rx Rd Hnz Hmin.
  destruct (divisor_abs JLong divisor Rd Hnz Hmin) as [Ed Hd]. cbn [jwidth] in Ed, Hd.
  unfold transform_long_divide. set (d := if 0 <=? divisor then divisor else s64 (- divisor)) in *.
  clearbody d. change (2 ^ (64 - 1)) with (2 ^ 63) in Hd. rewrite is_power_of_2_long_eq.
  destruct (Z.eqb_spec d 1) as [E1|Hd1].
  { destruct (Z.leb_spec 0 divisor); cbn [negb divides]; [lia|].
    assert (divisor = -1) as -> by lia. cbn [eval]. rewrite Hx. cbn [on_longs].
    unfold jsub. by rewrite quot_minus_one. }
  destruct (is_power_of_2 d) eqn:Ep.
  - destruct (is_power_of_2_pos d ltac:(lia) Ep) as (l & Hl & El).
    assert (Hl0 : 1 <= l < 63).
    { split; [destruct (Z.eqb_spec l 0) as [->|]; [change (2 ^ 0) with 1 in El|]; lia|lia]. }
    rewrite El. pose proof (rounding_long_spec dividend x l ltac:(lia) Hx) as Hround.
    destruct (rounding_long _ _ _) as [n nr]. destruct Hround as (y & Ey & Hy).
    unfold log2_long. rewrite log2_places by lia. cbn [mbind option_bind]. rewrite Z.sub_add.
    assert (Eq : eval env (RShiftL
        (if nr then transform phase (AddL n (transform phase (URShiftL (transform phase (RShiftL n (intcon (64 - 1)))) (intcon (64 - l)))))
         else n) (intcon l)) = Some (VLong (Z.quot x (2 ^ l)))).
    { cbn [eval]. destruct nr.
      - subst y. trv. rewrite Ey. cbn [on_longs on_long_int]. do 2 f_equal.
        apply (rounded_shift JLong); [done|cbn [jwidth]; lia].
      - rewrite Ey. cbn [on_long_int]. rewrite (jshr_eq JLong) by (cbn [jwidth]; lia). by rewrite Hy. }
    destruct (Z.leb_spec 0 divisor); cbn [negb divides].
    + rewrite Eq. replace divisor with (2 ^ l) by lia. do 2 f_equal. symmetry.
      apply swrap_small; [lia|]. apply (quot_in_s 64); [lia|done|lia|lia].
    + cbn [eval]. rewrite transform_value, Eq. cbn [on_longs]. do 2 f_equal.
      rewrite <- El, Ed, Z.abs_neq by lia. apply (neg_quot JLong). lia.
  - pose proof (magic_divisor d Hd1 ltac:(lia) Ep) as Hd3. unfold magic_long_divide_constants.
    destruct (magic_divide_constants_spec 64 d ltac:(lia) ltac:(change (2 ^ (64 - 1)) with (2 ^ 63); lia))
      as (m & -> & _ & Hm & HM). cbn [mbind option_bind].
    pose proof (magic_product 64 d ltac:(lia) ltac:(change (2 ^ (64 - 1)) with (2 ^ 63); lia) m x Hm Rx) as Hprod.
    pose proof Hm as ((Hp & _) & Hp64 & _ & _ & Hp126 & _). rewrite Z.shiftr_div_pow2 in Hprod by lia.
    pose proof (mul_hi_long dividend x (mq2 m + 1) (mp m) Hx Rx HM ltac:(lia)) as Hhi.
    cbv zeta in Hhi |- *. rewrite Hprod in Hhi.
    assert (Hsign : eval env (transform phase (RShiftL dividend (intcon (64 - 1)))) = Some (VLong (if x <? 0 then -1 else 0))).
    { trv. rewrite Hx. cbn [on_long_int]. by rewrite (sign_value JLong) by done. }
    destruct (finish_quot JLong x d divisor Rx ltac:(cbn [jwidth]; change (2 ^ (64 - 1)) with (2 ^ 63); lia) ltac:(lia)) as [F1 F2].
    destruct (Z.leb_spec 0 divisor); cbn [negb divides]; cbn [eval]; rewrite Hhi, Hsign; cbn [on_longs];
      do 2 f_equal; [apply F1|apply F2]; lia.
Qed.
End Graphs.

(* ------------------------------------------------------------------ *)
(** * The theorems *)

(** C3: The search for the magic number: for every divisor from 3 up (negative ones
    are negated before), in both widths, the loop ends within the fuel of one turn per bit;
    no unsigned operation on the way overflows, since the search in which each of them is checked
    gives the same answer; the shift is at most the width
    less 2, and multiplying by the magic number, read as unsigned, and shifting gives the
    truncated quotient of every dividend, one less for the negative ones. *)
Theorem magic_constants_correct (j : jtype) (d : Z) :
  3 <= d < 2 ^ (jwidth j - 1) ->
  exists M s, (match j with JInt => magic_int_divide_constants d
                          | JLong => magic_long_divide_constants d end) = Some (Some (M, s)) /\
    checked_search (jwidth j) d = Some (uwrap (jwidth j) M, s) /\
    in_s (jwidth j) M /\ 0 <= s <= jwidth j - 2 /\
    forall x, in_s (jwidth j) x ->
      Z.shiftr (x * uwrap (jwidth j) M) (jwidth j + s) = Z.quot x d - (if x <? 0 then 1 else 0).
Proof.
  intros Hd. assert (Hw : 3 <= jwidth j) by (destruct j; cbn; lia).
  destruct (magic_divide_constants_spec (jwidth j) d Hw Hd) as (m & E & Ec & Hm & HM).
  exists (swrap (jwidth j) (mq2 m + 1)), (mp m - jwidth j). rewrite uwrap_swrap, uwrap_small by (lia || done).
  split; [by destruct j|]. split; [done|]. split; [apply swrap_range; lia|].
  pose proof Hm as (_ & Hp & _ & _ & Hp2 & _). split; [lia|]. intros x Hx.
  rewrite Zplus_minus. by apply (magic_product _ _ Hw Hd).
Qed.

Lemma magic_constants_correct_witness :
  exists M s, magic_int_divide_constants 7 = Some (Some (M, s)) /\ checked_search 32 7 = Some (uwrap 32 M, s) /\
    in_s 32 M /\ 0 <= s <= 30 /\
    forall x, in_s 32 x -> Z.shiftr (x * uwrap 32 M) (32 + s) = Z.quot x 7 - (if x <? 0 then 1 else 0).
Proof. apply (magic_constants_correct JInt 7). vm_compute. split; congruence. Defined.

(** The published magic numbers: 7 needs the correction for a multiplier above the signed
    range, 5 does not. *)
Lemma magic_numbers_example :
  magic_int_divide_constants 7 = Some (Some (-1840700269, 2)) /\
  magic_int_divide_constants 5 = Some (Some (0x66666667, 1)) /\
  magic_int_divide_constants (-5) = Some (Some (-0x66666667, 1)) /\
  magic_long_divide_constants 7 = Some (Some (0x4924924924924925, 1)).
Proof. by vm_compute. Qed.

(** C1: Division of an int by a constant: for every divisor but 0 and [min_jint] the
    transformation answers; it leaves the division alone only for the divisor 1, and else
    returns a graph whose value is the division of Java, for every dividend: for -1 with
    its wrap-around, for the powers of two with and without rounding and with the
    redundant mask removed, for all others through the magic number. *)
Theorem transform_int_divide_correct (phase : PhaseGVN) (env : nat -> option jval)
    (dividend : Node) (x divisor : Z) :
  PhaseGVN_laws phase env ->
  eval env dividend = Some (VInt x) -> in_s 32 x ->
  in_s 32 divisor -> divisor <> 0 -> divisor <> min_jint ->
  match transform_int_divide phase dividend divisor with
  | Some (Some q) => eval env q = Some (VInt (s32 (Z.quot x divisor)))
  | Some None => divisor = 1
  | None => False
  end.
Proof. intros. by apply (transform_int_divide_spec phase env). Qed.

(** C2: Division of a long by a constant, with or without a node for the high half of
    a product: where there is none, the graph that adds up the partial products computes
    it exactly. *)
Theorem transform_long_divide_correct (phase : PhaseGVN) (env : nat -> option jval)
    (dividend : Node) (x divisor : Z) :
  PhaseGVN_laws phase env ->
  eval env dividend = Some (VLong x) -> in_s 64 x ->
  in_s 64 divisor -> divisor <> 0 -> divisor <> min_jlong ->
  match transform_long_divide phase dividend divisor with
  | Some (Some q) => eval env q = Some (VLong (s64 (Z.quot x divisor)))
  | Some None => divisor = 1
  | None => False
  end.
Proof. intros. by apply (transform_long_divide_spec phase env). Qed.

(** A phase that knows the constants and nothing else. *)
Definition constants_phase (mulhi : bool) : PhaseGVN := {|
  transform n := n;
  type n := match n with
            | intcon c => if bool_decide (in_s 32 c) then TInt c c 0 else BOTTOM
            | longcon c => if bool_decide (in_s 64 c) then TLong c c 0 else BOTTOM
            | _ => BOTTOM
            end;
  has_MulHiL := mulhi
|}.

#[export] Instance constants_phase_laws mulhi env : PhaseGVN_laws (constants_phase mulhi) env.
Proof.
  split; cbn.
  - done.
  - intros n v. destruct n; try done; cbn; intros [= <-]; case_bool_decide; cbn; done || lia.
  - intros n lo hi. destruct n; try done; cbn; case_bool_decide; cbn; intros; by simplify_eq.
  - intros n lo hi. destruct n; try done; cbn; case_bool_decide; cbn; intros; by simplify_eq.
Qed.

Lemma transform_int_divide_correct_witness :
  match transform_int_divide (constants_phase false) (AndI (Parm 0) (intcon (-8))) (-7) with
  | Some (Some q) => eval (fun _ => Some (VInt 100)) q = Some (VInt (s32 (Z.quot 96 (-7))))
  | Some None => -7 = 1
  | None => False
  end.
Proof.
  apply (transform_int_divide_correct (constants_phase false) (fun _ => Some (VInt 100))
           (AndI (Parm 0) (intcon (-8))) 96 (-7));
    [apply constants_phase_laws|reflexivity|by vm_compute|by vm_compute|lia|by vm_compute].
Defined.

Lemma transform_long_divide_correct_witness :
  match transform_long_divide (constants_phase false) (Parm 0) 1000000007 with
  | Some (Some q) => eval (fun _ => Some (VLong (-5000000000000))) q
                     = Some (VLong (s64 (Z.quot (-5000000000000) 1000000007)))
  | Some None => 1000000007 = 1
  | None => False
  end.
Proof.
  apply (transform_long_divide_correct (constants_phase false) (fun _ => Some (VLong (-5000000000000)))
           (Parm 0) (-5000000000000) 1000000007);
    [apply constants_phase_laws|reflexivity|by vm_compute|by vm_compute|lia|by vm_compute].
Defined.

(** The removed mask: (x & -8) / 8 is a single shift of x. *)
Lemma redundant_mask_example :
  transform_int_divide (constants_phase true) (AndI (Parm 0) (intcon (-8))) 8
  = Some (Some (RShiftI (Parm 0) (intcon 3))).
Proof. by vm_compute. Qed.
