(* ===== verification/OS.v ===== *)
(** * OS: the operating system as the virtual memory code sees it

    The static class [os] of runtime/os.hpp is the boundary to the platform: each platform
    implements its calls by system calls.  Here it is a class [OS] of those calls over an
    abstract state, with two questions about the state (is an address reserved, is it
    committed), and a class [OS_laws] of what the code relies on.  The one function of the
    shared part, [page_size_for_region], is a definition.  [toy_os] is an instance that
    hands out addresses from a counter and can be told to refuse calls. *)

From stdpp Require Import list.
From S2P Require Import Prelude GlobalDefs.

(* ------------------------------------------------------------------ *)
(** ** The calls *)

Class OS := {
  os_state : Type;
  reserved : os_state -> Z -> bool;
  committed : os_state -> Z -> bool;
  vm_page_size : Z;
  vm_allocation_granularity : Z;
  large_page_size : Z;
  can_commit_large_page_memory : bool;
  can_execute_large_page_memory : bool;
  page_sizes : list Z;            (* [_page_sizes] up to its terminating 0 *)
  UseLargePages : bool;
  AlwaysPreTouch : bool;
  (** bytes, requested address (0: any), alignment hint (0: none); 0 is failure *)
  reserve_memory : Z -> Z -> Z -> os_state -> Z * os_state;
  attempt_reserve_memory_at : Z -> Z -> os_state -> Z * os_state;
  (** bytes, requested address, executable: reserves and commits *)
  reserve_memory_special : Z -> Z -> bool -> os_state -> Z * os_state;
  release_memory : Z -> Z -> os_state -> bool * os_state;
  release_memory_special : Z -> Z -> os_state -> bool * os_state;
  split_reserved_memory : Z -> Z -> Z -> bool -> os_state -> unit * os_state;
  protect_memory_none : Z -> Z -> bool -> os_state -> bool * os_state;
  (** address, bytes, alignment hint (0: the overload without one), executable *)
  commit_memory : Z -> Z -> Z -> bool -> os_state -> bool * os_state;
  uncommit_memory : Z -> Z -> os_state -> bool * os_state
}.

Definition in_range (a n p : Z) : bool := (a <=? p) && (p <? a + n).

Lemma in_range_iff a n p : in_range a n p = true <-> a <= p < a + n.
Proof. unfold in_range. rewrite andb_true_iff, Z.leb_le, Z.ltb_lt. lia. Qed.

Lemma in_range_0 a p : in_range a 0 p = false.
Proof. apply not_true_iff_false. rewrite in_range_iff. lia. Qed.

(** A call of the system never faults. *)
Definition call {S A} (f : S -> A * S) : stm S A := fun s => Some (f s).

(** The machine stops. *)
Definition fatal {S A} : stm S A := fun _ => None.

Section Calls.
Context `{OS}.

(** A write to memory that is not committed is a fault. *)
Definition store_byte (p : Z) : stm os_state unit :=
  fun s => if committed s p then Some (tt, s) else None.

(** [for (curr = from; curr < to; curr += step) *curr = 0] *)
Fixpoint touch_pages (fuel : nat) (curr to step : Z) : stm os_state unit :=
  match fuel with
  | O => fatal
  | S fuel => if curr <? to then store_byte curr ;;; touch_pages fuel (curr + step) to step
              else sret tt
  end.

(** [os::page_size_for_region] *)
Fixpoint page_size_loop (sizes : list Z) (region_min_size region_max_size max_page_size : Z) : Z :=
  match sizes with
  | [] => vm_page_size
  | sz :: sizes =>
      let mask := u64 (sz - 1) in
      if (Z.land region_min_size mask =? 0) && (Z.land region_max_size mask =? 0) then sz
      else if sz <=? max_page_size then sz
      else page_size_loop sizes region_min_size region_max_size max_page_size
  end.

Definition page_size_for_region (region_min_size region_max_size min_pages : Z) : option Z :=
  if UseLargePages then
    if min_pages =? 0 then None else
    let max_page_size := region_max_size / min_pages in
    Some (page_size_loop page_sizes region_min_size region_max_size max_page_size)
  else Some vm_page_size.

(** ** What the code relies on *)

(** A request for [n] bytes between two states: refused, or answered by fresh whole pages
    inside the address space; in both cases memory that was reserved is untouched. *)
Definition got (s s' : os_state) (b n : Z) : Prop :=
  (forall p, reserved s p = true -> committed s' p = committed s p) /\
  if b =? 0 then forall p, reserved s' p = reserved s p
  else 0 < b /\ b + n <= 2 ^ 62 /\ (vm_page_size | b) /\
       (forall p, in_range b n p = true -> reserved s p = false) /\
       (forall p, reserved s' p = reserved s p || in_range b n p).

(** Pages are powers of two; a commit or uncommit that succeeds does what it says to the
    whole range and one that fails does nothing; a range handed out is at the requested
    address if there is one; releasing reserved memory succeeds. *)
Class OS_laws := {
  page_bits : Z;
  page_bits_range : 3 <= page_bits < 40;
  vm_page_size_eq : vm_page_size = 2 ^ page_bits;
  granularity_eq : exists g, page_bits <= g < 40 /\ vm_allocation_granularity = 2 ^ g;
  page_sizes_eq : Forall (fun sz => exists k, page_bits <= k < 40 /\ sz = 2 ^ k) page_sizes;
  commit_ok a n al x s s' : 0 < n -> commit_memory a n al x s = (true, s') ->
    forall p, committed s' p = committed s p || in_range a n p;
  commit_failed a n al x s s' : commit_memory a n al x s = (false, s') ->
    forall p, committed s' p = committed s p;
  commit_reserved a n al x s b s' : commit_memory a n al x s = (b, s') ->
    forall p, reserved s' p = reserved s p;
  uncommit_ok a n s s' : 0 < n -> uncommit_memory a n s = (true, s') ->
    forall p, committed s' p = committed s p && negb (in_range a n p);
  uncommit_failed a n s s' : uncommit_memory a n s = (false, s') ->
    forall p, committed s' p = committed s p;
  reserve_ok n a al s b s' : 0 < n -> reserve_memory n a al s = (b, s') ->
    got s s' b n /\ (b <> 0 -> a <> 0 -> b = a);
  attempt_reserve_ok n a s b s' : 0 < n -> attempt_reserve_memory_at n a s = (b, s') ->
    got s s' b n;
  reserve_special_ok n a x s b s' : 0 < n -> reserve_memory_special n a x s = (b, s') ->
    got s s' b n /\ (b <> 0 -> forall p, in_range b n p = true -> committed s' p = true);
  release_ok a n s r s' : 0 < n -> (forall p, in_range a n p = true -> reserved s p = true) ->
    release_memory a n s = (r, s') ->
    r = true /\ (forall p, reserved s' p = reserved s p && negb (in_range a n p)) /\
    (forall p, in_range a n p = false -> committed s' p = committed s p)
}.
End Calls.
Arguments OS_laws : clear implicits.
Arguments OS_laws {_}.

(* ------------------------------------------------------------------ *)
(** ** A small system *)

(** Addresses are handed out from a counter, in pages of 32 bytes; commits and uncommits at
    the addresses of [t_refuse] are refused. *)
Record toy_state := {
  t_reserved : list (Z * Z * bool); t_committed : list (Z * Z * bool); t_next : Z; t_refuse : list Z
}.

(** A set of addresses as the ranges that were added and removed, the last one first. *)
Fixpoint toy_has (X : list (Z * Z * bool)) (p : Z) : bool :=
  match X with
  | [] => false
  | (a, n, b) :: X => if in_range a n p then b else toy_has X p
  end.
Definition toy_reserve (commit : bool) (n a : Z) (s : toy_state) : Z * toy_state :=
  let b := if a =? 0 then t_next s else a in
  if (0 <? b) && (b + n <=? 2 ^ 62) && (b mod 32 =? 0) &&
     forallb (fun p => negb (toy_has (t_reserved s) p)) (seqZ b n)
  then (b, {| t_reserved := (b, n, true) :: t_reserved s;
              t_committed := if commit then (b, n, true) :: t_committed s else t_committed s;
              t_next := b + n; t_refuse := t_refuse s |})
  else (0, s).
Definition toy_release (a n : Z) (s : toy_state) : bool * toy_state :=
  (true, {| t_reserved := (a, n, false) :: t_reserved s; t_committed := t_committed s;
            t_next := t_next s; t_refuse := t_refuse s |}).
Definition toy_commit (a n : Z) (s : toy_state) : bool * toy_state :=
  if bool_decide (a ∈ t_refuse s) then (false, s)
  else (true, {| t_reserved := t_reserved s; t_committed := (a, n, true) :: t_committed s;
                 t_next := t_next s; t_refuse := t_refuse s |}).
Definition toy_uncommit (a n : Z) (s : toy_state) : bool * toy_state :=
  if bool_decide (a ∈ t_refuse s) then (false, s)
  else (true, {| t_reserved := t_reserved s; t_committed := (a, n, false) :: t_committed s;
                 t_next := t_next s; t_refuse := t_refuse s |}).

#[export] Instance toy_os : OS := {|
  os_state := toy_state;
  reserved s := toy_has (t_reserved s);
  committed s := toy_has (t_committed s);
  vm_page_size := 32; vm_allocation_granularity := 32; large_page_size := 128;
  can_commit_large_page_memory := true; can_execute_large_page_memory := true;
  page_sizes := [128; 32]; UseLargePages := true; AlwaysPreTouch := true;
  reserve_memory n a _ s := toy_reserve false n a s;
  attempt_reserve_memory_at n a s := toy_reserve false n a s;
  reserve_memory_special n a _ s := toy_reserve true n a s;
  release_memory := toy_release; release_memory_special := toy_release;
  split_reserved_memory _ _ _ _ s := (tt, s);
  protect_memory_none _ _ _ s := (true, s);
  commit_memory a n _ _ s := toy_commit a n s;
  uncommit_memory := toy_uncommit
|}.

Lemma toy_has_range X a n p : toy_has ((a, n, true) :: X) p = toy_has X p || in_range a n p.
Proof. cbn. destruct (in_range a n p); [by rewrite orb_true_r|by rewrite orb_false_r]. Qed.

Lemma toy_has_minus X a n p : toy_has ((a, n, false) :: X) p = toy_has X p && negb (in_range a n p).
Proof. cbn. destruct (in_range a n p); [by rewrite andb_false_r|by rewrite andb_true_r]. Qed.

#[local] Arguments toy_has : simpl never.

Lemma toy_reserve_ok c n a s b s' : toy_reserve c n a s = (b, s') ->
  got (H := toy_os) s s' b n /\ (b <> 0 -> a <> 0 -> b = a) /\
  (c = true -> b <> 0 -> forall p, in_range b n p = true -> toy_has (t_committed s') p = true).
Proof.
  unfold toy_reserve. destruct (_ && _) eqn:E; intros [= <- <-]; [|by split_and!].
  zreflect. rewrite forallb_forall in *.
  set (b := if a =? 0 then t_next s else a) in *.
  assert (Hf : forall p, in_range b n p = true -> toy_has (t_reserved s) p = false).
  { intros p Hp. apply negb_true_iff.
    match goal with Hf : forall x, _ -> _ |- _ => apply Hf end. apply list_elem_of_In, elem_of_seqZ.
    unfold in_range in Hp. zreflect. lia. }
  split_and!.
  - split.
    + intros p Hp. cbn. destruct c; [|done]. rewrite toy_has_range.
      destruct (in_range b n p) eqn:Er; [|by rewrite orb_false_r]. cbn in Hp. by rewrite Hf in Hp.
    + destruct (Z.eqb_spec b 0); [lia|]. split_and!; try done.
      * by apply Z.mod_divide.
      * intros p. apply toy_has_range.
  - intros _ Ha. subst b. destruct (Z.eqb_spec a 0); [done|done].
  - intros -> _ p Hp. cbn. by rewrite toy_has_range, Hp, orb_true_r.
Qed.

#[export] Instance toy_os_laws : @OS_laws toy_os.
Proof.
  refine {| page_bits := 5 |}; cbn [vm_page_size page_sizes committed reserved commit_memory
    uncommit_memory reserve_memory attempt_reserve_memory_at release_memory toy_os].
  - lia.
  - done.
  - by exists 5.
  - repeat constructor; [exists 7|exists 5]; split; (lia || done).
  - unfold toy_commit. intros a n _ _ s s' _. destruct (bool_decide _); [done|].
    intros [= <-] p. apply toy_has_range.
  - unfold toy_commit. intros a n _ _ s s'. destruct (bool_decide _); intros [= <-]. done.
  - unfold toy_commit. intros a n _ _ s b s'. by destruct (bool_decide _); intros [= <- <-].
  - unfold toy_uncommit. intros a n s s' _. destruct (bool_decide _); [done|].
    intros [= <-] p. apply toy_has_minus.
  - unfold toy_uncommit. intros a n s s'. destruct (bool_decide _); intros [= <-]. done.
  - intros n a _ s b s' _ (Hg & Ha & _)%toy_reserve_ok. by split.
  - intros n a s b s' _ E%toy_reserve_ok. apply E.
  - intros n a _ s b s' _ (Hg & _ & Hc)%toy_reserve_ok. split; [done|]. by apply Hc.
  - unfold toy_release. intros a n s r s' _ _ [= <- <-]. split_and!; [done| |done].
    intros p. apply toy_has_minus.
Defined.

Definition toy_init (next : Z) (refuse : list Z) : toy_state :=
  {| t_reserved := []; t_committed := []; t_next := next; t_refuse := refuse |}.

(* ------------------------------------------------------------------ *)
(** ** Page sizes *)

(** The page size chosen for a region is a power of two, at least a default page, and not
    larger than a region for which any number of pages will do. *)
Lemma page_size_loop_spec `{L : OS_laws} l rmin rmax mx :
  Forall (fun sz => exists k, page_bits <= k < 40 /\ sz = 2 ^ k) l ->
  exists k, page_size_loop l rmin rmax mx = 2 ^ k /\ page_bits <= k < 40 /\
    (0 < rmax -> mx = rmax -> (vm_page_size | rmax) -> 2 ^ k <= rmax).
Proof.
  intros Hl. pose proof page_bits_range as Hp. induction Hl as [|sz l (k & Hk & ->) _ IH]; cbn [page_size_loop].
  - exists page_bits. rewrite vm_page_size_eq. split_and!; try done; try lia.
    intros. by apply Z.divide_pos_le.
  - assert (2 ^ k <= 2 ^ 39) by (apply Z.pow_le_mono_r; lia). pose proof (pow2_pos k ltac:(lia)).
    rewrite (uwrap_small 64 ltac:(lia)) by (unfold in_u; lia). rewrite !land_ones_mod by lia.
    destruct (Z.eqb_spec (rmax mod 2 ^ k) 0) as [E|]; [destruct (rmin mod 2 ^ k =? 0); cbn [andb]|].
    1: { exists k. split_and!; try done; try lia. intros ? _ _. apply Z.divide_pos_le; [lia|].
         apply Z.mod_divide; [lia|done]. }
    all: rewrite ?andb_false_r; destruct (Z.leb_spec (2 ^ k) mx); [|done];
      exists k; split_and!; try done; lia.
Qed.

Lemma page_size_for_region_spec `{L : OS_laws} rmin rmax mp : 0 < mp ->
  exists k, page_size_for_region rmin rmax mp = Some (2 ^ k) /\ page_bits <= k < 40 /\
    (0 < rmax -> mp = 1 -> (vm_page_size | rmax) -> 2 ^ k <= rmax).
Proof.
  intros Hmp. unfold page_size_for_region. destruct (Z.eqb_spec mp 0); [lia|].
  destruct UseLargePages.
  - destruct (page_size_loop_spec page_sizes rmin rmax (rmax / mp) page_sizes_eq) as (k & -> & Hk & Hle).
    exists k. split_and!; [done|lia|lia|]. intros ? ->. rewrite Z.div_1_r in Hle. by apply Hle.
  - exists page_bits. pose proof page_bits_range. rewrite vm_page_size_eq. split_and!; [done|lia|lia|].
    intros. by apply Z.divide_pos_le.
Qed.
