(* ===== verification/ReservedSpace.v ===== *)
(** * ReservedSpace: reserving address ranges, runtime/virtualspace.hpp and .cpp

    A [ReservedSpace] is a contiguous range of addresses reserved from the operating system
    ([OS]), possibly with a prefix that will be protected.  The constructors are functions
    in the monad [stm] over the state of the system; [None] is the [fatal] of the code, or
    running out of the turns allowed to the loop that competes for an aligned range. *)

From S2P Require Import Prelude GlobalDefs OS.

Record ReservedSpace := {
  base : Z;
  rs_size : Z;
  noaccess_prefix : Z;
  alignment : Z;
  rs_special : bool;
  rs_executable : bool
}.

Definition is_reserved (rs : ReservedSpace) : bool := negb (base rs =? 0).

(** What the constructors start from. *)
Definition unreserved (executable : bool) : ReservedSpace :=
  {| base := 0; rs_size := 0; noaccess_prefix := 0; alignment := 0; rs_special := false;
     rs_executable := executable |}.

Section Reserve.
Context `{OS}.

(** The [do] loop of [initialize]: [fuel] attempts to get an aligned range by reserving a
    larger one, releasing it and reserving its aligned part. *)
Fixpoint reserve_aligned (fuel : nat) (size extra_size align : Z) : stm os_state Z :=
  match fuel with
  | O => fatal
  | S fuel =>
      let* extra_base := call (reserve_memory extra_size 0 align) in
      if extra_base =? 0 then sret 0
      else
        let base := u64 (align_size_up extra_base align) in
        call (release_memory extra_base extra_size) ;;;
        let* base := call (reserve_memory size base 0) in
        if base =? 0 then reserve_aligned fuel size extra_size align else sret base
  end.

Definition initialize (fuel : nat) (size align : Z) (large : bool) (requested_address : Z)
    (noaccess : Z) (executable : bool) : stm os_state ReservedSpace :=
  let none := unreserved executable in
  let done_ base size special :=
    sret {| base := base; rs_size := size; noaccess_prefix := noaccess;
            alignment := MAX2 align vm_page_size; rs_special := special;
            rs_executable := executable |} in
  if size =? 0 then sret none
  else
    let special := large && negb can_commit_large_page_memory in
    let* base := (if special then call (reserve_memory_special size requested_address executable)
                  else sret 0) in
    if negb (base =? 0) then done_ base size true
    else
      let* base := (if negb (requested_address =? 0)
                    then call (attempt_reserve_memory_at size (requested_address - noaccess))
                    else call (reserve_memory size 0 align)) in
      if base =? 0 then sret none
      else if (0 <? align) && negb (Z.land base (u64 (align - 1)) =? 0) then
        let* ok := call (release_memory base size) in
        if negb ok then fatal
        else
          let size := u64 (align_size_up size align) in
          let extra_size := u64 (size + align) in
          let* base := reserve_aligned fuel size extra_size align in
          if base =? 0 then sret none else done_ base size false
      else done_ base size false.

(** The constructors that call [initialize]. *)
Definition ReservedSpace_size (fuel : nat) (size : Z) : stm os_state ReservedSpace :=
  initialize fuel size 0 false 0 0 false.
Definition ReservedSpace_at (fuel : nat) (size align : Z) (large : bool)
    (requested_address noaccess : Z) : stm os_state ReservedSpace :=
  initialize fuel (u64 (size + noaccess)) align large requested_address noaccess false.
Definition ReservedSpace_exec (fuel : nat) (size align : Z) (large executable : bool)
    : stm os_state ReservedSpace :=
  initialize fuel size align large 0 0 executable.
Definition ReservedCodeSpace (fuel : nat) (r_size rs_align : Z) (large : bool)
    : stm os_state ReservedSpace :=
  ReservedSpace_exec fuel r_size rs_align large true.

(** ** Compound alignment *)

(** [s + prefix_size & suffix_align - 1]: how far the end of the prefix is above a multiple
    of the alignment of the suffix. *)
Definition suffix_offset (addr prefix_size suffix_align : Z) : Z :=
  Z.land (u64 (addr + prefix_size)) (u64 (suffix_align - 1)).

Definition align_reserved_region (addr len prefix_size prefix_align suffix_size suffix_align : Z)
    : stm os_state Z :=
  let required_size := u64 (prefix_size + suffix_size) in
  let s := addr in
  let beg_ofs := suffix_offset s prefix_size suffix_align in
  let beg_delta := if beg_ofs =? 0 then 0 else u64 (suffix_align - beg_ofs) in
  if len <? u64 (beg_delta + required_size) then sret 0
  else
    let end_delta := u64 (len - u64 (beg_delta + required_size)) in
    (if negb (beg_delta =? 0) then call (release_memory addr beg_delta) else sret true) ;;;
    (if negb (end_delta =? 0) then
       let release_addr := u64 (u64 (s + beg_delta) + required_size) in
       call (release_memory release_addr end_delta)
     else sret true) ;;;
    sret (u64 (s + beg_delta)).

Definition reserve_and_align (reserve_size prefix_size prefix_align suffix_size suffix_align : Z)
    : stm os_state Z :=
  let* raw_addr := call (reserve_memory reserve_size 0 prefix_align) in
  if raw_addr =? 0 then sret 0
  else
    let* result := align_reserved_region raw_addr reserve_size prefix_size prefix_align
                     suffix_size suffix_align in
    if result =? 0 then
      let* ok := call (release_memory raw_addr reserve_size) in
      if negb ok then fatal else sret result
    else sret result.

Definition ReservedSpace_compound (fuel : nat) (prefix_size prefix_align suffix_size suffix_align : Z)
    (requested_address noaccess : Z) : stm os_state ReservedSpace :=
  let adjusted_prefix_size := u64 (prefix_size + noaccess) in
  let size := u64 (adjusted_prefix_size + suffix_size) in
  let try_reserve_special := UseLargePages && (prefix_align =? large_page_size) in
  if negb can_commit_large_page_memory && try_reserve_special then
    initialize fuel size prefix_align true requested_address noaccess false
  else
    let* addr := (if negb (requested_address =? 0)
                  then call (attempt_reserve_memory_at size (requested_address - noaccess))
                  else call (reserve_memory size 0 prefix_align)) in
    if addr =? 0 then sret (unreserved false)
    else
      let ofs := suffix_offset addr adjusted_prefix_size suffix_align in
      let* addr := (if negb (ofs =? 0) then
                      let* ok := call (release_memory addr size) in
                      if negb ok then fatal
                      else
                        let extra := MAX2 ofs (u64 (suffix_align - ofs)) in
                        let* addr := reserve_and_align (u64 (size + extra)) adjusted_prefix_size
                                       prefix_align suffix_size suffix_align in
                        if addr =? 0 then
                          reserve_and_align (u64 (size + suffix_align)) adjusted_prefix_size
                            prefix_align suffix_size suffix_align
                        else sret addr
                    else sret addr) in
      sret {| base := addr; rs_size := size; noaccess_prefix := noaccess;
              alignment := prefix_align; rs_special := false; rs_executable := false |}.

(** ** Parts, release and the protected prefix *)

Definition first_part (rs : ReservedSpace) (partition_size align : Z) (split realloc : bool)
    : stm os_state ReservedSpace :=
  (if split then call (split_reserved_memory (base rs) (rs_size rs) partition_size realloc)
   else sret ()) ;;;
  sret {| base := base rs; rs_size := partition_size; noaccess_prefix := 0; alignment := align;
          rs_special := rs_special rs; rs_executable := rs_executable rs |}.

Definition last_part (rs : ReservedSpace) (partition_size align : Z) : ReservedSpace :=
  {| base := base rs + partition_size; rs_size := u64 (rs_size rs - partition_size);
     noaccess_prefix := 0; alignment := align; rs_special := rs_special rs;
     rs_executable := rs_executable rs |}.

(** The overloads with the alignment of the space itself. *)
Definition first_part_aligned (rs : ReservedSpace) (partition_size : Z) (split realloc : bool)
    : stm os_state ReservedSpace :=
  first_part rs partition_size (alignment rs) split realloc.
Definition last_part_aligned (rs : ReservedSpace) (partition_size : Z) : ReservedSpace :=
  last_part rs partition_size (alignment rs).

Definition page_align_size_up (size : Z) : Z := u64 (align_size_up size vm_page_size).
Definition page_align_size_down (size : Z) : Z := u64 (align_size_down size vm_page_size).
Definition allocation_align_size_up (size : Z) : Z :=
  u64 (align_size_up size vm_allocation_granularity).
Definition allocation_align_size_down (size : Z) : Z :=
  u64 (align_size_down size vm_allocation_granularity).

Definition release (rs : ReservedSpace) : stm os_state ReservedSpace :=
  if is_reserved rs then
    let real_base := base rs - noaccess_prefix rs in
    let real_size := u64 (rs_size rs + noaccess_prefix rs) in
    (if rs_special rs then call (release_memory_special real_base real_size)
     else call (release_memory real_base real_size)) ;;;
    sret {| base := 0; rs_size := 0; noaccess_prefix := 0; alignment := alignment rs;
            rs_special := false; rs_executable := false |}
  else sret rs.

Definition protect_noaccess_prefix (rs : ReservedSpace) (size : Z) : stm os_state ReservedSpace :=
  if noaccess_prefix rs =? 0 then sret rs
  else
    let* ok := call (protect_memory_none (base rs) (noaccess_prefix rs) (rs_special rs)) in
    if negb ok then fatal
    else sret {| base := base rs + noaccess_prefix rs;
                 rs_size := u64 (rs_size rs - noaccess_prefix rs);
                 noaccess_prefix := noaccess_prefix rs; alignment := alignment rs;
                 rs_special := rs_special rs; rs_executable := rs_executable rs |}.

(** The spaces for the Java heap; [null_checks]: compressed oops with a base use implicit
    null checks. *)
Definition heap_prefix (null_checks : bool) (align : Z) : option Z :=
  if null_checks then lcm vm_page_size align else Some 0.

Definition ReservedHeapSpace (fuel : nat) (null_checks : bool) (size align : Z) (large : bool)
    (requested_address : Z) : stm os_state ReservedSpace := fun s =>
  prefix ← heap_prefix null_checks align;
  (let* rs := ReservedSpace_at fuel size align large requested_address prefix in
   protect_noaccess_prefix rs size) s.

Definition ReservedHeapSpace_compound (fuel : nat) (null_checks : bool)
    (prefix_size prefix_align suffix_size suffix_align requested_address : Z)
    : stm os_state ReservedSpace := fun s =>
  prefix ← heap_prefix null_checks prefix_align;
  (let* rs := ReservedSpace_compound fuel prefix_size prefix_align suffix_size suffix_align
                requested_address prefix in
   protect_noaccess_prefix rs (u64 (prefix_size + suffix_size))) s.
End Reserve.

(* ------------------------------------------------------------------ *)
(** ** Lemmas *)

Section Laws.
Context `{L : OS_laws}.

(** The system refuses a request of [n] bytes with the memory of [s] reserved; and a system
    in which nobody else takes a range that was just released. *)
Definition refused (s : os_state) (n : Z) : Prop :=
  exists al s', (forall p, reserved s' p = reserved s p) /\ (reserve_memory n 0 al s').1 = 0.
Definition undisturbed : Prop := forall n a s,
  0 < n -> 0 < a -> a + n <= 2 ^ 62 -> (vm_page_size | a) ->
  (forall p, in_range a n p = true -> reserved s p = false) -> (reserve_memory n a 0 s).1 = a.

Lemma reserve_call n a al s : 0 < n -> exists b s',
  call (reserve_memory n a al) s = Some (b, s') /\ got s s' b n /\ (b <> 0 -> a <> 0 -> b = a).
Proof using L.
  intros Hn. unfold call. destruct (reserve_memory n a al s) as [b s'] eqn:E.
  exists b, s'. split; [done|]. by apply (reserve_ok n a al).
Qed.

Lemma call_refused n al s s' : call (reserve_memory n 0 al) s = Some (0, s') -> refused s n.
Proof using Type. unfold call. intros [= E]. exists al, s. by rewrite E. Qed.

Lemma refused_same s s' n : (forall p, reserved s p = reserved s' p) -> refused s n -> refused s' n.
Proof using Type. intros Hr (al & s1 & H1 & H2). exists al, s1. split; [|done]. intros p. by rewrite H1. Qed.

Lemma attempt_call n a s : 0 < n -> exists b s',
  call (attempt_reserve_memory_at n a) s = Some (b, s') /\ got s s' b n.
Proof using L.
  intros Hn. unfold call. destruct (attempt_reserve_memory_at n a s) as [b s'] eqn:E.
  exists b, s'. split; [done|]. by apply (attempt_reserve_ok n a).
Qed.

Lemma release_call n a s : 0 < n -> (forall p, in_range a n p = true -> reserved s p = true) ->
  exists s', call (release_memory a n) s = Some (true, s') /\
    (forall p, reserved s' p = reserved s p && negb (in_range a n p)) /\
    (forall p, in_range a n p = false -> committed s' p = committed s p).
Proof using L.
  intros Hn Hr. unfold call. destruct (release_memory a n s) as [b s'] eqn:E.
  destruct (release_ok _ _ _ _ _ Hn Hr E) as (-> & ? & ?). by exists s'.
Qed.

(** A range that was got and given back leaves everything as it was. *)
Lemma got_release s s1 b n : 0 < n -> got s s1 b n -> b <> 0 -> exists s2,
  call (release_memory b n) s1 = Some (true, s2) /\
  (forall p, reserved s2 p = reserved s p) /\
  (forall p, reserved s p = true -> committed s2 p = committed s p).
Proof using L.
  intros Hn [Hc Hg] Hb. destruct (Z.eqb_spec b 0) as [|_]; [done|].
  destruct Hg as (_ & _ & _ & Hf & Hr).
  destruct (release_call n b s1 Hn) as (s2 & E & Hr2 & Hc2).
  { intros p Hp. rewrite Hr, Hp. apply orb_true_r. }
  exists s2. split; [done|]. split; intros p.
  - rewrite Hr2, Hr. destruct (in_range b n p) eqn:Er; [by rewrite Hf, andb_false_r|].
    by rewrite orb_false_r, andb_true_r.
  - intros Hp. rewrite Hc2, Hc; [done..|]. apply not_true_iff_false. intros Hin. by rewrite Hf in Hp.
Qed.

(** Getting a range in a state that differs from [s] only elsewhere is getting it in [s]. *)
Lemma got_trans s s1 s2 b n :
  (forall p, reserved s1 p = reserved s p) ->
  (forall p, reserved s p = true -> committed s1 p = committed s p) ->
  got s1 s2 b n -> got s s2 b n.
Proof using Type.
  intros Hr Hc [Hc2 Hg]. split.
  - intros p Hp. rewrite Hc2; [by apply Hc|by rewrite Hr].
  - destruct (b =? 0); [intros p; by rewrite Hg|]. destruct Hg as (? & ? & ? & Hf & Hu).
    split_and!; try done; intros p; [rewrite <- Hr; apply Hf|by rewrite Hu, Hr].
Qed.

Lemma got_0 s s' n : got s s' 0 n ->
  (forall p, reserved s' p = reserved s p) /\
  (forall p, reserved s p = true -> committed s' p = committed s p).
Proof using Type. by intros [? ?]. Qed.

(** ** Manual alignment *)

Lemma suffix_offset_eq addr prefix b : 0 <= b < 62 -> 0 <= addr + prefix < 2 ^ 63 ->
  suffix_offset addr prefix (2 ^ b) = (addr + prefix) mod 2 ^ b.
Proof using Type.
  intros Hb Ha. unfold suffix_offset. assert (2 ^ b <= 2 ^ 61) by (apply Z.pow_le_mono_r; lia).
  pose proof (pow2_pos b ltac:(lia)).
  rewrite !(uwrap_small 64 ltac:(lia)) by (unfold in_u; lia). apply land_ones_mod. lia.
Qed.

(** The pieces cut off at the ends are released only when they are not empty. *)
Lemma release_piece n a s : 0 <= n -> (forall p, in_range a n p = true -> reserved s p = true) ->
  exists ok s', (if negb (n =? 0) then call (release_memory a n) else sret true) s = Some (ok, s') /\
    (forall p, reserved s' p = reserved s p && negb (in_range a n p)) /\
    (forall p, in_range a n p = false -> committed s' p = committed s p).
Proof using L.
  intros Hn Hr. destruct (Z.eqb_spec n 0) as [->|]; cbn [negb].
  - exists true, s. split_and!; [done| |done]. intros p.
    by rewrite in_range_0, andb_true_r.
  - destruct (release_call n a s ltac:(lia) Hr) as (s' & ? & ? & ?). by exists true, s'.
Qed.

(** How far the region must start above [addr]. *)
Definition begin_delta (addr prefix b : Z) : Z := (- (addr + prefix)) mod 2 ^ b.

Lemma begin_delta_spec addr prefix b : 0 <= b ->
  0 <= begin_delta addr prefix b < 2 ^ b /\ (2 ^ b | addr + begin_delta addr prefix b + prefix).
Proof using Type.
  intros Hb. pose proof (pow2_pos b Hb). unfold begin_delta. split; [apply Z.mod_pos_bound; lia|].
  exists (- ((- (addr + prefix)) / 2 ^ b)).
  pose proof (Z.div_mod (- (addr + prefix)) (2 ^ b) ltac:(lia)). lia.
Qed.

Lemma begin_delta_eq addr prefix b : 0 <= b < 62 -> 0 <= addr + prefix < 2 ^ 63 ->
  let ofs := suffix_offset addr prefix (2 ^ b) in
  (if ofs =? 0 then 0 else u64 (2 ^ b - ofs)) = begin_delta addr prefix b.
Proof using Type.
  intros Hb Ha ofs. subst ofs. rewrite suffix_offset_eq by done. pose proof (pow2_pos b ltac:(lia)).
  assert (2 ^ b <= 2 ^ 61) by (apply Z.pow_le_mono_r; lia). unfold begin_delta.
  pose proof (Z.mod_pos_bound (addr + prefix) (2 ^ b) ltac:(lia)).
  destruct (Z.eqb_spec ((addr + prefix) mod 2 ^ b) 0) as [E|E].
  - by rewrite Z.mod_opp_l_z by lia.
  - rewrite Z.mod_opp_l_nz, uwrap_small by (unfold in_u; lia). done.
Qed.

Lemma align_reserved_region_spec s0 s addr len prefix pa suffix b :
  got s0 s addr len -> addr <> 0 -> page_bits <= b < 61 -> 0 <= prefix -> 0 < suffix ->
  (vm_page_size | prefix) -> prefix + suffix <= len ->
  exists r s', align_reserved_region addr len prefix pa suffix (2 ^ b) s = Some (r, s') /\
    (r = 0 -> s' = s /\ len < begin_delta addr prefix b + (prefix + suffix)) /\
    (r <> 0 -> got s0 s' r (prefix + suffix) /\ (2 ^ b | r + prefix)).
Proof using L.
  intros [Hc Hg] Ha Hb Hp Hs Hdp Hlen. destruct (Z.eqb_spec addr 0) as [|_]; [done|].
  destruct Hg as (Ha0 & Hmax & Hda & Hf & Hu). pose proof page_bits_range.
  destruct (begin_delta_spec addr prefix b ltac:(lia)) as [Hd Hdiv].
  assert (2 ^ b <= 2 ^ 60) by (apply Z.pow_le_mono_r; lia).
  unfold align_reserved_region. rewrite begin_delta_eq by lia.
  set (d := begin_delta addr prefix b) in *. set (n := prefix + suffix) in *.
  rewrite (uwrap_small 64 ltac:(lia) n), (uwrap_small 64 ltac:(lia) (d + n)) by (unfold in_u; lia).
  destruct (Z.ltb_spec len (d + n)) as [Hlt|Hge].
  { exists 0, s. split_and!; done. }
  rewrite (uwrap_small 64 ltac:(lia) (len - (d + n))), (uwrap_small 64 ltac:(lia) (addr + d)),
    (uwrap_small 64 ltac:(lia) (addr + d + n)) by (unfold in_u; lia).
  assert (Hin : forall p, in_range addr len p = true -> reserved s p = true).
  { intros p Hin. by rewrite Hu, Hin, orb_true_r. }
  destruct (release_piece d addr s ltac:(lia)) as (ok1 & s1 & E1 & R1 & C1).
  { intros p Hi. apply Hin. rewrite in_range_iff in *. lia. }
  rewrite (sbind_Some _ _ _ _ _ E1).
  destruct (release_piece (len - (d + n)) (addr + d + n) s1 ltac:(lia)) as (ok2 & s2 & E2 & R2 & C2).
  { intros p Hi. rewrite R1, Hin by (rewrite in_range_iff in *; lia).
    apply negb_true_iff, not_true_iff_false. rewrite in_range_iff in *. lia. }
  rewrite (sbind_Some _ _ _ _ _ E2). exists (addr + d), s2. split; [done|]. split; [lia|]. intros _.
  split; [|done]. assert (Hout : forall p, reserved s0 p = true -> in_range addr len p = false).
  { intros p Hr. apply not_true_iff_false. intros Hi. by rewrite Hf in Hr. }
  assert (Hsub : forall p, in_range addr len p = false ->
    in_range addr d p = false /\ in_range (addr + d + n) (len - (d + n)) p = false /\
    in_range (addr + d) n p = false).
  { intros p. rewrite <- !not_true_iff_false, !in_range_iff. lia. }
  split.
  - intros p Hr. destruct (Hsub p (Hout p Hr)) as (? & ? & ?). rewrite C2, C1 by done. by apply Hc.
  - destruct (Z.eqb_spec (addr + d) 0); [lia|]. split_and!; [lia|lia| | |].
    + rewrite vm_page_size_eq in *. replace (addr + d) with (addr + d + prefix - prefix) by lia.
      apply Z.divide_sub_r; [|done]. etransitivity; [|done].
      exists (2 ^ (b - page_bits)). rewrite <- Z.pow_add_r by lia. f_equal. lia.
    + intros p Hi. apply Hf. rewrite in_range_iff in *. lia.
    + intros p. rewrite R2, R1, Hu. apply eq_true_iff_eq.
      rewrite !andb_true_iff, !orb_true_iff, !negb_true_iff, <- !not_true_iff_false, !in_range_iff.
      specialize (Hout p). rewrite <- not_true_iff_false, in_range_iff in Hout. intuition lia.
Qed.

Lemma reserve_and_align_spec s len prefix pa suffix b :
  page_bits <= b < 61 -> 0 <= prefix -> 0 < suffix -> (vm_page_size | prefix) ->
  prefix + suffix <= len ->
  exists r s', reserve_and_align len prefix pa suffix (2 ^ b) s = Some (r, s') /\
    got s s' r (prefix + suffix) /\ (r <> 0 -> (2 ^ b | r + prefix)) /\
    (prefix + suffix + 2 ^ b <= len -> r = 0 -> refused s len).
Proof using L.
  intros Hb Hp Hs Hdp Hlen. unfold reserve_and_align.
  destruct (reserve_call len 0 pa s ltac:(lia)) as (raw & s1 & E1 & Hg & _).
  rewrite (sbind_Some _ _ _ _ _ E1). destruct (Z.eqb_spec raw 0) as [->|Hraw].
  { exists 0, s1. split_and!; [done| |done|]; [by destruct (got_0 _ _ _ Hg)|].
    intros _ _. exact (call_refused _ _ _ _ E1). }
  destruct (align_reserved_region_spec s s1 raw len prefix pa suffix b Hg Hraw) as
    (r & s2 & E2 & H0 & H1); [done..|].
  rewrite (sbind_Some _ _ _ _ _ E2). destruct (Z.eqb_spec r 0) as [->|Hr].
  - destruct (H0 eq_refl) as [-> _].
    destruct (got_release s s1 raw len ltac:(lia) Hg Hraw) as (s3 & E3 & ? & ?).
    rewrite (sbind_Some _ _ _ _ _ E3). exists 0, s3. split_and!; try done.
    intros Hl _. destruct (H0 eq_refl). pose proof (begin_delta_spec raw prefix b) as Hd.
    pose proof page_bits_range. destruct Hd; lia.
  - destruct (H1 Hr). by exists r, s2.
Qed.

(** ** The constructors *)

(** A multiple of a larger power of two is one of a smaller. *)
Lemma pow2_divide a b x : 0 <= a <= b -> (2 ^ b | x) -> (2 ^ a | x).
Proof using Type.
  intros Hab Hx. etransitivity; [|done]. exists (2 ^ (b - a)). rewrite <- Z.pow_add_r by lia.
  f_equal. lia.
Qed.

(** The optimistic first request of both constructors. *)
Lemma first_request size requested noaccess al s : 0 < size ->
  exists addr s1, (if negb (requested =? 0)
      then call (attempt_reserve_memory_at size (requested - noaccess))
      else call (reserve_memory size 0 al)) s = Some (addr, s1) /\ got s s1 addr size /\
    (requested = 0 -> addr = 0 -> refused s size).
Proof using L.
  intros Hs. destruct (Z.eqb_spec requested 0) as [->|]; cbn [negb].
  - destruct (reserve_call size 0 al s Hs) as (addr & s1 & E & Hg & _).
    exists addr, s1. split_and!; [done..|]. intros _ ->. exact (call_refused _ _ _ _ E).
  - destruct (attempt_call size (requested - noaccess) s Hs) as (addr & s1 & E & Hg).
    by exists addr, s1.
Qed.

Lemma got_range s s1 addr n : got s s1 addr n -> addr <> 0 ->
  0 < addr /\ addr + n <= 2 ^ 62 /\ (vm_page_size | addr).
Proof using Type.
  intros [_ Hg] Ha. destruct (Z.eqb_spec addr 0); [done|]. destruct Hg as (? & ? & ? & _). done.
Qed.

(** The two attempts with more space than needed, after the first range was released. *)
Lemma compound_retry s s1 addr P pa suffix b :
  page_bits <= b < 61 -> 0 <= P -> 0 < suffix -> (vm_page_size | P) ->
  P + suffix + 2 ^ b <= 2 ^ 62 -> got s s1 addr (P + suffix) -> addr <> 0 ->
  let ofs := suffix_offset addr P (2 ^ b) in
  exists r s',
    (let* ok := call (release_memory addr (P + suffix)) in
     if negb ok then fatal
     else
       let extra := MAX2 ofs (u64 (2 ^ b - ofs)) in
       let* addr := reserve_and_align (u64 (P + suffix + extra)) P pa suffix (2 ^ b) in
       if addr =? 0 then reserve_and_align (u64 (P + suffix + 2 ^ b)) P pa suffix (2 ^ b)
       else sret addr) s1 = Some (r, s') /\
    got s s' r (P + suffix) /\ (r <> 0 -> (2 ^ b | r + P)) /\
    (r = 0 -> refused s (P + suffix + 2 ^ b)).
Proof using L.
  intros Hb HP Hs Hd Hmax Hg1 Haddr ofs. destruct (got_range _ _ _ _ Hg1 Haddr) as (? & ? & _).
  pose proof page_bits_range. pose proof (pow2_pos b ltac:(lia)). subst ofs.
  rewrite suffix_offset_eq by lia. pose proof (Z.mod_pos_bound (addr + P) (2 ^ b) ltac:(lia)).
  assert (2 ^ b <= 2 ^ 60) by (apply Z.pow_le_mono_r; lia).
  destruct (got_release s s1 addr (P + suffix) ltac:(lia) Hg1 Haddr) as (s2 & E2 & Hr2 & Hc2).
  cbv zeta. set (extra := MAX2 ((addr + P) mod 2 ^ b) (u64 (2 ^ b - (addr + P) mod 2 ^ b))).
  assert (Hextra : 0 <= extra <= 2 ^ b).
  { unfold extra. unfold MAX2, uwrap. pose proof (Z.mod_le (2 ^ b - (addr + P) mod 2 ^ b) (2 ^ 64)).
    pose proof (Z.mod_pos_bound (2 ^ b - (addr + P) mod 2 ^ b) (2 ^ 64)). zcases. }
  rewrite !(uwrap_small 64 ltac:(lia) (P + suffix + _)) by (unfold in_u; lia).
  destruct (reserve_and_align_spec s2 (P + suffix + extra) P pa suffix b) as
    (r3 & s3 & E3 & Hg3 & Hd3 & _); [lia|lia|lia|done|lia|].
  rewrite (sbind_Some _ _ _ _ _ E2). cbn [negb]. rewrite (sbind_Some _ _ _ _ _ E3).
  destruct (Z.eqb_spec r3 0) as [->|Hr3].
  - destruct (got_0 _ _ _ Hg3) as [Hr3 Hc3].
    destruct (reserve_and_align_spec s3 (P + suffix + 2 ^ b) P pa suffix b) as
      (r4 & s4 & E4 & Hg4 & Hd4 & Hgen4); [lia|lia|lia|done|lia|].
    exists r4, s4. split_and!; [done| |done|].
    2: { intros Hr4. apply (refused_same s3); [intros p; by rewrite Hr3|apply Hgen4; [lia|done]]. }
    apply (got_trans s s3); [by intros p; rewrite Hr3| |done].
    intros p Hrp. rewrite Hc3 by (by rewrite Hr2). by apply Hc2.
  - exists r3, s3. split_and!; [done|by apply (got_trans s s2)|done..].
Qed.

(** Reserving a prefix and a suffix with an alignment of its own: however the system
    places the ranges it hands out, the constructor returns either nothing reserved, with
    everything as it was, or a fresh range of exactly the requested size whose suffix is
    aligned as asked and whose start is aligned as the prefix asks; every other range that
    was tried has been given back.  Without a requested address it fails only if the system
    refused a request of the size, or of the size and the alignment, in the same situation. *)
Theorem compound_spec fuel prefix suffix requested noaccess a b s :
  page_bits <= a <= b -> b < 61 -> 0 < prefix -> 0 < suffix -> (2 ^ a | prefix) ->
  noaccess = 0 \/ noaccess = 2 ^ a -> prefix + noaccess + suffix + 2 ^ b <= 2 ^ 62 ->
  negb can_commit_large_page_memory && (UseLargePages && (2 ^ a =? large_page_size)) = false ->
  let size := prefix + noaccess + suffix in
  exists rs s', ReservedSpace_compound fuel prefix (2 ^ a) suffix (2 ^ b) requested noaccess s = Some (rs, s') /\
    got s s' (base rs) size /\
    (is_reserved rs = true -> rs_size rs = size /\ (2 ^ b | base rs + (prefix + noaccess)) /\
       (2 ^ a | base rs)) /\
    (requested = 0 -> is_reserved rs = false -> refused s size \/ refused s (size + 2 ^ b)).
Proof using L.
  intros Hab Hb Hp Hs Hdp Hna Hmax Hspec size. unfold ReservedSpace_compound. rewrite Hspec.
  pose proof page_bits_range. pose proof (pow2_pos a ltac:(lia)). pose proof (pow2_pos b ltac:(lia)).
  assert (Hdn : (2 ^ a | prefix + noaccess)).
  { apply Z.divide_add_r; [done|]. destruct Hna as [->| ->]; [apply Z.divide_0_r|done]. }
  rewrite (uwrap_small 64 ltac:(lia) (prefix + noaccess)) by (unfold in_u; lia).
  subst size. set (P := prefix + noaccess) in *.
  rewrite (uwrap_small 64 ltac:(lia) (P + suffix)) by (unfold in_u; lia).
  assert (HdP : (vm_page_size | P)) by (rewrite vm_page_size_eq; apply (pow2_divide _ a); [lia|done]).
  assert (Hbase : forall r, (2 ^ b | r + P) -> (2 ^ a | r)).
  { intros r Hr. replace r with (r + P - P) by lia. apply Z.divide_sub_r; [|done].
    apply (pow2_divide a b); [lia|done]. }
  destruct (first_request (P + suffix) requested noaccess (2 ^ a) s ltac:(lia))
    as (addr & s1 & E1 & Hg1 & Hgen1). rewrite (sbind_Some _ _ _ _ _ E1).
  destruct (Z.eqb_spec addr 0) as [->|Haddr].
  { eexists _, _. split; [done|]. split_and!; [exact Hg1|done|].
    intros Hr _. left. by apply Hgen1. }
  destruct (got_range _ _ _ _ Hg1 Haddr) as (? & ? & _).
  destruct (Z.eqb_spec (suffix_offset addr P (2 ^ b)) 0) as [Hofs|Hofs]; cbn [negb].
  - assert (Hd : (2 ^ b | addr + P)).
    { rewrite suffix_offset_eq in Hofs by lia. apply Z.mod_divide; [lia|done]. }
    eexists _, _. split; [done|]. unfold is_reserved. cbn [base rs_size].
    destruct (Z.eqb_spec addr 0); [done|]. split_and!; auto. done.
  - destruct (compound_retry s s1 addr P (2 ^ a) suffix b) as (r & s2 & E2 & Hg2 & Hd2 & Hgen2);
      [lia|lia|done|done|lia|done|done|].
    rewrite (sbind_Some _ _ _ _ _ E2). eexists _, _. split; [done|].
    unfold is_reserved. cbn [base rs_size]. split; [done|]. split.
    + intros Hr%negb_true_iff%Z.eqb_neq. auto.
    + intros _ Hr%negb_false_iff%Z.eqb_eq. right. auto.
Qed.

(** The competition for an aligned range ends at its first attempt when nobody disturbs it. *)
Lemma reserve_aligned_spec fuel size k s :
  0 < size -> page_bits <= k < 61 -> size + 2 ^ k <= 2 ^ 62 -> undisturbed ->
  exists r s', reserve_aligned (S fuel) size (size + 2 ^ k) (2 ^ k) s = Some (r, s') /\
    got s s' r size /\ (r <> 0 -> (2 ^ k | r)) /\ (r = 0 -> refused s (size + 2 ^ k)).
Proof using L.
  intros Hs Hk Hmax Hun. cbn [reserve_aligned]. pose proof page_bits_range.
  pose proof (pow2_pos k ltac:(lia)).
  destruct (reserve_call (size + 2 ^ k) 0 (2 ^ k) s ltac:(lia)) as (eb & s1 & E1 & Hg1 & _).
  rewrite (sbind_Some _ _ _ _ _ E1). destruct (Z.eqb_spec eb 0) as [->|Heb].
  { exists 0, s1. split; [done|]. split; [by destruct (got_0 _ _ _ Hg1)|]. split; [done|].
    intros _. exact (call_refused _ _ _ _ E1). }
  destruct (got_range _ _ _ _ Hg1 Heb) as (? & ? & _).
  destruct (got_release s s1 eb (size + 2 ^ k) ltac:(lia) Hg1 Heb) as (s2 & E2 & Hr2 & Hc2).
  destruct (align_size_spec eb k) as (Hd & Hb & _); [lia..|].
  rewrite (uwrap_small 64 ltac:(lia)) by (unfold in_u; lia).
  set (x := align_size_up eb (2 ^ k)) in *. rewrite (sbind_Some _ _ _ _ _ E2).
  destruct (reserve_call size x 0 s2 Hs) as (r & s3 & E3 & Hg3 & _). rewrite (sbind_Some _ _ _ _ _ E3).
  assert (r = x) as ->.
  { unfold call in E3. injection E3 as E3. specialize (Hun size x s2). rewrite E3 in Hun. apply Hun; [lia..| |].
    - rewrite vm_page_size_eq. apply (pow2_divide _ k); [lia|done].
    - intros p Hp. rewrite Hr2. destruct Hg1 as [_ Hg]. destruct (Z.eqb_spec eb 0); [done|].
      apply Hg. rewrite in_range_iff in *. lia. }
  destruct (Z.eqb_spec x 0); [lia|]. exists x, s3. split_and!; [done|by apply (got_trans s s2)|done|done].
Qed.

(** What a constructor promises of the space it returns for a request of [size] bytes. *)
Definition initialized (s s' : os_state) (size align : Z) (large : bool) (rs : ReservedSpace) : Prop :=
  if is_reserved rs then
    got s s' (base rs) (rs_size rs) /\ size <= rs_size rs /\
    (rs_size rs = size \/ 0 < align /\ rs_size rs = align_size_up size align) /\
    (rs_special rs = false -> 0 < align -> (align | base rs)) /\
    (rs_special rs = true -> large = true /\
       forall p, in_range (base rs) (rs_size rs) p = true -> committed s' p = true)
  else (forall p, reserved s' p = reserved s p) /\
       (forall p, reserved s p = true -> committed s' p = committed s p).

Lemma initialized_none s s' size align large n x : got s s' 0 n ->
  initialized s s' size align large (unreserved x).
Proof using Type. intros Hg. by destruct (got_0 _ _ _ Hg). Qed.

Lemma initialized_done s s' size size' align large b na al x :
  got s s' b size' -> b <> 0 -> size <= size' ->
  size' = size \/ 0 < align /\ size' = align_size_up size align -> (0 < align -> (align | b)) ->
  initialized s s' size align large
    {| base := b; rs_size := size'; noaccess_prefix := na; alignment := al; rs_special := false;
       rs_executable := x |}.
Proof using Type.
  intros Hg Hb Hs Hsz Hd. unfold initialized, is_reserved. cbn.
  destruct (Z.eqb_spec b 0); [done|]. cbn. by split_and!.
Qed.

(** The request for special memory, which need not be made. *)
Lemma special_request size requested x large s : 0 < size ->
  exists b s1, (if large && negb can_commit_large_page_memory
                then call (reserve_memory_special size requested x) else sret 0) s = Some (b, s1) /\
    got s s1 b size /\ (b <> 0 -> large = true /\
      forall p, in_range b size p = true -> committed s1 p = true).
Proof using L.
  intros Hs. destruct (large && _) eqn:El.
  - unfold call. destruct (reserve_memory_special size requested x s) as [b s1] eqn:E.
    destruct (reserve_special_ok _ _ _ _ _ _ Hs E) as [Hg Hc].
    exists b, s1. split_and!; [done..|]. intros Hb. split; [by destruct (andb_prop _ _ El)|by apply Hc].
  - exists 0, s. split_and!; done.
Qed.

Lemma initialize_spec fuel size align large requested noaccess x s :
  0 < size <= 2 ^ 61 -> align = 0 \/ (exists k, page_bits <= k < 60 /\ align = 2 ^ k) -> undisturbed ->
  exists rs s', initialize (S fuel) size align large requested noaccess x s = Some (rs, s') /\
    initialized s s' size align large rs /\ rs_executable rs = x /\
    (requested = 0 -> is_reserved rs = false ->
       refused s size \/ 0 < align /\ refused s (align_size_up size align + align)).
Proof using L.
  intros Hs Hal Hun. unfold initialize. destruct (Z.eqb_spec size 0); [lia|].
  pose proof page_bits_range.
  destruct (special_request size requested x large s ltac:(lia)) as (b0 & s0 & E0 & Hg0 & Hsp).
  rewrite (sbind_Some _ _ _ _ _ E0). destruct (Z.eqb_spec b0 0) as [->|Hb0]; cbn [negb].
  2: { eexists _, _. split; [done|]. unfold initialized, is_reserved. cbn.
       destruct (Z.eqb_spec b0 0); [done|]. cbn. split; [|done].
       split_and!; [done|lia|by left|done|by intros _; apply Hsp]. }
  destruct (got_0 _ _ _ Hg0) as [Hr0 Hc0].
  destruct (first_request size requested noaccess align s0 ltac:(lia)) as (b1 & s1 & E1 & Hg1 & Hgen1).
  pose proof (got_trans s s0 s1 b1 size Hr0 Hc0 Hg1) as Hg1'.
  rewrite (sbind_Some _ _ _ _ _ E1). destruct (Z.eqb_spec b1 0) as [->|Hb1].
  { eexists _, _. split; [done|]. split; [by eapply initialized_none|]. split; [done|].
    intros Hr _. left. apply (refused_same s0); [done|by apply Hgen1]. }
  assert (Hres : forall n a x', is_reserved {| base := b1; rs_size := n; noaccess_prefix := noaccess;
      alignment := a; rs_special := false; rs_executable := x' |} = true).
  { intros. unfold is_reserved. cbn. by destruct (Z.eqb_spec b1 0). }
  destruct (Z.ltb_spec 0 align); cbn [andb].
  2: { eexists _, _. split; [done|].
       split; [apply initialized_done; first [done|lia|by left]|split; [done|by rewrite Hres]]. }
  destruct Hal as [->|(k & Hk & ->)]; [lia|]. assert (2 ^ k <= 2 ^ 59) by (apply Z.pow_le_mono_r; lia).
  rewrite (uwrap_small 64 ltac:(lia) (2 ^ k - 1)) by (unfold in_u; lia). rewrite land_ones_mod by lia.
  destruct (Z.eqb_spec (b1 mod 2 ^ k) 0) as [Hm|Hm]; cbn [negb].
  { eexists _, _. split; [done|]. split; [|split; [done|by rewrite Hres]].
    apply initialized_done; first [done|lia|by left|intros _; apply Z.mod_divide; [lia|done]]. }
  destruct (got_release s0 s1 b1 size ltac:(lia) Hg1 Hb1) as (s2 & E2 & Hr2 & Hc2).
  rewrite (sbind_Some _ _ _ _ _ E2). cbn [negb].
  destruct (align_size_spec size k) as (_ & Hb & _); [lia..|].
  rewrite (uwrap_small 64 ltac:(lia) (align_size_up _ _)) by (unfold in_u; lia).
  set (size' := align_size_up size (2 ^ k)) in *.
  rewrite (uwrap_small 64 ltac:(lia)) by (unfold in_u; lia).
  destruct (reserve_aligned_spec fuel size' k s2) as (r & s3 & E3 & Hg3 & Hd3 & Hgen3); [lia..|done|].
  assert (Hg3' : got s s3 r size').
  { apply (got_trans s s2); [by intros p; rewrite Hr2| |done].
    intros p Hp. rewrite Hc2 by (by rewrite Hr0). by apply Hc0. }
  rewrite (sbind_Some _ _ _ _ _ E3). destruct (Z.eqb_spec r 0) as [->|Hr].
  - eexists _, _. split; [done|]. split; [by eapply initialized_none|]. split; [done|].
    intros _ _. right. split; [done|]. apply (refused_same s2); [intros p; by rewrite Hr2|by apply Hgen3].
  - eexists _, _. split; [done|]. split; [|split; [done|]].
    + apply initialized_done; first [done|lia|by right|auto].
    + unfold is_reserved. cbn. by destruct (Z.eqb_spec r 0).
Qed.
End Laws.

(** The small system gives a free range to whoever asks for it. *)
Lemma toy_undisturbed : undisturbed (H := toy_os).
Proof.
  intros n a s Hn Ha Hmax Hd Hf. cbn. unfold toy_reserve. destruct (Z.eqb_spec a 0); [lia|].
  replace (_ && _) with true; [done|]. symmetry. rewrite !andb_true_iff. split_and!.
  - by apply Z.ltb_lt.
  - by apply Z.leb_le.
  - apply Z.eqb_eq, Z.mod_divide; [lia|exact Hd].
  - apply forallb_forall. intros p Hp%list_elem_of_In%elem_of_seqZ. apply negb_true_iff, Hf.
    apply in_range_iff. lia.
Qed.

(** A prefix of 96 bytes and a suffix of 256 aligned to 128, where the first range is not
    aligned. *)
Lemma compound_spec_witness :
  base <$> (fst <$> ReservedSpace_compound 0 96 (2 ^ 5) 256 (2 ^ 7) 0 0 (toy_init 64 [])) = Some 416 /\
  exists rs s', ReservedSpace_compound 0 96 (2 ^ 5) 256 (2 ^ 7) 0 0 (toy_init 64 []) = Some (rs, s') /\
    got (H := toy_os) (toy_init 64 []) s' (base rs) 352 /\
    (is_reserved rs = true -> rs_size rs = 352 /\ (2 ^ 7 | base rs + (96 + 0)) /\ (2 ^ 5 | base rs)) /\
    (0 = 0 -> is_reserved rs = false ->
       refused (H := toy_os) (toy_init 64 []) 352 \/ refused (H := toy_os) (toy_init 64 []) (352 + 2 ^ 7)).
Proof.
  split; [reflexivity|].
  apply (compound_spec (H := toy_os) (L := toy_os_laws) 0 96 256 0 0 5 7 (toy_init 64 []));
    first [done|lia|by left|by exists 3|cbn; lia].
Defined.
