(* ===== verification/VirtualSpace.v ===== *)
(** * VirtualSpace: committing a reserved range, runtime/virtualspace.hpp and .cpp

    A virtual space commits the addresses [low, high) of a reserved range and grows and
    shrinks them at the high end.  To use large pages the range has three regions: a lower
    and an upper one committed in default pages and a middle one, whose ends are aligned to
    large pages, committed in large pages; each has a mark up to which it is committed.
    The operations are functions in the monad [stm] over the state of the operating system.

    The invariant [vs_inv] is that everything below the high end is committed; [vs_upto] says it up to a given
    address, which is what remains when the system refuses to uncommit a part of what a shrinking gives up. *)

From stdpp Require Import relations.
From S2P Require Import Prelude GlobalDefs OS ReservedSpace.

(* ------------------------------------------------------------------ *)
(** ** The state *)

Record VirtualSpace := {
  low_boundary : Z; high_boundary : Z;
  low : Z; high : Z;
  special : bool; executable : bool;
  lower_high : Z; middle_high : Z; upper_high : Z;
  lower_high_boundary : Z; middle_high_boundary : Z; upper_high_boundary : Z;
  lower_alignment : Z; middle_alignment : Z; upper_alignment : Z
}.

(** The constructor, which [release] resets the space to. *)
Definition new_VirtualSpace : VirtualSpace :=
  {| low_boundary := 0; high_boundary := 0; low := 0; high := 0; special := false;
     executable := false; lower_high := 0; middle_high := 0; upper_high := 0;
     lower_high_boundary := 0; middle_high_boundary := 0; upper_high_boundary := 0;
     lower_alignment := 0; middle_alignment := 0; upper_alignment := 0 |}.

Definition release (v : VirtualSpace) : VirtualSpace := new_VirtualSpace.

Definition set_high (v : VirtualSpace) (x : Z) : VirtualSpace :=
  {| low_boundary := low_boundary v; high_boundary := high_boundary v; low := low v; high := x;
     special := special v; executable := executable v;
     lower_high := lower_high v; middle_high := middle_high v; upper_high := upper_high v;
     lower_high_boundary := lower_high_boundary v;
     middle_high_boundary := middle_high_boundary v;
     upper_high_boundary := upper_high_boundary v;
     lower_alignment := lower_alignment v; middle_alignment := middle_alignment v;
     upper_alignment := upper_alignment v |}.

(** [_lower_high], [_middle_high] and [_upper_high] assigned. *)
Definition set_highs (v : VirtualSpace) (l m u : Z) : VirtualSpace :=
  {| low_boundary := low_boundary v; high_boundary := high_boundary v; low := low v;
     high := high v; special := special v; executable := executable v;
     lower_high := l; middle_high := m; upper_high := u;
     lower_high_boundary := lower_high_boundary v;
     middle_high_boundary := middle_high_boundary v;
     upper_high_boundary := upper_high_boundary v;
     lower_alignment := lower_alignment v; middle_alignment := middle_alignment v;
     upper_alignment := upper_alignment v |}.
Definition add_lower (v : VirtualSpace) (n : Z) : VirtualSpace :=
  set_highs v (lower_high v + n) (middle_high v) (upper_high v).
Definition add_middle (v : VirtualSpace) (n : Z) : VirtualSpace :=
  set_highs v (lower_high v) (middle_high v + n) (upper_high v).
Definition add_upper (v : VirtualSpace) (n : Z) : VirtualSpace :=
  set_highs v (lower_high v) (middle_high v) (upper_high v + n).

Definition pointer_delta (left right element_size : Z) : Z := u64 (left - right) / element_size.

Definition committed_size (v : VirtualSpace) : Z := pointer_delta (high v) (low v) 1.
Definition reserved_size (v : VirtualSpace) : Z :=
  pointer_delta (high_boundary v) (low_boundary v) 1.
Definition uncommitted_size (v : VirtualSpace) : Z :=
  u64 (reserved_size v - committed_size v).
Definition contains (v : VirtualSpace) (p : Z) : bool := (low v <=? p) && (p <? high v).

(* ------------------------------------------------------------------ *)
(** ** The operations *)

Section Operations.
Context `{OS}.

(** [if (needs > 0 && !commit(...)) return false;] *)
Definition when_needed (needs : Z) (m : os_state -> bool * os_state) : stm os_state bool :=
  if 0 <? needs then call m else sret true.

(** How far a region must grow or shrink to the new high end. *)
Definition needs_up (aligned_new_high high : Z) : Z :=
  if high <? aligned_new_high then pointer_delta aligned_new_high high 1 else 0.
Definition needs_down (aligned_new_high high : Z) : Z :=
  if aligned_new_high <? high then pointer_delta high aligned_new_high 1 else 0.

(** Commit the three regions; the flag is false when one of the commits failed. *)
Definition commit_regions (v : VirtualSpace) (lower_needs middle_needs upper_needs : Z)
    : stm os_state (VirtualSpace * bool) :=
  let* ok := when_needed lower_needs
               (commit_memory (lower_high v) lower_needs 0 (executable v)) in
  if negb ok then sret (v, false)
  else
    let v := add_lower v lower_needs in
    let* ok := when_needed middle_needs
                 (commit_memory (middle_high v) middle_needs (middle_alignment v) (executable v)) in
    if negb ok then sret (v, false)
    else
      let v := add_middle v middle_needs in
      let* ok := when_needed upper_needs
                   (commit_memory (upper_high v) upper_needs 0 (executable v)) in
      if negb ok then sret (v, false)
      else sret (add_upper v upper_needs, true).

(** Enough turns for the pages of the range. *)
Definition touch_fuel (bytes : Z) : nat := S (Z.to_nat bytes).

Definition expand_by (v : VirtualSpace) (bytes : Z) (pre_touch : bool)
    : stm os_state (VirtualSpace * bool) :=
  if uncommitted_size v <? bytes then sret (v, false)
  else if special v then sret (set_high v (high v + bytes), true)
  else
    let previous_high := high v in
    let unaligned_new_high := high v + bytes in
    let unaligned_lower_new_high := MIN2 unaligned_new_high (lower_high_boundary v) in
    let unaligned_middle_new_high := MIN2 unaligned_new_high (middle_high_boundary v) in
    let unaligned_upper_new_high := MIN2 unaligned_new_high (upper_high_boundary v) in
    let aligned_lower_new_high := round_to unaligned_lower_new_high (lower_alignment v) in
    let aligned_middle_new_high := round_to unaligned_middle_new_high (middle_alignment v) in
    let aligned_upper_new_high := round_to unaligned_upper_new_high (upper_alignment v) in
    let lower_needs := needs_up aligned_lower_new_high (lower_high v) in
    let middle_needs := needs_up aligned_middle_new_high (middle_high v) in
    let upper_needs := needs_up aligned_upper_new_high (upper_high v) in
    let* (v, ok) := commit_regions v lower_needs middle_needs upper_needs in
    if negb ok then sret (v, false)
    else
      (if pre_touch || AlwaysPreTouch
       then touch_pages (touch_fuel bytes) previous_high unaligned_new_high vm_page_size
       else sret tt) ;;;
      sret (set_high v (high v + bytes), true).

(** Uncommit the three regions, upper first; the flag is false when the code returns early
    because an uncommit failed. *)
Definition uncommit_regions (v : VirtualSpace)
    (aligned_upper aligned_middle aligned_lower upper_needs middle_needs lower_needs : Z)
    : stm os_state (VirtualSpace * bool) :=
  let* ok := when_needed upper_needs (uncommit_memory aligned_upper upper_needs) in
  if negb ok then sret (v, false)
  else
    let v := add_upper v (- upper_needs) in
    let* ok := when_needed middle_needs (uncommit_memory aligned_middle middle_needs) in
    if negb ok then sret (v, false)
    else
      let v := add_middle v (- middle_needs) in
      let* ok := when_needed lower_needs (uncommit_memory aligned_lower lower_needs) in
      if negb ok then sret (v, false)
      else sret (add_lower v (- lower_needs), true).

Definition shrink_by (v : VirtualSpace) (size : Z) : stm os_state VirtualSpace :=
  if committed_size v <? size then fatal
  else if special v then sret (set_high v (high v - size))
  else
    let unaligned_new_high := high v - size in
    let unaligned_upper_new_high := MAX2 unaligned_new_high (middle_high_boundary v) in
    let unaligned_middle_new_high := MAX2 unaligned_new_high (lower_high_boundary v) in
    let unaligned_lower_new_high := MAX2 unaligned_new_high (low_boundary v) in
    let aligned_upper_new_high := round_to unaligned_upper_new_high (upper_alignment v) in
    let aligned_middle_new_high := round_to unaligned_middle_new_high (middle_alignment v) in
    let aligned_lower_new_high := round_to unaligned_lower_new_high (lower_alignment v) in
    let upper_needs := needs_down aligned_upper_new_high (upper_high v) in
    let middle_needs := needs_down aligned_middle_new_high (middle_high v) in
    let lower_needs := needs_down aligned_lower_new_high (lower_high v) in
    let* (v, ok) := uncommit_regions v aligned_upper_new_high aligned_middle_new_high
                      aligned_lower_new_high upper_needs middle_needs lower_needs in
    if negb ok then sret v else sret (set_high v (high v - size)).

Definition initialize (rs : ReservedSpace) (committed : Z)
    : stm os_state (VirtualSpace * bool) := fun s =>
  if negb (is_reserved rs) then Some (new_VirtualSpace, false, s)
  else
    let lo := base rs in
    let hi := lo + rs_size rs in
    middle ← page_size_for_region (rs_size rs) (rs_size rs) 1;
    let lower_b := round_to lo middle in
    let middle_b := round_down hi middle in
    let v := {| low_boundary := lo; high_boundary := hi; low := lo; high := lo;
                special := rs_special rs; executable := rs_executable rs;
                lower_high := lo; middle_high := lower_b; upper_high := middle_b;
                lower_high_boundary := lower_b; middle_high_boundary := middle_b;
                upper_high_boundary := hi;
                lower_alignment := vm_page_size; middle_alignment := middle;
                upper_alignment := vm_page_size |} in
    if 0 <? committed then
      (let* (v, ok) := expand_by v committed false in
       if negb (ok : bool) then sret (v, false) else sret (v, true)) s
    else Some (v, true, s).
End Operations.

(* ------------------------------------------------------------------ *)
(** ** The invariant *)

Section Invariant.
Context `{L : OS_laws}.

(** The layout of the regions never changes. *)
Record vs_geom (v : VirtualSpace) : Prop := {
  g_low : 0 < low_boundary v;
  g_bound : high_boundary v <= 2 ^ 62;
  g_low_eq : low v = low_boundary v;
  g_pages : lower_alignment v = vm_page_size /\ upper_alignment v = vm_page_size;
  g_middle : exists k, page_bits <= k < 62 /\ middle_alignment v = 2 ^ k;
  g_div_low : (vm_page_size | low_boundary v);
  g_div_high : (vm_page_size | high_boundary v);
  g_div_lower : (middle_alignment v | lower_high_boundary v);
  g_div_middle : (middle_alignment v | middle_high_boundary v);
  g_order : low_boundary v <= lower_high_boundary v <= middle_high_boundary v /\
            middle_high_boundary v <= high_boundary v;
  g_upper : upper_high_boundary v = high_boundary v
}.

(** The marks are inside their regions. *)
Record vs_marks (v : VirtualSpace) : Prop := {
  m_lower : low_boundary v <= lower_high v <= lower_high_boundary v;
  m_middle : lower_high_boundary v <= middle_high v <= middle_high_boundary v;
  m_upper : middle_high_boundary v <= upper_high v <= upper_high_boundary v
}.

(** The addresses the marks account for. *)
Definition accounted (v : VirtualSpace) (p : Z) : Prop :=
  low_boundary v <= p < lower_high v \/ lower_high_boundary v <= p < middle_high v \/
  middle_high_boundary v <= p < upper_high v.

(** No mark is behind the high end. *)
Record vs_covers (v : VirtualSpace) (h : Z) : Prop := {
  c_lower : Z.min h (lower_high_boundary v) <= lower_high v;
  c_middle : Z.min h (middle_high_boundary v) <= middle_high v;
  c_upper : Z.min h (upper_high_boundary v) <= upper_high v
}.

Definition vs_memory (s : os_state) (v : VirtualSpace) : Prop :=
  if special v then forall p, low_boundary v <= p < high_boundary v -> committed s p = true
  else vs_marks v /\ forall p, accounted v p -> committed s p = true.

Record vs_inv (s : os_state) (v : VirtualSpace) : Prop := {
  i_geom : vs_geom v;
  i_high : low_boundary v <= high v <= high_boundary v;
  i_memory : vs_memory s v;
  i_covers : special v = false -> vs_covers v (high v)
}.

(** The same up to an address only: what is left when the system has refused to uncommit a part of what a shrinking gave up. *)
Record vs_upto (s : os_state) (v : VirtualSpace) (c : Z) : Prop := {
  u_geom : vs_geom v;
  u_high : low_boundary v <= high v <= high_boundary v;
  u_memory : vs_memory s v;
  u_bound : low_boundary v <= c <= high v;
  u_covers : special v = false -> vs_covers v c
}.

Lemma vs_inv_upto s v : vs_inv s v <-> vs_upto s v (high v).
Proof using Type. split; intros []; split; try done; lia. Qed.

(** The page of its region that an address is in, and whether it starts below [h]. *)
Definition region_alignment (v : VirtualSpace) (p : Z) : Z :=
  if p <? lower_high_boundary v then lower_alignment v
  else if p <? middle_high_boundary v then middle_alignment v else upper_alignment v.
Definition page_needed (v : VirtualSpace) (h p : Z) : Prop :=
  low_boundary v <= p < high_boundary v /\ p - p mod region_alignment v p < h.

(** What the operations keep. *)
Definition same_range (v v' : VirtualSpace) : Prop :=
  low v' = low v /\ low_boundary v' = low_boundary v /\ high_boundary v' = high_boundary v /\
  special v' = special v.

Lemma page_pos : 0 < vm_page_size.
Proof using L. rewrite vm_page_size_eq. pose proof page_bits_range. apply pow2_pos. lia. Qed.

Lemma middle_pos v : vs_geom v -> 0 < middle_alignment v.
Proof using L.
  intros [_ _ _ _ (k & Hk & ->) _ _ _ _ _ _]. pose proof page_bits_range. apply pow2_pos. lia.
Qed.

(** A boundary of the middle region is a multiple of a page. *)
Lemma middle_page v x : vs_geom v -> (middle_alignment v | x) -> (vm_page_size | x).
Proof using L.
  intros [_ _ _ _ (k & Hk & ->) _ _ _ _ _ _] Hx. rewrite vm_page_size_eq. etransitivity; [|done].
  exists (2 ^ (k - page_bits)). rewrite <- Z.pow_add_r by (pose proof page_bits_range; lia).
  f_equal. lia.
Qed.

Lemma accounted_high v c p : vs_geom v -> vs_covers v c ->
  low_boundary v <= p < c -> c <= high_boundary v -> accounted v p.
Proof using Type.
  intros [_ _ _ _ _ _ _ _ _ ? Hu] [] Hp Hh. rewrite Hu in *. unfold accounted.
  destruct (Z.lt_ge_cases p (lower_high_boundary v)); [left; lia|].
  destruct (Z.lt_ge_cases p (middle_high_boundary v)); right; [left; lia|right; lia].
Qed.

(** Everything below the high end is committed. *)
Lemma upto_committed s v c p : vs_upto s v c -> low v <= p < c -> committed s p = true.
Proof using Type.
  intros [G Hh Hm Hb Hc] Hp. rewrite (g_low_eq _ G) in Hp. unfold vs_memory in Hm.
  destruct (special v); [apply Hm; lia|]. destruct Hm as [_ Hm]. apply Hm.
  apply (accounted_high v c); [done|by apply Hc|lia|lia].
Qed.

Lemma vs_committed s v p : vs_inv s v -> low v <= p < high v -> committed s p = true.
Proof using Type. intros I%vs_inv_upto. by apply upto_committed. Qed.

Lemma sizes_eq v : vs_geom v -> low_boundary v <= high v <= high_boundary v ->
  committed_size v = high v - low v /\ reserved_size v = high_boundary v - low_boundary v /\
  uncommitted_size v = high_boundary v - high v.
Proof using Type.
  intros G Hh. destruct G as [? Hb Heq _ _ _ _ _ _ _ _].
  unfold uncommitted_size, committed_size, reserved_size, pointer_delta. rewrite !Z.div_1_r, Heq.
  rewrite !(uwrap_small 64 ltac:(lia)) by (unfold in_u; rewrite ?(uwrap_small 64 ltac:(lia)) by (unfold in_u; lia); lia).
  lia.
Qed.

(** ** Committing *)

Lemma needs_up_eq a h : 0 <= h -> 0 <= a < 2 ^ 63 -> needs_up a h = Z.max 0 (a - h).
Proof using Type.
  intros. unfold needs_up, pointer_delta. zcases. rewrite Z.div_1_r, uwrap_small; unfold in_u; lia.
Qed.
Lemma needs_down_eq a h : 0 <= a -> 0 <= h < 2 ^ 63 -> needs_down a h = Z.max 0 (h - a).
Proof using Type.
  intros. unfold needs_down, pointer_delta. zcases. rewrite Z.div_1_r, uwrap_small; unfold in_u; lia.
Qed.

(** A system that refuses no commit, or no uncommit. *)
Definition willing : Prop := forall a n al x s, (commit_memory a n al x s).1 = true.
Definition uncommit_willing : Prop := forall a n s, (uncommit_memory a n s).1 = true.

Lemma when_needed_commit n a al x s : 0 <= n -> exists ok s',
  when_needed n (commit_memory a n al x) s = Some (ok, s') /\
  (willing -> ok = true) /\ (forall p, reserved s' p = reserved s p) /\
  forall p, committed s' p = committed s p || in_range a (if ok then n else 0) p.
Proof using L.
  intros Hn. unfold when_needed, call. destruct (Z.ltb_spec 0 n) as [Hp|].
  - destruct (commit_memory a n al x s) as [ok s'] eqn:E. exists ok, s'. split; [done|].
    split; [intros Hw; specialize (Hw a n al x s); by rewrite E in Hw|].
    split; [by eapply commit_reserved|]. intros p. destruct ok; [by eapply commit_ok|].
    rewrite in_range_0, orb_false_r. by eapply commit_failed.
  - exists true, s. split_and!; [done..|]. intros p. assert (n = 0) as -> by lia.
    by rewrite in_range_0, orb_false_r.
Qed.

Lemma when_needed_uncommit n a s : 0 <= n -> exists ok s',
  when_needed n (uncommit_memory a n) s = Some (ok, s') /\
  (uncommit_willing -> ok = true) /\
  forall p, committed s' p = committed s p && negb (in_range a (if ok then n else 0) p).
Proof using L.
  intros Hn. unfold when_needed, call. destruct (Z.ltb_spec 0 n) as [Hp|].
  - destruct (uncommit_memory a n s) as [ok s'] eqn:E. exists ok, s'. split; [done|].
    split; [intros Hw; specialize (Hw a n s); by rewrite E in Hw|].
    intros p. destruct ok; [by eapply uncommit_ok|].
    rewrite in_range_0, andb_true_r. by eapply uncommit_failed.
  - exists true, s. split_and!; [done..|]. intros p. assert (n = 0) as -> by lia.
    by rewrite in_range_0, andb_true_r.
Qed.

Lemma set_highs_id v : set_highs v (lower_high v) (middle_high v) (upper_high v) = v.
Proof using Type. by destruct v. Qed.

Lemma commit_regions_spec v ln mn un s : 0 <= ln -> 0 <= mn -> 0 <= un ->
  exists l m u ok s',
    commit_regions v ln mn un s = Some (set_highs v l m u, ok, s') /\
    lower_high v <= l <= lower_high v + ln /\ middle_high v <= m <= middle_high v + mn /\
    upper_high v <= u <= upper_high v + un /\
    (willing -> ok = true) /\ (forall p, reserved s' p = reserved s p) /\
    (ok = true -> l = lower_high v + ln /\ m = middle_high v + mn /\ u = upper_high v + un) /\
    forall p, committed s' p = true <->
      committed s p = true \/ lower_high v <= p < l \/ middle_high v <= p < m \/
      upper_high v <= p < u.
Proof using L.
  intros Hl Hm Hu. unfold commit_regions.
  destruct (when_needed_commit ln (lower_high v) 0 (executable v) s Hl) as ([] & s1 & E1 & W1 & V1 & C1);
    rewrite (sbind_Some _ _ _ _ _ E1); cbn [negb].
  2: { exists (lower_high v), (middle_high v), (upper_high v), false, s1.
       rewrite set_highs_id. split_and!; try done; try lia.
       intros p. rewrite C1, in_range_0, orb_false_r. intuition lia. }
  destruct (when_needed_commit mn (middle_high v) (middle_alignment v) (executable v) s1 Hm)
    as ([] & s2 & E2 & W2 & V2 & C2); unfold add_lower at 1 2 3; cbn [set_highs middle_high middle_alignment executable];
    rewrite (sbind_Some _ _ _ _ _ E2); cbn [negb].
  2: { exists (lower_high v + ln), (middle_high v), (upper_high v), false, s2.
       split_and!; try done; try lia; [intros p; by rewrite V2|].
       intros p. rewrite C2, C1, in_range_0, !orb_false_r, orb_true_iff, in_range_iff. intuition lia. }
  destruct (when_needed_commit un (upper_high v) 0 (executable v) s2 Hu)
    as ([] & s3 & E3 & W3 & V3 & C3); unfold add_lower, add_middle; cbn [set_highs upper_high executable middle_high lower_high];
    rewrite (sbind_Some _ _ _ _ _ E3); cbn [negb].
  2: { exists (lower_high v + ln), (middle_high v + mn), (upper_high v), false, s3.
       split_and!; try done; try lia; [intros p; by rewrite V3, V2|].
       intros p. rewrite C3, C2, C1, in_range_0, !orb_false_r, !orb_true_iff, !in_range_iff. intuition lia. }
  exists (lower_high v + ln), (middle_high v + mn), (upper_high v + un), true, s3.
  split_and!; try done; try lia; [intros p; by rewrite V3, V2|].
  intros p. rewrite C3, C2, C1, !orb_true_iff, !in_range_iff. intuition lia.
Qed.

Lemma touch_pages_ok n curr to step s : 0 < step -> Z.max 0 (to - curr) < Z.of_nat n ->
  (forall p, curr <= p < to -> committed s p = true) -> touch_pages n curr to step s = Some (tt, s).
Proof using Type.
  revert curr. induction n as [|n IH]; intros curr Hs Hn Hc; cbn [touch_pages].
  - lia.
  - destruct (Z.ltb_spec curr to); [|done]. unfold sbind at 1, store_byte.
    rewrite Hc by lia. cbn. apply IH; [done|lia|]. intros p Hp. apply Hc. lia.
Qed.

(** ** Expanding *)

(** The aligned ends of the three regions for a new high end. *)
Lemma aligned_highs v h : vs_geom v -> low_boundary v <= h <= high_boundary v ->
  let l := round_to (MIN2 h (lower_high_boundary v)) (lower_alignment v) in
  let m := round_to (MIN2 h (middle_high_boundary v)) (middle_alignment v) in
  let u := round_to (MIN2 h (upper_high_boundary v)) (upper_alignment v) in
  Z.min h (lower_high_boundary v) <= l <= lower_high_boundary v /\
  Z.min h (middle_high_boundary v) <= m <= middle_high_boundary v /\
  Z.min h (upper_high_boundary v) <= u <= upper_high_boundary v.
Proof using L.
  intros G Hh l m u. pose proof (middle_page v _ G (g_div_lower v G)) as Hpl.
  pose proof (g_div_high v G) as Hpu. pose proof (g_div_middle v G) as Hm.
  pose proof page_bits_range. destruct G as [? ? ? [El Eu] (k & Hk & Em) _ _ _ _ ? Eb].
  assert (EM : forall a b, MIN2 a b = Z.min a b) by (intros; unfold MIN2; zcases).
  subst l m u. rewrite !EM, El, Eu, Em, vm_page_size_eq in *. rewrite Eb.
  split_and!; try (apply round_to_spec; lia); apply round_to_le; first [done|lia].
Qed.

Lemma below_aligned k x p : 0 <= k < 62 -> 0 <= x <= 2 ^ 62 -> p - p mod 2 ^ k < x <-> p < round_to x (2 ^ k).
Proof using Type.
  intros Hk Hx. destruct (round_to_spec k Hk x Hx) as [[q Hq] Hr]. pose proof (pow2_pos k ltac:(lia)).
  pose proof (Z.div_mod p (2 ^ k) ltac:(lia)). pose proof (Z.mod_pos_bound p (2 ^ k) ltac:(lia)).
  set (a := 2 ^ k) in *. set (d := p / a) in *. rewrite Hq in *. split; intros Hp.
  - assert (d < q) by nia. assert (a * (d + 1) <= q * a) by nia. lia.
  - assert (d < q) by nia. assert (a * (d + 1) <= q * a) by nia. lia.
Qed.

(** The pages needed are those the aligned ends enclose. *)
Lemma page_needed_iff v h p : vs_geom v -> low_boundary v <= h <= high_boundary v ->
  page_needed v h p <->
  low_boundary v <= p < round_to (MIN2 h (lower_high_boundary v)) (lower_alignment v) \/
  lower_high_boundary v <= p < round_to (MIN2 h (middle_high_boundary v)) (middle_alignment v) \/
  middle_high_boundary v <= p < round_to (MIN2 h (upper_high_boundary v)) (upper_alignment v).
Proof using L.
  intros G Hh. destruct (aligned_highs v h G Hh) as (A1 & A2 & A3). pose proof page_bits_range.
  assert (EM : forall a b, MIN2 a b = Z.min a b) by (intros; unfold MIN2; zcases).
  destruct G as [? ? ? [El Eu] (k & Hk & Em) _ _ _ _ ? Eb]. unfold page_needed, region_alignment.
  assert (Hmod : forall x, 0 <= x < 62 -> 0 <= p mod 2 ^ x) by (intros x Hx; apply Z.mod_pos_bound, pow2_pos; lia).
  rewrite !EM, El, Eu, Em, vm_page_size_eq, Eb in *. clear El Eu Em.
  set (b := page_bits) in *. pose proof (Hmod k ltac:(lia)). pose proof (Hmod b ltac:(lia)). clear Hmod.
  pose proof (below_aligned b (Z.min h (lower_high_boundary v)) p ltac:(lia) ltac:(lia)).
  pose proof (below_aligned k (Z.min h (middle_high_boundary v)) p ltac:(lia) ltac:(lia)).
  pose proof (below_aligned b (Z.min h (high_boundary v)) p ltac:(lia) ltac:(lia)).
  destruct (Z.ltb_spec p (lower_high_boundary v)); [lia|].
  destruct (Z.ltb_spec p (middle_high_boundary v)); lia.
Qed.

(** Marks moved up to the aligned ends of a new high end stay in their regions. *)
Lemma expanded_marks v h l m u : vs_geom v -> low_boundary v <= h <= high_boundary v ->
  vs_marks v ->
  let al := round_to (MIN2 h (lower_high_boundary v)) (lower_alignment v) in
  let am := round_to (MIN2 h (middle_high_boundary v)) (middle_alignment v) in
  let au := round_to (MIN2 h (upper_high_boundary v)) (upper_alignment v) in
  lower_high v <= l <= Z.max (lower_high v) al -> middle_high v <= m <= Z.max (middle_high v) am ->
  upper_high v <= u <= Z.max (upper_high v) au ->
  vs_marks (set_highs v l m u) /\
  (l = Z.max (lower_high v) al -> m = Z.max (middle_high v) am -> u = Z.max (upper_high v) au ->
   vs_covers (set_highs v l m u) h).
Proof using L.
  intros G Hh [] al am au Hl Hm Hu. destruct (aligned_highs v h G Hh) as (A1 & A2 & A3).
  fold al am au in A1, A2, A3. split; [|intros ?]; split; cbn; lia.
Qed.

(** Fewer marks than the high end asks for are enough for a lower one. *)
Lemma covers_mono v h l m u : vs_covers v h -> lower_high v <= l -> middle_high v <= m ->
  upper_high v <= u -> vs_covers (set_highs v l m u) h.
Proof using Type. intros [] ? ? ?. split; cbn; lia. Qed.

Lemma vs_geom_set v l m u h : vs_geom v -> vs_geom (set_high (set_highs v l m u) h).
Proof using Type. intros []. by split. Qed.

Lemma expand_regions_spec s v c h : vs_upto s v c -> special v = false -> high v <= h <= high_boundary v ->
  let al := round_to (MIN2 h (lower_high_boundary v)) (lower_alignment v) in
  let am := round_to (MIN2 h (middle_high_boundary v)) (middle_alignment v) in
  let au := round_to (MIN2 h (upper_high_boundary v)) (upper_alignment v) in
  exists l m u ok s',
    commit_regions v (needs_up al (lower_high v)) (needs_up am (middle_high v))
      (needs_up au (upper_high v)) s = Some (set_highs v l m u, ok, s') /\
    vs_upto s' (set_highs v l m u) c /\ (willing -> ok = true) /\
    (ok = true -> vs_upto s' (set_high (set_highs v l m u) h) h) /\
    (forall p, committed s p = true -> committed s' p = true) /\
    (forall p, reserved s' p = reserved s p) /\
    (forall p, committed s' p = true -> committed s p = true \/ page_needed v h p) /\
    (ok = true -> forall p, page_needed v h p -> committed s' p = true).
Proof using L.
  intros [G Hh Hmem Hcb Hc] Hs Hb al am au. unfold vs_memory in Hmem. rewrite Hs in Hmem.
  destruct Hmem as [Hm Hacc]. specialize (Hc Hs).
  destruct (aligned_highs v h G ltac:(lia)) as (A1 & A2 & A3). fold al am au in A1, A2, A3.
  pose proof (g_low v G). pose proof (g_bound v G). pose proof (g_order v G).
  pose proof (g_upper v G). destruct Hm as [M1 M2 M3]. pose proof (Build_vs_marks _ M1 M2 M3) as Hm.
  destruct (commit_regions_spec v (needs_up al (lower_high v)) (needs_up am (middle_high v))
              (needs_up au (upper_high v)) s) as (l & m & u & ok & s' & E & Hl & Hmm & Hu & Hw & Hres & Hok & Hcom);
    [rewrite needs_up_eq by lia; lia..|].
  rewrite !needs_up_eq in * by lia.
  destruct (expanded_marks v h l m u G ltac:(lia) Hm) as [Hm' Hc']; fold al am au; [lia..|].
  fold al am au in Hc'.
  assert (Hacc' : forall p, accounted (set_highs v l m u) p -> committed s' p = true).
  { intros p Hp. apply Hcom. unfold accounted in Hp. cbn in Hp.
    assert (accounted v p \/ lower_high v <= p < l \/ middle_high v <= p < m \/
            upper_high v <= p < u) as [Ha|Ha] by (unfold accounted; lia); [left; by apply Hacc|by right]. }
  exists l, m, u, ok, s'. split; [done|]. split_and!.
  - split; [by apply (vs_geom_set v l m u (high v))|done| |done|].
    + unfold vs_memory. cbn. rewrite Hs. by split.
    + intros _. apply covers_mono; [done|lia..].
  - done.
  - intros ->. destruct (Hok eq_refl) as (-> & -> & ->).
    split; [by apply vs_geom_set|cbn; lia| |cbn; lia|].
    + unfold vs_memory. cbn. rewrite Hs. destruct Hm'. by split.
    + intros _. cbn. destruct Hc' as [C1 C2 C3]; [lia..|]. by split.
  - intros p Hp. apply Hcom. by left.
  - done.
  - intros p [Hp|Hp]%Hcom; [by left|right]. apply page_needed_iff; [done|lia|]. fold al am au. lia.
  - intros -> p Hp. destruct (Hok eq_refl) as (-> & -> & ->). apply page_needed_iff in Hp; [|done|lia]. fold al am au in Hp.
    apply Hacc'. unfold accounted. cbn. lia.
Qed.

(** The functional behaviour of [expand_by] on every branch. *)
Lemma expand_by_upto v c bytes pre_touch s : vs_upto s v c -> 0 <= bytes ->
  exists v' ok s',
    expand_by v bytes pre_touch s = Some (v', ok, s') /\
    vs_upto s' v' (if ok then high v' else c) /\ same_range v v' /\ high v' = (if ok then high v + bytes else high v) /\
    (uncommitted_size v < bytes -> ok = false) /\
    (bytes <= uncommitted_size v -> willing -> ok = true) /\
    (forall p, committed s p = true -> committed s' p = true) /\
    (forall p, reserved s' p = reserved s p) /\
    (forall p, committed s' p = true -> committed s p = true \/ page_needed v (high v + bytes) p) /\
    (ok = true -> forall p, page_needed v (high v + bytes) p -> committed s' p = true).
Proof using L.
  intros I Hb. pose proof I as [G Hh Hmem Hcb Hc]. destruct (sizes_eq v G Hh) as (_ & _ & Hun).
  unfold expand_by. destruct (Z.ltb_spec (uncommitted_size v) bytes) as [Hlt|Hge].
  { exists v, false, s. split_and!; try done; [lia|]. intros p Hp. by left. }
  destruct (special v) eqn:Hs.
  { exists (set_high v (high v + bytes)), true, s. unfold vs_memory in Hmem. rewrite Hs in Hmem.
    split_and!; try done; try lia; [|intros p Hp; by left|intros _ p [Hp _]; by apply Hmem].
    split; [by destruct G|cbn; lia| |cbn; lia|by cbn; rewrite Hs]. unfold vs_memory. cbn. by rewrite Hs. }
  destruct (expand_regions_spec s v c (high v + bytes) I Hs ltac:(lia))
    as (l & m & u & ok & s' & E & I' & Hw & Hok & Hmono & Hres & Hframe & Hneeded).
  rewrite (sbind_Some _ _ _ _ _ E). destruct ok; cbn [negb].
  - specialize (Hok eq_refl). exists (set_high (set_highs v l m u) (high v + bytes)), true, s'.
    split; [|split_and!; try done; lia].
    assert (Ht : (if pre_touch || AlwaysPreTouch
                  then touch_pages (touch_fuel bytes) (high v) (high v + bytes) vm_page_size
                  else sret tt) s' = Some (tt, s')).
    { destruct (_ || _); [|done]. apply touch_pages_ok; [apply page_pos|unfold touch_fuel; lia|].
      intros p Hp. apply (upto_committed _ _ _ p Hok). cbn. rewrite (g_low_eq v G). lia. }
    by rewrite (sbind_Some _ _ _ _ _ Ht).
  - exists (set_highs v l m u), false, s'. split_and!; try done; lia.
Qed.

Lemma expand_by_ok v bytes pre_touch s : vs_inv s v -> 0 <= bytes ->
  exists v' ok s',
    expand_by v bytes pre_touch s = Some (v', ok, s') /\
    vs_inv s' v' /\ same_range v v' /\ high v' = (if ok then high v + bytes else high v) /\
    (uncommitted_size v < bytes -> ok = false) /\
    (bytes <= uncommitted_size v -> willing -> ok = true) /\
    (forall p, committed s p = true -> committed s' p = true) /\
    (forall p, reserved s' p = reserved s p) /\
    (forall p, committed s' p = true ->
       committed s p = true \/ low_boundary v <= p < high_boundary v).
Proof using L.
  intros I%vs_inv_upto Hb. destruct (expand_by_upto v (high v) bytes pre_touch s I Hb)
    as (v' & ok & s' & E & I' & Hr & Hh & Hno & Hy & Hm & Hres & Hf & _).
  exists v', ok, s'. split_and!; try done; [|intros p Hp; destruct (Hf p Hp) as [|[? _]]; [by left|by right]].
  apply vs_inv_upto. destruct ok; [done|]. by rewrite Hh.
Qed.

(** ** Shrinking *)

Lemma uncommit_regions_spec v au am al un mn ln s : 0 <= ln -> 0 <= mn -> 0 <= un ->
  (0 < un -> au + un = upper_high v) -> (0 < mn -> am + mn = middle_high v) ->
  (0 < ln -> al + ln = lower_high v) ->
  exists l m u ok s',
    uncommit_regions v au am al un mn ln s = Some (set_highs v l m u, ok, s') /\
    lower_high v - ln <= l <= lower_high v /\ middle_high v - mn <= m <= middle_high v /\
    upper_high v - un <= u <= upper_high v /\ (uncommit_willing -> ok = true) /\
    (ok = true -> l = lower_high v - ln /\ m = middle_high v - mn /\ u = upper_high v - un) /\
    forall p, committed s' p = true <->
      committed s p = true /\ ~ (l <= p < lower_high v) /\
      ~ (m <= p < middle_high v) /\ ~ (u <= p < upper_high v).
Proof using L.
  intros Hl Hm Hu Eu Em El. unfold uncommit_regions.
  destruct (when_needed_uncommit un au s Hu) as ([] & s1 & E1 & W1 & C1);
    rewrite (sbind_Some _ _ _ _ _ E1); cbn [negb].
  2: { exists (lower_high v), (middle_high v), (upper_high v), false, s1.
       rewrite set_highs_id. split_and!; try done; try lia.
       intros p. rewrite C1, in_range_0, andb_true_r. intuition lia. }
  destruct (when_needed_uncommit mn am s1 Hm) as ([] & s2 & E2 & W2 & C2);
    rewrite (sbind_Some _ _ _ _ _ E2); cbn [negb].
  2: { exists (lower_high v), (middle_high v), (upper_high v - un), false, s2.
       split_and!; try done; try lia. intros p.
       rewrite C2, C1, in_range_0, !andb_true_iff, !negb_true_iff, <- !not_true_iff_false, in_range_iff.
       intuition lia. }
  destruct (when_needed_uncommit ln al s2 Hl) as ([] & s3 & E3 & W3 & C3);
    rewrite (sbind_Some _ _ _ _ _ E3); cbn [negb].
  2: { exists (lower_high v), (middle_high v - mn), (upper_high v - un), false, s3.
       split_and!; try done; try lia. intros p.
       rewrite C3, C2, C1, in_range_0, !andb_true_iff, !negb_true_iff, <- !not_true_iff_false, !in_range_iff.
       intuition lia. }
  exists (lower_high v - ln), (middle_high v - mn), (upper_high v - un), true, s3.
  split_and!; try done; try lia. intros p.
  rewrite C3, C2, C1, !andb_true_iff, !negb_true_iff, <- !not_true_iff_false, !in_range_iff.
  intuition lia.
Qed.

(** The aligned ends of the regions that shrink. *)
Lemma shrunk_highs v h : vs_geom v -> low_boundary v <= h <= high_boundary v ->
  let u := round_to (MAX2 h (middle_high_boundary v)) (upper_alignment v) in
  let m := round_to (MAX2 h (lower_high_boundary v)) (middle_alignment v) in
  let l := round_to (MAX2 h (low_boundary v)) (lower_alignment v) in
  Z.max h (middle_high_boundary v) <= u < 2 ^ 63 /\
  Z.max h (lower_high_boundary v) <= m < 2 ^ 63 /\ Z.max h (low_boundary v) <= l < 2 ^ 63.
Proof using L.
  intros G Hh u m l. pose proof page_bits_range.
  destruct G as [? ? ? [El Eu] (k & Hk & Em) _ _ _ _ ? Eb].
  assert (EM : forall a b, MAX2 a b = Z.max a b) by (intros; unfold MAX2; zcases).
  subst u m l. rewrite !EM, El, Eu, Em, vm_page_size_eq in *.
  assert (2 ^ k <= 2 ^ 61) by (apply Z.pow_le_mono_r; lia).
  assert (2 ^ page_bits <= 2 ^ 61) by (apply Z.pow_le_mono_r; lia).
  assert (Hpb : 0 <= page_bits < 62) by lia.
  pose proof (round_to_spec page_bits Hpb (Z.max h (middle_high_boundary v)) ltac:(lia)).
  pose proof (round_to_spec k ltac:(lia) (Z.max h (lower_high_boundary v)) ltac:(lia)).
  pose proof (round_to_spec page_bits Hpb (Z.max h (low_boundary v)) ltac:(lia)).
  lia.
Qed.

(** Marks moved down to the aligned ends of a lower high end stay in their regions. *)
Lemma shrunk_marks v au am al l m u :
  vs_marks v -> middle_high_boundary v <= au -> lower_high_boundary v <= am ->
  low_boundary v <= al ->
  lower_high v - Z.max 0 (lower_high v - al) <= l <= lower_high v ->
  middle_high v - Z.max 0 (middle_high v - am) <= m <= middle_high v ->
  upper_high v - Z.max 0 (upper_high v - au) <= u <= upper_high v ->
  vs_marks (set_highs v l m u).
Proof using Type. intros [] ? ? ? ? ? ?. split; cbn; lia. Qed.

(** They account for less, outside of what is uncommitted. *)
Lemma shrunk_accounted v l m u p :
  vs_geom v -> vs_marks v -> vs_marks (set_highs v l m u) -> l <= lower_high v ->
  m <= middle_high v -> u <= upper_high v -> accounted (set_highs v l m u) p ->
  accounted v p /\ ~ (l <= p < lower_high v) /\ ~ (m <= p < middle_high v) /\
  ~ (u <= p < upper_high v).
Proof using Type.
  intros [_ _ _ _ _ _ _ _ _ ? Hu] [] [] ? ? ?. unfold accounted. cbn in *. lia.
Qed.

(** What they still cover. *)
Lemma shrunk_covers v c h au am al l m u : vs_covers v c -> h <= au -> h <= am -> h <= al ->
  lower_high v - Z.max 0 (lower_high v - al) <= l -> middle_high v - Z.max 0 (middle_high v - am) <= m ->
  upper_high v - Z.max 0 (upper_high v - au) <= u -> vs_covers (set_highs v l m u) (Z.min c h).
Proof using Type. intros [] ? ? ? ? ? ?. split; cbn; lia. Qed.

Lemma shrink_regions_spec s v c h : vs_upto s v c -> special v = false -> low_boundary v <= h <= high v ->
  let au := round_to (MAX2 h (middle_high_boundary v)) (upper_alignment v) in
  let am := round_to (MAX2 h (lower_high_boundary v)) (middle_alignment v) in
  let al := round_to (MAX2 h (low_boundary v)) (lower_alignment v) in
  exists l m u ok s',
    uncommit_regions v au am al (needs_down au (upper_high v)) (needs_down am (middle_high v))
      (needs_down al (lower_high v)) s = Some (set_highs v l m u, ok, s') /\
    vs_memory s' (set_highs v l m u) /\ (uncommit_willing -> ok = true) /\
    vs_covers (set_highs v l m u) (Z.min c h) /\
    (forall p, committed s' p = true -> committed s p = true) /\
    (forall p, committed s p = true -> p < h \/ high_boundary v <= p -> committed s' p = true).
Proof using L.
  intros [G Hh Hmem Hcb Hc] Hs Hb au am al. unfold vs_memory in Hmem. rewrite Hs in Hmem.
  destruct Hmem as [Hm Hacc]. specialize (Hc Hs). pose proof Hm as [M1 M2 M3].
  destruct (shrunk_highs v h G ltac:(lia)) as (A1 & A2 & A3). fold au am al in A1, A2, A3.
  pose proof (g_low v G). pose proof (g_bound v G). pose proof (g_order v G).
  pose proof (g_upper v G). clearbody au am al.
  rewrite !needs_down_eq by lia.
  destruct (uncommit_regions_spec v au am al (Z.max 0 (upper_high v - au))
     (Z.max 0 (middle_high v - am)) (Z.max 0 (lower_high v - al)) s)
    as (l & m & u & ok & s' & E & Hl & Hmm & Hu & Hw & Hok & Hcom); [lia..|].
  assert (Hm' : vs_marks (set_highs v l m u)) by (apply (shrunk_marks v au am al); first [done|lia]).
  exists l, m, u, ok, s'. split_and!; try done.
  - unfold vs_memory. cbn. rewrite Hs. split; [done|].
    intros p Hp. apply shrunk_accounted in Hp as (Ha & ?); [|first [done|lia]..].
    apply Hcom. split; [by apply Hacc|lia].
  - apply (shrunk_covers v c h au am al); first [done|lia].
  - intros p Hp. by apply Hcom.
  - intros p Hp Ho. apply Hcom. split; [done|]. lia.
Qed.

(** Whether the system uncommits everything or refuses on the way, everything below the new end stays covered. *)
Lemma shrink_by_upto v c size s : vs_upto s v c -> 0 <= size <= committed_size v ->
  exists v' s',
    shrink_by v size s = Some (v', s') /\ same_range v v' /\ vs_upto s' v' (Z.min c (high v - size)) /\
    (high v' = high v \/ high v' = high v - size) /\ (uncommit_willing -> high v' = high v - size) /\
    (forall p, committed s' p = true -> committed s p = true) /\
    (forall p, committed s p = true -> p < high v - size \/ high_boundary v <= p ->
       committed s' p = true).
Proof using L.
  intros I Hb. pose proof I as [G Hh Hmem Hcb Hc]. destruct (sizes_eq v G Hh) as (Hcs & _ & _).
  pose proof (g_low_eq v G). unfold shrink_by.
  destruct (Z.ltb_spec (committed_size v) size); [lia|].
  destruct (special v) eqn:Hs.
  { exists (set_high v (high v - size)), s. split_and!; try done; try by right.
    split; [by destruct G|cbn; lia| |cbn; lia|by cbn; rewrite Hs].
    unfold vs_memory in *. cbn. by rewrite Hs in *. }
  destruct (shrink_regions_spec s v c (high v - size) I Hs ltac:(lia))
    as (l & m & u & ok & s' & E & Hmem' & Hw & Hcov & Hc1 & Hc2).
  rewrite (sbind_Some _ _ _ _ _ E). destruct ok; cbn [negb].
  - exists (set_high (set_highs v l m u) (high v - size)), s'. split_and!; try done; [|by right].
    split; [by apply vs_geom_set|cbn; lia| |cbn; lia|intros _; by destruct Hcov].
    unfold vs_memory in *. cbn in *. rewrite Hs in *. destruct Hmem' as [[? ? ?] ?]. by split.
  - exists (set_highs v l m u), s'. split_and!; try done; [|by left|intros Hwill; by specialize (Hw Hwill)].
    split; [by apply (vs_geom_set v l m u (high v))|done|done|cbn; lia|done].
Qed.

(** ** Initializing *)

(** What a reserved space must satisfy: whole pages within the address space, and
    committed if it is special. *)
Record rs_ok (s : os_state) (rs : ReservedSpace) : Prop := {
  rs_base_ok : 0 < base rs /\ (vm_page_size | base rs);
  rs_size_ok : 0 < rs_size rs /\ (vm_page_size | rs_size rs) /\ base rs + rs_size rs <= 2 ^ 62;
  rs_special_ok : rs_special rs = true ->
    forall p, base rs <= p < base rs + rs_size rs -> committed s p = true
}.

Lemma initialize_ok rs c s : rs_ok s rs -> 0 <= c ->
  exists v ok s',
    initialize rs c s = Some (v, ok, s') /\ vs_inv s' v /\
    low v = base rs /\ high_boundary v = base rs + rs_size rs /\ special v = rs_special rs /\
    committed_size v = (if ok then c else 0) /\ (rs_size rs < c -> ok = false) /\
    (c <= rs_size rs -> willing -> ok = true) /\
    (forall p, committed s p = true -> committed s' p = true) /\
    (forall p, reserved s' p = reserved s p) /\
    (forall p, committed s' p = true ->
       committed s p = true \/ base rs <= p < base rs + rs_size rs).
Proof using L.
  intros [[Hb Hdb] (Hs & Hds & Hmax) Hsp] Hc. unfold initialize, is_reserved.
  destruct (Z.eqb_spec (base rs) 0); [lia|]. cbn [negb].
  destruct (page_size_for_region_spec (rs_size rs) (rs_size rs) 1) as (k & -> & Hk & Hks'); [lia|].
  specialize (Hks' Hs eq_refl Hds) as Hks. cbn [mbind option_bind].
  assert (Hk' : 0 <= k < 62) by (pose proof page_bits_range; lia).
  destruct (round_to_spec k Hk' (base rs) ltac:(lia)) as [Hd1 Hr1].
  destruct (round_down_spec k Hk' (base rs + rs_size rs) ltac:(lia)) as [Hd2 Hr2].
  assert (Hle : round_to (base rs) (2 ^ k) <= round_down (base rs + rs_size rs) (2 ^ k)).
  { apply round_down_ge; [done|lia|lia|done]. }
  match goal with |- context [expand_by ?x _ _] => set (v0 := x) end.
  assert (I : vs_inv s v0).
  { split.
    - split; cbn; try done; try lia; [exists k; split; [lia|done]|by apply Z.divide_add_r].
    - cbn. lia.
    - unfold vs_memory. cbn. destruct (rs_special rs); [by apply Hsp|].
      split; [split; cbn; lia|]. unfold accounted. cbn. lia.
    - intros _. split; cbn; lia. }
  destruct (sizes_eq v0 (i_geom _ _ I) (i_high _ _ I)) as (Hc0 & _ & Hun). cbn in Hc0, Hun.
  destruct (Z.ltb_spec 0 c).
  - destruct (expand_by_ok v0 c false s I Hc) as (v & ok & s' & E & I' & Hsame & Hh & Hno & Hyes & Hmono & Hres & Hfr).
    rewrite (sbind_Some _ _ _ _ _ E). destruct Hsame as (Hlow & _ & Hhb & Hspv).
    destruct (sizes_eq v (i_geom _ _ I') (i_high _ _ I')) as (Hcv & _ & _).
    exists v, ok, s'. split; [by destruct ok|]. cbn in Hlow, Hhb, Hspv, Hh.
    split_and!; try done; [|intros; apply Hno; lia|intros; apply Hyes; [lia|done]].
    rewrite Hcv, Hh, Hlow. destruct ok; lia.
  - exists v0, true, s. split_and!; try done; [rewrite Hc0; lia|lia|]. intros p Hp. by left.
Qed.
End Invariant.

(* ------------------------------------------------------------------ *)
(** ** Theorems *)

Section Theorems.
Context `{L : OS_laws}.

(** What happens to a virtual space: it expands, successfully or not; it shrinks, even if the system
    refuses to uncommit something; and everything else the process does leaves its range alone.  The number is
    the address below which the history says that everything is committed: a successful expansion makes it
    the high end, a shrinking lowers it to the end it was asked for. *)
Inductive vs_step : os_state * VirtualSpace * Z -> os_state * VirtualSpace * Z -> Prop :=
  | step_expand s v c bytes pre_touch v' ok s' :
      0 <= bytes -> expand_by v bytes pre_touch s = Some (v', ok, s') -> vs_step (s, v, c) (s', v', if ok then high v' else c)
  | step_shrink s v c size v' s' :
      0 <= size -> shrink_by v size s = Some (v', s') -> vs_step (s, v, c) (s', v', Z.min c (high v - size))
  | step_elsewhere s s' v c :
      (forall p, low_boundary v <= p < high_boundary v -> committed s' p = committed s p) ->
      vs_step (s, v, c) (s', v, c).

Lemma vs_inv_mono s s' v : vs_inv s v ->
  (forall p, low_boundary v <= p < high_boundary v -> committed s p = true -> committed s' p = true) ->
  vs_inv s' v.
Proof using Type.
  intros [G Hh Hm Hc] He. split; try done. pose proof (g_order v G). pose proof (g_upper v G).
  unfold vs_memory in *. destruct (special v).
  - intros p Hp. apply He; [done|by apply Hm].
  - destruct Hm as [Hmk Hm]. split; [done|]. intros p Hp. apply He; [|by apply Hm].
    destruct Hmk. unfold accounted in Hp. lia.
Qed.

Lemma vs_inv_elsewhere s s' v : vs_inv s v ->
  (forall p, low_boundary v <= p < high_boundary v -> committed s' p = committed s p) ->
  vs_inv s' v.
Proof using Type. intros I He. apply (vs_inv_mono s); [done|]. intros p Hp. by rewrite He. Qed.

Lemma vs_upto_elsewhere s s' v c : vs_upto s v c ->
  (forall p, low_boundary v <= p < high_boundary v -> committed s' p = committed s p) -> vs_upto s' v c.
Proof using Type.
  intros [G Hh Hm Hb Hc] He. split; try done. pose proof (g_order v G). pose proof (g_upper v G).
  unfold vs_memory in *. destruct (special v).
  - intros p Hp. rewrite He; [by apply Hm|done].
  - destruct Hm as [Hmk Hm]. split; [done|]. intros p Hp. rewrite He; [by apply Hm|].
    destruct Hmk. unfold accounted in Hp. lia.
Qed.

Lemma vs_step_upto s v c s' v' c' : vs_step (s, v, c) (s', v', c') -> vs_upto s v c ->
  vs_upto s' v' c' /\ same_range v v' /\ (uncommit_willing -> c = high v -> c' = high v').
Proof using L.
  intros Hstep I. inversion Hstep as [? ? ? bytes pt ? ok ? Hb E|? ? ? size ? ? Hs E|? ? ? ? He]; subst.
  - destruct (expand_by_upto v c bytes pt s I Hb) as (v1 & ok1 & s1 & E1 & I1 & Hr & Hh & _).
    rewrite E in E1. simplify_eq. split_and!; [done|done|]. intros _ ->. by destruct ok1.
  - destruct (Z.lt_ge_cases (committed_size v) size) as [Hlt|Hle].
    { exfalso. unfold shrink_by in E. destruct (Z.ltb_spec (committed_size v) size); [done|lia]. }
    destruct (shrink_by_upto v c size s I ltac:(lia)) as (v1 & s1 & E1 & Hr & I1 & _ & Hw & _).
    rewrite E in E1. simplify_eq. split_and!; [done|done|]. intros Hwill ->. rewrite (Hw Hwill). lia.
  - split_and!; [by eapply vs_upto_elsewhere|done|done].
Qed.

Lemma vs_steps_upto s v c s' v' c' : rtc vs_step (s, v, c) (s', v', c') -> vs_upto s v c ->
  vs_upto s' v' c' /\ same_range v v' /\ (uncommit_willing -> c = high v -> c' = high v').
Proof using L.
  intros Hsteps. remember (s, v, c) as x eqn:Ex. remember (s', v', c') as y eqn:Ey. revert s v c Ex.
  induction Hsteps as [|? [[s1 v1] c1] ? Hstep _ IH]; intros s v c Ex I; simplify_eq; [done|].
  destruct (vs_step_upto _ _ _ _ _ _ Hstep I) as (I1 & (? & ? & ? & ?) & Hw1).
  destruct (IH eq_refl _ _ _ eq_refl I1) as (I' & (? & ? & ? & ?) & Hw2).
  split_and!; [done|split_and!; congruence|]. intros Hwill Hc. by apply Hw2; [|apply Hw1].
Qed.

(** C20: A virtual space is safe to use, whatever happens to it after its
    initialization: after any sequence of expansions and shrinkings, some of which the system may refuse wholly or half way,
    and activity elsewhere, every address below the end the history guarantees is committed; that is the high end after every
    successful expansion, and always if the system uncommits what it is asked to; the space stays
    within its reservation, no expansion is stuck or touches memory that is not committed,
    and shrinking is fatal exactly when more is asked than is committed. *)
Theorem virtual_space_safe rs c s v ok s1 s2 v2 e :
  rs_ok s rs -> 0 <= c -> initialize rs c s = Some (v, ok, s1) -> rtc vs_step (s1, v, high v) (s2, v2, e) ->
  (forall p, low v2 <= p < e -> committed s2 p = true) /\
  low v2 <= e <= high v2 /\ (uncommit_willing -> e = high v2) /\
  low v2 = base rs /\ high v2 <= base rs + rs_size rs /\
  committed_size v2 + uncommitted_size v2 = rs_size rs /\
  (forall bytes pre_touch, 0 <= bytes -> exists v3 ok s3, expand_by v2 bytes pre_touch s2 = Some (v3, ok, s3) /\
     (ok = true -> forall p, contains v3 p = true -> committed s3 p = true)) /\
  (forall size, 0 <= size -> shrink_by v2 size s2 = None <-> committed_size v2 < size).
Proof using L.
  intros Hrs Hc E Hsteps.
  destruct (initialize_ok rs c s Hrs Hc) as (v0 & ok0 & s0 & E0 & I & Hlo & Hhi & _).
  rewrite E in E0. simplify_eq.
  destruct (vs_steps_upto _ _ _ _ _ _ Hsteps (proj1 (vs_inv_upto _ _) I)) as (I2 & (Hl & _ & Hb & _) & Hw).
  pose proof I2 as [G Hh _ He _]. destruct (sizes_eq v2 G Hh) as (Hcs & _ & Hus). pose proof (g_low_eq v2 G).
  split_and!; try done; try lia.
  - intros p Hp. by apply (upto_committed s2 v2 e p I2).
  - intros Hwill. by apply Hw.
  - intros bytes pt Hbytes. destruct (expand_by_upto v2 e bytes pt s2 I2 Hbytes) as (v3 & ok & s3 & E3 & I3 & _).
    exists v3, ok, s3. split; [done|]. intros -> p Hp. apply (upto_committed _ _ _ p I3).
    unfold contains in Hp. zreflect. lia.
  - intros size Hs. split; intros Hx.
    + destruct (Z.lt_ge_cases (committed_size v2) size) as [|Hle]; [done|].
      destruct (shrink_by_upto v2 e size s2 I2 ltac:(lia)) as (? & ? & ? & _). congruence.
    + unfold shrink_by. by destruct (Z.ltb_spec (committed_size v2) size); [|lia].
Qed.

(** C21: The outcome of an expansion: it is refused, with nothing changed, when the
    reservation has too little left, and succeeds when there is room and the system refuses
    no commit; whatever the outcome, the committed size is the old one or the old one plus
    the bytes asked for, the space stays well-formed (also when only some of its regions
    could be committed) and committed memory stays committed; a successful expansion commits exactly the pages of the
    reservation, each of the size of its region, that start below the new end, and a failed one no other pages. *)
Theorem expand_by_spec v bytes pre_touch s : vs_inv s v -> 0 <= bytes ->
  (uncommitted_size v < bytes -> expand_by v bytes pre_touch s = Some (v, false, s)) /\
  exists v' ok s',
    expand_by v bytes pre_touch s = Some (v', ok, s') /\ vs_inv s' v' /\
    (bytes <= uncommitted_size v -> willing -> ok = true) /\
    committed_size v' = committed_size v + (if ok then bytes else 0) /\
    (forall p, committed s p = true -> committed s' p = true) /\
    (ok = true -> forall p, committed s' p = true <-> committed s p = true \/ page_needed v (high v + bytes) p) /\
    (forall p, committed s' p = true -> committed s p = true \/ page_needed v (high v + bytes) p).
Proof using L.
  intros I Hb. split.
  { intros Hlt. unfold expand_by. by destruct (Z.ltb_spec (uncommitted_size v) bytes); [|lia]. }
  destruct (expand_by_upto v (high v) bytes pre_touch s (proj1 (vs_inv_upto _ _) I) Hb)
    as (v' & ok & s' & E & I' & Hr & Hh & _ & Hy & Hm & _ & Hf & Hn).
  assert (I2 : vs_inv s' v') by (apply vs_inv_upto; destruct ok; [done|by rewrite Hh]).
  destruct (sizes_eq v (i_geom _ _ I) (i_high _ _ I)) as (-> & _ & _).
  destruct (sizes_eq v' (i_geom _ _ I2) (i_high _ _ I2)) as (Hcs & _ & _).
  exists v', ok, s'. split_and!; try done.
  - rewrite Hcs, Hh. destruct Hr as (-> & _). destruct ok; lia.
  - intros Hok p. split; [apply Hf|]. intros [Hp|Hp]; [by apply Hm|by apply Hn].
Qed.

End Theorems.

(* ------------------------------------------------------------------ *)
(** ** Concrete runs *)

(** A space of 320 bytes at address 32, whose middle region is one large page of 128. *)
Definition toy_rs : ReservedSpace :=
  {| base := 32; rs_size := 320; noaccess_prefix := 0; alignment := 32; rs_special := false;
     rs_executable := false |}.

Lemma toy_rs_ok : rs_ok (H := toy_os) (toy_init 32 []) toy_rs.
Proof. split; cbn; [split; [lia|by exists 1]|split_and!; [lia|by exists 10|lia]|done]. Qed.

(** Initialized with 160 bytes, expanded by 96 (with pages touched), shrunk by 120. *)
Lemma virtual_space_safe_witness :
  exists s2 v2 e, e = 168 /\ (forall p, low v2 <= p < e -> committed s2 p = true) /\
    low v2 <= e <= high v2 /\ (uncommit_willing (H := toy_os) -> e = high v2) /\
    low v2 = 32 /\ high v2 <= 352 /\ committed_size v2 + uncommitted_size v2 = 320 /\
    (forall bytes pre_touch, 0 <= bytes -> exists v3 ok s3, expand_by v2 bytes pre_touch s2 = Some (v3, ok, s3) /\
       (ok = true -> forall p, contains v3 p = true -> committed s3 p = true)) /\
    (forall size, 0 <= size -> shrink_by v2 size s2 = None <-> committed_size v2 < size).
Proof.
  eexists _, _, _. split; cycle 1.
  - eapply (virtual_space_safe (H := toy_os) (L := toy_os_laws) toy_rs 160 (toy_init 32 []) _ _ _ _ _ _ toy_rs_ok).
    + lia.
    + vm_compute. reflexivity.
    + eapply rtc_l; [eapply (step_expand _ _ _ 96 false); [lia|vm_compute; reflexivity]|].
      eapply rtc_l; [eapply (step_shrink _ _ _ 120); [lia|vm_compute; reflexivity]|].
      apply rtc_refl.
  - reflexivity.
Defined.

(** An expansion refused in the upper region, after the others were committed. *)
Lemma expand_by_spec_witness :
  exists v s, committed_size v = 160 /\
  (uncommitted_size v < 160 -> expand_by v 160 false s = Some (v, false, s)) /\
  exists v' ok s',
    expand_by v 160 false s = Some (v', ok, s') /\ vs_inv (H := toy_os) s' v' /\
    (160 <= uncommitted_size v -> willing (H := toy_os) -> ok = true) /\
    committed_size v' = committed_size v + (if ok then 160 else 0) /\
    (forall p, committed s p = true -> committed s' p = true) /\
    (ok = true -> forall p, committed s' p = true <-> committed s p = true \/ page_needed v (high v + 160) p) /\
    (forall p, committed s' p = true -> committed s p = true \/ page_needed v (high v + 160) p).
Proof.
  destruct (initialize_ok (H := toy_os) (L := toy_os_laws) toy_rs 160 (toy_init 32 [256])) as (v & ok & s & E & I & _);
    [split; apply toy_rs_ok|lia|].
  exists v, s. split.
  - vm_compute in E. injection E as <- _ _. reflexivity.
  - apply (expand_by_spec (H := toy_os) (L := toy_os_laws) v 160 false s I). lia.
Defined.

(** A shrinking that the system refuses half way returns early, after the upper region was
    uncommitted and without moving the high end: the space then contains addresses that are
    not committed. *)
Definition set_refuse (s : toy_state) (l : list Z) : toy_state :=
  {| t_reserved := t_reserved s; t_committed := t_committed s; t_next := t_next s; t_refuse := l |}.

Lemma shrink_partial_failure :
  exists v s v' s', vs_inv (H := toy_os) s v /\ shrink_by v 280 s = Some (v', s') /\
    contains v' 280 = true /\ committed (OS := toy_os) s' 280 = false.
Proof.
  destruct (initialize_ok (H := toy_os) (L := toy_os_laws) toy_rs 320 (toy_init 32 [])) as (v & ok & s & E & I & _);
    [apply toy_rs_ok|lia|].
  pose proof (vs_inv_elsewhere s (set_refuse s [128]) v I (fun _ _ => eq_refl)) as I'. clear I.
  vm_compute in E. injection E as <- <- <-.
  eexists _, _, _, _. split; [exact I'|]. split; [vm_compute; reflexivity|]. split; reflexivity.
Qed.
