(* ===== verification/CodeHeap.v ===== *)
(** * CodeHeap: the heap of compiled code, memory/heap.hpp and heap.cpp

    The heap is a committed range of segments of [segment_size] bytes.  It is filled with
    blocks from the bottom; a block starts with a header (its length in segments and its
    used bit) and, while it is free, holds the link of the list of free blocks.  The segment
    map has one byte per segment from which the start of the block around any address can
    be found.  Pointers are addresses and the null pointer is 0; the memory of the blocks is
    two stores keyed by the address of a block, for the headers and for the links.  A read
    of a header or link that was never written, or an access outside the committed segment
    map, is [None].

    This file has the operations; [CodeHeapSpec] relates the state to the sequence of blocks
    it stands for. *)

From stdpp Require Import gmap.
From S2P Require Import Prelude GlobalDefs OS ReservedSpace VirtualSpace.

(* ------------------------------------------------------------------ *)
(** ** The state *)

Record Header := { length_ : Z; used_ : bool }.

Record CodeHeap := {
  memory : VirtualSpace;
  segmap : VirtualSpace;
  segmap_bytes : list Z;                (* the committed bytes of [segmap] *)
  number_of_committed_segments : Z;
  number_of_reserved_segments : Z;
  segment_size : Z;
  log2_segment_size : Z;
  next_segment : Z;
  freelist : Z;
  free_segments : Z;
  headers : gmap Z Header;
  links : gmap Z Z
}.

Definition NULL : Z := 0.

(** [sizeof(HeapBlock)] and [sizeof(FreeBlock)]. *)
Definition header_size : Z := 16.
Definition sizeof_FreeBlock : Z := 24.

(** The constructor, over memory that holds nothing known. *)
Definition new_CodeHeap : CodeHeap :=
  {| memory := new_VirtualSpace; segmap := new_VirtualSpace; segmap_bytes := [];
     number_of_committed_segments := 0; number_of_reserved_segments := 0; segment_size := 0;
     log2_segment_size := 0; next_segment := 0; freelist := 0; free_segments := 0;
     headers := ∅; links := ∅ |}.

Definition set_segmap_bytes (h : CodeHeap) (s : list Z) : CodeHeap :=
  {| memory := memory h; segmap := segmap h; segmap_bytes := s;
     number_of_committed_segments := number_of_committed_segments h;
     number_of_reserved_segments := number_of_reserved_segments h;
     segment_size := segment_size h; log2_segment_size := log2_segment_size h;
     next_segment := next_segment h; freelist := freelist h;
     free_segments := free_segments h; headers := headers h; links := links h |}.
Definition set_next_segment (h : CodeHeap) (n : Z) : CodeHeap :=
  {| memory := memory h; segmap := segmap h; segmap_bytes := segmap_bytes h;
     number_of_committed_segments := number_of_committed_segments h;
     number_of_reserved_segments := number_of_reserved_segments h;
     segment_size := segment_size h; log2_segment_size := log2_segment_size h;
     next_segment := n; freelist := freelist h; free_segments := free_segments h;
     headers := headers h; links := links h |}.
Definition set_freelist (h : CodeHeap) (b : Z) : CodeHeap :=
  {| memory := memory h; segmap := segmap h; segmap_bytes := segmap_bytes h;
     number_of_committed_segments := number_of_committed_segments h;
     number_of_reserved_segments := number_of_reserved_segments h;
     segment_size := segment_size h; log2_segment_size := log2_segment_size h;
     next_segment := next_segment h; freelist := b; free_segments := free_segments h;
     headers := headers h; links := links h |}.
Definition set_free_segments (h : CodeHeap) (n : Z) : CodeHeap :=
  {| memory := memory h; segmap := segmap h; segmap_bytes := segmap_bytes h;
     number_of_committed_segments := number_of_committed_segments h;
     number_of_reserved_segments := number_of_reserved_segments h;
     segment_size := segment_size h; log2_segment_size := log2_segment_size h;
     next_segment := next_segment h; freelist := freelist h; free_segments := n;
     headers := headers h; links := links h |}.
Definition set_header (h : CodeHeap) (b : Z) (x : Header) : CodeHeap :=
  {| memory := memory h; segmap := segmap h; segmap_bytes := segmap_bytes h;
     number_of_committed_segments := number_of_committed_segments h;
     number_of_reserved_segments := number_of_reserved_segments h;
     segment_size := segment_size h; log2_segment_size := log2_segment_size h;
     next_segment := next_segment h; freelist := freelist h;
     free_segments := free_segments h; headers := <[b := x]> (headers h); links := links h |}.
Definition set_link (h : CodeHeap) (b l : Z) : CodeHeap :=
  {| memory := memory h; segmap := segmap h; segmap_bytes := segmap_bytes h;
     number_of_committed_segments := number_of_committed_segments h;
     number_of_reserved_segments := number_of_reserved_segments h;
     segment_size := segment_size h; log2_segment_size := log2_segment_size h;
     next_segment := next_segment h; freelist := freelist h;
     free_segments := free_segments h; headers := headers h; links := <[b := l]> (links h) |}.
(** The memory, the number of its segments, the map and its bytes assigned. *)
Definition set_spaces (h : CodeHeap) (m : VirtualSpace) (n : Z) (g : VirtualSpace) (s : list Z) : CodeHeap :=
  {| memory := m; segmap := g; segmap_bytes := s; number_of_committed_segments := n;
     number_of_reserved_segments := number_of_reserved_segments h;
     segment_size := segment_size h; log2_segment_size := log2_segment_size h;
     next_segment := next_segment h; freelist := freelist h;
     free_segments := free_segments h; headers := headers h; links := links h |}.

(* ------------------------------------------------------------------ *)
(** ** Blocks *)

Definition HeapBlock_length (h : CodeHeap) (b : Z) : option Z := length_ <$> headers h !! b.
Definition HeapBlock_free (h : CodeHeap) (b : Z) : option bool :=
  (fun x => negb (used_ x)) <$> headers h !! b.
Definition FreeBlock_link (h : CodeHeap) (b : Z) : option Z := links h !! b.
Definition allocated_space (b : Z) : Z := b + header_size.

(** [set_used] and [set_free] write the used bit of a header that is there. *)
Definition set_used (h : CodeHeap) (b : Z) : option CodeHeap :=
  x ← headers h !! b; Some (set_header h b {| length_ := length_ x; used_ := true |}).
Definition set_free (h : CodeHeap) (b : Z) : option CodeHeap :=
  x ← headers h !! b; Some (set_header h b {| length_ := length_ x; used_ := false |}).

(** [set_length] writes the length and leaves the bit, whatever it is, where no header was. *)
Definition set_length (h : CodeHeap) (b l : Z) : CodeHeap :=
  set_header h b {| length_ := l; used_ := default false (used_ <$> headers h !! b) |}.
Definition HeapBlock_initialize (h : CodeHeap) (b l : Z) : option CodeHeap :=
  set_used (set_length h b l) b.

Definition number_of_segments (h : CodeHeap) (size : Z) : Z :=
  Z.shiftr (u64 (u64 (size + segment_size h) - 1)) (log2_segment_size h).
Definition size_of (h : CodeHeap) (n : Z) : Z := u64 (Z.shiftl n (log2_segment_size h)).
Definition segment_for (h : CodeHeap) (p : Z) : Z :=
  u64 (Z.shiftr (p - low (memory h)) (log2_segment_size h)).
Definition block_at (h : CodeHeap) (i : Z) : Z :=
  low (memory h) + u64 (Z.shiftl i (log2_segment_size h)).
Definition following_block (h : CodeHeap) (b : Z) : option Z :=
  l ← HeapBlock_length h b; Some (b + u64 (segment_size h * l)).

(* ------------------------------------------------------------------ *)
(** ** The segment map *)

Definition mark_segmap_as_free (h : CodeHeap) (beg end_ : Z) : option CodeHeap :=
  s ← each_range beg end_ (fun p s => arr_set s p 0xFF) (segmap_bytes h);
  Some (set_segmap_bytes h s).

Definition mark_segmap_as_used (h : CodeHeap) (beg end_ : Z) : option CodeHeap :=
  r ← each_range beg end_
        (fun p '(s, i) =>
           s ← arr_set s p (u8 i);
           let i := i + 1 in
           Some (s, if i =? 0xFF then 1 else i)) (segmap_bytes h, 0);
  Some (set_segmap_bytes h r.1).

Definition CodeHeap_clear (h : CodeHeap) : option CodeHeap :=
  mark_segmap_as_free (set_next_segment h 0) 0 (number_of_committed_segments h).

(* ------------------------------------------------------------------ *)
(** ** The list of free blocks *)

Definition merge_right (h : CodeHeap) (a : Z) : option CodeHeap :=
  f ← following_block h a;
  l ← FreeBlock_link h a;
  if f =? l then
    la ← HeapBlock_length h a;
    lb ← HeapBlock_length h l;
    let h := set_length h a (u64 (la + lb)) in
    ll ← FreeBlock_link h l;
    let h := set_link h a ll in
    let beg := segment_for h a in
    len ← HeapBlock_length h a;
    mark_segmap_as_used h beg (u64 (beg + len))
  else Some h.

Definition insert_after (h : CodeHeap) (a b : Z) : option CodeHeap :=
  la ← FreeBlock_link h a;
  let h := set_link h b la in
  let h := set_link h a b in
  h ← merge_right h b;
  merge_right h a.

(** The scan for the place of a block: the last block before it and the first after it. *)
Fixpoint scan_freelist (fuel : nat) (h : CodeHeap) (b prev cur : Z) : option (Z * Z) :=
  match fuel with
  | O => None
  | S fuel =>
      if negb (cur =? NULL) && (cur <? b) then
        l ← FreeBlock_link h cur; scan_freelist fuel h b cur l
      else Some (prev, cur)
  end.

(** Enough turns for every list of free blocks. *)
Definition list_fuel (h : CodeHeap) : nat := S (Z.to_nat (number_of_committed_segments h)).

Definition add_to_freelist (h : CodeHeap) (b : Z) : option CodeHeap :=
  l ← HeapBlock_length h b;
  let h := set_free_segments h (u64 (free_segments h + l)) in
  h ← set_free h b;
  if freelist h =? NULL then
    let h := set_freelist h b in
    Some (set_link h b NULL)
  else
    r ← scan_freelist (list_fuel h) h b NULL (freelist h);
    let '(prev, cur) := r in
    if prev =? NULL then
      let h := set_link h b (freelist h) in
      let h := set_freelist h b in
      merge_right h (freelist h)
    else insert_after h prev b.

(** The search for the smallest block of at least [len] segments: the block, the one
    before it on the list, and its length. *)
Fixpoint search_loop (fuel : nat) (h : CodeHeap) (len best best_prev best_length prev cur : Z)
    : option (Z * Z * Z) :=
  match fuel with
  | O => None
  | S fuel =>
      if cur =? NULL then Some (best, best_prev, best_length)
      else
        l ← HeapBlock_length h cur;
        let '(best, best_prev, best_length) :=
          if (len <=? l) && ((best =? NULL) || (l <? best_length)) then (cur, prev, l)
          else (best, best_prev, best_length) in
        nx ← FreeBlock_link h cur;
        search_loop fuel h len best best_prev best_length cur nx
  end.

(** [CodeCacheMinBlockLength] is a flag of the virtual machine. *)
Section Allocation.
Context (CodeCacheMinBlockLength : Z).

Definition search_freelist (h : CodeHeap) (len : Z) : option (Z * CodeHeap) :=
  r ← search_loop (list_fuel h) h len NULL NULL 0 NULL (freelist h);
  let '(best_block, best_prev, best_length) := r in
  if best_block =? NULL then Some (NULL, h)
  else if best_length <? u64 (len + CodeCacheMinBlockLength) then
    let len := best_length in
    l ← FreeBlock_link h best_block;
    let h := if best_prev =? NULL then set_freelist h l else set_link h best_prev l in
    h ← set_used h best_block;
    Some (best_block, set_free_segments h (u64 (free_segments h - len)))
  else
    let h := set_length h best_block (u64 (best_length - len)) in
    b ← following_block h best_block;
    let beg := segment_for h b in
    h ← mark_segmap_as_used h beg (u64 (beg + len));
    let h := set_length h b len in
    h ← set_used h b;
    Some (b, set_free_segments h (u64 (free_segments h - len))).

Definition allocate (h : CodeHeap) (sz : Z) : option (Z * CodeHeap) :=
  let len := number_of_segments h (u64 (sz + header_size)) in
  r ← search_freelist h len;
  let '(block, h) := r in
  if negb (block =? NULL) then Some (allocated_space block, h)
  else
    let len := if len <? CodeCacheMinBlockLength then CodeCacheMinBlockLength else len in
    if u64 (next_segment h + len) <=? number_of_committed_segments h then
      h ← mark_segmap_as_used h (next_segment h) (u64 (next_segment h + len));
      let b := block_at h (next_segment h) in
      h ← HeapBlock_initialize h b len;
      let h := set_next_segment h (u64 (next_segment h + len)) in
      Some (allocated_space b, h)
    else Some (NULL, h).
End Allocation.

Definition deallocate (h : CodeHeap) (p : Z) : option CodeHeap :=
  let b := p - header_size in add_to_freelist h b.

(* ------------------------------------------------------------------ *)
(** ** Reserving and growing *)

Section Growing.
Context `{OS}.

Definition align_to_page_size (sz : Z) : Z :=
  let alignment := vm_page_size in
  Z.land (u64 (u64 (sz + alignment) - 1)) (unot 64 (u64 (alignment - 1))).

(** The content of memory when it is committed. *)
Context (fresh : Z -> Z).

Definition lift {A} (o : option A) : stm os_state A := fun s => x ← o; Some (x, s).

(** A heap of the constructor with its memory and segments assigned. *)
Definition heap_over (m : VirtualSpace) (segment_size log2 n nr : Z) : CodeHeap :=
  {| memory := m; segmap := new_VirtualSpace; segmap_bytes := [];
     number_of_committed_segments := n; number_of_reserved_segments := nr;
     CodeHeap.segment_size := segment_size; log2_segment_size := log2; next_segment := 0;
     freelist := NULL; free_segments := 0; headers := ∅; links := ∅ |}.

(** The second half of [reserve]: the segment map for the memory. *)
Definition reserve_segmap (fuel : nat) (h : CodeHeap) : stm os_state (CodeHeap * bool) :=
  let* rs := ReservedSpace_size fuel (align_to_page_size (number_of_reserved_segments h)) in
  let* (g, ok) := initialize rs (align_to_page_size (number_of_committed_segments h)) in
  let h := set_spaces h (memory h) (number_of_committed_segments h) g
             (fresh <$> seqZ 0 (VirtualSpace.committed_size g)) in
  if negb ok then sret (h, false) else let* h := lift (CodeHeap_clear h) in sret (h, true).

Definition reserve (fuel : nat) (reserved_size committed_size segment_size : Z)
    : stm os_state (CodeHeap * bool) :=
  let* log2 := lift (exact_log2 segment_size) in
  let* page_size := lift (if can_execute_large_page_memory
                          then page_size_for_region committed_size reserved_size 8
                          else Some vm_page_size) in
  let granularity := vm_allocation_granularity in
  let r_align := MAX2 page_size granularity in
  let r_size := u64 (align_size_up reserved_size r_align) in
  let c_size := u64 (align_size_up committed_size page_size) in
  let rs_align := if page_size =? vm_page_size then 0 else MAX2 page_size granularity in
  let* rs := ReservedCodeSpace fuel r_size rs_align (0 <? rs_align) in
  let* (m, ok) := initialize rs c_size in
  let h := heap_over m segment_size log2 0 0 in
  if negb ok then sret (h, false)
  else
    let n := number_of_segments h (VirtualSpace.committed_size m) in
    let nr := number_of_segments h (VirtualSpace.reserved_size m) in
    reserve_segmap fuel (heap_over m segment_size log2 n nr).

(** The segment map grows to the pages that its segments need. *)
Definition expand_segmap (h : CodeHeap) : stm os_state (CodeHeap * bool) :=
  let n := number_of_committed_segments h in
  let old := VirtualSpace.committed_size (segmap h) in
  let ds := u64 (align_to_page_size n - old) in
  if 0 <? ds then
    let* (g, ok) := expand_by (segmap h) ds false in
    let bytes := if (ok : bool) then segmap_bytes h ++ (fresh <$> seqZ old ds)
                 else segmap_bytes h in
    sret (set_spaces h (memory h) n g bytes, ok)
  else sret (h, true).

Definition CodeHeap_expand_by (h : CodeHeap) (sz : Z) : stm os_state (CodeHeap * bool) :=
  let committed := VirtualSpace.committed_size (memory h) in
  let dm := u64 (align_to_page_size (u64 (committed + sz)) - committed) in
  if 0 <? dm then
    let* (m, ok) := expand_by (memory h) dm false in
    if negb ok then
      sret (set_spaces h m (number_of_committed_segments h) (segmap h) (segmap_bytes h), false)
    else
      let i := number_of_committed_segments h in
      let n := number_of_segments h (VirtualSpace.committed_size m) in
      let h := set_spaces h m n (segmap h) (segmap_bytes h) in
      let* (h, ok) := expand_segmap h in
      if negb ok then sret (h, false)
      else let* h := lift (mark_segmap_as_free h i n) in sret (h, true)
  else sret (h, true).
End Growing.

(* ------------------------------------------------------------------ *)
(** ** Finding and visiting blocks *)

Definition begin_ (h : CodeHeap) : Z := low (memory h).
Definition end_ (h : CodeHeap) : Z := high (memory h).
Definition CodeHeap_contains (h : CodeHeap) (p : Z) : bool := (begin_ h <=? p) && (p <? end_ h).

(** The walk down to the segment with mark 0. *)
Fixpoint find_loop (fuel : nat) (s : list Z) (i : Z) : option Z :=
  match fuel with
  | O => None
  | S fuel => b ← arr_get s i; if 0 <? b then find_loop fuel s (u64 (i - b)) else Some i
  end.

Definition find_start (h : CodeHeap) (p : Z) : option Z :=
  if negb (CodeHeap_contains h p) then Some NULL
  else
    let i := segment_for h p in
    b ← arr_get (segmap_bytes h) i;
    if b =? 0xFF then Some NULL
    else
      i ← find_loop (S (Z.to_nat i)) (segmap_bytes h) i;
      let b := block_at h i in
      f ← HeapBlock_free h b;
      if (f : bool) then Some NULL else Some (allocated_space b).

Definition block_start (h : CodeHeap) (q : Z) : option Z :=
  b ← find_start h q; if b =? NULL then Some NULL else Some (b - header_size).

Definition first_block (h : CodeHeap) : Z :=
  if 0 <? next_segment h then block_at h 0 else NULL.

Definition next_block (h : CodeHeap) (b : Z) : option Z :=
  if b =? NULL then Some NULL
  else
    l ← HeapBlock_length h b;
    let i := u64 (segment_for h b + l) in
    if i <? next_segment h then Some (block_at h i) else Some NULL.

Definition next_free (h : CodeHeap) (b : Z) : option Z :=
  b ← (if negb (b =? NULL) then
         f ← HeapBlock_free h b; if (f : bool) then next_block h b else Some b
       else Some b);
  Some (if b =? NULL then NULL else allocated_space b).

Definition CodeHeap_first (h : CodeHeap) : option Z := next_free h (first_block h).
Definition CodeHeap_next (h : CodeHeap) (p : Z) : option Z :=
  b ← block_start h p; b ← next_block h b; next_free h b.

Definition capacity (h : CodeHeap) : Z := VirtualSpace.committed_size (memory h).
Definition max_capacity (h : CodeHeap) : Z := VirtualSpace.reserved_size (memory h).

Definition allocated_capacity (h : CodeHeap) : Z :=
  let l := VirtualSpace.committed_size (memory h) in
  let l := u64 (l - size_of h (u64 (number_of_committed_segments h - next_segment h))) in
  u64 (l - size_of h (free_segments h)).

Definition unallocated_capacity (h : CodeHeap) : Z :=
  u64 (max_capacity h - allocated_capacity h).
Definition alignment_unit (h : CodeHeap) : Z := segment_size h.
Definition alignment_offset (h : CodeHeap) : Z := Z.land header_size (u64 (segment_size h - 1)).

(** The two loops of [verify]: over the list of free blocks, counting them and adding up
    their lengths, and over all blocks, counting the free ones off.  The result is what the
    code computes for the checks in its comments. *)
Fixpoint verify_freelist (fuel : nat) (h : CodeHeap) (b count len : Z) : option (Z * Z) :=
  match fuel with
  | O => None
  | S fuel =>
      if b =? NULL then Some (count, len)
      else
        l ← HeapBlock_length h b;
        nx ← FreeBlock_link h b;
        verify_freelist fuel h nx (s32 (count + 1)) (u64 (len + l))
  end.

Fixpoint verify_blocks (fuel : nat) (h : CodeHeap) (b count : Z) : option Z :=
  match fuel with
  | O => None
  | S fuel =>
      if b =? NULL then Some count
      else
        f ← HeapBlock_free h b;
        nx ← next_block h b;
        verify_blocks fuel h nx (if (f : bool) then s32 (count - 1) else count)
  end.

(** The number of missing free blocks and the length of the free list. *)
Definition verify (h : CodeHeap) : option (Z * Z) :=
  r ← verify_freelist (list_fuel h) h (freelist h) 0 0;
  let '(count, len) := r in
  count ← verify_blocks (list_fuel h) h (first_block h) count;
  Some (count, len).
