(* ===== verification/CodeHeapSpec.v ===== *)
(** * CodeHeapSpec: what the heap of compiled code promises

    A heap of [CodeHeap] stands for the sequence of its blocks from the bottom, each with a
    length in segments and a used bit ([heap_rel]); [heap_ok] says in addition that no two
    free blocks are adjacent.  The theorems say that the operations refine the obvious ones on
    such sequences: allocation adds a used block made of free or fresh segments, best fit
    first; deallocation removes one and merges free neighbours; the segment map leads from
    any address to its block; the iteration visits the used blocks in order. *)

From stdpp Require Import gmap relations.
From S2P Require Import Prelude GlobalDefs OS ReservedSpace VirtualSpace CodeHeap.

(* ------------------------------------------------------------------ *)
(** ** Sequences of blocks *)

Abbreviation blocks := (list (Z * bool)).

Fixpoint total (bs : blocks) : Z := match bs with [] => 0 | (l, _) :: bs => l + total bs end.
Fixpoint free_total (bs : blocks) : Z :=
  match bs with [] => 0 | (l, u) :: bs => (if (u : bool) then 0 else l) + free_total bs end.

(** The blocks with a bit, as start segment and length. *)
Fixpoint with_bit (bit : bool) (i : Z) (bs : blocks) : list (Z * Z) :=
  match bs with
  | [] => []
  | (l, u) :: bs => (if eqb u bit then [(i, l)] else []) ++ with_bit bit (i + l) bs
  end.
Abbreviation used_blocks := (with_bit true 0).
Abbreviation free_blocks := (with_bit false).

Fixpoint lengths_ok (bs : blocks) : Prop :=
  match bs with [] => True | (l, _) :: bs => 0 < l /\ lengths_ok bs end.

Fixpoint no_adjacent (bs : blocks) : Prop :=
  match bs with
  | (_, false) :: ((_, false) :: _) => False
  | _ :: bs => no_adjacent bs
  | [] => True
  end.

Lemma total_app b1 b2 : total (b1 ++ b2) = total b1 + total b2.
Proof. induction b1 as [|[l u] b1 IH]; cbn; lia. Qed.
Lemma free_total_app b1 b2 : free_total (b1 ++ b2) = free_total b1 + free_total b2.
Proof. induction b1 as [|[l u] b1 IH]; cbn; lia. Qed.
Lemma with_bit_app bit i b1 b2 :
  with_bit bit i (b1 ++ b2) = with_bit bit i b1 ++ with_bit bit (i + total b1) b2.
Proof.
  revert i. induction b1 as [|[l u] b1 IH]; intros i; cbn; [by rewrite Z.add_0_r|].
  by rewrite IH, <- app_assoc, Z.add_assoc.
Qed.
Lemma lengths_ok_app b1 b2 : lengths_ok (b1 ++ b2) <-> lengths_ok b1 /\ lengths_ok b2.
Proof. induction b1 as [|[l u] b1 IH]; cbn; [tauto|]. rewrite IH. tauto. Qed.

Lemma total_nonneg bs : lengths_ok bs -> 0 <= total bs.
Proof. induction bs as [|[l u] bs IH]; cbn; [lia|]. intros [? ?%IH]. lia. Qed.
Lemma free_total_bounds bs : lengths_ok bs -> 0 <= free_total bs <= total bs.
Proof. induction bs as [|[l u] bs IH]; cbn; [lia|]. intros [? ?%IH]. destruct u; lia. Qed.

Lemma with_bit_range bit i bs j l : lengths_ok bs -> (j, l) ∈ with_bit bit i bs ->
  i <= j /\ 0 < l /\ j + l <= i + total bs.
Proof.
  revert i. induction bs as [|[l' u] bs IH]; intros i; cbn; [by rewrite elem_of_nil|].
  intros [Hl Hbs] Hin. apply elem_of_app in Hin as [Hin|Hin].
  - destruct (eqb u bit); [|by rewrite elem_of_nil in Hin].
    apply list_elem_of_singleton in Hin as [= -> ->]. pose proof (total_nonneg bs Hbs). lia.
  - destruct (IH _ Hbs Hin). lia.
Qed.

(** A block of the sequence splits it. *)
Lemma with_bit_split bit i bs j l : (j, l) ∈ with_bit bit i bs ->
  exists b1 b2, bs = b1 ++ (l, bit) :: b2 /\ j = i + total b1.
Proof.
  revert i. induction bs as [|[l' u] bs IH]; intros i; cbn; [by rewrite elem_of_nil|].
  intros Hin. apply elem_of_app in Hin as [Hin|Hin].
  - destruct (eqb u bit) eqn:E; [|by rewrite elem_of_nil in Hin].
    apply list_elem_of_singleton in Hin as [= -> ->]. apply eqb_prop in E as ->.
    exists [], bs. split; [done|cbn; lia].
  - destruct (IH _ Hin) as (b1 & b2 & -> & ->). exists ((l', u) :: b1), b2. split; [done|cbn; lia].
Qed.

(* ------------------------------------------------------------------ *)
(** ** Marks of the segment map *)

(** The mark of the [j]th segment of a block. *)
Definition mark_of (j : Z) : Z := if j =? 0 then 0 else (j - 1) mod 254 + 1.

Lemma mark_of_range j : 0 <= mark_of j <= 254.
Proof. unfold mark_of. pose proof (Z.mod_pos_bound (j - 1) 254 ltac:(lia)). zcases. Qed.

Lemma mark_of_step j : 0 <= j -> (if mark_of j + 1 =? 0xFF then 1 else mark_of j + 1) = mark_of (j + 1).
Proof.
  intros Hj. unfold mark_of. destruct (Z.eqb_spec (j + 1) 0); [lia|].
  replace (j + 1 - 1) with j by lia. destruct (Z.eqb_spec j 0) as [->|]; [done|].
  pose proof (Z.mod_pos_bound (j - 1) 254 ltac:(lia)).
  pose proof (Z.div_mod (j - 1) 254 ltac:(lia)) as Hd.
  destruct (Z.eqb_spec ((j - 1) mod 254 + 1 + 1) 0xFF) as [E|E].
  - replace j with ((((j - 1) / 254) + 1) * 254) by lia. by rewrite Z.mod_mul.
  - f_equal. apply (Z.mod_unique _ _ ((j - 1) / 254)); lia.
Qed.

(** A mark leads to the start of the block or to a segment with a smaller offset. *)
Lemma mark_of_back j : 0 < j -> 0 < mark_of j <= j.
Proof.
  intros Hj. unfold mark_of. destruct (Z.eqb_spec j 0); [lia|].
  pose proof (Z.mod_pos_bound (j - 1) 254 ltac:(lia)). pose proof (Z.mod_le (j - 1) 254). lia.
Qed.

Definition marks_at (s : list Z) (i l : Z) : Prop :=
  forall j, 0 <= j < l -> arr_get s (i + j) = Some (mark_of j).

(** [s'] is [s] with the segments from [b] to [e] rewritten by [f]. *)
Definition rewritten (s s' : list Z) (b e : Z) (f : Z -> Z) : Prop :=
  Datatypes.length s' = Datatypes.length s /\
  forall j, arr_get s' j = if (b <=? j) && (j <? e) then Some (f (j - b)) else arr_get s j.

Lemma mark_used_spec h b e : 0 <= b <= e -> e <= Z.of_nat (Datatypes.length (segmap_bytes h)) ->
  exists s', mark_segmap_as_used h b e = Some (set_segmap_bytes h s') /\
    rewritten (segmap_bytes h) s' b e mark_of.
Proof.
  intros Hb He. unfold mark_segmap_as_used.
  match goal with |- context [each_range b e ?f ?x] =>
    destruct (each_range_inv (fun p '(s, i) => i = mark_of (p - b) /\
      rewritten (segmap_bytes h) s b p mark_of) f b e x) as ([s' i] & E & _ & Hs) end.
  - lia.
  - rewrite Z.sub_diag. split; [done|]. split; [done|]. intros j. zcases; done.
  - intros p [s i] Hp [-> [Hl Hs]]. pose proof (mark_of_range (p - b)).
    rewrite arr_set_Some by lia. cbn [mbind option_bind]. eexists. split; [done|]. cbn zeta. split.
    + rewrite mark_of_step by lia. f_equal. lia.
    + split; [by rewrite length_insert|]. intros j. rewrite arr_get_insert, Hs by lia.
      rewrite uwrap_small by (try lia; unfold in_u; lia). zcases; cbn; try done. by subst.
  - rewrite E. cbn [mbind option_bind]. by exists s'.
Qed.

Lemma mark_free_spec h b e : 0 <= b <= e -> e <= Z.of_nat (Datatypes.length (segmap_bytes h)) ->
  exists s', mark_segmap_as_free h b e = Some (set_segmap_bytes h s') /\
    rewritten (segmap_bytes h) s' b e (fun _ => 0xFF).
Proof.
  intros Hb He. unfold mark_segmap_as_free.
  match goal with |- context [each_range b e ?f ?x] =>
    destruct (each_range_inv (fun p s => rewritten (segmap_bytes h) s b p (fun _ => 0xFF)) f b e x)
      as (s' & E & Hs) end.
  - lia.
  - split; [done|]. intros j. zcases; done.
  - intros p s Hp [Hl Hs]. rewrite arr_set_Some by lia. eexists. split; [done|].
    split; [by rewrite length_insert|]. intros j. rewrite arr_get_insert, Hs by lia.
    zcases; cbn; done.
  - rewrite E. cbn [mbind option_bind]. by exists s'.
Qed.

(* ------------------------------------------------------------------ *)
(** ** Linked lists *)

(** The links lead from [p] through [xs] to [q]. *)
Fixpoint lseg (m : gmap Z Z) (p : Z) (xs : list Z) (q : Z) : Prop :=
  match xs with [] => p = q | x :: xs => p = x /\ exists r, m !! x = Some r /\ lseg m r xs q end.

Lemma lseg_app m p xs ys q : lseg m p (xs ++ ys) q <-> exists r, lseg m p xs r /\ lseg m r ys q.
Proof.
  revert p. induction xs as [|x xs IH]; intros p; cbn.
  - split; [intros; by exists p|by intros (r & -> & ?)].
  - split.
    + intros (-> & r & Hr & (t & ? & ?)%IH). exists t. split; [|done]. split; [done|]. by exists r.
    + intros (t & (-> & r & Hr & ?) & ?). split; [done|]. exists r. split; [done|]. apply IH. by exists t.
Qed.

Lemma lseg_frame m m' p xs q : (forall x, x ∈ xs -> m' !! x = m !! x) ->
  lseg m p xs q -> lseg m' p xs q.
Proof.
  revert p. induction xs as [|x xs IH]; intros p Hf; cbn; [done|].
  intros (-> & r & Hr & Hs). split; [done|]. exists r. split.
  - rewrite Hf; [done|]. apply list_elem_of_here.
  - apply IH; [|done]. intros y Hy. apply Hf. by apply list_elem_of_further.
Qed.

Lemma lseg_insert m p xs q x y : x ∉ xs -> lseg m p xs q -> lseg (<[x := y]> m) p xs q.
Proof. intros Hx. apply lseg_frame. intros z Hz. apply lookup_insert_ne. intros ->. done. Qed.

(** The head of a list that ends in [NULL]. *)
Lemma lseg_head m p xs : lseg m p xs NULL -> p = default NULL (head xs).
Proof. destruct xs; cbn; [done|]. by intros [-> _]. Qed.

(* ------------------------------------------------------------------ *)
(** ** The relation between a heap and its blocks *)

(** The address of a segment. *)
Definition loc (h : CodeHeap) (i : Z) : Z := low (memory h) + i * 2 ^ log2_segment_size h.

Definition static (h : CodeHeap) :=
  (memory h, segmap h, number_of_committed_segments h, number_of_reserved_segments h,
   segment_size h, log2_segment_size h).

(** The committed memory is whole segments, with a byte of the map for each. *)
Record geom (h : CodeHeap) : Prop := {
  ge_log : 5 <= log2_segment_size h < 40;
  ge_size : segment_size h = 2 ^ log2_segment_size h;
  ge_low : 0 < low (memory h);
  ge_high : high (memory h) = loc h (number_of_committed_segments h);
  ge_max : loc h (number_of_committed_segments h) <= 2 ^ 62;
  ge_count : 0 <= number_of_committed_segments h <= Z.of_nat (Datatypes.length (segmap_bytes h))
}.

Fixpoint blocks_at (h : CodeHeap) (i : Z) (bs : blocks) : Prop :=
  match bs with
  | [] => True
  | (l, u) :: bs =>
      0 < l /\ headers h !! loc h i = Some {| length_ := l; used_ := u |} /\
      marks_at (segmap_bytes h) i l /\ blocks_at h (i + l) bs
  end.

Definition free_list (h : CodeHeap) (i : Z) (bs : blocks) : list Z :=
  (fun x => loc h x.1) <$> free_blocks i bs.

Record heap_rel (h : CodeHeap) (bs : blocks) : Prop := {
  hr_geom : geom h;
  hr_blocks : blocks_at h 0 bs;
  hr_next : next_segment h = total bs;
  hr_top : total bs <= number_of_committed_segments h;
  hr_unused : forall j, total bs <= j < number_of_committed_segments h ->
    arr_get (segmap_bytes h) j = Some 0xFF;
  hr_free : free_segments h = free_total bs;
  hr_list : lseg (links h) (freelist h) (free_list h 0 bs) NULL
}.

Definition heap_ok (h : CodeHeap) (bs : blocks) : Prop := heap_rel h bs /\ no_adjacent bs.

Lemma blocks_at_lengths h i bs : blocks_at h i bs -> lengths_ok bs.
Proof. revert i. induction bs as [|[l u] bs IH]; cbn; [done|]. intros i (? & _ & _ & ?%IH). done. Qed.

Lemma blocks_at_app h i b1 b2 :
  blocks_at h i (b1 ++ b2) <-> blocks_at h i b1 /\ blocks_at h (i + total b1) b2.
Proof.
  revert i. induction b1 as [|[l u] b1 IH]; intros i; cbn; [rewrite Z.add_0_r; tauto|].
  rewrite IH, Z.add_assoc. tauto.
Qed.

Lemma free_list_app h i b1 b2 :
  free_list h i (b1 ++ b2) = free_list h i b1 ++ free_list h (i + total b1) b2.
Proof. unfold free_list. by rewrite with_bit_app, fmap_app. Qed.

(** Two heaps that agree on the segments of some blocks. *)
Definition agree (h h' : CodeHeap) (i e : Z) : Prop := forall j, i <= j < e ->
  headers h' !! loc h j = headers h !! loc h j /\
  arr_get (segmap_bytes h') j = arr_get (segmap_bytes h) j.

Lemma static_loc h h' i : static h' = static h -> loc h' i = loc h i.
Proof. unfold static, loc. intros [= -> _ _ _ _ ->]. done. Qed.

Lemma static_free_list h h' i bs : static h' = static h -> free_list h' i bs = free_list h i bs.
Proof. intros Hs. apply list_fmap_ext. intros _ x _. by apply static_loc. Qed.

Lemma blocks_at_agree h h' i bs : static h' = static h -> agree h h' i (i + total bs) ->
  blocks_at h i bs -> blocks_at h' i bs.
Proof.
  intros Hs. revert i. induction bs as [|[l u] bs IH]; intros i Ha; cbn; [done|].
  intros (Hl & Hh & Hm & Hb). pose proof (total_nonneg bs (blocks_at_lengths _ _ _ Hb)).
  cbn in Ha. split_and!; [done| | |].
  - rewrite (static_loc h h') by done. rewrite (proj1 (Ha i ltac:(lia))). done.
  - intros j Hj. rewrite (proj2 (Ha (i + j) ltac:(lia))). by apply Hm.
  - apply IH; [|done]. intros j Hj. apply Ha. lia.
Qed.

Lemma static_geom h h' : static h' = static h ->
  Datatypes.length (segmap_bytes h') = Datatypes.length (segmap_bytes h) -> geom h -> geom h'.
Proof.
  intros Hs Hl []. pose proof (static_loc h h' (number_of_committed_segments h) Hs) as El.
  unfold static in Hs. injection Hs as E1 E2 E3 E4 E5 E6.
  split; rewrite ?E1, ?E3, ?E5, ?E6, ?Hl, ?El; done.
Qed.

(** ** Addresses *)

Section Geometry.
Context (h : CodeHeap) (G : geom h).

Lemma seg_pos : 32 <= 2 ^ log2_segment_size h.
Proof using G. destruct G. change 32 with (2 ^ 5). apply Z.pow_le_mono_r; lia. Qed.

Lemma loc_inj i j : loc h i = loc h j -> i = j.
Proof using G. unfold loc. pose proof seg_pos. intros E. apply (Z.mul_cancel_r _ _ (2 ^ log2_segment_size h)); lia. Qed.

Lemma loc_lt i j : loc h i < loc h j <-> i < j.
Proof using G. unfold loc. pose proof seg_pos. rewrite (Z.mul_lt_mono_pos_r (2 ^ log2_segment_size h) i j) by lia. lia. Qed.

Lemma loc_pos i : 0 <= i -> 0 < loc h i.
Proof using G. unfold loc. pose proof seg_pos. destruct G. nia. Qed.

Lemma loc_max i : i <= number_of_committed_segments h -> loc h i <= 2 ^ 62.
Proof using G.
  intros Hi. destruct G. destruct (Z.eq_dec i (number_of_committed_segments h)) as [->|]; [done|].
  assert (loc h i < loc h (number_of_committed_segments h)) by (apply loc_lt; lia). lia.
Qed.

Lemma loc_add i l : loc h i + l * 2 ^ log2_segment_size h = loc h (i + l).
Proof using Type. unfold loc. lia. Qed.

(** The sizes up to the whole heap do not overflow. *)
Lemma seg_mul l : 0 <= l <= number_of_committed_segments h ->
  0 <= l * 2 ^ log2_segment_size h < 2 ^ 62.
Proof using G.
  intros Hl. pose proof seg_pos. pose proof (loc_max l ltac:(lia)). destruct G. unfold loc in *. nia.
Qed.

Lemma block_at_eq i : 0 <= i <= number_of_committed_segments h -> block_at h i = loc h i.
Proof using G.
  intros Hi. unfold block_at, loc. rewrite Z.shiftl_mul_pow2 by (destruct G; lia).
  pose proof (seg_mul i Hi). rewrite uwrap_small; [done|lia|unfold in_u; lia].
Qed.

(** The segment of any address within a segment. *)
Lemma segment_for_eq i r : 0 <= i <= number_of_committed_segments h ->
  0 <= r < 2 ^ log2_segment_size h -> segment_for h (loc h i + r) = i.
Proof using G.
  intros Hi Hr. unfold segment_for, loc. pose proof seg_pos. pose proof (seg_mul i Hi).
  replace (low (memory h) + i * 2 ^ log2_segment_size h + r - low (memory h))
    with (i * 2 ^ log2_segment_size h + r) by lia.
  rewrite shiftr_mul_add by (destruct G; lia). apply uwrap_small; [lia|]. unfold in_u. nia.
Qed.

Lemma segment_for_loc i : 0 <= i <= number_of_committed_segments h -> segment_for h (loc h i) = i.
Proof using G.
  intros Hi. pose proof seg_pos. pose proof (segment_for_eq i 0 Hi ltac:(lia)) as E.
  by rewrite Z.add_0_r in E.
Qed.

Lemma count_bound : number_of_committed_segments h < 2 ^ 57.
Proof using G.
  pose proof seg_pos. pose proof (seg_mul (number_of_committed_segments h)) as Hm.
  destruct G. specialize (Hm ltac:(lia)). nia.
Qed.
End Geometry.

(* ------------------------------------------------------------------ *)
(** ** Changing some blocks of a heap *)

Lemma free_list_in h i bs x : lengths_ok bs -> x ∈ free_list h i bs ->
  exists j, i <= j < i + total bs /\ x = loc h j.
Proof.
  intros Hl Hx. apply list_elem_of_fmap in Hx as ([j l] & -> & Hj).
  destruct (with_bit_range _ _ _ _ _ Hl Hj). exists j. split; [lia|done].
Qed.

Lemma heap_rel_lengths h bs : heap_rel h bs -> lengths_ok bs.
Proof. intros R. eapply blocks_at_lengths, hr_blocks, R. Qed.

(** The list of free blocks is in three parts like the blocks. *)
Lemma heap_rel_list h b1 mid b2 : heap_rel h (b1 ++ mid ++ b2) -> exists p q,
  lseg (links h) (freelist h) (free_list h 0 b1) p /\
  lseg (links h) p (free_list h (total b1) mid) q /\
  lseg (links h) q (free_list h (total b1 + total mid) b2) NULL.
Proof.
  intros R. pose proof (hr_list _ _ R) as Hl. rewrite !free_list_app in Hl.
  apply lseg_app in Hl as (p & H1 & (q & H2 & H3)%lseg_app). by exists p, q.
Qed.

(** The same list with the middle replaced; links may change at the places of the middle
    and of the last free block before it. *)
Lemma heap_rel_update h h' b1 mid mid' b2 :
  heap_rel h (b1 ++ mid ++ b2) -> static h' = static h ->
  Datatypes.length (segmap_bytes h') = Datatypes.length (segmap_bytes h) ->
  next_segment h' = next_segment h -> total mid' = total mid ->
  (forall j, 0 <= j < total b1 \/ total b1 + total mid <= j ->
     headers h' !! loc h j = headers h !! loc h j /\
     arr_get (segmap_bytes h') j = arr_get (segmap_bytes h) j) ->
  blocks_at h' (total b1) mid' ->
  free_segments h' = free_segments h - free_total mid + free_total mid' ->
  lseg (links h') (freelist h') (free_list h 0 (b1 ++ mid' ++ b2)) NULL ->
  heap_rel h' (b1 ++ mid' ++ b2).
Proof.
  intros R Hs Hlen Hn Ht Ha Hm Hf Hl. pose proof (heap_rel_lengths _ _ R) as Hpos.
  rewrite !lengths_ok_app in Hpos. destruct Hpos as (P1 & P2 & P3).
  pose proof (total_nonneg _ P1). pose proof (total_nonneg _ P2). pose proof (total_nonneg _ P3).
  destruct R as [G Hb Hnext Htop Hun Hfree _]. rewrite !total_app in *. rewrite !free_total_app in *.
  assert (EN : number_of_committed_segments h' = number_of_committed_segments h).
  { unfold static in Hs. congruence. }
  rewrite !blocks_at_app, !Z.add_0_l in Hb. destruct Hb as (B1 & _ & B3).
  split; rewrite ?total_app, ?free_total_app, ?EN, ?Ht.
  - by apply (static_geom h).
  - rewrite !blocks_at_app, !Z.add_0_l, Ht. split_and!; [|done|].
    + apply (blocks_at_agree h); [done| |done]. intros j Hj. apply Ha. lia.
    + apply (blocks_at_agree h); [done| |done]. intros j Hj. apply Ha. lia.
  - congruence.
  - lia.
  - intros j Hj. rewrite (proj2 (Ha j ltac:(lia))). apply Hun. lia.
  - lia.
  - by rewrite (static_free_list h).
Qed.

(** ** Merging *)

Definition merge_head (l : Z) (bs : blocks) : blocks :=
  match bs with (l2, false) :: bs => (l + l2, false) :: bs | _ => (l, false) :: bs end.

Lemma following_block_eq h b1 l u b2 : heap_rel h (b1 ++ (l, u) :: b2) ->
  following_block h (loc h (total b1)) = Some (loc h (total b1 + l)).
Proof.
  intros [G Hb _ Ht _ _ _]. pose proof (blocks_at_lengths _ _ _ Hb) as Hl.
  rewrite lengths_ok_app in Hl. cbn in Hl. destruct Hl as (P1 & ? & P2).
  pose proof (total_nonneg _ P1). pose proof (total_nonneg _ P2). rewrite total_app in Ht. cbn in Ht.
  rewrite blocks_at_app in Hb. destruct Hb as (_ & _ & Hh & _). rewrite Z.add_0_l in Hh.
  unfold following_block, HeapBlock_length. rewrite Hh. cbn.
  rewrite (ge_size h G), Z.mul_comm. pose proof (seg_mul h G l ltac:(lia)).
  rewrite uwrap_small by (try lia; unfold in_u; lia). by rewrite loc_add.
Qed.

(** The link of a free block leads to the next one, or is null. *)
Lemma link_eq h b1 l b2 : heap_rel h (b1 ++ (l, false) :: b2) ->
  FreeBlock_link h (loc h (total b1)) = Some (default NULL (head (free_list h (total b1 + l) b2))).
Proof.
  intros R. destruct (heap_rel_list h b1 [(l, false)] b2 R) as (p & q & _ & H2 & H3).
  cbn in H2. destruct H2 as (-> & r & Hr & ->). unfold FreeBlock_link. rewrite Hr.
  cbn in H3. rewrite Z.add_0_r in H3. by rewrite (lseg_head _ _ _ H3).
Qed.

(** It is the block that follows exactly when that block is free. *)
Lemma link_follows h b1 l b2 : heap_rel h (b1 ++ (l, false) :: b2) ->
  default NULL (head (free_list h (total b1 + l) b2)) = loc h (total b1 + l) <->
  exists l2 b3, b2 = (l2, false) :: b3.
Proof.
  intros R. pose proof (heap_rel_lengths _ _ R) as Hl. rewrite lengths_ok_app in Hl. cbn in Hl.
  destruct Hl as (P1 & ? & P2). pose proof (total_nonneg _ P1). pose proof (hr_geom _ _ R) as G.
  split.
  - destruct b2 as [|[l2 [|]] b3]; cbn.
    + pose proof (loc_pos h G (total b1 + l) ltac:(lia)). unfold NULL. lia.
    + cbn in P2. destruct P2 as [? P3]. intros E. exfalso.
      destruct (free_list h (total b1 + l + l2) b3) as [|x xs] eqn:Ef.
      * pose proof (loc_pos h G (total b1 + l) ltac:(lia)).
        unfold free_list in Ef. rewrite Ef in E. cbn in E. unfold NULL in E. lia.
      * unfold free_list in Ef. rewrite Ef in E. cbn in E. subst x.
        destruct (free_list_in h (total b1 + l + l2) b3 (loc h (total b1 + l)) P3) as (j & Hj & Ej).
        { unfold free_list. rewrite Ef. apply list_elem_of_here. }
        apply (loc_inj h G) in Ej. lia.
    + intros _. by exists l2, b3.
  - intros (l2 & b3 & ->). done.
Qed.

Lemma header_at h b1 l u b2 : heap_rel h (b1 ++ (l, u) :: b2) ->
  headers h !! loc h (total b1) = Some {| length_ := l; used_ := u |}.
Proof. intros R. pose proof (hr_blocks _ _ R) as Hb. rewrite blocks_at_app in Hb. apply Hb. Qed.

Lemma block_bounds h b1 l u b2 : heap_rel h (b1 ++ (l, u) :: b2) ->
  0 <= total b1 /\ 0 < l /\ 0 <= total b2 /\ total b1 + l + total b2 <= number_of_committed_segments h.
Proof.
  intros R. pose proof (heap_rel_lengths _ _ R) as Hl. rewrite lengths_ok_app in Hl. cbn in Hl.
  pose proof (hr_top _ _ R) as Ht. rewrite total_app in Ht. cbn in Ht.
  destruct Hl as (P1 & ? & P2). pose proof (total_nonneg _ P1). pose proof (total_nonneg _ P2). lia.
Qed.

(** A list segment through the blocks below [i] does not see a change at [i] or above. *)
Lemma lseg_below h m m' p i bs q e : geom h -> lengths_ok bs -> i + total bs <= e ->
  (forall j, j < e -> m' !! loc h j = m !! loc h j) ->
  lseg m p (free_list h i bs) q -> lseg m' p (free_list h i bs) q.
Proof.
  intros G Hl He Hm. apply lseg_frame. intros x Hx.
  destruct (free_list_in _ _ _ _ Hl Hx) as (j & ? & ->). apply Hm. lia.
Qed.

Lemma lseg_above h m m' p i bs q e : geom h -> lengths_ok bs -> e < i ->
  (forall j, e < j -> m' !! loc h j = m !! loc h j) ->
  lseg m p (free_list h i bs) q -> lseg m' p (free_list h i bs) q.
Proof.
  intros G Hl He Hm. apply lseg_frame. intros x Hx.
  destruct (free_list_in _ _ _ _ Hl Hx) as (j & ? & ->). apply Hm. lia.
Qed.

Lemma loc_insert_ne {A} h (m : gmap Z A) i j x : geom h -> i <> j ->
  <[loc h i := x]> m !! loc h j = m !! loc h j.
Proof. intros G Hij. apply lookup_insert_ne. intros E. by apply Hij, (loc_inj h G). Qed.

Lemma merge_right_spec h b1 l b2 : heap_rel h (b1 ++ (l, false) :: b2) ->
  exists h', merge_right h (loc h (total b1)) = Some h' /\ static h' = static h /\
    heap_rel h' (b1 ++ merge_head l b2).
Proof.
  intros R. unfold merge_right.
  rewrite (following_block_eq h b1 l false b2 R), (link_eq h b1 l b2 R). cbn [mbind option_bind].
  destruct (Z.eqb_spec (loc h (total b1 + l)) (default NULL (head (free_list h (total b1 + l) b2))))
    as [E|E].
  2: { exists h. split; [done|]. split; [done|].
       assert (Hn : ~ exists l2 b3, b2 = (l2, false) :: b3).
       { intros Hb. apply E. symmetry. by apply (link_follows h b1 l). }
       destruct b2 as [|[l2 []] b3]; [done|done|]. destruct Hn. by eexists _, _. }
  symmetry in E. pose proof E as Ef. apply (link_follows h b1 l) in Ef as (l2 & b3 & ->); [|done].
  rewrite E. pose proof (hr_geom _ _ R) as G. pose proof (header_at _ _ _ _ _ R) as Hh.
  assert (R2 : heap_rel h ((b1 ++ [(l, false)]) ++ (l2, false) :: b3)) by (by rewrite <- app_assoc).
  pose proof (header_at _ _ _ _ _ R2) as Hh2. pose proof (link_eq _ _ _ _ R2) as Hl2.
  pose proof (block_bounds _ _ _ _ _ R) as Hb. cbn [total] in Hb.
  pose proof (block_bounds _ _ _ _ _ R2) as Hb2. rewrite total_app in Hh2, Hl2, Hb2. cbn [total] in Hh2, Hl2, Hb2.
  rewrite Z.add_0_r in *. pose proof (count_bound h G).
  unfold HeapBlock_length. rewrite Hh, Hh2. cbn [fmap option_fmap option_map mbind option_bind length_].
  rewrite (uwrap_small 64 ltac:(lia) (l + l2)) by (unfold in_u; lia).
  change (FreeBlock_link (set_length h (loc h (total b1)) (l + l2)) (loc h (total b1 + l)))
    with (FreeBlock_link h (loc h (total b1 + l))). rewrite Hl2. cbn [mbind option_bind].
  set (h1 := set_link _ _ _). assert (G1 : geom h1) by (by apply (static_geom h)).
  change (segment_for h1 (loc h (total b1))) with (segment_for h (loc h (total b1))).
  rewrite (segment_for_loc h G) by lia.
  assert (Hh1 : headers h1 !! loc h (total b1) = Some {| length_ := l + l2; used_ := false |}).
  { unfold h1, set_link, set_length. cbn. by rewrite lookup_insert_eq, Hh. }
  rewrite Hh1. cbn [mbind option_bind fmap option_fmap option_map length_].
  rewrite (uwrap_small 64 ltac:(lia)) by (unfold in_u; lia).
  destruct (mark_used_spec h1 (total b1) (total b1 + (l + l2))) as (s' & Es & Hlen & Hs');
    [lia|pose proof (ge_count h G); cbn; lia|].
  rewrite Es. eexists. split; [done|]. split; [done|].
  destruct (heap_rel_list h b1 [(l, false); (l2, false)] b3 R) as (p & q & L1 & L2 & L3).
  cbn in L2. destruct L2 as (-> & r & Hr & -> & r2 & Hr2 & ->).
  cbn [total] in L3. rewrite Z.add_0_r in L3. pose proof (lseg_head _ _ _ L3) as Eq. rewrite Z.add_assoc in L3, Eq.
  pose proof (heap_rel_lengths _ _ R) as Hpos. rewrite lengths_ok_app in Hpos. cbn in Hpos.
  apply (heap_rel_update h _ b1 [(l, false); (l2, false)] [(l + l2, false)] b3 R); try done.
  - cbn. lia.
  - intros j Hj. cbn in Hj. cbn. rewrite Hs'. rewrite loc_insert_ne by (try done; lia). split; [done|].
    cbn. zcases; done.
  - cbn. split_and!; [lia|by apply Hh1| |done]. intros j Hj. rewrite Hs'.
    destruct (Z.leb_spec (total b1) (total b1 + j)); [|lia].
    destruct (Z.ltb_spec (total b1 + j) (total b1 + (l + l2))); [|lia]. cbn. do 2 f_equal. lia.
  - cbn. lia.
  - cbn [set_segmap_bytes links freelist h1 set_link set_length set_header].
    rewrite free_list_app. apply lseg_app. exists (loc h (total b1)). split.
    + apply (lseg_below h (links h) _ _ _ _ _ (total b1)); [done|by destruct Hpos|lia| |done].
      intros j Hj. apply loc_insert_ne; [done|lia].
    + cbn. split; [by rewrite Z.add_0_l|]. rewrite Z.add_0_l. eexists. split; [apply lookup_insert_eq|].
      rewrite <- Eq. apply (lseg_above h (links h) _ _ _ _ _ (total b1)); [done|by destruct Hpos as (? & ? & ? & ?)|lia| |].
      * intros j Hj. apply loc_insert_ne; [done|lia].
      * replace (total b1 + (l + l2)) with (total b1 + l + l2) by lia. done.
Qed.

(* ------------------------------------------------------------------ *)
(** ** Adding a block to the free list *)

Definition all_used (bs : blocks) : Prop := Forall (fun x => x.2 = true) bs.

Lemma all_used_free i bs : all_used bs -> free_blocks i bs = [].
Proof. intros H. revert i. induction H as [|[l u] bs Hu _ IH]; intros i; [done|]. cbn in *. by rewrite Hu, IH. Qed.

Lemma all_used_no_adjacent b1 b2 : all_used b1 -> no_adjacent (b1 ++ b2) <-> no_adjacent b2.
Proof. induction 1 as [|[l u] b1 Hu _ IH]; [done|]. cbn in Hu. subst u. cbn. exact IH. Qed.

(** The last free block of a sequence. *)
Lemma last_free bs : all_used bs \/
  exists b1 l b2, bs = b1 ++ (l, false) :: b2 /\ all_used b2.
Proof.
  induction bs as [|[l u] bs [IH|(b1 & l0 & b2 & -> & H)]]; [by left; constructor| |].
  - destruct u; [left; by constructor|right; by exists [], l, bs].
  - right. by exists ((l, u) :: b1), l0, b2.
Qed.

Lemma no_adjacent_used b1 l b2 : no_adjacent (b1 ++ (l, true) :: b2) <-> no_adjacent b1 /\ no_adjacent b2.
Proof.
  induction b1 as [|[x u] b1 IH]; cbn [app].
  - cbn. tauto.
  - destruct u; [exact IH|]. destruct b1 as [|[y []] b1]; [cbn; tauto|exact IH|cbn; tauto].
Qed.

(** Whether free blocks are adjacent does not depend on their lengths. *)
Lemma no_adjacent_free b1 l b2 :
  no_adjacent (b1 ++ (l, false) :: b2) <-> no_adjacent (b1 ++ [(0, false)]) /\ no_adjacent ((0, false) :: b2).
Proof.
  induction b1 as [|[x u] b1 IH]; cbn [app].
  - cbn. tauto.
  - destruct u; [exact IH|]. destruct b1 as [|[y []] b1]; [cbn; tauto|exact IH|cbn; tauto].
Qed.

Lemma merge_head_cons l bs : exists x t, merge_head l bs = (x, false) :: t /\
  (no_adjacent bs -> no_adjacent ((0, false) :: t)).
Proof.
  destruct bs as [|[y [|]] bs]; [by eexists _, _| |].
  - by eexists _, _.
  - eexists _, _. split; [done|]. done.
Qed.

Lemma merge_head_no_adjacent l bs : no_adjacent bs -> no_adjacent (merge_head l bs).
Proof.
  intros Hb. destruct (merge_head_cons l bs) as (x & t & -> & Ht).
  apply (no_adjacent_free [] x t). split; [done|by apply Ht].
Qed.

Lemma merge_head_total l bs : total (merge_head l bs) = l + total bs.
Proof. destruct bs as [|[y []] bs]; cbn; lia. Qed.

Lemma merge_head_free l bs : free_total (merge_head l bs) = l + free_total bs.
Proof. destruct bs as [|[y []] bs]; cbn; lia. Qed.

Lemma merge_head_used i l bs : with_bit true i (merge_head l bs) = with_bit true (i + l) bs.
Proof. destruct bs as [|[y []] bs]; cbn; [done|done|]. f_equal. lia. Qed.

Lemma free_list_length h i bs : lengths_ok bs -> Z.of_nat (Datatypes.length (free_list h i bs)) <= total bs.
Proof.
  unfold free_list. rewrite length_fmap. revert i. induction bs as [|[l u] bs IH]; intros i; cbn; [lia|].
  intros [? Hb]. rewrite length_app. pose proof (IH (i + l) Hb). destruct u; cbn; lia.
Qed.

(** The scan stops behind the blocks below [b]. *)
Lemma scan_spec h b fuel : forall prev cur xs q,
  lseg (links h) cur xs q -> Forall (fun x => 0 < x < b) xs -> q = NULL \/ b <= q ->
  (Datatypes.length xs < fuel)%nat ->
  scan_freelist fuel h b prev cur = Some (default prev (list.last xs), q).
Proof.
  induction fuel as [|fuel IH]; intros prev cur xs q Hl Hx Hq Hf; [lia|]. cbn [scan_freelist].
  destruct xs as [|x xs]; cbn in Hl.
  - subst cur. destruct (Z.eqb_spec q NULL); [done|]. destruct (Z.ltb_spec q b); [lia|done].
  - destruct Hl as (-> & r & Hr & Hl). apply list.Forall_cons in Hx as [Hx Hxs].
    unfold NULL. destruct (Z.eqb_spec x 0); [lia|]. destruct (Z.ltb_spec x b); [|lia]. cbn [negb andb].
    unfold FreeBlock_link. rewrite Hr. cbn [mbind option_bind].
    rewrite (IH _ _ xs q); [|done..|cbn in Hf; lia].
    destruct xs as [|y xs]; [done|]. rewrite last_cons_cons.
    destruct (list.last (y :: xs)) eqn:E; [done|]. by apply last_None in E.
Qed.

(** The heap after the block was made free, before the list is made to hold it. *)
Definition freed (h h' : CodeHeap) (i l : Z) : Prop :=
  static h' = static h /\ segmap_bytes h' = segmap_bytes h /\ next_segment h' = next_segment h /\
  free_segments h' = free_segments h + l /\
  headers h' = <[loc h i := {| length_ := l; used_ := false |}]> (headers h).

Lemma insert_rel h h' b1 l b2 : heap_rel h (b1 ++ (l, true) :: b2) -> freed h h' (total b1) l ->
  lseg (links h') (freelist h') (free_list h 0 (b1 ++ (l, false) :: b2)) NULL ->
  heap_rel h' (b1 ++ (l, false) :: b2).
Proof.
  intros R (Hs & Hm & Hn & Hf & Hh) Hl. pose proof (hr_geom _ _ R) as G.
  pose proof (block_bounds _ _ _ _ _ R) as Hb.
  apply (heap_rel_update h h' b1 [(l, true)] [(l, false)] b2 R); try done.
  - by rewrite Hm.
  - intros j Hj. cbn in Hj. rewrite Hh, Hm, loc_insert_ne by (try done; lia). done.
  - cbn. rewrite Hh, Hm, (static_loc h h') by done. split_and!; [lia|apply lookup_insert_eq| |done].
    pose proof (hr_blocks _ _ R) as Hbl. rewrite blocks_at_app in Hbl. apply Hbl.
  - cbn. lia.
Qed.

(** It is linked in front of the list, or behind the last free block below it. *)
Lemma insert_front h h' b1 l b2 q : heap_rel h (b1 ++ (l, true) :: b2) -> freed h h' (total b1) l ->
  all_used b1 -> lseg (links h) q (free_list h (total b1 + l) b2) NULL ->
  freelist h' = loc h (total b1) -> links h' = <[loc h (total b1) := q]> (links h) ->
  heap_rel h' (b1 ++ (l, false) :: b2).
Proof.
  intros R Hf Hu Hq Ef El. apply (insert_rel h); try done. pose proof (hr_geom _ _ R) as G.
  pose proof (block_bounds _ _ _ _ _ R) as Hb. pose proof (heap_rel_lengths _ _ R) as P.
  rewrite lengths_ok_app in P. destruct P as (_ & _ & P2).
  rewrite free_list_app, Ef, El. unfold free_list at 1. rewrite (all_used_free 0 b1 Hu). cbn.
  rewrite Z.add_0_l. split; [done|]. exists q. split; [apply lookup_insert_eq|].
  apply (lseg_above h (links h) _ _ _ _ _ (total b1)); [done|done|lia| |done].
  intros j Hj. apply loc_insert_ne; [done|lia].
Qed.

Lemma insert_behind h h' b1 c1 l0 c2 l b2 q :
  b1 = c1 ++ (l0, false) :: c2 ->
  heap_rel h (b1 ++ (l, true) :: b2) -> freed h h' (total b1) l ->
  all_used c2 -> lseg (links h) (freelist h) (free_list h 0 b1) q ->
  lseg (links h) q (free_list h (total b1 + l) b2) NULL ->
  freelist h' = freelist h ->
  links h' = <[loc h (total c1) := loc h (total b1)]> (<[loc h (total b1) := q]> (links h)) ->
  heap_rel h' (b1 ++ (l, false) :: b2).
Proof.
  intros Eb R Hf Hu L1 L2 Ef El. apply (insert_rel h); try done. pose proof (hr_geom _ _ R) as G.
  pose proof (block_bounds _ _ _ _ _ R) as Hb. pose proof (heap_rel_lengths _ _ R) as P.
  rewrite Eb in P. rewrite !lengths_ok_app in P. destruct P as ((P1 & P0 & P3) & _ & P2).
  pose proof (total_nonneg _ P1). pose proof (total_nonneg _ P3).
  assert (Et : total b1 = total c1 + l0 + total c2) by (rewrite Eb, total_app; cbn; lia).
  rewrite Eb in L1. rewrite free_list_app in L1. apply lseg_app in L1 as (p & L0 & L1).
  rewrite Z.add_0_l in L1. unfold free_list in L1 at 1. cbn in L1. rewrite (all_used_free _ c2 Hu) in L1. cbn in L1.
  destruct L1 as (-> & r & Hr & ->).
  rewrite free_list_app, Ef, El. apply lseg_app. exists (loc h (total b1)). rewrite !Z.add_0_l. split.
  - rewrite Eb, free_list_app, <- Eb. apply lseg_app. exists (loc h (total c1)). split.
    + apply (lseg_below h (links h) _ _ _ _ _ (total c1)); [done|done|lia| |done].
      intros j Hj. rewrite !loc_insert_ne by (try done; lia). done.
    + rewrite Z.add_0_l. unfold free_list. cbn. rewrite (all_used_free _ c2 Hu). cbn. split; [done|].
      eexists. split; [apply lookup_insert_eq|done].
  - unfold free_list at 1. cbn. split; [done|]. exists q. split.
    + rewrite loc_insert_ne by (try done; cbn in P0; lia). apply lookup_insert_eq.
    + apply (lseg_above h (links h) _ _ _ _ _ (total b1)); [done|done|lia| |done].
      intros j Hj. cbn in P0. rewrite !loc_insert_ne by (try done; lia). done.
Qed.

(** What [add_to_freelist] makes of the blocks: merged with a free block on either side. *)
Definition released (b1 : blocks) (l : Z) (b2 bs : blocks) : Prop :=
  (all_used b1 /\ bs = b1 ++ merge_head l b2) \/
  (exists c1 l0 c2, b1 = c1 ++ (l0, false) :: c2 /\ all_used c2 /\
     bs = c1 ++ merge_head l0 (c2 ++ merge_head l b2)).

Lemma released_no_adjacent b1 l b2 bs : released b1 l b2 bs -> no_adjacent b1 -> no_adjacent b2 ->
  no_adjacent bs.
Proof.
  intros [[Hu ->]|(c1 & l0 & c2 & -> & Hu & ->)] H1 H2.
  - apply all_used_no_adjacent; [done|]. by apply merge_head_no_adjacent.
  - destruct (merge_head_cons l0 (c2 ++ merge_head l b2)) as (x & t & -> & Ht).
    apply no_adjacent_free in H1 as [H1 _]. apply no_adjacent_free. split; [done|]. apply Ht.
    apply all_used_no_adjacent; [done|]. by apply merge_head_no_adjacent.
Qed.

Lemma released_used b1 l b2 bs i : released b1 l b2 bs ->
  with_bit true i bs = with_bit true i (b1 ++ (l, false) :: b2).
Proof.
  intros [[Hu ->]|(c1 & l0 & c2 & -> & Hu & ->)].
  - by rewrite !with_bit_app, merge_head_used.
  - rewrite <- app_assoc, !with_bit_app, !merge_head_used, with_bit_app, merge_head_used.
    cbn. by rewrite !Z.add_assoc.
Qed.

(** The places before and after a block in the list of free blocks. *)
Lemma list_around h b1 l b2 : heap_rel h (b1 ++ (l, true) :: b2) -> exists q,
  lseg (links h) (freelist h) (free_list h 0 b1) q /\
  lseg (links h) q (free_list h (total b1 + l) b2) NULL /\
  (q = NULL \/ loc h (total b1) <= q) /\
  Forall (fun x => 0 < x < loc h (total b1)) (free_list h 0 b1) /\
  (Datatypes.length (free_list h 0 b1) < list_fuel h)%nat.
Proof.
  intros R. destruct (heap_rel_list h b1 [(l, true)] b2 R) as (q & q' & H1 & H2 & H3).
  cbn in H2. subst q'. cbn [total] in H3. rewrite Z.add_0_r in H3.
  pose proof (hr_geom _ _ R) as G. pose proof (block_bounds _ _ _ _ _ R) as Hb.
  pose proof (heap_rel_lengths _ _ R) as Hl. rewrite lengths_ok_app in Hl. destruct Hl as (P1 & ? & P2).
  exists q. split_and!; [done..| | |].
  - rewrite (lseg_head _ _ _ H3). destruct (head _) as [x|] eqn:E; cbn; [right|by left].
    assert (x ∈ free_list h (total b1 + l) b2) as Hx.
    { apply head_Some_elem_of in E. done. }
    destruct (free_list_in _ _ _ _ P2 Hx) as (j & Hj & ->).
    assert (loc h (total b1) < loc h j) by (apply loc_lt; [done|lia]). lia.
  - apply list.Forall_forall. intros x Hx. destruct (free_list_in _ _ _ _ P1 Hx) as (j & Hj & ->).
    split; [apply loc_pos; [done|lia]|apply loc_lt; [done|lia]].
  - pose proof (free_list_length h 0 b1 P1). unfold list_fuel. lia.
Qed.

(** After the bits were written, linking and merging on either side. *)
Lemma insert_after_spec h b1 c1 l0 c2 l b2 q h1 :
  b1 = c1 ++ (l0, false) :: c2 ->
  heap_rel h (b1 ++ (l, true) :: b2) -> freed h h1 (total b1) l -> links h1 = links h ->
  freelist h1 = freelist h -> all_used c2 ->
  lseg (links h) (freelist h) (free_list h 0 b1) q ->
  lseg (links h) q (free_list h (total b1 + l) b2) NULL ->
  exists h', insert_after h1 (loc h (total c1)) (loc h (total b1)) = Some h' /\
    static h' = static h /\ heap_rel h' (c1 ++ merge_head l0 (c2 ++ merge_head l b2)).
Proof.
  intros Eb R Hf El Ef Hu L1 L2. unfold insert_after.
  assert (Hq : FreeBlock_link h1 (loc h (total c1)) = Some q).
  { unfold FreeBlock_link. rewrite El. rewrite Eb, free_list_app in L1.
    apply lseg_app in L1 as (p & _ & L1). unfold free_list in L1. cbn in L1.
    rewrite (all_used_free _ c2 Hu) in L1. cbn in L1. rewrite Z.add_0_l in L1. by destruct L1 as (_ & r & -> & ->). }
  rewrite Hq. cbn [mbind option_bind]. set (h2 := set_link _ _ _).
  pose proof Hf as (Hs & _).
  assert (R2 : heap_rel h2 (b1 ++ (l, false) :: b2)).
  { apply (insert_behind h h2 b1 c1 l0 c2 l b2 q); try done.
    unfold h2, set_link. cbn. by rewrite El. }
  assert (Hs2 : static h2 = static h) by done.
  destruct (merge_right_spec h2 b1 l b2 R2) as (h3 & E3 & Hs3 & R3).
  rewrite <- (static_loc h h2 (total b1)) by done. rewrite E3. cbn [mbind option_bind].
  rewrite Eb, <- app_assoc in R3. cbn [app] in R3.
  destruct (merge_right_spec h3 c1 l0 (c2 ++ merge_head l b2) R3) as (h4 & E4 & Hs4 & R4).
  rewrite <- (static_loc h h3 (total c1)) by congruence. rewrite E4.
  exists h4. split_and!; [done| |done].
  by rewrite Hs4, Hs3, Hs2.
Qed.

Lemma insert_first_spec h b1 l b2 h1 h2 :
  heap_rel h (b1 ++ (l, true) :: b2) -> freed h h1 (total b1) l -> links h1 = links h ->
  freelist h1 = freelist h -> all_used b1 ->
  lseg (links h) (freelist h) (free_list h (total b1 + l) b2) NULL ->
  h2 = set_freelist (set_link h1 (loc h (total b1)) (freelist h)) (loc h (total b1)) ->
  heap_rel h2 (b1 ++ (l, false) :: b2) /\
  exists h', merge_right h2 (loc h (total b1)) = Some h' /\ static h' = static h /\
    heap_rel h' (b1 ++ merge_head l b2).
Proof.
  intros R Hf El Ef Hu L2 ->. set (h2 := set_freelist _ _). pose proof Hf as (Hs & _).
  assert (R2 : heap_rel h2 (b1 ++ (l, false) :: b2)).
  { apply (insert_front h h2 b1 l b2 (freelist h)); try done. unfold h2, set_link. cbn. by rewrite El. }
  split; [done|]. destruct (merge_right_spec h2 b1 l b2 R2) as (h3 & E3 & Hs3 & R3).
  rewrite <- (static_loc h h2 (total b1)) by done. exists h3. split_and!; [done| |done].
  by rewrite Hs3.
Qed.

Lemma add_to_freelist_spec h b1 l b2 : heap_rel h (b1 ++ (l, true) :: b2) ->
  exists h' bs, add_to_freelist h (loc h (total b1)) = Some h' /\ static h' = static h /\
    heap_rel h' bs /\ released b1 l b2 bs.
Proof.
  intros R. destruct (list_around _ _ _ _ R) as (q & L1 & L2 & Hq & Hx & Hfuel).
  pose proof (hr_geom _ _ R) as G. pose proof (header_at _ _ _ _ _ R) as Hh.
  pose proof (block_bounds _ _ _ _ _ R) as Hb. pose proof (count_bound h G).
  pose proof (hr_free _ _ R) as Hf. pose proof (free_total_bounds _ (heap_rel_lengths _ _ R)) as Hft.
  pose proof (hr_top _ _ R) as Htop.
  unfold add_to_freelist, HeapBlock_length. rewrite Hh. cbn [fmap option_fmap option_map mbind option_bind length_].
  rewrite (uwrap_small 64 ltac:(lia)) by (unfold in_u; lia).
  unfold set_free. cbn [headers set_free_segments]. rewrite Hh. cbn [mbind option_bind length_].
  set (h1 := set_header _ _ _). assert (Hfr : freed h h1 (total b1) l) by done.
  change (freelist h1) with (freelist h). change (list_fuel h1) with (list_fuel h).
  assert (Hscan : scan_freelist (list_fuel h) h1 (loc h (total b1)) NULL (freelist h) =
    Some (default NULL (list.last (free_list h 0 b1)), q)).
  { by apply (scan_spec h1 _ _ _ _ (free_list h 0 b1) q). }
  destruct (last_free b1) as [Hu|(c1 & l0 & c2 & -> & Hu)].
  - assert (Eq : q = freelist h).
    { unfold free_list in L1. rewrite (all_used_free 0 b1 Hu) in L1. by cbn in L1. }
    subst q.
    destruct (insert_first_spec h b1 l b2 h1 _ R Hfr eq_refl eq_refl Hu L2 eq_refl)
      as (R2 & h' & E' & Hs' & R').
    destruct (Z.eqb_spec (freelist h) NULL) as [E|E].
    + eexists _, _. split; [done|]. split; [done|]. split.
      * rewrite E in R2. exact R2.
      * left. split; [done|]. f_equal. destruct b2 as [|[x []] b2]; [done|done|].
        exfalso. rewrite E in L2. cbn in L2. destruct L2 as [L2 _].
        pose proof (loc_pos h G (total b1 + l) ltac:(lia)). unfold NULL in L2. lia.
    + rewrite Hscan. unfold free_list at 1. rewrite (all_used_free 0 b1 Hu). cbn.
      exists h', (b1 ++ merge_head l b2). split_and!; [done..|]. by left.
  - assert (Hne : freelist h <> NULL /\
      default NULL (list.last (free_list h 0 (c1 ++ (l0, false) :: c2))) = loc h (total c1)).
    { unfold free_list at 1. rewrite with_bit_app. cbn. rewrite (all_used_free _ c2 Hu), fmap_app, last_app. cbn.
      split; [|done]. intros E. destruct (free_list h 0 (c1 ++ (l0, false) :: c2)) as [|x xs] eqn:Efl.
      - unfold free_list in Efl. rewrite with_bit_app, fmap_app in Efl. cbn in Efl.
        by apply app_nil in Efl as [_ ?].
      - cbn in L1. apply list.Forall_cons in Hx as [Hx _]. destruct L1 as (E' & _). unfold NULL in E. lia. }
    destruct Hne as [Hne Hlast]. destruct (Z.eqb_spec (freelist h) NULL); [done|].
    rewrite Hscan, Hlast. cbn [mbind option_bind].
    pose proof (heap_rel_lengths _ _ R) as P. rewrite !lengths_ok_app in P. destruct P as ((P1 & _) & _).
    pose proof (total_nonneg _ P1). pose proof (loc_pos h G (total c1) ltac:(lia)).
    destruct (Z.eqb_spec (loc h (total c1)) NULL); [unfold NULL in *; lia|].
    destruct (insert_after_spec h _ c1 l0 c2 l b2 q h1 eq_refl R Hfr eq_refl eq_refl Hu L1 L2) as (h' & E' & Hs' & R').
    rewrite E'. eexists _, _. split_and!; [done..|]. right. by exists c1, l0, c2.
Qed.

(* ------------------------------------------------------------------ *)
(** ** Searching the free list *)

(** The search on the list of free blocks as addresses and lengths. *)
Fixpoint best_fit (len best best_prev best_length prev : Z) (xs : list (Z * Z)) : Z * Z * Z :=
  match xs with
  | [] => (best, best_prev, best_length)
  | (x, l) :: xs =>
      if (len <=? l) && ((best =? NULL) || (l <? best_length)) then best_fit len x prev l x xs
      else best_fit len best best_prev best_length x xs
  end.

Lemma search_loop_spec h len fuel : forall best bp bl prev cur xs,
  lseg (links h) cur (xs.*1) NULL ->
  Forall (fun x => x.1 <> NULL /\ HeapBlock_length h x.1 = Some x.2) xs ->
  (Datatypes.length xs < fuel)%nat ->
  search_loop fuel h len best bp bl prev cur = Some (best_fit len best bp bl prev xs).
Proof.
  induction fuel as [|fuel IH]; intros best bp bl prev cur xs Hl Hx Hf; [lia|]. cbn [search_loop].
  destruct xs as [|[x l] xs]; cbn in Hl.
  - subst cur. done.
  - destruct Hl as (-> & r & Hr & Hl). apply list.Forall_cons in Hx as [[Hn Hlen] Hxs]. cbn in Hn, Hlen.
    destruct (Z.eqb_spec x NULL); [done|]. rewrite Hlen. cbn [mbind option_bind].
    cbn [best_fit]. unfold FreeBlock_link.
    destruct (_ && _); rewrite Hr; cbn [mbind option_bind]; apply IH; try done; cbn in Hf; lia.
Qed.

(** What is known after the blocks [ys]: nothing fits, or the best is the first of the
    smallest that fit. *)
Definition best_of (len best best_prev best_length : Z) (ys : list (Z * Z)) : Prop :=
  (best = NULL /\ Forall (fun y => y.2 < len) ys) \/
  (best <> NULL /\ exists y1 y2, ys = y1 ++ (best, best_length) :: y2 /\
     best_prev = default NULL (list.last (y1.*1)) /\ len <= best_length /\
     Forall (fun y => len <= y.2 -> best_length < y.2) y1 /\
     Forall (fun y => len <= y.2 -> best_length <= y.2) y2).

Lemma best_fit_spec len xs : forall best bp bl ys,
  Forall (fun x => x.1 <> NULL) xs -> best_of len best bp bl ys ->
  let '(b, p, l) := best_fit len best bp bl (default NULL (list.last (ys.*1))) xs in
  best_of len b p l (ys ++ xs).
Proof.
  induction xs as [|[x l] xs IH]; intros best bp bl ys Hn Hb; cbn [best_fit].
  - by rewrite app_nil_r.
  - apply list.Forall_cons in Hn as [Hx Hn]. cbn in Hx.
    assert (IH' : forall best bp bl, best_of len best bp bl (ys ++ [(x, l)]) ->
      let '(b, p, l') := best_fit len best bp bl x xs in best_of len b p l' (ys ++ (x, l) :: xs)).
    { intros best' bp' bl' Hb'. pose proof (IH best' bp' bl' (ys ++ [(x, l)]) Hn Hb') as I.
      rewrite fmap_app, last_app, <- app_assoc in I. exact I. }
    destruct ((len <=? l) && _) eqn:E; apply IH'; zreflect.
    + right. split; [done|]. exists ys, []. split_and!; [done|done|lia| |constructor].
      destruct Hb as [[-> Hb]|(Hbn & y1 & y2 & -> & _ & Hle & H1 & H2)].
      * eapply List.Forall_impl; [|exact Hb]. cbn. lia.
      * match goal with H : _ || _ = true |- _ => apply orb_prop in H as [H|H]; zreflect; [done|] end.
        apply Forall_app. split; [|constructor; [cbn; lia|]];
          (eapply List.Forall_impl; [|eassumption]); cbn; lia.
    + destruct Hb as [[-> Hb]|(Hbn & y1 & y2 & -> & Hp & Hle & H1 & H2)].
      * left. split; [done|]. apply Forall_app. split; [done|]. constructor; [|constructor]. cbn.
        rewrite Z.eqb_refl in E. cbn in E. rewrite andb_true_r in E. zreflect. lia.
      * right. split; [done|]. exists y1, (y2 ++ [(x, l)]). rewrite <- app_assoc. split_and!; try done.
        apply Forall_app. split; [done|]. constructor; [|constructor]. cbn. intros Hl.
        apply andb_false_iff in E as [E|E]; zreflect; [lia|].
        lia.
Qed.

(** The list of free blocks with their addresses. *)
Definition free_pairs (h : CodeHeap) (bs : blocks) : list (Z * Z) :=
  (fun x => (loc h x.1, x.2)) <$> free_blocks 0 bs.

Lemma free_pairs_list h bs : (free_pairs h bs).*1 = free_list h 0 bs.
Proof. unfold free_pairs, free_list. by rewrite <- list_fmap_compose. Qed.

Lemma with_bit_split_list bit i bs y1 j l y2 : with_bit bit i bs = y1 ++ (j, l) :: y2 ->
  exists b1 b2, bs = b1 ++ (l, bit) :: b2 /\ j = i + total b1 /\ with_bit bit i b1 = y1.
Proof.
  revert i y1. induction bs as [|[x u] bs IH]; intros i y1; cbn; [by destruct y1|].
  destruct (eqb u bit) eqn:Eu; cbn.
  - apply eqb_prop in Eu as ->. destruct y1 as [|y y1]; cbn; intros [= E1 E2].
    + subst. exists [], bs. split_and!; [done|cbn; lia|done].
    + destruct (IH _ _ E2) as (b1 & b2 & -> & -> & E). exists ((x, bit) :: b1), b2.
      split_and!; [done|cbn; lia|]. cbn. rewrite eqb_reflx, E, E1. done.
  - intros E. destruct (IH _ _ E) as (b1 & b2 & -> & -> & E'). exists ((x, u) :: b1), b2.
    split_and!; [done|cbn; lia|]. cbn. by rewrite Eu, E'.
Qed.

Lemma free_pairs_ok h bs : heap_rel h bs ->
  Forall (fun x => x.1 <> NULL /\ HeapBlock_length h x.1 = Some x.2 /\ 0 < x.2) (free_pairs h bs).
Proof.
  intros R. pose proof (hr_geom _ _ R) as G. pose proof (heap_rel_lengths _ _ R) as Hl.
  apply list.Forall_forall. intros [x l] Hin. apply list_elem_of_fmap in Hin as ([j l'] & [= -> ->] & Hin).
  cbn. destruct (with_bit_range _ _ _ _ _ Hl Hin). pose proof (loc_pos h G j ltac:(lia)).
  split; [unfold NULL; lia|]. apply with_bit_split in Hin as (b1 & b2 & -> & ->).
  unfold HeapBlock_length. rewrite Z.add_0_l, (header_at _ _ _ _ _ R). cbn. split; [done|lia].
Qed.

Lemma free_pairs_fuel h bs : heap_rel h bs -> (Datatypes.length (free_pairs h bs) < list_fuel h)%nat.
Proof.
  intros R. pose proof (free_list_length h 0 bs (heap_rel_lengths _ _ R)) as Hfl.
  pose proof (hr_top _ _ R). rewrite <- free_pairs_list, length_fmap in Hfl. unfold list_fuel. lia.
Qed.

(** The answer of the search: no block fits, or the best block and the one before it. *)
Lemma search_spec h bs len : heap_rel h bs ->
  exists b p l, search_loop (list_fuel h) h len NULL NULL 0 NULL (freelist h) = Some (b, p, l) /\
  ((b = NULL /\ Forall (fun y => y.2 < len) (free_blocks 0 bs)) \/
   (exists b1 b2, bs = b1 ++ (l, false) :: b2 /\ b = loc h (total b1) /\ len <= l /\
      p = default NULL (list.last (free_list h 0 b1)) /\
      Forall (fun y => len <= y.2 -> l <= y.2) (free_blocks 0 bs))).
Proof.
  intros R. pose proof (hr_geom _ _ R) as G. pose proof (heap_rel_lengths _ _ R) as Hl.
  pose proof (free_pairs_ok h bs R) as Hx0.
  assert (Hx : Forall (fun x => x.1 <> NULL /\ HeapBlock_length h x.1 = Some x.2) (free_pairs h bs)).
  { eapply List.Forall_impl; [|exact Hx0]. by intros ? (? & ? & ?). }
  pose proof (free_pairs_fuel h bs R) as Hf.
  pose proof (hr_list _ _ R) as HL. rewrite <- free_pairs_list in HL.
  rewrite (search_loop_spec h len _ NULL NULL 0 NULL (freelist h) (free_pairs h bs)); [|done..].
  pose proof (best_fit_spec len (free_pairs h bs) NULL NULL 0 []) as Hb. cbn [list.last fmap list_fmap default app] in Hb.
  destruct (best_fit len NULL NULL 0 NULL (free_pairs h bs)) as [[b p] l].
  exists b, p, l. split; [done|]. destruct Hb as [[-> Hb]|(Hbn & y1 & y2 & E & -> & Hle & H1 & H2)].
  - eapply List.Forall_impl; [|exact Hx]. by intros ? [? _].
  - left. split; [done|constructor].
  - left. split; [done|]. unfold free_pairs in Hb. rewrite Forall_fmap in Hb. exact Hb.
  - right. unfold free_pairs in E. apply fmap_app_inv in E as (z1 & z2 & -> & E2 & E).
    destruct z2 as [|[j l'] z2]; [done|]. cbn in E2. injection E2 as -> -> ->.
    destruct (with_bit_split_list _ _ _ _ _ _ _ E) as (b1 & b2 & -> & Hj & <-). rewrite Z.add_0_l in Hj. subst j.
    exists b1, b2. split_and!; try done.
    + unfold free_list. by rewrite <- list_fmap_compose.
    + rewrite E. rewrite !Forall_fmap in *. apply Forall_app. split; [|constructor; [done|done]].
      eapply List.Forall_impl; [|exact H1]. cbn. intros ? Hlt ?. specialize (Hlt ltac:(done)). lia.
Qed.

(* ------------------------------------------------------------------ *)
(** ** Allocating *)

(** The last free block below a block, as the search remembers it. *)
Lemma last_free_list h b1 : geom h -> lengths_ok b1 ->
  (all_used b1 /\ default NULL (list.last (free_list h 0 b1)) = NULL) \/
  (exists c1 l0 c2, b1 = c1 ++ (l0, false) :: c2 /\ all_used c2 /\ 0 <= total c1 /\ 0 < l0 /\
     0 <= total c2 /\ default NULL (list.last (free_list h 0 b1)) = loc h (total c1) /\
     loc h (total c1) <> NULL).
Proof.
  intros G Hl. destruct (last_free b1) as [Hu|(c1 & l0 & c2 & -> & Hu)].
  - left. split; [done|]. unfold free_list. by rewrite (all_used_free 0 b1 Hu).
  - right. exists c1, l0, c2. rewrite lengths_ok_app in Hl. destruct Hl as (P1 & P0 & P2).
    pose proof (total_nonneg _ P1). pose proof (total_nonneg _ P2).
    pose proof (loc_pos h G (total c1) ltac:(lia)). split_and!; try done; [|unfold NULL; lia].
    unfold free_list. rewrite with_bit_app. cbn. by rewrite (all_used_free _ c2 Hu), fmap_app, last_app.
Qed.

Lemma set_length_header h b l : headers (set_length h b l) !! b =
  Some {| length_ := l; used_ := default false (used_ <$> headers h !! b) |}.
Proof. apply lookup_insert_eq. Qed.

(** Taking a block out of the list. *)
Lemma unlink_spec h b1 l b2 q : heap_rel h (b1 ++ (l, false) :: b2) ->
  FreeBlock_link h (loc h (total b1)) = Some q ->
  let p := default NULL (list.last (free_list h 0 b1)) in
  let h1 := if p =? NULL then set_freelist h q else set_link h p q in
  lseg (links h1) (freelist h1) (free_list h 0 (b1 ++ (l, true) :: b2)) NULL.
Proof.
  intros R Hq p. pose proof (hr_geom _ _ R) as G. pose proof (heap_rel_lengths _ _ R) as P.
  rewrite lengths_ok_app in P. destruct P as (P1 & P0 & P2). cbn in P0.
  destruct (heap_rel_list h b1 [(l, false)] b2 R) as (r & r' & L1 & L2 & L3).
  cbn in L2. destruct L2 as (-> & r2 & Hr2 & ->). cbn [total] in L3. rewrite Z.add_0_r in L3.
  unfold FreeBlock_link in Hq. rewrite Hr2 in Hq. injection Hq as ->.
  rewrite free_list_app, Z.add_0_l. unfold free_list at 2. cbn [with_bit eqb app].
  destruct (last_free_list h b1 G P1) as [[Hu Ep]|(c1 & l0 & c2 & -> & Hu & ? & ? & ? & Ep & Hne)];
    fold p in Ep; rewrite Ep.
  - rewrite Z.eqb_refl. cbn [set_freelist freelist links].
    unfold free_list at 1. rewrite (all_used_free 0 b1 Hu). cbn. exact L3.
  - destruct (Z.eqb_spec (loc h (total c1)) NULL); [done|]. cbn [set_link freelist links].
    rewrite free_list_app in L1 |- *. apply lseg_app in L1 as (t & L0 & L1).
    unfold free_list in L1. cbn in L1. rewrite (all_used_free _ c2 Hu), Z.add_0_l in L1. cbn in L1.
    destruct L1 as (-> & r3 & Hr3 & ->). rewrite total_app in L3. cbn in L3.
    rewrite total_app. cbn [total]. apply lseg_app. exists q. split; [apply lseg_app; exists (loc h (total c1)); split|].
    + rewrite lengths_ok_app in P1. destruct P1 as (P1 & _).
      apply (lseg_below h (links h) _ _ _ _ _ (total c1)); [done|done|lia| |done].
      intros j Hj. apply loc_insert_ne; [done|lia].
    + unfold free_list. cbn. rewrite (all_used_free _ c2 Hu), Z.add_0_l. cbn. split; [done|].
      exists q. split; [apply lookup_insert_eq|done].
    + apply (lseg_above h (links h) _ _ _ _ _ (total c1)); [done|done|lia| |done].
      intros j Hj. apply loc_insert_ne; [done|lia].
Qed.

Section Allocation.
Context (C : Z) (HC : 1 <= C < 2 ^ 57).

(** A whole free block is taken. *)
Lemma take_whole_spec h b1 l b2 q : heap_rel h (b1 ++ (l, false) :: b2) ->
  FreeBlock_link h (loc h (total b1)) = Some q ->
  let p := default NULL (list.last (free_list h 0 b1)) in
  let h1 := if p =? NULL then set_freelist h q else set_link h p q in
  exists h', set_used h1 (loc h (total b1)) = Some h' /\
    let h2 := set_free_segments h' (u64 (free_segments h' - l)) in
    static h2 = static h /\ heap_rel h2 (b1 ++ (l, true) :: b2).
Proof using Type.
  intros R Hq p h1. pose proof (unlink_spec h b1 l b2 q R Hq) as HL. fold p h1 in HL.
  pose proof (hr_geom _ _ R) as G. pose proof (header_at _ _ _ _ _ R) as Hh.
  pose proof (block_bounds _ _ _ _ _ R) as Hb. pose proof (count_bound h G).
  pose proof (hr_free _ _ R) as Hf. pose proof (free_total_bounds _ (heap_rel_lengths _ _ R)) as Hft.
  pose proof (hr_top _ _ R) as Htop. rewrite free_total_app in Hf. cbn in Hf.
  pose proof (heap_rel_lengths _ _ R) as P. rewrite lengths_ok_app in P. destruct P as (P1 & P0 & P2).
  pose proof (free_total_bounds _ P1). pose proof (free_total_bounds _ P2).
  assert (E1 : headers h1 = headers h /\ static h1 = static h /\ segmap_bytes h1 = segmap_bytes h /\
    next_segment h1 = next_segment h /\ free_segments h1 = free_segments h)
    by (unfold h1; by destruct (p =? NULL)).
  destruct E1 as (Eh & Es & Em & En & Ef).
  unfold set_used. rewrite Eh, Hh. cbn [mbind option_bind length_]. eexists. split; [done|].
  set (h2 := set_free_segments _ _).
  split; [done|]. apply (heap_rel_update h h2 b1 [(l, false)] [(l, true)] b2 R); try done.
  - cbn. by rewrite Em.
  - intros j Hj. cbn in Hj. cbn. rewrite Em, Eh, loc_insert_ne by (try done; lia). done.
  - cbn. rewrite Em, Eh, (static_loc h h2) by done. split_and!; [lia|apply lookup_insert_eq| |done].
    pose proof (hr_blocks _ _ R) as Hbl. rewrite blocks_at_app in Hbl. apply Hbl.
  - cbn. rewrite Ef, uwrap_small by (try lia; unfold in_u; lia). lia.
Qed.

(** The upper end of a free block is taken. *)
Lemma take_end_spec h b1 l b2 len : heap_rel h (b1 ++ (l, false) :: b2) -> 0 < len < l ->
  let h1 := set_length h (loc h (total b1)) (u64 (l - len)) in
  exists b h2 h', following_block h1 (loc h (total b1)) = Some b /\ b = loc h (total b1 + (l - len)) /\
    mark_segmap_as_used h1 (segment_for h1 b) (u64 (segment_for h1 b + len)) = Some h2 /\
    set_used (set_length h2 b len) b = Some h' /\
    let h3 := set_free_segments h' (u64 (free_segments h' - len)) in
    static h3 = static h /\ heap_rel h3 (b1 ++ (l - len, false) :: (len, true) :: b2).
Proof using Type.
  intros R Hlen h1. pose proof (hr_geom _ _ R) as G. pose proof (header_at _ _ _ _ _ R) as Hh.
  pose proof (block_bounds _ _ _ _ _ R) as Hb. pose proof (count_bound h G).
  pose proof (hr_free _ _ R) as Hf. rewrite free_total_app in Hf. cbn in Hf.
  pose proof (heap_rel_lengths _ _ R) as P. rewrite lengths_ok_app in P. destruct P as (P1 & P0 & P2).
  pose proof (free_total_bounds _ P1). pose proof (free_total_bounds _ P2).
  unfold h1. rewrite (uwrap_small 64 ltac:(lia) (l - len)) by (unfold in_u; lia). clear h1.
  set (i := total b1) in *. set (h1 := set_length h (loc h i) (l - len)).
  assert (G1 : geom h1) by (by apply (static_geom h)).
  assert (Hh1 : headers h1 !! loc h i = Some {| length_ := l - len; used_ := false |}).
  { unfold h1, set_length. cbn. by rewrite lookup_insert_eq, Hh. }
  assert (Hfb : following_block h1 (loc h i) = Some (loc h (i + (l - len)))).
  { unfold following_block, HeapBlock_length. rewrite Hh1. cbn. rewrite (ge_size h G), Z.mul_comm.
    pose proof (seg_mul h G (l - len) ltac:(lia)).
    rewrite uwrap_small by (try lia; unfold in_u; lia). by rewrite loc_add. }
  exists (loc h (i + (l - len))).
  change (segment_for h1 (loc h (i + (l - len)))) with (segment_for h (loc h (i + (l - len)))).
  rewrite (segment_for_loc h G) by lia. rewrite uwrap_small by (try lia; unfold in_u; lia).
  destruct (mark_used_spec h1 (i + (l - len)) (i + (l - len) + len)) as (s' & Es & Hsl & Hs');
    [lia|pose proof (ge_count h G); cbn; lia|].
  exists (set_segmap_bytes h1 s').
  exists (set_header (set_length (set_segmap_bytes h1 s') (loc h (i + (l - len))) len)
            (loc h (i + (l - len))) {| length_ := len; used_ := true |}).
  split; [done|]. split; [done|]. split; [done|]. split.
  { unfold set_used. by rewrite set_length_header. }
  set (h3 := set_free_segments _ _). assert (Es3 : static h3 = static h) by done. split; [done|].
  assert (Ehd : headers h3 = <[loc h (i + (l - len)) := {| length_ := len; used_ := true |}]>
    (<[loc h i := {| length_ := l - len; used_ := false |}]> (headers h))).
  { unfold h3, h1, set_length. cbn. rewrite Hh. cbn. by rewrite insert_insert_eq. }
  assert (Esm : segmap_bytes h3 = s') by done.
  apply (heap_rel_update h h3 b1 [(l, false)] [(l - len, false); (len, true)] b2 R); try done.
  - cbn. lia.
  - intros j Hj. cbn in Hj. rewrite Ehd, Esm, Hs', !loc_insert_ne by (try done; lia). split; [done|].
    cbn. zcases; done.
  - cbn [blocks_at]. rewrite !(static_loc h h3) by done. fold i. rewrite Ehd, Esm. split_and!; try lia; try done.
    + rewrite loc_insert_ne by (try done; lia). apply lookup_insert_eq.
    + pose proof (hr_blocks _ _ R) as Hbl. rewrite blocks_at_app in Hbl. destruct Hbl as (_ & _ & _ & Hm & _).
      intros j Hj. rewrite Hs'. fold i in Hm. destruct (Z.leb_spec (i + (l - len)) (i + j)); [lia|]. cbn.
      apply Hm. lia.
    + apply lookup_insert_eq.
    + intros j Hj. rewrite Hs'. destruct (Z.leb_spec (i + (l - len)) (i + (l - len) + j)); [|lia].
      destruct (Z.ltb_spec (i + (l - len) + j) (i + (l - len) + len)); [|lia]. cbn. do 2 f_equal. lia.
  - cbn. rewrite uwrap_small by (try lia; unfold in_u; lia). lia.
  - pose proof (hr_list _ _ R) as HL. rewrite free_list_app in HL |- *. unfold free_list in HL |- *.
    cbn [with_bit eqb app] in HL |- *.
    by replace (0 + total b1 + (l - len) + len) with (0 + total b1 + l) by lia.
Qed.

(** Fresh segments are taken. *)
Lemma take_fresh_spec h bs len : heap_rel h bs -> 0 < len ->
  total bs + len <= number_of_committed_segments h ->
  exists h1 h2, mark_segmap_as_used h (next_segment h) (u64 (next_segment h + len)) = Some h1 /\
    HeapBlock_initialize h1 (block_at h1 (next_segment h1)) len = Some h2 /\
    block_at h1 (next_segment h1) = loc h (total bs) /\
    let h3 := set_next_segment h2 (u64 (next_segment h2 + len)) in
    static h3 = static h /\ heap_rel h3 (bs ++ [(len, true)]).
Proof using Type.
  intros R Hl Hmax. pose proof R as [G Hb Hn Ht Hun Hf HL].
  pose proof (heap_rel_lengths _ _ R) as P. pose proof (total_nonneg _ P). pose proof (count_bound h G).
  rewrite Hn, uwrap_small by (try lia; unfold in_u; lia).
  destruct (mark_used_spec h (total bs) (total bs + len)) as (s' & Es & Hsl & Hs');
    [lia|pose proof (ge_count h G); lia|].
  set (h1 := set_segmap_bytes h s') in *. assert (G1 : geom h1) by (by apply (static_geom h)).
  assert (Eb : block_at h1 (next_segment h1) = loc h (total bs)).
  { change (next_segment h1) with (next_segment h). rewrite Hn. rewrite (block_at_eq h1 G1) by (cbn; lia). done. }
  exists h1. rewrite Eb. eexists. split; [done|]. unfold HeapBlock_initialize, set_used.
  rewrite set_length_header. cbn [mbind option_bind length_]. split; [done|]. split; [done|].
  set (h3 := set_next_segment _ _). assert (Es3 : static h3 = static h) by done. split; [done|].
  assert (En : next_segment h3 = total bs + len).
  { unfold h3. cbn. by rewrite Hn, uwrap_small by (try lia; unfold in_u; lia). }
  assert (Eh : headers h3 = <[loc h (total bs) := {| length_ := len; used_ := true |}]> (headers h)).
  { unfold h3. cbn. by rewrite insert_insert_eq. }
  assert (Em : segmap_bytes h3 = s') by done.
  assert (EN : number_of_committed_segments h3 = number_of_committed_segments h) by done.
  split; rewrite ?total_app, ?free_total_app, ?EN; cbn [total free_total].
  - by apply (static_geom h).
  - rewrite blocks_at_app. cbn [blocks_at]. rewrite Z.add_0_l. split_and!; [|lia| | |done].
    + apply (blocks_at_agree h); [done| |done]. intros j Hj. rewrite Eh, Em, Hs', loc_insert_ne by (try done; lia).
      split; [done|]. zcases; done.
    + rewrite (static_loc h h3), Eh by done. apply lookup_insert_eq.
    + rewrite Em. intros j Hj. rewrite Hs'. destruct (Z.leb_spec (total bs) (total bs + j)); [|lia].
      destruct (Z.ltb_spec (total bs + j) (total bs + len)); [|lia]. cbn. do 2 f_equal. lia.
  - lia.
  - lia.
  - rewrite Em. intros j Hj. rewrite Hs'. destruct (Z.ltb_spec j (total bs + len)); [lia|].
    rewrite andb_false_r. apply Hun. lia.
  - change (free_segments h3) with (free_segments h). lia.
  - rewrite (static_free_list h h3), free_list_app by done. unfold free_list at 2. cbn.
    rewrite app_nil_r. exact HL.
Qed.

(** The number of segments for a size. *)
Lemma number_of_segments_spec h sz : geom h -> 0 < sz <= 2 ^ 62 ->
  let n := number_of_segments h sz in
  (n - 1) * 2 ^ log2_segment_size h < sz <= n * 2 ^ log2_segment_size h /\ 1 <= n < 2 ^ 60.
Proof using Type.
  intros G Hs n. pose proof (seg_pos h G) as Hp. destruct G as [Hk Es _ _ _ _].
  assert (2 ^ log2_segment_size h <= 2 ^ 39) by (apply Z.pow_le_mono_r; lia).
  assert (En : n = (sz + 2 ^ log2_segment_size h - 1) / 2 ^ log2_segment_size h).
  { unfold n, number_of_segments. rewrite Es, !(uwrap_small 64 ltac:(lia)) by
      (unfold in_u; rewrite ?(uwrap_small 64 ltac:(lia)) by (unfold in_u; lia); lia).
    apply Z.shiftr_div_pow2. lia. }
  pose proof (Z.div_mod (sz + 2 ^ log2_segment_size h - 1) (2 ^ log2_segment_size h) ltac:(lia)) as Hd.
  pose proof (Z.mod_pos_bound (sz + 2 ^ log2_segment_size h - 1) (2 ^ log2_segment_size h) ltac:(lia)).
  rewrite <- En in Hd. split; [lia|]. nia.
Qed.

(** How an allocation of [len] segments changes the blocks: the block that starts at
    segment [i] becomes used with length [l]. *)
Inductive taken (len : Z) (bs : blocks) : blocks -> Z -> Z -> Prop :=
  | taken_whole b1 l b2 :
      bs = b1 ++ (l, false) :: b2 -> len <= l < len + C ->
      Forall (fun y => len <= y.2 -> l <= y.2) (free_blocks 0 bs) ->
      taken len bs (b1 ++ (l, true) :: b2) (total b1) l
  | taken_end b1 l b2 :
      bs = b1 ++ (l, false) :: b2 -> len + C <= l ->
      Forall (fun y => len <= y.2 -> l <= y.2) (free_blocks 0 bs) ->
      taken len bs (b1 ++ (l - len, false) :: (len, true) :: b2) (total b1 + (l - len)) len
  | taken_fresh :
      Forall (fun y => y.2 < len) (free_blocks 0 bs) ->
      taken len bs (bs ++ [(Z.max len C, true)]) (total bs) (Z.max len C).

Lemma search_freelist_spec h bs len : heap_rel h bs -> 1 <= len < 2 ^ 60 ->
  (search_freelist C h len = Some (NULL, h) /\ Forall (fun y => y.2 < len) (free_blocks 0 bs)) \/
  exists h' bs' i l, search_freelist C h len = Some (loc h i, h') /\ 0 <= i /\
    static h' = static h /\ heap_rel h' bs' /\ taken len bs bs' i l.
Proof using HC.
  intros R Hlen. pose proof (hr_geom _ _ R) as G. pose proof (count_bound h G).
  destruct (search_spec h bs len R) as (b & p & l & E & [[-> Hno]|(b1 & b2 & -> & -> & Hle & -> & Hbest)]).
  - left. split; [|done]. unfold search_freelist. by rewrite E.
  - right. unfold search_freelist. rewrite E. cbn [mbind option_bind].
    pose proof (block_bounds _ _ _ _ _ R) as Hb. pose proof (loc_pos h G (total b1) ltac:(lia)).
    destruct (Z.eqb_spec (loc h (total b1)) NULL); [unfold NULL in *; lia|].
    rewrite (uwrap_small 64 ltac:(lia)) by (unfold in_u; lia).
    destruct (Z.ltb_spec l (len + C)).
    + pose proof (link_eq _ _ _ _ R) as Hq. rewrite Hq. cbn [mbind option_bind].
      destruct (take_whole_spec h b1 l b2 _ R Hq) as (h' & E' & Hs & R').
      cbv zeta in E'. rewrite E'. cbn [mbind option_bind].
      eexists _, _, (total b1), l. split; [done|]. split; [lia|]. split; [done|].
      split; [exact R'|]. by apply taken_whole.
    + destruct (take_end_spec h b1 l b2 len R ltac:(lia)) as (b & h2 & h' & E1 & -> & E2 & E3 & Hs & R').
      cbv zeta in E1, E2. rewrite E1. cbn [mbind option_bind]. rewrite E2. cbn [mbind option_bind].
      rewrite E3. cbn [mbind option_bind].
      eexists _, _, (total b1 + (l - len)), len. split; [done|]. split; [lia|]. split; [done|].
      split; [exact R'|]. by apply taken_end.
Qed.

Lemma no_adjacent_app_l b1 b2 : no_adjacent (b1 ++ b2) -> no_adjacent b1.
Proof using Type.
  induction b1 as [|[x u] b1 IH]; [done|]. cbn [app]. destruct u; [exact IH|].
  destruct b1 as [|[y []] b1]; [done|exact IH|done].
Qed.

Lemma taken_no_adjacent len bs bs' i l : taken len bs bs' i l -> no_adjacent bs -> no_adjacent bs'.
Proof using Type.
  intros [b1 l' b2 -> _ _|b1 l' b2 -> _ _|_].
  - intros [H1 H2]%no_adjacent_free. apply no_adjacent_used. split; [by apply no_adjacent_app_l in H1|].
    by destruct b2 as [|[? []] b2].
  - intros [H1 H2]%no_adjacent_free. apply no_adjacent_free. split; [done|]. cbn.
    by destruct b2 as [|[? []] b2].
  - intros H1. apply no_adjacent_used. by split.
Qed.

Lemma taken_used len bs bs' i l : taken len bs bs' i l -> used_blocks bs' ≡ₚ (i, l) :: used_blocks bs.
Proof using Type.
  intros [b1 l' b2 -> _ _|b1 l' b2 -> _ _|_]; rewrite !with_bit_app; cbn.
  - symmetry. apply Permutation_middle.
  - replace (0 + total b1 + (l' - len) + len) with (0 + total b1 + l') by lia. symmetry. apply Permutation_middle.
  - apply Permutation_app_comm.
Qed.
End Allocation.

(** Allocation as a change of the blocks. *)
Lemma allocate_ok C h bs sz : 1 <= C < 2 ^ 57 -> heap_ok h bs -> 0 <= sz <= 2 ^ 61 ->
  let len := number_of_segments h (sz + header_size) in
  exists p h', allocate C h sz = Some (p, h') /\ static h' = static h /\
    ((p = NULL /\ h' = h /\ Forall (fun y => y.2 < len) (free_blocks 0 bs) /\
      number_of_committed_segments h < total bs + Z.max len C) \/
     (exists bs' i l, p = allocated_space (loc h i) /\ 0 <= i /\ heap_ok h' bs' /\
        taken C len bs bs' i l)).
Proof.
  intros HC [R Hna] Hsz len. pose proof (hr_geom _ _ R) as G. unfold allocate.
  rewrite (uwrap_small 64 ltac:(lia)) by (unfold in_u, header_size; lia). fold len.
  destruct (number_of_segments_spec h (sz + header_size) G) as [_ Hr];
    [unfold header_size; lia|]. fold len in Hr. pose proof (count_bound h G).
  destruct (search_freelist_spec C HC h bs len R Hr) as [[E Hno]|(h' & bs' & i & l & E & Hi & Hs & R' & Ht)];
    rewrite E; cbn [mbind option_bind].
  - rewrite Z.eqb_refl. cbn [negb].
    assert ((if len <? C then C else len) = Z.max len C) as -> by zcases.
    pose proof (total_nonneg _ (heap_rel_lengths _ _ R)). pose proof (hr_top _ _ R).
    rewrite (hr_next _ _ R), uwrap_small by (try lia; unfold in_u; lia).
    destruct (Z.leb_spec (total bs + Z.max len C) (number_of_committed_segments h)).
    + destruct (take_fresh_spec h bs (Z.max len C) R ltac:(lia) ltac:(lia)) as (h1 & h2 & E1 & E2 & Eb & Hs & R').
      rewrite (hr_next _ _ R), uwrap_small in E1 by (try lia; unfold in_u; lia).
      rewrite E1. cbn [mbind option_bind]. rewrite E2. cbn [mbind option_bind].
      rewrite Eb. eexists _, _. split; [done|]. split; [done|]. right.
      assert (Ht : taken C len bs (bs ++ [(Z.max len C, true)]) (total bs) (Z.max len C))
        by (by apply taken_fresh).
      eexists _, _, _. split; [done|]. split; [done|]. split; [split; [exact R'|]|done].
      eapply taken_no_adjacent; done.
    + exists NULL, h. split; [done|]. split; [done|]. left. split_and!; done.
  - pose proof (loc_pos h G i Hi).
    destruct (Z.eqb_spec (loc h i) NULL); [unfold NULL in *; lia|]. cbn [negb].
    eexists _, _. split; [done|]. split; [done|]. right. exists bs', i, l.
    split_and!; [done|done|split; [done|by eapply taken_no_adjacent]|done].
Qed.

Lemma space_not_null h i : geom h -> 0 <= i -> allocated_space (loc h i) <> NULL.
Proof. intros G Hi. pose proof (loc_pos h G i Hi). unfold allocated_space, NULL, header_size. lia. Qed.

(** Deallocation as a change of the blocks. *)
Lemma deallocate_ok h b1 l b2 : heap_ok h (b1 ++ (l, true) :: b2) ->
  exists h' bs', deallocate h (allocated_space (loc h (total b1))) = Some h' /\ static h' = static h /\
    heap_ok h' bs' /\ released b1 l b2 bs'.
Proof.
  intros [R Hna]. unfold deallocate, allocated_space.
  replace (loc h (total b1) + header_size - header_size) with (loc h (total b1)) by lia.
  destruct (add_to_freelist_spec h b1 l b2 R) as (h' & bs' & E & Hs & R' & Hrel).
  apply no_adjacent_used in Hna as [Hn1 Hn2].
  exists h', bs'. split; [done|]. split; [done|]. split; [split; [done|by eapply released_no_adjacent]|done].
Qed.

Lemma released_permutes b1 l b2 bs : released b1 l b2 bs ->
  used_blocks (b1 ++ (l, true) :: b2) ≡ₚ (total b1, l) :: used_blocks bs.
Proof.
  intros Hrel. rewrite (released_used _ _ _ _ 0 Hrel), !with_bit_app. cbn. symmetry. apply Permutation_middle.
Qed.

(* ------------------------------------------------------------------ *)
(** ** Theorems *)

(** C14: Allocation on a well-formed heap never faults.  It answers null, changing
    nothing, exactly when no free block has the segments the size needs and the committed
    memory above the blocks has too few.  Otherwise it returns the space of a new used block
    that is large enough and leaves every other used block alone: a smallest sufficient free
    block, whole or its upper end when at least the minimum would remain, and fresh segments
    only when no free block suffices. *)
Theorem allocate_spec C h bs sz : 1 <= C < 2 ^ 57 -> heap_ok h bs -> 0 <= sz <= 2 ^ 61 ->
  let len := number_of_segments h (sz + header_size) in
  exists p h', allocate C h sz = Some (p, h') /\ static h' = static h /\
    ((p = NULL /\ h' = h /\ Forall (fun y => y.2 < len) (free_blocks 0 bs) /\
      number_of_committed_segments h < total bs + Z.max len C) \/
     (exists bs' i l, p = allocated_space (loc h i) /\ p <> NULL /\ heap_ok h' bs' /\
        taken C len bs bs' i l /\ used_blocks bs' ≡ₚ (i, l) :: used_blocks bs /\
        sz + header_size <= l * segment_size h)).
Proof.
  intros HC HB Hsz len. pose proof HB as [R _]. pose proof (hr_geom _ _ R) as G.
  destruct (allocate_ok C h bs sz HC HB Hsz) as (p & h' & E & Hs & [?|(bs' & i & l & -> & Hi & HB' & Ht)]).
  { exists p, h'. split; [done|]. split; [done|]. by left. }
  eexists _, h'. split; [done|]. split; [done|]. right. exists bs', i, l.
  split_and!; [done|by apply space_not_null|done|done|by eapply taken_used|].
  destruct (number_of_segments_spec h (sz + header_size) G) as [[_ Hlen] _]; [unfold header_size; lia|].
  fold len in Hlen, Ht. pose proof (seg_pos h G). rewrite (ge_size h G).
  transitivity (len * 2 ^ log2_segment_size h); [done|].
  apply Z.mul_le_mono_nonneg_r; [lia|]. destruct Ht; lia.
Qed.

(** C15: Deallocation of the space of a used block never faults: the block's segments
    join the free ones, merged with a free block on either side so that no two free blocks
    are adjacent, and every other used block is left alone. *)
Theorem deallocate_spec h bs i l : heap_ok h bs -> (i, l) ∈ used_blocks bs ->
  exists h' bs', deallocate h (allocated_space (loc h i)) = Some h' /\ static h' = static h /\
    heap_ok h' bs' /\ used_blocks bs ≡ₚ (i, l) :: used_blocks bs' /\
    total bs' = total bs /\ free_total bs' = free_total bs + l.
Proof.
  intros HB Hin. apply with_bit_split in Hin as (b1 & b2 & -> & ->). rewrite Z.add_0_l in *.
  destruct (deallocate_ok h b1 l b2 HB) as (h' & bs' & E & Hs & HB' & Hrel).
  exists h', bs'. split; [done|]. split; [done|]. split; [done|]. split; [by apply released_permutes|].
  destruct Hrel as [[_ ->]|(c1 & l0 & c2 & -> & _ & ->)];
    rewrite !total_app, !free_total_app; cbn [total free_total]; rewrite ?merge_head_total, ?total_app;
    rewrite ?merge_head_total, ?merge_head_free, ?free_total_app; cbn [total free_total];
    rewrite ?merge_head_free; lia.
Qed.

(** A heap of eight segments with a block of two, a free one of three and one of one. *)
Definition toy_space : VirtualSpace :=
  {| low_boundary := 64; high_boundary := 320; low := 64; high := 320; special := false;
     executable := true; lower_high := 64; middle_high := 320; upper_high := 320;
     lower_high_boundary := 64; middle_high_boundary := 320; upper_high_boundary := 320;
     lower_alignment := 8; middle_alignment := 32; upper_alignment := 8 |}.
Definition toy_heap : CodeHeap :=
  {| memory := toy_space; segmap := toy_space; segmap_bytes := [0; 1; 0; 1; 2; 0; 255; 255];
     number_of_committed_segments := 8; number_of_reserved_segments := 8; segment_size := 32;
     log2_segment_size := 5; next_segment := 6; freelist := 128; free_segments := 3;
     headers := <[64 := {| length_ := 2; used_ := true |}]>
       (<[128 := {| length_ := 3; used_ := false |}]> {[224 := {| length_ := 1; used_ := true |}]});
     links := {[128 := 0]} |}.

Lemma toy_heap_ok : heap_ok toy_heap [(2, true); (3, false); (1, true)].
Proof.
  assert (marks : forall s i l,
    Forall (fun j => arr_get s (i + j) = Some (mark_of j)) (seqZ 0 l) -> marks_at s i l).
  { intros s i l Hf j Hj. rewrite list.Forall_forall in Hf. apply Hf, elem_of_seqZ. lia. }
  split; [|done]. split; try done.
  - cbn [blocks_at]. split_and!; try done; apply marks; vm_compute; repeat constructor.
  - intros j Hj. cbn in Hj. assert (j = 6 \/ j = 7) as [->| ->] by lia; done.
  - cbn. split; [done|]. by exists 0.
Qed.

(** Two segments are asked for: the free block of three is taken whole. *)
Lemma allocate_spec_witness :
  fst <$> allocate 2 toy_heap 40 = Some (128 + 16) /\
  let len := number_of_segments toy_heap (40 + header_size) in
  exists p h', allocate 2 toy_heap 40 = Some (p, h') /\ static h' = static toy_heap /\
    ((p = NULL /\ h' = toy_heap /\
      Forall (fun y => y.2 < len) (free_blocks 0 [(2, true); (3, false); (1, true)]) /\
      number_of_committed_segments toy_heap < total [(2, true); (3, false); (1, true)] + Z.max len 2) \/
     (exists bs' i l, p = allocated_space (loc toy_heap i) /\ p <> NULL /\ heap_ok h' bs' /\
        taken 2 len [(2, true); (3, false); (1, true)] bs' i l /\
        used_blocks bs' ≡ₚ (i, l) :: used_blocks [(2, true); (3, false); (1, true)] /\
        40 + header_size <= l * segment_size toy_heap)).
Proof.
  split; [reflexivity|]. apply (allocate_spec 2); [lia|apply toy_heap_ok|lia].
Defined.

Lemma deallocate_spec_witness :
  exists h' bs', deallocate toy_heap (allocated_space (loc toy_heap 0)) = Some h' /\
    static h' = static toy_heap /\ heap_ok h' bs' /\
    used_blocks [(2, true); (3, false); (1, true)] ≡ₚ (0, 2) :: used_blocks bs' /\
    total bs' = total [(2, true); (3, false); (1, true)] /\
    free_total bs' = free_total [(2, true); (3, false); (1, true)] + 2.
Proof. apply (deallocate_spec _ _ _ _ toy_heap_ok). apply list_elem_of_here. Defined.
