(* ===== verification/CodeHeapWalk.v ===== *)
(** * CodeHeapWalk: finding, visiting and counting the blocks of the heap of compiled code

    What the functions of [CodeHeap] that only read the heap answer on a heap that stands
    for a sequence of blocks ([CodeHeapSpec]): [find_start] from any address, the iteration
    [first] / [next], the consistency checks of [verify] and the capacities. *)

From stdpp Require Import gmap.
From S2P Require Import Prelude GlobalDefs OS ReservedSpace VirtualSpace CodeHeap CodeHeapSpec.

(* ------------------------------------------------------------------ *)
(** ** Finding the start of a block *)

(** The block around a segment: its start, length and bit. *)
Fixpoint block_of (j : Z) (bs : blocks) (i : Z) : option (Z * Z * bool) :=
  match bs with
  | [] => None
  | (l, u) :: bs => if i <? j + l then Some (j, l, u) else block_of (j + l) bs i
  end.

Lemma block_of_split bs : forall j i, lengths_ok bs -> j <= i ->
  match block_of j bs i with
  | Some (s, l, u) => exists b1 b2, bs = b1 ++ (l, u) :: b2 /\ s = j + total b1 /\ s <= i < s + l
  | None => j + total bs <= i
  end.
Proof.
  induction bs as [|[l u] bs IH]; intros j i Hl Hi; cbn; [lia|]. destruct Hl as [Hl Hbs].
  destruct (Z.ltb_spec i (j + l)).
  - exists [], bs. split; [done|cbn; lia].
  - specialize (IH (j + l) i Hbs ltac:(lia)). destruct (block_of (j + l) bs i) as [[[s l'] u']|]; [|lia].
    destruct IH as (b1 & b2 & -> & -> & ?). exists ((l, u) :: b1), b2. split; [done|cbn; lia].
Qed.

Lemma block_of_app b1 l u b2 j i : lengths_ok b1 -> j + total b1 <= i < j + total b1 + l ->
  block_of j (b1 ++ (l, u) :: b2) i = Some (j + total b1, l, u).
Proof.
  revert j. induction b1 as [|[x v] b1 IH]; intros j Hl Hi; cbn in *.
  - destruct (Z.ltb_spec i (j + l)); [|lia]. by rewrite Z.add_0_r.
  - destruct Hl as [? Hl]. pose proof (total_nonneg _ Hl).
    destruct (Z.ltb_spec i (j + x)); [lia|]. rewrite IH by (try done; lia). do 3 f_equal. lia.
Qed.

(** The walk along the marks ends at the start of the block. *)
Lemma find_loop_spec s j l fuel : forall i, marks_at s j l -> 0 <= j -> j <= i < j + l -> i < 2 ^ 63 ->
  i - j < Z.of_nat fuel -> find_loop fuel s i = Some j.
Proof.
  induction fuel as [|fuel IH]; intros i Hm Hj Hi Hmax Hf; [lia|]. cbn [find_loop].
  pose proof (Hm (i - j) ltac:(lia)) as E. replace (j + (i - j)) with i in E by lia.
  rewrite E. cbn [mbind option_bind]. destruct (Z.eq_dec i j) as [->|].
  - by rewrite Z.sub_diag.
  - pose proof (mark_of_back (i - j) ltac:(lia)). destruct (Z.ltb_spec 0 (mark_of (i - j))); [|lia].
    rewrite uwrap_small by (try lia; unfold in_u; lia). apply IH; first [done|lia].
Qed.

Lemma contains_segment h p : geom h -> CodeHeap_contains h p = true ->
  let i := (p - low (memory h)) / 2 ^ log2_segment_size h in
  segment_for h p = i /\ 0 <= i < number_of_committed_segments h.
Proof.
  intros G Hc i. unfold CodeHeap_contains, begin_, end_ in Hc. zreflect. pose proof (seg_pos h G).
  rewrite (ge_high h G) in *. unfold loc in *.
  pose proof (Z.div_mod (p - low (memory h)) (2 ^ log2_segment_size h) ltac:(lia)) as Hd. fold i in Hd.
  pose proof (Z.mod_pos_bound (p - low (memory h)) (2 ^ log2_segment_size h) ltac:(lia)) as Hr.
  assert (Hi : 0 <= i < number_of_committed_segments h).
  { split; [apply Z.div_pos; lia|]. apply Z.div_lt_upper_bound; lia. }
  split; [|done]. replace p with (loc h i + (p - low (memory h)) mod 2 ^ log2_segment_size h) by (unfold loc; lia).
  apply (segment_for_eq h G); [lia|done].
Qed.

(** What [find_start] must answer. *)
Definition start_of (h : CodeHeap) (bs : blocks) (p : Z) : Z :=
  if CodeHeap_contains h p then
    match block_of 0 bs ((p - low (memory h)) / 2 ^ log2_segment_size h) with
    | Some (j, _, true) => allocated_space (loc h j)
    | _ => NULL
    end
  else NULL.

Lemma find_start_eq h bs p : heap_rel h bs -> find_start h p = Some (start_of h bs p).
Proof.
  intros R. pose proof (hr_geom _ _ R) as G. unfold find_start, start_of.
  destruct (CodeHeap_contains h p) eqn:Hc; cbn [negb]; [|done].
  destruct (contains_segment h p G Hc) as [-> Hi].
  set (i := (p - low (memory h)) / 2 ^ log2_segment_size h) in *.
  pose proof (block_of_split bs 0 i (heap_rel_lengths _ _ R) ltac:(lia)) as Hb.
  destruct (block_of 0 bs i) as [[[s l] u]|].
  - destruct Hb as (b1 & b2 & -> & Es & Hs). rewrite Z.add_0_l in Es. subst s.
    pose proof (block_bounds _ _ _ _ _ R) as Hbb. pose proof (count_bound h G).
    pose proof (hr_blocks _ _ R) as Hbl. rewrite blocks_at_app, Z.add_0_l in Hbl. destruct Hbl as (_ & _ & Hh & Hm & _).
    pose proof (Hm (i - total b1) ltac:(lia)) as E. replace (total b1 + (i - total b1)) with i in E by lia.
    rewrite E. cbn [mbind option_bind]. pose proof (mark_of_range (i - total b1)).
    destruct (Z.eqb_spec (mark_of (i - total b1)) 0xFF); [lia|].
    rewrite (find_loop_spec _ (total b1) l) by (try done; lia). cbn [mbind option_bind].
    rewrite (block_at_eq h G) by lia. unfold HeapBlock_free. rewrite Hh. cbn. by destruct u.
  - rewrite (hr_unused _ _ R) by lia. done.
Qed.

(* ------------------------------------------------------------------ *)
(** ** Visiting the blocks *)

(** The address of the block that the rest of a sequence starts with. *)
Definition head_block (h : CodeHeap) (i : Z) (bs : blocks) : Z :=
  match bs with [] => NULL | _ => loc h i end.

Lemma next_block_spec h b1 l u b2 : heap_rel h (b1 ++ (l, u) :: b2) ->
  next_block h (loc h (total b1)) = Some (head_block h (total b1 + l) b2).
Proof.
  intros R. pose proof (hr_geom _ _ R) as G. pose proof (block_bounds _ _ _ _ _ R) as Hb.
  pose proof (count_bound h G). pose proof (loc_pos h G (total b1) ltac:(lia)).
  pose proof (heap_rel_lengths _ _ R) as P. rewrite lengths_ok_app in P. destruct P as (_ & _ & P2).
  unfold next_block. destruct (Z.eqb_spec (loc h (total b1)) NULL); [unfold NULL in *; lia|].
  unfold HeapBlock_length. rewrite (header_at _ _ _ _ _ R). cbn [fmap option_fmap option_map mbind option_bind length_].
  rewrite (segment_for_loc h G) by lia. rewrite uwrap_small by (try lia; unfold in_u; lia).
  rewrite (hr_next _ _ R), total_app. cbn [total]. destruct b2 as [|[x v] b2]; cbn [total head_block] in *.
  - destruct (Z.ltb_spec (total b1 + l) (total b1 + (l + 0))); [lia|done].
  - destruct P2 as [? P2]. pose proof (total_nonneg _ P2).
    destruct (Z.ltb_spec (total b1 + l) (total b1 + (l + (x + total b2)))); [|lia].
    by rewrite (block_at_eq h G) by lia.
Qed.

Definition spaces (h : CodeHeap) (i : Z) (bs : blocks) : list Z :=
  (fun x => allocated_space (loc h x.1)) <$> with_bit true i bs.

Lemma spaces_app h i b1 b2 : spaces h i (b1 ++ b2) = spaces h i b1 ++ spaces h (i + total b1) b2.
Proof. unfold spaces. by rewrite with_bit_app, fmap_app. Qed.

(** From the first block of the rest, [next_free] leads to its first used block. *)
Lemma next_free_spec h b1 b2 : heap_ok h (b1 ++ b2) ->
  next_free h (head_block h (total b1) b2) = Some (default NULL (head (spaces h (total b1) b2))).
Proof.
  intros [R Hna]. pose proof (hr_geom _ _ R) as G. destruct b2 as [|[l u] b2]; [done|].
  pose proof (block_bounds _ _ _ _ _ R) as Hb. pose proof (loc_pos h G (total b1) ltac:(lia)).
  pose proof (loc_pos h G (total b1 + l) ltac:(lia)).
  cbn [head_block]. unfold next_free. destruct (Z.eqb_spec (loc h (total b1)) NULL) as [|]; [unfold NULL in *; lia|].
  cbn [negb]. unfold HeapBlock_free. rewrite (header_at _ _ _ _ _ R). cbn [fmap option_fmap option_map mbind option_bind used_].
  destruct u; cbn [negb mbind option_bind].
  - destruct (Z.eqb_spec (loc h (total b1)) NULL); [done|]. done.
  - rewrite (next_block_spec _ _ _ _ _ R). cbn [mbind option_bind].
    apply no_adjacent_free in Hna as [_ Hna]. destruct b2 as [|[l2 [|]] b2]; [done| |done].
    cbn [head_block]. destruct (Z.eqb_spec (loc h (total b1 + l)) NULL); [unfold NULL in *; lia|]. done.
Qed.

Lemma first_block_eq h bs : heap_rel h bs -> first_block h = head_block h 0 bs.
Proof.
  intros R. pose proof (hr_geom _ _ R) as G. unfold first_block. rewrite (hr_next _ _ R).
  pose proof (heap_rel_lengths _ _ R) as P. destruct bs as [|[l u] bs]; [done|]. cbn in *.
  destruct P as [? P]. pose proof (total_nonneg _ P). destruct (Z.ltb_spec 0 (l + total bs)); [|lia].
  apply (block_at_eq h G). pose proof (ge_count h G). lia.
Qed.

Lemma space_contained h i : geom h -> 0 <= i < number_of_committed_segments h ->
  CodeHeap_contains h (allocated_space (loc h i)) = true /\
  (allocated_space (loc h i) - low (memory h)) / 2 ^ log2_segment_size h = i.
Proof.
  intros G Hi. pose proof (seg_pos h G).
  unfold CodeHeap_contains, begin_, end_, allocated_space, header_size. rewrite (ge_high h G). unfold loc. split.
  - apply andb_true_intro. split; [apply Z.leb_le; nia|apply Z.ltb_lt]. nia.
  - replace (low (memory h) + i * 2 ^ log2_segment_size h + 16 - low (memory h))
      with (i * 2 ^ log2_segment_size h + 16) by lia.
    rewrite Z.div_add_l by lia. rewrite Z.div_small by lia. lia.
Qed.

(** The space of a used block leads back to the block. *)
Lemma block_start_space h b1 l b2 : heap_rel h (b1 ++ (l, true) :: b2) ->
  block_start h (allocated_space (loc h (total b1))) = Some (loc h (total b1)).
Proof.
  intros R. pose proof (hr_geom _ _ R) as G. pose proof (block_bounds _ _ _ _ _ R) as Hb.
  pose proof (loc_pos h G (total b1) ltac:(lia)). pose proof (heap_rel_lengths _ _ R) as P.
  rewrite lengths_ok_app in P. destruct P as (P1 & _).
  destruct (space_contained h (total b1) G ltac:(lia)) as [Hc Hi].
  unfold block_start. rewrite (find_start_eq _ _ _ R). cbn [mbind option_bind]. unfold start_of.
  rewrite Hc, Hi, (block_of_app _ _ _ _ 0) by (try done; lia). cbn [Z.add].
  destruct (Z.eqb_spec (allocated_space (loc h (0 + total b1))) NULL) as [E|_].
  - exfalso. rewrite Z.add_0_l in E. unfold allocated_space, header_size, NULL in E. lia.
  - rewrite Z.add_0_l. f_equal. unfold allocated_space. lia.
Qed.

(** The loop of every client: [for (p = first(); p != NULL; p = next(p))]. *)
Fixpoint visit (fuel : nat) (h : CodeHeap) (p : Z) : option (list Z) :=
  match fuel with
  | O => None
  | S fuel => if p =? NULL then Some []
              else nx ← CodeHeap_next h p; r ← visit fuel h nx; Some (p :: r)
  end.
Definition visit_all (h : CodeHeap) : option (list Z) :=
  p ← CodeHeap_first h; visit (list_fuel h) h p.

Lemma spaces_split h i bs x xs : spaces h i bs = x :: xs ->
  exists b1 l b2, bs = b1 ++ (l, true) :: b2 /\ x = allocated_space (loc h (i + total b1)) /\
    xs = spaces h (i + total b1 + l) b2.
Proof.
  revert i. induction bs as [|[l u] bs IH]; intros i; [done|]. unfold spaces. cbn.
  destruct u; cbn; intros E.
  - injection E as <- <-. exists [], l, bs. cbn. by rewrite Z.add_0_r.
  - destruct (IH _ E) as (b1 & l' & b2 & -> & -> & ->). exists ((l, false) :: b1), l', b2.
    cbn. by rewrite Z.add_assoc.
Qed.

Lemma visit_spec h fuel : forall b1 b2, heap_ok h (b1 ++ b2) ->
  (Datatypes.length b2 < fuel)%nat ->
  visit fuel h (default NULL (head (spaces h (total b1) b2))) = Some (spaces h (total b1) b2).
Proof.
  induction fuel as [|fuel IH]; intros b1 b2 H Hf; [lia|]. cbn [visit].
  destruct (spaces h (total b1) b2) as [|x xs] eqn:Es; cbn [head default from_option id]; [done|].
  destruct (spaces_split _ _ _ _ _ Es) as (c1 & l & c2 & -> & -> & ->).
  assert (H' : heap_ok h ((b1 ++ c1 ++ [(l, true)]) ++ c2)) by (by rewrite <- !app_assoc).
  pose proof H as [R _]. rewrite app_assoc in R. pose proof (hr_geom _ _ R) as G.
  pose proof (block_bounds _ _ _ _ _ R) as Hb. pose proof (block_start_space _ _ _ _ R) as Es1.
  pose proof (next_block_spec _ _ _ _ _ R) as Es2. rewrite total_app in Hb, Es1, Es2.
  pose proof (loc_pos h G (total b1 + total c1) ltac:(lia)).
  destruct (Z.eqb_spec (allocated_space (loc h (total b1 + total c1))) NULL);
    [unfold allocated_space, header_size, NULL in *; lia|].
  unfold CodeHeap_next. rewrite Es1. cbn [mbind option_bind]. rewrite Es2. cbn [mbind option_bind].
  pose proof (next_free_spec _ _ _ H') as En. pose proof (IH _ _ H') as Ev.
  assert (Et : total (b1 ++ c1 ++ [(l, true)]) = total b1 + total c1 + l) by (rewrite !total_app; cbn; lia).
  rewrite Et in En, Ev. rewrite En. cbn [mbind option_bind]. rewrite length_app in Hf. cbn in Hf.
  by rewrite Ev by lia.
Qed.

Lemma blocks_length bs : lengths_ok bs -> Z.of_nat (Datatypes.length bs) <= total bs.
Proof. induction bs as [|[l u] bs IH]; cbn; [lia|]. intros [? ?%IH]. lia. Qed.

Lemma list_fuel_blocks h bs : heap_rel h bs -> (Datatypes.length bs < list_fuel h)%nat.
Proof.
  intros R. pose proof (blocks_length _ (heap_rel_lengths _ _ R)). pose proof (hr_top _ _ R).
  unfold list_fuel. lia.
Qed.

(* ------------------------------------------------------------------ *)
(** ** Counting *)

Lemma with_bit_length bit i j bs :
  Datatypes.length (with_bit bit i bs) = Datatypes.length (with_bit bit j bs).
Proof.
  revert i j. induction bs as [|[l u] bs IH]; intros i j; [done|]. cbn. rewrite !length_app.
  f_equal; [by destruct (eqb u bit)|apply IH].
Qed.

Definition sum (xs : list Z) : Z := foldr Z.add 0 xs.

Lemma verify_freelist_spec h fuel : forall p xs count len,
  lseg (links h) p (xs.*1) NULL ->
  Forall (fun x => x.1 <> NULL /\ HeapBlock_length h x.1 = Some x.2 /\ 0 < x.2) xs ->
  (Datatypes.length xs < fuel)%nat -> 0 <= count -> 0 <= len ->
  count + Z.of_nat (Datatypes.length xs) < 2 ^ 31 -> len + sum (xs.*2) < 2 ^ 64 ->
  verify_freelist fuel h p count len =
    Some (count + Z.of_nat (Datatypes.length xs), len + sum (xs.*2)).
Proof.
  induction fuel as [|fuel IH]; intros p xs count len Hl Hx Hf Hc Hn Hcm Hlm; [lia|].
  cbn [verify_freelist]. destruct xs as [|[x l] xs]; cbn in Hl.
  - subst p. cbn. by rewrite !Z.add_0_r.
  - destruct Hl as (-> & r & Hr & Hl). apply list.Forall_cons in Hx as [(Hx & Hlen & Hpos) Hxs].
    cbn in Hx, Hlen, Hpos, Hcm, Hlm, Hf. destruct (Z.eqb_spec x NULL); [done|].
    rewrite Hlen. unfold FreeBlock_link. rewrite Hr. cbn [mbind option_bind].
    assert (0 <= sum xs.*2).
    { clear -Hxs. induction Hxs as [|y ys (_ & _ & ?) _ IHy]; cbn; [lia|]. unfold sum in IHy. lia. }
    rewrite (swrap_small 32 ltac:(lia)) by (unfold in_s; change (32 - 1) with 31; lia).
    rewrite (uwrap_small 64 ltac:(lia)) by (unfold in_u; unfold sum in *; lia).
    rewrite (IH r xs) by (try done; unfold sum in *; lia). f_equal. cbn. f_equal; unfold sum; lia.
Qed.

Lemma free_pairs_sum h bs : sum ((free_pairs h bs).*2) = free_total bs.
Proof.
  unfold free_pairs. rewrite <- list_fmap_compose. generalize 0 at 1. intros i. revert i.
  induction bs as [|[l u] bs IH]; intros i; cbn; [done|]. rewrite fmap_app. unfold sum in *.
  rewrite foldr_app, IH. by destruct u.
Qed.

Lemma verify_blocks_spec h fuel : forall b1 b2 count, heap_rel h (b1 ++ b2) ->
  (Datatypes.length b2 < fuel)%nat -> 0 <= count - Z.of_nat (Datatypes.length (free_blocks 0 b2)) ->
  count < 2 ^ 31 ->
  verify_blocks fuel h (head_block h (total b1) b2) count =
    Some (count - Z.of_nat (Datatypes.length (free_blocks 0 b2))).
Proof.
  induction fuel as [|fuel IH]; intros b1 b2 count R Hf Hc Hm; [lia|]. cbn [verify_blocks].
  destruct b2 as [|[l u] b2]; cbn [head_block].
  - cbn. by rewrite Z.sub_0_r.
  - pose proof (hr_geom _ _ R) as G. pose proof (block_bounds _ _ _ _ _ R) as Hb.
    pose proof (loc_pos h G (total b1) ltac:(lia)).
    destruct (Z.eqb_spec (loc h (total b1)) NULL); [unfold NULL in *; lia|].
    unfold HeapBlock_free. rewrite (header_at _ _ _ _ _ R), (next_block_spec _ _ _ _ _ R).
    cbn [fmap option_fmap option_map mbind option_bind used_].
    assert (R' : heap_rel h ((b1 ++ [(l, u)]) ++ b2)) by (by rewrite <- app_assoc).
    assert (Et : total (b1 ++ [(l, u)]) = total b1 + l) by (rewrite total_app; cbn; lia).
    pose proof (fun c => IH _ _ c R') as IH'. rewrite Et in IH'. cbn [with_bit] in Hc |- *.
    rewrite length_app, (with_bit_length false (0 + l) 0) in Hc |- *. cbn in Hf.
    destruct u; cbn [negb eqb Datatypes.length] in Hc |- *.
    + rewrite IH' by lia. done.
    + rewrite swrap_small by (try lia; unfold in_s; change (32 - 1) with 31; lia).
      rewrite IH' by lia. f_equal. lia.
Qed.

(** From the addresses of a used block the answer is its space. *)
Lemma start_of_used h bs i l p : heap_rel h bs -> (i, l) ∈ used_blocks bs ->
  loc h i <= p < loc h (i + l) -> start_of h bs p = allocated_space (loc h i).
Proof.
  intros R Hin Hp. pose proof (hr_geom _ _ R) as G. pose proof (seg_pos h G) as Hseg.
  pose proof (heap_rel_lengths _ _ R) as P.
  apply with_bit_split in Hin as (b1 & b2 & -> & ->). rewrite Z.add_0_l in *.
  pose proof (block_bounds _ _ _ _ _ R) as Hb. rewrite lengths_ok_app in P. destruct P as (P1 & _).
  assert (Hlo : low (memory h) <= p) by (unfold loc in Hp; nia).
  assert (Hhi : p < high (memory h)).
  { rewrite (ge_high h G). unfold loc in Hp |- *. nia. }
  unfold start_of. assert (CodeHeap_contains h p = true) as ->.
  { unfold CodeHeap_contains, begin_, end_. apply andb_true_intro.
    split; [by apply Z.leb_le|by apply Z.ltb_lt]. }
  rewrite (block_of_app _ _ _ _ 0); [by rewrite Z.add_0_l|done|].
  unfold loc in Hp. split; [apply Z.div_le_lower_bound; lia|apply Z.div_lt_upper_bound; lia].
Qed.

(** An answer that is not null is the space of a used block around the address. *)
Lemma start_of_inv h bs p : heap_rel h bs -> start_of h bs p <> NULL ->
  exists i l, (i, l) ∈ used_blocks bs /\ loc h i <= p < loc h (i + l) /\
    start_of h bs p = allocated_space (loc h i).
Proof.
  intros R. pose proof (hr_geom _ _ R) as G. pose proof (seg_pos h G) as Hseg.
  pose proof (heap_rel_lengths _ _ R) as P. unfold start_of.
  destruct (CodeHeap_contains h p) eqn:Hc; [|done]. destruct (contains_segment h p G Hc) as [_ Hi].
  set (i := (p - low (memory h)) / 2 ^ log2_segment_size h) in *.
  pose proof (block_of_split bs 0 i P ltac:(lia)) as Hb.
  destruct (block_of 0 bs i) as [[[s l] [|]]|]; [|done..].
  destruct Hb as (b1 & b2 & -> & -> & Hs). intros _. exists (0 + total b1), l. split.
  { rewrite with_bit_app. cbn. apply elem_of_app. right. apply list_elem_of_here. }
  split; [|done].
  pose proof (Z.div_mod (p - low (memory h)) (2 ^ log2_segment_size h) ltac:(lia)) as Hd. fold i in Hd.
  pose proof (Z.mod_pos_bound (p - low (memory h)) (2 ^ log2_segment_size h) ltac:(lia)).
  unfold loc. nia.
Qed.

(* ------------------------------------------------------------------ *)
(** ** Theorems *)

(** From any address [find_start] answers without a fault: the space of the used
    block whose segments contain the address, and null for an address in a free block, above
    the blocks or outside the heap. *)
Theorem find_start_spec h bs p : heap_rel h bs ->
  exists r, find_start h p = Some r /\
    (forall i l, (i, l) ∈ used_blocks bs -> loc h i <= p < loc h (i + l) ->
       r = allocated_space (loc h i)) /\
    ((forall i l, (i, l) ∈ used_blocks bs -> ~ (loc h i <= p < loc h (i + l))) -> r = NULL).
Proof.
  intros R. exists (start_of h bs p). split; [by apply find_start_eq|]. split.
  - intros i l. by apply start_of_used.
  - intros Hno. destruct (decide (start_of h bs p = NULL)) as [|Hne]; [done|exfalso].
    destruct (start_of_inv h bs p R Hne) as (i & l & Hin & Hp & _). by apply (Hno i l).
Qed.

(** The iteration visits exactly the used blocks, in the order of their addresses,
    and ends. *)
Theorem iteration_spec h bs : heap_ok h bs ->
  visit_all h = Some ((fun x => allocated_space (loc h x.1)) <$> used_blocks bs).
Proof.
  intros H. pose proof H as [R _]. unfold visit_all, CodeHeap_first. rewrite (first_block_eq h bs R).
  pose proof (next_free_spec h [] bs H) as En. cbn [total] in En. rewrite En. cbn [mbind option_bind].
  apply (visit_spec h _ [] bs H). by apply list_fuel_blocks.
Qed.

(** The checks that [verify] has in its comments always hold: the lengths of the
    blocks on the free list add up to [free_segments] and the list holds all the free blocks.
    The capacity reported as allocated is the space of the used blocks. *)
Theorem verify_spec h bs : heap_rel h bs -> number_of_committed_segments h < 2 ^ 31 ->
  verify h = Some (0, free_segments h) /\
  allocated_capacity h = (total bs - free_total bs) * segment_size h.
Proof.
  intros R Hmax. pose proof (hr_geom _ _ R) as G. pose proof (heap_rel_lengths _ _ R) as P.
  pose proof (free_total_bounds _ P) as Hft. pose proof (hr_top _ _ R) as Htop. split.
  - unfold verify. pose proof (free_pairs_fuel h bs R) as Hfu. pose proof (hr_list _ _ R) as HL.
    rewrite <- free_pairs_list in HL.
    assert (Hlen : Datatypes.length (free_pairs h bs) = Datatypes.length (free_blocks 0 bs))
      by apply length_fmap.
    assert (Hcnt : Z.of_nat (Datatypes.length (free_pairs h bs)) <= number_of_committed_segments h).
    { unfold list_fuel in Hfu. pose proof (ge_count h G). lia. }
    rewrite (verify_freelist_spec h _ _ (free_pairs h bs)); rewrite ?free_pairs_sum; try done;
      [|by apply free_pairs_ok|lia|lia].
    cbn [mbind option_bind]. rewrite (first_block_eq h bs R).
    pose proof (verify_blocks_spec h (list_fuel h) [] bs) as Ev. cbn [total] in Ev.
    rewrite Ev; [|done|by apply list_fuel_blocks|lia|lia]. cbn [mbind option_bind].
    rewrite (hr_free _ _ R), Hlen. do 2 f_equal. lia.
  - assert (Hsm : forall n, 0 <= n <= number_of_committed_segments h ->
      size_of h n = n * 2 ^ log2_segment_size h).
    { intros n Hn. unfold size_of. rewrite Z.shiftl_mul_pow2 by (pose proof (ge_log h G); lia).
      pose proof (seg_mul h G n Hn). apply uwrap_small; [lia|unfold in_u; lia]. }
    pose proof (ge_count h G). unfold allocated_capacity, VirtualSpace.committed_size, pointer_delta.
    rewrite Z.div_1_r, (ge_high h G), (hr_next _ _ R), (hr_free _ _ R). unfold loc.
    replace (low (memory h) + number_of_committed_segments h * 2 ^ log2_segment_size h - low (memory h))
      with (number_of_committed_segments h * 2 ^ log2_segment_size h) by lia.
    pose proof (seg_mul h G (number_of_committed_segments h) ltac:(lia)).
    rewrite (uwrap_small 64 ltac:(lia) (_ * _)) by (unfold in_u; lia).
    rewrite (uwrap_small 64 ltac:(lia) (_ - total bs)) by (unfold in_u; lia).
    rewrite !Hsm by lia. pose proof (seg_pos h G).
    pose proof (seg_mul h G (total bs) ltac:(lia)). pose proof (seg_mul h G (total bs - free_total bs) ltac:(lia)).
    rewrite (uwrap_small 64 ltac:(lia) (_ - (_ - total bs) * _)) by (unfold in_u; nia).
    rewrite (ge_size h G), uwrap_small; [lia|lia|unfold in_u; nia].
Qed.

Lemma find_start_spec_witness :
  find_start toy_heap 250 = Some (224 + 16) /\
  exists r, find_start toy_heap 250 = Some r /\
    (forall i l, (i, l) ∈ used_blocks [(2, true); (3, false); (1, true)] ->
       loc toy_heap i <= 250 < loc toy_heap (i + l) -> r = allocated_space (loc toy_heap i)) /\
    ((forall i l, (i, l) ∈ used_blocks [(2, true); (3, false); (1, true)] ->
       ~ (loc toy_heap i <= 250 < loc toy_heap (i + l))) -> r = NULL).
Proof. split; [reflexivity|]. apply (find_start_spec _ _ _ (proj1 toy_heap_ok)). Defined.

Lemma iteration_spec_witness :
  visit_all toy_heap = Some [80; 240] /\
  visit_all toy_heap = Some ((fun x => allocated_space (loc toy_heap x.1)) <$>
    used_blocks [(2, true); (3, false); (1, true)]).
Proof. split; [reflexivity|]. apply (iteration_spec _ _ toy_heap_ok). Defined.

Lemma verify_spec_witness :
  verify toy_heap = Some (0, free_segments toy_heap) /\
  allocated_capacity toy_heap = (total [(2, true); (3, false); (1, true)] -
    free_total [(2, true); (3, false); (1, true)]) * segment_size toy_heap.
Proof. apply (verify_spec _ _ (proj1 toy_heap_ok)). vm_compute. reflexivity. Defined.
