(* ===== verification/CodeHeapGrow.v ===== *)
(** * CodeHeapGrow: reserving and growing the heap of compiled code

    The memory of the heap and its segment map are two virtual spaces that grow together.
    [heap_sys] adds to [heap_ok] what ties the heap to them: both are well-formed, the memory
    is whole pages, and the map is the pages its segments need.  [reserve] establishes it for
    the empty sequence of blocks, a successful [expand_by] keeps it, and so it holds in every
    state the heap can reach. *)

From stdpp Require Import gmap relations.
From S2P Require Import Prelude GlobalDefs OS ReservedSpace VirtualSpace CodeHeap CodeHeapSpec.

(* ------------------------------------------------------------------ *)
(** ** Sizes in pages and segments *)

Lemma exact_log2_pow2 k : 0 <= k < 63 -> exact_log2 (2 ^ k) = Some k.
Proof.
  intros Hk. unfold exact_log2, log2_intptr. pose proof (pow2_pos k ltac:(lia)).
  assert (2 ^ k <= 2 ^ 62) by (apply Z.pow_le_mono_r; lia).
  rewrite (uwrap_small 64 ltac:(lia)) by (unfold in_u; lia).
  rewrite log2_long_pos by lia. by rewrite Z.log2_pow2 by lia.
Qed.

Lemma MAX2_pow2 a b : 0 <= a -> 0 <= b -> MAX2 (2 ^ a) (2 ^ b) = 2 ^ Z.max a b.
Proof.
  intros Ha Hb. unfold MAX2. destruct (Z.ltb_spec (2 ^ b) (2 ^ a)) as [Hlt|Hle].
  - apply Z.pow_lt_mono_r_iff in Hlt; [|lia..]. f_equal. lia.
  - apply Z.pow_le_mono_r_iff in Hle; [|lia..]. f_equal. lia.
Qed.

(** A number of bytes that is whole segments. *)
Lemma number_of_segments_mul h n : 0 <= log2_segment_size h < 40 ->
  segment_size h = 2 ^ log2_segment_size h -> 0 <= n -> n * 2 ^ log2_segment_size h <= 2 ^ 62 ->
  number_of_segments h (n * 2 ^ log2_segment_size h) = n.
Proof.
  intros Hk Es Hn Hmax. unfold number_of_segments. rewrite Es.
  assert (2 ^ log2_segment_size h <= 2 ^ 39) by (apply Z.pow_le_mono_r; lia).
  pose proof (pow2_pos (log2_segment_size h) ltac:(lia)).
  rewrite !(uwrap_small 64 ltac:(lia)) by
    (unfold in_u; rewrite ?(uwrap_small 64 ltac:(lia)) by (unfold in_u; nia); nia).
  rewrite Z.shiftr_div_pow2 by lia.
  replace (n * 2 ^ log2_segment_size h + 2 ^ log2_segment_size h - 1)
    with (n * 2 ^ log2_segment_size h + (2 ^ log2_segment_size h - 1)) by lia.
  rewrite Z.div_add_l, Z.div_small by lia. lia.
Qed.

Section Grow.
Context `{L : OS_laws} (fresh : Z -> Z).

Lemma align_to_page_size_eq sz : 0 <= sz <= 2 ^ 63 ->
  (vm_page_size | align_to_page_size sz) /\ sz <= align_to_page_size sz < sz + vm_page_size.
Proof using L.
  intros Hs. pose proof page_bits_range. unfold align_to_page_size. rewrite vm_page_size_eq.
  assert (0 < 2 ^ page_bits) by (apply pow2_pos; lia).
  assert (2 ^ page_bits <= 2 ^ 39) by (apply Z.pow_le_mono_r; lia).
  rewrite (uwrap_small 64 ltac:(lia) (sz + _)) by (unfold in_u; lia).
  rewrite (uwrap_small 64 ltac:(lia) (sz + _ - 1)) by (unfold in_u; lia).
  rewrite land_unot_ones by (try lia; unfold in_u; lia).
  assert (Hne : 2 ^ page_bits <> 0) by lia. assert (Hpos : 0 < 2 ^ page_bits) by lia.
  pose proof (Z.div_mod (sz + 2 ^ page_bits - 1) _ Hne) as Hd.
  pose proof (Z.mod_pos_bound (sz + 2 ^ page_bits - 1) _ Hpos).
  split; [|lia]. exists ((sz + 2 ^ page_bits - 1) / 2 ^ page_bits). lia.
Qed.

(** Aligning is monotone and does nothing to whole pages. *)
Lemma align_to_page_size_mono a b : 0 <= a -> a <= b <= 2 ^ 63 ->
  align_to_page_size a <= align_to_page_size b.
Proof using L.
  intros Ha Hb. destruct (align_to_page_size_eq a ltac:(lia)) as [Da Ba].
  destruct (align_to_page_size_eq b ltac:(lia)) as [Db Bb]. rewrite vm_page_size_eq in *.
  pose proof page_bits_range.
  assert (Hpb : 0 <= page_bits < 62) by lia. apply (multiple_le _ Hpb); [done..|lia].
Qed.

Lemma align_to_page_size_id a : 0 <= a <= 2 ^ 63 -> (vm_page_size | a) -> align_to_page_size a = a.
Proof using L.
  intros Ha Hd. destruct (align_to_page_size_eq a ltac:(lia)) as [Da Ba]. rewrite vm_page_size_eq in *.
  pose proof page_bits_range. assert (Hpb : 0 <= page_bits < 62) by lia.
  apply Z.le_antisymm; [|lia]. apply (multiple_le _ Hpb); [done..|lia].
Qed.

(** Whole pages are whole segments. *)
Lemma page_segments h a : 5 <= log2_segment_size h <= page_bits -> 0 <= a <= 2 ^ 62 ->
  segment_size h = 2 ^ log2_segment_size h -> (vm_page_size | a) ->
  number_of_segments h a * 2 ^ log2_segment_size h = a /\ 0 <= number_of_segments h a <= a.
Proof using L.
  intros Hk Ha Es Hd. pose proof page_bits_range. rewrite vm_page_size_eq in Hd.
  apply (pow2_divide (log2_segment_size h)) in Hd as [n Hn]; [|lia].
  pose proof (pow2_pos (log2_segment_size h) ltac:(lia)).
  rewrite Hn in *. rewrite number_of_segments_mul by (try done; try lia; nia). split; [done|]. nia.
Qed.

(* ------------------------------------------------------------------ *)
(** ** The heap and its spaces *)

Record heap_sys (s : os_state) (h : CodeHeap) (bs : blocks) : Prop := {
  hs_heap : heap_ok h bs;
  hs_memory : vs_inv s (memory h);
  hs_segmap : vs_inv s (segmap h);
  hs_log : log2_segment_size h <= page_bits;
  hs_pages : (vm_page_size | capacity h);
  hs_reserved : number_of_reserved_segments h = number_of_segments h (max_capacity h);
  hs_bytes : Z.of_nat (Datatypes.length (segmap_bytes h)) = VirtualSpace.committed_size (segmap h);
  hs_map : VirtualSpace.committed_size (segmap h) = align_to_page_size (number_of_committed_segments h);
  hs_room : VirtualSpace.reserved_size (segmap h) = align_to_page_size (number_of_reserved_segments h)
}.

Lemma heap_capacity s h : vs_inv s (memory h) -> geom h ->
  capacity h = number_of_committed_segments h * 2 ^ log2_segment_size h /\
  0 <= capacity h <= max_capacity h /\ max_capacity h <= 2 ^ 62 /\ (vm_page_size | max_capacity h).
Proof using L.
  intros I G. destruct (sizes_eq _ (i_geom _ _ I) (i_high _ _ I)) as (E1 & E2 & _).
  pose proof (i_high _ _ I). destruct (i_geom _ _ I) as [? ? E ? _ Hd1 Hd2 _ _ _ _].
  unfold capacity, max_capacity. rewrite E1, E2, E.
  pose proof (ge_high h G) as Hh. unfold loc in Hh. rewrite E in Hh.
  split_and!; try lia. by apply Z.divide_sub_r.
Qed.

(** What the blocks are read from besides the memory and the map. *)
Definition client (h : CodeHeap) :=
  (number_of_reserved_segments h, segment_size h, log2_segment_size h, next_segment h,
   freelist h, free_segments h, headers h, links h).

Lemma blocks_at_same h h' i bs e : (forall j, loc h' j = loc h j) -> headers h' = headers h ->
  (forall j, j < e -> arr_get (segmap_bytes h') j = arr_get (segmap_bytes h) j) ->
  i + total bs <= e -> blocks_at h i bs -> blocks_at h' i bs.
Proof using Type.
  intros Hl Hh Ha. revert i. induction bs as [|[l u] bs IH]; intros i He; cbn; [done|].
  intros (H1 & H2 & H3 & H4). cbn in He. pose proof (total_nonneg bs (blocks_at_lengths _ _ _ H4)).
  rewrite Hl, Hh. split_and!; [done..| |].
  - intros j Hj. rewrite Ha by lia. by apply H3.
  - apply IH; [lia|done].
Qed.

(** The same blocks over a memory that has grown. *)
Lemma heap_ok_spaces h h' bs : heap_ok h bs -> client h' = client h ->
  low (memory h') = low (memory h) -> geom h' ->
  number_of_committed_segments h <= number_of_committed_segments h' ->
  (forall j, j < number_of_committed_segments h ->
     arr_get (segmap_bytes h') j = arr_get (segmap_bytes h) j) ->
  (forall j, number_of_committed_segments h <= j < number_of_committed_segments h' ->
     arr_get (segmap_bytes h') j = Some 0xFF) -> heap_ok h' bs.
Proof using Type.
  intros [R Hna] Hc Hlow G Hn Hold Hnew. split; [|done].
  destruct R as [_ Hb Hnext Htop Hun Hfree HL]. unfold client in Hc. injection Hc as ? ? Elog ? ? ? Eh El.
  assert (Hloc : forall j, loc h' j = loc h j) by (intros j; unfold loc; congruence).
  split; try congruence; try lia.
  - apply (blocks_at_same h _ _ _ (number_of_committed_segments h)); try done; lia.
  - intros j Hj. destruct (Z.lt_ge_cases j (number_of_committed_segments h)).
    + rewrite Hold by done. apply Hun. lia.
    + apply Hnew. lia.
  - replace (free_list h' 0 bs) with (free_list h 0 bs) by (apply list_fmap_ext; intros; by rewrite Hloc).
    congruence.
Qed.

(** The committed memory and the map of a heap, as numbers. *)
Record spaces_ok (s : os_state) (h : CodeHeap) : Prop := {
  so_memory : vs_inv s (memory h);
  so_segmap : vs_inv s (segmap h);
  so_log : 5 <= log2_segment_size h <= page_bits /\ segment_size h = 2 ^ log2_segment_size h;
  so_pages : (vm_page_size | capacity h);
  so_count : number_of_committed_segments h = number_of_segments h (capacity h);
  so_bytes : Z.of_nat (Datatypes.length (segmap_bytes h)) = VirtualSpace.committed_size (segmap h);
  so_map : VirtualSpace.committed_size (segmap h) = align_to_page_size (number_of_committed_segments h)
}.

Lemma spaces_capacity s h : spaces_ok s h ->
  0 <= capacity h <= 2 ^ 62 /\ 0 <= number_of_committed_segments h <= 2 ^ 62 /\
  number_of_committed_segments h * 2 ^ log2_segment_size h = capacity h.
Proof using L.
  intros [I _ [Hl Es] Hd Hn _ _]. destruct (sizes_eq _ (i_geom _ _ I) (i_high _ _ I)) as (E & _ & _).
  pose proof (i_high _ _ I). destruct (i_geom _ _ I) as [? ? El _ _ _ _ _ _ _ _].
  unfold capacity in *. rewrite E in *. rewrite El in *.
  destruct (page_segments h (high (memory h) - low_boundary (memory h))) as [Hm Hb]; [done|lia|done|done|].
  rewrite Hn. split_and!; try done; lia.
Qed.

Lemma spaces_geom s h : spaces_ok s h -> geom h.
Proof using L.
  intros S. destruct (spaces_capacity s h S) as (Hc & Hn & Em).
  destruct S as [I I' [Hl Es] Hd Ec Hb Hmap]. pose proof page_bits_range.
  destruct (sizes_eq _ (i_geom _ _ I) (i_high _ _ I)) as (E & _ & _).
  pose proof (i_high _ _ I). destruct (i_geom _ _ I) as [? ? El _ _ _ _ _ _ _ _].
  destruct (align_to_page_size_eq (number_of_committed_segments h)) as [_ Ha]; [lia|].
  unfold capacity in Em. split; unfold loc; rewrite ?Em; try lia; try done.
Qed.

Lemma heap_sys_spaces_ok s h bs : heap_sys s h bs -> spaces_ok s h.
Proof using L.
  intros []. pose proof (hr_geom _ _ (proj1 hs_heap0)) as G. pose proof (ge_log h G).
  destruct (heap_capacity s h hs_memory0 G) as (E & ? & ? & _).
  split; try done; [split; [lia|apply G]|]. rewrite E.
  rewrite number_of_segments_mul; [done|destruct G; lia|apply G|destruct G; lia|lia].
Qed.

(** The heap over changed spaces. *)
Lemma heap_sys_spaces s s' h h' bs : heap_sys s h bs -> spaces_ok s' h' -> client h' = client h ->
  same_range (memory h) (memory h') -> same_range (segmap h) (segmap h') ->
  number_of_committed_segments h <= number_of_committed_segments h' ->
  (forall j, j < number_of_committed_segments h ->
     arr_get (segmap_bytes h') j = arr_get (segmap_bytes h) j) ->
  (forall j, number_of_committed_segments h <= j < number_of_committed_segments h' ->
     arr_get (segmap_bytes h') j = Some 0xFF) -> heap_sys s' h' bs.
Proof using L.
  intros [] S Hc (E1 & E2 & E3 & _) (_ & F2 & F3 & _) Hn Hold Hnew.
  pose proof (spaces_geom s' h' S) as G. destruct S.
  split; try done.
  - by apply (heap_ok_spaces h).
  - destruct so_log0; lia.
  - unfold client in Hc. injection Hc as -> Es El _ _ _ _ _. rewrite hs_reserved0.
    unfold max_capacity, VirtualSpace.reserved_size, number_of_segments. by rewrite E2, E3, Es, El.
  - unfold client in Hc. injection Hc as -> _ _ _ _ _ _ _. rewrite <- hs_room0.
    unfold VirtualSpace.reserved_size. by rewrite F2, F3.
Qed.

(* ------------------------------------------------------------------ *)
(** ** Growing *)

(** A heap whose memory has grown while the map has not yet. *)
Record map_behind (s : os_state) (h : CodeHeap) (old : Z) : Prop := {
  mb_memory : vs_inv s (memory h);
  mb_segmap : vs_inv s (segmap h);
  mb_old : 0 <= old <= number_of_committed_segments h;
  mb_count : number_of_committed_segments h <= number_of_reserved_segments h <= 2 ^ 62;
  mb_bytes : Z.of_nat (Datatypes.length (segmap_bytes h)) = VirtualSpace.committed_size (segmap h);
  mb_map : VirtualSpace.committed_size (segmap h) = align_to_page_size old;
  mb_room : VirtualSpace.reserved_size (segmap h) = align_to_page_size (number_of_reserved_segments h)
}.

Lemma expand_segmap_spec s h old : map_behind s h old ->
  exists g bytes ok s', expand_segmap fresh h s =
      Some (set_spaces h (memory h) (number_of_committed_segments h) g bytes, ok, s') /\
    vs_inv s' g /\ same_range (segmap h) g /\ (willing -> ok = true) /\
    (forall p, committed s p = true -> committed s' p = true) /\
    (forall j, j < old -> arr_get bytes j = arr_get (segmap_bytes h) j) /\
    Z.of_nat (Datatypes.length bytes) = VirtualSpace.committed_size g /\
    if ok then VirtualSpace.committed_size g = align_to_page_size (number_of_committed_segments h)
    else VirtualSpace.committed_size g < number_of_committed_segments h.
Proof using L.
  intros []. unfold expand_segmap. set (n := number_of_committed_segments h) in *.
  pose proof (align_to_page_size_mono old n ltac:(lia) ltac:(lia)) as Hmono.
  destruct (align_to_page_size_eq old) as [Hd Ha]; [lia|]. destruct (align_to_page_size_eq n) as [Hd' Ha']; [lia|].
  assert (vm_page_size <= 2 ^ 39).
  { rewrite vm_page_size_eq. pose proof page_bits_range. apply Z.pow_le_mono_r; lia. }
  rewrite mb_map0 in *.
  rewrite (uwrap_small 64 ltac:(lia)) by (unfold in_u; lia).
  destruct (Z.ltb_spec 0 (align_to_page_size n - align_to_page_size old)) as [Hlt|Hge].
  2: { exists (segmap h), (segmap_bytes h), true, s. split; [by destruct h|].
       split_and!; try done; rewrite mb_map0; lia. }
  set (ds := align_to_page_size n - align_to_page_size old) in *.
  destruct (expand_by_ok (segmap h) ds false s mb_segmap0 ltac:(lia))
    as (g & ok & s' & E & I' & Hr & Hh & _ & Hyes & Hcm & _).
  rewrite (sbind_Some _ _ _ _ _ E). eexists _, _, ok, s'. split; [done|].
  pose proof (sizes_eq _ (i_geom _ _ mb_segmap0) (i_high _ _ mb_segmap0)) as (C1 & C2 & C3).
  pose proof (sizes_eq _ (i_geom _ _ I') (i_high _ _ I')) as (C1' & _ & _).
  pose proof (g_low_eq _ (i_geom _ _ mb_segmap0)). pose proof Hr as (Hlow & _).
  assert (Hcg : VirtualSpace.committed_size g = if ok then align_to_page_size n else align_to_page_size old).
  { rewrite C1', Hh, Hlow. destruct ok; lia. }
  split_and!; try done.
  - intros Hw. apply Hyes; [|done].
    pose proof (align_to_page_size_mono n (number_of_reserved_segments h) ltac:(lia) ltac:(lia)). lia.
  - intros j Hj. destruct ok; [|done]. apply arr_get_app_l. lia.
  - rewrite Hcg. destruct ok; [|done]. rewrite length_app, length_fmap, length_seqZ. lia.
  - rewrite Hcg. destruct ok; [done|]. 
    destruct (Z.lt_ge_cases (align_to_page_size old) n) as [|Hn]; [done|exfalso].
    assert (align_to_page_size n <= align_to_page_size old); [|lia].
    rewrite <- (align_to_page_size_id (align_to_page_size old)) by (done || lia).
    apply align_to_page_size_mono; lia.
Qed.

Lemma mark_free_client h b e h' : mark_segmap_as_free h b e = Some h' -> client h' = client h.
Proof using Type. unfold mark_segmap_as_free. destruct (each_range b e _ _); by intros [= <-]. Qed.

(** The new segments are marked free, which completes the growth. *)
Lemma mark_new_spec s s' h bs m n g bytes : heap_sys s h bs ->
  vs_inv s' m -> vs_inv s' g -> same_range (memory h) m -> same_range (segmap h) g ->
  (vm_page_size | VirtualSpace.committed_size m) -> capacity h <= VirtualSpace.committed_size m ->
  n = number_of_segments h (VirtualSpace.committed_size m) ->
  Z.of_nat (Datatypes.length bytes) = VirtualSpace.committed_size g ->
  VirtualSpace.committed_size g = align_to_page_size n ->
  (forall j, j < number_of_committed_segments h -> arr_get bytes j = arr_get (segmap_bytes h) j) ->
  exists h', mark_segmap_as_free (set_spaces h m n g bytes) (number_of_committed_segments h) n = Some h' /\
    heap_sys s' h' bs /\ memory h' = m.
Proof using L.
  intros HS Im Ig Rm Rg Hd Hcap Hn Hb Hg Hold.
  pose proof (heap_sys_spaces_ok s h bs HS) as S. destruct (spaces_capacity s h S) as (Hc & HN & EN).
  pose proof (so_log s h S) as [Hl Es].
  destruct (sizes_eq _ (i_geom _ _ Im) (i_high _ _ Im)) as (Cm & _ & _).
  pose proof (i_high _ _ Im). pose proof (g_low _ (i_geom _ _ Im)). pose proof (g_bound _ (i_geom _ _ Im)).
  pose proof (g_low_eq _ (i_geom _ _ Im)).
  destruct (page_segments h (VirtualSpace.committed_size m)) as [En Hbn]; [done|lia|done|done|].
  rewrite <- Hn in En, Hbn. pose proof (pow2_pos (log2_segment_size h) ltac:(lia)).
  assert (HNn : number_of_committed_segments h <= n).
  { apply (Z.mul_le_mono_pos_r _ _ (2 ^ log2_segment_size h)); lia. }
  destruct (align_to_page_size_eq n) as [_ Ha]; [lia|].
  destruct (mark_free_spec (set_spaces h m n g bytes) (number_of_committed_segments h) n)
    as (b' & E & Hlen & Hb'); [lia|cbn; lia|].
  eexists. split; [exact E|]. split; [|done]. cbn in Hlen, Hb'.
  apply (heap_sys_spaces s s' h); try done.
  - split; try done; cbn; try congruence; lia.
  - intros j Hj. cbn. rewrite Hb'. destruct (Z.leb_spec (number_of_committed_segments h) j); [lia|].
    cbn. by apply Hold.
  - intros j Hj. cbn in Hj |- *. rewrite Hb'. by zcases.
Qed.

(** A heap whose memory was not grown, though some of its regions may have been committed. *)
Lemma heap_sys_refused s s' h bs m : heap_sys s h bs -> vs_inv s' m -> same_range (memory h) m ->
  high m = high (memory h) -> vs_inv s' (segmap h) ->
  heap_sys s' (set_spaces h m (number_of_committed_segments h) (segmap h) (segmap_bytes h)) bs /\
  VirtualSpace.committed_size m = capacity h.
Proof using L.
  intros HS Im Rm Hh Ig. pose proof (heap_sys_spaces_ok s h bs HS) as S.
  assert (E : VirtualSpace.committed_size m = capacity h).
  { unfold capacity, VirtualSpace.committed_size. destruct Rm as (-> & _). by rewrite Hh. }
  split; [|done]. destruct S. apply (heap_sys_spaces s s' h); try done; [|cbn; lia].
  split; try done; cbn; unfold capacity in *; cbn; rewrite E; done.
Qed.

Lemma grown_behind s s1 h bs m : heap_sys s h bs -> vs_inv s1 m -> vs_inv s1 (segmap h) ->
  same_range (memory h) m -> (vm_page_size | VirtualSpace.committed_size m) ->
  capacity h <= VirtualSpace.committed_size m ->
  map_behind s1 (set_spaces h m (number_of_segments h (VirtualSpace.committed_size m)) (segmap h)
    (segmap_bytes h)) (number_of_committed_segments h).
Proof using L.
  intros HS Im Ig Rm Hd Hcap. pose proof (heap_sys_spaces_ok s h bs HS) as S.
  destruct (spaces_capacity s h S) as (Hc & HN & EN). pose proof (so_log s h S) as [Hl Es].
  destruct (sizes_eq _ (i_geom _ _ Im) (i_high _ _ Im)) as (Cm & Cr & _).
  pose proof (i_high _ _ Im). pose proof (g_low _ (i_geom _ _ Im)). pose proof (g_bound _ (i_geom _ _ Im)).
  pose proof (g_low_eq _ (i_geom _ _ Im)). destruct HS as [Hh Im0 _ _ _ Hr Hb Hm Hroom].
  destruct (heap_capacity s h Im0 (hr_geom _ _ (proj1 Hh))) as (_ & _ & Hmax & Hdm).
  assert (Emax : VirtualSpace.reserved_size m = max_capacity h).
  { unfold max_capacity, VirtualSpace.reserved_size. by destruct Rm as (_ & -> & -> & _). }
  destruct (page_segments h (VirtualSpace.committed_size m)) as [En Hbn]; [done|lia|done|done|].
  destruct (page_segments h (max_capacity h)) as [Er Hbr]; [done|lia|done|done|].
  pose proof (pow2_pos (log2_segment_size h) ltac:(lia)).
  split; cbn; try done.
  - split; [lia|]. apply (Z.mul_le_mono_pos_r _ _ (2 ^ log2_segment_size h)); lia.
  - rewrite Hr. split; [|lia]. apply (Z.mul_le_mono_pos_r _ _ (2 ^ log2_segment_size h)); lia.
Qed.

(** Growing as a change of the heap; in the last case only the map could not grow. *)
Lemma expand_heap_ok s h bs sz : heap_sys s h bs -> 0 <= sz <= 2 ^ 61 ->
  exists h' ok s', CodeHeap_expand_by fresh h sz s = Some (h', ok, s') /\ client h' = client h /\
    (if ok then heap_sys s' h' bs /\ capacity h' = align_to_page_size (capacity h + sz)
     else heap_sys s' h' bs /\ capacity h' = capacity h \/
          capacity h < capacity h' /\
          Z.of_nat (Datatypes.length (segmap_bytes h')) < number_of_committed_segments h') /\
    (max_capacity h < capacity h + sz -> ok = false /\ capacity h' = capacity h) /\
    (capacity h + sz <= max_capacity h -> willing -> ok = true).
Proof using L.
  intros HS Hs. pose proof (heap_sys_spaces_ok s h bs HS) as S.
  destruct (spaces_capacity s h S) as (Hc & HN & _). pose proof HS as [Hh Im Ig _ Hd _ _ _ _].
  destruct (heap_capacity s h Im (hr_geom _ _ (proj1 Hh))) as (_ & Hmax & Hmax' & Hdm).
  destruct (align_to_page_size_eq (capacity h + sz)) as [Da Ba]; [lia|].
  pose proof (align_to_page_size_mono (capacity h) (capacity h + sz) ltac:(lia) ltac:(lia)) as Hmono.
  rewrite (align_to_page_size_id (capacity h)) in Hmono by (done || lia).
  assert (vm_page_size <= 2 ^ 39).
  { rewrite vm_page_size_eq. pose proof page_bits_range. apply Z.pow_le_mono_r; lia. }
  destruct (sizes_eq _ (i_geom _ _ Im) (i_high _ _ Im)) as (Cm & Cr & Cu).
  pose proof (g_low_eq _ (i_geom _ _ Im)) as Elow.
  change (VirtualSpace.committed_size (memory h)) with (capacity h) in Cm.
  change (VirtualSpace.reserved_size (memory h)) with (max_capacity h) in Cr.
  unfold CodeHeap_expand_by. change (VirtualSpace.committed_size (memory h)) with (capacity h).
  rewrite (uwrap_small 64 ltac:(lia) (capacity h + sz)) by (unfold in_u; lia).
  rewrite (uwrap_small 64 ltac:(lia)) by (unfold in_u; lia).
  set (cap' := align_to_page_size (capacity h + sz)) in *.
  destruct (Z.ltb_spec 0 (cap' - capacity h)) as [Hlt|Hge].
  2: { exists h, true, s. split_and!; try done; lia. }
  destruct (expand_by_ok (memory h) (cap' - capacity h) false s Im ltac:(lia))
    as (m & ok & s1 & E & Im1 & Rm & Hhm & Hno & Hyes & Hcm & _).
  rewrite (sbind_Some _ _ _ _ _ E).
  assert (Ig1 : vs_inv s1 (segmap h)) by (apply (vs_inv_mono s); [done|by intros p _; apply Hcm]).
  destruct ok; cbn [negb].
  2: { destruct (heap_sys_refused s s1 h bs m HS Im1 Rm Hhm Ig1) as [HS' Ec].
       eexists _, false, s1. split; [done|]. split_and!; try done; [by left|].
       intros Hr Hw. apply Hyes; [|done]. rewrite Cu.
       pose proof (align_to_page_size_mono (capacity h + sz) (max_capacity h) ltac:(lia) ltac:(lia)) as Hx.
       rewrite (align_to_page_size_id (max_capacity h)) in Hx by (done || lia). fold cap' in Hx. lia. }
  destruct (sizes_eq _ (i_geom _ _ Im1) (i_high _ _ Im1)) as (Cm' & _ & _).
  assert (Ecap : VirtualSpace.committed_size m = cap') by (rewrite Cm', Hhm; destruct Rm as (-> & _); lia).
  rewrite Ecap. pose proof (grown_behind s s1 h bs m HS Im1 Ig1 Rm) as MB. rewrite Ecap in MB.
  specialize (MB Da ltac:(lia)). set (n := number_of_segments h cap') in *.
  destruct (expand_segmap_spec s1 _ _ MB) as (g & bytes & ok & s2 & E2 & Ig2 & Rg & Hyes2 & Hcm2 & Hold & Hb & Hg).
  rewrite (sbind_Some _ _ _ _ _ E2). cbn [number_of_committed_segments set_spaces segmap memory segmap_bytes] in *.
  assert (Hfit : ~ max_capacity h < capacity h + sz).
  { intros Hx. assert (true = false); [|done]. apply Hno. rewrite Cu. lia. }
  destruct ok; cbn [negb].
  2: { eexists _, false, s2. split; [done|]. split_and!; try done. right.
       split; [|cbn; lia]. unfold capacity at 2. cbn. lia. }
  destruct (mark_new_spec s s2 h bs m n g bytes) as (h' & E3 & HS' & Em); try done.
  { apply (vs_inv_mono s1); [done|]. intros p _. apply Hcm2. }
  { by rewrite Ecap. } { by rewrite Ecap; lia. } { by rewrite Ecap. }
  change (set_spaces _ m n g bytes) with (set_spaces h m n g bytes).
  unfold lift, sbind. rewrite E3. eexists h', true, s2. split; [done|].
  split; [|split; [split; [done|unfold capacity; by rewrite Em]|split_and!; [done|done]]].
  by apply (mark_free_client _ _ _ _ E3).
Qed.

(** Growing the code heap.  It never faults.  It succeeds when the reservation has room
    and the system refuses no commit, and then the capacity grows by the request, rounded up
    to whole pages, and the heap has the same blocks.  When the memory cannot grow, in
    particular when the reservation is too small, the heap is as before.  In the one remaining
    case the memory has grown and the segment map has not: the heap is left with more
    segments than its map has bytes. *)
Theorem code_heap_expand_spec s h bs sz : heap_sys s h bs -> 0 <= sz <= 2 ^ 61 ->
  exists h' ok s', CodeHeap_expand_by fresh h sz s = Some (h', ok, s') /\
    (ok = true -> heap_sys s' h' bs /\ (vm_page_size | capacity h') /\
       capacity h + sz <= capacity h' < capacity h + sz + vm_page_size) /\
    (ok = false -> heap_sys s' h' bs /\ capacity h' = capacity h \/
       capacity h < capacity h' /\
       Z.of_nat (Datatypes.length (segmap_bytes h')) < number_of_committed_segments h') /\
    (max_capacity h < capacity h + sz -> ok = false /\ heap_sys s' h' bs) /\
    (capacity h + sz <= max_capacity h -> willing -> ok = true).
Proof using L.
  intros HS Hs. destruct (spaces_capacity s h (heap_sys_spaces_ok s h bs HS)) as (Hc & _ & _).
  destruct (align_to_page_size_eq (capacity h + sz)) as [Da Ba]; [lia|].
  destruct (expand_heap_ok s h bs sz HS Hs) as (h' & ok & s' & E & _ & Hok & Hno & Hyes).
  exists h', ok, s'. split; [done|]. destruct ok.
  - destruct Hok as [HS' ->]. split_and!; [done|done| |done].
    intros Hx. by destruct (Hno Hx).
  - split_and!; [done|done| |done]. intros Hx. destruct (Hno Hx) as [_ Hcap]. split; [done|].
    destruct Hok as [[? _]|[? _]]; [done|lia].
Qed.

(* ------------------------------------------------------------------ *)
(** ** Reserving *)

(** The system refuses something. *)
Definition system_refuses : Prop := (exists s n, refused s n) \/ ~ willing.

(** A space that was reserved can be handed to a virtual space. *)
Lemma initialized_rs_ok s s' size align large rs : 0 < size -> (vm_page_size | size) ->
  align = 0 \/ (exists k, page_bits <= k < 60 /\ align = 2 ^ k) -> size <= 2 ^ 61 ->
  initialized s s' size align large rs -> is_reserved rs = true ->
  rs_ok s' rs /\ size <= rs_size rs /\ (align = 0 -> rs_size rs = size) /\
  (forall p, in_range (base rs) (rs_size rs) p = true -> reserved s' p = true) /\
  forall p, reserved s p = true -> reserved s' p = true /\ committed s' p = committed s p.
Proof using L.
  intros Hs Hd Hal Hmax Hi Hr. unfold initialized in Hi. rewrite Hr in Hi.
  destruct Hi as (Hg & Hle & Heq & _ & Hsp). unfold is_reserved in Hr. apply negb_true_iff, Z.eqb_neq in Hr.
  destruct (got_range _ _ _ _ Hg Hr) as (Hb & Hmx & Hdb). pose proof Hg as [Hk Hg'].
  destruct (Z.eqb_spec (base rs) 0); [done|]. destruct Hg' as (_ & _ & _ & _ & Hres).
  assert (Hds : (vm_page_size | rs_size rs)).
  { destruct Heq as [->|[Hp ->]]; [done|]. destruct Hal as [->|(k & Hk' & ->)]; [lia|].
    assert (2 ^ k <= 2 ^ 59) by (apply Z.pow_le_mono_r; pose proof page_bits_range; lia).
    pose proof page_bits_range.
    destruct (align_size_spec size k) as (Hx & _); [lia..|]. rewrite vm_page_size_eq.
    apply (pow2_divide _ k); [lia|done]. }
  split; [split; [done|split_and!; [lia|done|done]|]|].
  - intros Hsp' p Hp. destruct (Hsp Hsp') as [_ Hc]. apply Hc, in_range_iff. lia.
  - split; [done|]. split; [intros ->; destruct Heq as [|[? _]]; [done|lia]|]. split.
    + intros p Hp. by rewrite Hres, Hp, orb_true_r.
    + intros p Hp. split; [by rewrite Hres, Hp|by apply Hk].
Qed.

Lemma space_of_request fuel size align large x c s :
  0 < size <= 2 ^ 61 -> (vm_page_size | size) ->
  align = 0 \/ (exists k, page_bits <= k < 60 /\ align = 2 ^ k) -> undisturbed -> 0 <= c <= size ->
  exists rs s1 v ok s2, ReservedSpace.initialize (Datatypes.S fuel) size align large 0 0 x s = Some (rs, s1) /\
    VirtualSpace.initialize rs c s1 = Some (v, ok, s2) /\
    (forall p, reserved s p = true -> reserved s2 p = true /\ (committed s p = true -> committed s2 p = true)) /\
    if (ok : bool) then
      vs_inv s2 v /\ size <= VirtualSpace.reserved_size v /\
      (align = 0 -> VirtualSpace.reserved_size v = size) /\ VirtualSpace.committed_size v = c /\
      forall p, low_boundary v <= p < high_boundary v -> reserved s2 p = true
    else system_refuses.
Proof using L.
  intros Hs Hd Hal Hun Hc.
  destruct (initialize_spec fuel size align large 0 0 x s Hs Hal Hun) as (rs & s1 & E & Hi & _ & Href).
  destruct (is_reserved rs) eqn:Hr.
  2: { exists rs, s1, new_VirtualSpace, false, s1. unfold VirtualSpace.initialize.
       unfold initialized in Hi. rewrite Hr in *. destruct Hi as [Hi1 Hi2].
       split; [done|]. split; [done|]. split.
       - intros p Hp. rewrite Hi1, Hi2 by done. done.
       - left. destruct (Href eq_refl eq_refl) as [|[_ ?]]; eauto. }
  destruct (initialized_rs_ok s s1 size align large rs ltac:(lia) Hd Hal ltac:(lia) Hi Hr)
    as (Hrs & Hle & Heq & Hin & Hk).
  destruct (initialize_ok rs c s1 Hrs ltac:(lia))
    as (v & ok & s2 & E2 & I & Hlo & Hhi & _ & Hcs & _ & Hyes & Hcm & Hres & _).
  exists rs, s1, v, ok, s2. split; [done|]. split; [done|]. split.
  { intros p Hp. destruct (Hk p Hp) as [H1 H2]. rewrite Hres. split; [done|]. intros H3. apply Hcm. by rewrite H2. }
  destruct ok.
  - destruct (sizes_eq _ (i_geom _ _ I) (i_high _ _ I)) as (_ & Cr & _).
    pose proof (g_low_eq _ (i_geom _ _ I)) as El. split_and!; try done; try lia.
    intros p Hp. rewrite Hres. apply Hin, in_range_iff. lia.
  - right. intros Hw. by specialize (Hyes ltac:(lia) Hw).
Qed.

(** The page size the heap is reserved with. *)
Lemma code_page_size C R : exists j, (if can_execute_large_page_memory
    then page_size_for_region C R 8 else Some vm_page_size) = Some (2 ^ j) /\ page_bits <= j < 40.
Proof using L.
  pose proof page_bits_range. destruct can_execute_large_page_memory.
  - destruct (page_size_for_region_spec C R 8) as (j & E & Hj & _); [lia|]. by exists j.
  - exists page_bits. rewrite vm_page_size_eq. split; [done|lia].
Qed.

(** The empty heap over two fresh spaces. *)
Lemma clear_spec s h : spaces_ok s h -> headers h = ∅ -> links h = ∅ -> freelist h = NULL ->
  free_segments h = 0 -> number_of_reserved_segments h = number_of_segments h (max_capacity h) ->
  VirtualSpace.reserved_size (segmap h) = align_to_page_size (number_of_reserved_segments h) ->
  exists h', CodeHeap_clear h = Some h' /\ heap_sys s h' [] /\
    memory h' = memory h /\ segment_size h' = segment_size h.
Proof using L.
  intros S Hh Hl Hf Hfs Hr Hroom. pose proof (spaces_geom s h S) as G. unfold CodeHeap_clear.
  destruct (mark_free_spec (set_next_segment h 0) 0 (number_of_committed_segments h))
    as (b & E & Hlen & Hb); [pose proof (ge_count h G); lia|cbn; apply G|].
  cbn in Hlen, Hb. eexists. split; [exact E|]. split; [|done]. destruct S.
  split; try done; [|by destruct so_log0; cbn; lia|cbn; lia].
  split; [|done]. split; try done.
  - destruct G. split; try done. cbn. by rewrite Hlen.
  - cbn. destruct G. lia.
  - intros j Hj. cbn in Hj |- *. rewrite Hb. by zcases.
Qed.

(** The sizes that [reserve] computes. *)
Lemma aligned_sizes C R j g : 0 <= C <= R -> 0 < R <= 2 ^ 60 -> page_bits <= j < 40 -> page_bits <= g < 40 ->
  let r := u64 (align_size_up R (2 ^ Z.max j g)) in
  let c := u64 (align_size_up C (2 ^ j)) in
  (vm_page_size | r) /\ (vm_page_size | c) /\ R <= r <= 2 ^ 61 /\ C <= c <= r.
Proof using L.
  intros HC HR Hj Hg. pose proof page_bits_range.
  assert (Hp : forall k, page_bits <= k < 40 -> 0 < 2 ^ k <= 2 ^ 39).
  { intros k Hk. split; [apply pow2_pos; lia|apply Z.pow_le_mono_r; lia]. }
  pose proof (Hp j Hj). pose proof (Hp (Z.max j g) ltac:(lia)).
  destruct (align_size_spec R (Z.max j g)) as (Dr & Br & _); [lia..|].
  destruct (align_size_spec C j) as (Dc & Bc & _); [lia..|].
  rewrite !(uwrap_small 64 ltac:(lia)) by (unfold in_u; lia). cbv zeta. rewrite vm_page_size_eq.
  split_and!; try lia.
  - apply (pow2_divide _ (Z.max j g)); [lia|done].
  - apply (pow2_divide _ j); [lia|done].
  - assert (Hk : 0 <= j < 62) by lia. apply (multiple_le j Hk); [done| |lia].
    apply (pow2_divide _ (Z.max j g)); [lia|done].
Qed.

Lemma reserve_segmap_spec fuel h s : undisturbed -> vs_inv s (memory h) ->
  5 <= log2_segment_size h <= page_bits -> segment_size h = 2 ^ log2_segment_size h ->
  (vm_page_size | capacity h) -> 0 < max_capacity h ->
  number_of_committed_segments h = number_of_segments h (capacity h) ->
  number_of_reserved_segments h = number_of_segments h (max_capacity h) ->
  (forall p, low_boundary (memory h) <= p < high_boundary (memory h) -> reserved s p = true) ->
  headers h = ∅ -> links h = ∅ -> freelist h = NULL -> free_segments h = 0 ->
  exists h' ok s', reserve_segmap fresh (Datatypes.S fuel) h s = Some (h', ok, s') /\
    if (ok : bool) then heap_sys s' h' [] /\ memory h' = memory h /\ segment_size h' = segment_size h
    else system_refuses.
Proof using L.
  intros Hun Im Hl Es Hd Hpos En Er Hres E1 E2 E3 E4. pose proof page_bits_range.
  destruct (sizes_eq _ (i_geom _ _ Im) (i_high _ _ Im)) as (Cm & Cr & _).
  pose proof (i_high _ _ Im). destruct (i_geom _ _ Im) as [? ? El ? _ Hd1 Hd2 _ _ _ _].
  assert (Hdm : (vm_page_size | max_capacity h)) by (unfold max_capacity; rewrite Cr; by apply Z.divide_sub_r).
  unfold capacity, max_capacity in *.
  destruct (page_segments h (VirtualSpace.committed_size (memory h))) as [Em Bm]; [done|lia|done|done|].
  destruct (page_segments h (VirtualSpace.reserved_size (memory h))) as [Ex Bx]; [done|lia|done|done|].
  rewrite <- En in Em, Bm. rewrite <- Er in Ex, Bx.
  assert (H32 : 32 <= 2 ^ log2_segment_size h) by (change 32 with (2 ^ 5); apply Z.pow_le_mono_r; lia).
  assert (Hn : number_of_committed_segments h <= number_of_reserved_segments h).
  { apply (Z.mul_le_mono_pos_r _ _ (2 ^ log2_segment_size h)); lia. }
  destruct (align_to_page_size_eq (number_of_reserved_segments h)) as [Da Ba]; [lia|].
  assert (vm_page_size <= 2 ^ 39) by (rewrite vm_page_size_eq; apply Z.pow_le_mono_r; lia).
  pose proof (align_to_page_size_mono (number_of_committed_segments h) (number_of_reserved_segments h)
    ltac:(lia) ltac:(lia)).
  destruct (align_to_page_size_eq (number_of_committed_segments h)) as [Dc Bc]; [lia|].
  destruct (space_of_request fuel (align_to_page_size (number_of_reserved_segments h)) 0 false false
    (align_to_page_size (number_of_committed_segments h)) s) as (rs & s1 & g & ok & s2 & F1 & F2 & Hk & Hok);
    [nia|done|by left|done|lia|].
  unfold reserve_segmap, ReservedSpace_size. rewrite (sbind_Some _ _ _ _ _ F1), (sbind_Some _ _ _ _ _ F2).
  destruct ok; cbn [negb]; [|eexists _, false, s2; by split].
  destruct Hok as (Ig & _ & Hr & Hc & _). specialize (Hr eq_refl).
  assert (Im2 : vs_inv s2 (memory h)).
  { apply (vs_inv_mono s); [done|]. intros p Hp. by apply Hk, Hres. }
  destruct (clear_spec s2 (set_spaces h (memory h) (number_of_committed_segments h) g
    (fresh <$> seqZ 0 (VirtualSpace.committed_size g)))) as (h' & F3 & HS & Hm & Hs); try done.
  { split; try done. cbn. rewrite length_fmap, length_seqZ. lia. }
  unfold lift, sbind. rewrite F3. by exists h', true, s2.
Qed.

(** Reserving the code heap never faults and never runs out of fuel.  It fails only
    when the system refuses a reservation or a commit; otherwise the result is a heap without
    blocks, of at least the requested sizes, whose memory and segment map fit together. *)
Lemma reserve_ok fuel R C k s : undisturbed -> 5 <= k <= page_bits -> 0 <= C <= R -> 0 < R <= 2 ^ 60 ->
  exists h ok s', reserve fresh (Datatypes.S fuel) R C (2 ^ k) s = Some (h, ok, s') /\
    if (ok : bool) then heap_sys s' h [] /\ C <= capacity h /\ R <= max_capacity h /\ segment_size h = 2 ^ k
    else system_refuses.
Proof using L.
  intros Hun Hk HC HR. unfold reserve. pose proof page_bits_range.
  unfold lift at 1. rewrite (exact_log2_pow2 k ltac:(lia)). unfold sbind at 1. cbn [mbind option_bind].
  destruct (code_page_size C R) as (j & Ej & Hj). unfold lift at 1. rewrite Ej.
  unfold sbind at 1. cbn [mbind option_bind].
  destruct granularity_eq as (gr & Hg & ->). rewrite MAX2_pow2 by lia.
  destruct (aligned_sizes C R j gr HC HR Hj Hg) as (Dr & Dc & Br & Bc).
  set (r := u64 (align_size_up R (2 ^ Z.max j gr))) in *. set (c := u64 (align_size_up C (2 ^ j))) in *.
  set (al := if 2 ^ j =? vm_page_size then 0 else 2 ^ Z.max j gr).
  destruct (space_of_request fuel r al (0 <? al) true c s) as (rs & s1 & m & ok & s2 & F1 & F2 & Hkeep & Hok);
    [lia|done| |done|lia|].
  { unfold al. destruct (2 ^ j =? vm_page_size); [by left|right]. exists (Z.max j gr). split; [lia|done]. }
  unfold ReservedCodeSpace, ReservedSpace_exec. rewrite (sbind_Some _ _ _ _ _ F1), (sbind_Some _ _ _ _ _ F2).
  destruct ok; cbn [negb]; [|eexists _, false, s2; by split].
  destruct Hok as (Im & Hr & _ & Hcs & Hres).
  set (h := heap_over m (2 ^ k) k _ _).
  destruct (reserve_segmap_spec fuel h s2) as (h' & ok & s3 & F3 & Hok); try done.
  { unfold capacity. cbn. by rewrite Hcs. }
  { unfold max_capacity. cbn. lia. }
  exists h', ok, s3. split; [done|]. destruct ok; [|done]. destruct Hok as (HS & Em & Es).
  split; [done|]. unfold capacity, max_capacity. rewrite Em, Es. cbn. split_and!; [lia|lia|done].
Qed.
End Grow.

(* ------------------------------------------------------------------ *)
(** ** The map keeps its length *)

Abbreviation map_length h := (Datatypes.length (segmap_bytes h)).

Lemma mark_used_length h b e h' : mark_segmap_as_used h b e = Some h' -> map_length h' = map_length h.
Proof.
  unfold mark_segmap_as_used. intros E. binds. cbn.
  match goal with H : each_range _ _ _ _ = _ |- _ =>
    apply (each_range_keeps (fun x => Datatypes.length x.1 = map_length h)) in H; [done| |done] end.
  intros p [s i] [s' i'] E Hs. binds. cbn in *. by erewrite arr_set_length.
Qed.

Lemma merge_right_length h a h' : merge_right h a = Some h' -> map_length h' = map_length h.
Proof. unfold merge_right. intros E. binds; [|done]. by apply mark_used_length in E. Qed.

Lemma deallocate_length h p h' : deallocate h p = Some h' -> map_length h' = map_length h.
Proof.
  unfold deallocate, add_to_freelist, insert_after, set_free. intros E. binds;
    repeat match goal with H : merge_right _ _ = Some _ |- _ => apply merge_right_length in H end;
    cbn in *; congruence.
Qed.

Lemma search_freelist_length C h len b h' :
  search_freelist C h len = Some (b, h') -> map_length h' = map_length h.
Proof.
  unfold search_freelist, set_used. generalize (list_fuel h). intros fuel E. binds.
  all: first [done | match goal with
    | |- context [if ?c then _ else _] => by destruct c
    | H : mark_segmap_as_used _ _ _ = Some _ |- _ => by apply mark_used_length in H end].
Qed.

Lemma allocate_length C h sz p h' : allocate C h sz = Some (p, h') -> map_length h' = map_length h.
Proof.
  unfold allocate, HeapBlock_initialize, set_used. intros E. binds;
    repeat match goal with
    | H : mark_segmap_as_used _ _ _ = Some _ |- _ => apply mark_used_length in H
    | H : search_freelist _ _ _ = Some _ |- _ => apply search_freelist_length in H
    end; cbn in *; congruence.
Qed.

(* ------------------------------------------------------------------ *)
(** ** Concrete runs *)

(** A heap of 1024 of 2048 bytes, whose segment map is a page of 32. *)
Abbreviation toy_run refuse :=
  (reserve (H := toy_os) (fun _ => 7) 1 2048 1024 (2 ^ 5) (toy_init 32 refuse)).

Lemma toy_run_capacity : (fun r => (r.1.2, capacity r.1.1)) <$> toy_run [] = Some (true, 1024).
Proof. vm_compute. reflexivity. Qed.

Lemma toy_run_ok : exists h s, toy_run [] = Some (h, true, s) /\ capacity h = 1024 /\
  heap_sys (L := toy_os_laws) s h [].
Proof.
  destruct (reserve_ok (H := toy_os) (L := toy_os_laws) (fun _ => 7) 0 2048 1024 5 (toy_init 32 []))
    as (h & ok & s & E & Hok); [exact toy_undisturbed|cbn; lia|lia|lia|].
  pose proof toy_run_capacity as Hrun.
  rewrite E in Hrun. cbn [fmap option_fmap option_map fst snd] in Hrun. injection Hrun as -> Hc.
  exists h, s. split; [exact E|]. split; [exact Hc|exact (proj1 Hok)].
Qed.

(** An expansion by 10 bytes is one by a page. *)
Lemma code_heap_expand_spec_witness : exists h s, capacity h = 1024 /\
  exists h' ok s', CodeHeap_expand_by (H := toy_os) (fun _ => 7) h 10 s = Some (h', ok, s') /\
    (ok = true -> heap_sys (L := toy_os_laws) s' h' [] /\ (32 | capacity h') /\
       capacity h + 10 <= capacity h' < capacity h + 10 + 32) /\
    (ok = false -> heap_sys (L := toy_os_laws) s' h' [] /\ capacity h' = capacity h \/
       capacity h < capacity h' /\
       Z.of_nat (Datatypes.length (segmap_bytes h')) < number_of_committed_segments h') /\
    (max_capacity h < capacity h + 10 -> ok = false /\ heap_sys (L := toy_os_laws) s' h' []) /\
    (capacity h + 10 <= max_capacity h -> willing (H := toy_os) -> ok = true).
Proof.
  destruct toy_run_ok as (h & s & _ & Hc & HS). exists h, s. split; [exact Hc|].
  apply (code_heap_expand_spec (H := toy_os) (L := toy_os_laws) (fun _ => 7) s h [] 10 HS). lia.
Defined.

(** When the system refuses the second page of the segment map, the expansion fails, but the
    heap takes the new segment for committed: the allocation that reaches it writes behind the
    map. *)
Definition behind_run : option (bool * Z * Z * bool) :=
  r ← toy_run [4256]; let '(h, _, s) := r in
  r ← CodeHeap_expand_by (H := toy_os) (fun _ => 7) h 32 s; let '(h, ok, _) := r in
  Some (ok, number_of_committed_segments h, Z.of_nat (Datatypes.length (segmap_bytes h)),
        match allocate 1 h 1040 with Some _ => true | None => false end).

Lemma map_left_behind : behind_run = Some (false, 33, 32, false).
Proof. vm_compute. reflexivity. Qed.
