(* ===== verification/CodeHeapSafe.v ===== *)
(** * CodeHeapSafe: every state the heap of compiled code can reach

    The step relation [ch_step] has the operations that change the heap, called as the
    assertions of the code ask, what the owner of a block may write into it, and whatever the
    rest of the process does to the system.  The theorem says what a client can rely on in
    every state reached from [reserve], in terms of the operations alone, up to an expansion that fails half way
    ([half_grown]): after it the segment map is too short for the heap. *)

From stdpp Require Import gmap relations.
From S2P Require Import Prelude GlobalDefs OS ReservedSpace VirtualSpace CodeHeap CodeHeapSpec CodeHeapWalk CodeHeapGrow.

(* ------------------------------------------------------------------ *)
(** ** Used spaces *)

(** [p] is a space that was handed out and not given back. *)
Definition in_use (h : CodeHeap) (p : Z) : Prop := find_start h p = Some p /\ p <> NULL.

Lemma in_use_iff h bs p : heap_rel h bs ->
  in_use h p <-> exists i l, (i, l) ∈ used_blocks bs /\ p = allocated_space (loc h i).
Proof.
  intros R. pose proof (hr_geom _ _ R) as G. pose proof (seg_pos h G). unfold in_use.
  rewrite (find_start_eq h bs p R). split.
  - intros [[= E] Hn]. destruct (start_of_inv h bs p R) as (i & l & Hin & _ & Es); [congruence|].
    exists i, l. split; [done|]. congruence.
  - intros (i & l & Hin & ->).
    destruct (with_bit_range _ _ _ _ _ (heap_rel_lengths _ _ R) Hin) as (? & ? & _).
    split; [|apply space_not_null; [done|lia]]. f_equal. apply (start_of_used h bs i l _ R Hin).
    unfold allocated_space, header_size, loc. nia.
Qed.

Lemma with_bit_nodup bit i bs : lengths_ok bs -> NoDup (with_bit bit i bs).*1.
Proof.
  revert i. induction bs as [|[l u] bs IH]; intros i; cbn; [constructor|]. intros [Hl Hbs].
  destruct (eqb u bit); cbn; [|by apply IH]. constructor; [|by apply IH].
  intros Hin. apply list_elem_of_fmap in Hin as ([j m] & Ej & Hin). cbn in Ej. subst j.
  apply with_bit_range in Hin; [lia|done].
Qed.

(** A block that joins the used ones was not among them. *)
Lemma joins_used h h' bs bs' i l : heap_rel h bs -> heap_rel h' bs' -> static h' = static h ->
  used_blocks bs' ≡ₚ (i, l) :: used_blocks bs ->
  forall q, in_use h' q <-> q = allocated_space (loc h i) \/ in_use h q.
Proof.
  intros R R' Hs Hp q. rewrite (in_use_iff h bs q R), (in_use_iff h' bs' q R'). split.
  - intros (j & m & Hin & ->). rewrite Hp in Hin. rewrite (static_loc h h' j Hs).
    apply elem_of_cons in Hin as [[= -> ->]|Hin]; [by left|right]. by exists j, m.
  - intros [->|(j & m & Hin & ->)].
    + exists i, l. rewrite (static_loc h h' i Hs), Hp. split; [apply list_elem_of_here|done].
    + exists j, m. rewrite (static_loc h h' j Hs), Hp. split; [by apply list_elem_of_further|done].
Qed.

Lemma joins_new h bs bs' i l : heap_rel h bs -> lengths_ok bs' ->
  used_blocks bs' ≡ₚ (i, l) :: used_blocks bs -> ~ in_use h (allocated_space (loc h i)).
Proof.
  intros R Hl Hp (j & m & Hin & Ej)%(in_use_iff h bs _ R).
  assert (i = j) as <-.
  { unfold allocated_space in Ej. apply (loc_inj h (hr_geom _ _ R)). lia. }
  pose proof (with_bit_nodup true 0 bs' Hl) as Hnd. rewrite Hp in Hnd. cbn in Hnd.
  apply list.NoDup_cons in Hnd as [Hn _]. apply Hn, list_elem_of_fmap. by exists (i, m).
Qed.

(* ------------------------------------------------------------------ *)
(** ** What the owner of a block may write *)

(** Other contents of the memory that headers and links are read from. *)
Definition set_stores (h : CodeHeap) (hd : gmap Z Header) (lk : gmap Z Z) : CodeHeap :=
  {| memory := memory h; segmap := segmap h; segmap_bytes := segmap_bytes h;
     number_of_committed_segments := number_of_committed_segments h;
     number_of_reserved_segments := number_of_reserved_segments h;
     segment_size := segment_size h; log2_segment_size := log2_segment_size h;
     next_segment := next_segment h; freelist := freelist h;
     free_segments := free_segments h; headers := hd; links := lk |}.

(** A write into the space [p] of a block of [l] segments: what it can change are the headers
    and links that would be read from addresses inside the block, behind its own header. *)
Definition written_inside (h : CodeHeap) (p l : Z) (hd : gmap Z Header) (lk : gmap Z Z) : Prop :=
  let b := p - header_size in
  (forall q, ~ (b < q < b + l * segment_size h) -> hd !! q = headers h !! q) /\
  (forall q, ~ (b <= q < b + l * segment_size h) -> lk !! q = links h !! q).

Lemma write_used h b1 l b2 hd lk : heap_rel h (b1 ++ (l, true) :: b2) ->
  written_inside h (allocated_space (loc h (total b1))) l hd lk ->
  heap_rel (set_stores h hd lk) (b1 ++ (l, true) :: b2).
Proof.
  intros R [Hhd Hlk]. pose proof (hr_geom _ _ R) as G. unfold allocated_space in Hhd, Hlk.
  replace (loc h (total b1) + header_size - header_size) with (loc h (total b1)) in * by lia.
  rewrite (ge_size h G), loc_add in Hhd, Hlk. pose proof (block_bounds _ _ _ _ _ R) as Hb.
  pose proof (heap_rel_lengths _ _ R) as P. rewrite lengths_ok_app in P. cbn in P.
  pose proof (hr_list _ _ R) as HL. pose proof (hr_blocks _ _ R) as HB.
  assert (Hout : forall j, j < total b1 \/ total b1 + l <= j ->
    ~ (loc h (total b1) <= loc h j < loc h (total b1 + l))).
  { intros j Hj. pose proof (loc_lt h G j (total b1)). pose proof (loc_lt h G j (total b1 + l)). lia. }
  apply (heap_rel_update h _ b1 [(l, true)] [(l, true)] b2 R); try done.
  - intros j Hj. split; [|done]. cbn in Hj |- *. apply Hhd. intros Hx. apply (Hout j); lia.
  - rewrite blocks_at_app in HB. destruct HB as (_ & H1 & H2 & H3 & _). rewrite Z.add_0_l in *.
    cbn. split_and!; [done| |done|done]. rewrite <- H2. apply Hhd. lia.
  - cbn. lia.
  - refine (lseg_frame _ _ _ _ _ _ HL). intros x Hx. apply Hlk.
    rewrite free_list_app in Hx. apply elem_of_app in Hx as [Hx|Hx].
    + apply free_list_in in Hx as (j & ? & ->); [|tauto]. apply Hout. lia.
    + cbn in Hx. apply free_list_in in Hx as (j & ? & ->); [|tauto]. apply Hout. lia.
Qed.

(* ------------------------------------------------------------------ *)
(** ** Steps *)

Section Safe.
Context `{L : OS_laws} (fresh : Z -> Z) (C : Z).

Inductive ch_step : os_state * CodeHeap -> os_state * CodeHeap -> Prop :=
  | ch_allocate s h sz p h' :
      0 <= sz <= 2 ^ 61 -> allocate C h sz = Some (p, h') -> ch_step (s, h) (s, h')
  | ch_deallocate s h p h' :
      in_use h p -> deallocate h p = Some h' -> ch_step (s, h) (s, h')
  | ch_expand s h sz h' ok s' :
      0 <= sz <= 2 ^ 61 -> CodeHeap_expand_by fresh h sz s = Some (h', ok, s') -> ch_step (s, h) (s', h')
  | ch_write s h p l hd lk :
      in_use h p -> HeapBlock_length h (p - header_size) = Some l ->
      written_inside h p l hd lk -> ch_step (s, h) (s, set_stores h hd lk)
  | ch_elsewhere s s' h :
      (forall p, low_boundary (memory h) <= p < high_boundary (memory h) \/
         low_boundary (segmap h) <= p < high_boundary (segmap h) -> committed s' p = committed s p) ->
      ch_step (s, h) (s', h).

(** An expansion that failed half way: the memory grew and the segment map did not. *)
Definition half_grown (x y : os_state * CodeHeap) : Prop :=
  exists sz, 0 <= sz <= 2 ^ 61 /\ CodeHeap_expand_by fresh x.2 sz x.1 = Some (y.2, false, y.1) /\ capacity x.2 < capacity y.2 /\
    Z.of_nat (Datatypes.length (segmap_bytes y.2)) < number_of_committed_segments y.2.

(** A run in which one did. *)
Definition half_grown_between (x y : os_state * CodeHeap) : Prop :=
  exists a b, rtc ch_step x a /\ half_grown a b /\ rtc ch_step b y.

(** Other blocks in the same spaces. *)
Lemma heap_sys_blocks s h h' bs bs' : heap_sys s h bs -> static h' = static h ->
  map_length h' = map_length h -> heap_ok h' bs' -> heap_sys s h' bs'.
Proof using Type.
  intros [] Hs Hl HB. unfold static in Hs. injection Hs as E1 E2 E3 E4 E5 E6.
  unfold capacity, max_capacity, number_of_segments in *.
  split; unfold capacity, max_capacity, number_of_segments; rewrite ?E1, ?E2, ?E3, ?E4, ?E5, ?E6, ?Hl; done.
Qed.

Lemma static_max h h' : static h' = static h -> max_capacity h' = max_capacity h.
Proof using Type. unfold static, max_capacity. congruence. Qed.

Lemma max_capacity_eq s h bs : heap_sys s h bs ->
  max_capacity h = number_of_reserved_segments h * 2 ^ log2_segment_size h.
Proof using L.
  intros HS. pose proof (heap_sys_spaces_ok s h bs HS) as S. destruct HS as [[R _] Im _ _ _ Hr _ _ _].
  destruct (heap_capacity s h Im (hr_geom _ _ R)) as (_ & ? & ? & Hd). destruct (so_log s h S) as [Hl Es].
  destruct (page_segments h (max_capacity h)) as [E _]; [done|lia|done|done|]. by rewrite Hr.
Qed.

Lemma ch_step_ok s h s' h' bs : 1 <= C < 2 ^ 57 -> ch_step (s, h) (s', h') -> heap_sys s h bs ->
  (exists bs', heap_sys s' h' bs' /\ max_capacity h' = max_capacity h) \/ half_grown (s, h) (s', h').
Proof using L.
  intros HC Hstep HS. pose proof HS as [HB _ _ _ _ _ _ _ _]. pose proof HB as [R Hna].
  inversion Hstep as [? ? sz p ? Hsz E|? ? p ? Hu E|? ? sz ? ok ? Hsz E|? ? p l hd lk Hu El Hw|? ? ? He]; subst.
  - left. pose proof (allocate_length _ _ _ _ _ E) as Hlen.
    destruct (allocate_ok C h bs sz HC HB Hsz) as (p1 & h1 & E1 & Hs & [(-> & -> & _)|(bs' & i & l & _ & _ & HB' & _)]);
      rewrite E in E1; injection E1 as -> ->; [by exists bs|]. exists bs'.
    split; [by apply (heap_sys_blocks _ h _ bs)|by apply static_max].
  - left. pose proof (deallocate_length _ _ _ E) as Hlen.
    apply (in_use_iff h bs p R) in Hu as (i & l & (b1 & b2 & -> & ->)%with_bit_split & ->). rewrite Z.add_0_l in *.
    destruct (deallocate_ok h b1 l b2 HB) as (h1 & bs' & E1 & Hs & HB' & _). rewrite E in E1.
    injection E1 as ->. exists bs'. split; [by eapply heap_sys_blocks|by apply static_max].
  - destruct (expand_heap_ok fresh s h bs sz HS Hsz) as (h1 & ok1 & s1 & E1 & Hcl & Hres & _ & _).
    rewrite E in E1. injection E1 as -> -> ->.
    assert (heap_sys s1 h1 bs \/ half_grown (s, h) (s1, h1)) as [HS'|]; [|left; exists bs|by right].
    { destruct ok1; [left; by destruct Hres|]. destruct Hres as [[? _]|[? ?]]; [by left|right; by exists sz]. }
    split; [done|]. rewrite (max_capacity_eq s1 h1 bs HS'), (max_capacity_eq s h bs HS). unfold client in Hcl. congruence.
  - left. apply (in_use_iff h bs p R) in Hu as (i & m & (b1 & b2 & -> & ->)%with_bit_split & ->). rewrite Z.add_0_l in *.
    unfold HeapBlock_length, allocated_space in El.
    replace (loc h (total b1) + header_size - header_size) with (loc h (total b1)) in El by lia.
    rewrite (header_at _ _ _ _ _ R) in El. cbn in El. simplify_eq.
    eexists. split; [|done]. apply (heap_sys_blocks _ h _ _ _ HS); [done|done|]. split; [|done]. by apply write_used.
  - left. exists bs. split; [|done]. destruct HS. split; try done.
    + apply (vs_inv_mono s); [done|]. intros q Hq. rewrite He; [done|by left].
    + apply (vs_inv_mono s); [done|]. intros q Hq. rewrite He; [done|by right].
Qed.

Lemma ch_steps_ok s h s' h' bs : 1 <= C < 2 ^ 57 -> rtc ch_step (s, h) (s', h') -> heap_sys s h bs ->
  (exists bs', heap_sys s' h' bs' /\ max_capacity h' = max_capacity h) \/ half_grown_between (s, h) (s', h').
Proof using L.
  intros HC Hsteps. remember (s, h) as x eqn:Ex. remember (s', h') as y eqn:Ey. revert s h bs Ex.
  induction Hsteps as [|? [s1 h1] ? Hstep Hrest IH]; intros s h bs Ex HS; simplify_eq; [left; by exists bs|].
  destruct (ch_step_ok _ _ _ _ bs HC Hstep HS) as [(bs1 & HS1 & E1)|Hhalf].
  - destruct (IH eq_refl s1 h1 bs1 eq_refl HS1) as [(bs' & HS' & E2)|(a & b & Ha & Hb & Hc)].
    + left. exists bs'. split; [done|congruence].
    + right. exists a, b. split_and!; [by eapply rtc_l|done|done].
  - right. by eexists _, _.
Qed.

(** ** What a client can rely on *)

Lemma allocate_in_use h bs sz : 1 <= C < 2 ^ 57 -> heap_ok h bs -> 0 <= sz <= 2 ^ 61 ->
  exists p h', allocate C h sz = Some (p, h') /\
    (p = NULL /\ h' = h \/ ~ in_use h p /\ forall q, in_use h' q <-> q = p \/ in_use h q).
Proof using Type.
  intros HC HB Hsz. pose proof HB as [R _].
  destruct (allocate_ok C h bs sz HC HB Hsz) as (p & h' & E & Hs & [(-> & -> & _)|(bs' & i & l & -> & _ & [R' _] & Ht)]).
  { exists NULL, h. split; [done|]. by left. }
  eexists _, h'. split; [done|]. right. pose proof (taken_used _ _ _ _ _ _ Ht) as Hp. split.
  - by apply (joins_new h bs bs' i l R (heap_rel_lengths _ _ R')).
  - by apply (joins_used h h' bs bs' i l).
Qed.

Lemma deallocate_in_use h bs p : heap_ok h bs -> in_use h p ->
  exists h', deallocate h p = Some h' /\ ~ in_use h' p /\ forall q, in_use h q <-> q = p \/ in_use h' q.
Proof using Type.
  intros HB Hu. pose proof HB as [R _].
  apply (in_use_iff h bs p R) in Hu as (i & l & (b1 & b2 & -> & ->)%with_bit_split & ->). rewrite Z.add_0_l in *.
  destruct (deallocate_ok h b1 l b2 HB) as (h' & bs' & E & Hs & [R' _] & Hrel).
  exists h'. split; [done|]. pose proof (released_permutes _ _ _ _ Hrel) as Hp.
  rewrite <- (static_loc h h' _ Hs). split.
  - by apply (joins_new h' bs' _ _ _ R' (heap_rel_lengths _ _ R)) in Hp.
  - intros q. by rewrite (joins_used h' h bs' _ _ _ R' R (eq_sym Hs) Hp q).
Qed.

(** What a client can rely on in a state. *)
Record safe_heap (s : os_state) (h : CodeHeap) (R : Z) : Prop := {
  safe_committed p : CodeHeap_contains h p = true -> committed s p = true;
  safe_find p : is_Some (find_start h p);
  safe_expand sz : 0 <= sz <= 2 ^ 61 -> is_Some (CodeHeap_expand_by fresh h sz s);
  safe_allocate sz : 0 <= sz <= 2 ^ 61 -> exists p h', allocate C h sz = Some (p, h') /\
    (p = NULL /\ h' = h \/ ~ in_use h p /\ forall q, in_use h' q <-> q = p \/ in_use h q);
  safe_deallocate p : in_use h p -> exists h', deallocate h p = Some h' /\ ~ in_use h' p /\
    forall q, in_use h q <-> q = p \/ in_use h' q;
  safe_reservation : R <= max_capacity h
}.

(** C10: The code heap is safe to use.  In every state that a successfully reserved heap
    reaches, whatever was allocated, freed, expanded and written into the blocks, and however the
    system answered, unless an expansion on the way failed half way, because the system committed the memory and refused the
    segment map: every address of the heap is committed; every address can be looked up;
    no allocation or expansion faults, and an allocation that answers a space answers one that was
    not in use, and changes nothing about the others; a space in use can be freed, and the
    others stay in use; and the reservation stays as large as it was asked for. *)
Theorem code_heap_safe fuel R Cm k s h s1 s2 h2 :
  undisturbed -> 5 <= k <= page_bits -> 0 <= Cm <= R -> 0 < R <= 2 ^ 60 -> 1 <= C < 2 ^ 57 ->
  reserve fresh (Datatypes.S fuel) R Cm (2 ^ k) s = Some (h, true, s1) -> rtc ch_step (s1, h) (s2, h2) ->
  safe_heap s2 h2 R \/ half_grown_between (s1, h) (s2, h2).
Proof using L.
  intros Hun Hk HCm HR HC E Hsteps.
  destruct (reserve_ok fresh fuel R Cm k s Hun Hk HCm HR) as (h0 & ok & s0 & E0 & Hok).
  rewrite E in E0. injection E0 as <- <- <-. destruct Hok as (HS & _ & Hmax & _).
  destruct (ch_steps_ok _ _ _ _ _ HC Hsteps HS) as [(bs & HS2 & Em)|]; [left|by right].
  pose proof HS2 as [HB Im _ _ _ _ _ _ _]. split.
  - intros p Hp. apply (vs_committed s2 _ p Im). unfold CodeHeap_contains, begin_, end_ in Hp. zreflect. lia.
  - intros p. rewrite (find_start_eq h2 bs p (proj1 HB)). by eexists.
  - intros sz Hsz. destruct (expand_heap_ok fresh s2 h2 bs sz HS2 Hsz) as (? & ? & ? & -> & _). by eexists.
  - intros sz Hsz. by apply (allocate_in_use h2 bs).
  - intros p Hp. by apply (deallocate_in_use h2 bs).
  - lia.
Qed.
End Safe.

(* ------------------------------------------------------------------ *)
(** ** Concrete runs *)

(** A heap of eight segments of 32 bytes, two of them committed: a block is allocated, the
    heap expanded, the block written to, another one allocated, and the first one freed. *)
Lemma code_heap_safe_witness : exists x y, in_use y.2 (96 + 16) /\ capacity y.2 = 128 /\
  (safe_heap (H := toy_os) (fun _ => 7) 1 y.1 y.2 256 \/ half_grown_between (H := toy_os) (fun _ => 7) 1 x y).
Proof.
  eexists (_, _), (_, _). split; cycle 1; [split; cycle 1|].
  - eapply (code_heap_safe (H := toy_os) (L := toy_os_laws) (fun _ => 7) 1 0 256 64 5 (toy_init 32 []));
      [exact toy_undisturbed|cbn; lia|lia|lia|lia|vm_compute; reflexivity|].
    eapply rtc_l; [eapply (ch_allocate _ _ _ _ 20); [lia|vm_compute; reflexivity]|].
    eapply rtc_l; [eapply (ch_expand _ _ _ _ 64); [lia|vm_compute; reflexivity]|].
    eapply rtc_l; [eapply (ch_write _ _ _ _ (32 + 16) 2 _ (<[32 := 5]> ∅));
      [split; [vm_compute; reflexivity|discriminate]|vm_compute; reflexivity|]|].
    { split; cbn [headers links]; [done|]. intros q Hq. apply lookup_insert_ne.
      intros <-. apply Hq. vm_compute. split; [discriminate|reflexivity]. }
    eapply rtc_l; [eapply (ch_allocate _ _ _ _ 20); [lia|vm_compute; reflexivity]|].
    eapply rtc_l; [eapply (ch_deallocate _ _ _ _ (32 + 16));
      [split; [vm_compute; reflexivity|discriminate]|vm_compute; reflexivity]|].
    apply rtc_refl.
  - vm_compute. reflexivity.
  - split; [vm_compute; reflexivity|discriminate].
Defined.
