(* ===== verification/TaskQueue.v ===== *)
(** * TaskQueue: the work-stealing queues, utilities/taskqueue.hpp and taskqueue.cpp

    A queue is an array of [total_size] slots used as a ring, a bottom index written by the
    owning thread only, and an age: the index of the oldest task and a tag that tells
    apart two visits of the same index.  The owner pushes and pops at the bottom, other threads
    steal at the top by an exchange of the age.

    The first half has the operations as the code composes them, run by one thread.  The
    second half cuts the same operations at every access of the shared state: [owner_step] and
    [thief_step] make one access each, and [tq_step] interleaves one owner and any number of
    thieves.  Accesses are sequentially consistent.  [TaskQueueSpec] has the theorems. *)

From stdpp Require Import list.
From S2P Require Import Prelude GlobalDefs.

(* ------------------------------------------------------------------ *)
(** ** Indices and ages *)

Definition total_size : Z := Z.shiftl 1 17.
Definition MOD_N_MASK : Z := total_size - 1.
Definition max_elems : Z := total_size - 2.

Definition increment_index (ind : Z) : Z := Z.land (u32 (ind + 1)) MOD_N_MASK.
Definition decrement_index (ind : Z) : Z := Z.land (u32 (ind - 1)) MOD_N_MASK.
Definition dirty_size (bot top : Z) : Z := Z.land (u32 (bot - top)) MOD_N_MASK.
Definition size (bot top : Z) : Z :=
  let sz := dirty_size bot top in if sz =? total_size - 1 then 0 else sz.

(** The two [idx_t] halves of a word. *)
Record Age := { top : Z; tag : Z }.
Definition Age_zero : Age := {| top := 0; tag := 0 |}.
Definition Age_data (a : Age) : Z := Z.lor (top a) (Z.shiftl (tag a) 32).
Definition Age_eqb (a b : Age) : bool := Age_data a =? Age_data b.
Definition Age_increment (a : Age) : Age :=
  let t := increment_index (top a) in
  {| top := t; tag := if t =? 0 then u32 (tag a + 1) else tag a |}.

(* ------------------------------------------------------------------ *)
(** ** Tagged tasks *)

(** A [StarTask] is an aligned address; its low bit says which of the two kinds of reference is there. *)
Definition COMPRESSED_OOP_MASK : Z := 1.
Definition StarTask_narrow (p : Z) : Z := Z.lor p COMPRESSED_OOP_MASK.
Definition StarTask_oop (p : Z) : Z := p.
Definition StarTask_none : Z := 0.
Definition as_oop (holder : Z) : Z := holder.
Definition as_narrow (holder : Z) : Z := Z.land holder (unot 64 COMPRESSED_OOP_MASK).
Definition is_narrow (holder : Z) : bool := negb (Z.land holder COMPRESSED_OOP_MASK =? 0).

(* ------------------------------------------------------------------ *)
(** ** One queue, one thread *)

Section Queue.
Context {E : Type}.

Record TaskQueue := { bottom : Z; age : Age; elems : list E }.

(** [initialize] of a constructed queue; [garbage] is what the allocated array holds. *)
Definition new_queue (garbage : list E) : TaskQueue :=
  {| bottom := 0; age := Age_zero; elems := garbage |}.
Definition set_empty (q : TaskQueue) : TaskQueue :=
  {| bottom := 0; age := Age_zero; elems := elems q |}.

Definition set_bottom (q : TaskQueue) (b : Z) : TaskQueue :=
  {| bottom := b; age := age q; elems := elems q |}.
Definition set_age (q : TaskQueue) (a : Age) : TaskQueue :=
  {| bottom := bottom q; age := a; elems := elems q |}.
Definition set_elem (q : TaskQueue) (i : Z) (t : E) : option TaskQueue :=
  es ← arr_set (elems q) i t; Some {| bottom := bottom q; age := age q; elems := es |}.

(** The atomic exchange: the age found, and the queue after it. *)
Definition Age_cmpxchg (q : TaskQueue) (new_age old_age : Age) : Age * TaskQueue :=
  (age q, if Age_eqb (age q) old_age then set_age q new_age else q).

Definition peek (q : TaskQueue) : bool := negb (bottom q =? top (age q)).
Definition queue_size (q : TaskQueue) : Z := size (bottom q) (top (age q)).
Definition queue_dirty_size (q : TaskQueue) : Z := dirty_size (bottom q) (top (age q)).

Definition push_slow (q : TaskQueue) (t : E) (dirty_n_elems : Z) : option (bool * TaskQueue) :=
  if dirty_n_elems =? total_size - 1 then
    let localBot := bottom q in
    q ← set_elem q localBot t;
    Some (true, set_bottom q (increment_index localBot))
  else Some (false, q).

Definition push (q : TaskQueue) (t : E) : option (bool * TaskQueue) :=
  let localBot := bottom q in
  let tp := top (age q) in
  let dirty_n_elems := dirty_size localBot tp in
  if dirty_n_elems <? max_elems then
    q ← set_elem q localBot t;
    Some (true, set_bottom q (increment_index localBot))
  else push_slow q t dirty_n_elems.

Definition pop_local_slow (q : TaskQueue) (localBot : Z) (oldAge : Age) : bool * TaskQueue :=
  let newAge := {| top := localBot; tag := u32 (tag oldAge + 1) |} in
  let '(won, q) :=
    (if localBot =? top oldAge then
       let '(tempAge, q) := Age_cmpxchg q newAge oldAge in (Age_eqb tempAge oldAge, q)
     else (false, q)) in
  if won : bool then (true, q) else (false, set_age q newAge).

(** The task that was claimed, if one was. *)
Definition pop_local (q : TaskQueue) : option (option E * TaskQueue) :=
  let localBot := bottom q in
  let dirty_n_elems := dirty_size localBot (top (age q)) in
  if dirty_n_elems =? 0 then Some (None, q)
  else
    let localBot := decrement_index localBot in
    let q := set_bottom q localBot in
    t ← arr_get (elems q) localBot;
    let tp := top (age q) in
    if 0 <? size localBot tp then Some (Some t, q)
    else
      let '(ok, q) := pop_local_slow q localBot (age q) in
      Some (if (ok : bool) then Some t else None, q).

Definition pop_global (q : TaskQueue) : option (option E * TaskQueue) :=
  let oldAge := age q in
  let localBot := bottom q in
  let n_elems := size localBot (top oldAge) in
  if n_elems =? 0 then Some (None, q)
  else
    t ← arr_get (elems q) (top oldAge);
    let newAge := Age_increment oldAge in
    let '(resAge, q) := Age_cmpxchg q newAge oldAge in
    Some (if Age_eqb resAge oldAge then Some t else None, q).

(** The tasks that [oops_do] visits, the last one pushed first. *)
Definition oops_do (q : TaskQueue) : option (list E) :=
  r ← each_range 0 (queue_size q)
        (fun _ '(index, l) =>
           let index := decrement_index index in
           t ← arr_get (elems q) index; Some (index, l ++ [t])) (bottom q, []);
  Some r.2.

(* ------------------------------------------------------------------ *)
(** ** One access at a time *)

(** Where the owner is: the locals it has, before its next access. *)
Inductive owner_pc :=
  | OwnerIdle
  | PushReadBottom (t : E)
  | PushReadTop (t : E) (localBot : Z)
  | PushSlowReadBottom (t : E)
  | PushStoreElem (t : E) (localBot : Z)
  | PushStoreBottom (t : E) (localBot : Z)
  | PopReadBottom
  | PopReadTop (localBot : Z)
  | PopStoreBottom (localBot : Z)
  | PopReadElem (localBot : Z)
  | PopReadTopAgain (localBot : Z) (t : E)
  | PopReadAge (localBot : Z) (t : E)
  | PopExchange (localBot : Z) (t : E) (oldAge : Age)
  | PopSetAge (newAge : Age).

Inductive thief_pc :=
  | ThiefIdle
  | StealReadAge
  | StealReadBottom (oldAge : Age)
  | StealReadElem (oldAge : Age)
  | StealExchange (oldAge : Age) (t : E).

(** What an operation returns. *)
Inductive event :=
  | Pushed (t : E) (ok : bool)
  | PoppedLocal (r : option E)
  | PoppedGlobal (thief : nat) (r : option E).

Definition owner_step (q : TaskQueue) (pc : owner_pc) : option (TaskQueue * owner_pc * option event) :=
  match pc with
  | OwnerIdle => None
  | PushReadBottom t => Some (q, PushReadTop t (bottom q), None)
  | PushReadTop t localBot =>
      let dirty_n_elems := dirty_size localBot (top (age q)) in
      if dirty_n_elems <? max_elems then Some (q, PushStoreElem t localBot, None)
      else if dirty_n_elems =? total_size - 1 then Some (q, PushSlowReadBottom t, None)
      else Some (q, OwnerIdle, Some (Pushed t false))
  | PushSlowReadBottom t => Some (q, PushStoreElem t (bottom q), None)
  | PushStoreElem t localBot =>
      q ← set_elem q localBot t; Some (q, PushStoreBottom t localBot, None)
  | PushStoreBottom t localBot =>
      Some (set_bottom q (increment_index localBot), OwnerIdle, Some (Pushed t true))
  | PopReadBottom => Some (q, PopReadTop (bottom q), None)
  | PopReadTop localBot =>
      if dirty_size localBot (top (age q)) =? 0 then Some (q, OwnerIdle, Some (PoppedLocal None))
      else Some (q, PopStoreBottom (decrement_index localBot), None)
  | PopStoreBottom localBot => Some (set_bottom q localBot, PopReadElem localBot, None)
  | PopReadElem localBot =>
      t ← arr_get (elems q) localBot; Some (q, PopReadTopAgain localBot t, None)
  | PopReadTopAgain localBot t =>
      if 0 <? size localBot (top (age q)) then Some (q, OwnerIdle, Some (PoppedLocal (Some t)))
      else Some (q, PopReadAge localBot t, None)
  | PopReadAge localBot t => Some (q, PopExchange localBot t (age q), None)
  | PopExchange localBot t oldAge =>
      let newAge := {| top := localBot; tag := u32 (tag oldAge + 1) |} in
      if localBot =? top oldAge then
        let '(tempAge, q) := Age_cmpxchg q newAge oldAge in
        if Age_eqb tempAge oldAge then Some (q, OwnerIdle, Some (PoppedLocal (Some t)))
        else Some (q, PopSetAge newAge, None)
      else Some (q, PopSetAge newAge, None)
  | PopSetAge newAge => Some (set_age q newAge, OwnerIdle, Some (PoppedLocal None))
  end.

Definition thief_step (i : nat) (q : TaskQueue) (pc : thief_pc)
    : option (TaskQueue * thief_pc * option event) :=
  match pc with
  | ThiefIdle => None
  | StealReadAge => Some (q, StealReadBottom (age q), None)
  | StealReadBottom oldAge =>
      if size (bottom q) (top oldAge) =? 0 then Some (q, ThiefIdle, Some (PoppedGlobal i None))
      else Some (q, StealReadElem oldAge, None)
  | StealReadElem oldAge =>
      t ← arr_get (elems q) (top oldAge); Some (q, StealExchange oldAge t, None)
  | StealExchange oldAge t =>
      let '(resAge, q) := Age_cmpxchg q (Age_increment oldAge) oldAge in
      Some (q, ThiefIdle,
            Some (PoppedGlobal i (if Age_eqb resAge oldAge then Some t else None)))
  end.

Record config := { queue : TaskQueue; owner : owner_pc; thieves : list thief_pc }.

(** The thread that makes a step. *)
Inductive actor := Owner | Thief (i : nat).

(** Any thread makes its next access, or calls an operation when it has none under way. *)
Inductive tq_step : config -> actor -> option event -> config -> Prop :=
  | call_push q ths t :
      tq_step {| queue := q; owner := OwnerIdle; thieves := ths |} Owner None
              {| queue := q; owner := PushReadBottom t; thieves := ths |}
  | call_pop q ths :
      tq_step {| queue := q; owner := OwnerIdle; thieves := ths |} Owner None
              {| queue := q; owner := PopReadBottom; thieves := ths |}
  | call_steal q o ths i :
      ths !! i = Some ThiefIdle ->
      tq_step {| queue := q; owner := o; thieves := ths |} (Thief i) None
              {| queue := q; owner := o; thieves := <[i := StealReadAge]> ths |}
  | owner_access q o ths q' o' ev :
      owner_step q o = Some (q', o', ev) ->
      tq_step {| queue := q; owner := o; thieves := ths |} Owner ev
              {| queue := q'; owner := o'; thieves := ths |}
  | thief_access q o ths i p q' p' ev :
      ths !! i = Some p -> thief_step i q p = Some (q', p', ev) ->
      tq_step {| queue := q; owner := o; thieves := ths |} (Thief i) ev
              {| queue := q'; owner := o; thieves := <[i := p']> ths |}.

(** A run: who made each step, and what returned at it. *)
Inductive tq_run : config -> list (actor * option event) -> config -> Prop :=
  | run_nil c : tq_run c [] c
  | run_step c tr c' a ev c'' :
      tq_run c tr c' -> tq_step c' a ev c'' -> tq_run c (tr ++ [(a, ev)]) c''.

(** What the operations returned, in the order they did. *)
Definition events (tr : list (actor * option event)) : list event := omap snd tr.

Definition start (garbage : list E) (n_thieves : nat) : config :=
  {| queue := new_queue garbage; owner := OwnerIdle; thieves := replicate n_thieves ThiefIdle |}.
End Queue.
Arguments TaskQueue : clear implicits.
Arguments owner_pc : clear implicits.
Arguments thief_pc : clear implicits.
Arguments event : clear implicits.
Arguments config : clear implicits.
