(* ===== verification/TaskQueueSpec.v ===== *)
(** * TaskQueueSpec: the work-stealing queue is a linearizable deque

    The specification is a deque: [deque_event] says what each returned operation does
    to the list of tasks, oldest first.  The invariant [tq_inv] ties the list to the shared state and
    to the locals of every thread, and [tq_step_inv] shows that each access keeps it,
    the last access of an operation being the point where the list changes.  What
    makes the exchanges safe is [age_key]: it never decreases, and increases whenever the age changes,
    so an unchanged age means that nothing was taken in between.  The tag has 32 bits; the theorems
    speak of runs of fewer than 2^32 steps, in which it does not wrap. *)

From stdpp Require Import list.
From S2P Require Import Prelude GlobalDefs TaskQueue.

(* ------------------------------------------------------------------ *)
(** ** Indices *)

Abbreviation N := total_size.
Abbreviation ring x := (x mod N).

Lemma N_pow : N = 2 ^ 17.
Proof. reflexivity. Qed.

Lemma mask_ring x : Z.land (u32 x) MOD_N_MASK = ring x.
Proof.
  unfold MOD_N_MASK. rewrite N_pow, land_ones_mod by lia. unfold uwrap.
  apply Z.mod_mod_divide. by exists (2 ^ 15).
Qed.

Lemma ring_range x : 0 <= ring x < N.
Proof. apply Z.mod_pos_bound. done. Qed.

Lemma ring_small x : 0 <= x < N -> ring x = x.
Proof. apply Z.mod_small. Qed.

Lemma ring_add_l x y : ring (ring x + y) = ring (x + y).
Proof. by rewrite Zplus_mod_idemp_l. Qed.

Lemma ring_sub_l x y : ring (ring x - y) = ring (x - y).
Proof. apply Zminus_mod_idemp_l. Qed.

(** Equal modulo the size, and close: equal. *)
Lemma ring_inj x y : ring x = ring y -> - N < x - y < N -> x = y.
Proof.
  intros E H. pose proof (Z.div_mod x N ltac:(done)). pose proof (Z.div_mod y N ltac:(done)).
  assert (0 < N) by done. assert (x / N = y / N) by nia. nia.
Qed.

Lemma ring_shift x y z : ring x = ring y -> ring (x + z) = ring (y + z).
Proof. intros E. by rewrite <- (ring_add_l x), E, ring_add_l. Qed.

Lemma increment_ring i : increment_index i = ring (i + 1).
Proof. apply mask_ring. Qed.
Lemma decrement_ring i : decrement_index i = ring (i - 1).
Proof. apply mask_ring. Qed.
Lemma dirty_ring b t : dirty_size b t = ring (b - t).
Proof. apply mask_ring. Qed.

(** What is measured between a bottom and a top [k] tasks apart. *)
Lemma dirty_size_at b t k : ring b = ring (t + k) -> 0 <= k < N -> dirty_size b t = k.
Proof.
  intros E Hk. rewrite dirty_ring. replace (b - t) with (b + - t) by lia.
  rewrite (ring_shift _ _ (- t) E). replace (t + k + - t) with k by lia. by apply ring_small.
Qed.

(* ------------------------------------------------------------------ *)
(** ** Ages *)

Definition age_ok (n : nat) (a : Age) : Prop := 0 <= top a < N /\ 0 <= tag a <= Z.of_nat n.

(** The order in which ages follow each other. *)
Definition age_key (a : Age) : Z := tag a * N + top a.

Definition no_wrap (n : nat) : Prop := Z.of_nat n < 2 ^ 32.

Lemma age_eq a b : top a = top b -> tag a = tag b -> a = b.
Proof. destruct a, b. simpl. by intros -> ->. Qed.

Lemma Age_eqb_iff n a b : no_wrap n -> age_ok n a -> age_ok n b -> Age_eqb a b = true <-> a = b.
Proof.
  intros Hn [Ha Ha'] [Hb Hb']. unfold no_wrap in Hn. assert (HN : N < 2 ^ 32) by done.
  unfold Age_eqb, Age_data. rewrite Z.eqb_eq. split; [|by intros ->]. intros E.
  rewrite !(Z.lor_comm (top _)), !Z.shiftl_mul_pow2, !lor_shiftl_add in E by lia.
  apply age_eq; lia.
Qed.

Lemma age_key_inj n a b : age_ok n a -> age_ok n b -> age_key a = age_key b -> a = b.
Proof.
  unfold age_ok, age_key. intros. assert (0 < N) by done. assert (tag a = tag b) by nia.
  apply age_eq; nia.
Qed.

Lemma age_ok_S n a : age_ok n a -> age_ok (S n) a.
Proof. unfold age_ok. lia. Qed.

Lemma tag_next n a : no_wrap (S n) -> age_ok n a -> u32 (tag a + 1) = tag a + 1.
Proof. unfold no_wrap, age_ok. intros. apply uwrap_small; unfold in_u; lia. Qed.

Lemma Age_increment_top a : top (Age_increment a) = ring (top a + 1).
Proof. apply increment_ring. Qed.

Lemma ring_succ x : 0 <= x < N -> ring (x + 1) = if x + 1 =? N then 0 else x + 1.
Proof. intros H. destruct (Z.eqb_spec (x + 1) N) as [->|]; [done | apply ring_small; lia]. Qed.

(** Incrementing an age gives its successor in the order. *)
Lemma age_increment_ok n a : no_wrap (S n) -> age_ok n a ->
  age_ok (S n) (Age_increment a) /\ age_key (Age_increment a) = age_key a + 1.
Proof.
  intros Hn Ha. pose proof (tag_next n a Hn Ha) as E. destruct Ha as [Ht Hg].
  assert (HN : 0 < N) by done. unfold age_ok, age_key, Age_increment. cbn [top tag].
  rewrite increment_ring, ring_succ by done.
  destruct (Z.eqb_spec (top a + 1) N).
  - rewrite Z.eqb_refl, E. nia.
  - destruct (Z.eqb_spec (top a + 1) 0); nia.
Qed.

(** The age that the owner installs over an old one follows it, and it follows what a thief
    made of it. *)
Lemma reset_age_ok n a b : no_wrap (S n) -> age_ok n a -> 0 <= b < N ->
  let a' := {| top := b; tag := u32 (tag a + 1) |} in
  age_ok (S n) a' /\ age_key a < age_key a' /\
  (top a = b -> age_key (Age_increment a) < age_key a').
Proof.
  intros Hn Ha Hb a'. pose proof (tag_next n a Hn Ha) as E.
  destruct (age_increment_ok n a Hn Ha) as [_ ->]. unfold a', age_ok, age_key. cbn [top tag].
  rewrite E. assert (1 < N) by done. destruct Ha as [Ht Hg]. nia.
Qed.

(* ------------------------------------------------------------------ *)
(** ** The deque *)

Section Deque.
Context {E : Type}.
Implicit Types (xs : list E) (es : list E) (t : E).

Abbreviation len l := (Z.of_nat (length l)).

(** What a returned operation does to the tasks, the oldest first. *)
Inductive deque_event : list E -> event E -> list E -> Prop :=
  | deque_push xs t : len xs < max_elems -> deque_event xs (Pushed t true) (xs ++ [t])
  | deque_full xs t : len xs = max_elems -> deque_event xs (Pushed t false) xs
  | deque_pop xs t : deque_event (xs ++ [t]) (PoppedLocal (Some t)) xs
  | deque_empty : deque_event [] (PoppedLocal None) []
  | deque_steal xs t i : deque_event (t :: xs) (PoppedGlobal i (Some t)) xs
  | deque_no_steal xs i : deque_event xs (PoppedGlobal i None) xs.

Definition deque_opt xs (ev : option (event E)) xs' : Prop :=
  match ev with Some e => deque_event xs e xs' | None => xs' = xs end.

Inductive deque_run : list E -> list (event E) -> list E -> Prop :=
  | deque_nil xs : deque_run xs [] xs
  | deque_snoc xs evs xs' e xs'' :
      deque_run xs evs xs' -> deque_event xs' e xs'' -> deque_run xs (evs ++ [e]) xs''.

(** The tasks [xs] lie in the array from the index [tp] on. *)
Definition content_at es (tp : Z) xs : Prop :=
  forall i x, xs !! i = Some x -> arr_get es (ring (tp + Z.of_nat i)) = Some x.

Lemma content_nil es tp : content_at es tp [].
Proof using Type. intros i x. by rewrite lookup_nil. Qed.

Lemma content_cons es tp x xs :
  content_at es tp (x :: xs) <-> arr_get es (ring tp) = Some x /\ content_at es (ring (tp + 1)) xs.
Proof using Type.
  unfold content_at. split.
  - intros H. split; [specialize (H O x eq_refl); by rewrite Z.add_0_r in H|].
    intros i y Hy. rewrite ring_add_l, <- (H (S i) y Hy). f_equal. f_equal. lia.
  - intros [H0 H] [|i] y Hy; [simpl in Hy; simplify_eq; by rewrite Z.add_0_r|].
    rewrite <- (H i y Hy), ring_add_l. f_equal. f_equal. lia.
Qed.

Lemma content_snoc es tp xs x :
  content_at es tp (xs ++ [x]) <->
  content_at es tp xs /\ arr_get es (ring (tp + len xs)) = Some x.
Proof using Type.
  unfold content_at. split.
  - intros H. split; [intros i y Hy; by apply H, lookup_app_l_Some|].
    apply H. by rewrite lookup_app_r, Nat.sub_diag by lia.
  - intros [H Hx] i y Hy. destruct (decide (i < length xs)%nat).
    + apply H. by rewrite lookup_app_l in Hy.
    + rewrite lookup_app_r in Hy by lia. apply list_lookup_singleton_Some in Hy as [? <-].
      by replace i with (length xs) by lia.
Qed.

(** A task stored behind the others disturbs none. *)
Lemma content_store es es' tp b xs t : content_at es tp xs -> arr_set es b t = Some es' ->
  b = ring (tp + len xs) -> len xs < N ->
  content_at es' tp xs /\ arr_get es' b = Some t.
Proof using Type.
  intros H Hs Hb Hx. split.
  - intros i x Hi. rewrite (arr_get_set _ _ _ _ _ Hs).
    destruct (Z.eqb_spec (ring (tp + Z.of_nat i)) b) as [Eq|]; [|by apply H].
    apply lookup_lt_Some in Hi. rewrite Hb in Eq. apply ring_inj in Eq; lia.
  - by rewrite (arr_get_set _ _ _ _ _ Hs), Z.eqb_refl.
Qed.
End Deque.
Abbreviation len l := (Z.of_nat (length l)).

(* ------------------------------------------------------------------ *)
(** ** The invariant *)

Section Invariant.
Context {E : Type}.
Implicit Types (xs : list E) (t : E) (q : TaskQueue E) (o : owner_pc E) (p : thief_pc E).

(** One while the owner has lowered the bottom and not decided what it has popped. *)
Definition popping o : Z :=
  match o with
  | PopReadElem _ | PopReadTopAgain _ _ | PopReadAge _ _ | PopExchange _ _ _ | PopSetAge _ => 1
  | _ => 0
  end.

(** The array holds the tasks between the top and the bottom, [k] above the stored one. *)
Record holds (n : nat) q (k : Z) xs : Prop := {
  holds_elems : len (elems q) = N;
  holds_bottom : 0 <= bottom q < N;
  holds_age : age_ok n (age q);
  holds_size : len xs <= max_elems;
  holds_index : ring (bottom q + k) = ring (top (age q) + len xs);
  holds_content : content_at (elems q) (top (age q)) xs }.

(** What the owner's locals say at each point of its operations. *)
Definition owner_ok (n : nat) q xs o : Prop :=
  match o with
  | OwnerIdle | PushReadBottom _ | PopReadBottom => True
  | PushReadTop _ b | PopReadTop b => b = bottom q
  | PushSlowReadBottom _ => False
  | PushStoreElem _ b => b = bottom q /\ len xs < max_elems
  | PushStoreBottom t b =>
      b = bottom q /\ len xs < max_elems /\ arr_get (elems q) b = Some t
  | PopStoreBottom b => b = ring (bottom q - 1)
  | PopReadElem b => b = bottom q
  | PopReadTopAgain b t => b = bottom q /\ arr_get (elems q) b = Some t
  | PopReadAge b t => b = bottom q /\ arr_get (elems q) b = Some t /\ len xs <= 1
  | PopExchange b t old =>
      b = bottom q /\ arr_get (elems q) b = Some t /\ len xs <= 1 /\ age_ok n old /\
      (old = age q \/ xs = [] /\ top old = b /\ age q = Age_increment old)
  | PopSetAge new =>
      xs = [] /\ top new = bottom q /\ age_ok n new /\ age_key (age q) < age_key new
  end.

(** A thief's age is not from the future; if it is still current, there is a task to steal,
    and the one the thief has read is the oldest. *)
Definition thief_ok (n : nat) q xs p : Prop :=
  match p with
  | ThiefIdle | StealReadAge => True
  | StealReadBottom old => age_ok n old /\ age_key old <= age_key (age q)
  | StealReadElem old =>
      age_ok n old /\ age_key old <= age_key (age q) /\ (old = age q -> xs <> [])
  | StealExchange old t =>
      age_ok n old /\ age_key old <= age_key (age q) /\ (old = age q -> head xs = Some t)
  end.

Record tq_inv (n : nat) (c : config E) xs : Prop := {
  tq_holds : holds n (queue c) (popping (owner c)) xs;
  tq_owner : owner_ok n (queue c) xs (owner c);
  tq_thieves : Forall (thief_ok n (queue c) xs) (thieves c) }.

Lemma holds_weaken n m q k xs : (n <= m)%nat -> holds n q k xs -> holds m q k xs.
Proof using Type. intros Hm []. split; try done. unfold age_ok in *. lia. Qed.

Lemma holds_S n q k xs : holds n q k xs -> holds (S n) q k xs.
Proof using Type. apply holds_weaken. lia. Qed.

(** The dirty size the owner or a thief reads, from the number of tasks. *)
Lemma holds_dirty n q k xs : holds n q k xs -> 0 <= k <= len xs ->
  dirty_size (bottom q) (top (age q)) = len xs - k.
Proof using Type.
  intros [] Hk. assert (max_elems < N) by done. apply dirty_size_at; [|lia].
  replace (bottom q) with (bottom q + k + - k) by lia.
  rewrite (ring_shift _ _ (- k) holds_index0). f_equal. lia.
Qed.

(** Reads of the bottom tell whether there is anything above it. *)
Lemma holds_nonempty n q k xs : holds n q k xs -> 0 <= k <= 1 ->
  size (bottom q) (top (age q)) = if len xs <=? k then 0 else len xs - k.
Proof using Type.
  intros H Hk. unfold size. pose proof (holds_size _ _ _ _ H). assert (max_elems = N - 2) by done.
  destruct (decide (k <= len xs)).
  - rewrite (holds_dirty n q k xs) by (done || lia).
    destruct (Z.eqb_spec (len xs - k) (N - 1)); [lia|]. zcases; lia.
  - destruct (Z.leb_spec (len xs) k); [|lia]. assert (k = 1) as -> by lia.
    assert (len xs = 0) as E0 by lia. destruct H as [_ ? ? _ Hi _]. rewrite E0 in Hi.
    assert (dirty_size (bottom q) (top (age q)) = N - 1) as ->; [|done].
    rewrite dirty_ring. replace (bottom q - top (age q)) with (bottom q + 1 + (- top (age q) - 1)) by lia.
    rewrite (ring_shift _ _ _ Hi).
    replace (top (age q) + 0 + (- top (age q) - 1)) with (-1) by lia. reflexivity.
Qed.

(** A thief keeps what it knows while the oldest task stays, and whatever happens once the
    age has moved on. *)
Lemma thief_ok_step n q q' xs xs' p :
  age q' = age q /\ (forall t, head xs = Some t -> head xs' = Some t) \/
  age_key (age q) < age_key (age q') ->
  thief_ok n q xs p -> thief_ok (S n) q' xs' p.
Proof using Type.
  intros Hage Hp. destruct p as [| |old|old|old t]; simpl in *; try done.
  - destruct Hp as [? ?]. split; [by apply age_ok_S|]. destruct Hage as [[-> _]|]; lia.
  - destruct Hp as (Ho & Hk & Hx). split; [by apply age_ok_S|].
    destruct Hage as [[-> Hh]|Hlt]; [|split; [lia | intros ->; lia]].
    split; [done|]. intros Eo. specialize (Hx Eo). destruct xs as [|x xs]; [done|].
    specialize (Hh x eq_refl). by destruct xs'.
  - destruct Hp as (Ho & Hk & Hx). split; [by apply age_ok_S|].
    destruct Hage as [[-> Hh]|Hlt]; [|split; [lia | intros ->; lia]]. auto.
Qed.

Lemma thieves_step n q q' xs xs' ths :
  age q' = age q /\ (forall t, head xs = Some t -> head xs' = Some t) \/
  age_key (age q) < age_key (age q') ->
  Forall (thief_ok n q xs) ths -> Forall (thief_ok (S n) q' xs') ths.
Proof using Type. intros Hage. apply List.Forall_impl. intros p. by apply thief_ok_step. Qed.
End Invariant.

(* ------------------------------------------------------------------ *)
(** ** The steps of the owner *)

Section OwnerSteps.
Context {E : Type} (n : nat) (Hn : no_wrap (S n)).
Implicit Types (xs : list E) (t : E) (q : TaskQueue E) (o : owner_pc E) (p : thief_pc E).

(** What a step of the owner leaves, and what the thieves can rely on. *)
Definition owner_kept q xs q' o' (ev : option (event E)) : Prop :=
  exists xs', deque_opt xs ev xs' /\ holds (S n) q' (popping o') xs' /\ owner_ok (S n) q' xs' o' /\
    (age q' = age q /\ (forall t, head xs = Some t -> head xs' = Some t) \/
     age_key (age q) < age_key (age q')).

Lemma owner_kept_quiet q xs k o' : holds n q k xs -> popping o' = k -> owner_ok (S n) q xs o' ->
  owner_kept q xs q o' None.
Proof using Type.
  intros H <- Ho. exists xs. split_and!; [done | by apply holds_S | done |]. by left.
Qed.

Lemma owner_kept_return q xs e : holds n q 0 xs -> deque_event xs e xs ->
  owner_kept q xs q OwnerIdle (Some e).
Proof using Type.
  intros H He. exists xs. split_and!; [done | by apply holds_S | done |]. by left.
Qed.

Lemma push_steps q xs t : holds n q 0 xs ->
  owner_kept q xs q (PushReadTop t (bottom q)) None /\
  (forall q' o' ev, owner_step q (PushReadTop t (bottom q)) = Some (q', o', ev) ->
     owner_kept q xs q' o' ev).
Proof using Type.
  intros H. split; [by eapply owner_kept_quiet|]. intros q' o' ev. unfold owner_step.
  pose proof (holds_size _ _ _ _ H). assert (max_elems = N - 2) by done.
  rewrite (holds_dirty n q 0 xs) by (done || lia). zcases; intros [= <- <- <-].
  - eapply owner_kept_quiet; [done..|]. split; [done|lia].
  - apply owner_kept_return; [done|]. apply deque_full. lia.
Qed.

Lemma push_store_step q xs t q' : holds n q 0 xs -> len xs < max_elems ->
  set_elem q (bottom q) t = Some q' -> owner_kept q xs q' (PushStoreBottom t (bottom q)) None.
Proof using Type.
  intros [He Hb Ha Hs Hi Hc] Hlt. unfold set_elem. intros (es & Hes & [= <-])%obind_inv.
  assert (max_elems < N) by done.
  rewrite Z.add_0_r, (ring_small (bottom q)) in Hi by done.
  destruct (content_store _ _ _ _ _ _ Hc Hes Hi ltac:(lia)) as [Hc' Hg].
  exists xs. split_and!; [done| | |by left].
  - split; simpl; try done; [|by apply age_ok_S|].
    + by rewrite (arr_set_length _ _ _ _ Hes).
    + by rewrite Z.add_0_r, ring_small.
  - done.
Qed.

Lemma push_bottom_step q xs t : holds n q 0 xs -> len xs < max_elems ->
  arr_get (elems q) (bottom q) = Some t ->
  owner_kept q xs (set_bottom q (increment_index (bottom q))) OwnerIdle (Some (Pushed t true)).
Proof using Type.
  intros [He Hb Ha Hs Hi Hc] Hlt Ht. rewrite Z.add_0_r in Hi. exists (xs ++ [t]). split_and!.
  - by apply deque_push.
  - split; simpl; try done.
    + rewrite increment_ring. apply ring_range.
    + by apply age_ok_S.
    + rewrite length_app. simpl. lia.
    + rewrite increment_ring, ring_add_l, length_app. simpl. rewrite Z.add_0_r, (ring_shift _ _ 1 Hi).
      f_equal. lia.
    + apply content_snoc. split; [done|]. rewrite <- Hi. by rewrite ring_small.
  - done.
  - left. split; [done|]. intros x Hx. by destruct xs.
Qed.

Lemma pop_read_step q xs q' o' ev : holds n q 0 xs ->
  owner_step q (PopReadTop (bottom q)) = Some (q', o', ev) -> owner_kept q xs q' o' ev.
Proof using Type.
  intros H. pose proof (holds_size _ _ _ _ H). unfold owner_step.
  rewrite (holds_dirty n q 0 xs) by (done || lia). destruct (Z.eqb_spec (len xs - 0) 0).
  - intros [= <- <- <-]. apply owner_kept_return; [done|].
    assert (xs = []) as -> by (apply nil_length_inv; lia). apply deque_empty.
  - intros [= <- <- <-]. eapply owner_kept_quiet; [done..|]. apply decrement_ring.
Qed.

Lemma pop_store_step q xs : holds n q 0 xs ->
  let q' := set_bottom q (ring (bottom q - 1)) in owner_kept q xs q' (PopReadElem (bottom q')) None.
Proof using Type.
  intros [He Hb Ha Hs Hi Hc] q'. exists xs. split_and!; [done| |done|by left].
  split; simpl; try done; [apply ring_range | by apply age_ok_S|].
  rewrite ring_add_l. rewrite <- Hi. f_equal. lia.
Qed.

(** With something left above the top the last task is the owner's, without an exchange. *)
Lemma pop_again_step q xs t q' o' ev : holds n q 1 xs -> arr_get (elems q) (bottom q) = Some t ->
  owner_step q (PopReadTopAgain (bottom q) t) = Some (q', o', ev) -> owner_kept q xs q' o' ev.
Proof using Type.
  intros H Ht. unfold owner_step. rewrite (holds_nonempty n q 1 xs) by (done || lia).
  destruct (Z.leb_spec (len xs) 1).
  - intros [= <- <- <-]. by eapply owner_kept_quiet.
  - destruct (Z.ltb_spec 0 (len xs - 1)); [|lia]. intros [= <- <- <-]. destruct H as [He Hb Ha Hs Hi Hc].
    destruct xs as [|t' xs _] using rev_ind; [simpl in *; lia|]. rewrite length_app in *. simpl in *.
    assert (Hb' : ring (bottom q) = ring (top (age q) + len xs)).
    { replace (bottom q) with (bottom q + 1 + -1) by lia. rewrite (ring_shift _ _ _ Hi). f_equal. lia. }
    apply content_snoc in Hc as [Hc Ht'].
    rewrite <- Hb', ring_small, Ht in Ht' by done. injection Ht' as <-.
    exists xs. split_and!; [apply deque_pop| |done|].
    + split; try done; [by apply age_ok_S | lia | by rewrite Z.add_0_r].
    + left. split; [done|]. intros x Hx. destruct xs; [simpl in *; lia | done].
Qed.

Lemma holds_reset q k xs new : holds n q k xs -> age_ok (S n) new -> top new = bottom q ->
  holds (S n) (set_age q new) 0 [].
Proof using Type.
  intros [He Hb Ha Hs Hi Hc] Hnew Ht. split; simpl; try done. by rewrite Ht.
Qed.

(** The one task left is where the owner has read, and the top points at it. *)
Lemma holds_last q t xs : holds n q 1 xs -> arr_get (elems q) (bottom q) = Some t -> len xs = 1 ->
  top (age q) = bottom q /\ xs = [t].
Proof using Type.
  intros [He Hb Ha Hs Hi Hc] Ht Hlen. destruct xs as [|x [|]]; simpl in *; try lia.
  apply ring_inj in Hi; [|destruct Ha; lia]. assert (Etop : top (age q) = bottom q) by lia.
  split; [done|]. apply content_cons in Hc as [Hx _]. rewrite Etop, ring_small in Hx by done. congruence.
Qed.

Lemma pop_exchange_step q xs t old q' o' ev : holds n q 1 xs ->
  owner_ok n q xs (PopExchange (bottom q) t old) ->
  owner_step q (PopExchange (bottom q) t old) = Some (q', o', ev) -> owner_kept q xs q' o' ev.
Proof using Hn.
  intros H (_ & Ht & Hlen & Hold & Hor). unfold owner_step, Age_cmpxchg.
  pose proof (holds_bottom _ _ _ _ H) as Hb. pose proof (holds_age _ _ _ _ H) as Ha.
  assert (Hn' : no_wrap n) by (unfold no_wrap in *; lia).
  pose proof (reset_age_ok n old (bottom q) Hn Hold Hb) as (Hnew & Hk & Hk').
  set (new := {| top := bottom q; tag := u32 (tag old + 1) |}) in *. cbv zeta.
  assert (Hlose : xs = [] -> age q = old \/ top old = bottom q /\ age q = Age_increment old ->
            owner_kept q xs q (PopSetAge new) None).
  { intros -> Hage. eapply owner_kept_quiet; [done..|]. split_and!; [done..|].
    destruct Hage as [->|[Et ->]]; auto. }
  destruct (Z.eqb_spec (bottom q) (top old)) as [Et|Hne].
  2:{ intros [= <- <- <-]. destruct Hor as [->|(-> & Et & _)]; [|by rewrite Et in Hne].
      apply Hlose; [|by left]. apply nil_length_inv. destruct (decide (len xs = 1)); [|lia].
      destruct (holds_last q t xs) as [Etop _]; congruence. }
  pose proof (Age_eqb_iff n (age q) old Hn' Ha Hold) as Heq.
  destruct (Age_eqb (age q) old) eqn:Ecmp.
  - apply proj1 in Heq. specialize (Heq eq_refl) as Eage.
    destruct (decide (len xs = 1)) as [H1|H0].
    + intros [= <- <- <-]. destruct (holds_last q t xs H Ht H1) as [_ ->]. exists [].
      split_and!; [apply (deque_pop [])| by eapply holds_reset | done |]. right. simpl. by rewrite Eage.
    + exfalso. destruct H as [_ _ _ _ Hi _]. rewrite Eage, <- Et in Hi.
      apply ring_inj in Hi; [lia|]. assert (4 < N) by done. lia.
  - intros [= <- <- <-]. destruct Hor as [->|(-> & Et' & Eage)].
    + assert (false = true) by (by apply Heq). done.
    + apply Hlose; auto.
Qed.

Lemma pop_set_age_step q xs new : holds n q 1 xs -> owner_ok n q xs (PopSetAge new) ->
  owner_kept q xs (set_age q new) OwnerIdle (Some (PoppedLocal None)).
Proof using Type.
  intros H (-> & Ht & Hnew & Hk). exists []. split_and!; [apply deque_empty| |done|by right].
  eapply holds_reset; [done | by apply age_ok_S | done].
Qed.

Lemma owner_step_kept q xs o q' o' ev : holds n q (popping o) xs -> owner_ok n q xs o ->
  owner_step q o = Some (q', o', ev) -> owner_kept q xs q' o' ev.
Proof using Hn.
  intros H Ho Hs. destruct o; simpl in H; cbn [owner_ok] in Ho; try done.
  - injection Hs as <- <- <-. by apply push_steps.
  - subst. by eapply push_steps.
  - destruct Ho as [-> Hlt]. apply obind_inv in Hs as (q1 & Hq1 & [= <- <- <-]).
    by eapply push_store_step.
  - destruct Ho as (-> & Hlt & Ht). injection Hs as <- <- <-. by apply push_bottom_step.
  - injection Hs as <- <- <-. by eapply owner_kept_quiet.
  - subst. by eapply pop_read_step.
  - subst. injection Hs as <- <- <-. by apply pop_store_step.
  - subst. apply obind_inv in Hs as (t & Ht & [= <- <- <-]). by eapply owner_kept_quiet.
  - destruct Ho as [-> Ht]. by eapply pop_again_step.
  - destruct Ho as (-> & Ht & Hlen). injection Hs as <- <- <-. eapply owner_kept_quiet; [done..|].
    split_and!; [done..| |by left]. apply age_ok_S, H.
  - pose proof Ho as (-> & _). by eapply pop_exchange_step.
  - injection Hs as <- <- <-. by apply pop_set_age_step.
Qed.
End OwnerSteps.

(* ------------------------------------------------------------------ *)
(** ** The steps of a thief, and of the whole *)

Section ThiefSteps.
Context {E : Type} (n : nat) (Hn : no_wrap (S n)).
Implicit Types (xs : list E) (t : E) (q : TaskQueue E) (o : owner_pc E) (p : thief_pc E).

Definition thief_kept q xs o q' p' (ev : option (event E)) : Prop :=
  exists xs', deque_opt xs ev xs' /\ holds (S n) q' (popping o) xs' /\ owner_ok (S n) q' xs' o /\
    thief_ok (S n) q' xs' p' /\
    (age q' = age q /\ (forall t, head xs = Some t -> head xs' = Some t) \/
     age_key (age q) < age_key (age q')).

Lemma popping_range o : 0 <= popping o <= 1.
Proof using Type. destruct o; simpl; lia. Qed.

Lemma owner_ok_S q xs o : owner_ok n q xs o -> owner_ok (S n) q xs o.
Proof using Type.
  destruct o; simpl; try done.
  - intros (? & ? & ? & ? & ?). split_and!; auto using age_ok_S.
  - intros (? & ? & ? & ?). split_and!; auto using age_ok_S.
Qed.

Lemma thief_kept_quiet q xs o p' : holds n q (popping o) xs -> owner_ok n q xs o ->
  thief_ok (S n) q xs p' -> thief_kept q xs o q p' None.
Proof using Type.
  intros. exists xs. split_and!; [done | by apply holds_S | by apply owner_ok_S | done | by left].
Qed.

Lemma thief_kept_nothing i q xs o : holds n q (popping o) xs -> owner_ok n q xs o ->
  thief_kept q xs o q ThiefIdle (Some (PoppedGlobal i None)).
Proof using Type.
  intros. exists xs. split_and!; [apply deque_no_steal | by apply holds_S | by apply owner_ok_S | done | by left].
Qed.

(** Taking the oldest task leaves the owner's knowledge true. *)
Lemma owner_ok_steal q t xs o : holds n q (popping o) (t :: xs) -> owner_ok n q (t :: xs) o ->
  owner_ok (S n) (set_age q (Age_increment (age q))) xs o.
Proof using Type.
  intros H Ho. pose proof (holds_age _ _ _ _ H). assert (Hl : len xs < len (t :: xs)) by (simpl; lia).
  destruct o as [|t'|t' b|t'|t' b|t' b| | b| b| b| b t'| b t'| b t' old|new]; cbn [owner_ok] in *; try done.
  - destruct Ho; split; [done|lia].
  - destruct Ho as (? & ? & ?); split_and!; [done|lia|done].
  - destruct Ho as (? & ? & ?); split_and!; [done..|lia].
  - destruct Ho as (-> & Ht & Hx & Hold & Hor). split_and!; [done|done|lia|by apply age_ok_S|]. right.
    destruct Hor as [->|[[=] _]]. assert (len xs = 0) by lia.
    destruct (holds_last n q t' (t :: xs) H Ht ltac:(lia)) as [Etop _].
    split_and!; [by apply nil_length_inv; lia | done | done].
  - by destruct Ho as [[=] _].
Qed.

Lemma holds_steal q k t xs : holds n q k (t :: xs) ->
  holds (S n) (set_age q (Age_increment (age q))) k xs.
Proof using Hn.
  intros [He Hb Ha Hs Hi Hc]. destruct (age_increment_ok n (age q) Hn Ha) as [Ha' _].
  apply content_cons in Hc as [_ Hc]. cbn [length] in *.
  split; cbn [elems bottom age set_age]; try done; [lia| |by rewrite Age_increment_top].
  rewrite Age_increment_top, ring_add_l, Hi. f_equal. lia.
Qed.

Lemma steal_exchange_step i q xs o old t q' p' ev : holds n q (popping o) xs -> owner_ok n q xs o ->
  thief_ok n q xs (StealExchange old t) -> thief_step i q (StealExchange old t) = Some (q', p', ev) ->
  thief_kept q xs o q' p' ev.
Proof using Hn.
  intros H Ho (Hold & Hk & Hx) Hs. unfold thief_step, Age_cmpxchg in Hs. injection Hs as <- <- <-.
  pose proof (holds_age _ _ _ _ H) as Ha. assert (Hn' : no_wrap n) by (unfold no_wrap in *; lia).
  pose proof (Age_eqb_iff n (age q) old Hn' Ha Hold) as Heq.
  destruct (Age_eqb (age q) old) eqn:Ecmp; [|by apply thief_kept_nothing].
  assert (old = age q) as -> by (symmetry; by apply Heq). specialize (Hx eq_refl).
  destruct xs as [|x xs]; [done|]. injection Hx as ->. exists xs. split_and!.
  - apply deque_steal.
  - by apply (holds_steal q _ t).
  - by apply (owner_ok_steal q t).
  - done.
  - right. cbn [age set_age]. destruct (age_increment_ok n (age q) Hn Ha) as [_ ->]. lia.
Qed.

Lemma thief_step_kept i q xs o p q' p' ev : holds n q (popping o) xs -> owner_ok n q xs o ->
  thief_ok n q xs p -> thief_step i q p = Some (q', p', ev) -> thief_kept q xs o q' p' ev.
Proof using Hn.
  intros H Ho Hp Hs. destruct p as [| |old|old|old t]; [done| | | |by eapply steal_exchange_step].
  - injection Hs as <- <- <-. apply thief_kept_quiet; [done..|].
    split; [by apply age_ok_S, H | lia].
  - destruct Hp as [Hold Hk]. unfold thief_step in Hs.
    destruct (Z.eqb_spec (size (bottom q) (top old)) 0) as [|Hne]; injection Hs as <- <- <-;
      [by apply thief_kept_nothing|].
    apply thief_kept_quiet; [done..|]. split_and!; [by apply age_ok_S|done|]. intros -> ->.
    rewrite (holds_nonempty n q (popping o) [] H (popping_range o)) in Hne.
    destruct (Z.leb_spec (len (@nil E)) (popping o)); [done|]. pose proof (popping_range o). simpl in *. lia.
  - destruct Hp as (Hold & Hk & Hx). apply obind_inv in Hs as (t & Ht & [= <- <- <-]).
    apply thief_kept_quiet; [done..|]. split_and!; [by apply age_ok_S|done|]. intros ->.
    specialize (Hx eq_refl). destruct xs as [|x xs]; [done|].
    pose proof (holds_content _ _ _ _ H) as [Hc _]%content_cons.
    rewrite ring_small in Hc by apply H. simpl. congruence.
Qed.
End ThiefSteps.

Section Runs.
Context {E : Type}.
Implicit Types (xs : list E) (t : E) (q : TaskQueue E) (c : config E).

Lemma tq_step_inv n c a ev c' xs : no_wrap (S n) -> tq_inv n c xs -> tq_step c a ev c' ->
  exists xs', deque_opt xs ev xs' /\ tq_inv (S n) c' xs'.
Proof using Type.
  intros Hn [H Ho Hths] Hs.
  assert (Hquiet : Forall (thief_ok (S n) (queue c) xs) (thieves c))
    by (eapply thieves_step; [left|]; done).
  destruct Hs as [q ths t|q ths|q o ths i Hi|q o ths q' o' ev Hs|q o ths i p q' p' ev Hi Hs]; simpl in *.
  1,2: exists xs; split; [done|]; split; [by apply holds_S | done | done].
  - exists xs. split; [done|]. split; [by apply holds_S | by apply owner_ok_S | by apply Forall_insert].
  - destruct (owner_step_kept n Hn q xs o q' o' ev H Ho Hs) as (xs' & ? & ? & ? & Hage).
    exists xs'. split; [done|]. split; [done..|]. by eapply thieves_step.
  - pose proof (Forall_lookup_1 _ _ _ _ Hths Hi) as Hp.
    destruct (thief_step_kept n Hn i q xs o p q' p' ev H Ho Hp Hs) as (xs' & ? & ? & ? & ? & Hage).
    exists xs'. split; [done|]. split; [done..|]. apply Forall_insert; [|done]. by eapply thieves_step.
Qed.

Lemma tq_inv_start garbage k : len garbage = N -> tq_inv 0 (@start E garbage k) [].
Proof using Type.
  intros Hl. split; [|done|].
  - by split.
  - by apply Forall_replicate.
Qed.

Lemma events_snoc (tr : list (actor * option (event E))) a ev :
  events (tr ++ [(a, ev)]) = events tr ++ match ev with Some e => [e] | None => [] end.
Proof using Type. unfold events. rewrite omap_app. by destruct ev. Qed.

Lemma tq_run_inv garbage k tr c : len garbage = N -> no_wrap (length tr) ->
  tq_run (start garbage k) tr c ->
  exists xs, deque_run [] (events tr) xs /\ tq_inv (length tr) c xs.
Proof using Type.
  intros Hl Hn Hr. remember (start garbage k) as c0 eqn:E0.
  induction Hr as [c|c tr c' a ev c'' Hr IH Hs]; subst.
  - exists []. split; [constructor | by apply tq_inv_start].
  - rewrite length_app in Hn. destruct IH as (xs & Hd & Hi); [|done|].
    { unfold no_wrap in *. simpl in Hn. lia. }
    rewrite length_app, Nat.add_1_r in *. destruct (tq_step_inv _ _ _ _ _ _ Hn Hi Hs) as (xs' & He & Hi').
    exists xs'. split; [|done]. rewrite events_snoc. destruct ev; simpl in He.
    + by eapply deque_snoc.
    + by rewrite app_nil_r, He.
Qed.

Lemma decrement_at n q xs i : holds n q 0 xs -> 0 <= i ->
  decrement_index (ring (bottom q - i)) = ring (top (age q) + (len xs - i - 1)).
Proof using Type.
  intros H Hi. rewrite decrement_ring, ring_sub_l.
  replace (bottom q - i - 1) with (bottom q + 0 + (- i - 1)) by lia.
  rewrite (ring_shift _ _ _ (holds_index _ _ _ _ H)). f_equal. lia.
Qed.

Lemma holds_lookup n q k xs i x : holds n q k xs -> xs !! i = Some x ->
  arr_get (elems q) (ring (top (age q) + Z.of_nat i)) = Some x.
Proof using Type. intros H. apply (holds_content _ _ _ _ H). Qed.

Lemma queue_size_ok n q xs : holds n q 0 xs -> queue_size q = len xs.
Proof using Type.
  intros H. unfold queue_size. rewrite (holds_nonempty n q 0 xs) by (done || lia). zcases; lia.
Qed.

(** The closure sees every task, the newest first. *)
Lemma oops_do_ok n q xs : holds n q 0 xs -> oops_do q = Some (rev xs).
Proof using Type.
  intros H. unfold oops_do. rewrite (queue_size_ok n q xs H).
  match goal with |- context [each_range 0 (len xs) ?f ?s] =>
    destruct (each_range_inv (fun i r => r = (ring (bottom q - i), rev (drop (length xs - Z.to_nat i) xs))
                                         /\ 0 <= i <= len xs) f 0 (len xs) s) as ([b l] & -> & [= -> ->] & _)
  end.
  - lia.
  - rewrite Z.sub_0_r, Nat.sub_0_r, drop_all. split; [|lia].
    by rewrite (ring_small (bottom q)) by apply H.
  - intros i [b l] Hi [[= -> ->] _]. rewrite (decrement_at n q xs i H) by lia.
    set (j := (length xs - Z.to_nat i - 1)%nat).
    destruct (lookup_lt_is_Some_2 xs j ltac:(lia)) as [x Hx].
    replace (len xs - i - 1) with (Z.of_nat j) by lia. rewrite (holds_lookup n q 0 xs j x H Hx).
    eexists. split; [done|]. split; [|lia]. f_equal.
    + replace (Z.of_nat j) with (len xs - i - 1) by lia. rewrite <- (decrement_at n q xs i H) by lia.
      rewrite decrement_ring, ring_sub_l. f_equal. lia.
    + replace (length xs - Z.to_nat (i + 1))%nat with j by lia.
      rewrite (drop_S _ _ _ Hx). simpl. by replace (S j) with (length xs - Z.to_nat i)%nat by lia.
  - simpl. by replace (length xs - Z.to_nat (len xs))%nat with O by lia.
Qed.
End Runs.
