(* ===== verification/TaskQueueSafe.v ===== *)
(** * TaskQueueSafe: what the work-stealing queue promises to its threads

    The theorems on the queue of [TaskQueue], from the invariant of [TaskQueueSpec]: every
    run is a run of the deque, no task is lost or handed out twice, every operation returns
    within eight of its own accesses whatever the others do, and the functions of one
    thread are those accesses made in a row. *)

From stdpp Require Import list.
From S2P Require Import Prelude GlobalDefs TaskQueue TaskQueueSpec.

(* ------------------------------------------------------------------ *)
(** ** The functions and the accesses *)

Section Alone.
Context {E : Type}.
Implicit Types (q : TaskQueue E) (xs : list E) (t : E).

(** A thread whose accesses nothing interrupts. *)
Fixpoint owner_alone (fuel : nat) q (o : owner_pc E) : option (event E * TaskQueue E) :=
  match fuel with
  | O => None
  | S fuel =>
      '(q, o, ev) ← owner_step q o;
      match ev with Some e => Some (e, q) | None => owner_alone fuel q o end
  end.

Fixpoint thief_alone (fuel : nat) (i : nat) q (p : thief_pc E) : option (event E * TaskQueue E) :=
  match fuel with
  | O => None
  | S fuel =>
      '(q, p, ev) ← thief_step i q p;
      match ev with Some e => Some (e, q) | None => thief_alone fuel i q p end
  end.

Lemma Age_eqb_refl a : Age_eqb a a = true.
Proof using Type. apply Z.eqb_refl. Qed.

Lemma push_alone q t :
  owner_alone 5 q (PushReadBottom t) = '(ok, q') ← push q t; Some (Pushed t ok, q').
Proof using Type.
  cbn. unfold push, push_slow. destruct (_ <? _); cbn; [by destruct (set_elem q (bottom q) t)|].
  destruct (_ =? _); cbn; [by destruct (set_elem q (bottom q) t)|done].
Qed.

Lemma pop_local_alone q :
  owner_alone 8 q PopReadBottom = '(r, q') ← pop_local q; Some (PoppedLocal r, q').
Proof using Type.
  cbn. unfold pop_local. destruct (_ =? 0); cbn; [done|].
  destruct (arr_get _ _) as [t|]; cbn; [|done]. destruct (0 <? _); cbn; [done|].
  unfold pop_local_slow, Age_cmpxchg. cbn. rewrite Age_eqb_refl.
  by destruct (_ =? top (age q)).
Qed.

Lemma pop_global_alone i q :
  thief_alone 4 i q StealReadAge = '(r, q') ← pop_global q; Some (PoppedGlobal i r, q').
Proof using Type.
  cbn. unfold pop_global, Age_cmpxchg. destruct (_ =? 0); cbn; [done|].
  destruct (arr_get _ _) as [t|]; cbn; [|done]. by rewrite Age_eqb_refl.
Qed.

(** The functions [push], [pop_local] and [pop_global] are the accesses of the step relation
    made without interruption: five, eight and four of them are enough, and they leave the
    same queue and return the same result, the undefined accesses outside the array included. *)
Theorem functions_are_steps_alone q t i :
  owner_alone 5 q (PushReadBottom t) = ('(ok, q') ← push q t; Some (Pushed t ok, q')) /\
  owner_alone 8 q PopReadBottom = ('(r, q') ← pop_local q; Some (PoppedLocal r, q')) /\
  thief_alone 4 i q StealReadAge = ('(r, q') ← pop_global q; Some (PoppedGlobal i r, q')).
Proof using Type. split_and!; [apply push_alone | apply pop_local_alone | apply pop_global_alone]. Qed.

(* ------------------------------------------------------------------ *)
(** ** How far an operation is from its return *)

Definition owner_rank (o : owner_pc E) : nat :=
  match o with
  | OwnerIdle => 8
  | PopReadBottom => 7 | PopReadTop _ => 6 | PopStoreBottom _ => 5 | PopReadElem _ => 4
  | PopReadTopAgain _ _ => 3 | PopReadAge _ _ => 2 | PopExchange _ _ _ => 1 | PopSetAge _ => 0
  | PushReadBottom _ => 4 | PushReadTop _ _ => 3 | PushSlowReadBottom _ => 2
  | PushStoreElem _ _ => 1 | PushStoreBottom _ _ => 0
  end.

Definition thief_rank (p : thief_pc E) : nat :=
  match p with
  | ThiefIdle => 4 | StealReadAge => 3 | StealReadBottom _ => 2 | StealReadElem _ => 1
  | StealExchange _ _ => 0
  end.

Lemma owner_step_rank q o q' o' ev : owner_step q o = Some (q', o', ev) ->
  match ev with Some _ => o' = OwnerIdle | None => (owner_rank o' < owner_rank o)%nat end.
Proof using Type.
  unfold owner_step, Age_cmpxchg. intros H. destruct o; binds; simpl; try done; try lia;
    repeat match goal with H : (if ?b then _ else _) = Some _ |- _ => destruct b; binds end;
    simpl; try done; lia.
Qed.

Lemma thief_step_rank i q p q' p' ev : thief_step i q p = Some (q', p', ev) ->
  match ev with Some _ => p' = ThiefIdle | None => (thief_rank p' < thief_rank p)%nat end.
Proof using Type.
  unfold thief_step, Age_cmpxchg. intros H. destruct p; binds; simpl; try done; lia.
Qed.

(** Within the invariant the next access is never outside the array. *)
Lemma owner_step_enabled n q xs o : holds n q (popping o) xs -> owner_ok n q xs o -> o <> OwnerIdle ->
  exists r, owner_step q o = Some r.
Proof using Type.
  intros [He Hb _ _ _ _] Ho Hidle. unfold owner_step, set_elem, Age_cmpxchg.
  destruct o as [|t'|t' b|t'|t' b|t' b| | b| b| b| b t'| b t'| b t' old|new]; simpl in *; try done;
    repeat case_match; eauto.
  - destruct Ho as [-> _]. rewrite arr_set_Some by lia. simpl. eauto.
  - subst. destruct (arr_get_Some (elems q) (bottom q)) as [x ->]; [lia|]. simpl. eauto.
Qed.

Lemma thief_step_enabled n k i q xs p : holds n q k xs -> thief_ok n q xs p -> p <> ThiefIdle ->
  exists r, thief_step i q p = Some r.
Proof using Type.
  intros [He _ _ _ _ _] Hp Hidle. unfold thief_step, Age_cmpxchg. destruct p; simpl in *; try done;
    repeat case_match; eauto.
  destruct Hp as ([? _] & _). destruct (arr_get_Some (elems q) (top oldAge)) as [x ->]; [lia|].
  simpl. eauto.
Qed.

Lemma owner_alone_ok fuel : forall n q o xs, no_wrap (n + fuel) -> holds n q (popping o) xs ->
  owner_ok n q xs o -> o <> OwnerIdle -> (owner_rank o < fuel)%nat ->
  exists e q' xs', owner_alone fuel q o = Some (e, q') /\ deque_event xs e xs' /\
    holds (n + fuel) q' 0 xs'.
Proof using Type.
  induction fuel as [|fuel IH]; intros n q o xs Hn H Ho Hidle Hrank; [lia|]. cbn [owner_alone].
  destruct (owner_step_enabled n q xs o H Ho Hidle) as ([[q1 o1] ev] & Hs). rewrite Hs.
  assert (Hn1 : no_wrap (S n)) by (unfold no_wrap in *; lia).
  destruct (owner_step_kept n Hn1 q xs o q1 o1 ev H Ho Hs) as (xs1 & Hd & H1 & Ho1 & _).
  pose proof (owner_step_rank _ _ _ _ _ Hs) as Hr. cbn. destruct ev as [e|]; cbn in Hd.
  - exists e, q1, xs1. split_and!; [done..|]. subst o1. by apply (holds_weaken (S n)); [lia|].
  - subst xs1. replace (n + S fuel)%nat with (S n + fuel)%nat in * by lia.
    apply IH; try done; [|lia]. intros ->. simpl in Hr. destruct o; simpl in *; try done; lia.
Qed.
End Alone.

(* ------------------------------------------------------------------ *)
(** ** One thread *)

Section OneThread.
Context {E : Type}.
Implicit Types (q : TaskQueue E) (xs : list E) (t : E).

Lemma push_ok n q xs t : no_wrap (n + 5) -> holds n q 0 xs ->
  let ok := bool_decide (len xs < max_elems) in
  exists q', push q t = Some (ok, q') /\ holds (n + 5) q' 0 (if ok then xs ++ [t] else xs).
Proof using Type.
  intros Hn H ok.
  destruct (owner_alone_ok 5 n q (PushReadBottom t) xs) as (e & q' & xs' & He & Hd & H'); try done; [simpl; lia|].
  rewrite push_alone in He. apply obind_inv in He as ([ok' q1] & Hp & [= <- <-]). exists q1.
  inversion Hd; subst ok' xs'; unfold ok.
  - rewrite bool_decide_eq_true_2 by done. by split.
  - rewrite bool_decide_eq_false_2 by lia. subst xs. by split.
Qed.

Lemma pop_local_ok n q xs : no_wrap (n + 8) -> holds n q 0 xs ->
  exists q', pop_local q = Some (list.last xs, q') /\ holds (n + 8) q' 0 (removelast xs).
Proof using Type.
  intros Hn H.
  destruct (owner_alone_ok 8 n q PopReadBottom xs) as (e & q' & xs' & He & Hd & H'); try done; [simpl; lia|].
  rewrite pop_local_alone in He. apply obind_inv in He as ([r q1] & Hp & [= <- <-]). exists q1.
  inversion Hd; subst.
  - by rewrite last_snoc, removelast_last.
  - by split.
Qed.

Lemma pop_global_ok n q xs : no_wrap (n + 1) -> holds n q 0 xs ->
  exists q', pop_global q = Some (head xs, q') /\ holds (n + 1) q' 0 (tail xs).
Proof using Type.
  intros Hn H. rewrite Nat.add_1_r in *. unfold pop_global.
  rewrite (holds_nonempty n q 0 xs) by (done || lia).
  destruct xs as [|t xs]; [exists q; split; [done | by apply holds_S]|]. simpl length.
  destruct (Z.leb_spec (Z.of_nat (S (length xs))) 0); [lia|].
  destruct (Z.eqb_spec (Z.of_nat (S (length xs)) - 0) 0); [lia|].
  pose proof (holds_content _ _ _ _ H) as [Hc _]%content_cons. rewrite ring_small in Hc by apply H.
  rewrite Hc. cbn. unfold Age_cmpxchg. rewrite Age_eqb_refl.
  eexists. split; [done|]. by eapply holds_steal.
Qed.

Lemma peek_ok n q xs : holds n q 0 xs -> peek q = bool_decide (xs <> []).
Proof using Type.
  intros [He Hb Ha Hs Hi Hc]. unfold peek. rewrite Z.add_0_r, (ring_small (bottom q)) in Hi by done.
  apply eq_true_iff_eq. rewrite negb_true_iff, Z.eqb_neq, bool_decide_eq_true. split; intros Hne.
  - intros ->. apply Hne. rewrite Hi. simpl. rewrite Z.add_0_r. apply ring_small, Ha.
  - intros Eq. rewrite Eq in Hi. rewrite <- (ring_small (top (age q))) in Hi at 1 by apply Ha.
    assert (max_elems < N) by done. apply ring_inj in Hi; [|lia]. apply Hne, nil_length_inv. lia.
Qed.

(** C30: while one thread at a time uses it, and before its 32-bit age tag wraps, the queue is a bounded deque: [push] appends unless there
    are [max_elems] tasks, [pop_local] takes the newest task and [pop_global] the oldest, both
    report an empty queue exactly, [size] and [peek] are exact, and [oops_do] visits every task
    once from the newest to the oldest. *)
Theorem one_thread_spec n q xs t : no_wrap (n + 8) -> holds n q 0 xs ->
  (let ok := bool_decide (len xs < max_elems) in
   exists q', push q t = Some (ok, q') /\ holds (n + 5) q' 0 (if ok then xs ++ [t] else xs)) /\
  (exists q', pop_local q = Some (list.last xs, q') /\ holds (n + 8) q' 0 (removelast xs)) /\
  (exists q', pop_global q = Some (head xs, q') /\ holds (n + 1) q' 0 (tail xs)) /\
  queue_size q = len xs /\ peek q = bool_decide (xs <> []) /\ oops_do q = Some (rev xs).
Proof using Type.
  intros Hn H. unfold no_wrap in Hn. split_and!.
  - apply push_ok; [unfold no_wrap; lia | done].
  - by apply pop_local_ok.
  - apply pop_global_ok; [unfold no_wrap; lia | done].
  - by apply (queue_size_ok n).
  - by apply (peek_ok n).
  - by apply (oops_do_ok n).
Qed.
End OneThread.

(* ------------------------------------------------------------------ *)
(** ** All threads *)

Section Threads.
Context {E : Type}.
Implicit Types (q : TaskQueue E) (xs : list E) (t : E) (c : config E).
Implicit Types (tr : list (actor * option (event E))).

Instance actor_eq_dec : EqDecision actor.
Proof using Type. solve_decision. Defined.

(** The steps of a thread in a run, and what it returned. *)
Definition steps_of (a : actor) tr : list (actor * option (event E)) := filter (fun s => s.1 = a) tr.
Definition returns_of (a : actor) tr : list (event E) := events (steps_of a tr).

Definition rank c (a : actor) : nat :=
  match a with
  | Owner => owner_rank (owner c)
  | Thief i => default 0%nat (thief_rank <$> thieves c !! i)
  end.

Lemma rank_bound c a : (rank c a <= 8)%nat.
Proof using Type.
  destruct a as [|i]; simpl.
  - destruct (owner c); simpl; lia.
  - destruct (thieves c !! i) as [[]|]; simpl; lia.
Qed.

Lemma step_rank c a ev c' b : tq_step c a ev c' ->
  (a = b -> ev = None -> (rank c' b < rank c b)%nat) /\ (a <> b -> rank c' b = rank c b).
Proof using Type.
  assert (Hins : forall (ths : list (thief_pc E)) i p p', ths !! i = Some p -> <[i := p']> ths !! i = Some p').
  { intros ths i p p' Hi. apply list_lookup_insert_eq. by eapply lookup_lt_Some. }
  assert (Hother : forall (ths : list (thief_pc E)) i j p', Thief i <> Thief j -> <[i := p']> ths !! j = ths !! j).
  { intros ths i j p' Hne. apply list_lookup_insert_ne. congruence. }
  intros Hs. destruct Hs as [q ths t|q ths|q o ths i Hi|q o ths q' o' ev Hs|q o ths i p q' p' ev Hi Hs];
    (split; [intros <- Hev | intros Hne]); simpl; try done; try lia;
    try (destruct b as [|j]; [done|]; simpl; try rewrite Hother by done; done).
  - rewrite Hi. erewrite Hins by done. simpl. lia.
  - subst ev. by apply owner_step_rank in Hs.
  - rewrite Hi. erewrite Hins by done. simpl. subst ev. by apply thief_step_rank in Hs.
Qed.

Lemma steps_snoc a tr b ev : steps_of a (tr ++ [(b, ev)]) =
  steps_of a tr ++ (if decide (b = a) then [(b, ev)] else []).
Proof using Type.
  unfold steps_of. by rewrite list.filter_app.
Qed.

Lemma run_rank c tr c' a : tq_run c tr c' -> returns_of a tr = [] ->
  (length (steps_of a tr) + rank c' a <= rank c a)%nat.
Proof using Type.
  unfold returns_of. intros Hr. induction Hr as [c|c tr c' b ev c'' Hr IH Hs]; intros Hret; [simpl; lia|].
  rewrite steps_snoc in *. unfold events in *. rewrite omap_app in Hret. apply app_eq_nil in Hret as [Hret Hev].
  specialize (IH Hret). rewrite length_app. destruct (step_rank _ _ _ _ a Hs) as [Hsame Hother].
  destruct (decide (b = a)) as [->|Hne]; simpl in *.
  - destruct ev; [done|]. specialize (Hsame eq_refl eq_refl). lia.
  - rewrite (Hother Hne). lia.
Qed.

(** A thread that is not in the middle of a call can start one, one that is can go on. *)
Lemma never_stuck n c xs a : tq_inv n c xs -> a = Owner \/ (exists i p, a = Thief i /\ thieves c !! i = Some p) ->
  exists ev c', tq_step c a ev c'.
Proof using Type.
  destruct c as [q o ths]. intros [H Ho Hths] Ha. simpl in *. destruct Ha as [->|(i & p & -> & Hi)].
  - assert (Hcase : o = OwnerIdle \/ o <> OwnerIdle) by (destruct o; auto; by right).
    destruct Hcase as [->|Hidle]; [do 2 eexists; by apply call_pop|].
    destruct (owner_step_enabled n q xs o H Ho Hidle) as ([[q' o'] ev] & Hs).
    do 2 eexists. by apply owner_access.
  - assert (Hcase : p = ThiefIdle \/ p <> ThiefIdle) by (destruct p; auto; by right).
    destruct Hcase as [->|Hidle]; [do 2 eexists; by apply call_steal|].
    pose proof (Forall_lookup_1 _ _ _ _ Hths Hi) as Hp.
    destruct (thief_step_enabled n _ i q xs p H Hp Hidle) as ([[q' p'] ev] & Hs).
    do 2 eexists. by eapply thief_access.
Qed.

Lemma run_thieves c tr c' : tq_run c tr c' -> length (thieves c') = length (thieves c).
Proof using Type.
  induction 1 as [|c tr c' a ev c'' Hr IH Hs]; [done|]. rewrite <- IH.
  destruct Hs; simpl; by rewrite ?length_insert.
Qed.

(** C13: No thread ever waits for another: in every reachable state each thread has a next
    access that stays inside the array, and it cannot make nine steps without returning
    from an operation, however the steps of the other threads fall between its own. *)
Theorem queue_wait_free garbage k tr c a : len garbage = N -> no_wrap (length tr) ->
  tq_run (start garbage k) tr c -> a = Owner \/ (exists i, a = Thief i /\ (i < k)%nat) ->
  (exists ev c1, tq_step c a ev c1) /\
  (forall tr' c', tq_run c tr' c' -> returns_of a tr' = [] -> (length (steps_of a tr') <= 8)%nat).
Proof using Type.
  intros Hl Hn Hr Ha. split.
  - destruct (tq_run_inv garbage k tr c Hl Hn Hr) as (xs & _ & Hinv).
    apply (never_stuck _ _ _ a Hinv). destruct Ha as [->|(i & -> & Hi)]; [by left|].
    apply run_thieves in Hr. simpl in Hr. rewrite length_replicate in Hr.
    destruct (lookup_lt_is_Some_2 (thieves c) i ltac:(lia)) as [p Hp]. eauto.
  - intros tr' c' Hr' Hret. pose proof (run_rank c tr' c' a Hr' Hret). pose proof (rank_bound c a). lia.
Qed.

(** C11: Linearizability: in every interleaving of an owner and any number of thieves, what the
    operations return, in the order of their last accesses, is a run of the bounded deque, and
    whenever the owner is between operations the queue holds the deque's tasks. *)
Theorem queue_linearizable garbage k tr c : len garbage = N -> no_wrap (length tr) ->
  tq_run (start garbage k) tr c ->
  exists xs, deque_run [] (events tr) xs /\ len xs <= max_elems /\
    (owner c = OwnerIdle -> queue_size (queue c) = len xs /\
       content_at (elems (queue c)) (top (age (queue c))) xs).
Proof using Type.
  intros Hl Hn Hr. destruct (tq_run_inv garbage k tr c Hl Hn Hr) as (xs & Hd & [H _ _]).
  exists xs. split_and!; [done | apply H |]. intros Ho. rewrite Ho in H.
  split; [by eapply queue_size_ok | apply H].
Qed.

(** The tasks accepted, and the tasks handed out. *)
Definition pushed (evs : list (event E)) : list E :=
  omap (fun e => match e with Pushed t true => Some t | _ => None end) evs.
Definition taken (evs : list (event E)) : list E :=
  omap (fun e => match e with PoppedLocal r | PoppedGlobal _ r => r | _ => None end) evs.

Lemma deque_conserves xs0 evs xs : deque_run xs0 evs xs ->
  Permutation (xs0 ++ pushed evs) (taken evs ++ xs).
Proof using Type.
  unfold pushed, taken. induction 1 as [|xs0 evs xs' e xs'' _ IH He]; simpl; [by rewrite app_nil_r|].
  rewrite !omap_app. destruct He; simpl in *; rewrite ?app_nil_r in *; try done.
  - rewrite app_assoc, IH, <- app_assoc. done.
  - rewrite IH. rewrite <- (app_assoc (omap _ evs)). by rewrite (Permutation_app_comm xs [t]).
  - rewrite IH. by rewrite <- app_assoc.
Qed.

(** C12: No task is lost and none is handed out twice: when the owner is between operations, the
    tasks whose push was accepted are, as a multiset, those that were popped or stolen and
    those that [oops_do] still visits. *)
Theorem no_task_lost garbage k tr c : len garbage = N -> no_wrap (length tr) ->
  tq_run (start garbage k) tr c -> owner c = OwnerIdle ->
  exists rest, oops_do (queue c) = Some rest /\
    Permutation (pushed (events tr)) (taken (events tr) ++ rest).
Proof using Type.
  intros Hl Hn Hr Ho. destruct (tq_run_inv garbage k tr c Hl Hn Hr) as (xs & Hd & [H _ _]).
  rewrite Ho in H. exists (rev xs). split; [by eapply oops_do_ok|].
  apply deque_conserves in Hd. simpl in Hd. by rewrite Hd, <- Permutation_rev.
Qed.
End Threads.

(** Both kinds of reference come back from a [StarTask], and it knows which it is. *)
Lemma star_task_roundtrip p : in_u 64 p -> Z.even p = true ->
  as_oop (StarTask_oop p) = p /\ is_narrow (StarTask_oop p) = false /\
  as_narrow (StarTask_narrow p) = p /\ is_narrow (StarTask_narrow p) = true.
Proof.
  intros Hp He. assert (H0 : Z.testbit p 0 = false) by (rewrite Z.bit0_odd, <- Z.negb_even; by rewrite He).
  assert (Hm : forall i, 0 <= i -> Z.testbit COMPRESSED_OOP_MASK i = (i =? 0)).
  { intros i Hi. change COMPRESSED_OOP_MASK with (2 ^ 0). rewrite Z.pow2_bits_eqb by lia. apply Z.eqb_sym. }
  assert (Hland : forall x, Z.land x COMPRESSED_OOP_MASK = Z.b2z (Z.testbit x 0)).
  { intros x. change COMPRESSED_OOP_MASK with (Z.ones 1). by rewrite Z.land_ones, Z.bit0_mod by lia. }
  unfold as_oop, StarTask_oop, is_narrow. rewrite !Hland, H0. unfold StarTask_narrow.
  rewrite Z.lor_spec, H0, Hm by lia. split_and!; try done. apply Z.bits_inj'. intros i Hi.
  unfold as_narrow. rewrite Z.land_spec, Z.lor_spec, unot_testbit, Hm by lia.
  destruct (Z.eqb_spec i 0) as [->|]; [by rewrite H0|]. destruct (Z.ltb_spec i 64); simpl.
  - by rewrite orb_false_r, andb_true_r.
  - rewrite andb_false_r. symmetry. by apply (in_u_testbit 64).
Qed.

(* ------------------------------------------------------------------ *)
(** ** A race for the last task *)

(** A queue with one task in an array of any contents. *)
Definition one_task {E} (garbage : list E) (x : E) : TaskQueue E :=
  {| bottom := 1; age := Age_zero; elems := <[O := x]> garbage |}.

Abbreviation toy_array := (replicate (Z.to_nat N) 0).

Lemma toy_array_length : len toy_array = N.
Proof. rewrite length_replicate. by rewrite Z2Nat.id. Qed.

Lemma one_task_get {E} (garbage : list E) x : len garbage = N -> arr_get (<[O := x]> garbage) 0 = Some x.
Proof.
  intros Hl. unfold arr_get. simpl. apply list_lookup_insert_eq. assert (0 < N) by done. lia.
Qed.

Lemma one_task_holds {E} (garbage : list E) x : len garbage = N -> holds 0 (one_task garbage x) 0 [x].
Proof.
  intros Hl. split; cbn [elems bottom age one_task]; try done.
  - by rewrite length_insert.
  - apply content_cons. split; [by apply one_task_get | intros i y Hi; by rewrite lookup_nil in Hi].
Qed.

Lemma no_tasks_holds {E} (garbage : list E) : len garbage = N -> holds 0 (new_queue garbage) 0 [].
Proof. intros Hl. by split. Qed.

(** The owner pushes a task; a thief gets as far as its exchange, when the owner pops the task by
    an exchange of its own; then the thief loses. *)
Abbreviation race_trace := (replicate 4 (Owner, None) ++ [(Owner, Some (Pushed 7 true))] ++
  replicate 4 (Thief 0, None) ++ replicate 7 (Owner, None) ++
  [(Owner, Some (PoppedLocal (Some 7))); (Thief 0, Some (PoppedGlobal 0 None))]).
Abbreviation race_end := {| queue := {| bottom := 0; age := {| top := 0; tag := 1 |};
                                        elems := <[O := 7]> toy_array |};
                            owner := OwnerIdle; thieves := [ThiefIdle] |}.

Ltac owner_moves R := eapply run_step in R; [|apply owner_access; cbn; reflexivity]; cbn in R.
Ltac thief_moves R :=
  eapply run_step in R; [|eapply (thief_access _ _ _ 0); [reflexivity | cbn; reflexivity]]; cbn in R.

Lemma steal_race_run (garbage : list Z) : len garbage = N ->
  tq_run (start garbage 1) race_trace
    {| queue := {| bottom := 0; age := {| top := 0; tag := 1 |}; elems := <[O := 7]> garbage |};
       owner := OwnerIdle; thieves := [ThiefIdle] |}.
Proof.
  intros Hl. pose proof (run_nil (start garbage 1)) as R. pose proof (one_task_get garbage 7 Hl) as Hg.
  assert (Hs : arr_set garbage 0 7 = Some (<[O := 7]> garbage))
    by (rewrite arr_set_Some; [done | assert (0 < N) by done; lia]).
  eapply run_step in R; [|apply (call_push _ _ 7)]. cbn in R.
  do 2 owner_moves R.
  eapply run_step in R; [|apply owner_access; cbn; unfold set_elem; cbn; rewrite Hs; reflexivity]. cbn in R.
  owner_moves R.
  eapply run_step in R; [|apply (call_steal _ _ _ 0); reflexivity]. cbn in R.
  do 2 thief_moves R.
  eapply run_step in R; [|eapply (thief_access _ _ _ 0); [reflexivity | exact (bind_Some _ _ _ Hg)]]. cbn in R.
  eapply run_step in R; [|apply call_pop]. cbn in R.
  do 3 owner_moves R.
  eapply run_step in R; [|apply owner_access; exact (bind_Some _ _ _ Hg)]. cbn in R.
  do 3 owner_moves R.
  thief_moves R.
  exact R.
Qed.

Lemma one_thread_spec_witness :
  let q := one_task toy_array 7 in
  (exists q', push q 9 = Some (true, q') /\ holds 5 q' 0 [7; 9]) /\
  (exists q', pop_local q = Some (Some 7, q') /\ holds 8 q' 0 []) /\
  (exists q', pop_global q = Some (Some 7, q') /\ holds 1 q' 0 []) /\
  queue_size q = 1 /\ peek q = true /\ oops_do q = Some [7].
Proof.
  assert (Hn : no_wrap (0 + 8)) by done.
  exact (one_thread_spec 0 (one_task toy_array 7) [7] 9 Hn (one_task_holds toy_array 7 toy_array_length)).
Defined.

Lemma queue_wait_free_witness :
  (exists ev c1, tq_step race_end (Thief 0) ev c1) /\
  (forall tr' c', tq_run race_end tr' c' -> returns_of (Thief 0) tr' = [] ->
     (length (steps_of (Thief 0) tr') <= 8)%nat).
Proof.
  assert (Hn : no_wrap (length (race_trace : list (actor * option (event Z))))) by done.
  exact (queue_wait_free toy_array 1 race_trace race_end (Thief 0) toy_array_length Hn
           (steal_race_run toy_array toy_array_length) (or_intror (ex_intro _ 0%nat (conj eq_refl (le_n 1))))).
Defined.

Lemma queue_linearizable_witness : exists xs : list Z,
  deque_run [] [Pushed 7 true; PoppedLocal (Some 7); PoppedGlobal 0 None] xs /\ len xs <= max_elems.
Proof.
  assert (Hn : no_wrap (length (race_trace : list (actor * option (event Z))))) by done.
  destruct (queue_linearizable toy_array 1 race_trace race_end toy_array_length Hn
              (steal_race_run toy_array toy_array_length)) as (xs & Hd & Hl & _).
  exists xs. split; [exact Hd | exact Hl].
Defined.

Lemma no_task_lost_witness : exists rest : list Z,
  oops_do (queue race_end) = Some rest /\ Permutation [7] ([7] ++ rest).
Proof.
  assert (Hn : no_wrap (length (race_trace : list (actor * option (event Z))))) by done.
  destruct (no_task_lost toy_array 1 race_trace race_end toy_array_length Hn
              (steal_race_run toy_array toy_array_length) eq_refl) as (rest & Ho & Hp).
  exists rest. split; [exact Ho | exact Hp].
Defined.
