(* ===== verification/ParkMiller.v ===== *)
(** * ParkMiller: the random numbers of the stealing threads

    [TaskQueueSetSuper::randomParkAndMiller] of utilities/taskqueue.cpp multiplies the seed by
    16807 modulo the Mersenne prime 2^31 - 1, by Schrage's method, in 32-bit signed
    arithmetic.  The multiplier generates the multiplicative group of the modulus, so from any seed
    the generator reaches every other one; the loops that draw until they
    get a suitable number ([TaskQueueSet]) end for that reason. *)

From Stdlib Require Import Zpow_facts Zdivisibility.
From stdpp Require Import list.
From S2P Require Import Prelude GlobalDefs.

Definition pm_a : Z := 16807.
Definition pm_m : Z := 2147483647.
Definition pm_q : Z := 127773.
Definition pm_r : Z := 2836.

(** The new seed, which is also the result. *)
Definition randomParkAndMiller (seed0 : Z) : Z :=
  let hi := Z.quot seed0 pm_q in
  let lo := Z.rem seed0 pm_q in
  let test := s32 (s32 (pm_a * lo) - s32 (pm_r * hi)) in
  if 0 <? test then test else s32 (test + pm_m).

(** The seeds that the generator keeps apart from its fixed points. *)
Definition seed_ok (s : Z) : Prop := 0 < s < pm_m.

Lemma pm_inverse x : (pm_a * x) mod pm_m = 0 -> x mod pm_m = 0.
Proof.
  intros H. rewrite <- (Z.mul_1_l x). change 1 with (1407677000 * pm_a mod pm_m).
  rewrite Zmult_mod_idemp_l, <- Z.mul_assoc, <- Zmult_mod_idemp_r, H. done.
Qed.

(** Schrage's decomposition: nothing overflows, and the result is the product. *)
Lemma randomParkAndMiller_ok s : seed_ok s ->
  randomParkAndMiller s = (pm_a * s) mod pm_m /\ seed_ok (randomParkAndMiller s).
Proof.
  unfold seed_ok. intros Hs. unfold randomParkAndMiller.
  rewrite Z.quot_div_nonneg, Z.rem_mod_nonneg by (unfold pm_q; lia).
  pose proof (Z.div_mod s pm_q ltac:(done)) as Hd.
  pose proof (Z.mod_pos_bound s pm_q ltac:(done)) as Hlo.
  set (hi := s / pm_q) in *. set (lo := s mod pm_q) in *.
  assert (Hhi : 0 <= hi <= 16807) by (unfold pm_q, pm_m in *; lia).
  assert (Hprod : pm_a * s = pm_a * lo - pm_r * hi + hi * pm_m) by (unfold pm_a, pm_q, pm_r, pm_m in *; lia).
  assert (Hw : forall x, - 2147483648 <= x < 2147483648 -> s32 x = x)
    by (intros x Hx; apply swrap_small; [lia|]; unfold in_s; simpl; lia).
  assert (Hne : (pm_a * s) mod pm_m <> 0).
  { intros Hz%pm_inverse. rewrite Z.mod_small in Hz; lia. }
  rewrite (Hw (pm_a * lo)), (Hw (pm_r * hi)), Hw by (unfold pm_a, pm_q, pm_r, pm_m in *; lia).
  set (test := pm_a * lo - pm_r * hi) in *.
  assert (Ht : - pm_m < test < pm_m) by (unfold test, pm_a, pm_q, pm_r, pm_m in *; lia).
  assert (Hmod : (pm_a * s) mod pm_m = test mod pm_m) by (rewrite Hprod; by apply Z.mod_add).
  destruct (Z.ltb_spec 0 test).
  - rewrite Hmod, Z.mod_small by lia. lia.
  - rewrite Hw by (unfold pm_m in *; lia).
    rewrite Hmod in Hne |- *. assert (test <> - pm_m /\ test <> 0) as [? ?].
    { split; intros E; apply Hne; rewrite E; done. }
    rewrite <- (Z.mod_add test 1 pm_m) by done. rewrite Z.mul_1_l, Z.mod_small; lia.
Qed.

(** The seed after [n] calls. *)
Fixpoint seed_after (n : nat) (s : Z) : Z :=
  match n with O => s | S n => seed_after n (randomParkAndMiller s) end.

Lemma seed_after_ok n : forall s, seed_ok s ->
  seed_ok (seed_after n s) /\ seed_after n s = (pm_a ^ Z.of_nat n * s) mod pm_m.
Proof.
  induction n as [|n IH]; intros s Hs.
  - cbn [seed_after]. rewrite Z.pow_0_r, Z.mul_1_l, Z.mod_small; [done|]. unfold seed_ok in Hs. lia.
  - cbn [seed_after]. destruct (randomParkAndMiller_ok s Hs) as [E H1].
    destruct (IH _ H1) as [H2 E2]. split; [done|]. rewrite E2, E, Zmult_mod_idemp_r.
    rewrite Nat2Z.inj_succ, Z.pow_succ_r by lia. f_equal. lia.
Qed.

(* ------------------------------------------------------------------ *)
(** ** The order of the multiplier *)

Definition unit_at (x : Z) : Prop := pm_a ^ x mod pm_m = 1.

Definition pm_period : Z := pm_m - 1.

Lemma unit_at_check x : 0 <= x -> unit_at x <-> Zpow_mod pm_a x pm_m = 1.
Proof. intros Hx. by rewrite Zpow_mod_correct. Qed.

Lemma unit_at_add x y : 0 <= x -> 0 <= y -> unit_at x -> unit_at (x + y) <-> unit_at y.
Proof.
  unfold unit_at. intros Hx Hy H. rewrite Z.pow_add_r by done.
  by rewrite <- Zmult_mod_idemp_l, H, Z.mul_1_l.
Qed.

Lemma unit_at_mul x k : 0 <= x -> 0 <= k -> unit_at x -> unit_at (x * k).
Proof.
  unfold unit_at. intros Hx Hk H. rewrite Z.pow_mul_r by done. rewrite Zpower_mod by done.
  rewrite H, Z.pow_1_l; done.
Qed.

Lemma unit_at_gcd y : 0 <= y -> forall x, 0 <= x -> unit_at x -> unit_at y -> unit_at (Z.gcd x y).
Proof.
  intros Hy0. pattern y. apply (Z_lt_induction _); [|done]. clear y Hy0.
  intros y IH x Hx Hux Huy. destruct (Z.eqb_spec y 0) as [->|Hne].
  { by rewrite Z.gcd_0_r, Z.abs_eq. }
  destruct (decide (y < 0)).
  { exfalso. unfold unit_at in Huy. rewrite Z.pow_neg_r in Huy by done. done. }
  rewrite Z.gcd_comm, <- (Z.gcd_mod x y) by done. pose proof (Z.mod_pos_bound x y ltac:(lia)).
  rewrite Z.gcd_comm. apply IH; [lia|lia|done|].
  pose proof (Z.div_mod x y Hne) as Hd. pose proof (Z.div_pos x y Hx ltac:(lia)).
  rewrite Hd in Hux. apply (unit_at_add (y * (x / y))); [nia|lia| |done].
  apply unit_at_mul; [lia|done|done].
Qed.

Definition small_prime (p : Z) : bool :=
  (1 <? p) && forallb (fun n => negb (p mod n =? 0)) (seqZ 2 (p - 2)).

Lemma small_prime_ok p : small_prime p = true -> Z.prime p.
Proof.
  unfold small_prime. intros H. apply andb_prop in H as [H1 H]. apply Z.ltb_lt in H1.
  split; [done|]. intros n Hn Hd. rewrite forallb_forall in H.
  specialize (H n). rewrite <- list_elem_of_In, elem_of_seqZ in H. specialize (H ltac:(lia)).
  apply Z.mod_divide in Hd; [|lia]. by rewrite Hd in H.
Qed.

(** The primes of the period, with multiplicity. *)
Definition period_primes : list Z := [2; 3; 3; 7; 11; 31; 151; 331].

Lemma period_factors : foldr Z.mul 1 period_primes = pm_period.
Proof. reflexivity. Qed.

Lemma period_primes_prime : Forall Z.prime period_primes.
Proof.
  eapply List.Forall_impl; [apply small_prime_ok|]. repeat constructor.
Qed.

Lemma period_primes_pos p : p ∈ period_primes -> 0 < p.
Proof.
  assert (Hpos : Forall (fun p => 0 < p) period_primes) by (repeat constructor).
  rewrite list.Forall_forall in Hpos. apply Hpos.
Qed.

(** A divisor of a product that is coprime to all its factors is trivial. *)
Lemma coprime_product d ps : 0 < d -> Forall Z.prime ps -> Forall (fun p => ~ (p | d)) ps ->
  Z.coprime d (foldr Z.mul 1 ps).
Proof.
  intros Hd Hp Hn. induction ps as [|p ps IH]; simpl; [apply Z.coprime_1_r|].
  apply list.Forall_cons in Hp as [Hp Hps]. apply list.Forall_cons in Hn as [Hn Hns].
  apply Z.coprime_mul_r; [|by apply IH]. by apply Z.Symmetric_coprime, Z.coprime_prime_l.
Qed.

Lemma period_divisor d : 1 < d -> (d | pm_period) -> exists p, p ∈ period_primes /\ (p | d).
Proof.
  intros Hd Hdiv. destruct (decide (Forall (fun p => d mod p <> 0) period_primes)) as [Hall|Hex].
  - exfalso. assert (Hrel : Z.coprime d (foldr Z.mul 1 period_primes)).
    { apply coprime_product; [lia | apply period_primes_prime |].
      eapply List.Forall_impl; [|exact Hall]. intros p Hp Hpd. apply Hp.
      destruct Hpd as [k ->]. apply Z_mod_mult. }
    rewrite period_factors in Hrel. assert (Hg : (d | 1)) by (rewrite <- Hrel; by apply Z.gcd_greatest).
    apply Z.divide_1_r_nonneg in Hg; lia.
  - apply not_Forall_Exists in Hex; [|intros ?; apply _]. apply list.Exists_exists in Hex as (p & Hp & Hz).
    exists p. split; [done|]. apply Z.mod_divide.
    + apply period_primes_pos in Hp. lia.
    + apply dec_stable. done.
Qed.

Lemma period_unit : unit_at pm_period.
Proof. apply unit_at_check; [done|]. vm_compute. reflexivity. Qed.

Lemma period_proper p : p ∈ period_primes -> ~ unit_at (pm_period / p).
Proof.
  intros Hp. assert (Hall : Forall (fun p => Zpow_mod pm_a (pm_period / p) pm_m <> 1) period_primes)
    by (repeat constructor; vm_compute; discriminate).
  rewrite list.Forall_forall in Hall. specialize (Hall p Hp). intros H. apply Hall.
  apply unit_at_check; [|done]. apply Z.div_pos; [done|]. by apply period_primes_pos.
Qed.

(** No smaller power of the multiplier is one. *)
Lemma order_full k : 0 < k < pm_period -> ~ unit_at k.
Proof.
  intros Hk Hu. pose proof (unit_at_gcd pm_period ltac:(done) k ltac:(lia) Hu period_unit) as Hg.
  set (g := Z.gcd k pm_period) in *.
  assert (Hgp : 0 < g) by (pose proof (Z.gcd_nonneg k pm_period); pose proof (Z.gcd_eq_0_l k pm_period); lia).
  assert (Hgk : g <= k) by (apply Z.divide_pos_le; [lia | apply Z.gcd_divide_l]).
  destruct (Z.gcd_divide_r k pm_period) as [d Hd]. fold g in Hd.
  assert (1 < d) by nia.
  destruct (period_divisor d) as (p & Hp & [e He]); [done | by exists g; lia |].
  apply (period_proper p Hp). subst d.
  apply period_primes_pos in Hp.
  replace (pm_period / p) with (g * e).
  - apply unit_at_mul; [lia | | done]. nia.
  - rewrite Hd. replace (e * p * g) with (g * e * p) by lia. rewrite Z.div_mul; lia.
Qed.

(* ------------------------------------------------------------------ *)
(** ** Every seed is reached from every other *)

Lemma power_ok n : seed_ok (pm_a ^ Z.of_nat n mod pm_m).
Proof.
  assert (H1 : seed_ok 1) by done. destruct (seed_after_ok n 1 H1) as [H E].
  by rewrite E, Z.mul_1_r in H.
Qed.

Lemma power_cancel n x y : 0 <= n ->
  (pm_a ^ n * x) mod pm_m = (pm_a ^ n * y) mod pm_m -> x mod pm_m = y mod pm_m.
Proof.
  intros Hn E. assert (Hd : (pm_a ^ n * (x - y)) mod pm_m = 0).
  { rewrite Z.mul_sub_distr_l, Zminus_mod, E, Z.sub_diag. done. }
  assert (Hz : (x - y) mod pm_m = 0).
  { clear E. revert Hd. pattern n. apply natlike_ind; [|clear n Hn|done].
    - by rewrite Z.pow_0_r, Z.mul_1_l.
    - intros n Hn IH. rewrite Z.pow_succ_r, <- Z.mul_assoc by done. intros H%pm_inverse. auto. }
  apply Z.mod_divide in Hz as [k Hk]; [|done]. replace x with (y + k * pm_m) by lia. by apply Z.mod_add.
Qed.

(** The powers below the period are different. *)
Lemma powers_inj i j : 0 <= i -> i < j < pm_period -> pm_a ^ i mod pm_m <> pm_a ^ j mod pm_m.
Proof.
  intros Hi Hj E. apply (order_full (j - i)); [lia|]. unfold unit_at.
  replace j with (i + (j - i)) in E by lia. rewrite Z.pow_add_r in E by lia.
  rewrite <- (Z.mul_1_r (pm_a ^ i)) in E at 1. apply power_cancel in E; [|done]. by rewrite <- E.
Qed.

(** As many different values as there are places fill every place. *)
Lemma fills_places (M : Z) (f : Z -> Z) :
  (forall i, 0 <= i < M -> 1 <= f i <= M) ->
  (forall i j, 0 <= i -> i < j < M -> f i <> f j) ->
  forall s, 1 <= s <= M -> exists i, 0 <= i < M /\ f i = s.
Proof.
  intros Hf Hinj s Hs. assert (Hincl : incl (seqZ 1 M) (map f (seqZ 0 M))).
  { apply NoDup_length_incl.
    - apply NoDup_ListNoDup, list.NoDup_fmap_2_strong; [|apply NoDup_seqZ].
      intros i j Hi%elem_of_seqZ Hj%elem_of_seqZ E. apply dec_stable. intros Hne.
      destruct (decide (i < j)); [apply (Hinj i j); [lia..|done] | apply (Hinj j i); [lia..|done]].
    - rewrite length_map, !length_seqZ. reflexivity.
    - intros x Hx. apply in_map_iff in Hx as (i & <- & Hi).
      apply list_elem_of_In, elem_of_seqZ in Hi. apply list_elem_of_In, elem_of_seqZ.
      specialize (Hf i). lia. }
  specialize (Hincl s). rewrite <- list_elem_of_In, elem_of_seqZ in Hincl.
  specialize (Hincl ltac:(lia)). apply in_map_iff in Hincl as (i & <- & Hi).
  apply list_elem_of_In, elem_of_seqZ in Hi. exists i. split; [lia|done].
Qed.

(** So the powers are all the seeds. *)
Lemma seed_is_power s : seed_ok s -> exists i, 0 <= i < pm_period /\ s = pm_a ^ i mod pm_m.
Proof.
  intros Hs. destruct (fills_places pm_period (fun i => pm_a ^ i mod pm_m)) with (s := s) as (i & Hi & E).
  - intros i Hi. pose proof (power_ok (Z.to_nat i)) as Hp. rewrite Z2Nat.id in Hp by lia.
    unfold seed_ok, pm_period in *. lia.
  - apply powers_inj.
  - unfold seed_ok, pm_period in *. lia.
  - by exists i.
Qed.

Lemma seed_reached s t : seed_ok s -> seed_ok t ->
  exists n, (0 < n)%nat /\ Z.of_nat n <= pm_period /\ seed_after n s = t.
Proof.
  intros Hs Ht. destruct (seed_is_power s Hs) as (i & Hi & Es). destruct (seed_is_power t Ht) as (j & Hj & Et).
  assert (Hend : forall n, 0 < n -> pm_a ^ (n + i) mod pm_m = t -> seed_after (Z.to_nat n) s = t).
  { intros n Hn E. destruct (seed_after_ok (Z.to_nat n) s Hs) as [_ ->].
    rewrite Z2Nat.id, Es, Zmult_mod_idemp_r, <- Z.pow_add_r by lia. done. }
  destruct (decide (i < j)).
  - exists (Z.to_nat (j - i)). split_and!; [lia..|]. apply Hend; [lia|].
    by replace (j - i + i) with j by lia.
  - exists (Z.to_nat (j - i + pm_period)). split_and!; [lia..|]. apply Hend; [lia|].
    replace (j - i + pm_period + i) with (pm_period + j) by lia.
    rewrite Z.pow_add_r by (done || lia). rewrite <- Zmult_mod_idemp_l.
    rewrite (period_unit : _ = _), Z.mul_1_l. done.
Qed.

(** The generator of the stealing threads multiplies the seed by 16807 modulo 2^31 - 1 without
    any overflow of the 32-bit arithmetic, keeps the seeds between 1 and 2^31 - 2, and has full
    period: from any seed it draws any other within 2^31 - 2 calls. *)
Theorem randomParkAndMiller_spec s t : seed_ok s -> seed_ok t ->
  (randomParkAndMiller s = (pm_a * s) mod pm_m /\ seed_ok (randomParkAndMiller s)) /\
  exists n, (0 < n)%nat /\ Z.of_nat n <= pm_period /\ seed_after n s = t.
Proof. intros Hs Ht. split; [by apply randomParkAndMiller_ok | by apply seed_reached]. Qed.

Lemma randomParkAndMiller_spec_witness :
  randomParkAndMiller 17 = 285719 /\ seed_ok (randomParkAndMiller 17) /\
  exists n, (0 < n)%nat /\ Z.of_nat n <= pm_period /\ seed_after n 17 = 2147483646.
Proof.
  assert (H1 : seed_ok 17) by done. assert (H2 : seed_ok 2147483646) by done.
  destruct (randomParkAndMiller_spec 17 2147483646 H1 H2) as [[E H] Hn].
  split; [|split]; [rewrite E; reflexivity | exact H | exact Hn].
Defined.
