(* ===== verification/TaskQueueSet.v ===== *)
(** * TaskQueueSet: sets of work-stealing queues and the choice of a victim

    [GenericTaskQueueSet] of utilities/taskqueue.hpp: the registered queues, the ways of
    choosing the queue to steal from, and [steal], for a thread that finds the
    queues at rest.  The loops that draw random numbers until one suits make at most 2^31
    draws, which [ParkMiller] shows to be enough. *)

From stdpp Require Import list.
From S2P Require Import Prelude GlobalDefs TaskQueue TaskQueueSpec TaskQueueSafe ParkMiller.

(* ------------------------------------------------------------------ *)
(** ** Drawing until a number suits *)

(** [randomParkAndMiller(seed) % _n]: the number and the seed after it. *)
Definition random_below (n seed : Z) : Z * Z :=
  let seed := randomParkAndMiller seed in (u32 seed mod n, seed).

(** [while (again(k)) k = random], entered with a [k] that does not suit, for 2^[fuel] draws. *)
Fixpoint draw_until (fuel : nat) (again : Z -> bool) (n seed : Z) : ctl Z (Z * Z) :=
  match fuel with
  | O => let '(k, seed) := random_below n seed in if again k then Next seed else Return (k, seed)
  | S fuel =>
      match draw_until fuel again n seed with
      | Next seed => draw_until fuel again n seed
      | r => r
      end
  end.

Definition draw (again : Z -> bool) (n seed : Z) : option (Z * Z) :=
  match draw_until 31 again n seed with Return r => Some r | Next _ => None end.

(* ------------------------------------------------------------------ *)
(** ** The set *)

Section Sets.
Context {E : Type}.

(** [_n] and [_queues], a null pointer where no queue is registered. *)
Record TaskQueueSet := { n_queues : Z; queues : list (option (TaskQueue E)) }.

Definition new_set (n : Z) : TaskQueueSet :=
  {| n_queues := u32 n; queues := replicate (Z.to_nat n) None |}.

Definition register_queue (i : Z) (q : TaskQueue E) (s : TaskQueueSet) : option TaskQueueSet :=
  qs ← arr_set (queues s) i (Some q); Some {| n_queues := n_queues s; queues := qs |}.

Definition set_queue (s : TaskQueueSet) (i : Z) : option (option (TaskQueue E)) := arr_get (queues s) i.

(** [_queues[k]->size()] and [_queues[k]->pop_global(t)]. *)
Definition size_at (s : TaskQueueSet) (k : Z) : option Z :=
  q ← mjoin (set_queue s k); Some (queue_size q).
Definition pop_at (s : TaskQueueSet) (k : Z) : option (option E * TaskQueueSet) :=
  q ← mjoin (set_queue s k);
  '(r, q) ← pop_global q;
  s ← register_queue k q s; Some (r, s).

Definition steal_best_of_all (s : TaskQueueSet) (queue_num : Z) : option (option E * TaskQueueSet) :=
  if 2 <? n_queues s then
    '(best_k, best_sz) ← each_range 0 (n_queues s)
      (fun k '(best_k, best_sz) =>
         if k =? queue_num then Some (best_k, best_sz)
         else
           sz ← size_at s k;
           Some (if best_sz <? sz then (Some k, sz) else (best_k, best_sz))) (None, 0);
    if 0 <? best_sz then k ← best_k; pop_at s k else Some (None, s)
  else if n_queues s =? 2 then pop_at s (u32 (queue_num + 1) mod 2)
  else Some (None, s).

Definition steal_1_random (s : TaskQueueSet) (queue_num seed : Z)
    : option (option E * Z * TaskQueueSet) :=
  if 2 <? n_queues s then
    '(k, seed) ← draw (fun k => k =? queue_num) (n_queues s) seed;
    '(r, s) ← pop_at s 2; Some (r, seed, s)
  else if n_queues s =? 2 then
    '(r, s) ← pop_at s (u32 (queue_num + 1) mod 2); Some (r, seed, s)
  else Some (None, seed, s).

Definition steal_best_of_2 (s : TaskQueueSet) (queue_num seed : Z)
    : option (option E * Z * TaskQueueSet) :=
  if 2 <? n_queues s then
    '(k1, seed) ← draw (fun k => k =? queue_num) (n_queues s) seed;
    '(k2, seed) ← draw (fun k => (k =? queue_num) || (k =? k1)) (n_queues s) seed;
    sz1 ← size_at s k1;
    sz2 ← size_at s k2;
    '(r, s) ← pop_at s (if sz1 <? sz2 then k2 else k1); Some (r, seed, s)
  else if n_queues s =? 2 then
    '(r, s) ← pop_at s (u32 (queue_num + 1) mod 2); Some (r, seed, s)
  else Some (None, seed, s).

Definition steal (s : TaskQueueSet) (queue_num seed : Z) : option (option E * Z * TaskQueueSet) :=
  r ← for_range 0 (u32 (2 * n_queues s))
        (fun _ '(seed, s) =>
           '(r, seed, s) ← steal_best_of_2 s queue_num seed;
           Some (match r with Some t => Return (t, seed, s) | None => Next (seed, s) end)) (seed, s);
  Some (match r with
        | Return (t, seed, s) => (Some t, seed, s)
        | Next (seed, s) => (None, seed, s)
        end).

Definition set_peek (s : TaskQueueSet) : option bool :=
  r ← for_range 0 (n_queues s)
        (fun j _ => q ← mjoin (set_queue s j); Some (if peek q then Return true else Next tt)) tt;
  Some (match r with Return b => b | Next _ => false end).
End Sets.
Arguments TaskQueueSet : clear implicits.

(* ------------------------------------------------------------------ *)
(** ** The draws end *)

Lemma seed_after_add i j s : seed_after (i + j) s = seed_after j (seed_after i s).
Proof. revert s. induction i as [|i IH]; intros s; [done|]. apply IH. Qed.

(** Where a search for a number is after its draws. *)
Definition drawn (again : Z -> bool) (n s : Z) (fuel : nat) (c : ctl Z (Z * Z)) : Prop :=
  match c with
  | Return (k, s') =>
      again k = false /\ exists j, s' = seed_after j s /\ k = u32 s' mod n
  | Next s' =>
      s' = seed_after (2 ^ fuel) s /\
      forall j, (0 < j <= 2 ^ fuel)%nat -> again (u32 (seed_after j s) mod n) = true
  end.

Lemma draw_until_ok again n fuel : forall s, drawn again n s fuel (draw_until fuel again n s).
Proof.
  induction fuel as [|fuel IH]; intros s; cbn [draw_until].
  - unfold random_below. destruct (again _) eqn:Ea; simpl; [|split; [done | by exists 1%nat]].
    split; [done|]. intros j Hj. by replace j with 1%nat by lia.
  - pose proof (IH s) as H1. destruct (draw_until fuel again n s) as [s1|[k s1]]; [|done].
    destruct H1 as [-> Hall]. pose proof (IH (seed_after (2 ^ fuel) s)) as H2.
    assert (Hpow : (2 ^ S fuel = 2 ^ fuel + 2 ^ fuel)%nat) by (simpl; lia).
    destruct (draw_until fuel again n _) as [s2|[k s2]]; cbn [drawn] in *.
    + destruct H2 as [-> Hall2]. rewrite Hpow, seed_after_add. split; [done|]. intros j Hj.
      destruct (decide (j <= 2 ^ fuel)%nat); [apply Hall; lia|].
      replace j with (2 ^ fuel + (j - 2 ^ fuel))%nat by lia. rewrite seed_after_add. apply Hall2. lia.
    + destruct H2 as (Ha & j & -> & ->). split; [done|]. exists (2 ^ fuel + j)%nat.
      by rewrite seed_after_add.
Qed.

(** If some number below [n] suits, one is found. *)
Lemma draw_ok again n s r : 0 < n < pm_m -> seed_ok s -> 0 <= r < n -> again r = false ->
  exists k s', draw again n s = Some (k, s') /\ 0 <= k < n /\ again k = false /\ seed_ok s'.
Proof.
  intros Hn Hs Hr Ha. unfold draw. pose proof (draw_until_ok again n 31 s) as H.
  destruct (draw_until 31 again n s) as [s1|[k s1]].
  - exfalso. destruct H as [_ Hall]. set (t := if r =? 0 then n else r).
    assert (Ht : seed_ok t) by (unfold t, seed_ok in *; destruct (Z.eqb_spec r 0); lia).
    assert (Htr : t mod n = r).
    { unfold t. destruct (Z.eqb_spec r 0) as [->|]; [by apply Z.mod_same; lia | by apply Z.mod_small]. }
    destruct (seed_reached s t Hs Ht) as (j & Hj & Hle & E).
    specialize (Hall j). rewrite E, (uwrap_small 32), Htr, Ha in Hall; [|lia|].
    + assert (Hj2 : (0 < j <= 2 ^ 31)%nat); [|by specialize (Hall Hj2)].
      split; [done|]. apply Nat2Z.inj_le. rewrite Nat2Z.inj_pow. unfold pm_period, pm_m in Hle.
      change (Z.of_nat 2 ^ Z.of_nat 31) with 2147483648. lia.
    + unfold in_u, seed_ok, pm_m in *. change (2 ^ 32) with 4294967296. lia.
  - destruct H as (Hk & j & -> & ->). do 2 eexists. split; [done|].
    split; [by apply Z.mod_pos_bound; lia|]. split; [done|]. by apply seed_after_ok.
Qed.

(** From here on only [draw_ok] speaks of the draws: unfolding 2^31 of them is no proof. *)
#[local] Opaque draw.

(* ------------------------------------------------------------------ *)
(** ** What stealing takes *)

Section Stealing.
Context {E : Type}.
Implicit Types (s : TaskQueueSet E) (xs : list E) (xss : list (list E)).

(** All queues are registered, at rest, and hold these tasks. *)
Definition set_holds (m : nat) s xss : Prop :=
  n_queues s = len xss /\
  Forall2 (fun q xs => exists q0, q = Some q0 /\ holds m q0 0 xs) (queues s) xss.

Lemma set_holds_at m s xss k : set_holds m s xss -> 0 <= k < n_queues s ->
  exists q xs, set_queue s k = Some (Some q) /\ xss !! Z.to_nat k = Some xs /\ holds m q 0 xs.
Proof using Type.
  intros [Hn HF] Hk. destruct (lookup_lt_is_Some_2 xss (Z.to_nat k) ltac:(lia)) as [xs Hx].
  destruct (list.Forall2_lookup_r _ _ _ _ _ HF Hx) as (q & Hq & q0 & -> & H).
  exists q0, xs. split_and!; try done. unfold set_queue, arr_get. by destruct (Z.leb_spec 0 k); [|lia].
Qed.

Lemma size_at_ok m s xss k xs : set_holds m s xss -> 0 <= k < n_queues s ->
  xss !! Z.to_nat k = Some xs -> size_at s k = Some (len xs).
Proof using Type.
  intros Hs Hk Hx. destruct (set_holds_at m s xss k Hs Hk) as (q & xs' & Hq & Hx' & H).
  unfold size_at. rewrite Hq. cbn. rewrite (queue_size_ok m q xs' H). congruence.
Qed.

(** Popping takes the oldest task of the queue, and leaves an empty queue as it was. *)
Definition pop_result (m : nat) s xss (k : Z) (r : option E) s' : Prop :=
  match r with
  | Some t => exists xs, xss !! Z.to_nat k = Some (t :: xs) /\ set_holds (m + 1) s' (<[Z.to_nat k := xs]> xss)
  | None => xss !! Z.to_nat k = Some [] /\ s' = s
  end.

Lemma pop_at_ok m s xss k : no_wrap (m + 1) -> set_holds m s xss -> 0 <= k < n_queues s ->
  exists r s', pop_at s k = Some (r, s') /\ pop_result m s xss k r s'.
Proof using Type.
  intros Hm Hs Hk. destruct (set_holds_at m s xss k Hs Hk) as (q & xs & Hq & Hx & H).
  destruct (pop_global_ok m q xs Hm H) as (q' & Hp & H'). unfold pop_at. rewrite Hq. cbn. rewrite Hp.
  destruct Hs as [Hn HF]. pose proof (list.Forall2_length _ _ _ HF) as Hlen.
  cbn. unfold register_queue. rewrite arr_set_Some by lia. cbn. do 2 eexists. split; [done|].
  destruct xs as [|t xs]; cbn [head tail pop_result] in *.
  - split; [done|]. assert (Hsame : q' = q).
    { unfold pop_global in Hp. rewrite (holds_nonempty m q 0 [] H ltac:(lia)) in Hp. by injection Hp. }
    subst q'. destruct s as [n qs]. f_equal. apply list_insert_id.
    unfold set_queue, arr_get in Hq. by destruct (0 <=? k).
  - exists xs. split; [done|]. split; cbn [n_queues queues].
    + by rewrite length_insert.
    + apply list.Forall2_insert; [|by exists q'].
      eapply list.Forall2_impl; [done|]. intros q0 xs0 (q1 & -> & H1). exists q1. split; [done|].
      eapply holds_weaken; [|done]. lia.
Qed.

(** The outcome of a steal by the thread [queue_num]: a task taken from the old end of another
    queue, or nothing changed. *)
Definition steal_result (m : nat) s xss (queue_num : Z) (r : option E) s' : Prop :=
  match r with
  | Some t => exists k xs, 0 <= k < n_queues s /\ k <> queue_num /\
      xss !! Z.to_nat k = Some (t :: xs) /\ set_holds (m + 1) s' (<[Z.to_nat k := xs]> xss)
  | None => s' = s
  end.

Lemma pop_steal_result m s xss k queue_num r s' : 0 <= k < n_queues s -> k <> queue_num ->
  pop_result m s xss k r s' -> steal_result m s xss queue_num r s'.
Proof using Type. destruct r; simpl; [|tauto]. intros Hk Hne (xs & Hx & H). by exists k, xs. Qed.

Lemma other_of_two k : 0 <= k < 2 -> let k' := u32 (k + 1) mod 2 in 0 <= k' < 2 /\ k' <> k.
Proof using Type. intros Hk. assert (k = 0 \/ k = 1) as [->| ->] by lia; done. Qed.

(** A number between zero and [n] that is neither of two others, for [n] above two. *)
Lemma third_number n a b : 2 < n -> exists r, 0 <= r < n /\ r <> a /\ r <> b.
Proof using Type.
  intros Hn. destruct (decide (0 <> a /\ 0 <> b)) as [|H0]; [exists 0; lia|].
  destruct (decide (1 <> a /\ 1 <> b)) as [|H1]; [exists 1; lia|]. exists 2. lia.
Qed.

(** The draws of [steal_best_of_2] find two other queues. *)
Lemma two_draws n queue_num seed : 2 < n < pm_m -> seed_ok seed -> exists k1 seed1 k2 seed2,
  draw (fun k => k =? queue_num) n seed = Some (k1, seed1) /\
  draw (fun k => (k =? queue_num) || (k =? k1)) n seed1 = Some (k2, seed2) /\
  0 <= k1 < n /\ k1 <> queue_num /\ 0 <= k2 < n /\ k2 <> queue_num /\ k2 <> k1 /\ seed_ok seed2.
Proof using Type.
  intros Hn Hseed. destruct (third_number n queue_num queue_num) as (r0 & Hr0 & Hne & _); [lia|].
  destruct (draw_ok (fun k => k =? queue_num) n seed r0) as (k1 & seed1 & D1 & Hk1 & E1 & Hs1);
    [lia|done|done|by apply Z.eqb_neq|].
  destruct (third_number n queue_num k1) as (r1 & Hr1 & Hne1 & Hne2); [lia|].
  destruct (draw_ok (fun k => (k =? queue_num) || (k =? k1)) n seed1 r1)
    as (k2 & seed2 & D2 & Hk2 & E2 & Hs2); [lia|done|done|by apply orb_false_intro; apply Z.eqb_neq|].
  zreflect. exists k1, seed1, k2, seed2. done.
Qed.

Lemma steal_best_of_2_ok m s xss queue_num seed : no_wrap (m + 1) -> set_holds m s xss ->
  0 <= queue_num < n_queues s -> n_queues s < pm_m -> seed_ok seed ->
  exists r seed' s', steal_best_of_2 s queue_num seed = Some (r, seed', s') /\
    seed_ok seed' /\ steal_result m s xss queue_num r s' /\
    (n_queues s = 2 -> r = None -> xss !! Z.to_nat (1 - queue_num) = Some []).
Proof using Type.
  intros Hm Hs Hq Hn Hseed. unfold steal_best_of_2. destruct (Z.ltb_spec 2 (n_queues s)).
  - destruct (two_draws (n_queues s) queue_num seed) as (k1 & s1 & k2 & s2 & D1 & D2 & Hk1 & Hne1 & Hk2 & Hne2 & _ & Hs2);
      [lia|done|].
    rewrite (bind_Some _ _ _ D1), (bind_Some _ _ _ D2).
    destruct (set_holds_at m s xss k1 Hs Hk1) as (_ & xs1 & _ & Hx1 & _).
    destruct (set_holds_at m s xss k2 Hs Hk2) as (_ & xs2 & _ & Hx2 & _).
    rewrite (bind_Some _ _ _ (size_at_ok m s xss k1 xs1 Hs Hk1 Hx1)).
    rewrite (bind_Some _ _ _ (size_at_ok m s xss k2 xs2 Hs Hk2 Hx2)).
    set (k := if len xs1 <? len xs2 then k2 else k1).
    assert (Hk : 0 <= k < n_queues s /\ k <> queue_num) by (unfold k; destruct (_ <? _); lia).
    destruct Hk as [Hk Hkq]. destruct (pop_at_ok m s xss k Hm Hs Hk) as (r & s' & Hp & Hr).
    rewrite (bind_Some _ _ _ Hp). exists r, s2, s'.
    split_and!; [done|done|by eapply pop_steal_result|lia].
  - destruct (Z.eqb_spec (n_queues s) 2) as [E2|].
    + destruct (other_of_two queue_num) as [Hk Hne]; [lia|]. set (k := u32 (queue_num + 1) mod 2) in *.
      destruct (pop_at_ok m s xss k Hm Hs ltac:(lia)) as (r & s' & Hp & Hr). rewrite (bind_Some _ _ _ Hp).
      exists r, seed, s'. split_and!; [done|done|eapply pop_steal_result; [|done..]; lia|].
      intros _ ->. replace (1 - queue_num) with k by lia. apply Hr.
    + exists None, seed, s. split_and!; [done..|lia].
Qed.

(** C31: Stealing returns: the draws for a victim end from every seed from 1 to 2^31 - 2 (the generator never leaves these;
    the seed 0 would lead it to its other fixed point, 2^31 - 1), each attempt samples other
    queues than the thief's own, and [steal] ends with the oldest task of one of the other
    queues, all else untouched, or with nothing changed at all; with two queues it fails only
    if the other one is empty. *)
Theorem steal_spec m s xss queue_num seed : no_wrap (m + 1) -> set_holds m s xss ->
  0 <= queue_num < n_queues s -> n_queues s < pm_m -> seed_ok seed ->
  exists r seed' s', steal s queue_num seed = Some (r, seed', s') /\
    seed_ok seed' /\ steal_result m s xss queue_num r s' /\
    (n_queues s = 2 -> r = None -> xss !! Z.to_nat (1 - queue_num) = Some []).
Proof using Type.
  intros Hm Hs Hq Hn Hseed. unfold steal.
  assert (H2n : u32 (2 * n_queues s) = 2 * n_queues s).
  { apply uwrap_small; [lia|]. unfold in_u, pm_m in *. change (2 ^ 32) with 4294967296. lia. }
  rewrite H2n. set (ends := n_queues s = 2 -> xss !! Z.to_nat (1 - queue_num) = Some []).
  match goal with |- context [for_range 0 ?e ?f (seed, s)] =>
    destruct (for_range_inv (fun i '(seed, s') => seed_ok seed /\ s' = s /\ (0 < i -> ends))
      (fun '(t, seed', s') => seed_ok seed' /\ steal_result m s xss queue_num (Some t) s')
      f 0 e (seed, s)) as (c & Hc & Hr); [lia|split_and!; [done..|lia]| |]
  end.
  - intros i [seed1 s1] Hi (Hs1 & -> & _).
    destruct (steal_best_of_2_ok m s xss queue_num seed1 Hm Hs Hq Hn Hs1) as (r & seed2 & s2 & Hb & Hs2 & Hr & Hlast).
    rewrite (bind_Some _ _ _ Hb). destruct r as [t|]; eexists; (split; [done|]); cbn beta iota.
    + by split.
    + split_and!; [done|done|]. intros _ Htwo. by apply Hlast.
  - rewrite (bind_Some _ _ _ Hc). destruct c as [[seed' s']|[[t seed'] s']].
    + destruct Hr as (Hs1 & -> & Hlast). exists None, seed', s. split_and!; [done..|].
      intros Htwo _. apply Hlast; [lia|done].
    + destruct Hr as [Hs1 Hr]. exists (Some t), seed', s'. by split_and!.
Qed.

(** The choice of the fullest queue: [best] of the queues before [k]. *)
Definition best_before xss (queue_num k : Z) (best : option Z * Z) : Prop :=
  0 <= best.2 /\
  (forall j xs, 0 <= j < k -> j <> queue_num -> xss !! Z.to_nat j = Some xs -> len xs <= best.2) /\
  (0 < best.2 -> exists b xs, best.1 = Some b /\ 0 <= b < k /\ b <> queue_num /\
     xss !! Z.to_nat b = Some xs /\ len xs = best.2).

Lemma best_step m s xss queue_num k best : set_holds m s xss -> 0 <= k < n_queues s ->
  best_before xss queue_num k best -> exists best',
  (let '(best_k, best_sz) := best in
   if k =? queue_num then Some (best_k, best_sz)
   else sz ← size_at s k; Some (if best_sz <? sz then (Some k, sz) else (best_k, best_sz))) = Some best' /\
  best_before xss queue_num (k + 1) best'.
Proof using Type.
  intros Hs Hk. destruct best as [best_k best_sz]. intros (H0 & Hle & Hb). simpl in *.
  assert (Hwit : 0 < best_sz -> exists b xs, best_k = Some b /\ 0 <= b < k + 1 /\ b <> queue_num /\
            xss !! Z.to_nat b = Some xs /\ len xs = best_sz).
  { intros Hpos. destruct (Hb Hpos) as (b & xs & ? & ? & ?). exists b, xs. split_and!; [done|lia|lia|tauto..]. }
  destruct (Z.eqb_spec k queue_num) as [->|Hne].
  { eexists. split; [done|]. split_and!; [done| |done]. intros j xs Hj Hjq Hx. apply (Hle j); [lia|done..]. }
  destruct (set_holds_at m s xss k Hs Hk) as (_ & xs & _ & Hx & _).
  rewrite (bind_Some _ _ _ (size_at_ok m s xss k xs Hs Hk Hx)). eexists. split; [done|].
  destruct (Z.ltb_spec best_sz (len xs)); split_and!; simpl; try lia; try done.
  - intros j ys Hj Hjq Hy. destruct (decide (j = k)) as [->|]; [simplify_eq; lia|].
    specialize (Hle j ys ltac:(lia) Hjq Hy). lia.
  - intros _. exists k, xs. split_and!; [done|lia|lia|done..].
  - intros j ys Hj Hjq Hy. destruct (decide (j = k)) as [->|]; [simplify_eq; lia|].
    apply (Hle j); [lia|done..].
Qed.

(** Stealing from the fullest queue takes the oldest task of a queue that no other queue but the
    thief's own exceeds, and fails exactly when all the other queues are empty. *)
Theorem steal_best_of_all_spec m s xss queue_num : no_wrap (m + 1) -> set_holds m s xss ->
  2 < n_queues s -> 0 <= queue_num < n_queues s ->
  exists r s', steal_best_of_all s queue_num = Some (r, s') /\
    match r with
    | Some t => exists k xs, 0 <= k < n_queues s /\ k <> queue_num /\
        xss !! Z.to_nat k = Some (t :: xs) /\ set_holds (m + 1) s' (<[Z.to_nat k := xs]> xss) /\
        forall j ys, 0 <= j < n_queues s -> j <> queue_num -> xss !! Z.to_nat j = Some ys ->
          len ys <= len (t :: xs)
    | None => s' = s /\ forall j ys, 0 <= j < n_queues s -> j <> queue_num ->
        xss !! Z.to_nat j = Some ys -> ys = []
    end.
Proof using Type.
  intros Hm Hs Hn Hq. unfold steal_best_of_all. destruct (Z.ltb_spec 2 (n_queues s)); [|lia].
  match goal with |- context [each_range 0 ?e ?f ?b] =>
    destruct (each_range_inv (best_before xss queue_num) f 0 e b) as ([bk bsz] & Hc & H0 & Hle & Hb)
  end; [lia|split_and!; simpl; intros; lia|intros k best Hk; by apply (best_step m)|].
  rewrite (bind_Some _ _ _ Hc). simpl in *. destruct (Z.ltb_spec 0 bsz) as [Hpos|].
  - destruct (Hb Hpos) as (k & xs & -> & Hk & Hkq & Hx & <-).
    destruct (pop_at_ok m s xss k Hm Hs Hk) as (r & s' & Hp & Hr). simpl. exists r, s'. split; [done|].
    destruct r as [t|]; simpl in Hr.
    + destruct Hr as (xs' & Hx' & Hs'). rewrite Hx in Hx'. injection Hx' as ->. exists k, xs'. done.
    + destruct Hr as [Hx' _]. rewrite Hx in Hx'. injection Hx' as ->. simpl in Hpos. lia.
  - exists None, s. split; [done|]. split; [done|]. intros j ys Hj Hjq Hy.
    specialize (Hle j ys Hj Hjq Hy). apply nil_length_inv. lia.
Qed.

(** [steal_1_random] draws another queue and then takes from the queue numbered two: the thread
    with that number steals from itself, and the tasks of the others are never found. *)
Theorem steal_1_random_takes_queue_2 m s xss xs queue_num seed : no_wrap (m + 1) -> set_holds m s xss ->
  2 < n_queues s < pm_m -> 0 <= queue_num < n_queues s -> seed_ok seed -> xss !! 2%nat = Some xs ->
  exists seed' s', steal_1_random s queue_num seed = Some (head xs, seed', s').
Proof using Type.
  intros Hm Hs Hn Hq Hseed Hx. unfold steal_1_random. destruct (Z.ltb_spec 2 (n_queues s)); [|lia].
  destruct (two_draws (n_queues s) queue_num seed) as (k1 & s1 & _ & _ & D1 & _); [lia|done|].
  rewrite (bind_Some _ _ _ D1). destruct (pop_at_ok m s xss 2 Hm Hs ltac:(lia)) as (r & s' & Hp & Hr).
  rewrite (bind_Some _ _ _ Hp). exists s1, s'.
  assert (r = head xs) as ->; [|done]. destruct r as [t|]; cbn [pop_result] in Hr.
  - destruct Hr as (ys & Hy & _). change (Z.to_nat 2) with 2%nat in Hy. by simplify_eq.
  - destruct Hr as [Hy _]. change (Z.to_nat 2) with 2%nat in Hy. by simplify_eq.
Qed.

(** [peek] of the set: some queue has a task. *)
Lemma set_peek_ok m s xss : set_holds m s xss -> set_peek s = Some (bool_decide (Exists (fun xs => xs <> []) xss)).
Proof using Type.
  intros Hs. unfold set_peek. pose proof (proj1 Hs) as Hn.
  match goal with |- context [for_range 0 ?e ?f tt] =>
    destruct (for_range_inv (fun i _ => forall j xs, (j < Z.to_nat i)%nat -> xss !! j = Some xs -> xs = [])
      (fun b => b = true /\ Exists (fun xs => xs <> []) xss) f 0 e tt) as (c & Hc & Hr); [lia| | |]
  end.
  - intros j xs Hj. lia.
  - intros k [] Hk Hall. destruct (set_holds_at m s xss k Hs Hk) as (q & xs & Hq & Hx & H). rewrite Hq. cbn.
    rewrite (peek_ok m q xs H). eexists. split; [done|]. destruct (decide (xs = [])) as [->|Hne].
    + rewrite bool_decide_eq_false_2 by auto. intros j ys Hj Hy. destruct (decide (j = Z.to_nat k)) as [->|].
      * by simplify_eq.
      * apply (Hall j); [lia|done].
    + rewrite bool_decide_eq_true_2 by done. split; [done|]. apply list.Exists_exists. exists xs.
      split; [by eapply list_elem_of_lookup_2 | done].
  - rewrite (bind_Some _ _ _ Hc). destruct c as [[]|b].
    + rewrite bool_decide_eq_false_2; [done|]. intros (ys & Hin & Hne)%list.Exists_exists.
      apply list_elem_of_lookup_1 in Hin as [j Hj]. apply Hne, (Hr j); [|done].
      apply lookup_lt_Some in Hj. lia.
    + destruct Hr as [-> He]. by rewrite bool_decide_eq_true_2.
Qed.
End Stealing.

(* ------------------------------------------------------------------ *)
(** ** A set of three queues *)

(** The queues zero and two are empty, the queue one has a task. *)
Abbreviation toy_set := {| n_queues := 3;
  queues := [Some (new_queue toy_array); Some (one_task toy_array 7); Some (new_queue toy_array)] |}.

Lemma toy_set_holds : set_holds 0 toy_set [[]; [7]; []].
Proof.
  split; [done|].
  assert (Hno : exists q0, Some (new_queue toy_array) = Some q0 /\ holds 0 q0 0 [])
    by (eexists; split; [done | apply no_tasks_holds, toy_array_length]).
  assert (Hone : exists q0, Some (one_task toy_array 7) = Some q0 /\ holds 0 q0 0 [7])
    by (eexists; split; [done | apply one_task_holds, toy_array_length]).
  exact (List.Forall2_cons _ _ Hno (List.Forall2_cons _ _ Hone (List.Forall2_cons _ _ Hno (List.Forall2_nil _)))).
Qed.

Lemma steal_spec_witness : exists r seed' s', steal toy_set 0 17 = Some (r, seed', s') /\ seed_ok seed' /\
  steal_result 0 toy_set [[]; [7]; []] 0 r s'.
Proof.
  assert (Hm : no_wrap (0 + 1)) by done. assert (Hs : seed_ok 17) by done.
  assert (Hq : 0 <= 0 < n_queues toy_set) by (cbn [n_queues]; lia).
  assert (Hn : n_queues toy_set < pm_m) by done.
  destruct (steal_spec 0 toy_set [[]; [7]; []] 0 17 Hm toy_set_holds Hq Hn Hs)
    as (r & seed' & s' & He & Hok & Hr & _).
  exists r, seed', s'. split; [exact He|]. split; [exact Hok | exact Hr].
Defined.

Lemma steal_best_of_all_spec_witness : exists s', steal_best_of_all toy_set 0 = Some (Some 7, s').
Proof.
  assert (Hm : no_wrap (0 + 1)) by done. assert (H2 : 2 < n_queues toy_set) by done.
  assert (Hq : 0 <= 0 < n_queues toy_set) by (cbn [n_queues]; lia).
  destruct (steal_best_of_all_spec 0 toy_set [[]; [7]; []] 0 Hm toy_set_holds H2 Hq) as (r & s' & He & Hr).
  exists s'. rewrite He. destruct r as [t|].
  - destruct Hr as (k & xs & Hk & Hne & Hx & _). assert (Hkk : k = 1 \/ k = 2) by (cbn [n_queues] in Hk; lia).
    destruct Hkk as [-> | ->]; [by injection Hx as -> _ | discriminate Hx].
  - destruct Hr as [_ Hall]. specialize (Hall 1 [7] ltac:(cbn [n_queues]; lia) ltac:(lia) eq_refl). discriminate Hall.
Defined.
