(* ===== verification/Terminator.v ===== *)
(** * Terminator: the termination protocol of parallel tasks

    [ParallelTaskTerminator] of utilities/taskqueue.hpp and taskqueue.cpp, run by workers like
    those of StealRegionCompactionTask (gc_implementation/parallelScavenge/pcTasks.cpp): a worker drains
    its own queue, steals, and when it finds nothing offers to terminate; the offer is
    taken back if there is work after all, and ends the worker when all have offered.

    The counter of offers and the queues are shared; [term_step] makes one access of one
    worker.  A queue with its overflow counts for its number of tasks here, what it holds is the
    matter of [TaskQueueSafe].  A look at the queue of a worker that is using it may see anything, since
    it reads bottom and age apart and not the overflow; a queue at rest is seen as it is.  What
    processing a task pushes is left open, and any task may be stolen.  The
    spinning, yielding and sleeping between two looks at the counter is [spin_turn].  The parameter
    of [offer_termination] is NULL, as these workers pass it. *)

From stdpp Require Import list.
From S2P Require Import Prelude GlobalDefs.

(* ------------------------------------------------------------------ *)
(** ** Waiting *)

Definition WorkStealingYieldsBeforeSleep : Z := 1000.
Definition WorkStealingHardSpins : Z := 4096.
Definition WorkStealingSpinToYieldRatio : Z := 10.

Record spin := { yield_count : Z; hard_spin_count : Z; hard_spin_limit : Z }.
Inductive pause := HardSpin (times : Z) | Yield | Sleep.

Definition hard_spin_start : Z :=
  if 0 <? WorkStealingSpinToYieldRatio then
    Z.max (u32 (Z.shiftr WorkStealingHardSpins WorkStealingSpinToYieldRatio)) 1
  else u32 WorkStealingHardSpins.

Definition spin_start : spin :=
  {| yield_count := 0; hard_spin_count := 0; hard_spin_limit := hard_spin_start |}.

(** One turn of the loop: how the thread waits, and its counters after that. *)
Definition spin_turn (l : spin) : pause * spin :=
  if yield_count l <=? WorkStealingYieldsBeforeSleep then
    let yields := u32 (yield_count l + 1) in
    if WorkStealingSpinToYieldRatio <? hard_spin_count l then
      (Yield, {| yield_count := yields; hard_spin_count := 0; hard_spin_limit := hard_spin_start |})
    else
      let limit := Z.min (u32 (2 * hard_spin_limit l)) (u32 WorkStealingHardSpins) in
      (HardSpin limit, {| yield_count := yields; hard_spin_count := u32 (hard_spin_count l + 1);
                          hard_spin_limit := limit |})
  else (Sleep, {| yield_count := 0; hard_spin_count := hard_spin_count l;
                  hard_spin_limit := hard_spin_limit l |}).

(* ------------------------------------------------------------------ *)
(** ** The protocol *)

(** Where a worker is: draining its queue, processing a task, about to steal, or in
    [offer_termination]: about to count itself, to look at the counter, at the queue [j], about to take its offer
    back; or ended. *)
Inductive worker :=
  | Draining
  | Processing
  | Stealing
  | OfferInc
  | OfferRead (l : spin)
  | OfferPeek (l : spin) (j : nat)
  | OfferDec
  | Finished.

Record terminator := { offered : Z; tasks : list nat; workers : list worker }.

(** The steps of [offer_termination] for [n_threads] workers: the counter and the next place; [seen] is
    what a look at a queue says, nothing when there is no further queue. *)
Definition offer_step (n_threads : Z) (seen : option bool) (off : Z) (w : worker) : option (Z * worker) :=
  match w with
  | OfferInc => Some (s32 (off + 1), OfferRead spin_start)
  | OfferRead l =>
      if off =? n_threads then Some (off, Finished) else Some (off, OfferPeek (spin_turn l).2 0)
  | OfferPeek l j =>
      match seen with
      | Some true => Some (off, OfferDec)
      | Some false => Some (off, OfferPeek l (S j))
      | None => Some (off, OfferRead l)
      end
  | OfferDec => Some (s32 (off - 1), Stealing)
  | _ => None
  end.

Definition active (w : worker) : bool :=
  match w with Draining | Processing => true | _ => false end.

(** What a worker at [w] can see. *)
Definition can_see (qs : list nat) (ws : list worker) (w : worker) (seen : option bool) : Prop :=
  match w with
  | OfferPeek _ j =>
      match qs !! j, ws !! j with
      | Some k, Some w' => exists b, seen = Some b /\ (active w' = false -> b = negb (Nat.eqb k 0))
      | _, _ => seen = None
      end
  | _ => True
  end.

Definition n_threads (c : terminator) : Z := Z.of_nat (length (workers c)).

Inductive term_step : terminator -> nat -> terminator -> Prop :=
  | drain_pop off qs ws i k : ws !! i = Some Draining -> qs !! i = Some (S k) ->
      term_step {| offered := off; tasks := qs; workers := ws |} i
                {| offered := off; tasks := <[i := k]> qs; workers := <[i := Processing]> ws |}
  | drain_done off qs ws i : ws !! i = Some Draining -> qs !! i = Some O ->
      term_step {| offered := off; tasks := qs; workers := ws |} i
                {| offered := off; tasks := qs; workers := <[i := Stealing]> ws |}
  | process_push off qs ws i k : ws !! i = Some Processing -> qs !! i = Some k ->
      term_step {| offered := off; tasks := qs; workers := ws |} i
                {| offered := off; tasks := <[i := S k]> qs; workers := ws |}
  | process_done off qs ws i : ws !! i = Some Processing ->
      term_step {| offered := off; tasks := qs; workers := ws |} i
                {| offered := off; tasks := qs; workers := <[i := Draining]> ws |}
  | steal_task off qs ws i j k : ws !! i = Some Stealing -> qs !! j = Some (S k) ->
      term_step {| offered := off; tasks := qs; workers := ws |} i
                {| offered := off; tasks := <[j := k]> qs; workers := <[i := Processing]> ws |}
  | steal_nothing off qs ws i : ws !! i = Some Stealing ->
      term_step {| offered := off; tasks := qs; workers := ws |} i
                {| offered := off; tasks := qs; workers := <[i := OfferInc]> ws |}
  | offer off qs ws i w seen off' w' : ws !! i = Some w -> can_see qs ws w seen ->
      offer_step (Z.of_nat (length ws)) seen off w = Some (off', w') ->
      term_step {| offered := off; tasks := qs; workers := ws |} i
                {| offered := off'; tasks := qs; workers := <[i := w']> ws |}.

(** A run, and which worker made each step. *)
Inductive term_run : terminator -> list nat -> terminator -> Prop :=
  | term_nil c : term_run c [] c
  | term_snoc c tr c' i c'' : term_run c tr c' -> term_step c' i c'' -> term_run c (tr ++ [i]) c''.

(** [n] workers with the tasks [qs] preloaded. *)
Definition term_start (qs : list nat) : terminator :=
  {| offered := 0; tasks := qs; workers := replicate (length qs) Draining |}.

Definition reset_for_reuse (off : Z) : Z := if negb (off =? 0) then 0 else off.

(* ------------------------------------------------------------------ *)
(** ** The counter and the queues *)

Definition counted (w : worker) : nat :=
  match w with OfferRead _ | OfferPeek _ _ | OfferDec | Finished => 1 | _ => 0 end.

(** No task is queued, held or being looked for in a queue of its owner. *)
Definition no_work (c : terminator) : Prop :=
  Forall (fun k => k = 0%nat) (tasks c) /\ Forall (fun w => active w = false) (workers c).

Record term_inv (c : terminator) : Prop := {
  term_length : length (tasks c) = length (workers c);
  term_small : Z.of_nat (length (workers c)) < 2 ^ 31;
  term_offered : offered c = Z.of_nat (sum_list_with counted (workers c));
  term_empty : forall i w, workers c !! i = Some w -> active w = false -> tasks c !! i = Some O;
  term_finished : forall i, workers c !! i = Some Finished -> no_work c }.

Lemma sum_list_with_insert {A} (f : A -> nat) l i x y : l !! i = Some x ->
  (sum_list_with f (<[i := y]> l) + f x = sum_list_with f l + f y)%nat.
Proof.
  revert i. induction l as [|z l IH]; intros [|i] Hi; simpl in *; try done.
  - injection Hi as ->. lia.
  - specialize (IH i Hi). lia.
Qed.

Lemma sum_counted_le ws : (sum_list_with counted ws <= length ws)%nat.
Proof. induction ws as [|w ws IH]; simpl; [done|]. assert (counted w <= 1)%nat by (destruct w; simpl; lia). lia. Qed.

(** If all are counted, none is active. *)
Lemma all_counted ws : sum_list_with counted ws = length ws -> Forall (fun w => active w = false) ws.
Proof.
  induction ws as [|w ws IH]; simpl; intros Hs; [constructor|]. pose proof (sum_counted_le ws).
  assert (Hw : counted w = 1%nat) by (destruct w; simpl in *; lia).
  constructor; [by destruct w | apply IH; lia].
Qed.

Lemma no_work_from qs (ws : list worker) : length qs = length ws ->
  (forall i w, ws !! i = Some w -> active w = false -> qs !! i = Some O) ->
  Forall (fun w => active w = false) ws -> Forall (fun k => k = 0%nat) qs.
Proof.
  intros Hl He Hw. apply Forall_lookup. intros i k Hk.
  destruct (lookup_lt_is_Some_2 ws i) as [w Hi]; [apply lookup_lt_Some in Hk; lia|].
  specialize (He i w Hi). rewrite (Forall_lookup_1 _ _ _ _ Hw Hi) in He. specialize (He eq_refl). congruence.
Qed.

(** A step that moves one worker to a place that is not counted differently, and is
    idle only if its queue is empty. *)
Lemma term_inv_move c i w w' off' qs' : term_inv c -> workers c !! i = Some w ->
  off' = offered c + Z.of_nat (counted w') - Z.of_nat (counted w) ->
  (w' = Finished -> no_work c) -> length qs' = length (tasks c) ->
  (active w' = false -> qs' !! i = Some O) ->
  (forall j k, j <> i -> tasks c !! j = Some k -> k = O -> qs' !! j = Some O) ->
  (no_work c -> active w' = false /\ Forall (fun k => k = 0%nat) qs') ->
  term_inv {| offered := off'; tasks := qs'; workers := <[i := w']> (workers c) |}.
Proof.
  intros [Hl Hsm Ho He Hf] Hi Hc Hnf Hlq Hown Hoth Hnw. split; cbn [tasks workers offered].
  - by rewrite length_insert, Hlq.
  - by rewrite length_insert.
  - pose proof (sum_list_with_insert counted _ i w w' Hi). lia.
  - intros j x Hj Hx. destruct (decide (j = i)) as [->|Hne].
    + rewrite list_lookup_insert_eq in Hj by (by eapply lookup_lt_Some). injection Hj as <-. auto.
    + rewrite list_lookup_insert_ne in Hj by done. specialize (He j x Hj Hx). by apply (Hoth j O).
  - intros j Hj. assert (Hno : no_work c).
    { destruct (decide (j = i)) as [->|Hne]; [|rewrite list_lookup_insert_ne in Hj by done; by eapply Hf].
      rewrite list_lookup_insert_eq in Hj by (by eapply lookup_lt_Some). apply Hnf. congruence. }
    destruct (Hnw Hno) as [Ha Hq]. split; [done|]. cbn [workers]. apply Forall_insert; [apply Hno | done].
Qed.

(** The same when the queues stay. *)
Lemma term_inv_goto c i w w' off' : term_inv c -> workers c !! i = Some w ->
  off' = offered c + Z.of_nat (counted w') - Z.of_nat (counted w) ->
  (w' = Finished -> no_work c) -> (active w' = true -> active w = true) ->
  (active w' = false -> tasks c !! i = Some O) ->
  term_inv {| offered := off'; tasks := tasks c; workers := <[i := w']> (workers c) |}.
Proof.
  intros Hinv Hi Ho Hf Ha He. apply (term_inv_move c i w); try done.
  - intros j k _ Hj ->. done.
  - intros Hno. split; [|apply Hno]. destruct (active w') eqn:Ea; [|done].
    specialize (Ha eq_refl). pose proof (Forall_lookup_1 _ _ _ _ (proj2 Hno) Hi). simpl in *. congruence.
Qed.

(** The counter seen at its full value: there is no work. *)
Lemma term_full c : term_inv c -> offered c = n_threads c -> no_work c.
Proof.
  intros [Hl Hsm Ho He Hf] E. unfold n_threads in E. assert (Hall := all_counted (workers c) ltac:(lia)).
  split; [|done]. by eapply no_work_from.
Qed.

Lemma no_work_queue c i k : no_work c -> tasks c !! i = Some (S k) -> False.
Proof. intros [Hq _] Hi. pose proof (Forall_lookup_1 _ _ _ _ Hq Hi). done. Qed.

Lemma no_work_active c i w : no_work c -> workers c !! i = Some w -> active w = true -> False.
Proof. intros [_ Hw] Hi Ha. pose proof (Forall_lookup_1 _ _ _ _ Hw Hi). congruence. Qed.

Lemma offer_step_inv off qs ws i w seen off' w' :
  let c := {| offered := off; tasks := qs; workers := ws |} in
  term_inv c -> ws !! i = Some w -> offer_step (n_threads c) seen off w = Some (off', w') ->
  term_inv {| offered := off'; tasks := qs; workers := <[i := w']> ws |}.
Proof.
  intros c; unfold c, n_threads; cbn [workers]; clear c.
  intros Hinv Hi Hs. pose proof (term_offered _ Hinv) as Ho. pose proof (term_small _ Hinv) as Hsm. cbn [offered workers] in *.
  pose proof (sum_counted_le ws) as Hle.
  assert (Hgo : off' = off + Z.of_nat (counted w') - Z.of_nat (counted w) -> (w' = Finished -> no_work {| offered := off; tasks := qs; workers := ws |}) ->
            active w = false -> active w' = false ->
            term_inv {| offered := off'; tasks := qs; workers := <[i := w']> ws |}).
  { intros H1 H2 H3 H4. apply (term_inv_goto _ i w w' off' Hinv Hi); try done; [congruence|].
    intros _. by apply (term_empty _ Hinv i w). }
  assert (Hw : forall x, 0 <= x < 2 ^ 31 -> s32 x = x) by (intros x Hx; apply swrap_small; unfold in_s; simpl; lia).
  destruct w as [| | | |l|l j| |]; cbn [offer_step] in Hs; try done.
  - injection Hs as <- <-. pose proof (sum_list_with_insert counted ws i _ (OfferRead spin_start) Hi) as Hc.
    pose proof (sum_counted_le (<[i := OfferRead spin_start]> ws)) as Hc2. rewrite length_insert in Hc2.
    simpl in Hc. rewrite Hw in * by lia. apply Hgo; try done. simpl. lia.
  - destruct (Z.eqb_spec off (Z.of_nat (length ws))) as [E|]; injection Hs as <- <-; apply Hgo; simpl; try done; try lia.
    intros _. apply (term_full _ Hinv). exact E.
  - destruct seen as [[]|]; injection Hs as <- <-; apply Hgo; simpl; try done; lia.
  - injection Hs as <- <-. pose proof (sum_list_with_insert counted ws i _ Stealing Hi) as Hc.
    simpl in Hc. rewrite Hw in * by lia. apply Hgo; try done. simpl. lia.
Qed.

Lemma term_step_inv c i c' : term_inv c -> term_step c i c' -> term_inv c'.
Proof.
  intros Hinv Hs.
  destruct Hs as [off qs ws i k Hi Hq|off qs ws i Hi Hq|off qs ws i k Hi Hq|off qs ws i Hi|off qs ws i j k Hi Hq
                 |off qs ws i Hi|off qs ws i w seen off' w' Hi Hsee Hs].
  - apply (term_inv_move _ i Draining Processing off (<[i := k]> qs) Hinv Hi); try done.
    + simpl. lia.
    + apply length_insert.
    + intros j k' Hne Hj ->. by rewrite list_lookup_insert_ne.
    + intros Hno. exfalso. by eapply no_work_queue.
  - by apply (term_inv_goto _ i Draining Stealing off Hinv Hi); try done; simpl; lia.
  - rewrite <- (list_insert_id ws i Processing Hi).
    apply (term_inv_move _ i Processing Processing off (<[i := S k]> qs) Hinv Hi); try done.
    + simpl. lia.
    + apply length_insert.
    + intros j k' Hne Hj ->. by rewrite list_lookup_insert_ne.
    + intros Hno. exfalso. by eapply no_work_active.
  - by apply (term_inv_goto _ i Processing Draining off Hinv Hi); try done; simpl; lia.
  - apply (term_inv_move _ i Stealing Processing off (<[j := k]> qs) Hinv Hi); try done.
    + simpl. lia.
    + apply length_insert.
    + intros j' k' Hne Hj ->. destruct (decide (j' = j)) as [->|]; [simpl in Hj; congruence|].
      by rewrite list_lookup_insert_ne.
    + intros Hno. exfalso. by eapply no_work_queue.
  - apply (term_inv_goto _ i Stealing OfferInc off Hinv Hi); try done; [simpl; lia|].
    intros _. by apply (term_empty _ Hinv i Stealing).
  - by apply (offer_step_inv off qs ws i w seen).
Qed.

Lemma term_inv_start qs : Z.of_nat (length qs) < 2 ^ 31 -> term_inv (term_start qs).
Proof.
  intros Hl. split; cbn [tasks workers offered term_start].
  - by rewrite length_replicate.
  - by rewrite length_replicate.
  - clear Hl. by induction (length qs).
  - intros i w Hi. apply lookup_replicate in Hi as [-> _]. done.
  - intros i Hi. apply lookup_replicate in Hi as [Hi _]. done.
Qed.

Lemma term_run_inv c tr c' : term_inv c -> term_run c tr c' -> term_inv c'.
Proof. intros Hc Hr. induction Hr; [done|]. eapply term_step_inv; [|done]. auto. Qed.

Lemma term_step_length c i c' : term_step c i c' -> length (workers c') = length (workers c).
Proof. by destruct 1; cbn [workers]; rewrite ?length_insert. Qed.

(** What is left to do for a worker when there is no work: to come to a standing offer, and to
    see that all have. *)
Definition commit_rank (w : worker) : nat :=
  match w with OfferDec => 3 | Stealing => 2 | OfferInc => 1 | _ => 0 end.
Definition finish_rank (n : nat) (w : worker) : nat :=
  match w with OfferRead _ => 1 | OfferPeek _ j => 2 + (n - j) | _ => 0 end.

Definition rank_at (f : worker -> nat) (c : terminator) (i : nat) : nat := default 0%nat (f <$> workers c !! i).
Definition all_committed (c : terminator) : Prop := Forall (fun w => commit_rank w = 0%nat) (workers c).

Lemma no_work_insert c i w' c' : no_work c -> active w' = false -> tasks c' = tasks c ->
  workers c' = <[i := w']> (workers c) -> no_work c'.
Proof. intros [Hq Hw] Ha Et Ew. split; rewrite ?Et, ?Ew; [done|]. by apply Forall_insert. Qed.

(** When all offers stand, the counter is full. *)
Lemma committed_full c : term_inv c -> no_work c -> all_committed c -> offered c = n_threads c.
Proof.
  intros Hinv [_ Hw] Hall. rewrite (term_offered _ Hinv). unfold n_threads. f_equal. clear Hinv.
  unfold all_committed in Hall. induction (workers c) as [|x ws IH]; [done|].
  apply list.Forall_cons in Hw as [? ?]. apply list.Forall_cons in Hall as [? ?].
  simpl. rewrite IH by done. by destruct x.
Qed.

Lemma no_work_offer c w seen off' w' : term_inv c -> no_work c -> can_see (tasks c) (workers c) w seen ->
  offer_step (n_threads c) seen (offered c) w = Some (off', w') ->
  active w' = false /\ (commit_rank w' <= pred (commit_rank w))%nat /\
  (offered c = n_threads c -> commit_rank w = O ->
   (finish_rank (length (tasks c)) w' < finish_rank (length (tasks c)) w)%nat).
Proof.
  intros Hinv Hno Hsee Hs. destruct w as [| | | |l|l j| |]; cbn [offer_step can_see] in Hs, Hsee; try done.
  - injection Hs as <- <-. split_and!; [done|simpl; lia|done].
  - destruct (Z.eqb_spec (offered c) (n_threads c)); injection Hs as <- <-; simpl; split_and!; try done; lia.
  - assert (Hseen : seen = None \/ seen = Some false /\ (j < length (tasks c))%nat).
    { destruct (tasks c !! j) as [k|] eqn:Hj; [|by left]. destruct (workers c !! j) as [w|] eqn:Hw; [|by left].
      destruct Hsee as (b & -> & Hb). right. rewrite Hb by apply (Forall_lookup_1 _ _ _ _ (proj2 Hno) Hw).
      rewrite (Forall_lookup_1 _ _ _ _ (proj1 Hno) Hj). split; [done|]. by eapply lookup_lt_Some. }
    destruct Hseen as [-> | [-> Hj]]; injection Hs as <- <-; simpl; split_and!; try done; lia.
  - injection Hs as <- <-. split_and!; [done|simpl; lia|done].
Qed.

(** Without work, a worker goes down its ranks, and no work appears. *)
Lemma no_work_step c i c' : term_inv c -> no_work c -> term_step c i c' ->
  exists w w', workers c !! i = Some w /\ workers c' = <[i := w']> (workers c) /\
    tasks c' = tasks c /\ no_work c' /\ (commit_rank w' <= pred (commit_rank w))%nat /\
    (all_committed c -> (finish_rank (length (tasks c)) w' < finish_rank (length (tasks c)) w)%nat).
Proof.
  intros Hinv Hno Hs.
  destruct Hs as [off qs ws i k Hi Hq|off qs ws i Hi Hq|off qs ws i k Hi Hq|off qs ws i Hi|off qs ws i j k Hi Hq
                 |off qs ws i Hi|off qs ws i w seen off' w' Hi Hsee Hs].
  1-5: exfalso; first [by eapply no_work_active | by eapply no_work_queue].
  - exists Stealing, OfferInc. split_and!; [done..|by apply (no_work_insert _ i OfferInc _ Hno)|simpl; lia|]. intros Hall.
    pose proof (Forall_lookup_1 _ _ _ _ Hall Hi). done.
  - destruct (no_work_offer _ w seen off' w' Hinv Hno Hsee Hs) as (Ha & Hc & Hf).
    exists w, w'. split_and!; [done..|by apply (no_work_insert _ i w' _ Hno)|done|]. intros Hall.
    apply Hf; [by apply committed_full|]. apply (Forall_lookup_1 _ _ _ _ Hall Hi).
Qed.

Lemma rank_at_insert f c i w w' c' j : workers c !! i = Some w -> workers c' = <[i := w']> (workers c) ->
  rank_at f c i = f w /\ rank_at f c' j = if decide (j = i) then f w' else rank_at f c j.
Proof.
  intros Hi E. unfold rank_at. rewrite Hi, E. split; [done|]. destruct (decide (j = i)) as [->|].
  - by rewrite list_lookup_insert_eq by (by eapply lookup_lt_Some).
  - by rewrite list_lookup_insert_ne.
Qed.

(** How often a worker moved. *)
Definition moves (i : nat) (tr : list nat) : nat := length (filter (fun j => j = i) tr).

Lemma moves_snoc i tr j : moves i (tr ++ [j]) = (moves i tr + if decide (i = j) then 1 else 0)%nat.
Proof.
  unfold moves. rewrite list.filter_app, length_app, filter_cons.
  by destruct (decide (j = i)), (decide (i = j)); subst.
Qed.

(** A rank that each step without work lowers, while [P] stays. *)
Lemma rank_run (f : worker -> nat) (P : terminator -> Prop) c tr c' :
  (forall c1 i c2, P c1 -> term_step c1 i c2 -> P c2 /\ exists w w', workers c1 !! i = Some w /\
     workers c2 = <[i := w']> (workers c1) /\ (f w' <= pred (f w))%nat) ->
  term_run c tr c' -> P c -> P c' /\ forall i, (rank_at f c' i <= rank_at f c i - moves i tr)%nat.
Proof.
  intros Hstep Hr Hc. induction Hr as [c|c tr c1 k c2 Hr IH Hs]; [split; [done | intros i; unfold moves; simpl; lia]|].
  destruct (IH Hc) as [Hc1 Hle]. destruct (Hstep _ _ _ Hc1 Hs) as (Hc2 & w & w' & Hk & E & Hf).
  split; [done|]. intros i. rewrite moves_snoc. specialize (Hle i).
  destruct (rank_at_insert f c1 k w w' c2 i Hk E) as [E1 E2]. rewrite E2.
  destruct (decide (i = k)) as [->|]; lia.
Qed.

Lemma all_committed_ranks c : all_committed c <-> forall i, rank_at commit_rank c i = O.
Proof.
  unfold all_committed, rank_at. rewrite Forall_lookup. split; intros H i.
  - destruct (workers c !! i) eqn:E; [by apply (H i) | done].
  - intros w Hi. specialize (H i). by rewrite Hi in H.
Qed.

Lemma term_run_finished c tr c' i : term_run c tr c' -> workers c !! i = Some Finished -> workers c' !! i = Some Finished.
Proof.
  induction 1 as [|c tr c1 j c2 Hr IH Hs]; [done|]. intros Hi. specialize (IH Hi). clear Hi Hr.
  destruct (decide (j = i)) as [->|Hne].
  - exfalso. destruct Hs as [| | | | | |off qs ws i w seen off' w' Hi Hsee Hs]; cbn [workers] in *; try congruence.
    rewrite IH in Hi. by injection Hi as <-.
  - by destruct Hs; cbn [workers] in *; rewrite ?list_lookup_insert_ne.
Qed.

(** C16: When one worker's offer has been answered with termination, there is no task in any queue, no
    worker has one in hand, and none ever will: for any number of workers, any preloaded tasks,
    whatever processing pushes, and every interleaving of their accesses. *)
Theorem termination_means_done qs tr c tr' c' i : Z.of_nat (length qs) < 2 ^ 31 ->
  term_run (term_start qs) tr c -> workers c !! i = Some Finished -> term_run c tr' c' ->
  Forall (fun k => k = 0%nat) (tasks c') /\ Forall (fun w => active w = false) (workers c').
Proof.
  intros Hl Hr Hi Hr'. pose proof (term_run_inv _ _ _ (term_inv_start qs Hl) Hr) as Hinv.
  apply (term_finished c' (term_run_inv _ _ _ Hinv Hr') i). by eapply term_run_finished.
Qed.

Lemma committed_after c tr c' : term_inv c -> no_work c -> term_run c tr c' ->
  (forall i w, workers c' !! i = Some w -> (3 <= moves i tr)%nat \/ w = Finished) ->
  term_inv c' /\ no_work c' /\ all_committed c'.
Proof.
  intros Hinv Hno Hr Hm.
  destruct (rank_run commit_rank (fun c => term_inv c /\ no_work c) c tr c') as [[Hinv' Hno'] Hle]; [|done..|].
  - intros c1 i c2 [H1 H2] Hs. destruct (no_work_step _ _ _ H1 H2 Hs) as (w & w' & ? & ? & _ & ? & ? & _).
    split; [split; [by eapply term_step_inv|done]|]. by exists w, w'.
  - split_and!; [done..|]. apply all_committed_ranks. intros i. specialize (Hle i).
    unfold rank_at in *. destruct (workers c' !! i) as [w|] eqn:Ei; [|done].
    destruct (Hm i w Ei) as [H3| ->]; [|done]. simpl in *.
    assert (default 0%nat (commit_rank <$> workers c !! i) <= 3)%nat by (destruct (workers c !! i) as [[]|]; simpl; lia).
    lia.
Qed.

Lemma finished_after c tr c' : term_inv c -> no_work c -> all_committed c -> term_run c tr c' ->
  (forall i w, workers c' !! i = Some w -> (2 + length (tasks c) <= moves i tr)%nat \/ w = Finished) ->
  Forall (fun w => w = Finished) (workers c').
Proof.
  intros Hinv Hno Hall Hr Hm. set (n := length (tasks c)) in *.
  destruct (rank_run (finish_rank n) (fun c => term_inv c /\ no_work c /\ all_committed c /\ length (tasks c) = n) c tr c')
    as [(Hinv' & Hno' & Hall' & _) Hle]; [|done..|].
  - intros c1 i c2 (H1 & H2 & H3 & H4) Hs.
    destruct (no_work_step _ _ _ H1 H2 Hs) as (w & w' & Hi & E & Et & Hno2 & Hc & Hf).
    specialize (Hf H3). rewrite H4 in Hf. split; [|exists w, w'; split_and!; [done..|lia]].
    split_and!; [by eapply term_step_inv|done| |by rewrite Et].
    apply all_committed_ranks. intros j. destruct (rank_at_insert commit_rank c1 i w w' c2 j Hi E) as [E1 ->].
    pose proof (proj1 (all_committed_ranks c1) H3) as Hz. specialize (Hz i) as Hzi. specialize (Hz j).
    destruct (decide (j = i)); lia.
  - apply Forall_lookup. intros i w Hi. destruct (Hm i w Hi) as [H2|]; [|done]. specialize (Hle i).
    unfold rank_at in Hle. rewrite Hi in Hle.
    assert (Hcw : commit_rank w = O) by apply (Forall_lookup_1 _ _ _ _ Hall' Hi).
    assert (Haw : active w = false) by apply (Forall_lookup_1 _ _ _ _ (proj2 Hno') Hi).
    assert (default 0%nat (finish_rank n <$> workers c !! i) <= 2 + n)%nat
      by (destruct (workers c !! i) as [[]|]; simpl; lia).
    destruct w; simpl in *; try done; lia.
Qed.

(** C17: The protocol ends: once there is no work, it is enough that every worker makes three steps, by
    which its offer stands, and then two more than there are queues, by which it sees that all
    offers stand; then every worker has been told to terminate.  A worker that has already ended
    need not move. *)
Theorem termination_reached qs tr0 c tr1 c1 tr2 c2 : Z.of_nat (length qs) < 2 ^ 31 ->
  term_run (term_start qs) tr0 c -> no_work c ->
  term_run c tr1 c1 -> (forall i w, workers c1 !! i = Some w -> (3 <= moves i tr1)%nat \/ w = Finished) ->
  term_run c1 tr2 c2 -> (forall i w, workers c2 !! i = Some w -> (2 + length (tasks c1) <= moves i tr2)%nat \/ w = Finished) ->
  Forall (fun w => w = Finished) (workers c2) /\ offered c2 = n_threads c2 /\ reset_for_reuse (offered c2) = 0.
Proof.
  intros Hl Hr0 Hno Hr1 Hm1 Hr2 Hm2. pose proof (term_run_inv _ _ _ (term_inv_start qs Hl) Hr0) as Hinv.
  destruct (committed_after c tr1 c1 Hinv Hno Hr1 Hm1) as (Hinv1 & Hno1 & Hall1).
  pose proof (finished_after c1 tr2 c2 Hinv1 Hno1 Hall1 Hr2 Hm2) as Hfin.
  pose proof (term_run_inv _ _ _ Hinv1 Hr2) as Hinv2. split_and!; [done| |].
  - rewrite (term_offered _ Hinv2). unfold n_threads. f_equal. clear - Hfin.
    induction (workers c2) as [|w ws IH]; [done|]. apply list.Forall_cons in Hfin as [-> ?]. simpl. by rewrite IH.
  - unfold reset_for_reuse. by destruct (Z.eqb_spec (offered c2) 0).
Qed.

(* ------------------------------------------------------------------ *)
(** ** The counters of the waiting loop *)

Definition spin_ok (l : spin) : Prop :=
  0 <= yield_count l <= 1001 /\ 0 <= hard_spin_count l <= 11 /\ hard_spin_start <= hard_spin_limit l <= 4096.

(** The counters stay small: at most 4096 hard spins in a turn, at most eleven such turns between
    two yields, and a sleep after every 1001 turns. *)
Lemma spin_turn_ok l : spin_ok l ->
  let '(p, l') := spin_turn l in
  spin_ok l' /\
  match p with
  | HardSpin k => 0 < k <= 4096 /\ hard_spin_count l' = hard_spin_count l + 1 /\ yield_count l' = yield_count l + 1
  | Yield => hard_spin_count l = 11 /\ hard_spin_count l' = 0 /\ yield_count l' = yield_count l + 1
  | Sleep => yield_count l = 1001 /\ yield_count l' = 0
  end.
Proof.
  intros (Hy & Hh & Hm). change hard_spin_start with 4 in Hm. unfold spin_ok, spin_turn.
  change hard_spin_start with 4. change (u32 WorkStealingHardSpins) with 4096.
  change WorkStealingYieldsBeforeSleep with 1000. change WorkStealingSpinToYieldRatio with 10.
  assert (Hu : forall x, 0 <= x < 10000 -> u32 x = x)
    by (intros x Hx; apply uwrap_small; [lia|]; unfold in_u; change (2 ^ 32) with 4294967296; lia).
  destruct (Z.leb_spec (yield_count l) 1000); [destruct (Z.ltb_spec 10 (hard_spin_count l))|];
    cbn [yield_count hard_spin_count hard_spin_limit]; rewrite ?Hu by lia; lia.
Qed.

(* ------------------------------------------------------------------ *)
(** ** Two workers and one task *)

Ltac offer_by R i seen := eapply term_snoc in R; [|eapply (offer _ _ _ i _ seen);
  [reflexivity | first [exact I | reflexivity | by exists false] | vm_compute; reflexivity]]; cbn in R.

(** All the work done, and both about to steal. *)
Abbreviation toy_idle := {| offered := 0; tasks := [0; 0]%nat; workers := [Stealing; Stealing] |}.
Abbreviation toy_waiting := {| offered := 2; tasks := [0; 0]%nat;
                               workers := [OfferPeek (spin_turn spin_start).2 0; Finished] |}.
Abbreviation toy_finished := {| offered := 2; tasks := [0; 0]%nat; workers := [Finished; Finished] |}.

Lemma toy_run_idle : term_run (term_start [1; 0]%nat) [0; 0; 0; 1]%nat toy_idle.
Proof.
  pose proof (term_nil (term_start [1; 0]%nat)) as R.
  eapply term_snoc in R; [|apply (drain_pop _ _ _ 0 0); reflexivity]. cbn in R.
  eapply term_snoc in R; [|apply (process_done _ _ _ 0); reflexivity]. cbn in R.
  eapply term_snoc in R; [|apply (drain_done _ _ _ 0); reflexivity]. cbn in R.
  eapply term_snoc in R; [|apply (drain_done _ _ _ 1); reflexivity]. cbn in R.
  exact R.
Qed.

Lemma toy_run_waiting : term_run toy_idle [0; 0; 0; 1; 1; 1]%nat toy_waiting.
Proof.
  pose proof (term_nil toy_idle) as R.
  eapply term_snoc in R; [|apply (steal_nothing _ _ _ 0); reflexivity]. cbn in R.
  do 2 offer_by R 0%nat (@None bool).
  eapply term_snoc in R; [|apply (steal_nothing _ _ _ 1); reflexivity]. cbn in R.
  do 2 offer_by R 1%nat (@None bool). exact R.
Qed.

Lemma toy_run_finished : term_run toy_waiting [0; 0; 0; 0]%nat toy_finished.
Proof. pose proof (term_nil toy_waiting) as R. do 2 offer_by R 0%nat (Some false). do 2 offer_by R 0%nat (@None bool). exact R. Qed.

Lemma term_run_app c tr c1 tr' c2 : term_run c tr c1 -> term_run c1 tr' c2 -> term_run c (tr ++ tr') c2.
Proof.
  intros H H'. induction H' as [|c1 tr' c2 i c3 H' IH Hs]; [by rewrite app_nil_r|].
  rewrite app_assoc. eapply term_snoc; [by apply IH | done].
Qed.

Lemma termination_means_done_witness :
  Forall (fun k => k = 0%nat) (tasks toy_finished) /\ Forall (fun w => active w = false) (workers toy_finished).
Proof.
  assert (Hl : Z.of_nat (length [1; 0]%nat) < 2 ^ 31) by done.
  exact (termination_means_done [1; 0]%nat _ toy_waiting _ toy_finished 1 Hl
           (term_run_app _ _ _ _ _ toy_run_idle toy_run_waiting) eq_refl toy_run_finished).
Defined.

Lemma termination_reached_witness :
  Forall (fun w => w = Finished) (workers toy_finished) /\ offered toy_finished = n_threads toy_finished /\
  reset_for_reuse (offered toy_finished) = 0.
Proof.
  assert (Hl : Z.of_nat (length [1; 0]%nat) < 2 ^ 31) by done.
  assert (Hno : no_work toy_idle) by (split; repeat constructor).
  refine (termination_reached [1; 0]%nat _ toy_idle _ toy_waiting _ toy_finished Hl toy_run_idle Hno
            toy_run_waiting _ toy_run_finished _).
  - intros [|[|i]] w Hi; [left; vm_compute; lia|right; by injection Hi as <-|done].
  - intros [|[|i]] w Hi; [right; by injection Hi as <-..|done].
Defined.
