(* ===== verification/Stack.v ===== *)
(** * Stack: stacks of linked segments, utilities/stack.hpp and stack.inline.hpp

    A stack is a list of segments linked from the newest to the oldest, all but the first full, and a
    second list of emptied segments kept for reuse.  Segments are arrays allocated on demand; the
    heap that holds them is the state the operations pass on, an element that was never written
    is [None], and reading it, or a segment that was freed, is an undefined access.
    The theorems are in [StackSpec]. *)

From stdpp Require Import gmap list.
From S2P Require Import Prelude GlobalDefs.

Definition max_uintx : Z := 2 ^ 64 - 1.

(* ------------------------------------------------------------------ *)
(** ** Sizes *)

Definition adjust_max_size (max_size seg_size : Z) : Z :=
  let limit := u64 (max_uintx - (seg_size - 1)) in
  let max_size := if (max_size =? 0) || (limit <? max_size) then limit else max_size in
  u64 (u64 (u64 (max_size + seg_size) - 1) / seg_size * seg_size).

(** For elements of [elem_sz] bytes, and pointers of eight. *)
Definition default_segment_size (elem_sz : Z) : Z := (4096 - 2 * 8) / elem_sz.
Definition adjust_segment_size (elem_sz seg_size : Z) : Z :=
  if elem_sz <? 8 then u64 (align_size_up (u64 (seg_size * elem_sz)) 8) / elem_sz else seg_size.
Definition link_offset (elem_sz seg_size : Z) : Z := u64 (align_size_up (u64 (seg_size * elem_sz)) 8).
Definition segment_bytes (elem_sz seg_size : Z) : Z := u64 (link_offset elem_sz seg_size + 8).

Section Stack.
Context {E : Type}.

(* ------------------------------------------------------------------ *)
(** ** Segments and the fields of a stack *)

Record segment := { seg_elems : list (option E); seg_link : option positive }.
Abbreviation heap := (gmap positive segment).

Record Stack := {
  seg_size : Z; max_size : Z; max_cache_size : Z;
  cur_seg_size : Z; full_seg_size : Z; cache_size : Z;
  cur_seg : option positive; cache : option positive }.

Definition set_sizes (s : Stack) (cur full : Z) : Stack :=
  {| seg_size := seg_size s; max_size := max_size s; max_cache_size := max_cache_size s;
     cur_seg_size := cur; full_seg_size := full; cache_size := cache_size s;
     cur_seg := cur_seg s; cache := cache s |}.
Definition set_cur_seg (s : Stack) (p : option positive) : Stack :=
  {| seg_size := seg_size s; max_size := max_size s; max_cache_size := max_cache_size s;
     cur_seg_size := cur_seg_size s; full_seg_size := full_seg_size s; cache_size := cache_size s;
     cur_seg := p; cache := cache s |}.
Definition set_cache (s : Stack) (n : Z) (p : option positive) : Stack :=
  {| seg_size := seg_size s; max_size := max_size s; max_cache_size := max_cache_size s;
     cur_seg_size := cur_seg_size s; full_seg_size := full_seg_size s; cache_size := n;
     cur_seg := cur_seg s; cache := p |}.

Definition is_empty (s : Stack) : bool := bool_decide (cur_seg s = None).
Definition is_full (s : Stack) : bool := max_size s <=? full_seg_size s.
Definition stack_size (s : Stack) : Z :=
  if is_empty s then 0 else u64 (full_seg_size s + cur_seg_size s).

Definition reset (reset_cache : bool) (s : Stack) : Stack :=
  let s := set_cur_seg (set_sizes s (seg_size s) 0) None in
  if reset_cache then set_cache s 0 None else s.

(** The constructor; [seg] is the segment size asked for. *)
Definition new_stack (elem_sz seg max_cache max : Z) : Stack :=
  let seg := adjust_segment_size elem_sz seg in
  reset true {| seg_size := seg; max_size := adjust_max_size max seg; max_cache_size := max_cache;
                cur_seg_size := 0; full_seg_size := 0; cache_size := 0; cur_seg := None; cache := None |}.

(* ------------------------------------------------------------------ *)
(** ** The operations *)

Definition get_link (h : heap) (seg : positive) : option (option positive) :=
  g ← h !! seg; Some (seg_link g).
Definition set_link (h : heap) (new_seg : positive) (old_seg : option positive) : option heap :=
  g ← h !! new_seg; Some (<[new_seg := {| seg_elems := seg_elems g; seg_link := old_seg |}]> h).

(** Some address that is not in use, and what is there before anything is written; the bytes of a segment fit a [size_t]. *)
Definition alloc (h : heap) (s : Stack) : positive * heap :=
  let a := fresh (dom h) in
  (a, <[a := {| seg_elems := replicate (Z.to_nat (seg_size s)) None; seg_link := None |}]> h).
Definition free (h : heap) (addr : positive) : option heap := _ ← h !! addr; Some (delete addr h).

Definition push_segment (h : heap) (s : Stack) : option (heap * Stack) :=
  '(next, h, s) ← (if 0 <? cache_size s then
                     next ← cache s;
                     link ← get_link h next;
                     Some (next, h, set_cache s (u64 (cache_size s - 1)) link)
                   else let '(next, h) := alloc h s in Some (next, h, s));
  let at_empty_transition := is_empty s in
  h ← set_link h next (cur_seg s);
  Some (h, set_sizes (set_cur_seg s (Some next)) 0
             (u64 (full_seg_size s + if at_empty_transition then 0 else seg_size s))).

Definition pop_segment (h : heap) (s : Stack) : option (heap * Stack) :=
  seg ← cur_seg s;
  prev ← get_link h seg;
  '(h, s) ← (if cache_size s <? max_cache_size s then
               h ← set_link h seg (cache s);
               Some (h, set_cache s (u64 (cache_size s + 1)) (Some seg))
             else h ← free h seg; Some (h, s));
  let at_empty_transition := bool_decide (prev = None) in
  Some (h, set_sizes (set_cur_seg s prev) (seg_size s)
             (u64 (full_seg_size s - if at_empty_transition then 0 else seg_size s))).

Definition push (h : heap) (s : Stack) (item : E) : option (heap * Stack) :=
  '(h, s) ← (if cur_seg_size s =? seg_size s then push_segment h s else Some (h, s));
  seg ← cur_seg s;
  g ← h !! seg;
  es ← arr_set (seg_elems g) (cur_seg_size s) (Some item);
  Some (<[seg := {| seg_elems := es; seg_link := seg_link g |}]> h,
        set_sizes s (u64 (cur_seg_size s + 1)) (full_seg_size s)).

(** [_cur_seg[--_cur_seg_size]] *)
Definition take_top (h : heap) (s : Stack) : option (E * Stack) :=
  let s := set_sizes s (u64 (cur_seg_size s - 1)) (full_seg_size s) in
  seg ← cur_seg s;
  g ← h !! seg;
  x ← mjoin (arr_get (seg_elems g) (cur_seg_size s)); Some (x, s).

Definition pop (h : heap) (s : Stack) : option (E * heap * Stack) :=
  if cur_seg_size s =? 1 then
    '(tmp, s) ← take_top h s;
    '(h, s) ← pop_segment h s; Some (tmp, h, s)
  else '(x, s) ← take_top h s; Some (x, h, s).

(** The fuel is the number of turns; one more than the segments there are is enough. *)
Fixpoint free_segments (fuel : nat) (h : heap) (seg : option positive) : option heap :=
  match seg with
  | None => Some h
  | Some a =>
      match fuel with
      | O => None
      | S fuel => prev ← get_link h a; h ← free h a; free_segments fuel h prev
      end
  end.

Definition clear (clear_cache : bool) (h : heap) (s : Stack) : option (heap * Stack) :=
  h ← free_segments (size h) h (cur_seg s);
  h ← (if clear_cache then free_segments (size h) h (cache s) else Some h);
  Some (h, reset clear_cache s).

(* ------------------------------------------------------------------ *)
(** ** The iterator *)

Record StackIterator := { it_cur_seg_size : Z; it_cur_seg : option positive; it_full_seg_size : Z }.

Definition it_sync (s : Stack) : StackIterator :=
  {| it_full_seg_size := full_seg_size s; it_cur_seg_size := cur_seg_size s; it_cur_seg := cur_seg s |}.
Definition it_is_empty (it : StackIterator) : bool := bool_decide (it_cur_seg it = None).

(** The address returned is a segment and an index in it. *)
Definition next_addr (h : heap) (s : Stack) (it : StackIterator) : option (positive * Z * StackIterator) :=
  seg ← it_cur_seg it;
  if it_cur_seg_size it =? 1 then
    prev ← get_link h seg;
    Some (seg, 0, {| it_cur_seg := prev; it_cur_seg_size := seg_size s;
                     it_full_seg_size := u64 (it_full_seg_size it - seg_size s) |})
  else
    let n := u64 (it_cur_seg_size it - 1) in
    Some (seg, n, {| it_cur_seg := Some seg; it_cur_seg_size := n;
                     it_full_seg_size := it_full_seg_size it |}).

Definition it_next (h : heap) (s : Stack) (it : StackIterator) : option (E * StackIterator) :=
  '(seg, n, it) ← next_addr h s it;
  g ← h !! seg;
  x ← mjoin (arr_get (seg_elems g) n); Some (x, it).

(** The elements in the order of a loop [while (!it.is_empty()) it.next()]. *)
Fixpoint it_all (fuel : nat) (h : heap) (s : Stack) (it : StackIterator) : option (list E) :=
  if it_is_empty it then Some []
  else match fuel with
       | O => None
       | S fuel => '(x, it) ← it_next h s it; l ← it_all fuel h s it; Some (x :: l)
       end.
End Stack.
Arguments Stack : clear implicits.
Arguments segment : clear implicits.
