(* ===== verification/StackSpec.v ===== *)
(** * StackSpec: the segmented stack is a stack

    [stack_at] relates the fields and the heap to the list of elements, the newest first: the
    current list of segments holds them, the cache holds the spare segments, the two
    share nothing, and together they are all the heap has, so nothing leaks.  The theorems:
    every operation acts on the list as it should and stays within allocated and written
    memory, clearing returns every segment, the iterator shows the list, and [is_full] is late by a segment. *)

From stdpp Require Import gmap list.
From S2P Require Import Prelude GlobalDefs Stack.

Section Spec.
Context {E : Type}.
Implicit Types (h : gmap positive (segment E)) (p : option positive) (ids cids : list positive).
Implicit Types (gs cgs : list (list (option E))) (xs : list E) (s : Stack).

Abbreviation len l := (Z.of_nat (length l)).

(* ------------------------------------------------------------------ *)
(** ** Linked segments *)

(** From [p] the links lead through the segments [ids], which hold [gs], to NULL. *)
Fixpoint chain h p ids gs : Prop :=
  match ids, gs with
  | [], [] => p = None
  | a :: ids, g :: gs => p = Some a /\ exists nxt,
      h !! a = Some {| seg_elems := g; seg_link := nxt |} /\ chain h nxt ids gs
  | _, _ => False
  end.

Lemma chain_frame h h' p ids gs : (forall a, a ∈ ids -> h' !! a = h !! a) ->
  chain h p ids gs -> chain h' p ids gs.
Proof using Type.
  revert p gs. induction ids as [|a ids IH]; intros p [|g gs] Hh; simpl; try done.
  intros [-> (nxt & Ha & Hc)]. split; [done|]. exists nxt. split; [rewrite Hh; [done|set_solver]|].
  apply IH; [|done]. intros b Hb. apply Hh. set_solver.
Qed.

Lemma chain_insert h a g p ids gs : a ∉ ids -> chain h p ids gs -> chain (<[a := g]> h) p ids gs.
Proof using Type. intros Ha. apply chain_frame. intros b Hb. apply lookup_insert_ne. set_solver. Qed.

Lemma chain_delete h a p ids gs : a ∉ ids -> chain h p ids gs -> chain (delete a h) p ids gs.
Proof using Type. intros Ha. apply chain_frame. intros b Hb. apply lookup_delete_ne. set_solver. Qed.

Lemma chain_None h ids gs : chain h None ids gs -> ids = [] /\ gs = [].
Proof using Type. destruct ids, gs; simpl; try done. by intros [[=] _]. Qed.

Lemma chain_Some h a ids gs : chain h (Some a) ids gs -> exists ids' g gs' nxt,
  ids = a :: ids' /\ gs = g :: gs' /\ h !! a = Some {| seg_elems := g; seg_link := nxt |} /\ chain h nxt ids' gs'.
Proof using Type.
  destruct ids as [|b ids], gs as [|g gs]; simpl; try done. intros [[= <-] (nxt & Ha & Hc)].
  by exists ids, g, gs, nxt.
Qed.

Lemma chain_length h p ids gs : chain h p ids gs -> length ids = length gs.
Proof using Type.
  revert p gs. induction ids as [|a ids IH]; intros p [|g gs]; simpl; try done.
  intros [_ (nxt & _ & Hc)]. f_equal. by eapply IH.
Qed.

(** Segments that are full, the newest first. *)
Fixpoint full_content gs xs : Prop :=
  match gs with
  | [] => xs = []
  | g :: gs => exists l rest, g = Some <$> l /\ xs = rev l ++ rest /\ full_content gs rest
  end.

Lemma full_content_length n gs xs : Forall (fun g => len g = n) gs -> full_content gs xs -> len xs = n * len gs.
Proof using Type.
  revert xs. induction gs as [|g gs IH]; intros xs Hn; cbn [full_content]; [by intros ->; simpl; lia|].
  apply list.Forall_cons in Hn as [Hg Hn]. intros (l & rest & -> & -> & Hf). rewrite length_fmap in Hg.
  specialize (IH rest Hn Hf). rewrite length_app, length_rev. cbn [length]. nia.
Qed.

(* ------------------------------------------------------------------ *)
(** ** The invariant *)

(** The elements of the segments [gs], [n] of them in the first. *)
Definition content gs (n : Z) (full : Z) xs : Prop :=
  match gs with
  | [] => xs = [] /\ full = 0
  | g :: gs => exists top rest, xs = rev top ++ rest /\ len top = n /\
      take (length top) g = Some <$> top /\ full_content gs rest /\ full = len rest
  end.

Record stack_at h s ids gs cids cgs xs : Prop := {
  at_seg : 0 < seg_size s < 2 ^ 64;
  at_chain : chain h (cur_seg s) ids gs;
  at_cache : chain h (cache s) cids cgs;
  at_nodup : NoDup (ids ++ cids);
  at_dom : dom h = (list_to_set (ids ++ cids) : gset positive);
  at_sizes : Forall (fun g => len g = seg_size s) (gs ++ cgs);
  at_content : content gs (cur_seg_size s) (full_seg_size s) xs;
  at_cur : if gs is [] then cur_seg_size s = seg_size s else 0 <= cur_seg_size s <= seg_size s;
  at_cached : cache_size s = len cids /\ len cids <= max_cache_size s < 2 ^ 64 }.

(** Between operations the first segment is not empty. *)
Definition stack_ok h s xs : Prop :=
  exists ids gs cids cgs, stack_at h s ids gs cids cgs xs /\ (gs <> [] -> 0 < cur_seg_size s).

Lemma u64_small x : 0 <= x < 2 ^ 64 -> u64 x = x.
Proof using Type. intros Hx. by apply uwrap_small. Qed.

Lemma stack_reset_ok s : 0 < seg_size s < 2 ^ 64 -> 0 <= max_cache_size s < 2 ^ 64 -> stack_ok ∅ (reset true s) [].
Proof using Type.
  intros Hs Hc. exists [], [], [], []. split; [|done]. split; simpl; try done. apply NoDup_nil_2.
Qed.

Lemma stack_is_empty_ok h s xs : stack_ok h s xs -> is_empty s = bool_decide (xs = []).
Proof using Type.
  intros (ids & gs & cids & cgs & [Hseg Hch _ _ _ Hsz Hc _ _] & Hpos). unfold is_empty.
  apply bool_decide_ext. destruct (cur_seg s) as [a|] eqn:Ea.
  - apply chain_Some in Hch as (ids' & g & gs' & nxt & -> & -> & _). split; [done|]. intros ->.
    destruct Hc as (top & rest & E0 & Hlen & _). specialize (Hpos ltac:(done)). symmetry in E0.
    apply app_eq_nil in E0 as [E0 _]. apply (f_equal length) in E0. rewrite length_rev in E0. simpl in E0. lia.
  - apply chain_None in Hch as [-> ->]. split; [|done]. intros _. apply Hc.
Qed.

Lemma stack_size_ok h s xs : len xs < 2 ^ 64 -> stack_ok h s xs -> stack_size s = len xs.
Proof using Type.
  intros Hlen H. unfold stack_size. rewrite (stack_is_empty_ok h s xs H). destruct (decide (xs = [])) as [->|Hne].
  - by rewrite bool_decide_eq_true_2.
  - rewrite bool_decide_eq_false_2 by done. destruct H as (ids & gs & cids & cgs & [_ _ _ _ _ _ Hc _ _] & _).
    destruct gs as [|g gs]; simpl in Hc; [by destruct Hc|].
    destruct Hc as (top & rest & -> & <- & _ & _ & ->). rewrite length_app, length_rev in *.
    rewrite u64_small; lia.
Qed.

(* ------------------------------------------------------------------ *)
(** ** Pushing *)

Lemma is_empty_chain h s ids gs : chain h (cur_seg s) ids gs -> is_empty s = if gs is [] then true else false.
Proof using Type.
  intros Hc. unfold is_empty. destruct (cur_seg s) as [a|].
  - apply chain_Some in Hc as (ids' & g & gs' & nxt & -> & -> & _). done.
  - by apply chain_None in Hc as [-> ->].
Qed.

(** A stack whose first segment is used up has only full ones. *)
Lemma content_full h s ids gs cids cgs xs : stack_at h s ids gs cids cgs xs -> cur_seg_size s = seg_size s ->
  full_content gs xs /\ full_seg_size s + (if gs is [] then 0 else seg_size s) = len xs.
Proof using Type.
  intros [_ _ _ _ _ Hsz Hc _ _] Eq. destruct gs as [|g gs]; simpl in Hc.
  - destruct Hc as [-> ->]. done.
  - destruct Hc as (top & rest & -> & Hlen & Hg & Hf & ->).
    apply List.Forall_app in Hsz as [Hsz _]. apply list.Forall_cons in Hsz as [Hlg _].
    rewrite take_ge in Hg by lia. split; [by exists top, rest|]. rewrite length_app, length_rev. lia.
Qed.

(** A segment [a] outside both lists becomes the first of the current ones. *)
Lemma stack_at_link h1 s1 a g1 l1 ids gs cids cgs xs : 0 < seg_size s1 < 2 ^ 64 -> len xs < 2 ^ 64 ->
  h1 !! a = Some {| seg_elems := g1; seg_link := l1 |} -> len g1 = seg_size s1 ->
  chain h1 (cur_seg s1) ids gs -> chain h1 (cache s1) cids cgs -> NoDup (a :: ids ++ cids) ->
  dom h1 = (list_to_set (a :: ids ++ cids) : gset positive) ->
  Forall (fun g => len g = seg_size s1) (gs ++ cgs) -> full_content gs xs ->
  full_seg_size s1 + (if gs is [] then 0 else seg_size s1) = len xs ->
  (cache_size s1 = len cids /\ len cids <= max_cache_size s1 < 2 ^ 64) ->
  stack_at (<[a := {| seg_elems := g1; seg_link := cur_seg s1 |}]> h1)
    (set_sizes (set_cur_seg s1 (Some a)) 0 (u64 (full_seg_size s1 + if is_empty s1 then 0 else seg_size s1)))
    (a :: ids) (g1 :: gs) cids cgs xs.
Proof using Type.
  intros Hseg Hx Ha Hg1 Hcur Hcache Hnd Hdom Hsz Hf Hfull Hcs. rewrite (is_empty_chain h1 s1 ids gs Hcur).
  apply list.NoDup_cons in Hnd as Hnd'. destruct Hnd' as [Hnin _]. rewrite elem_of_app in Hnin.
  split; cbn [seg_size cur_seg cache cur_seg_size full_seg_size cache_size max_cache_size set_sizes set_cur_seg]; try done.
  - cbn [chain]. split; [done|]. exists (cur_seg s1). rewrite lookup_insert_eq. split; [done|].
    apply chain_insert; [tauto|done].
  - apply chain_insert; [tauto|done].
  - rewrite dom_insert_L, Hdom. clear. set_solver.
  - simpl. constructor; done.
  - exists [], xs. split_and!; try done. rewrite <- Hfull in Hx |- *. clear - Hseg Hx Hfull.
    assert (0 <= len xs) by lia. destruct gs; apply u64_small; lia.
  - lia.
Qed.

Lemma push_segment_ok h s ids gs cids cgs xs : len xs < 2 ^ 64 -> stack_at h s ids gs cids cgs xs ->
  cur_seg_size s = seg_size s ->
  exists h' s' a g cids' cgs', push_segment h s = Some (h', s') /\
    stack_at h' s' (a :: ids) (g :: gs) cids' cgs' xs /\ cur_seg_size s' = 0.
Proof using Type.
  intros Hx Hat Hfull. destruct (content_full _ _ _ _ _ _ _ Hat Hfull) as [Hfc Hfl].
  destruct Hat as [Hseg Hch Hca Hnd Hdom Hsz _ _ [Hcs Hmax]]. unfold push_segment.
  destruct (Z.ltb_spec 0 (cache_size s)) as [Hpos|Hz].
  - destruct cids as [|c cids]; [simpl in *; lia|]. destruct cgs as [|g cgs]; [by destruct (cache s)|].
    destruct Hca as [-> (nxt & Hc & Hca)]. cbn. unfold get_link. rewrite Hc. cbn. unfold set_link. rewrite Hc. cbn.
    assert (Hperm : Permutation (ids ++ c :: cids) (c :: ids ++ cids)) by (symmetry; apply Permutation_middle).
    do 6 eexists. split; [done|]. split; [|done].
    apply (stack_at_link h (set_cache s (u64 (cache_size s - 1)) nxt) c g nxt); try done;
      cbn [seg_size cur_seg cache cache_size max_cache_size set_cache].
    + apply List.Forall_app in Hsz as [_ Hsz]. by apply list.Forall_cons in Hsz as [? _].
    + by rewrite <- Hperm.
    + rewrite Hdom. by rewrite Hperm.
    + apply List.Forall_app in Hsz as [? Hsz]. apply list.Forall_cons in Hsz as [_ ?]. by apply List.Forall_app.
    + cbn [length] in *. rewrite u64_small by lia. lia.
  - assert (cids = []) as -> by (apply nil_length_inv; lia).
    assert (cgs = []) as -> by (apply chain_length in Hca; by destruct cgs).
    unfold alloc. set (a := fresh (dom h)). assert (Ha : a ∉ dom h) by apply is_fresh.
    set (blank := {| seg_elems := replicate (Z.to_nat (seg_size s)) None; seg_link := None |} : segment E).
    cbn. unfold set_link. rewrite lookup_insert_eq. cbn.
    rewrite app_nil_r in *. rewrite Hdom, elem_of_list_to_set in Ha.
    do 6 eexists. split; [done|]. split; [|done].
    apply (stack_at_link (<[a := blank]> h) s a _ None ids gs [] []); try done.
    + apply lookup_insert_eq.
    + rewrite length_replicate. lia.
    + by apply chain_insert.
    + rewrite app_nil_r. by constructor.
    + rewrite dom_insert_L, Hdom, app_nil_r. clear. set_solver.
    + by rewrite app_nil_r.
Qed.

(** Storing into the first segment, which has room. *)
Lemma store_ok h s a ids g gs cids cgs xs x : stack_at h s (a :: ids) (g :: gs) cids cgs xs ->
  cur_seg_size s < seg_size s ->
  exists h' s', (seg ← cur_seg s; g ← h !! seg; es ← arr_set (seg_elems g) (cur_seg_size s) (Some x);
                 Some (<[seg := {| seg_elems := es; seg_link := seg_link g |}]> h,
                       set_sizes s (u64 (cur_seg_size s + 1)) (full_seg_size s))) = Some (h', s') /\
    stack_ok h' s' (x :: xs).
Proof using Type.
  intros [Hseg Hch Hca Hnd Hdom Hsz Hc Hcur Hcs] Hlt. destruct Hch as [Ep (nxt & Ha & Hch)].
  apply list.Forall_cons in Hsz as Hsz'. destruct Hsz' as [Hg Hsz'].
  rewrite Ep. cbn. rewrite Ha. cbn. rewrite arr_set_Some by lia. cbn.
  set (n := Z.to_nat (cur_seg_size s)) in *. set (g' := <[n := Some x]> g).
  do 2 eexists. split; [done|]. exists (a :: ids), (g' :: gs), cids, cgs.
  assert (Hnin : (a ∉ ids) /\ (a ∉ cids)) by (apply list.NoDup_cons in Hnd as [Hn _]; rewrite elem_of_app in Hn; tauto).
  assert (Hu : u64 (cur_seg_size s + 1) = cur_seg_size s + 1) by (apply u64_small; lia).
  split; [|cbn [cur_seg_size set_sizes]; rewrite Hu; lia].
  split; cbn [seg_size cur_seg cache cur_seg_size full_seg_size cache_size max_cache_size set_sizes]; try done.
  - cbn [chain]. split; [done|]. exists nxt. rewrite lookup_insert_eq. split; [done|]. apply chain_insert; [apply Hnin|done].
  - apply chain_insert; [apply Hnin|done].
  - rewrite dom_insert_L, Hdom. apply subseteq_union_1_L. cbn. clear. set_solver.
  - cbn. constructor; [|done]. unfold g'. by rewrite length_insert.
  - destruct Hc as (top & rest & -> & Hlen & Ht & Hf & Hfull). exists (top ++ [x]), rest.
    rewrite rev_app_distr, length_app, Hu. split_and!; [done|simpl; lia| |done..].
    assert (Hn : n = length top) by lia. rewrite fmap_app. cbn [fmap list_fmap length].
    unfold g'. rewrite Nat.add_1_r, (take_S_r _ _ (Some x)).
    + rewrite Hn, take_insert_ge, Ht by lia. done.
    + rewrite Hn. apply list_lookup_insert_eq. lia.
  - rewrite Hu. lia.
Qed.

Lemma stack_push_ok h s xs x : len xs < 2 ^ 64 -> stack_ok h s xs ->
  exists h' s', push h s x = Some (h', s') /\ stack_ok h' s' (x :: xs).
Proof using Type.
  intros Hx (ids & gs & cids & cgs & Hat & Hpos). unfold push.
  destruct (Z.eqb_spec (cur_seg_size s) (seg_size s)) as [Eq|Hne].
  - destruct (push_segment_ok h s ids gs cids cgs xs Hx Hat Eq) as (h1 & s1 & a & g & cids' & cgs' & -> & Hat1 & E0).
    cbn -[u64]. eapply store_ok; [done|]. rewrite E0. apply Hat1.
  - pose proof (at_cur _ _ _ _ _ _ _ Hat) as Hcur. pose proof (at_chain _ _ _ _ _ _ _ Hat) as Hch.
    destruct gs as [|g gs]; [done|]. destruct ids as [|a ids]; [done|].
    eapply store_ok; [done|lia].
Qed.

(* ------------------------------------------------------------------ *)
(** ** Popping *)

(** The last element written to the first segment, and what is left without it. *)
Lemma content_top g gs n full x xs : content (g :: gs) n full (x :: xs) -> 0 < n <= len g ->
  mjoin (arr_get g (n - 1)) = Some x /\ content (g :: gs) (n - 1) full xs.
Proof using Type.
  intros (top & rest & Ex & Hlen & Ht & Hf & Hfull) Hn.
  destruct top as [|y top _] using rev_ind; [simpl in *; lia|].
  rewrite rev_app_distr in Ex. simpl in Ex. injection Ex as <- ->.
  rewrite length_app in *. cbn [length] in *. rewrite fmap_app in Ht.
  assert (Hlast : g !! length top = Some (Some x)).
  { rewrite <- (lookup_take_lt g (length top + 1)) by lia. rewrite Ht, lookup_app_r by (by rewrite length_fmap).
    by rewrite length_fmap, Nat.sub_diag. }
  split.
  - unfold arr_get. destruct (Z.leb_spec 0 (n - 1)); [|lia].
    replace (Z.to_nat (n - 1)) with (length top) by lia. by rewrite Hlast.
  - exists top, rest. split_and!; try done; [lia|].
    replace (length top) with (length top `min` (length top + 1))%nat by lia.
    rewrite <- take_take, Ht, take_app_le, take_ge by (rewrite length_fmap; lia). done.
Qed.

(** A segment emptied by a pop leaves full ones. *)
Lemma content_next g gs full xs : content (g :: gs) 0 full xs -> full_content gs xs /\ full = len xs.
Proof using Type. intros (top & rest & -> & Hlen & _ & Hf & ->). destruct top; [done | simpl in Hlen; lia]. Qed.

(** Full segments seen from their first. *)
Lemma content_of_full gs xs n : Forall (fun g => len g = n) gs -> full_content gs xs -> 0 <= n ->
  content gs n (len xs - if gs is [] then 0 else n) xs.
Proof using Type.
  intros Hsz Hf Hn. destruct gs as [|g gs]; simpl in Hf; [by subst|].
  destruct Hf as (l & rest & -> & -> & Hf). apply list.Forall_cons in Hsz as [Hl _]. rewrite length_fmap in Hl.
  exists l, rest. rewrite length_app, length_rev. split_and!; try done; [|lia].
  by rewrite take_ge by (by rewrite length_fmap).
Qed.

Lemma take_top_ok h s ids gs cids cgs x xs : stack_at h s ids gs cids cgs (x :: xs) -> 0 < cur_seg_size s ->
  take_top h s = Some (x, set_sizes s (cur_seg_size s - 1) (full_seg_size s)) /\
  exists a ids' g gs', ids = a :: ids' /\ gs = g :: gs' /\
    content gs (cur_seg_size s - 1) (full_seg_size s) xs.
Proof using Type.
  intros [Hseg Hch _ _ _ Hsz Hc Hcur _] Hpos. destruct gs as [|g gs]; [by destruct Hc|].
  destruct ids as [|a ids]; [done|]. destruct Hch as [Ep (nxt & Ha & Hch)].
  apply list.Forall_cons in Hsz as [Hg _].
  destruct (content_top g gs _ _ x xs Hc ltac:(lia)) as [Hx Hc'].
  split; [|by exists a, ids, g, gs]. unfold take_top. rewrite u64_small by lia.
  cbn [cur_seg set_sizes]. rewrite Ep. cbn -[arr_get]. rewrite Ha. cbn -[arr_get]. by rewrite Hx.
Qed.

(** With the last element of the first segment gone, the segment goes to the cache or back. *)
Lemma pop_segment_ok h s a ids g gs cids cgs xs nxt : 0 < seg_size s < 2 ^ 64 -> len xs < 2 ^ 64 ->
  cur_seg s = Some a -> h !! a = Some {| seg_elems := g; seg_link := nxt |} -> chain h nxt ids gs ->
  chain h (cache s) cids cgs -> NoDup (a :: ids ++ cids) ->
  dom h = (list_to_set (a :: ids ++ cids) : gset positive) ->
  Forall (fun g => len g = seg_size s) (g :: gs ++ cgs) -> full_content gs xs -> full_seg_size s = len xs ->
  cache_size s = len cids /\ len cids <= max_cache_size s < 2 ^ 64 ->
  exists h' s', pop_segment h s = Some (h', s') /\ stack_ok h' s' xs.
Proof using Type.
  intros Hseg Hx Ep Ha Hch Hca Hnd Hdom Hsz Hf Hfull [Hcs Hmax].
  apply list.NoDup_cons in Hnd as Hnd'. destruct Hnd' as [Hn Hnd']. rewrite elem_of_app in Hn.
  apply list.Forall_cons in Hsz as [Hg Hsz].
  assert (Hcontent : content gs (seg_size s)
            (u64 (full_seg_size s - if bool_decide (nxt = None) then 0 else seg_size s)) xs).
  { apply List.Forall_app in Hsz as [Hsz _].
    pose proof (content_of_full gs xs (seg_size s) Hsz Hf ltac:(lia)) as Hc.
    pose proof (full_content_length _ _ _ Hsz Hf) as Hlen. pose proof (chain_length _ _ _ _ Hch) as Hlc.
    destruct gs as [|g2 gs], ids as [|b ids]; try done; rewrite Hfull.
    - simpl in Hch. subst nxt. rewrite bool_decide_eq_true_2, u64_small by (done || lia). done.
    - destruct Hch as [-> _]. rewrite bool_decide_eq_false_2 by done. cbn [length] in Hlen.
      rewrite u64_small by nia. done. }
  unfold pop_segment. rewrite Ep. cbn. unfold get_link. rewrite Ha. cbn.
  destruct (Z.ltb_spec (cache_size s) (max_cache_size s)).
  - unfold set_link. rewrite Ha. cbn. do 2 eexists. split; [done|]. exists ids, gs, (a :: cids), (g :: cgs).
    split; [|cbn; lia]. split; cbn [seg_size cur_seg cache cur_seg_size full_seg_size cache_size max_cache_size set_sizes set_cur_seg set_cache]; try done.
    + apply chain_insert; [tauto|done].
    + cbn [chain]. split; [done|]. exists (cache s). rewrite lookup_insert_eq. split; [done|].
      apply chain_insert; [tauto|done].
    + by rewrite <- Permutation_middle.
    + rewrite dom_insert_L, Hdom, <- Permutation_middle. clear. set_solver.
    + rewrite <- Permutation_middle. by constructor.
    + destruct gs; lia.
    + cbn [length]. rewrite u64_small by lia. lia.
  - unfold free. rewrite Ha. cbn. do 2 eexists. split; [done|]. exists ids, gs, cids, cgs.
    split; [|cbn; lia]. split; cbn [seg_size cur_seg cache cur_seg_size full_seg_size cache_size max_cache_size set_sizes set_cur_seg set_cache]; try done.
    + apply chain_delete; [tauto|done].
    + apply chain_delete; [tauto|done].
    + rewrite dom_delete_L, Hdom, list_to_set_cons. clear - Hn. set_solver.
    + destruct gs; lia.
Qed.

Lemma stack_pop_ok h s x xs : len (x :: xs) < 2 ^ 64 -> stack_ok h s (x :: xs) ->
  exists h' s', pop h s = Some (x, h', s') /\ stack_ok h' s' xs.
Proof using Type.
  intros Hx (ids & gs & cids & cgs & Hat & Hpos). cbn [length] in Hx.
  assert (Hcpos : 0 < cur_seg_size s).
  { apply Hpos. intros ->. pose proof (at_content _ _ _ _ _ _ _ Hat) as Hc. by destruct Hc. }
  destruct (take_top_ok h s ids gs cids cgs x xs Hat Hcpos) as (Ht & a & ids' & g & gs' & -> & -> & Hc).
  destruct Hat as [Hseg [Ep (nxt & Ha & Hch)] Hca Hnd Hdom Hsz _ Hcur Hcs]. unfold pop.
  destruct (Z.eqb_spec (cur_seg_size s) 1) as [E1|Hne]; rewrite Ht; cbn [mbind option_bind].
  - rewrite E1 in Hc |- *. destruct (content_next g gs' _ _ Hc) as [Hf Hfull].
    destruct (pop_segment_ok h (set_sizes s (1 - 1) (full_seg_size s)) a ids' g gs' cids cgs xs nxt)
      as (h' & s' & Hp & Hok); try done; [lia|]. rewrite Hp. by exists h', s'.
  - do 2 eexists. split; [done|]. exists (a :: ids'), (g :: gs'), cids, cgs. split; [|cbn; lia].
    split; cbn [seg_size cur_seg cache cur_seg_size full_seg_size cache_size max_cache_size set_sizes]; try done.
    + split; [done|]. by exists nxt.
    + lia.
Qed.

(* ------------------------------------------------------------------ *)
(** ** Clearing *)

Lemma free_segments_ok h fuel p ids gs : chain h p ids gs -> NoDup ids -> (length ids <= fuel)%nat ->
  exists h', free_segments fuel h p = Some h' /\
    (forall b, b ∉ ids -> h' !! b = h !! b) /\ dom h' = dom h ∖ (list_to_set ids : gset positive).
Proof using Type.
  revert h p ids gs. induction fuel as [|fuel IH]; intros h p ids gs Hc Hnd Hl.
  - destruct ids; [|simpl in Hl; lia]. assert (p = None) as -> by (by destruct gs).
    exists h. split_and!; try done. cbn. set_solver.
  - destruct ids as [|a ids], gs as [|g gs]; try done.
    + simpl in Hc. subst p. exists h. split_and!; try done. cbn. set_solver.
    + destruct Hc as [-> (nxt & Ha & Hc)]. apply list.NoDup_cons in Hnd as [Hn Hnd].
      cbn. unfold get_link, free. rewrite Ha. cbn.
      destruct (IH (delete a h) nxt ids gs) as (h' & Hf & Hb & Hdom); [by apply chain_delete|done|simpl in Hl; lia|].
      exists h'. split_and!; [done| |].
      * intros b Hnb. rewrite Hb by set_solver. apply lookup_delete_ne. set_solver.
      * rewrite Hdom, dom_delete_L. set_solver.
Qed.

Lemma size_ids h ids : NoDup ids -> dom h = (list_to_set ids : gset positive) -> size h = length ids.
Proof using Type. intros Hnd Hdom. by rewrite <- size_dom, Hdom, size_list_to_set. Qed.

Lemma stack_clear_ok h s xs cc : stack_ok h s xs ->
  exists h' s', clear cc h s = Some (h', s') /\ stack_ok h' s' [] /\ (cc = true -> h' = ∅).
Proof using Type.
  intros (ids & gs & cids & cgs & [Hseg Hch Hca Hnd Hdom Hsz _ _ [Hcs Hmax]] & _).
  apply list.NoDup_app in Hnd as Hnd'. destruct Hnd' as (Hn1 & Hdisj & Hn2). unfold clear.
  destruct (free_segments_ok h (size h) (cur_seg s) ids gs Hch Hn1) as (h1 & -> & Hb1 & Hd1).
  { rewrite (size_ids h (ids ++ cids)), length_app by done. lia. }
  assert (Hca1 : chain h1 (cache s) cids cgs).
  { eapply chain_frame; [|done]. intros a Ha. apply Hb1. intros Ha'. by apply (Hdisj a). }
  assert (Hdom1 : dom h1 = (list_to_set cids : gset positive)) by (rewrite Hd1, Hdom; set_solver).
  cbn [mbind option_bind]. destruct cc.
  - destruct (free_segments_ok h1 (size h1) (cache s) cids cgs Hca1 Hn2) as (h2 & -> & Hb2 & Hd2).
    { by rewrite (size_ids h1 cids). }
    assert (h2 = ∅) as -> by (apply dom_empty_inv_L; rewrite Hd2, Hdom1; set_solver).
    do 2 eexists. split; [done|]. split; [|done]. apply (stack_reset_ok s); [done|lia].
  - do 2 eexists. split; [done|]. split; [|done]. apply List.Forall_app in Hsz as [_ Hsz].
    exists [], [], cids, cgs. split; [|done]. by split.
Qed.

(* ------------------------------------------------------------------ *)
(** ** Iterating *)

Lemma it_all_ok h s xs : forall it ids gs full, 0 < seg_size s < 2 ^ 64 ->
  chain h (it_cur_seg it) ids gs -> Forall (fun g => len g = seg_size s) gs ->
  content gs (it_cur_seg_size it) full xs -> (gs <> [] -> 0 < it_cur_seg_size it <= seg_size s) ->
  it_all (length xs) h s it = Some xs.
Proof using Type.
  induction xs as [|x xs IH]; intros it ids gs full Hseg Hch Hsz Hc Hpos.
  - cbn. unfold it_is_empty. destruct gs as [|g gs].
    + destruct ids; [|done]. simpl in Hch. by rewrite bool_decide_eq_true_2.
    + exfalso. destruct Hc as (top & rest & E0 & Hlen & _). symmetry in E0. apply app_eq_nil in E0 as [E0 _].
      apply (f_equal length) in E0. rewrite length_rev in E0. simpl in E0. specialize (Hpos ltac:(done)). lia.
  - destruct gs as [|g gs]; [by destruct Hc|]. destruct ids as [|a ids]; [done|].
    destruct Hch as [Ep (nxt & Ha & Hch)]. specialize (Hpos ltac:(done)).
    apply list.Forall_cons in Hsz as Hsz'. destruct Hsz' as [Hg Hsz'].
    destruct (content_top g gs _ _ x xs Hc ltac:(lia)) as [Hx Hc'].
    cbn [length it_all]. unfold it_is_empty. rewrite Ep, bool_decide_eq_false_2 by done.
    unfold it_next, next_addr, get_link. rewrite Ep. cbn [mbind option_bind].
    destruct (Z.eqb_spec (it_cur_seg_size it) 1) as [E1|Hne].
    + rewrite E1 in *. rewrite Ha. cbn [mbind option_bind]. rewrite Ha. cbn [mbind option_bind seg_elems seg_link].
      rewrite (Hx : mjoin (arr_get g 0) = _). cbn [mbind option_bind].
      destruct (content_next g gs _ _ Hc') as [Hf _].
      rewrite (IH _ ids gs (len xs - if gs is [] then 0 else seg_size s)); try done.
      * apply content_of_full; [done..|lia].
      * cbn [it_cur_seg_size]. lia.
    + rewrite u64_small by lia. cbn [mbind option_bind]. rewrite Ha. cbn [mbind option_bind seg_elems]. rewrite Hx. cbn [mbind option_bind].
      rewrite (IH _ (a :: ids) (g :: gs) full); try done.
      * split; [done|]. by exists nxt.
      * cbn [it_cur_seg_size]. lia.
Qed.

Lemma iterate_ok h s xs : stack_ok h s xs -> it_all (length xs) h s (it_sync s) = Some xs.
Proof using Type.
  intros (ids & gs & cids & cgs & [Hseg Hch _ _ _ Hsz Hc Hcur _] & Hpos).
  apply List.Forall_app in Hsz as [Hsz _]. eapply it_all_ok; try done.
  cbn. intros Hne. specialize (Hpos Hne). destruct gs; [done|lia].
Qed.

(* ------------------------------------------------------------------ *)
(** ** Sequences of operations *)

(** The sizes a stack is made with stay. *)
Definition same_shape s s' : Prop := seg_size s' = seg_size s /\ max_cache_size s' = max_cache_size s.

Ltac shapes := repeat match goal with
  | H : mbind _ _ = Some _ |- _ => apply obind_inv in H as (? & ? & H)
  | x : _ * _ |- _ => destruct x
  | H : (if ?b then _ else _) = Some _ |- _ => destruct b
  | H : Some _ = Some _ |- _ => injection H as ?; subst
  | H : (let '_ := alloc _ _ in _) = Some _ |- _ => unfold alloc in H; cbv zeta beta iota in H
  end.

Lemma push_segment_shape h s h' s' : push_segment h s = Some (h', s') -> same_shape s s'.
Proof using Type. unfold push_segment. intros H. shapes; by split. Qed.

Lemma push_shape h s x h' s' : push h s x = Some (h', s') -> same_shape s s'.
Proof using Type.
  unfold push. intros H. apply obind_inv in H as ([h1 s1] & H1 & H).
  assert (same_shape s s1) as [E1 E2].
  { destruct (_ =? _); [by eapply push_segment_shape|]. injection H1 as -> ->. done. }
  clear H1. shapes; by split.
Qed.

Lemma pop_shape h s x h' s' : pop h s = Some (x, h', s') -> same_shape s s'.
Proof using Type. unfold pop, take_top, pop_segment. intros H. shapes; by split. Qed.

Lemma clear_shape cc h s h' s' : clear cc h s = Some (h', s') -> same_shape s s'.
Proof using Type.
  unfold clear. intros H. apply obind_inv in H as (h1 & _ & H). apply obind_inv in H as (h2 & _ & [= <- <-]).
  by destruct cc.
Qed.

Inductive op := Push (x : E) | Pop | Clear (clear_cache : bool).

(** What the client of a stack does, and what it pops. *)
Fixpoint run (ops : list op) h s : option (list E * gmap positive (segment E) * Stack) :=
  match ops with
  | [] => Some ([], h, s)
  | Push x :: ops => '(h, s) ← push h s x; run ops h s
  | Pop :: ops => '(x, h, s) ← pop h s; '(l, h, s) ← run ops h s; Some (x :: l, h, s)
  | Clear cc :: ops => '(h, s) ← clear cc h s; run ops h s
  end.

(** The same on a list; popping from an empty stack is ruled out by an assertion. *)
Fixpoint run_list (ops : list op) xs : option (list E * list E) :=
  match ops with
  | [] => Some ([], xs)
  | Push x :: ops => run_list ops (x :: xs)
  | Pop :: ops =>
      match xs with
      | [] => None
      | x :: xs => '(l, ys) ← run_list ops xs; Some (x :: l, ys)
      end
  | Clear _ :: ops => run_list ops []
  end.

Lemma run_ok ops : forall h s xs l ys, len xs + len ops < 2 ^ 64 -> stack_ok h s xs ->
  run_list ops xs = Some (l, ys) ->
  exists h' s', run ops h s = Some (l, h', s') /\ stack_ok h' s' ys /\ same_shape s s'.
Proof using Type.
  induction ops as [|o ops IH]; intros h s xs l ys Hlen Hok Hr; cbn [length] in Hlen.
  - injection Hr as <- <-. by exists h, s.
  - destruct o as [x| |cc]; cbn [run run_list] in *.
    + destruct (stack_push_ok h s xs x ltac:(lia) Hok) as (h1 & s1 & Hp & Hok1). rewrite Hp. cbn.
      apply push_shape in Hp as [E1 E2]. destruct (IH h1 s1 (x :: xs) l ys) as (h2 & s2 & Hr2 & Hok2 & E3 & E4);
        [cbn [length]; lia|done|done|]. exists h2, s2. split_and!; [done|done|]. split; congruence.
    + destruct xs as [|x xs]; [done|]. cbn [length] in Hlen.
      apply obind_inv in Hr as ([l1 ys1] & Hr & [= <- <-]).
      destruct (stack_pop_ok h s x xs ltac:(cbn [length]; lia) Hok) as (h1 & s1 & Hp & Hok1). rewrite Hp. cbn.
      apply pop_shape in Hp as [E1 E2]. destruct (IH h1 s1 xs l1 ys1) as (h2 & s2 & Hr2 & Hok2 & E3 & E4);
        [lia|done|done|]. rewrite Hr2. cbn. exists h2, s2. split_and!; [done|done|]. split; congruence.
    + destruct (stack_clear_ok h s xs cc Hok) as (h1 & s1 & Hp & Hok1 & _). rewrite Hp. cbn.
      apply clear_shape in Hp as [E1 E2]. destruct (IH h1 s1 [] l ys) as (h2 & s2 & Hr2 & Hok2 & E3 & E4);
        [cbn [length]; lia|done|done|]. exists h2, s2. split_and!; [done|done|]. split; congruence.
Qed.

Lemma run_list_length ops : forall xs l ys, run_list ops xs = Some (l, ys) -> len ys <= len xs + len ops.
Proof using Type.
  induction ops as [|o ops IH]; intros xs l ys; cbn [run_list].
  - intros [= _ ->]. cbn [length]. lia.
  - destruct o as [x| |cc]; [intros H%IH; cbn [length] in *; lia| |intros H%IH; cbn [length] in *; lia].
    destruct xs as [|x xs]; [done|]. intros ([l1 ys1] & H%IH & [= _ ->])%obind_inv. cbn [length]. lia.
Qed.

(** Besides the cached segments there is at most one that is not full. *)
Lemma segments_bound h s xs : stack_ok h s xs ->
  (Z.of_nat (size h) - max_cache_size s - 1) * seg_size s <= len xs.
Proof using Type.
  intros (ids & gs & cids & cgs & [Hseg Hch Hca Hnd Hdom Hsz Hc Hcur [Hcs Hmax]] & _).
  rewrite (size_ids h _ Hnd Hdom), length_app. apply List.Forall_app in Hsz as [Hsz _].
  apply chain_length in Hch as Hl. rewrite Hl. destruct gs as [|g gs]; [cbn [length]; nia|].
  destruct Hc as (top & rest & -> & _ & _ & Hf & _). apply list.Forall_cons in Hsz as [_ Hsz].
  pose proof (full_content_length _ _ _ Hsz Hf). rewrite length_app. cbn [length]. nia.
Qed.


(** [is_full] is not [size() == max_size()], which the comment on it says it replaces: it becomes
    true one element after that. *)
Theorem is_full_late h s xs : stack_ok h s xs -> 0 < max_size s -> (seg_size s | max_size s) ->
  is_full s = bool_decide (max_size s < len xs).
Proof using Type.
  intros (ids & gs & cids & cgs & [Hseg Hch Hca Hnd Hdom Hsz Hc Hcur _] & Hpos) Hmax [m Hm].
  apply List.Forall_app in Hsz as [Hsz _]. unfold is_full. apply eq_true_iff_eq.
  rewrite Z.leb_le, bool_decide_eq_true. destruct gs as [|g gs].
  - destruct Hc as [-> ->]. simpl. lia.
  - destruct Hc as (top & rest & -> & Hlen & _ & Hf & ->). apply list.Forall_cons in Hsz as [_ Hsz].
    pose proof (full_content_length _ _ _ Hsz Hf) as Hr. rewrite length_app, length_rev, Nat2Z.inj_add.
    specialize (Hpos ltac:(done)). rewrite Hr, Hm, Hlen. split; [nia|]. intros Hlt.
    assert (m < len gs + 1) by nia. nia.
Qed.
End Spec.

Abbreviation toy_ops := [Push 1; Push 2; Push 3; Pop; Pop; Push 4; Push 5; Clear false; Push 6; Push 7; Push 8; Pop].

