(* ===== verification/RegionTaskQueue.v ===== *)
(** * RegionTaskQueue: a work-stealing queue with an overflow stack

    [RegionTaskQueueWithOverflow] of utilities/taskqueue.hpp and taskqueue.cpp puts a
    [TaskQueue] and a [Stack] together: a task goes to the queue, where others can
    steal it, and to the stack when the queue is full.  The theorems use the queue and the stack
    through what [TaskQueueSafe] and [StackSpec] prove of them. *)

From stdpp Require Import gmap list.
From S2P Require Import Prelude GlobalDefs TaskQueue TaskQueueSpec TaskQueueSafe Stack StackSpec.

Section Region.
Context {E : Type}.
Implicit Types (t : E) (qs ss : list E).

Record RegionTaskQueueWithOverflow := {
  region_queue : TaskQueue E;
  overflow_heap : gmap positive (segment E);
  overflow_stack : Stack }.

Definition set_region_queue (r : RegionTaskQueueWithOverflow) (q : TaskQueue E) : RegionTaskQueueWithOverflow :=
  {| region_queue := q; overflow_heap := overflow_heap r; overflow_stack := overflow_stack r |}.
Definition set_overflow (r : RegionTaskQueueWithOverflow) (h : gmap positive (segment E)) (s : Stack)
    : RegionTaskQueueWithOverflow :=
  {| region_queue := region_queue r; overflow_heap := h; overflow_stack := s |}.

(** Constructed and initialized; tasks are words, and the stack has the default sizes. *)
Definition region_initialize (garbage : list E) : RegionTaskQueueWithOverflow :=
  {| region_queue := new_queue garbage; overflow_heap := ∅;
     overflow_stack := new_stack 8 (default_segment_size 8) 4 0 |}.

Definition save (r : RegionTaskQueueWithOverflow) t : option RegionTaskQueueWithOverflow :=
  '(ok, q) ← TaskQueue.push (region_queue r) t;
  let r := set_region_queue r q in
  if negb ok then
    '(h, s) ← Stack.push (overflow_heap r) (overflow_stack r) t; Some (set_overflow r h s)
  else Some r.

Definition retrieve_from_stealable_queue (r : RegionTaskQueueWithOverflow)
    : option (option E * RegionTaskQueueWithOverflow) :=
  '(result, q) ← pop_local (region_queue r); Some (result, set_region_queue r q).

Definition retrieve_from_overflow (r : RegionTaskQueueWithOverflow)
    : option (option E * RegionTaskQueueWithOverflow) :=
  if negb (Stack.is_empty (overflow_stack r)) then
    '(t, h, s) ← pop (overflow_heap r) (overflow_stack r); Some (Some t, set_overflow r h s)
  else Some (None, r).

Definition retrieve (r : RegionTaskQueueWithOverflow) : option (option E * RegionTaskQueueWithOverflow) :=
  '(result, r) ← retrieve_from_overflow r;
  match result with Some t => Some (Some t, r) | None => retrieve_from_stealable_queue r end.

Definition stealable_size (r : RegionTaskQueueWithOverflow) : Z := queue_size (region_queue r).
Definition stealable_is_empty (r : RegionTaskQueueWithOverflow) : bool := queue_size (region_queue r) =? 0.
Definition overflow_is_empty (r : RegionTaskQueueWithOverflow) : bool := Stack.is_empty (overflow_stack r).
Definition region_is_empty (r : RegionTaskQueueWithOverflow) : bool :=
  (queue_size (region_queue r) =? 0) && Stack.is_empty (overflow_stack r).

(* ------------------------------------------------------------------ *)
(** ** The two lists *)

(** The tasks in the queue, the oldest first, and those on the stack, the newest first. *)
Definition region_holds (n : nat) (r : RegionTaskQueueWithOverflow) qs ss : Prop :=
  holds n (region_queue r) 0 qs /\ stack_ok (overflow_heap r) (overflow_stack r) ss.

Lemma region_weaken n m r qs ss : (n <= m)%nat -> region_holds n r qs ss -> region_holds m r qs ss.
Proof using Type. intros Hm [Hq Hs]. split; [by eapply holds_weaken|done]. Qed.

Lemma save_ok n r qs ss t : no_wrap (n + 5) -> len ss < 2 ^ 64 -> region_holds n r qs ss ->
  let room := bool_decide (len qs < max_elems) in
  exists r', save r t = Some r' /\
    region_holds (n + 5) r' (if room then qs ++ [t] else qs) (if room then ss else t :: ss).
Proof using Type.
  intros Hn Hss [Hq Hs] room. destruct (push_ok n (region_queue r) qs t Hn Hq) as (q' & Hp & Hq').
  unfold save. rewrite Hp. cbn. fold room in Hq' |- *. destruct room; cbn.
  - eexists. split; [done|]. by split.
  - destruct (stack_push_ok _ _ ss t Hss Hs) as (h' & s' & -> & Hs'). cbn.
    eexists. split; [done|]. by split.
Qed.

Lemma retrieve_ok n r qs ss : no_wrap (n + 8) -> len ss < 2 ^ 64 -> region_holds n r qs ss ->
  exists r', retrieve r = Some (match ss with t :: _ => Some t | [] => list.last qs end, r') /\
    region_holds (n + 8) r' (if ss is [] then removelast qs else qs) (tail ss).
Proof using Type.
  intros Hn Hlen [Hq Hs]. unfold retrieve, retrieve_from_overflow. rewrite (stack_is_empty_ok _ _ ss Hs).
  destruct ss as [|t ss].
  - rewrite bool_decide_eq_true_2 by done. cbn. unfold retrieve_from_stealable_queue.
    destruct (pop_local_ok n (region_queue r) qs Hn Hq) as (q' & -> & Hq'). cbn. eexists. split; [done|]. by split.
  - rewrite bool_decide_eq_false_2 by done. cbn.
    destruct (stack_pop_ok _ _ t ss Hlen Hs) as (h' & s' & -> & Hs'). cbn. eexists. split; [done|].
    split; [|done]. eapply holds_weaken; [|done]. lia.
Qed.

Lemma region_is_empty_ok n r qs ss : region_holds n r qs ss ->
  region_is_empty r = bool_decide (qs = []) && bool_decide (ss = []).
Proof using Type.
  intros [Hq Hs]. unfold region_is_empty. rewrite (queue_size_ok n _ qs Hq), (stack_is_empty_ok _ _ ss Hs). f_equal.
  apply eq_true_iff_eq. rewrite Z.eqb_eq, bool_decide_eq_true. split; [|by intros ->].
  intros H0. apply nil_length_inv. lia.
Qed.

(* ------------------------------------------------------------------ *)
(** ** Any sequence of saves and retrievals *)

Inductive region_op := Save (t : E) | Retrieve.

(** What was retrieved, in order, until a retrieval found nothing. *)
Fixpoint region_run (ops : list region_op) (r : RegionTaskQueueWithOverflow)
    : option (list (option E) * RegionTaskQueueWithOverflow) :=
  match ops with
  | [] => Some ([], r)
  | Save t :: ops => r ← save r t; region_run ops r
  | Retrieve :: ops => '(x, r) ← retrieve r; '(l, r) ← region_run ops r; Some (x :: l, r)
  end.

Definition saved (ops : list region_op) : list E :=
  omap (fun o => match o with Save t => Some t | Retrieve => None end) ops.

Lemma removelast_last_perm (l : list E) t : list.last l = Some t -> Permutation (t :: removelast l) l.
Proof using Type.
  destruct l as [|x l _] using rev_ind; [done|]. rewrite last_snoc, removelast_last. intros [= ->].
  apply Permutation_cons_append.
Qed.

(** What a retrieval gives is gone from the two lists, and it gives nothing only if they are empty. *)
Lemma retrieved_perm qs ss :
  Permutation (qs ++ ss) (option_list (match ss with t :: _ => Some t | [] => list.last qs end) ++
                          (if ss is [] then removelast qs else qs) ++ tail ss) /\
  (match ss with t :: _ => Some t | [] => list.last qs end = None -> qs = [] /\ ss = []).
Proof using Type.
  destruct ss as [|t ss].
  - rewrite !app_nil_r. destruct (list.last qs) as [t|] eqn:El; cbn [option_list].
    + split; [|done]. symmetry. by apply removelast_last_perm.
    + apply last_None in El as ->. done.
  - split; [|done]. cbn. by rewrite <- Permutation_middle.
Qed.

Lemma region_run_ok ops : forall n r qs ss, region_holds n r qs ss -> no_wrap (n + 8 * length ops) ->
  len ss + len ops < 2 ^ 64 ->
  exists l r' qs' ss', region_run ops r = Some (l, r') /\ region_holds (n + 8 * length ops) r' qs' ss' /\
    Permutation (qs ++ ss ++ saved ops) (omap id l ++ qs' ++ ss').
Proof using Type.
  induction ops as [|o ops IH]; intros n r qs ss Hr Hn Hlen; cbn [length] in *.
  - exists [], r, qs, ss. split_and!; [done|by rewrite Nat.mul_0_r, Nat.add_0_r|]. cbn. by rewrite app_nil_r.
  - destruct o as [t|]; cbn [region_run].
    + destruct (save_ok n r qs ss t) as (r1 & -> & Hr1); [unfold no_wrap in *; lia|lia|done|]. cbn.
      apply (region_weaken _ (n + 8)) in Hr1; [|lia].
      destruct (IH (n + 8)%nat r1 _ _ Hr1 ltac:(unfold no_wrap in *; lia) ltac:(case_bool_decide; cbn [length]; lia))
        as (l & r2 & qs' & ss' & -> & Hr2 & Hp).
      exists l, r2, qs', ss'. split_and!; [done|by eapply region_weaken; [|done]; lia|]. rewrite <- Hp.
      change (saved (Save t :: ops)) with ([t] ++ saved ops). case_bool_decide;
        rewrite <- ?app_assoc; apply Permutation_app_head; exact (Permutation_app_swap_app ss [t] (saved ops)).
    + destruct (retrieve_ok n r qs ss) as (r1 & -> & Hr1); [unfold no_wrap in *; lia|lia|done|].
      cbn [mbind option_bind].
      destruct (IH (n + 8)%nat r1 _ _ Hr1 ltac:(unfold no_wrap in *; lia) ltac:(destruct ss; cbn [length tail] in *; lia))
        as (l & r2 & qs' & ss' & -> & Hr2 & Hp).
      cbn [mbind option_bind]. do 2 eexists. exists qs', ss'. split_and!; [done|by eapply region_weaken; [|done]; lia|].
      destruct (retrieved_perm qs ss) as [Hx _]. change (saved (Retrieve :: ops)) with (saved ops).
      rewrite app_assoc, Hx. set (x := match ss with t :: _ => Some t | [] => list.last qs end) in *.
      rewrite <- app_assoc, <- app_assoc, Hp. destruct x; done.
Qed.

Lemma region_initialize_ok garbage : len garbage = N -> region_holds 0 (region_initialize garbage) [] [].
Proof using Type.
  intros Hl. split; [by apply no_tasks_holds|]. by apply stack_reset_ok.
Qed.

(** The queue with its overflow loses nothing: after any saves and retrievals from the initialized
    queue, the tasks saved are those retrieved and those still held; a retrieval takes the newest task of the
    overflow stack, else the newest of the queue, so it finds nothing exactly when
    [region_is_empty] says so. *)
Theorem region_queue_spec garbage ops : len garbage = N -> no_wrap (8 * S (length ops)) ->
  exists l r qs ss, region_run ops (region_initialize garbage) = Some (l, r) /\
    Permutation (saved ops) (omap id l ++ qs ++ ss) /\
    stealable_size r = len qs /\ overflow_is_empty r = bool_decide (ss = []) /\
    exists x r', retrieve r = Some (x, r') /\ (x = None <-> region_is_empty r = true) /\
      (forall t ss', ss = t :: ss' -> x = Some t) /\ (ss = [] -> x = list.last qs).
Proof using Type.
  intros Hl Hn. unfold no_wrap in Hn.
  destruct (region_run_ok ops 0 (region_initialize garbage) [] []) as (l & r & qs & ss & Hrun & Hr & Hp);
    [by apply region_initialize_ok|unfold no_wrap; lia|cbn [length]; lia|].
  assert (Hss : len ss < 2 ^ 64).
  { apply Permutation_length in Hp. rewrite !length_app in Hp. cbn [length] in Hp.
    assert (Hs : (length (saved ops) <= length ops)%nat)
      by (unfold saved; clear; induction ops as [|[] ops IH]; cbn in *; lia).
    lia. }
  exists l, r, qs, ss. split_and!; [done|done| | |].
  - eapply queue_size_ok. apply Hr.
  - eapply stack_is_empty_ok. apply Hr.
  - destruct (retrieve_ok (0 + 8 * length ops) r qs ss ltac:(unfold no_wrap; lia) Hss Hr) as (r' & -> & _).
    do 2 eexists. split; [done|]. rewrite (region_is_empty_ok _ r qs ss Hr). split_and!.
    + destruct (retrieved_perm qs ss) as [_ Hnone]. split.
      * intros [-> ->]%Hnone. done.
      * intros [Hq Hs]%andb_prop. apply bool_decide_eq_true in Hq, Hs. by subst.
    + by intros t ss' ->.
    + by intros ->.
Qed.
End Region.

Abbreviation toy_region_ops := [Save 1; Save 2; Retrieve; Retrieve; Retrieve; Save 3].

Lemma region_queue_spec_witness :
  exists l r qs ss, region_run toy_region_ops (region_initialize toy_array) = Some (l, r) /\
    Permutation [1; 2; 3] (omap id l ++ qs ++ ss) /\ stealable_size r = len qs.
Proof.
  assert (Hn : no_wrap (8 * S (length toy_region_ops))) by done.
  destruct (region_queue_spec toy_array toy_region_ops toy_array_length Hn)
    as (l & r & qs & ss & Hrun & Hp & Hs & _).
  exists l, r, qs, ss. split; [exact Hrun|]. split; [exact Hp | exact Hs].
Defined.
