(* ===== verification/BlockOffsetTable.v ===== *)
(** * BlockOffsetTable: finding the start of a block, memory/blockOffsetTable.hpp and .cpp

    A space is divided into cards of 64 words, and the table has a byte for each card: below 64 it is the distance
    in words from the card back to the start of a block, otherwise it says how many cards to
    go back to look again, as a power of sixteen.  Addresses are byte addresses; a block start
    is a multiple of the word size.

    The table is the shared array with the address it starts at.  The classes of tables for
    non-contiguous and for contiguous spaces keep their own positions besides.  What the tables ask of the space,
    the size of the block at a block start, is the parameter [block_size].
    [BlockOffsetSpec] has the theorems. *)

From stdpp Require Import list.
From S2P Require Import Prelude GlobalDefs VirtualSpace.

(* ------------------------------------------------------------------ *)
(** ** The shared array *)

Definition LogN : Z := 9.
Definition LogN_words : Z := LogN - LogHeapWordSize.
Definition N_bytes : Z := Z.shiftl 1 LogN.
Definition N_words : Z := Z.shiftl 1 LogN_words.

Record SharedArray := { reserved_start : Z; offset_bytes : list Z }.

(** A pointer to words moved by [n] words, and the distance of two in words. *)
Definition word_add (p n : Z) : Z := u64 (p + HeapWordSize * n).
Definition word_delta (left right : Z) : Z := pointer_delta left right HeapWordSize.

(** [memset(&a[i], x, n)] *)
Definition memset (l : list Z) (i x n : Z) : option (list Z) :=
  if (0 <=? i) && (0 <=? n) && (i + n <=? Z.of_nat (length l)) then
    Some (list_inserts (Z.to_nat i) (replicate (Z.to_nat n) x) l)
  else None.

Definition offset_array (a : SharedArray) (index : Z) : option Z := arr_get (offset_bytes a) index.
Definition set_offset (a : SharedArray) (index offset : Z) : option SharedArray :=
  l ← arr_set (offset_bytes a) index (u8 offset);
  Some {| reserved_start := reserved_start a; offset_bytes := l |}.
Definition set_offset_to (a : SharedArray) (index high low : Z) : option SharedArray :=
  set_offset a index (word_delta high low).
Definition set_offset_range (a : SharedArray) (left right offset : Z) : option SharedArray :=
  let num_cards := u64 (u64 (right - left) + 1) in
  l ← memset (offset_bytes a) left (u8 offset) num_cards;
  Some {| reserved_start := reserved_start a; offset_bytes := l |}.

Definition index_for (a : SharedArray) (p : Z) : Z :=
  Z.shiftr (pointer_delta p (reserved_start a) 1) LogN.
Definition address_for_index (a : SharedArray) (index : Z) : Z :=
  word_add (reserved_start a) (u64 (Z.shiftl index LogN_words)).
Definition inc_by_region_size (p : Z) : Z := word_add p N_words.
Definition is_card_boundary (a : SharedArray) (p : Z) : bool :=
  Z.land (word_delta p (reserved_start a)) (right_n_bits LogN_words) =? 0.

(** The range given by addresses: the cards of [left, right). *)
Definition set_offset_region (a : SharedArray) (left right offset : Z) : option SharedArray :=
  let num_cards := Z.shiftr (word_delta right left) LogN_words in
  l ← memset (offset_bytes a) (index_for a left) (u8 offset) num_cards;
  Some {| reserved_start := reserved_start a; offset_bytes := l |}.

(** [1] in the source of this is an int: a shift by its width or more is undefined. *)
Definition LogBase : Z := 4.
Definition Base : Z := Z.shiftl 1 LogBase.
Definition N_powers : Z := 14.
Definition power_to_cards_back (i : Z) : option Z :=
  if u32 (LogBase * i) <? 32 then Some (u64 (s32 (Z.shiftl 1 (u32 (LogBase * i))))) else None.
Definition power_to_words_back (i : Z) : option Z :=
  n ← power_to_cards_back i; Some (u64 (n * N_words)).
Definition entry_to_cards_back (entry : Z) : option Z := power_to_cards_back (u32 (entry - N_words)).
Definition entry_to_words_back (entry : Z) : option Z := power_to_words_back (u32 (entry - N_words)).

(* ------------------------------------------------------------------ *)
(** ** Recording a block *)

Definition set_remainder_to_point_to_start_incl (a : SharedArray) (start_card end_card : Z)
    : option SharedArray :=
  if end_card <? start_card then Some a
  else
    r ← for_range 0 N_powers
      (fun i '(a, start_card_for_region) =>
         n ← power_to_cards_back (i + 1);
         let reach := u64 (u64 (start_card - 1) + u64 (n - 1)) in
         let offset := u8 (N_words + i) in
         if end_card <=? reach then
           a ← set_offset_range a start_card_for_region end_card offset; Some (Return a)
         else
           a ← set_offset_range a start_card_for_region reach offset;
           Some (Next (a, u64 (reach + 1)))) (a, start_card);
    Some (match r with Return a => a | Next (a, _) => a end).

Definition set_remainder_to_point_to_start (a : SharedArray) (start end_ : Z) : option SharedArray :=
  if end_ <=? start then Some a
  else
    let start_card := index_for a start in
    let end_card := index_for a (word_add end_ (-1)) in
    set_remainder_to_point_to_start_incl a start_card end_card.

(** The guarantees of the closed interval of cards, as a condition. *)
Definition check_all_cards (a : SharedArray) (start_card end_card : Z) : option bool :=
  if end_card <? start_card then Some true
  else
    first ← offset_array a start_card;
    rest ← for_range (start_card + 1) (end_card + 1)
      (fun c _ =>
         entry ← offset_array a c;
         p ← power_to_cards_back 1;
         backskip ← entry_to_cards_back entry;
         let landing_card := u64 (c - backskip) in
         landing ← offset_array a landing_card;
         let log_ok := negb (p <? u64 (c - start_card)) || (N_words <? entry) in
         let inv_ok := u64 (start_card - 1) <=? landing_card in
         let land_ok := if start_card <=? landing_card then landing <=? entry
                        else (landing_card =? u64 (start_card - 1)) && (landing <=? N_words) in
         Some (if log_ok && inv_ok && land_ok then Next tt else Return false)) tt;
    Some ((first =? N_words) && match rest with Return b => b | Next _ => true end).

Inductive Action := Action_single | Action_mark | Action_check.

Definition do_block_internal (init_to_zero : bool) (a : SharedArray) (blk_start blk_end : Z)
    (action : Action) : option SharedArray :=
  let end_ui := word_add blk_end (-1) in
  let boundary_before_end := clear_bits end_ui (right_n_bits LogN) in
  if blk_start <=? boundary_before_end then
    let start_index := index_for a blk_start in
    let end_index := index_for a (word_add blk_end (-1)) in
    let boundary := address_for_index a start_index in
    let '(boundary, start_index) :=
      if negb (blk_start =? boundary) then (word_add boundary N_words, u64 (start_index + 1))
      else (boundary, start_index) in
    let single :=
      a ← set_offset_to a start_index boundary blk_start;
      if start_index <? end_index then
        let rem_st := word_add (address_for_index a start_index) N_words in
        let rem_end := word_add (address_for_index a end_index) N_words in
        set_remainder_to_point_to_start a rem_st rem_end
      else Some a in
    match action with
    | Action_mark => if init_to_zero then set_offset_to a start_index boundary blk_start else single
    | Action_single => single
    | Action_check => guard_b (bool_decide (check_all_cards a (start_index + 1) end_index = Some true)) (Some a)
    end
  else Some a.

Definition single_block (init_to_zero : bool) (a : SharedArray) (blk_start blk_end : Z) : option SharedArray :=
  do_block_internal init_to_zero a blk_start blk_end Action_single.

(** The constructor of [BlockOffsetArray] for the region from [start] to [end_]. *)
Definition new_BlockOffsetArray (init_to_zero : bool) (a : SharedArray) (start end_ : Z) : option SharedArray :=
  if negb init_to_zero then
    a ← set_remainder_to_point_to_start a (word_add start N_words) end_;
    set_offset a 0 0
  else Some a.

(** [resize]: the table and the new end of the region. *)
Definition bot_resize (init_to_zero : bool) (a : SharedArray) (bottom end_ new_word_size : Z)
    : option (SharedArray * Z) :=
  let new_end := word_add bottom new_word_size in
  a ← (if (end_ <? new_end) && negb init_to_zero then set_offset_region a end_ new_end N_words else Some a);
  Some (a, new_end).

(* ------------------------------------------------------------------ *)
(** ** Splitting a block *)

(** The first card that a block starting at [addr] starts. *)
Definition first_card (a : SharedArray) (addr : Z) : Z :=
  let index := index_for a addr in
  if negb (address_for_index a index =? addr) then u64 (index + 1) else index.

Section Split.
Context (suff_index num_pref_cards end_index : Z).

(** The interval of cards the turn [i] looks at, and whether it is the last one. *)
Definition split_interval (i : Z) : option (Z * Z * Z * bool) :=
  back_by ← power_to_cards_back i;
  let right_index := u64 (u64 (suff_index + back_by) - 1) in
  let left_index := u64 (u64 (right_index - num_pref_cards) + 1) in
  let last_ := u64 (end_index - 1) <=? right_index in
  Some (back_by, left_index, if last_ then u64 (end_index - 1) else right_index, last_).

(** The loop that looks for the first power above the prefix and fills its block; at most one turn
    for each power. *)
Fixpoint split_first (fuel : nat) (a : SharedArray) (more : bool) (i : Z)
    : option (SharedArray * bool * Z) :=
  match fuel with
  | O => None
  | S fuel =>
      if more && (i <? N_powers) then
        '(back_by, left_index, right_index, last_) ← split_interval i;
        let more := more && negb last_ in
        if num_pref_cards <? back_by then
          if left_index <=? right_index then
            a ← set_offset_range a left_index right_index (u8 (N_words + i - 1));
            Some (a, more, u32 (i + 1))
          else Some (a, false, u32 (i + 1))
        else split_first fuel a more (u32 (i + 1))
      else Some (a, more, i)
  end.

Fixpoint split_rest (fuel : nat) (a : SharedArray) (more : bool) (i : Z) : option SharedArray :=
  match fuel with
  | O => None
  | S fuel =>
      if more && (i <? N_powers) then
        '(_, left_index, right_index, last_) ← split_interval i;
        if last_ && (right_index <? left_index) then Some a
        else
          a ← set_offset_range a left_index right_index (u8 (N_words + i - 1));
          split_rest fuel a (more && negb last_) (u32 (i + 1))
      else Some a
  end.

Definition split_powers (a : SharedArray) : option SharedArray :=
  '(a, more, i) ← split_first (S (Z.to_nat N_powers)) a true 1;
  split_rest (S (Z.to_nat N_powers)) a more i.
End Split.

Definition split_block (a : SharedArray) (blk blk_size left_blk_size : Z) : option SharedArray :=
  let pref_addr := blk in
  let suff_addr := word_add blk left_blk_size in
  let end_addr := word_add blk blk_size in
  let pref_index := first_card a pref_addr in
  let suff_index := first_card a suff_addr in
  let end_index := u64 (index_for a (word_add end_addr (-1)) + 1) in
  let num_pref_cards := u64 (suff_index - pref_index) in
  let num_suff_cards := u64 (end_index - suff_index) in
  if 0 <? num_suff_cards then
    let boundary := address_for_index a suff_index in
    a ← set_offset_to a suff_index boundary suff_addr;
    if 0 <? num_pref_cards then
      if num_suff_cards <=? num_pref_cards then
        set_remainder_to_point_to_start_incl a (u64 (suff_index + 1)) (u64 (end_index - 1))
      else
        a ← set_remainder_to_point_to_start_incl a (u64 (suff_index + 1))
              (u64 (u64 (suff_index + num_pref_cards) - 1));
        split_powers suff_index num_pref_cards end_index a
    else Some a
  else Some a.

(* ------------------------------------------------------------------ *)
(** ** Finding the start of a block *)

Section Lookup.
Context (block_size : Z -> option Z).

(** The loop that goes back while the entry is [limit] or more; a step goes to an earlier card, so there
    are at most as many as there are cards. *)
Fixpoint back_skip (fuel : nat) (a : SharedArray) (limit index q : Z) : option (Z * Z * Z) :=
  match fuel with
  | O => None
  | S fuel =>
      offset ← offset_array a index;
      if limit <=? offset then
        n_cards_back ← entry_to_cards_back offset;
        back_skip fuel a limit (u64 (index - n_cards_back)) (word_add q (- (N_words * n_cards_back)))
      else Some (index, q, offset)
  end.

(** The loop of the contiguous spaces that goes back by single cards. *)
Fixpoint back_one (fuel : nat) (a : SharedArray) (index q offset : Z) : option (Z * Z * Z) :=
  match fuel with
  | O => None
  | S fuel =>
      if offset =? N_words then
        let index := u64 (index - 1) in
        offset ← offset_array a index;
        back_one fuel a index (word_add q (- N_words)) offset
      else Some (index, q, offset)
  end.

(** The walk over the blocks from a block start to the one that contains [addr]. *)
Fixpoint forward (fuel : nat) (addr q n : Z) : option Z :=
  match fuel with
  | O => None
  | S fuel =>
      if n <=? addr then sz ← block_size n; forward fuel addr n (word_add n sz)
      else Some q
  end.

Definition cards (a : SharedArray) : nat := length (offset_bytes a).
Definition forward_fuel (addr q : Z) : nat := S (S (Z.to_nat (word_delta addr q))).

(** [BlockOffsetArrayNonContigSpace]; [flag] is [BlockOffsetArrayUseUnallocatedBlock]. *)
Section NonContig.
Context (flag : bool) (unallocated_block : Z).

Definition block_start_unsafe (a : SharedArray) (addr : Z) : option Z :=
  if flag && (unallocated_block <=? addr) then Some unallocated_block
  else
    let index := index_for a addr in
    '(_, q, offset) ← back_skip (S (cards a)) a N_words index (address_for_index a index);
    let q := word_add q (- offset) in
    forward (forward_fuel addr q) addr q q.

Definition block_start_careful (a : SharedArray) (addr : Z) : option Z :=
  if flag && (unallocated_block <=? addr) then Some unallocated_block
  else
    '(_, q, offset) ← back_skip (S (cards a)) a N_words (index_for a addr) addr;
    Some (word_add q (- offset)).

Definition block_start (a : SharedArray) (bottom end_ addr : Z) : option (option Z) :=
  if (bottom <=? addr) && (addr <? end_) then q ← block_start_unsafe a addr; Some (Some q)
  else Some None.

Definition nc_last_active_index (a : SharedArray) (bottom : Z) : Z :=
  if unallocated_block =? bottom then 0 else index_for a (word_add unallocated_block (-1)).
End NonContig.

(** The position where nothing is allocated, after an allocation and after a deallocation. *)
Definition allocated (flag : bool) (unallocated_block blk_end : Z) : Z :=
  if flag then Z.max unallocated_block blk_end else unallocated_block.
Definition freed (flag : bool) (unallocated_block blk_start blk_end : Z) : Z :=
  if flag && (unallocated_block <=? blk_end) && (blk_start <=? unallocated_block) then blk_start
  else unallocated_block.

Definition nc_alloc_block (flag : bool) (a : SharedArray) (unallocated_block blk_start blk_end : Z)
    : option (SharedArray * Z) :=
  a ← single_block false a blk_start blk_end;
  Some (a, allocated flag unallocated_block blk_end).
Definition mark_block (a : SharedArray) (blk_start blk_end : Z) : option SharedArray :=
  do_block_internal false a blk_start blk_end Action_mark.

(* ------------------------------------------------------------------ *)
(** ** Contiguous spaces *)

Record Contig := { contig_array : SharedArray; next_offset_index : Z; next_offset_threshold : Z }.

Definition contig_block_start_unsafe (t : Contig) (addr : Z) : option Z :=
  let a := contig_array t in
  let index := Z.min (index_for a addr) (u64 (next_offset_index t - 1)) in
  '(index, q, offset) ← back_skip (S (cards a)) a (N_words + 1) index (address_for_index a index);
  '(_, q, offset) ← back_one (S (cards a)) a index q offset;
  let q := word_add q (- offset) in
  forward (forward_fuel addr q) addr q q.

Definition alloc_block_work (t : Contig) (blk_start blk_end : Z) : option Contig :=
  a ← set_offset_to (contig_array t) (next_offset_index t) (next_offset_threshold t) blk_start;
  let end_index := index_for a (word_add blk_end (-1)) in
  a ← (if next_offset_index t + 1 <=? end_index then
         let rem_st := address_for_index a (u64 (next_offset_index t + 1)) in
         let rem_end := word_add (address_for_index a end_index) N_words in
         set_remainder_to_point_to_start a rem_st rem_end
       else Some a);
  Some {| contig_array := a; next_offset_index := u64 (end_index + 1);
          next_offset_threshold := word_add (address_for_index a end_index) N_words |}.

Definition contig_alloc_block (t : Contig) (blk_start blk_end : Z) : option Contig :=
  if next_offset_threshold t <? blk_end then alloc_block_work t blk_start blk_end else Some t.

Definition initialize_threshold (a : SharedArray) (bottom : Z) : Contig :=
  let next := u64 (index_for a bottom + 1) in
  {| contig_array := a; next_offset_index := next; next_offset_threshold := address_for_index a next |}.

Definition zero_bottom_entry (t : Contig) (bottom : Z) : option Contig :=
  a ← set_offset (contig_array t) (index_for (contig_array t) bottom) 0;
  Some {| contig_array := a; next_offset_index := next_offset_index t;
          next_offset_threshold := next_offset_threshold t |}.

Definition contig_last_active_index (t : Contig) : Z :=
  let result := u64 (next_offset_index t - 1) in if 0 <=? result then result else 0.
End Lookup.
