(* ===== verification/BlockOffsetSpec.v ===== *)
(** * BlockOffsetSpec: the block offset table finds the block of every address

    The blocks of a space are given as a relation between their first and last addresses
    ([blocks]).  [entry_ok] says what keeps every lookup right: an entry that is a distance names the
    block that contains the first word of its card, and an entry that goes back stays in the
    table.  [entry_exact] says the entry is the one the code means to write, the power of sixteen below the
    distance to the first card of the block ([entry_for]), which
    makes the table right for a lookup that cannot walk forward.  Recording a block writes
    exactly these entries and keeps both. *)

From stdpp Require Import list.
From S2P Require Import Prelude GlobalDefs VirtualSpace BlockOffsetTable.

(* ------------------------------------------------------------------ *)
(** ** Arithmetic of cards *)

Lemma word_add_eq p n : 0 <= p + 8 * n < 2 ^ 64 -> word_add p n = p + 8 * n.
Proof. intros H. by apply uwrap_small. Qed.

Lemma word_delta_eq l r : 0 <= l - r < 2 ^ 64 -> word_delta l r = (l - r) / 8.
Proof. intros H. unfold word_delta, pointer_delta. by rewrite (uwrap_small 64). Qed.

Lemma u64_eq x : 0 <= x < 2 ^ 64 -> u64 x = x.
Proof. intros H. by apply uwrap_small. Qed.

Lemma index_for_eq a p : 0 <= p - reserved_start a < 2 ^ 64 -> index_for a p = (p - reserved_start a) / 512.
Proof.
  intros H. unfold index_for, pointer_delta. rewrite Z.div_1_r, u64_eq by done.
  by rewrite Z.shiftr_div_pow2.
Qed.

Lemma address_for_index_eq a c : 0 <= c -> 0 <= reserved_start a -> reserved_start a + 512 * c < 2 ^ 64 ->
  address_for_index a c = reserved_start a + 512 * c.
Proof.
  intros Hc Hr H. unfold address_for_index. rewrite Z.shiftl_mul_pow2 by done.
  change (2 ^ LogN_words) with 64. rewrite u64_eq by lia. rewrite word_add_eq; lia.
Qed.

(** The sixteen-fold logarithm, and the powers that are defined. *)
Definition log16 (d : Z) : Z := Z.log2 d / 4.

Lemma log16_eq d i : 0 <= i -> 16 ^ i <= d < 16 ^ (i + 1) -> log16 d = i.
Proof.
  intros Hi H. unfold log16. change 16 with (2 ^ 4) in H. rewrite <- !Z.pow_mul_r in H by lia.
  assert (Hl : 4 * i <= Z.log2 d < 4 * (i + 1)).
  { split; [apply Z.log2_le_pow2; lia | apply Z.log2_lt_pow2; [|lia]].
    pose proof (Z.pow_pos_nonneg 2 (4 * i) ltac:(lia) ltac:(lia)). lia. }
  symmetry. apply (Z.div_unique _ 4 i (Z.log2 d - 4 * i)); lia.
Qed.

Lemma log16_bounds d : 0 < d -> 0 <= log16 d /\ 16 ^ log16 d <= d < 16 ^ (log16 d + 1).
Proof.
  intros Hd. pose proof (Z.log2_spec d Hd) as Hs. pose proof (Z.log2_nonneg d).
  unfold log16. pose proof (Z.div_mod (Z.log2 d) 4 ltac:(lia)). pose proof (Z.mod_pos_bound (Z.log2 d) 4 ltac:(lia)).
  assert (0 <= Z.log2 d / 4) by (apply Z.div_pos; lia). split; [done|].
  change 16 with (2 ^ 4). rewrite <- !Z.pow_mul_r by lia.
  pose proof (Z.pow_le_mono_r 2 (4 * (Z.log2 d / 4)) (Z.log2 d) ltac:(lia) ltac:(lia)).
  pose proof (Z.pow_le_mono_r 2 (Z.succ (Z.log2 d)) (4 * (Z.log2 d / 4 + 1)) ltac:(lia) ltac:(lia)). lia.
Qed.

Lemma power_eq i : 0 <= i <= 7 -> power_to_cards_back i = Some (16 ^ i).
Proof.
  intros Hi. assert (Hall : forall j, (j < 8)%nat -> power_to_cards_back (Z.of_nat j) = Some (16 ^ Z.of_nat j)).
  { intros j Hj. do 8 (destruct j as [|j]; [reflexivity|]). lia. }
  specialize (Hall (Z.to_nat i)). rewrite Z2Nat.id in Hall by lia. apply Hall. lia.
Qed.

(** For a region of 2^28 cards, 128 gigabytes, the next power would shift an int by its width. *)
Lemma power_undefined : power_to_cards_back 8 = None.
Proof. reflexivity. Qed.

Lemma entry_eq i : 0 <= i <= 7 -> entry_to_cards_back (64 + i) = Some (16 ^ i).
Proof.
  intros Hi. unfold entry_to_cards_back. change N_words with 64. replace (64 + i - 64) with i by lia.
  rewrite (uwrap_small 32); [by apply power_eq|lia|]. unfold in_u. lia.
Qed.

(* ------------------------------------------------------------------ *)
(** ** Reading and writing entries *)

Lemma memset_ok l i x n : 0 <= i -> 0 <= n -> i + n <= Z.of_nat (length l) ->
  exists l', memset l i x n = Some l' /\ length l' = length l /\
    forall j, arr_get l' j = if (i <=? j) && (j <? i + n) then Some x else arr_get l j.
Proof.
  intros Hi Hn Hl. unfold memset. destruct (Z.leb_spec 0 i), (Z.leb_spec 0 n), (Z.leb_spec (i + n) (Z.of_nat (length l)));
    try lia. cbn [andb]. eexists. split; [done|]. split; [apply length_inserts|]. intros j. unfold arr_get.
  destruct (Z.leb_spec i j), (Z.ltb_spec j (i + n)), (Z.leb_spec 0 j); try lia; cbn [andb]; try done.
  - rewrite list_lookup_inserts by (rewrite ?length_replicate; lia).
    rewrite lookup_replicate. split; [done|lia].
  - apply list_lookup_inserts_ge. rewrite length_replicate. lia.
  - apply list_lookup_inserts_lt. lia.
Qed.

(** A change of the entries of the cards [f] to [g]; the array keeps its place. *)
Definition same_place (a a' : SharedArray) : Prop :=
  reserved_start a' = reserved_start a /\ length (offset_bytes a') = length (offset_bytes a).

Lemma set_offset_range_ok a f g x : 0 <= f -> f <= g -> g < Z.of_nat (length (offset_bytes a)) ->
  g + 1 < 2 ^ 64 -> 0 <= x < 256 ->
  exists a', set_offset_range a f g x = Some a' /\ same_place a a' /\
    forall j, offset_array a' j = if (f <=? j) && (j <=? g) then Some x else offset_array a j.
Proof.
  intros Hf Hfg Hg Hmax Hx. unfold set_offset_range. rewrite (u64_eq (g - f)), u64_eq by lia.
  rewrite (uwrap_small 8) by (unfold in_u; lia).
  destruct (memset_ok (offset_bytes a) f x (g - f + 1)) as (l' & -> & Hl & Hget); [lia..|].
  cbn. eexists. split; [done|]. split; [by split|]. intros j. unfold offset_array. cbn [offset_bytes].
  rewrite Hget. destruct (Z.leb_spec f j), (Z.ltb_spec j (f + (g - f + 1))), (Z.leb_spec j g); try lia; done.
Qed.

Lemma set_offset_ok a c x : 0 <= c < Z.of_nat (length (offset_bytes a)) -> 0 <= x < 256 ->
  exists a', set_offset a c x = Some a' /\ same_place a a' /\
    forall j, offset_array a' j = if j =? c then Some x else offset_array a j.
Proof.
  intros Hc Hx. unfold set_offset. rewrite (uwrap_small 8) by (unfold in_u; lia).
  rewrite arr_set_Some by done. cbn. eexists. split; [done|]. split; [split; [done|apply length_insert]|].
  intros j. apply arr_get_insert. done.
Qed.

(* ------------------------------------------------------------------ *)
(** ** The cards behind the first one of a block *)

Lemma pow16_mono i j : 0 <= i <= j -> 16 ^ i <= 16 ^ j.
Proof. intros H. apply Z.pow_le_mono_r; lia. Qed.

Lemma pow16_step i : 0 <= i -> 16 ^ (i + 1) = 16 * 16 ^ i.
Proof. intros H. rewrite Z.pow_add_r by lia. lia. Qed.

Lemma pow16_small i : 0 <= i <= 7 -> 1 <= 16 ^ i <= 268435456.
Proof.
  intros H. pose proof (pow16_mono 0 i ltac:(lia)). pose proof (pow16_mono i 7 ltac:(lia)).
  change (16 ^ 0) with 1 in *. change (16 ^ 7) with 268435456 in *. lia.
Qed.

(** Each card from [f] to [g] goes back by the power of sixteen below its distance to [f - 1]; the
    region ends before the power that an int cannot hold. *)
Lemma remainder_ok a f g : 1 <= f -> g < Z.of_nat (length (offset_bytes a)) -> g + 2 ^ 32 < 2 ^ 64 ->
  g - f + 1 < 2 ^ 28 ->
  exists a', set_remainder_to_point_to_start_incl a f g = Some a' /\ same_place a a' /\
    forall j, offset_array a' j = if (f <=? j) && (j <=? g) then Some (64 + log16 (j - f + 1)) else offset_array a j.
Proof.
  change (2 ^ 28) with 268435456. change (2 ^ 32) with 4294967296. change (2 ^ 64) with 18446744073709551616.
  intros Hf Hg Hmax Hlen. unfold set_remainder_to_point_to_start_incl. destruct (Z.ltb_spec g f) as [|Hfg].
  { exists a. split; [done|]. split; [done|]. intros j. destruct (Z.leb_spec f j), (Z.leb_spec j g); try lia; done. }
  set (done_to := fun (a' : SharedArray) (e : Z) => same_place a a' /\
    forall j, offset_array a' j = if (f <=? j) && (j <=? e) then Some (64 + log16 (j - f + 1)) else offset_array a j).
  assert (Hstep : forall a' i reg e, done_to a' (reg - 1) -> reg = f - 1 + 16 ^ i -> 0 <= i <= 6 ->
            reg <= e -> e <= g -> e <= f - 1 + 16 ^ (i + 1) - 1 ->
            exists a'', set_offset_range a' reg e (u8 (N_words + i)) = Some a'' /\ done_to a'' e).
  { intros a' i reg e [[Hp1 Hp2] Hget] -> Hi Hre Heg Hei. change N_words with 64.
    pose proof (pow16_small i ltac:(lia)). rewrite (uwrap_small 8) by (unfold in_u; lia).
    destruct (set_offset_range_ok a' (f - 1 + 16 ^ i) e (64 + i)) as (a'' & Hs & [Hq1 Hq2] & Hget'); [lia..|].
    exists a''. split; [done|]. split; [split; congruence|]. intros j. rewrite Hget', Hget.
    destruct (Z.leb_spec (f - 1 + 16 ^ i) j), (Z.leb_spec j e), (Z.leb_spec f j),
      (Z.leb_spec j (f - 1 + 16 ^ i - 1)); try lia; cbn [andb]; try done.
    by rewrite (log16_eq (j - f + 1) i) by lia. }
  match goal with |- context [for_range 0 N_powers ?body _] =>
    destruct (for_range_inv (fun i '(a', reg) => 0 <= i <= 6 /\ reg = f - 1 + 16 ^ i /\ reg <= g /\ done_to a' (reg - 1))
      (fun a' => done_to a' g) body 0 N_powers (a, f)) as (c & Hc & Hr)
  end.
  - done.
  - change (16 ^ 0) with 1. split_and!; try lia. split; [done|]. intros j.
    destruct (Z.leb_spec f j), (Z.leb_spec j (f - 1)); try lia; done.
  - intros i [a' reg] Hi (Hi6 & Hreg & Hrg & Hd). pose proof (pow16_small (i + 1) ltac:(lia)).
    rewrite (power_eq (i + 1)) by lia. cbn [mbind option_bind].
    rewrite (u64_eq (f - 1)), (u64_eq (16 ^ (i + 1) - 1)), u64_eq by (change (2 ^ 64) with 18446744073709551616; lia).
    destruct (Z.leb_spec g (f - 1 + (16 ^ (i + 1) - 1))).
    + destruct (Hstep a' i reg g) as (a'' & -> & Hd''); [done..|lia|lia|lia|]. by exists (Return a'').
    + pose proof (pow16_step i ltac:(lia)). pose proof (pow16_small i ltac:(lia)).
      destruct (Hstep a' i reg (f - 1 + (16 ^ (i + 1) - 1))) as (a'' & -> & Hd''); [done..|lia|lia|lia|].
      cbn [mbind option_bind]. rewrite u64_eq by (change (2 ^ 64) with 18446744073709551616; lia).
      eexists. split; [done|]. cbn beta iota. assert (Hi5 : i + 1 <= 6).
      { destruct (decide (i = 6)) as [->|]; [|lia]. change (16 ^ (6 + 1)) with 268435456 in *. lia. }
      split_and!; try lia. by replace (f - 1 + (16 ^ (i + 1) - 1) + 1 - 1) with (f - 1 + (16 ^ (i + 1) - 1)) by lia.
  - rewrite (bind_Some _ _ _ Hc). destruct c as [[a' reg]|a'].
    + exfalso. destruct Hr as (Hr & _). change N_powers with 14 in Hr. lia.
    + exists a'. split; [done|]. apply Hr.
Qed.

(* ------------------------------------------------------------------ *)
(** ** The entry of a card *)

(** The entry of a card whose first word is [delta] bytes behind the start of its block. *)
Definition entry_for (delta : Z) : Z := if delta <? 512 then delta / 8 else 64 + log16 (delta / 512).

Definition card_addr (a : SharedArray) (c : Z) : Z := reserved_start a + 512 * c.
Definition n_cards (a : SharedArray) : Z := Z.of_nat (length (offset_bytes a)).

(** The array is somewhere in the address space, and starts at a card. *)
Record place_ok (a : SharedArray) : Prop := {
  place_start : 0 <= reserved_start a;
  place_card : (512 | reserved_start a);
  place_end : reserved_start a + 512 * n_cards a + 512 < 2 ^ 64 }.

(** A range of whole words covered by the table. *)
Record range_ok (a : SharedArray) (s e : Z) : Prop := {
  range_lo : reserved_start a <= s;
  range_nonempty : s < e;
  range_hi : e <= reserved_start a + 512 * n_cards a;
  range_s : (8 | s);
  range_e : (8 | e) }.

Lemma same_place_ok a a' : same_place a a' -> place_ok a -> place_ok a'.
Proof. intros [H1 H2] [P1 P2 P3]. unfold n_cards in *. split; unfold n_cards; rewrite ?H1, ?H2; done. Qed.

Lemma same_place_trans a b c : same_place a b -> same_place b c -> same_place a c.
Proof. intros [H1 H2] [H3 H4]. split; congruence. Qed.

Lemma same_place_addr a a' c : same_place a a' -> card_addr a' c = card_addr a c.
Proof. intros [H1 _]. unfold card_addr. by rewrite H1. Qed.

Section Place.
Context (a : SharedArray) (P : place_ok a).

Lemma index_addr p : reserved_start a <= p < reserved_start a + 512 * n_cards a ->
  index_for a p = (p - reserved_start a) / 512 /\ 0 <= index_for a p < n_cards a /\
  card_addr a (index_for a p) <= p < card_addr a (index_for a p) + 512.
Proof using P.
  intros H. destruct P as [P1 [k P2] P3]. rewrite index_for_eq by lia. split; [done|]. unfold card_addr.
  pose proof (Z.div_mod (p - reserved_start a) 512 ltac:(lia)).
  pose proof (Z.mod_pos_bound (p - reserved_start a) 512 ltac:(lia)). lia.
Qed.

Lemma index_unique p c : reserved_start a <= p < reserved_start a + 512 * n_cards a ->
  card_addr a c <= p < card_addr a c + 512 -> index_for a p = c.
Proof using P. intros H1 H2. destruct (index_addr p H1) as (_ & _ & H3). unfold card_addr in *. lia. Qed.

Lemma card_address c : 0 <= c <= n_cards a -> address_for_index a c = card_addr a c.
Proof using P. intros H. destruct P as [P1 _ P3]. unfold card_addr. apply address_for_index_eq; lia. Qed.

Lemma next_card c : 0 <= c <= n_cards a -> word_add (card_addr a c) N_words = card_addr a (c + 1).
Proof using P.
  intros H. destruct P as [P1 _ P3]. unfold card_addr in *. change N_words with 64. rewrite word_add_eq; lia.
Qed.

(** The last card boundary that does not lie behind an address. *)
Lemma boundary_eq p : reserved_start a <= p < reserved_start a + 512 * n_cards a ->
  clear_bits p (right_n_bits LogN) = card_addr a (index_for a p).
Proof using P.
  intros H. destruct (index_addr p H) as (Hi & _ & _). destruct P as [P1 [k P2] P3]. unfold clear_bits.
  change (right_n_bits LogN) with (2 ^ 9 - 1). rewrite land_lnot_ones by lia. change (2 ^ 9) with 512.
  rewrite Hi. unfold card_addr. rewrite P2. rewrite (Z.mod_eq p 512) by lia.
  replace (p - k * 512) with (p + - k * 512) by lia. rewrite Z.div_add by lia. lia.
Qed.

(** The distance of a card to the start of a block before it, in words. *)
Lemma set_offset_to_ok c s : 0 <= c < n_cards a -> s <= card_addr a c <= s + 512 ->
  0 <= s -> exists a', set_offset_to a c (card_addr a c) s = Some a' /\ same_place a a' /\
    forall j, offset_array a' j = if j =? c then Some ((card_addr a c - s) / 8) else offset_array a j.
Proof using P.
  intros Hc Hs Hpos. unfold set_offset_to. rewrite word_delta_eq by lia.
  pose proof (Z.div_pos (card_addr a c - s) 8 ltac:(lia) ltac:(lia)).
  pose proof (Z.div_le_upper_bound (card_addr a c - s) 8 64 ltac:(lia) ltac:(lia)).
  by apply set_offset_ok; [|lia].
Qed.

(** The first card that a range starts. *)
Lemma first_card_ok s : reserved_start a <= s < reserved_start a + 512 * n_cards a ->
  0 <= first_card a s <= n_cards a /\ s <= card_addr a (first_card a s) < s + 512.
Proof using P.
  intros H. destruct (index_addr s H) as (_ & Hi & Ha). unfold first_card. rewrite card_address by lia.
  destruct P as [P1 _ P3]. destruct (Z.eqb_spec (card_addr a (index_for a s)) s); cbn [negb]; [lia|].
  rewrite u64_eq by lia. unfold card_addr in *. lia.
Qed.
End Place.

(* ------------------------------------------------------------------ *)
(** ** Recording a block *)

Lemma remainder_region a f g : place_ok a -> 0 <= f <= g -> g < n_cards a ->
  set_remainder_to_point_to_start a (card_addr a f) (card_addr a (g + 1)) =
  set_remainder_to_point_to_start_incl a f g.
Proof.
  intros P Hf Hg. pose proof (place_start _ P). pose proof (place_end _ P). unfold set_remainder_to_point_to_start.
  destruct (Z.leb_spec (card_addr a (g + 1)) (card_addr a f)); [unfold card_addr in *; lia|].
  rewrite word_add_eq by (unfold card_addr in *; lia).
  rewrite (index_unique a P (card_addr a f) f) by (unfold card_addr; lia).
  rewrite (index_unique a P (card_addr a (g + 1) + 8 * -1) g) by (unfold card_addr; lia). done.
Qed.

(** The card [f] gets its distance to [s], the cards behind it to [g] the way back to it. *)
Lemma mark_ok a f g s : place_ok a -> 0 <= f -> g < n_cards a -> f <= g -> g - f < 2 ^ 28 ->
  0 <= s -> s <= card_addr a f <= s + 512 ->
  exists a1 a', set_offset_to a f (card_addr a f) s = Some a1 /\ same_place a a1 /\
    set_remainder_to_point_to_start_incl a1 (f + 1) g = Some a' /\ same_place a a' /\
    forall j, offset_array a' j = if j =? f then Some ((card_addr a f - s) / 8)
      else if (f <? j) && (j <=? g) then Some (64 + log16 (j - f)) else offset_array a j.
Proof.
  change (2 ^ 28) with 268435456. intros P Hf Hg Hfg Hlen Hs Ha.
  destruct (set_offset_to_ok a P f s) as (a1 & H1 & Hp1 & Hget1); [lia..|].
  pose proof (place_end _ P) as Hend. pose proof (place_start _ P).
  destruct (remainder_ok a1 (f + 1) g) as (a' & H2 & Hp2 & Hget2); [lia| | |lia|].
  - destruct Hp1 as [_ ->]. done.
  - change (2 ^ 32) with 4294967296. change (2 ^ 64) with 18446744073709551616 in *. lia.
  - exists a1, a'. split_and!; [done..|by eapply same_place_trans|]. intros j. rewrite Hget2, Hget1.
    replace (j - (f + 1) + 1) with (j - f) by lia.
    destruct (Z.leb_spec (f + 1) j), (Z.leb_spec j g), (Z.eqb_spec j f), (Z.ltb_spec f j); try lia; done.
Qed.

(** A range crosses a boundary exactly if it starts a card; the last one is the one of its last word. *)
Lemma range_cards a s e : place_ok a -> range_ok a s e ->
  let g := index_for a (e - 8) in
  0 <= g < n_cards a /\ card_addr a g < e <= card_addr a g + 512.
Proof.
  intros P [H1 H2 H3 [ks ->] [ke ->]]. cbv zeta.
  destruct (index_addr a P (ke * 8 - 8) ltac:(lia)) as (_ & Hi & Ha). split; [done|].
  destruct P as [_ [kp P2] _]. unfold card_addr in *. lia.
Qed.

(** Recording the block from [s] to [e] writes the entry of each card the block starts, and no other. *)
Lemma single_block_eq z a s e : place_ok a -> range_ok a s e -> e - s < 2 ^ 37 ->
  exists a', single_block z a s e = Some a' /\ same_place a a' /\
    forall c, offset_array a' c =
      if (s <=? card_addr a c) && (card_addr a c <? e) then Some (entry_for (card_addr a c - s))
      else offset_array a c.
Proof.
  change (2 ^ 37) with 137438953472. intros P R Hlen.
  destruct (range_cards a s e P R) as (Hg & He). set (g := index_for a (e - 8)) in *.
  destruct R as [H1 H2 H3 H4 H5]. pose proof (place_start _ P). pose proof (place_end _ P).
  assert (Hin : reserved_start a <= e - 8) by (destruct H4 as [ks ->], H5 as [ke ->]; lia).
  unfold single_block, do_block_internal. rewrite word_add_eq by lia. replace (e + 8 * -1) with (e - 8) by lia.
  rewrite (boundary_eq a P) by lia. fold g.
  destruct (Z.leb_spec s (card_addr a g)) as [Hs|Hs].
  2:{ exists a. split; [done|]. split; [done|]. intros c.
      destruct (Z.leb_spec s (card_addr a c)), (Z.ltb_spec (card_addr a c) e); try done.
      unfold card_addr in *; lia. }
  destruct (index_addr a P s ltac:(lia)) as (_ & Hi & Ha). rewrite card_address by (done || lia).
  set (f := if negb (s =? card_addr a (index_for a s)) then index_for a s + 1 else index_for a s).
  assert (Hf : 0 <= f <= g /\ s <= card_addr a f < s + 512).
  { unfold f. unfold card_addr in *. destruct (Z.eqb_spec s (reserved_start a + 512 * index_for a s)); cbn [negb]; lia. }
  match goal with |- context [if negb ?b then ?x else ?y] =>
    replace (if negb b then x else y) with (card_addr a f, f)
  end.
  2:{ unfold f. destruct (Z.eqb_spec s (card_addr a (index_for a s))); cbn [negb]; [done|].
      rewrite next_card, u64_eq by (done || lia). done. }
  destruct (mark_ok a f g s) as (a1 & a' & -> & Hp1 & Hr & Hp & Hget); [done|lia..| |lia|lia|].
  { change (2 ^ 28) with 268435456. unfold card_addr in *. lia. }
  cbn [mbind option_bind]. exists a'. split; [|split; [done|]].
  - destruct (Z.ltb_spec f g) as [Hfg|Hfg].
    + pose proof (same_place_ok _ _ Hp1 P) as P1. assert (Hn : n_cards a1 = n_cards a) by (unfold n_cards; by rewrite (proj2 Hp1)).
      rewrite !card_address, !next_card by (done || lia). by rewrite remainder_region by (done || lia).
    + unfold set_remainder_to_point_to_start_incl in Hr. destruct (Z.ltb_spec g (f + 1)); [done|lia].
  - intros c. rewrite Hget. unfold entry_for.
    destruct (Z.leb_spec s (card_addr a c)), (Z.ltb_spec (card_addr a c) e), (Z.eqb_spec c f), (Z.ltb_spec f c),
      (Z.leb_spec c g); subst; cbn [andb]; try (unfold card_addr in *; lia); try done.
    + destruct (Z.ltb_spec (card_addr a f - s) 512); [done|lia].
    + destruct (Z.ltb_spec (card_addr a c - s) 512); [unfold card_addr in *; lia|].
      do 3 f_equal. apply (Z.div_unique _ 512 _ (card_addr a f - s)); unfold card_addr in *; lia.
Qed.

(* ------------------------------------------------------------------ *)
(** ** Blocks *)

(** The blocks tile the addresses from [lo] to [hi], none of them has 128 gigabytes. *)
Record blocks (lo hi : Z) (B : Z -> Z -> Prop) : Prop := {
  blocks_range s e : B s e -> lo <= s /\ s < e /\ e <= hi /\ e - s < 2 ^ 37 /\ (8 | s) /\ (8 | e);
  blocks_apart s e s' e' : B s e -> B s' e' -> s < e' -> s' < e -> s = s' /\ e = e';
  blocks_cover x : lo <= x < hi -> exists s e, B s e /\ s <= x < e }.

Lemma two_blocks lo mid hi : lo < mid < hi -> hi - lo < 2 ^ 37 -> (8 | lo) -> (8 | mid) -> (8 | hi) ->
  blocks lo hi (fun s e => (s = lo /\ e = mid) \/ (s = mid /\ e = hi)).
Proof.
  intros H Hlen H1 H2 H3. split.
  - intros s e [[-> ->]|[-> ->]]; split_and!; done || lia.
  - intros s e s' e' [[-> ->]|[-> ->]] [[-> ->]|[-> ->]]; lia.
  - intros x Hx. destruct (Z.lt_ge_cases x mid); [exists lo, mid|exists mid, hi]; lia.
Qed.

Lemma one_block lo hi : lo < hi -> hi - lo < 2 ^ 37 -> (8 | lo) -> (8 | hi) ->
  blocks lo hi (fun s e => s = lo /\ e = hi).
Proof.
  intros H Hlen H1 H2. split.
  - intros s e [-> ->]; split_and!; done || lia.
  - intros s e s' e' [-> ->] [-> ->]; lia.
  - intros x Hx. exists lo, hi. lia.
Qed.

(** The blocks after [bs, be) became one of them: each other one starts where one started before. *)
Definition refines (B B' : Z -> Z -> Prop) (bs be : Z) : Prop :=
  forall s e, B' s e -> (s = bs /\ e = be) \/ exists e0, B s e0 /\ e <= e0.

(** An entry that names the block of its card, or goes back inside of the table. *)
Definition entry_ok (B : Z -> Z -> Prop) (a : SharedArray) (c : Z) : Prop :=
  exists x, offset_array a c = Some x /\
    ((0 <= x < 64 /\ exists e, B (card_addr a c - 8 * x) e /\ card_addr a c < e) \/
     exists i, 0 <= i <= 7 /\ x = 64 + i /\ 16 ^ i <= c).

(** The entry the code means to write. *)
Definition entry_exact (B : Z -> Z -> Prop) (a : SharedArray) (c : Z) : Prop :=
  forall s e, B s e -> s <= card_addr a c < e -> offset_array a c = Some (entry_for (card_addr a c - s)).

(** The entries of the cards that start below [hi]. *)
Definition table (E : (Z -> Z -> Prop) -> SharedArray -> Z -> Prop) B (a : SharedArray) (hi : Z) : Prop :=
  forall c, 0 <= c -> card_addr a c < hi -> E B a c.
Definition table_ok := table entry_ok.
Definition table_exact := table entry_exact.

Lemma entry_for_small d : 0 <= d < 512 -> entry_for d = d / 8 /\ 0 <= d / 8 < 64.
Proof.
  intros H. unfold entry_for. destruct (Z.ltb_spec d 512); [|lia]. split; [done|].
  split; [apply Z.div_pos; lia|apply Z.div_lt_upper_bound; lia].
Qed.

(** The entry of a card behind the first one. *)
Lemma entry_far f a c s : s <= card_addr a f < s + 512 -> f < c ->
  entry_for (card_addr a c - s) = 64 + log16 (c - f).
Proof.
  intros Hf Hc. unfold entry_for. destruct (Z.ltb_spec (card_addr a c - s) 512); [unfold card_addr in *; lia|].
  do 2 f_equal. symmetry. apply (Z.div_unique _ 512 _ (card_addr a f - s)); unfold card_addr in *; lia.
Qed.

(** Going back by the power below the distance stays on the cards the block starts. *)
Lemma entry_for_back d : 512 <= d < 2 ^ 37 ->
  exists i, 0 <= i <= 6 /\ entry_for d = 64 + i /\ 1 <= 16 ^ i /\ 512 * 16 ^ i <= d.
Proof.
  change (2 ^ 37) with 137438953472. intros H. unfold entry_for. destruct (Z.ltb_spec d 512); [lia|].
  pose proof (Z.div_le_lower_bound d 512 1 ltac:(lia) ltac:(lia)) as Hq.
  pose proof (Z.div_lt_upper_bound d 512 268435456 ltac:(lia) ltac:(lia)) as Hq'.
  destruct (log16_bounds (d / 512) ltac:(lia)) as (Hl0 & Hl1 & _).
  exists (log16 (d / 512)). assert (Hl : log16 (d / 512) <= 6).
  { destruct (Z.le_gt_cases (log16 (d / 512)) 6); [done|]. pose proof (pow16_mono 7 (log16 (d / 512)) ltac:(lia)).
    change (16 ^ 7) with 268435456 in *. lia. }
  pose proof (pow16_small (log16 (d / 512)) ltac:(lia)). pose proof (Z.mul_div_le d 512 ltac:(lia)). lia.
Qed.

Lemma block_unique lo hi B s e s' e' x : blocks lo hi B ->
  B s e -> B s' e' -> s <= x < e -> s' <= x < e' -> s = s' /\ e = e'.
Proof. intros HB H1 H2 H3 H4. eapply (blocks_apart _ _ _ HB); eauto; lia. Qed.

(** An entry as the code means to write it is a right one. *)
Lemma exact_entry a c lo hi B s e : place_ok a -> blocks lo hi B -> reserved_start a <= lo -> B s e ->
  s <= card_addr a c < e -> offset_array a c = Some (entry_for (card_addr a c - s)) -> entry_ok B a c.
Proof.
  intros P HB Hlo Hb He Hx. pose proof (blocks_range _ _ _ HB _ _ Hb) as (Hs & _ & _ & Hsz & [ks Hks] & _).
  eexists. split; [done|]. destruct (Z.lt_ge_cases (card_addr a c - s) 512) as [Hd|Hd].
  - destruct (entry_for_small (card_addr a c - s)) as (-> & Hr); [lia|]. left. split; [done|]. exists e.
    replace (card_addr a c - 8 * ((card_addr a c - s) / 8)) with s; [split; [done|lia]|].
    destruct (place_card _ P) as [k Hk]. unfold card_addr in *. rewrite Hk, Hks.
    replace (k * 512 + 512 * c - ks * 8) with ((k * 64 + 64 * c - ks) * 8) by lia. rewrite Z.div_mul by lia. lia.
  - destruct (entry_for_back (card_addr a c - s)) as (i & Hi & -> & _ & Hb'); [lia|].
    right. exists i. split_and!; [lia..|]. unfold card_addr in *. lia.
Qed.

Lemma exact_ok a c lo hi B : place_ok a -> blocks lo hi B -> reserved_start a = lo ->
  0 <= c -> card_addr a c < hi -> entry_exact B a c -> entry_ok B a c.
Proof.
  intros P HB Hlo Hc Hhi Hx.
  destruct (blocks_cover _ _ _ HB (card_addr a c)) as (s & e & Hb & He); [unfold card_addr in *; lia|].
  eapply exact_entry; eauto; lia.
Qed.

(** Entries of cards outside of the new block stay right, and stay exact. *)
Lemma entry_ok_keep lo hi B B' bs be a a' c : blocks lo hi B -> blocks lo hi B' -> refines B B' bs be ->
  same_place a a' -> lo <= card_addr a c < hi -> ~ bs <= card_addr a c < be ->
  offset_array a' c = offset_array a c -> entry_ok B a c -> entry_ok B' a' c.
Proof.
  intros HB HB' Hr Hp Hc Hout Hget (x & Hx & Hcase). exists x. rewrite Hget, (same_place_addr _ _ _ Hp).
  split; [done|]. destruct Hcase as [(Hx' & e & Hb & He)|]; [left|by right]. split; [done|].
  destruct (blocks_cover _ _ _ HB' (card_addr a c) Hc) as (s' & e' & Hb' & Hc').
  destruct (Hr _ _ Hb') as [[-> ->]|(e0 & Hb0 & He0)]; [done|].
  destruct (block_unique lo hi B _ _ _ _ (card_addr a c) HB Hb0 Hb) as [Hs _]; [lia..|]. subst s'.
  exists e'. split; [done|lia].
Qed.

Lemma entry_exact_keep lo hi B B' bs be a a' c : blocks lo hi B -> refines B B' bs be ->
  same_place a a' -> ~ bs <= card_addr a c < be ->
  offset_array a' c = offset_array a c -> entry_exact B a c -> entry_exact B' a' c.
Proof.
  intros HB Hr Hp Hout Hget Hx s e Hb. rewrite Hget, (same_place_addr _ _ _ Hp). intros Hc.
  destruct (Hr _ _ Hb) as [[-> ->]|(e0 & Hb0 & He0)]; [done|]. apply (Hx _ e0 Hb0). lia.
Qed.

(** Recording a block, where the others start where blocks started before: the entries stay right, and exact if they
    were. *)
Lemma single_block_ok z a hi B B' bs be : place_ok a -> hi <= reserved_start a + 512 * n_cards a ->
  blocks (reserved_start a) hi B -> blocks (reserved_start a) hi B' -> refines B B' bs be -> B' bs be ->
  table_ok B a hi ->
  exists a', single_block z a bs be = Some a' /\ same_place a a' /\ table_ok B' a' hi /\
    (table_exact B a hi -> table_exact B' a' hi).
Proof.
  intros P Hhi HB HB' Hr Hbl Ht. pose proof (blocks_range _ _ _ HB' _ _ Hbl) as (R1 & R2 & R3 & R4 & R5 & R6).
  destruct (single_block_eq z a bs be P) as (a' & Hs & Hp & Hget); [split; lia || done|done|].
  exists a'. split; [done|]. split; [done|]. pose proof (same_place_ok _ _ Hp P) as P'.
  assert (Hnew : forall c, bs <= card_addr a c < be -> offset_array a' c = Some (entry_for (card_addr a c - bs))).
  { intros c Hc. rewrite Hget. destruct (Z.leb_spec bs (card_addr a c)), (Z.ltb_spec (card_addr a c) be); try lia. done. }
  assert (Hold : forall c, ~ bs <= card_addr a c < be -> offset_array a' c = offset_array a c).
  { intros c Hc. rewrite Hget. destruct (Z.leb_spec bs (card_addr a c)), (Z.ltb_spec (card_addr a c) be); try lia; done. }
  split.
  - intros c Hc Hlt. rewrite (same_place_addr _ _ _ Hp) in Hlt.
    destruct (decide (bs <= card_addr a c < be)) as [Hin|Hout].
    + eapply (exact_entry a' c); [done|done| |done|..]; rewrite ?(same_place_addr _ _ _ Hp); [|done|by apply Hnew].
      rewrite (proj1 Hp). done.
    + apply (entry_ok_keep (reserved_start a) hi B B' bs be a a' c); auto. unfold card_addr in *. lia.
  - intros Hx c Hc Hlt. rewrite (same_place_addr _ _ _ Hp) in Hlt.
    destruct (decide (bs <= card_addr a c < be)) as [Hin|Hout]; [|apply (entry_exact_keep (reserved_start a) hi B B' bs be a a' c); auto].
    intros s e Hb. rewrite (same_place_addr _ _ _ Hp). intros Hse.
    destruct (block_unique _ _ _ _ _ _ _ (card_addr a c) HB' Hb Hbl) as [-> ->]; [done..|]. by apply Hnew.
Qed.

(* ------------------------------------------------------------------ *)
(** ** Finding the block *)

Section Lookup.
Context (block_size : Z -> option Z).

(** The size that the space gives for each block start. *)
Definition sizes_ok (B : Z -> Z -> Prop) : Prop := forall s e, B s e -> block_size s = Some ((e - s) / 8).

Section Walk.
Context (lo hi : Z) (B : Z -> Z -> Prop) (HB : blocks lo hi B) (Hsize : sizes_ok B).
Context (Hlo : 0 <= lo) (Hhi : hi < 2 ^ 64).

(** The block behind a block starts where it ends. *)
Lemma next_block s e : B s e -> e < hi -> exists e', B e e'.
Proof using HB.
  intros Hb He. pose proof (blocks_range _ _ _ HB _ _ Hb).
  destruct (blocks_cover _ _ _ HB e) as (s' & e' & Hb' & Hse); [lia|].
  destruct (Z.eq_dec s' e) as [->|Hne]; [by exists e'|].
  destruct (blocks_apart _ _ _ HB _ _ _ _ Hb Hb'); lia.
Qed.

Lemma forward_ok addr : forall fuel q n e, B n e -> n <= addr < hi -> (Z.to_nat ((addr - n) / 8) + 2 <= fuel)%nat ->
  exists s e', forward block_size fuel addr q n = Some s /\ B s e' /\ s <= addr < e'.
Proof using HB Hhi Hlo Hsize.
  induction fuel as [|fuel IH]; intros q n e Hb Hn Hf; [lia|]. cbn [forward].
  destruct (Z.leb_spec n addr); [|lia]. rewrite (Hsize _ _ Hb). cbn [mbind option_bind].
  pose proof (blocks_range _ _ _ HB _ _ Hb) as (Hr1 & Hr2 & Hr3 & _ & [kn Hkn] & [ke Hke]).
  assert (Hw : word_add n ((e - n) / 8) = e).
  { rewrite Hke, Hkn. replace (ke * 8 - kn * 8) with ((ke - kn) * 8) by lia.
    rewrite Z.div_mul by lia. rewrite word_add_eq; lia. }
  rewrite Hw. destruct (Z.lt_ge_cases addr e) as [Hlt|Hge].
  - destruct fuel; [lia|]. cbn [forward]. destruct (Z.leb_spec e addr); [lia|]. by exists n, e.
  - destruct (next_block n e Hb ltac:(lia)) as (e2 & Hb2). apply (IH n e e2 Hb2); [lia|].
    assert ((addr - e) / 8 + 1 <= (addr - n) / 8); [|pose proof (Z.div_pos (addr - e) 8 ltac:(lia) ltac:(lia)); lia].
    rewrite <- Z.div_add by lia. apply Z.div_le_mono; lia.
Qed.

Lemma forward_start addr q e : B q e -> q <= addr < hi ->
  exists s e', forward block_size (forward_fuel addr q) addr q q = Some s /\ B s e' /\ s <= addr < e'.
Proof using HB Hhi Hlo Hsize.
  intros Hb Hq. pose proof (blocks_range _ _ _ HB _ _ Hb). apply (forward_ok addr _ q q e); [done..|].
  unfold forward_fuel. rewrite word_delta_eq by lia. lia.
Qed.
End Walk.

(** Going back ends at a card with an entry below the limit. *)
Lemma back_skip_ok B a limit : place_ok a -> 64 <= limit -> forall fuel index,
  0 <= index < n_cards a -> (forall c, 0 <= c <= index -> entry_ok B a c) -> (Z.to_nat index < fuel)%nat ->
  exists i x, back_skip fuel a limit index (card_addr a index) = Some (i, card_addr a i, x) /\
    0 <= i <= index /\ offset_array a i = Some x /\ x < limit.
Proof.
  intros P Hl. pose proof (place_start _ P). pose proof (place_end _ P).
  induction fuel as [|fuel IH]; intros index Hi Hok Hf; [lia|]. cbn [back_skip].
  destruct (Hok index) as (x & Hx & Hcase); [lia|]. rewrite (bind_Some _ _ _ Hx).
  destruct (Z.leb_spec limit x) as [Hlx|]; [|by exists index, x; split_and!; done || lia].
  destruct Hcase as [[? _]|(i & Hi7 & -> & Hback)]; [lia|]. rewrite (bind_Some _ _ _ (entry_eq i Hi7)).
  pose proof (pow16_small i Hi7). rewrite u64_eq by lia. change N_words with 64.
  rewrite word_add_eq by (unfold card_addr; lia).
  replace (card_addr a index + 8 * - (64 * 16 ^ i)) with (card_addr a (index - 16 ^ i)) by (unfold card_addr; lia).
  destruct (IH (index - 16 ^ i)) as (i' & x' & -> & Hi' & Hr); [lia|intros c Hc; apply Hok; lia|lia|].
  exists i', x'. split; [done|]. split; [lia|done].
Qed.

(** A card whose entry is a distance leads to the start of its block. *)
Lemma entry_start B a c x : entry_ok B a c -> offset_array a c = Some x -> x < 64 ->
  0 <= x /\ exists e, B (card_addr a c - 8 * x) e /\ card_addr a c < e.
Proof. intros (x' & Hx' & [[? ?]|(i & ? & -> & _)]) Hx Hlt; simplify_eq; [|lia]. split; [lia|done]. Qed.

Lemma below_unallocated (flag : bool) ub addr : flag = false \/ addr < ub -> flag && (ub <=? addr) = false.
Proof. intros [->|H]; [done|]. destruct (Z.leb_spec ub addr); [lia|apply andb_false_r]. Qed.

(** The card of an address, and the block start that going back from it leads to. *)
Lemma table_start a B limit index : place_ok a -> 64 <= limit -> 0 <= index < n_cards a ->
  (forall c, 0 <= c <= index -> entry_ok B a c) ->
  exists i x, back_skip (S (cards a)) a limit index (card_addr a index) = Some (i, card_addr a i, x) /\
    0 <= i <= index /\ offset_array a i = Some x /\ x < limit.
Proof. intros P Hl Hi Hok. apply (back_skip_ok B); [done..|]. unfold n_cards, cards in *. lia. Qed.

(** The lookup finds the block that contains the address, for any table whose entries are right. *)
Lemma block_start_unsafe_ok flag ub a hi B addr : place_ok a -> hi <= reserved_start a + 512 * n_cards a ->
  blocks (reserved_start a) hi B -> sizes_ok B -> table_ok B a hi ->
  reserved_start a <= addr < hi -> flag = false \/ addr < ub ->
  exists s e, block_start_unsafe block_size flag ub a addr = Some s /\ B s e /\ s <= addr < e.
Proof.
  intros P Hhi HB Hsz Ht Haddr Hub. pose proof (place_start _ P). pose proof (place_end _ P).
  destruct (index_addr a P addr ltac:(lia)) as (_ & Hi & Ha).
  unfold block_start_unsafe. rewrite below_unallocated by done. rewrite card_address by (done || lia).
  destruct (table_start a B N_words (index_for a addr)) as (i & x & Hb & Hi' & Hx & Hlx); [done..| |].
  { intros c Hc. apply Ht; [lia|]. unfold card_addr in *. lia. }
  rewrite (bind_Some _ _ _ Hb). change N_words with 64 in Hlx.
  destruct (entry_start B a i x) as (Hx0 & e & Hbl & He); [|done|done|].
  { apply Ht; [lia|]. unfold card_addr in *. lia. }
  pose proof (blocks_range _ _ _ HB _ _ Hbl). cbn beta iota. rewrite word_add_eq by lia.
  replace (card_addr a i + 8 * - x) with (card_addr a i - 8 * x) by lia.
  apply (forward_start _ hi B HB Hsz ltac:(lia) ltac:(lia) addr _ e Hbl). unfold card_addr in *. lia.
Qed.

(** With exact entries going back alone finds the block of the first word of a card. *)
Lemma back_exact lo hi B a s e : place_ok a -> blocks lo hi B -> reserved_start a <= lo -> B s e ->
  forall fuel c, 0 <= c < n_cards a -> s <= card_addr a c < e ->
  (forall c', 0 <= c' <= c -> entry_exact B a c') -> (Z.to_nat c < fuel)%nat ->
  exists i x, back_skip fuel a N_words c (card_addr a c) = Some (i, card_addr a i, x) /\
    card_addr a i - 8 * x = s.
Proof.
  intros P HB Hlo Hb. pose proof (place_start _ P). pose proof (place_end _ P). change N_words with 64.
  pose proof (blocks_range _ _ _ HB _ _ Hb) as (Hs & _ & _ & Hsz & [ks Hks] & _).
  induction fuel as [|fuel IH]; intros c Hc Hse Hx Hf; [lia|]. cbn [back_skip].
  rewrite (bind_Some _ _ _ (Hx c ltac:(lia) s e Hb Hse)).
  destruct (Z.lt_ge_cases (card_addr a c - s) 512) as [Hd|Hd].
  - destruct (entry_for_small (card_addr a c - s)) as (-> & Hr); [lia|]. destruct (Z.leb_spec 64 ((card_addr a c - s) / 8)); [lia|].
    eexists _, _. split; [done|]. destruct (place_card _ P) as [k Hk]. unfold card_addr in *. rewrite Hk, Hks.
    replace (k * 512 + 512 * c - ks * 8) with ((k * 64 + 64 * c - ks) * 8) by lia. rewrite Z.div_mul by lia. lia.
  - destruct (entry_for_back (card_addr a c - s)) as (i & Hi & -> & H1 & Hi'); [lia|].
    destruct (Z.leb_spec 64 (64 + i)); [|lia]. rewrite (bind_Some _ _ _ (entry_eq i ltac:(lia))). change N_words with 64.
    assert (16 ^ i <= c) by (unfold card_addr in *; lia). rewrite u64_eq by lia.
    rewrite word_add_eq by (unfold card_addr in *; lia).
    replace (card_addr a c + 8 * - (64 * 16 ^ i)) with (card_addr a (c - 16 ^ i)) by (unfold card_addr; lia).
    apply IH; [lia|unfold card_addr in *; lia|intros c' Hc'; apply Hx; lia|lia].
Qed.

Lemma block_start_careful_ok flag ub a hi B c s e : place_ok a -> hi <= reserved_start a + 512 * n_cards a ->
  blocks (reserved_start a) hi B -> table_exact B a hi -> B s e -> s <= card_addr a c < e ->
  flag = false \/ card_addr a c < ub -> block_start_careful flag ub a (card_addr a c) = Some s.
Proof.
  intros P Hhi HB Ht Hb Hse Hub. pose proof (place_start _ P). pose proof (place_end _ P).
  pose proof (blocks_range _ _ _ HB _ _ Hb). unfold block_start_careful. rewrite below_unallocated by done.
  rewrite (index_unique a P (card_addr a c) c) by (unfold card_addr in *; lia).
  destruct (back_exact (reserved_start a) hi B a s e P HB ltac:(lia) Hb (S (cards a)) c) as (i & x & Hback & Hs).
  - unfold card_addr in *. lia.
  - done.
  - intros c' Hc'. apply Ht; unfold card_addr in *; lia.
  - unfold cards, n_cards, card_addr in *. lia.
  - rewrite (bind_Some _ _ _ Hback). cbn beta iota. rewrite word_add_eq by lia. f_equal. lia.
Qed.
End Lookup.

(* ------------------------------------------------------------------ *)
(** ** Growing the region *)

(** The blocks after the region grew from [hi]: only the last one may have grown, and there may be new ones. *)
Definition extends (B B' : Z -> Z -> Prop) (hi : Z) : Prop :=
  forall s e, B' s e -> hi <= s \/ exists e0, B s e0 /\ (e <= e0 \/ e0 = hi).

(** The new cards go back by one, so every lookup stays right. *)
Lemma bot_resize_ok a hi n B B' : place_ok a -> let hi' := reserved_start a + 8 * n in
  reserved_start a < hi < hi' -> hi' <= reserved_start a + 512 * n_cards a -> (512 | hi) -> (512 | hi') ->
  blocks (reserved_start a) hi B -> blocks (reserved_start a) hi' B' -> extends B B' hi -> table_ok B a hi ->
  exists a', bot_resize false a (reserved_start a) hi n = Some (a', hi') /\ same_place a a' /\ table_ok B' a' hi'.
Proof.
  intros P hi' Hhi Hhi' [kh Hkh] [kh' Hkh'] HB HB' Hext Ht. pose proof (place_start _ P). pose proof (place_end _ P).
  destruct (place_card _ P) as [k Hk]. unfold bot_resize. rewrite word_add_eq by lia. fold hi'.
  destruct (Z.ltb_spec hi hi'); [|lia]. cbn [negb andb]. unfold set_offset_region.
  rewrite (index_unique a P hi (kh - k)) by (unfold card_addr; lia). rewrite word_delta_eq by lia.
  rewrite Z.shiftr_div_pow2 by done. change (2 ^ LogN_words) with 64. rewrite Z.div_div by lia.
  replace ((hi' - hi) / (8 * 64)) with (kh' - kh) by (rewrite Hkh, Hkh'; apply (Z.div_unique _ _ _ 0); lia).
  destruct (memset_ok (offset_bytes a) (kh - k) (u8 N_words) (kh' - kh)) as (l & Hl & Hlen & Hget);
    [lia..|unfold n_cards in *; lia|].
  rewrite Hl. cbn [mbind option_bind]. eexists. split; [done|]. split; [by split|].
  change (u8 N_words) with 64 in Hget. set (a' := {| reserved_start := reserved_start a; offset_bytes := l |}).
  intros c Hc Hlt. change (card_addr a' c) with (card_addr a c) in Hlt. unfold entry_ok.
  change (card_addr a' c) with (card_addr a c). change (offset_array a' c) with (arr_get l c). rewrite Hget.
  destruct (Z.leb_spec (kh - k) c), (Z.ltb_spec c (kh - k + (kh' - kh))); cbn [andb];
    try (unfold card_addr in *; lia).
  - exists 64. split; [done|]. right. exists 0. change (16 ^ 0) with 1. lia.
  - destruct (Ht c Hc ltac:(unfold card_addr; lia)) as (x & Hx & Hcase). exists x. split; [done|].
    destruct Hcase as [(Hx' & e & Hb & He)|]; [left|by right]. split; [done|].
    destruct (blocks_cover _ _ _ HB' (card_addr a c)) as (s' & e' & Hb' & Hc'); [unfold card_addr in *; lia|].
    destruct (Hext _ _ Hb') as [|(e0 & Hb0 & He0)]; [unfold card_addr in *; lia|].
    destruct (block_unique _ _ _ _ _ _ _ (card_addr a c) HB Hb0 Hb) as [Hs _]; [unfold card_addr in *; lia|lia|].
    subst s'. exists e'. split; [done|lia].
Qed.
