(* ===== verification/BlockOffsetSplit.v ===== *)
(** * BlockOffsetSplit: splitting a block in the block offset table

    [split_entry] is what split_block writes in the cards of the suffix; it leaves those alone that
    it expects to be right already.  The entries stay right ([split_block_ok]).  They
    stay exact unless the prefix starts more than fifteen sixteenths of a power of
    sixteen cards ([split_block_exact], [split_block_inexact]).  [bot_find] puts the operations of
    [BlockOffsetSpec] and this one together. *)

From stdpp Require Import list.
From S2P Require Import Prelude GlobalDefs VirtualSpace BlockOffsetTable BlockOffsetSpec.

(* ------------------------------------------------------------------ *)
(** ** The loops over the powers *)

(** What is written in the card [d] cards behind the first one of a suffix, when the prefix
    starts [np] cards and the suffix more. *)
Definition split_entry (np d : Z) : option Z :=
  if d <? 16 ^ (log16 np + 1) then
    if 16 ^ (log16 np + 1) - np <=? d then Some (64 + log16 np)
    else if d <? np then Some (64 + log16 d) else None
  else if 16 ^ (log16 d + 1) - np <=? d then Some (64 + log16 d) else None.

Section Powers.
Context (sx np ns : Z) (Hsx : 0 <= np <= sx) (Hns : 0 < np < ns) (Hsmall : ns <= 2 ^ 28) (Hfar : sx + 2 ^ 32 < 2 ^ 64).

Lemma split_interval_eq i : 1 <= i <= 7 ->
  split_interval sx np (sx + ns) i =
  Some (16 ^ i, sx + 16 ^ i - np, sx + Z.min (16 ^ i) ns - 1, ns <=? 16 ^ i).
Proof using All.
  change (2 ^ 28) with 268435456 in *. change (2 ^ 32) with 4294967296 in *.
  change (2 ^ 64) with 18446744073709551616 in *.
  intros Hi. unfold split_interval. rewrite power_eq by lia. cbn [mbind option_bind].
  pose proof (pow16_small i ltac:(lia)).
  assert (Hu : forall x, 0 <= x < 18446744073709551616 -> u64 x = x) by (intros; by apply u64_eq).
  rewrite (Hu (sx + 16 ^ i)), (Hu (sx + 16 ^ i - 1)), (Hu (sx + ns - 1)), (Hu (sx + 16 ^ i - 1 - np)), Hu by lia.
  do 2 f_equal; [f_equal; [f_equal; lia|]|];
    destruct (Z.leb_spec (sx + ns - 1) (sx + 16 ^ i - 1)), (Z.leb_spec ns (16 ^ i)); lia.
Qed.

Lemma log_np : 0 <= log16 np <= 6 /\ 16 ^ log16 np <= np < 16 ^ (log16 np + 1).
Proof using Hns Hsmall.
  destruct (log16_bounds np ltac:(lia)) as (H0 & H1). split; [|done]. split; [done|].
  destruct (Z.le_gt_cases (log16 np) 6); [done|]. pose proof (pow16_mono 7 (log16 np) ltac:(lia)).
  change (16 ^ 7) with (2 ^ 28) in *. lia.
Qed.

(** The part of the power block [i] that is written. *)
Definition power_part (i c : Z) : bool := (sx + 16 ^ i - np <=? c) && (c <=? sx + Z.min (16 ^ i) ns - 1).

Lemma write_part a i : 1 <= i <= 7 -> np < 16 ^ i -> sx + ns <= n_cards a ->
  sx + 16 ^ i - np <= sx + Z.min (16 ^ i) ns - 1 ->
  exists a', set_offset_range a (sx + 16 ^ i - np) (sx + Z.min (16 ^ i) ns - 1) (u8 (N_words + i - 1)) = Some a' /\
    same_place a a' /\ forall c, offset_array a' c = if power_part i c then Some (64 + (i - 1)) else offset_array a c.
Proof using All.
  change (2 ^ 28) with 268435456 in *. change (2 ^ 32) with 4294967296 in *.
  change (2 ^ 64) with 18446744073709551616 in *.
  intros Hi Hnp Hn Hle. change N_words with 64. replace (64 + i - 1) with (64 + (i - 1)) by lia.
  rewrite (uwrap_small 8) by (unfold in_u; lia). unfold n_cards in *.
  apply set_offset_range_ok; change (2 ^ 64) with 18446744073709551616; lia.
Qed.

Lemma split_first_ok a : sx + ns <= n_cards a -> forall fuel i, 1 <= i <= log16 np + 1 ->
  (Z.to_nat (log16 np + 1 - i) < fuel)%nat ->
  exists a', split_first sx np (sx + ns) fuel a true i = Some (a', 16 ^ (log16 np + 1) <? ns, log16 np + 2) /\
    same_place a a' /\
    forall c, offset_array a' c = if power_part (log16 np + 1) c then Some (64 + log16 np) else offset_array a c.
Proof using All.
  intros Hn. destruct log_np as (Hl & Hp). induction fuel as [|fuel IH]; intros i Hi Hf; [lia|]. cbn [split_first].
  destruct (Z.ltb_spec i N_powers); [|change N_powers with 14 in *; lia]. cbn [andb].
  rewrite (bind_Some _ _ _ (split_interval_eq i ltac:(lia))). cbn beta iota zeta.
  assert (Hu : u32 (i + 1) = i + 1) by (apply uwrap_small; unfold in_u; lia). rewrite Hu.
  destruct (Z.eq_dec i (log16 np + 1)) as [->|Hne].
  - destruct (Z.ltb_spec np (16 ^ (log16 np + 1))); [|lia]. replace (log16 np + 1 + 1) with (log16 np + 2) by lia.
    destruct (Z.leb_spec (sx + 16 ^ (log16 np + 1) - np) (sx + Z.min (16 ^ (log16 np + 1)) ns - 1)) as [Hle|Hgt].
    + destruct (write_part a (log16 np + 1)) as (a' & -> & Hpl & Hget); [lia..|]. cbn [mbind option_bind].
      exists a'. split; [|split; [done|]].
      * do 3 f_equal. destruct (Z.leb_spec ns (16 ^ (log16 np + 1))), (Z.ltb_spec (16 ^ (log16 np + 1)) ns); try done; lia.
      * intros c. rewrite Hget. by replace (log16 np + 1 - 1) with (log16 np) by lia.
    + exists a. split; [|split; [done|]].
      * do 3 f_equal. destruct (Z.ltb_spec (16 ^ (log16 np + 1)) ns); [lia|done].
      * intros c. unfold power_part.
        destruct (Z.leb_spec (sx + 16 ^ (log16 np + 1) - np) c),
          (Z.leb_spec c (sx + Z.min (16 ^ (log16 np + 1)) ns - 1)); try done; lia.
  - pose proof (pow16_mono i (log16 np) ltac:(lia)). destruct (Z.ltb_spec np (16 ^ i)); [lia|].
    destruct (Z.leb_spec ns (16 ^ i)); [lia|]. cbn [negb]. apply IH; lia.
Qed.

(** What the second loop writes from the power [i] on. *)
Definition rest_entry (i c : Z) (old : option Z) : option Z :=
  if (16 ^ (i - 1) <=? c - sx) && (c - sx <? ns) && (16 ^ (log16 (c - sx) + 1) - np <=? c - sx)
  then Some (64 + log16 (c - sx)) else old.

Lemma rest_entry_done i c old : ns <= 16 ^ (i - 1) -> rest_entry i c old = old.
Proof.
  intros H. unfold rest_entry. destruct (Z.leb_spec (16 ^ (i - 1)) (c - sx)), (Z.ltb_spec (c - sx) ns); try done. lia.
Qed.

Lemma rest_entry_step i c old : log16 np + 2 <= i -> 1 <= i ->
  rest_entry i c old = rest_entry (i + 1) c (if power_part i c then Some (64 + (i - 1)) else old).
Proof using Hns Hsmall.
  intros Hi H1. destruct log_np as (Hl & Hp). pose proof (pow16_mono (log16 np + 1) (i - 1) ltac:(lia)) as Hm.
  pose proof (pow16_step (i - 1) ltac:(lia)) as Hst. replace (i - 1 + 1) with i in Hst by lia.
  unfold rest_entry, power_part. replace (i + 1 - 1) with i by lia.
  destruct (Z.leb_spec (16 ^ i) (c - sx)) as [Hge|Hlt].
  - destruct (Z.leb_spec (16 ^ (i - 1)) (c - sx)); [|lia].
    destruct (Z.leb_spec (sx + 16 ^ i - np) c), (Z.leb_spec c (sx + Z.min (16 ^ i) ns - 1)); try done; lia.
  - destruct (Z.leb_spec (16 ^ (i - 1)) (c - sx)) as [Hge'|Hlt']; cbn [andb].
    + rewrite (log16_eq (c - sx) (i - 1)) by (replace (i - 1 + 1) with i by lia; lia).
      replace (i - 1 + 1) with i by lia.
      destruct (Z.ltb_spec (c - sx) ns), (Z.leb_spec (16 ^ i - np) (c - sx)), (Z.leb_spec (sx + 16 ^ i - np) c),
        (Z.leb_spec c (sx + Z.min (16 ^ i) ns - 1)); try done; lia.
    + destruct (Z.leb_spec (sx + 16 ^ i - np) c); [lia|done].
Qed.

Lemma split_rest_ok : forall fuel a i, sx + ns <= n_cards a -> log16 np + 2 <= i -> 1 <= i <= 8 ->
  (Z.to_nat (9 - i) <= fuel)%nat ->
  exists a', split_rest sx np (sx + ns) fuel a (16 ^ (i - 1) <? ns) i = Some a' /\ same_place a a' /\
    forall c, offset_array a' c = rest_entry i c (offset_array a c).
Proof using All.
  destruct log_np as (Hl & Hp). induction fuel as [|fuel IH]; intros a i Hn Hi Hi8 Hf; [lia|]. cbn [split_rest].
  destruct (Z.ltb_spec (16 ^ (i - 1)) ns) as [Hmore|Hdone]; cbn [andb].
  2:{ exists a. split; [done|]. split; [done|]. intros c. by rewrite rest_entry_done. }
  assert (Hi7 : i <= 7).
  { destruct (Z.eq_dec i 8) as [->|]; [|lia]. change (16 ^ (8 - 1)) with (2 ^ 28) in *. lia. }
  destruct (Z.ltb_spec i N_powers); [|change N_powers with 14 in *; lia].
  rewrite (bind_Some _ _ _ (split_interval_eq i ltac:(lia))). cbn beta iota zeta.
  assert (Hu : u32 (i + 1) = i + 1) by (apply uwrap_small; unfold in_u; lia). rewrite Hu.
  pose proof (pow16_mono (log16 np + 1) (i - 1) ltac:(lia)) as Hm. pose proof (pow16_mono (i - 1) i ltac:(lia)).
  destruct (Z.ltb_spec (sx + Z.min (16 ^ i) ns - 1) (sx + 16 ^ i - np)) as [Hempty|Hle].
  - destruct (Z.leb_spec ns (16 ^ i)) as [Hlast|]; [|lia]. exists a. split; [done|]. split; [done|]. intros c.
    rewrite rest_entry_step by lia. rewrite rest_entry_done by (replace (i + 1 - 1) with i by lia; lia).
    unfold power_part. destruct (Z.leb_spec (sx + 16 ^ i - np) c), (Z.leb_spec c (sx + Z.min (16 ^ i) ns - 1)); done || lia.
  - rewrite andb_false_r. destruct (write_part a i) as (a1 & -> & Hpl & Hget); [lia..|]. cbn [mbind option_bind].
    assert (Hn1 : sx + ns <= n_cards a1) by (unfold n_cards in *; by rewrite (proj2 Hpl)).
    destruct (IH a1 (i + 1) Hn1) as (a' & Hr & Hpl' & Hget'); [lia..|].
    exists a'. split; [|split; [by eapply same_place_trans|]].
    + rewrite <- Hr. f_equal. replace (i + 1 - 1) with i by lia.
      destruct (Z.leb_spec ns (16 ^ i)), (Z.ltb_spec (16 ^ i) ns); try done; lia.
    + intros c. rewrite Hget', Hget. symmetry. apply rest_entry_step; lia.
Qed.

(** The two loops together, with the remainder written before them. *)
Lemma split_powers_ok a : sx + ns <= n_cards a ->
  (forall d, 0 < d < np -> offset_array a (sx + d) = Some (64 + log16 d)) ->
  exists a', split_powers sx np (sx + ns) a = Some a' /\ same_place a a' /\
    forall c, offset_array a' c =
      if (0 <? c - sx) && (c - sx <? ns)
      then match split_entry np (c - sx) with Some x => Some x | None => offset_array a c end
      else offset_array a c.
Proof using All.
  intros Hn Hrem. destruct log_np as (Hl & Hp). unfold split_powers.
  destruct (split_first_ok a Hn (S (Z.to_nat N_powers)) 1) as (a1 & Hf & Hp1 & Hget1);
    [lia|change (Z.to_nat N_powers) with 14%nat; lia|].
  assert (Hn1 : sx + ns <= n_cards a1) by (unfold n_cards in *; by rewrite (proj2 Hp1)).
  destruct (split_rest_ok (S (Z.to_nat N_powers)) a1 (log16 np + 2) Hn1) as (a' & Hr & Hp' & Hget');
    [lia..|change (Z.to_nat N_powers) with 14%nat; lia|].
  rewrite (bind_Some _ _ _ Hf). cbn beta iota. replace (log16 np + 2 - 1) with (log16 np + 1) in * by lia.
  exists a'. split; [done|]. split; [by eapply same_place_trans|]. intros c. rewrite Hget', Hget1.
  unfold rest_entry, power_part, split_entry. replace (log16 np + 2 - 1) with (log16 np + 1) by lia.
  assert (Hd : sx + (c - sx) = c) by lia. pose proof (Hrem (c - sx)) as Hrem'. rewrite Hd in Hrem'.
  set (p := 16 ^ (log16 np + 1)) in *. set (q := 16 ^ (log16 (c - sx) + 1)).
  destruct (Z.leb_spec p (c - sx)), (Z.ltb_spec (c - sx) p), (Z.ltb_spec 0 (c - sx)), (Z.ltb_spec (c - sx) ns); try lia;
    destruct (Z.leb_spec (sx + p - np) c), (Z.leb_spec c (sx + Z.min p ns - 1)), (Z.leb_spec (p - np) (c - sx)); try lia;
    cbn [andb]; try done; try (destruct (Z.leb_spec q (c - sx + np)), (Z.leb_spec (q - np) (c - sx)); try lia; done).
  destruct (Z.ltb_spec (c - sx) np); [|done]. apply Hrem'. lia.
Qed.
End Powers.

(* ------------------------------------------------------------------ *)
(** ** Splitting *)

Definition split_written (np ns d : Z) : option Z :=
  if np =? 0 then None else if ns <=? np then Some (64 + log16 d) else split_entry np d.

Lemma split_entry_near np d : 0 < d < np -> split_entry np d <> None.
Proof.
  intros H. destruct (log16_bounds np ltac:(lia)) as (_ & Hp). unfold split_entry.
  destruct (Z.ltb_spec d (16 ^ (log16 np + 1))); [|lia].
  destruct (Z.leb_spec (16 ^ (log16 np + 1) - np) d); [done|]. destruct (Z.ltb_spec d np); [done|lia].
Qed.

(** The work of a split, from the indices on. *)
Definition split_cards_work (a : SharedArray) (s sx np ex ns : Z) : option SharedArray :=
  if 0 <? ns then
    a ← set_offset_to a sx (address_for_index a sx) s;
    if 0 <? np then
      if ns <=? np then set_remainder_to_point_to_start_incl a (u64 (sx + 1)) (u64 (ex - 1))
      else
        a ← set_remainder_to_point_to_start_incl a (u64 (sx + 1)) (u64 (u64 (sx + np) - 1));
        split_powers sx np ex a
    else Some a
  else Some a.

Lemma split_work_ok a s sx np ns : place_ok a -> 0 <= np <= sx -> 0 <= ns <= 2 ^ 28 -> sx + ns <= n_cards a ->
  sx + 2 ^ 32 < 2 ^ 64 -> 0 <= s <= card_addr a sx -> card_addr a sx < s + 512 ->
  exists a', split_cards_work a s sx np (sx + ns) ns = Some a' /\ same_place a a' /\
    forall c, offset_array a' c =
      if (sx <=? c) && (c <? sx + ns) then
        if c =? sx then Some (entry_for (card_addr a sx - s))
        else match split_written np ns (c - sx) with Some x => Some x | None => offset_array a c end
      else offset_array a c.
Proof.
  change (2 ^ 28) with 268435456. change (2 ^ 32) with 4294967296. change (2 ^ 64) with 18446744073709551616.
  intros P Hnp Hns Hn Hfar Hs Hs'. pose proof (place_end _ P). pose proof (place_start _ P).
  change (2 ^ 64) with 18446744073709551616 in *. unfold split_cards_work, split_written.
  destruct (Z.ltb_spec 0 ns) as [Hpos|].
  2:{ exists a. split; [done|]. split; [done|]. intros c. destruct (Z.leb_spec sx c), (Z.ltb_spec c (sx + ns)); try done; lia. }
  rewrite card_address by (done || lia). unfold entry_for. destruct (Z.ltb_spec (card_addr a sx - s) 512); [|lia].
  assert (Hu : forall x, 0 <= x < 18446744073709551616 -> u64 x = x) by (intros; by apply u64_eq).
  rewrite (Hu (sx + 1)), (Hu (sx + ns - 1)), (Hu (sx + np)) by lia.
  set (last := if np =? 0 then sx else if ns <=? np then sx + ns - 1 else sx + np - 1).
  assert (Hlast : sx <= last < sx + ns) by (unfold last; destruct (Z.eqb_spec np 0), (Z.leb_spec ns np); lia).
  destruct (mark_ok a sx last s P) as (a1 & a2 & -> & Hp1 & Hrem & Hp2 & Hget);
    [lia|lia|lia|change (2 ^ 28) with 268435456; lia|lia|lia|]. cbn [mbind option_bind].
  unfold last in *. clear last. destruct (Z.eqb_spec np 0) as [->|Hnz]; cbn [Z.ltb Z.compare].
  { unfold set_remainder_to_point_to_start_incl in Hrem. destruct (Z.ltb_spec sx (sx + 1)); [|lia]. simplify_eq.
    exists a2. split; [done|]. split; [done|]. intros c. rewrite Hget.
    destruct (Z.leb_spec sx c), (Z.ltb_spec c (sx + ns)), (Z.eqb_spec c sx), (Z.ltb_spec sx c), (Z.leb_spec c sx);
      try done; lia. }
  destruct (Z.ltb_spec 0 np); [|lia]. destruct (Z.leb_spec ns np) as [Hle|Hgt].
  - exists a2. split; [done|]. split; [done|]. intros c. rewrite Hget.
    destruct (Z.leb_spec sx c), (Z.ltb_spec c (sx + ns)), (Z.eqb_spec c sx), (Z.ltb_spec sx c), (Z.leb_spec c (sx + ns - 1));
      try done; lia.
  - rewrite (Hu (sx + np - 1)) by lia. rewrite (bind_Some _ _ _ Hrem).
    destruct (split_powers_ok sx np ns) with (a := a2) as (a' & -> & Hp' & Hget');
      [done|lia|change (2 ^ 28) with 268435456; lia
      |change (2 ^ 32) with 4294967296; change (2 ^ 64) with 18446744073709551616; lia|..].
    + unfold n_cards in *. rewrite (proj2 Hp2). lia.
    + intros d Hd. rewrite Hget. destruct (Z.eqb_spec (sx + d) sx), (Z.ltb_spec sx (sx + d)),
        (Z.leb_spec (sx + d) (sx + np - 1)); try lia. cbn [andb]. do 3 f_equal. lia.
    + exists a'. split; [done|]. split; [by eapply same_place_trans|]. intros c. rewrite Hget', Hget.
      destruct (Z.leb_spec sx c), (Z.ltb_spec c (sx + ns)), (Z.eqb_spec c sx), (Z.ltb_spec sx c),
        (Z.ltb_spec 0 (c - sx)), (Z.ltb_spec (c - sx) ns), (Z.leb_spec c (sx + np - 1)); cbn [andb]; try lia; try done.
      pose proof (split_entry_near np (c - sx) ltac:(lia)). by destruct (split_entry np (c - sx)).
Qed.

(** The way back that is written does not leave the prefix. *)
Lemma split_written_ok np ns d x : 0 <= np -> 0 < d < ns -> ns <= 2 ^ 28 -> split_written np ns d = Some x ->
  exists k, 0 <= k <= 7 /\ x = 64 + k /\ 16 ^ k <= np + d.
Proof.
  change (2 ^ 28) with (16 ^ 7). intros Hnp Hd Hns.
  assert (Hlog : forall e, 0 < e < 16 ^ 7 -> 0 <= log16 e <= 7 /\ 16 ^ log16 e <= e).
  { intros e He. destruct (log16_bounds e ltac:(lia)) as (Hl & Hb). split; [|lia]. split; [done|].
    destruct (Z.le_gt_cases (log16 e) 7); [done|]. pose proof (pow16_mono 7 (log16 e) ltac:(lia)). lia. }
  unfold split_written, split_entry. destruct (Z.eqb_spec np 0); [done|].
  destruct (Z.leb_spec ns np); [|zcases]; intros [= <-].
  1: { exists (log16 d). destruct (Hlog d); lia. }
  all: first [exists (log16 d); destruct (Hlog d); lia|exists (log16 np); destruct (Hlog np); lia].
Qed.

(** Exact unless the suffix starts more cards than the prefix and that one more than fifteen sixteenths of
    a power. *)
Definition split_fits (np ns : Z) : Prop := ns <= np \/ np <= 15 * 16 ^ log16 np.

Lemma split_written_exact np ns d : 0 <= np -> 0 < d < ns -> split_fits np ns ->
  match split_written np ns d with Some x => x | None => 64 + log16 (d + np) end = 64 + log16 d.
Proof.
  intros Hnp Hd Hfit. unfold split_written, split_entry. destruct (Z.eqb_spec np 0) as [->|]; [f_equal; f_equal; lia|].
  destruct (Z.leb_spec ns np) as [|Hgt]; [done|]. destruct Hfit as [|Hfit]; [lia|].
  destruct (log16_bounds np ltac:(lia)) as (Hl & Hp). destruct (log16_bounds d ltac:(lia)) as (Hld & Hpd).
  pose proof (pow16_step (log16 np) Hl).
  destruct (Z.ltb_spec d (16 ^ (log16 np + 1))) as [Hlt|Hge].
  - destruct (Z.leb_spec (16 ^ (log16 np + 1) - np) d).
    + f_equal. symmetry. apply log16_eq; lia.
    + destruct (Z.ltb_spec d np); [done|]. f_equal. rewrite (log16_eq (d + np) (log16 np)) by lia.
      symmetry. apply log16_eq; lia.
  - destruct (Z.leb_spec (16 ^ (log16 d + 1) - np) d); [done|]. f_equal. apply log16_eq; lia.
Qed.

Section Split.
Context (a : SharedArray) (P : place_ok a) (blk n m : Z).
Context (R : range_ok a blk (blk + 8 * n)) (Hm : 0 < m < n) (Hn : 8 * n < 2 ^ 37).

(** The cards that the prefix and the suffix start. *)
Definition pref_cards : Z := first_card a (blk + 8 * m) - first_card a blk.
Definition suff_cards : Z := index_for a (blk + 8 * n - 8) + 1 - first_card a (blk + 8 * m).

Lemma split_cards : let sx := first_card a (blk + 8 * m) in
  (0 <= pref_cards <= sx /\ 0 <= suff_cards /\ sx + suff_cards <= n_cards a) /\
  suff_cards <= 2 ^ 28 /\ sx + 2 ^ 32 < 2 ^ 64 /\
  (blk + 8 * m <= card_addr a sx < blk + 8 * m + 512) /\
  (forall c, blk + 8 * m <= card_addr a c < blk + 8 * n <-> sx <= c < sx + suff_cards).
Proof using All.
  change (2 ^ 37) with 137438953472 in *. change (2 ^ 28) with 268435456. change (2 ^ 32) with 4294967296.
  pose proof (range_cards a blk (blk + 8 * n) P R) as (Hg & He). cbv zeta.
  destruct R as [R1 R2 R3 R4 R5]. pose proof (place_start _ P). pose proof (place_end _ P) as Hend.
  destruct (first_card_ok a P blk) as (Hb & Hba); [lia|].
  destruct (first_card_ok a P (blk + 8 * m)) as (Hs & Hsa); [lia|].
  change (2 ^ 64) with 18446744073709551616 in *. unfold pref_cards, suff_cards, card_addr in *.
  split; [|split; [|split; [|split]]]; lia.
Qed.

(** Splitting writes the entry of the first card of the suffix, and of those behind it what
    [split_written] says. *)
Lemma split_block_eq :
  let sx := first_card a (blk + 8 * m) in
  exists a', split_block a blk n m = Some a' /\ same_place a a' /\
    forall c, offset_array a' c =
      if (sx <=? c) && (c <? sx + suff_cards) then
        if c =? sx then Some (entry_for (card_addr a sx - (blk + 8 * m)))
        else match split_written pref_cards suff_cards (c - sx) with
             | Some x => Some x | None => offset_array a c end
      else offset_array a c.
Proof using All.
  cbv zeta. destruct split_cards as ((Hp & Hs & Hle) & Hsmall & Hfar & Hsa & Hin).
  pose proof (range_cards a blk (blk + 8 * n) P R) as (Hg & He). cbv zeta in *.
  pose proof (place_start _ P). pose proof (place_end _ P) as Hend.
  destruct R as [R1 R2 R3 R4 R5]. unfold split_block. rewrite (word_add_eq blk n), (word_add_eq blk m), word_add_eq by lia.
  replace (blk + 8 * n + 8 * -1) with (blk + 8 * n - 8) by lia.
  rewrite (u64_eq (index_for a (blk + 8 * n - 8) + 1)) by lia.
  rewrite (u64_eq (first_card a (blk + 8 * m) - first_card a blk)) by (unfold pref_cards in Hp; lia).
  fold pref_cards. rewrite (u64_eq (index_for a (blk + 8 * n - 8) + 1 - first_card a (blk + 8 * m)))
    by (unfold suff_cards in *; lia). fold suff_cards.
  replace (index_for a (blk + 8 * n - 8) + 1) with (first_card a (blk + 8 * m) + suff_cards) by (unfold suff_cards; lia).
  apply split_work_ok; [done|lia..].
Qed.

Context (hi : Z) (Hhi : hi <= reserved_start a + 512 * n_cards a) (B B' : Z -> Z -> Prop).
Context (HB : blocks (reserved_start a) hi B) (HB' : blocks (reserved_start a) hi B').
Context (Hblk : B blk (blk + 8 * n)) (Hsuff : B' (blk + 8 * m) (blk + 8 * n)).
Context (Hr : refines B B' (blk + 8 * m) (blk + 8 * n)).

(** Splitting a block keeps every entry right. *)
Lemma split_block_ok : table_ok B a hi ->
  exists a', split_block a blk n m = Some a' /\ same_place a a' /\ table_ok B' a' hi.
Proof using All.
  intros Ht. destruct split_block_eq as (a' & Hs & Hp & Hget). exists a'. split; [done|]. split; [done|].
  destruct split_cards as ((Hnp & Hns & Hle) & Hsmall & Hfar & Hsa & Hin). cbv zeta in *.
  pose proof (same_place_ok _ _ Hp P) as P'. intros c Hc Hlt. rewrite (same_place_addr _ _ _ Hp) in Hlt.
  specialize (Hget c). specialize (Hin c).
  destruct (Z.leb_spec (first_card a (blk + 8 * m)) c), (Z.ltb_spec c (first_card a (blk + 8 * m) + suff_cards));
    cbn [andb] in Hget.
  2-4: apply (entry_ok_keep (reserved_start a) hi B B' (blk + 8 * m) (blk + 8 * n) a a' c); auto;
    [unfold card_addr in *; lia|lia].
  destruct (Z.eqb_spec c (first_card a (blk + 8 * m))) as [Heq|Hne].
  { subst c. apply (exact_entry a' _ (reserved_start a) hi B' (blk + 8 * m) (blk + 8 * n)); auto;
      rewrite ?(proj1 Hp), ?(same_place_addr _ _ _ Hp); [lia|lia|done]. }
  destruct (split_written pref_cards suff_cards (c - first_card a (blk + 8 * m))) as [x|] eqn:Hx.
  - destruct (split_written_ok pref_cards suff_cards (c - first_card a (blk + 8 * m)) x)
      as (k & Hk & -> & Hpow); [lia..|done|].
    eexists. split; [done|]. right. exists k. split_and!; [lia..|]. lia.
  - destruct (Ht c Hc Hlt) as (x & Hx' & [(Hx64 & e & Hb & He)|Hcase]).
    + destruct (block_unique _ _ _ _ _ _ _ (card_addr a c) HB Hb Hblk) as [Heq _]; [lia|lia|].
      unfold card_addr in *. lia.
    + exists x. rewrite Hget. split; [done|by right].
Qed.

(** Splitting keeps the entries exact, for prefixes of those sizes. *)
Lemma split_block_exact a' : table_exact B a hi -> split_fits pref_cards suff_cards ->
  split_block a blk n m = Some a' -> table_exact B' a' hi.
Proof using All.
  intros Ht Hfit Hs. destruct split_block_eq as (a2 & Hs2 & Hp & Hget). rewrite Hs in Hs2. simplify_eq.
  destruct split_cards as ((Hnp & Hns & Hle) & Hsmall & Hfar & Hsa & Hin). cbv zeta in *.
  intros c Hc Hlt. rewrite (same_place_addr _ _ _ Hp) in Hlt. specialize (Hget c). specialize (Hin c).
  destruct (Z.leb_spec (first_card a (blk + 8 * m)) c), (Z.ltb_spec c (first_card a (blk + 8 * m) + suff_cards));
    cbn [andb] in Hget.
  2-4: apply (entry_exact_keep (reserved_start a) hi B B' (blk + 8 * m) (blk + 8 * n) a a2 c); auto; lia.
  intros s e Hb. rewrite (same_place_addr _ _ _ Hp). intros Hse.
  destruct (block_unique _ _ _ _ _ _ _ (card_addr a c) HB' Hb Hsuff) as [-> ->]; [lia|lia|]. rewrite Hget.
  destruct (Z.eqb_spec c (first_card a (blk + 8 * m))) as [Heq|Hne]; [by subst c|].
  pose proof (split_written_exact pref_cards suff_cards (c - first_card a (blk + 8 * m)) (proj1 Hnp) ltac:(lia) Hfit) as Hw.
  rewrite (entry_far (first_card a (blk + 8 * m))) by (unfold card_addr in *; lia).
  destruct (split_written pref_cards suff_cards (c - first_card a (blk + 8 * m))); [by rewrite Hw|].
  rewrite (Ht c Hc Hlt _ _ Hblk) by lia. destruct R as [R1 R2 R3 _ _].
  destruct (first_card_ok a P blk) as (Hf & Hfa); [lia|].
  rewrite (entry_far (first_card a blk)) by (unfold pref_cards, card_addr in *; lia).
  unfold pref_cards in Hw. rewrite <- Hw. do 3 f_equal. lia.
Qed.
End Split.

(* ------------------------------------------------------------------ *)
(** ** A table in use *)

(** A new table: the region is one block. *)
Lemma new_table_ok a hi : place_ok a -> hi <= reserved_start a + 512 * n_cards a ->
  let B := fun s e => s = reserved_start a /\ e = hi in
  blocks (reserved_start a) hi B ->
  exists a', new_BlockOffsetArray false a (reserved_start a) hi = Some a' /\ same_place a a' /\ table_exact B a' hi.
Proof.
  intros P Hhi B HB. destruct (blocks_range _ _ _ HB (reserved_start a) hi ltac:(done)) as (_ & H1 & _ & H2 & H3 & H4).
  change (2 ^ 37) with 137438953472 in *. pose proof (place_start _ P). pose proof (place_end _ P) as Hend.
  assert (R : range_ok a (reserved_start a) hi) by (split; done || lia).
  destruct (range_cards a _ _ P R) as (Hg & He). cbv zeta in *.
  unfold new_BlockOffsetArray. cbn [negb]. change N_words with 64. rewrite word_add_eq by (unfold card_addr in *; lia).
  assert (Hrem : exists a1, set_remainder_to_point_to_start a (reserved_start a + 8 * 64) hi = Some a1 /\ same_place a a1 /\
    forall j, offset_array a1 j = if (1 <=? j) && (j <=? index_for a (hi - 8)) then Some (64 + log16 j) else offset_array a j).
  { unfold set_remainder_to_point_to_start. destruct (Z.leb_spec hi (reserved_start a + 8 * 64)) as [Hle|Hgt].
    - exists a. split; [done|]. split; [done|]. intros j.
      destruct (Z.leb_spec 1 j), (Z.leb_spec j (index_for a (hi - 8))); try done. unfold card_addr in *. lia.
    - rewrite (index_unique a P (reserved_start a + 8 * 64) 1) by (unfold card_addr; lia).
      rewrite word_add_eq by lia. replace (hi + 8 * -1) with (hi - 8) by lia.
      destruct (remainder_ok a 1 (index_for a (hi - 8))) as (a1 & -> & Hp & Hget).
      + lia.
      + unfold n_cards in *. lia.
      + change (2 ^ 32) with 4294967296. change (2 ^ 64) with 18446744073709551616 in *. lia.
      + change (2 ^ 28) with 268435456. unfold card_addr in *. lia.
      + exists a1. split; [done|]. split; [done|]. intros j. rewrite Hget. by replace (j - 1 + 1) with j by lia. }
  destruct Hrem as (a1 & -> & Hp1 & Hget1). cbn [mbind option_bind].
  destruct (set_offset_ok a1 0 0) as (a' & -> & Hp' & Hget'); [rewrite (proj2 Hp1); unfold n_cards in *; lia|lia|].
  assert (Hp : same_place a a') by (by eapply same_place_trans). exists a'. split; [done|]. split; [done|].
  intros c Hc Hlt s e [-> ->]. rewrite !(same_place_addr _ _ _ Hp) in *. intros Hse. rewrite Hget', Hget1.
  destruct (Z.eqb_spec c 0) as [->|Hne].
  - unfold card_addr. replace (reserved_start a + 512 * 0 - reserved_start a) with 0 by lia. done.
  - rewrite (entry_far 0) by (unfold card_addr; lia). rewrite Z.sub_0_r.
    destruct (Z.leb_spec 1 c), (Z.leb_spec c (index_for a (hi - 8))); try done; unfold card_addr in *; lia.
Qed.

Section Use.
Context (a0 : SharedArray) (hi : Z) (fits : bool).
Let rs := reserved_start a0.

(** The tables that recording, marking and splitting lead to, with the blocks they are for;
    with [fits] only splits of the sizes that keep the entries exact. *)
Inductive in_use : SharedArray -> (Z -> Z -> Prop) -> Prop :=
| use_new a : new_BlockOffsetArray false a0 rs hi = Some a -> in_use a (fun s e => s = rs /\ e = hi)
| use_record a B B' bs be a' : in_use a B -> blocks rs hi B' -> refines B B' bs be -> B' bs be ->
    single_block false a bs be = Some a' \/ mark_block a bs be = Some a' -> in_use a' B'
| use_split a B B' blk n m a' : in_use a B -> blocks rs hi B' -> 0 < m < n -> B blk (blk + 8 * n) ->
    B' (blk + 8 * m) (blk + 8 * n) -> refines B B' (blk + 8 * m) (blk + 8 * n) ->
    (fits = true -> split_fits (pref_cards a blk m) (suff_cards a blk n m)) ->
    split_block a blk n m = Some a' -> in_use a' B'.

Context (P0 : place_ok a0) (Hhi : hi <= rs + 512 * n_cards a0).
Context (H0 : blocks rs hi (fun s e => s = rs /\ e = hi)).

Lemma mark_block_single a bs be : mark_block a bs be = single_block false a bs be.
Proof using. done. Qed.

Lemma in_use_ok a B : in_use a B ->
  blocks rs hi B /\ same_place a0 a /\ table_ok B a hi /\ (fits = true -> table_exact B a hi).
Proof using All.
  assert (Hplace : forall a1, same_place a0 a1 -> place_ok a1 /\ hi <= reserved_start a1 + 512 * n_cards a1 /\ reserved_start a1 = rs).
  { intros a1 Hp. split; [by eapply same_place_ok|]. unfold n_cards, rs in *. rewrite (proj1 Hp), (proj2 Hp). done. }
  induction 1 as [a Hnew|a B B' bs be a' _ IH HB' Hr Hbl Hop|a B B' blk n m a' _ IH HB' Hm Hblk Hsuff Hr Hfit Hop].
  - destruct (new_table_ok a0 hi P0 Hhi H0) as (a1 & Hn & Hp & Hx). unfold rs in *. rewrite Hnew in Hn. simplify_eq.
    split; [done|]. split; [done|]. split; [|done]. intros c Hc Hlt. eapply exact_ok; [by eapply same_place_ok|exact H0|..].
    + apply Hp.
    + done.
    + done.
    + by apply Hx.
  - destruct IH as (HB & Hp & Ht & Hx). destruct (Hplace a Hp) as (P & Hhi' & Hrs). 
    destruct (single_block_ok false a hi B B' bs be P Hhi') as (a1 & Hs & Hp' & Ht' & Hx'); rewrite ?Hrs; [done..|].
    assert (a' = a1) as -> by (destruct Hop as [Hop|Hop]; [|rewrite mark_block_single in Hop]; congruence).
    split; [done|]. split; [by eapply same_place_trans|]. split; [done|]. auto.
  - destruct IH as (HB & Hp & Ht & Hx). destruct (Hplace a Hp) as (P & Hhi' & Hrs).
    pose proof (blocks_range _ _ _ HB _ _ Hblk) as (Hb1 & Hb2 & Hb3 & Hb4 & Hb5 & Hb6).
    assert (R : range_ok a blk (blk + 8 * n)) by (split; lia || done).
    rewrite <- Hrs in HB, HB'.
    destruct (split_block_ok a P blk n m R Hm ltac:(lia) hi Hhi' B B' HB HB' Hblk Hsuff Hr Ht) as (a1 & Hs & Hp' & Ht').
    rewrite Hop in Hs. simplify_eq. split; [by rewrite <- Hrs|]. split; [by eapply same_place_trans|]. split; [done|].
    intros Hf. eapply (split_block_exact a P blk n m R Hm ltac:(lia) hi Hhi' B B'); eauto.
Qed.
End Use.

(* ------------------------------------------------------------------ *)
(** ** The theorems *)

(** C18: in a table that recording, marking and splitting blocks lead to, every further such operation succeeds,
    and the lookup of any address finds the block that contains it. *)
Theorem bot_find a0 hi fits a B : place_ok a0 -> hi <= reserved_start a0 + 512 * n_cards a0 ->
  blocks (reserved_start a0) hi (fun s e => s = reserved_start a0 /\ e = hi) -> in_use a0 hi fits a B ->
  (forall block_size flag ub addr, sizes_ok block_size B -> reserved_start a0 <= addr < hi -> flag = false \/ addr < ub ->
    exists s e, block_start_unsafe block_size flag ub a addr = Some s /\ B s e /\ s <= addr < e) /\
  (forall B' bs be, blocks (reserved_start a0) hi B' -> refines B B' bs be -> B' bs be ->
    exists a', single_block false a bs be = Some a' /\ in_use a0 hi fits a' B') /\
  (forall B' blk n m, blocks (reserved_start a0) hi B' -> 0 < m < n -> B blk (blk + 8 * n) ->
    B' (blk + 8 * m) (blk + 8 * n) -> refines B B' (blk + 8 * m) (blk + 8 * n) ->
    (fits = true -> split_fits (pref_cards a blk m) (suff_cards a blk n m)) ->
    exists a', split_block a blk n m = Some a' /\ in_use a0 hi fits a' B').
Proof.
  intros P Hhi H0 Hu. destruct (in_use_ok a0 hi fits P Hhi H0 a B Hu) as (HB & Hp & Ht & _).
  pose proof (same_place_ok _ _ Hp P) as Pa. destruct Hp as [Hrs Hlen].
  assert (Hhi' : hi <= reserved_start a + 512 * n_cards a) by (unfold n_cards in *; rewrite Hrs, Hlen; done).
  rewrite <- Hrs in HB |- *. split_and!.
  - intros block_size flag ub addr Hsz Haddr Hub. by eapply block_start_unsafe_ok.
  - intros B' bs be HB' Hr Hbl. destruct (single_block_ok false a hi B B' bs be) as (a' & Hs & _); [done..|].
    exists a'. split; [done|]. rewrite Hrs in HB'. eapply use_record; eauto.
  - intros B' blk n m HB' Hm Hblk Hsuff Hr Hfit.
    pose proof (blocks_range _ _ _ HB _ _ Hblk) as (Hb1 & Hb2 & Hb3 & Hb4 & Hb5 & Hb6).
    assert (R : range_ok a blk (blk + 8 * n)) by (split; lia || done).
    destruct (split_block_ok a Pa blk n m R Hm ltac:(lia) hi Hhi' B B' HB HB' Hblk Hsuff Hr Ht) as (a' & Hs & _).
    exists a'. split; [done|]. rewrite Hrs in HB'. eapply use_split; eauto.
Qed.

(** when every split had a prefix of at most fifteen sixteenths of a power of sixteen cards, or a suffix that
    starts no more cards, the lookup that does not look at blocks finds the block of the first word of any card. *)
Theorem bot_find_careful a0 hi a B c s e flag ub : place_ok a0 -> hi <= reserved_start a0 + 512 * n_cards a0 ->
  blocks (reserved_start a0) hi (fun s e => s = reserved_start a0 /\ e = hi) -> in_use a0 hi true a B ->
  B s e -> s <= card_addr a c < e -> flag = false \/ card_addr a c < ub ->
  block_start_careful flag ub a (card_addr a c) = Some s.
Proof.
  intros P Hhi H0 Hu Hb Hse Hub. destruct (in_use_ok a0 hi true P Hhi H0 a B Hu) as (HB & Hp & _ & Hx).
  pose proof (same_place_ok _ _ Hp P) as Pa. destruct Hp as [Hrs Hlen].
  eapply (block_start_careful_ok flag ub a hi B c s e Pa); eauto; rewrite ?Hrs; [|done].
  unfold n_cards in *. rewrite Hlen. done.
Qed.

(** For a prefix that starts 250 cards and a suffix of 251 the loop over the powers of split_block
    writes into the power block before: the check of the table fails, and the lookup that does not
    look at blocks finds the prefix for a card of the suffix. *)
Theorem split_block_inexact :
  let rs := 1048576 in
  let a0 := {| reserved_start := rs; offset_bytes := replicate 501 0 |} in
  exists a1 a2, new_BlockOffsetArray false a0 rs (rs + 512 * 501) = Some a1 /\
    split_block a1 rs (64 * 501) (64 * 250) = Some a2 /\
    block_start_careful false 0 a1 (rs + 512 * 256) = Some rs /\
    check_all_cards a2 251 500 = Some false /\
    block_start_careful false 0 a2 (rs + 512 * 251) = Some (rs + 512 * 250) /\
    block_start_careful false 0 a2 (rs + 512 * 256) = Some rs.
Proof.
  cbv zeta. eexists _, _. split; [vm_compute; reflexivity|]. split; [vm_compute; reflexivity|].
  repeat split; vm_compute; reflexivity.
Qed.

(* ------------------------------------------------------------------ *)
(** ** A table in use exists *)

(** Four cards, one block, which is then split in the middle. *)
Definition toy_table (l : list Z) : SharedArray := {| reserved_start := 4096; offset_bytes := l |}.
Definition toy_halves (s e : Z) : Prop := (s = 4096 /\ e = 5120) \/ (s = 5120 /\ e = 6144).
Definition toy_size (p : Z) : option Z := if (p =? 4096) || (p =? 5120) then Some 128 else None.

Lemma toy_place : place_ok (toy_table [0; 0; 0; 0]).
Proof. split; [done| |done]. by exists 8. Qed.

Lemma toy_one : blocks 4096 6144 (fun s e => s = 4096 /\ e = 6144).
Proof. apply one_block; [lia|lia|by exists 512|by exists 768]. Qed.

Lemma toy_two : blocks 4096 6144 toy_halves.
Proof. apply two_blocks; [lia|lia|by exists 512|by exists 640|by exists 768]. Qed.

Lemma toy_in_use : in_use (toy_table [0; 0; 0; 0]) 6144 true (toy_table [0; 64; 0; 64]) toy_halves.
Proof.
  eapply (use_split _ _ _ (toy_table [0; 64; 64; 64])
    (fun s e => s = 4096 /\ e = 6144) toy_halves 4096 256 128); [|exact toy_two|lia|done| | | |done].
  - by apply use_new.
  - by right.
  - intros s e [[-> ->]|[-> ->]]; [right; exists 6144; lia|by left].
  - intros _. left. by vm_compute.
Qed.

Lemma bot_find_witness :
  exists s e, block_start_unsafe toy_size false 0 (toy_table [0; 64; 0; 64]) 5700 = Some s /\ toy_halves s e /\ s <= 5700 < e.
Proof.
  refine (proj1 (bot_find (toy_table [0; 0; 0; 0]) 6144 true (toy_table [0; 64; 0; 64]) toy_halves toy_place _ toy_one toy_in_use)
    toy_size false 0 5700 _ _ _).
  - vm_compute. congruence.
  - intros s e [[-> ->]|[-> ->]]; reflexivity.
  - cbn. lia.
  - by left.
Defined.

Lemma bot_find_careful_witness : block_start_careful false 0 (toy_table [0; 64; 0; 64]) 5632 = Some 5120.
Proof.
  refine (bot_find_careful (toy_table [0; 0; 0; 0]) 6144 (toy_table [0; 64; 0; 64]) toy_halves 3 5120 6144 false 0
    toy_place _ toy_one toy_in_use _ _ _).
  - vm_compute. congruence.
  - by right.
  - vm_compute. split; congruence.
  - by left.
Defined.
