(* ===== verification/BlockOffsetContig.v ===== *)
(** * BlockOffsetContig: the block offset table of a contiguous space

    Blocks are allocated one behind the other, and only one that crosses the threshold writes
    to the table.  What is not allocated yet counts as a last block.  [contig_ok] is the
    invariant, [contig_find] the theorem on any sequence of allocations. *)

From stdpp Require Import list.
From S2P Require Import Prelude GlobalDefs VirtualSpace BlockOffsetTable BlockOffsetSpec.

Section Contig.
Context (rs len hi : Z).

(** The entries below the next card are right, and the threshold is the first word of that card.  The card before one that
    goes back by one is not one that goes back further. *)
Record contig_ok (t : Contig) (top : Z) (B : Z -> Z -> Prop) : Prop := {
  contig_place : place_ok (contig_array t);
  contig_rs : reserved_start (contig_array t) = rs;
  contig_len : n_cards (contig_array t) = len;
  contig_blocks : blocks rs hi B;
  contig_free : top < hi -> B top hi;
  contig_next : 1 <= next_offset_index t <= len;
  contig_threshold : next_offset_threshold t = card_addr (contig_array t) (next_offset_index t);
  contig_top : next_offset_threshold t - 512 <= top <= next_offset_threshold t;
  contig_bottom : top = next_offset_threshold t - 512 -> offset_array (contig_array t) (next_offset_index t - 1) = Some 0;
  contig_steps c : 0 <= c < next_offset_index t -> offset_array (contig_array t) c = Some 64 ->
    exists y, offset_array (contig_array t) (c - 1) = Some y /\ y <= 64;
  contig_entries c : 0 <= c < next_offset_index t -> entry_ok B (contig_array t) c }.

(** [initialize_threshold] and [zero_bottom_entry] when the space is initialized. *)
Definition contig_start (a : SharedArray) (bottom : Z) : option Contig :=
  zero_bottom_entry (initialize_threshold a bottom) bottom.

Lemma contig_start_ok a : place_ok a -> reserved_start a = rs -> n_cards a = len -> hi <= rs + 512 * len ->
  blocks rs hi (fun s e => s = rs /\ e = hi) ->
  exists t, contig_start a rs = Some t /\ contig_ok t rs (fun s e => s = rs /\ e = hi).
Proof.
  intros P Hrs Hlen Hhi HB. pose proof (place_start _ P). pose proof (place_end _ P).
  destruct (blocks_range _ _ _ HB rs hi ltac:(done)) as (_ & Hlt & _).
  unfold contig_start, zero_bottom_entry, initialize_threshold. cbn [contig_array next_offset_index next_offset_threshold].
  rewrite (index_unique a P rs 0) by (unfold card_addr; lia). rewrite u64_eq by lia.
  rewrite card_address by (done || lia).
  destruct (set_offset_ok a 0 0) as (a' & -> & Hp & Hget); [unfold n_cards in *; lia|lia|]. cbn [mbind option_bind].
  eexists. split; [done|]. pose proof (same_place_ok _ _ Hp P). split; cbn [contig_array next_offset_index next_offset_threshold];
    rewrite ?(same_place_addr _ _ _ Hp); try done; try lia.
  - by rewrite (proj1 Hp).
  - unfold n_cards. by rewrite (proj2 Hp).
  - unfold card_addr. lia.
  - intros c Hc. assert (c = 0) as -> by lia. by rewrite Hget.
  - intros c Hc. assert (c = 0) as -> by lia. exists 0. rewrite Hget. split; [done|]. left. split; [lia|].
    exists hi. rewrite (same_place_addr _ _ _ Hp). unfold card_addr. lia.
Qed.

(** What is free behind a new block is a block again. *)
Lemma free_behind t top B B' be : contig_ok t top B -> blocks rs hi B' -> top < hi -> B' top be ->
  refines B B' be hi -> be < hi -> B' be hi.
Proof.
  intros G HB' Htop Hb Hr Hbe. pose proof (contig_free _ _ _ G Htop) as Hf.
  pose proof (blocks_range _ _ _ HB' _ _ Hb) as (Hlo & Hlt & _).
  destruct (blocks_cover _ _ _ HB' be) as (s & e & Hse & Hin); [lia|].
  destruct (Z.eq_dec s be) as [->|Hne]; [|destruct (blocks_apart _ _ _ HB' _ _ _ _ Hb Hse); lia].
  destruct (Hr _ _ Hse) as [[_ ->]|(e0 & Hb0 & He0)]; [done|].
  destruct (blocks_apart _ _ _ (contig_blocks _ _ _ G) _ _ _ _ Hf Hb0); lia.
Qed.

(** The entries written for a new block are right. *)
Lemma marked_ok a a' B' f g s e c : place_ok a -> same_place a a' -> blocks rs hi B' -> B' s e ->
  1 <= f <= c -> c <= g -> g - f < 2 ^ 28 -> card_addr a g < e -> s <= card_addr a f <= s + 512 -> (8 | s) ->
  offset_array a' c = (if c =? f then Some ((card_addr a f - s) / 8)
      else if (f <? c) && (c <=? g) then Some (64 + log16 (c - f)) else offset_array a c) ->
  entry_ok B' a' c.
Proof.
  change (2 ^ 28) with 268435456. intros P Hp HB' Hb Hf Hg Hlen He Hs [ks Hks] Hget. unfold entry_ok.
  rewrite Hget, (same_place_addr _ _ _ Hp).
  destruct (Z.eqb_spec c f) as [->|Hne].
  - eexists. split; [done|]. destruct (place_card _ P) as [k Hk].
    assert (Hd : (card_addr a f - s) / 8 = k * 64 + 64 * f - ks /\ s = card_addr a f - 8 * (k * 64 + 64 * f - ks)).
    { unfold card_addr. rewrite Hk, Hks. replace (k * 512 + 512 * f - ks * 8) with ((k * 64 + 64 * f - ks) * 8) by lia.
      rewrite Z.div_mul by lia. lia. }
    destruct Hd as [-> Hd]. set (d := k * 64 + 64 * f - ks) in *. destruct (Z.eq_dec d 64) as [->|Hd'].
    + right. exists 0. change (16 ^ 0) with 1. lia.
    + left. split; [lia|]. exists e. rewrite <- Hd. split; [done|]. unfold card_addr in *. lia.
  - destruct (Z.ltb_spec f c); [|lia]. destruct (Z.leb_spec c g); [|lia]. eexists. split; [done|]. right.
    destruct (log16_bounds (c - f)) as (Hl0 & Hl1 & _); [lia|]. exists (log16 (c - f)).
    assert (log16 (c - f) <= 7).
    { destruct (Z.le_gt_cases (log16 (c - f)) 7); [done|]. pose proof (pow16_mono 7 (log16 (c - f)) ltac:(lia)).
      change (16 ^ 7) with 268435456 in *. lia. }
    split_and!; [lia..|]. lia.
Qed.
(** Behind the marked cards as well, what goes back by one goes back to what goes back by one at most. *)
Lemma marked_steps a a' f g s c : 1 <= f -> card_addr a f - s <= 512 ->
  (forall c, offset_array a' c = if c =? f then Some ((card_addr a f - s) / 8)
      else if (f <? c) && (c <=? g) then Some (64 + log16 (c - f)) else offset_array a c) ->
  (forall c, 0 <= c < f -> offset_array a c = Some 64 -> exists y, offset_array a (c - 1) = Some y /\ y <= 64) ->
  (card_addr a f - s = 512 -> offset_array a (f - 1) = Some 0) ->
  0 <= c < g + 1 -> offset_array a' c = Some 64 -> exists y, offset_array a' (c - 1) = Some y /\ y <= 64.
Proof.
  intros Hf Hs Hget Hold Hbot Hc. pose proof (Z.div_mod (card_addr a f - s) 8 ltac:(lia)) as Hd.
  pose proof (Z.mod_pos_bound (card_addr a f - s) 8 ltac:(lia)). rewrite !Hget.
  destruct (Z.lt_total c f) as [Hlt|[->|Hgt]].
  - destruct (Z.eqb_spec c f), (Z.eqb_spec (c - 1) f), (Z.ltb_spec f c), (Z.ltb_spec f (c - 1)); try lia. apply Hold. lia.
  - rewrite Z.eqb_refl. intros [= Hx]. destruct (Z.eqb_spec (f - 1) f), (Z.ltb_spec f (f - 1)); try lia.
    exists 0. split; [|lia]. apply Hbot. lia.
  - destruct (Z.eqb_spec c f), (Z.ltb_spec f c), (Z.leb_spec c g); try lia. cbn [andb]. intros [= Hx].
    destruct (log16_bounds (c - f)) as (_ & Hl); [lia|].
    assert (Hx0 : log16 (c - f) = 0) by lia. rewrite Hx0 in Hl. change (16 ^ (0 + 1)) with 16 in Hl.
    destruct (Z.eqb_spec (c - 1) f); [eexists; split; [done|lia]|].
    destruct (Z.ltb_spec f (c - 1)), (Z.leb_spec (c - 1) g); try lia. cbn [andb].
    rewrite (log16_eq (c - 1 - f) 0) by (change (16 ^ (0 + 1)) with 16; change (16 ^ 0) with 1; lia).
    eexists. split; [done|lia].
Qed.

(** What an allocation that crosses the threshold writes. *)
Lemma alloc_block_work_eq t top B be : contig_ok t top B -> hi <= rs + 512 * len ->
  next_offset_threshold t < be <= hi -> be - top < 2 ^ 37 -> (8 | be) -> 0 <= top ->
  let a := contig_array t in let f := next_offset_index t in let g := index_for a (be - 8) in
  exists a', alloc_block_work t top be =
      Some {| contig_array := a'; next_offset_index := g + 1; next_offset_threshold := card_addr a (g + 1) |} /\
    same_place a a' /\ f <= g < len /\ g - f < 2 ^ 28 /\ card_addr a g < be <= card_addr a (g + 1) /\
    forall c, offset_array a' c = if c =? f then Some ((card_addr a f - top) / 8)
      else if (f <? c) && (c <=? g) then Some (64 + log16 (c - f)) else offset_array a c.
Proof.
  change (2 ^ 37) with 137438953472. change (2 ^ 28) with 268435456.
  intros G Hhi Hbe Hsize H8 Hpos. cbv zeta. destruct G as [P Hrs Hlen HB Hfree Hnext Hthr Htop _ _ _].
  pose proof (place_start _ P). pose proof (place_end _ P). rewrite Hthr in *.
  set (a := contig_array t) in *. set (f := next_offset_index t) in *.
  assert (R : range_ok a (card_addr a f) be).
  { split; unfold card_addr in *; try lia; [|done]. destruct (place_card _ P) as [k ->]. exists (k * 64 + 64 * f). lia. }
  destruct (range_cards a _ _ P R) as (Hg & He). cbv zeta in *. set (g := index_for a (be - 8)) in *.
  assert (Hfg : f <= g) by (unfold card_addr in *; lia).
  assert (Hgf : g - f < 268435456) by (unfold card_addr in *; lia).
  unfold alloc_block_work. fold a f. rewrite Hthr.
  destruct (mark_ok a f g top P) as (a1 & a' & -> & Hp1 & Hrem & Hp & Hget); [lia..|].
  pose proof (same_place_ok _ _ Hp1 P) as P1.
  assert (Hn1 : n_cards a1 = n_cards a) by (unfold n_cards; by rewrite (proj2 Hp1)).
  assert (Hi1 : index_for a1 (word_add be (-1)) = g).
  { rewrite word_add_eq by (unfold card_addr in *; lia). unfold g, index_for. rewrite (proj1 Hp1).
    by replace (be + 8 * -1) with (be - 8) by lia. }
  cbn [mbind option_bind]. rewrite Hi1. rewrite (u64_eq (f + 1)), (u64_eq (g + 1)) by lia.
  rewrite (card_address a1 P1 (f + 1)), (card_address a1 P1 g) by lia. rewrite next_card by (done || lia).
  assert (Hwork : (if f + 1 <=? g then set_remainder_to_point_to_start a1 (card_addr a1 (f + 1)) (card_addr a1 (g + 1))
                   else Some a1) = Some a').
  { destruct (Z.leb_spec (f + 1) g).
    - by rewrite remainder_region by (done || lia).
    - unfold set_remainder_to_point_to_start_incl in Hrem. destruct (Z.ltb_spec g (f + 1)); [done|lia]. }
  rewrite Hwork. cbn [mbind option_bind]. exists a'. split_and!; try done; try lia; [|unfold card_addr in *; lia].
  pose proof (same_place_ok _ _ Hp P) as P'.
  assert (Hn' : n_cards a' = n_cards a) by (unfold n_cards; by rewrite (proj2 Hp)).
  rewrite (card_address a' P'), (next_card a' P') by lia.
  by rewrite (same_place_addr _ _ _ Hp).
Qed.
Lemma contig_keep t top B B' be a' c : contig_ok t top B -> blocks rs hi B' -> refines B B' be hi ->
  same_place (contig_array t) a' -> offset_array a' c = offset_array (contig_array t) c ->
  0 <= c < next_offset_index t -> top < be <= hi -> entry_ok B' a' c.
Proof.
  intros G HB' Hr Hp Hget Hc Hbe. pose proof (contig_top _ _ _ G). pose proof (contig_threshold _ _ _ G).
  pose proof (contig_rs _ _ _ G). pose proof (place_start _ (contig_place _ _ _ G)).
  apply (entry_ok_keep rs hi B B' be hi (contig_array t) a' c); auto;
    [by eapply contig_blocks|unfold card_addr in *; lia..|by eapply contig_entries].
Qed.

(** Allocating the next block keeps the invariant. *)
Lemma contig_alloc_ok t top B B' be : contig_ok t top B -> hi <= rs + 512 * len -> top < hi ->
  blocks rs hi B' -> B' top be -> refines B B' be hi ->
  exists t', contig_alloc_block t top be = Some t' /\ contig_ok t' be B'.
Proof.
  intros G Hhi Htop HB' Hb Hr. pose proof (blocks_range _ _ _ HB' _ _ Hb) as (Hlo & Hlt & Hle & Hsize & H8 & H8').
  pose proof (contig_keep t top B B' be) as Hkeep. unfold contig_alloc_block.
  assert (Hfree : be < hi -> B' be hi) by (intros; eapply free_behind; eauto).
  destruct (Z.ltb_spec (next_offset_threshold t) be) as [Hcross|Hin].
  - pose proof (contig_rs _ _ _ G). pose proof (place_start _ (contig_place _ _ _ G)).
    destruct (alloc_block_work_eq t top B be) as (a' & -> & Hp & Hfg & Hgf & Hg & Hget); [done|lia..|done|lia|].
    specialize (Hkeep a'). cbv zeta in *. eexists. split; [done|].
    pose proof G as [P Hrs Hlen HB Hf Hnext Hthr Ht Hbot Hst Hent].
    split; cbn [contig_array next_offset_index next_offset_threshold]; auto.
    + by eapply same_place_ok.
    + by rewrite (proj1 Hp).
    + unfold n_cards in *. by rewrite (proj2 Hp).
    + lia.
    + by rewrite (same_place_addr _ _ _ Hp).
    + unfold card_addr in *. lia.
    + unfold card_addr in *. lia.
    + intros c Hc. eapply (marked_steps (contig_array t) a' (next_offset_index t)); eauto;
        rewrite Hthr in *; [lia|lia|]. intros He. apply Hbot. lia.
    + intros c Hc. specialize (Hget c). rewrite Hthr in *.
      destruct (Z.lt_ge_cases c (next_offset_index t)) as [Hold|Hnew].
      * apply Hkeep; auto; try lia.
        destruct (Z.eqb_spec c (next_offset_index t)), (Z.ltb_spec (next_offset_index t) c); done || lia.
      * eapply (marked_ok _ a' B' _ _ top be c P Hp HB' Hb); [..|exact Hget]; try lia; done.
  - exists t. split; [done|]. pose proof (contig_top _ _ _ G). specialize (Hkeep (contig_array t)).
    pose proof G as [P Hrs Hlen HB Hf Hnext Hthr Ht Hbot Hst Hent]. split; auto; [lia|lia|].
    intros c Hc. apply Hkeep; auto; by split.
Qed.

(* ------------------------------------------------------------------ *)
(** ** Finding a block *)

(** The loop by single cards ends at a distance. *)
Lemma back_one_ok B a : place_ok a -> forall fuel i x, 0 <= i < n_cards a -> (forall c, 0 <= c <= i -> entry_ok B a c) ->
  (forall c, 0 <= c <= i -> offset_array a c = Some 64 -> exists y, offset_array a (c - 1) = Some y /\ y <= 64) ->
  offset_array a i = Some x -> x <= 64 -> (Z.to_nat i < fuel)%nat ->
  exists j y, back_one fuel a i (card_addr a i) x = Some (j, card_addr a j, y) /\ 0 <= j <= i /\
    offset_array a j = Some y /\ y < 64.
Proof.
  intros P. pose proof (place_start _ P). pose proof (place_end _ P).
  induction fuel as [|fuel IH]; intros i x Hi Hok Hst Hx Hlx Hf; [lia|]. cbn [back_one]. change N_words with 64.
  destruct (Z.eqb_spec x 64) as [->|Hne]; [|exists i, x; split; [done|]; split; [lia|split; [done|lia]]].
  destruct (Hok i ltac:(lia)) as (x' & Hx' & Hcase). rewrite Hx in Hx'. injection Hx' as <-.
  destruct Hcase as [[? _]|(k & Hk & Hk' & Hback)]; [lia|]. assert (k = 0) as -> by lia. change (16 ^ 0) with 1 in Hback.
  rewrite u64_eq by lia. rewrite word_add_eq by (unfold card_addr; lia).
  replace (card_addr a i + 8 * - (64)) with (card_addr a (i - 1)) by (unfold card_addr; lia).
  destruct (Hst i ltac:(lia) Hx) as (y & Hy & Hly). rewrite (bind_Some _ _ _ Hy).
  destruct (IH (i - 1) y) as (j & z & -> & Hj & Hr); [lia|intros c Hc; apply Hok; lia|intros c Hc; apply Hst; lia|done|lia|lia|].
  exists j, z. split; [done|]. split; [lia|done].
Qed.

(** The tables that allocating blocks one behind the other leads to, with the first free word and the blocks. *)
Inductive contig_use (a0 : SharedArray) : Contig -> Z -> (Z -> Z -> Prop) -> Prop :=
| contig_use_start t : contig_start a0 rs = Some t -> contig_use a0 t rs (fun s e => s = rs /\ e = hi)
| contig_use_alloc t top B B' be t' : contig_use a0 t top B -> top < hi -> blocks rs hi B' -> B' top be ->
    refines B B' be hi -> contig_alloc_block t top be = Some t' -> contig_use a0 t' be B'.

Lemma contig_use_ok a0 t top B : place_ok a0 -> reserved_start a0 = rs -> n_cards a0 = len -> hi <= rs + 512 * len ->
  blocks rs hi (fun s e => s = rs /\ e = hi) -> contig_use a0 t top B -> contig_ok t top B.
Proof.
  intros P Hrs Hlen Hhi H0 Hu. induction Hu as [t Hs|t top B B' be t' _ IH Htop HB' Hb Hr Hop].
  - destruct (contig_start_ok a0 P Hrs Hlen Hhi H0) as (t' & Hs' & G). rewrite Hs in Hs'. by simplify_eq.
  - destruct (contig_alloc_ok t top B B' be IH Hhi Htop HB' Hb Hr) as (t2 & Hop2 & G). rewrite Hop in Hop2. by simplify_eq.
Qed.

(** The lookup is right for every table with the invariant. *)
Lemma contig_lookup_ok block_size t top B addr : contig_ok t top B -> hi <= rs + 512 * len -> sizes_ok block_size B ->
  rs <= addr < hi -> exists s e, contig_block_start_unsafe block_size t addr = Some s /\ B s e /\ s <= addr < e.
Proof.
  intros G Hhi Hsz Haddr. destruct G as [P Hrs Hlen HB Hf Hnext Hthr Ht _ Hst Hent].
  pose proof (place_start _ P). pose proof (place_end _ P). set (a := contig_array t) in *.
  destruct (index_addr a P addr ltac:(lia)) as (_ & Hi & Ha). unfold contig_block_start_unsafe. fold a.
  rewrite u64_eq by lia. set (index := Z.min (index_for a addr) (next_offset_index t - 1)).
  assert (Hindex : 0 <= index <= index_for a addr /\ index < next_offset_index t) by lia.
  rewrite card_address by (done || lia).
  destruct (table_start a B (N_words + 1) index) as (i & x & Hb & Hi' & Hx & Hlx); [done..|lia| |].
  { intros c Hc. apply Hent. lia. }
  rewrite (bind_Some _ _ _ Hb). cbn beta iota. change (N_words + 1) with 65 in Hlx.
  destruct (back_one_ok B a P (S (cards a)) i x) as (j & y & Hb' & Hj & Hy & Hly);
    [lia|intros c Hc; apply Hent; lia|intros c Hc; apply Hst; lia|done|lia|unfold n_cards, cards in *; lia|].
  rewrite (bind_Some _ _ _ Hb'). cbn beta iota.
  destruct (entry_start B a j y) as (Hy0 & e & Hbl & He); [apply Hent; lia|done|done|].
  pose proof (blocks_range _ _ _ HB _ _ Hbl). rewrite word_add_eq by lia.
  replace (card_addr a j + 8 * - y) with (card_addr a j - 8 * y) by lia.
  apply (forward_start block_size rs hi B HB Hsz ltac:(lia) ltac:(lia) addr _ e Hbl). unfold card_addr in *. lia.
Qed.

(** C19: in a contiguous space allocating the next block never fails, and after any sequence of allocations the
    lookup finds for any address of the space the block that contains it, allocated or free. *)
Theorem contig_find a0 t top B : place_ok a0 -> reserved_start a0 = rs -> n_cards a0 = len -> hi <= rs + 512 * len ->
  blocks rs hi (fun s e => s = rs /\ e = hi) -> contig_use a0 t top B ->
  (forall block_size addr, sizes_ok block_size B -> rs <= addr < hi ->
    exists s e, contig_block_start_unsafe block_size t addr = Some s /\ B s e /\ s <= addr < e) /\
  (forall B' be, top < hi -> blocks rs hi B' -> B' top be -> refines B B' be hi ->
    exists t', contig_alloc_block t top be = Some t' /\ contig_use a0 t' be B').
Proof.
  intros P Hrs Hlen Hhi H0 Hu. pose proof (contig_use_ok a0 t top B P Hrs Hlen Hhi H0 Hu) as G. split.
  - intros block_size addr Hsz Haddr. by eapply contig_lookup_ok.
  - intros B' be Htop HB' Hb Hr. destruct (contig_alloc_ok t top B B' be G Hhi Htop HB' Hb Hr) as (t' & Hop & _).
    exists t'. split; [done|]. by eapply contig_use_alloc.
Qed.
End Contig.

(* ------------------------------------------------------------------ *)
(** ** Four cards, and a block of 150 words that crosses two boundaries *)

Definition toy_space : SharedArray := {| reserved_start := 4096; offset_bytes := [0; 0; 0; 0] |}.
Definition toy_contig : Contig :=
  {| contig_array := {| reserved_start := 4096; offset_bytes := [0; 64; 64; 0] |};
     next_offset_index := 3; next_offset_threshold := 5632 |}.
Definition toy_blocks (s e : Z) : Prop := (s = 4096 /\ e = 5296) \/ (s = 5296 /\ e = 6144).
Definition toy_block_size (p : Z) : option Z := if p =? 4096 then Some 150 else if p =? 5296 then Some 106 else None.

Lemma toy_space_place : place_ok toy_space.
Proof. split; [done| |done]. by exists 8. Qed.

Lemma toy_space_free : blocks 4096 6144 (fun s e => s = 4096 /\ e = 6144).
Proof. apply one_block; [lia|lia|by exists 512|by exists 768]. Qed.

Lemma toy_contig_use : contig_use 4096 6144 toy_space toy_contig 5296 toy_blocks.
Proof.
  eapply (contig_use_alloc _ _ _ _ 4096 (fun s e => s = 4096 /\ e = 6144)); [by apply contig_use_start|lia| |by left| |done].
  - apply two_blocks; [lia|lia|by exists 512|by exists 662|by exists 768].
  - intros s e [[-> ->]|[-> ->]]; [right; exists 6144; lia|by left].
Qed.

Lemma contig_find_witness :
  exists s e, contig_block_start_unsafe toy_block_size toy_contig 5200 = Some s /\ toy_blocks s e /\ s <= 5200 < e.
Proof.
  refine (proj1 (contig_find 4096 4 6144 toy_space toy_contig 5296 toy_blocks toy_space_place eq_refl eq_refl _
    toy_space_free toy_contig_use) toy_block_size 5200 _ _).
  - lia.
  - intros s e [[-> ->]|[-> ->]]; reflexivity.
  - lia.
Defined.
