(* ===== verification/MarkWord.v ===== *)
(** * MarkWord: the header word of objects, oops/markOop.hpp and markOop.inline.hpp

    A mark is the word of an object's header as an unsigned 64-bit integer (value() of the
    code); it is at once the encoding of the states of the lock, of the identity hash, of the age, of a bias toward
    a thread, of a forwarding pointer and of a free chunk of the concurrent collector.
    [mark_word_ok] collects what the users of the encodings rely on. *)

From S2P Require Import Prelude GlobalDefs.

(* ------------------------------------------------------------------ *)
(** ** Layout *)

Definition age_bits : Z := 4.
Definition lock_bits : Z := 2.
Definition biased_lock_bits : Z := 1.
Definition max_hash_bits : Z := BitsPerWord - age_bits - lock_bits - biased_lock_bits.
Definition hash_bits : Z := if 31 <? max_hash_bits then 31 else max_hash_bits.
Definition cms_bits : Z := 1.
Definition epoch_bits : Z := 2.

Definition lock_shift : Z := 0.
Definition biased_lock_shift : Z := lock_bits.
Definition age_shift : Z := lock_bits + biased_lock_bits.
Definition cms_shift : Z := age_shift + age_bits.
Definition hash_shift : Z := cms_shift + cms_bits.
Definition epoch_shift : Z := hash_shift.

Definition lock_mask : Z := right_n_bits lock_bits.
Definition lock_mask_in_place : Z := Z.shiftl lock_mask lock_shift.
Definition biased_lock_mask : Z := right_n_bits (lock_bits + biased_lock_bits).
Definition biased_lock_mask_in_place : Z := Z.shiftl biased_lock_mask lock_shift.
Definition biased_lock_bit_in_place : Z := Z.shiftl 1 biased_lock_shift.
Definition age_mask : Z := right_n_bits age_bits.
Definition age_mask_in_place : Z := Z.shiftl age_mask age_shift.
Definition epoch_mask : Z := right_n_bits epoch_bits.
Definition epoch_mask_in_place : Z := Z.shiftl epoch_mask epoch_shift.
Definition cms_mask : Z := right_n_bits cms_bits.
Definition cms_mask_in_place : Z := Z.shiftl cms_mask cms_shift.
Definition hash_mask : Z := right_n_bits hash_bits.
Definition hash_mask_in_place : Z := u64 (Z.shiftl hash_mask hash_shift).
Definition biased_lock_alignment : Z := Z.shiftl 2 (epoch_shift + epoch_bits).

Definition locked_value : Z := 0.
Definition unlocked_value : Z := 1.
Definition monitor_value : Z := 2.
Definition marked_value : Z := 3.
Definition biased_lock_pattern : Z := 5.
Definition no_hash : Z := 0.
Definition no_hash_in_place : Z := Z.shiftl no_hash hash_shift.
Definition no_lock_in_place : Z := unlocked_value.
Definition max_age : Z := age_mask.
Definition max_bias_epoch : Z := epoch_mask.

(** [~m] of a mask of an enum, as the word it is extended to. *)
Definition not_mask (m : Z) : Z := u64 (Z.lnot m).

(* ------------------------------------------------------------------ *)
(** ** Bias *)

Definition has_bias_pattern (v : Z) : bool := mask_bits v biased_lock_mask_in_place =? biased_lock_pattern.
Definition biased_locker (v : Z) : Z :=
  mask_bits v (not_mask (Z.lor (Z.lor biased_lock_mask_in_place age_mask_in_place) epoch_mask_in_place)).
Definition is_biased_anonymously (v : Z) : bool := has_bias_pattern v && (biased_locker v =? 0).
Definition bias_epoch (v : Z) : Z := Z.shiftr (mask_bits v epoch_mask_in_place) epoch_shift.
Definition set_bias_epoch (v epoch : Z) : Z :=
  Z.lor (mask_bits v (not_mask epoch_mask_in_place)) (Z.shiftl epoch epoch_shift).
Definition incr_bias_epoch (v : Z) : Z := set_bias_epoch v (Z.land (1 + bias_epoch v) epoch_mask).
Definition biased_locking_prototype : Z := biased_lock_pattern.

(* ------------------------------------------------------------------ *)
(** ** Locks *)

Definition is_locked (v : Z) : bool := negb (mask_bits v lock_mask_in_place =? unlocked_value).
Definition is_unlocked (v : Z) : bool := mask_bits v biased_lock_mask_in_place =? unlocked_value.
Definition is_marked (v : Z) : bool := mask_bits v lock_mask_in_place =? marked_value.
Definition is_neutral (v : Z) : bool := mask_bits v biased_lock_mask_in_place =? unlocked_value.
Definition is_being_inflated (v : Z) : bool := v =? 0.
Definition INFLATING : Z := 0.

Definition set_unlocked (v : Z) : Z := Z.lor v unlocked_value.
Definition has_locker (v : Z) : bool := Z.land v lock_mask_in_place =? locked_value.
Definition locker (v : Z) : Z := v.
Definition has_monitor (v : Z) : bool := negb (Z.land v monitor_value =? 0).
Definition monitor (v : Z) : Z := Z.lxor v monitor_value.
Definition has_displaced_mark_helper (v : Z) : bool := Z.land v unlocked_value =? 0.
(** The address of the displaced mark, the first word of a BasicLock as of an ObjectMonitor. *)
Definition displaced_mark_addr (v : Z) : Z := Z.land v (not_mask monitor_value).
Definition unused_mark : Z := marked_value.
Definition encode_lock (lock : Z) : Z := lock.
Definition encode_monitor (monitor : Z) : Z := Z.lor monitor monitor_value.
Definition encode_bias (thread age bias_epoch : Z) : Z :=
  Z.lor (Z.lor (Z.lor thread (Z.shiftl bias_epoch epoch_shift)) (Z.shiftl age age_shift)) biased_lock_pattern.

(* ------------------------------------------------------------------ *)
(** ** Collection, age, hash *)

Definition clear_lock_bits (v : Z) : Z := Z.land v (not_mask lock_mask_in_place).
Definition set_marked (v : Z) : Z := Z.lor (Z.land v (not_mask lock_mask_in_place)) marked_value.
Definition encode_pointer_as_mark (p : Z) : Z := set_marked p.
Definition decode_pointer (UseBiasedLocking : bool) (v : Z) : Z :=
  if UseBiasedLocking && has_bias_pattern v then 0 else clear_lock_bits v.
Definition should_not_be_cached (UseBiasedLocking : bool) (v : Z) : bool :=
  is_marked v && negb (decode_pointer UseBiasedLocking v =? 0).

Definition age (v : Z) : Z := mask_bits (Z.shiftr v age_shift) age_mask.
Definition set_age (v a : Z) : Z :=
  Z.lor (Z.land v (not_mask age_mask_in_place)) (Z.shiftl (Z.land a age_mask) age_shift).
Definition incr_age (v : Z) : Z := if age v =? max_age then v else set_age v (age v + 1).

Definition hash (v : Z) : Z := mask_bits (Z.shiftr v hash_shift) hash_mask.
Definition has_no_hash (v : Z) : bool := hash v =? no_hash.
Definition copy_set_hash (v h : Z) : Z :=
  Z.lor (Z.land v (not_mask hash_mask_in_place)) (Z.shiftl (Z.land h hash_mask) hash_shift).
Definition prototype : Z := Z.lor no_hash_in_place no_lock_in_place.

(** The prototype header is the one of the class of the object. *)
Definition must_be_preserved (UseBiasedLocking : bool) (prototype_header v : Z) : bool :=
  let unbiased := negb (is_unlocked v) || negb (has_no_hash v) in
  if negb UseBiasedLocking then unbiased
  else if has_bias_pattern v then false
  else if has_bias_pattern prototype_header then true
  else unbiased.
Definition must_be_preserved_for_promotion_failure (UseBiasedLocking : bool) (prototype_header v : Z) : bool :=
  if negb UseBiasedLocking then negb (v =? prototype)
  else if has_bias_pattern v || has_bias_pattern prototype_header then true
  else negb (v =? prototype).

(* ------------------------------------------------------------------ *)
(** ** Free chunks of the concurrent collector *)

Definition cms_free_chunk_pattern : Z := 1.
Definition size_shift : Z := cms_shift + cms_bits.
Definition size_bits : Z := 35.
Definition size_mask : Z := right_n_bits size_bits.
Definition size_mask_in_place : Z := u64 (Z.shiftl size_mask size_shift).
Definition cms_free_prototype : Z :=
  Z.lor (Z.land prototype (not_mask cms_mask_in_place)) (Z.shiftl (Z.land cms_free_chunk_pattern cms_mask) cms_shift).
Definition cms_encoding (v : Z) : Z := mask_bits (Z.shiftr v cms_shift) cms_mask.
Definition is_cms_free_chunk (v : Z) : bool :=
  is_neutral v && (Z.land (cms_encoding v) cms_free_chunk_pattern =? cms_free_chunk_pattern).
Definition get_size (v : Z) : Z := Z.shiftr v size_shift.
Definition set_size_and_free (size : Z) : Z :=
  Z.lor (Z.land cms_free_prototype (not_mask size_mask_in_place)) (Z.shiftl (Z.land size size_mask) size_shift).

(* ------------------------------------------------------------------ *)
(** ** Bit fields of a word *)

(** The field of [n] bits from bit [k]: reading and writing it. *)
Definition get_field (k n v : Z) : Z := Z.land (Z.shiftr v k) (2 ^ n - 1).
Definition put_field (k n v x : Z) : Z :=
  Z.lor (Z.land v (u64 (Z.lnot (Z.shiftl (2 ^ n - 1) k)))) (Z.shiftl (Z.land x (2 ^ n - 1)) k).

Section Fields.
Context (k n : Z) (Hk : 0 <= k) (Hn : 0 < n) (Hkn : k + n <= 64).

Lemma ones_bit m i : 0 <= m -> 0 <= i -> Z.testbit (2 ^ m - 1) i = (i <? m).
Proof.
  intros Hm Hi. rewrite Z.sub_1_r, <- Z.ones_equiv.
  destruct (Z.ltb_spec i m); [by apply Z.ones_spec_low|apply Z.ones_spec_high; lia].
Qed.

Lemma get_field_bit v i : 0 <= i -> Z.testbit (get_field k n v) i = Z.testbit v (i + k) && (i <? n).
Proof using Hk Hn. intros Hi. unfold get_field. by rewrite Z.land_spec, Z.shiftr_spec, ones_bit by lia. Qed.

Lemma put_field_bit v x i : in_u 64 v -> 0 <= i -> Z.testbit (put_field k n v x) i =
  if (k <=? i) && (i <? k + n) then Z.testbit x (i - k) else Z.testbit v i.
Proof using Hk Hn Hkn.
  intros Hv Hi. unfold put_field. rewrite Z.lor_spec, Z.land_spec, uwrap_testbit, Z.lnot_spec, !Z.shiftl_spec by lia.
  destruct (Z.leb_spec k i) as [Hki|Hki]; cbn [andb].
  - rewrite Z.land_spec, !ones_bit by lia. destruct (Z.ltb_spec i (k + n)), (Z.ltb_spec (i - k) n); try lia; cbn [negb].
    + rewrite andb_false_r, andb_false_r, andb_true_r. done.
    + rewrite andb_false_r, orb_false_r, andb_true_r. destruct (Z.ltb_spec i 64); [by rewrite andb_true_r|].
      by rewrite (in_u_testbit 64) by (done || lia).
  - rewrite !(Z.testbit_neg_r _ (i - k)) by lia. cbn [negb]. rewrite andb_true_r, orb_false_r.
    destruct (Z.ltb_spec i 64); [by rewrite andb_true_r|lia].
Qed.

Lemma get_field_range v : 0 <= get_field k n v < 2 ^ n.
Proof using Hn. unfold get_field. rewrite land_ones_mod by lia. apply Z.mod_pos_bound. apply Z.pow_pos_nonneg; lia. Qed.

Lemma put_field_range v x : in_u 64 v -> in_u 64 (put_field k n v x).
Proof using Hk Hn Hkn.
  intros Hv. apply in_u_bits; [lia| |].
  - unfold put_field. apply Z.lor_nonneg. split; [apply Z.land_nonneg; left; apply Hv|].
    apply Z.shiftl_nonneg. rewrite land_ones_mod by lia. apply Z.mod_pos_bound. apply Z.pow_pos_nonneg; lia.
  - intros i Hi. rewrite put_field_bit by (done || lia). destruct (Z.ltb_spec i (k + n)); [lia|].
    rewrite andb_false_r. by apply (in_u_testbit 64).
Qed.

Lemma get_put v x : in_u 64 v -> 0 <= x < 2 ^ n -> get_field k n (put_field k n v x) = x.
Proof using Hk Hn Hkn.
  intros Hv Hx. apply Z.bits_inj'. intros i Hi. rewrite get_field_bit, put_field_bit by (done || lia).
  replace (i + k - k) with i by lia. destruct (Z.ltb_spec i n).
  - destruct (Z.leb_spec k (i + k)), (Z.ltb_spec (i + k) (k + n)); try lia. by rewrite andb_true_r.
  - rewrite andb_false_r. symmetry. apply (in_u_testbit n); [lia|done|lia].
Qed.

Lemma get_put_other k' n' v x : in_u 64 v -> 0 <= k' -> 0 < n' -> k' + n' <= k \/ k + n <= k' ->
  get_field k' n' (put_field k n v x) = get_field k' n' v.
Proof using Hk Hn Hkn.
  intros Hv Hk' Hn' Hd. apply Z.bits_inj'. intros i Hi. unfold get_field.
  rewrite !Z.land_spec, !Z.shiftr_spec, ones_bit, put_field_bit by (done || lia).
  destruct (Z.ltb_spec i n'); [|by rewrite !andb_false_r].
  destruct (Z.leb_spec k (i + k')), (Z.ltb_spec (i + k') (k + n)); try lia; done.
Qed.
End Fields.

(* ------------------------------------------------------------------ *)
(** ** The fields of a mark *)

Lemma age_field v : age v = get_field 3 4 v.
Proof. done. Qed.
Lemma hash_field v : hash v = get_field 8 31 v.
Proof. done. Qed.
Lemma set_age_field v a : set_age v a = put_field 3 4 v a.
Proof. done. Qed.
Lemma set_hash_field v h : copy_set_hash v h = put_field 8 31 v h.
Proof. done. Qed.
Lemma low_field v n : 0 <= n -> Z.land v (2 ^ n - 1) = get_field 0 n v.
Proof. intros Hn. unfold get_field. by rewrite Z.shiftr_0_r. Qed.

Lemma is_neutral_field v : is_neutral v = (get_field 0 3 v =? 1).
Proof. unfold is_neutral, mask_bits. change biased_lock_mask_in_place with (2 ^ 3 - 1). by rewrite low_field. Qed.
Lemma has_bias_field v : has_bias_pattern v = (get_field 0 3 v =? 5).
Proof. unfold has_bias_pattern, mask_bits. change biased_lock_mask_in_place with (2 ^ 3 - 1). by rewrite low_field. Qed.
Lemma has_locker_field v : has_locker v = (get_field 0 2 v =? 0).
Proof. unfold has_locker. change lock_mask_in_place with (2 ^ 2 - 1). by rewrite low_field. Qed.
Lemma is_marked_field v : is_marked v = (get_field 0 2 v =? 3).
Proof. unfold is_marked, mask_bits. change lock_mask_in_place with (2 ^ 2 - 1). by rewrite low_field. Qed.

Lemma get_mod n v : 0 <= n -> get_field 0 n v = v mod 2 ^ n.
Proof. intros Hn. unfold get_field. by rewrite Z.shiftr_0_r, land_ones_mod. Qed.

(** The bit of the monitor. *)
Lemma has_monitor_mod v : has_monitor v = (2 <=? v mod 4).
Proof.
  unfold has_monitor. change monitor_value with (2 ^ 1). rewrite Z.land_comm.
  assert (H : Z.land (2 ^ 1) v = 2 * Z.b2z (Z.testbit v 1)).
  { apply Z.bits_inj'. intros i Hi. rewrite Z.land_spec, Z.pow2_bits_eqb by lia.
    replace (2 * Z.b2z (Z.testbit v 1)) with (Z.shiftl (Z.b2z (Z.testbit v 1)) 1) by (rewrite Z.shiftl_mul_pow2; lia).
    rewrite Z.shiftl_spec by lia. destruct (Z.eqb_spec 1 i) as [<-|Hne]; cbn [andb].
    - change (1 - 1) with 0. by rewrite Z.b2z_bit0.
    - destruct (Z.eq_dec i 0) as [->|]; [done|]. symmetry. apply (in_u_testbit 1); [lia| |lia].
      destruct (Z.testbit v 1); done. }
  rewrite H, Z.testbit_spec' by lia. change (2 ^ 1) with 2.
  replace (v mod 4) with (v mod 2 + 2 * ((v / 2) mod 2)) by (symmetry; apply (Z.rem_mul_r v 2 2); lia).
  pose proof (Z.mod_pos_bound v 2 ltac:(lia)). pose proof (Z.mod_pos_bound (v / 2) 2 ltac:(lia)).
  destruct (Z.eqb_spec (2 * ((v / 2) mod 2)) 0), (Z.leb_spec 2 (v mod 2 + 2 * ((v / 2) mod 2))); try done; lia.
Qed.

(** Exactly one of the states of the lock, by the low bits. *)
Inductive lock_state := Neutral | Biased | StackLocked | Inflated | Marked.
Definition state_of (v : Z) : lock_state :=
  match v mod 4 with
  | 0 => StackLocked | 2 => Inflated | 3 => Marked
  | _ => if v mod 8 =? 1 then Neutral else Biased
  end.

#[export] Instance lock_state_eq_dec : EqDecision lock_state.
Proof. solve_decision. Defined.

Lemma mod8_cases v : v mod 4 = (v mod 8) mod 4 /\ 0 <= v mod 8 < 8.
Proof.
  split; [|apply Z.mod_pos_bound; lia].
  rewrite <- (Z.mod_mod_divide v 8 4) by (by exists 2). done.
Qed.

Lemma state_of_spec v :
  is_neutral v = bool_decide (state_of v = Neutral) /\ has_bias_pattern v = bool_decide (state_of v = Biased) /\
  has_locker v = bool_decide (state_of v = StackLocked) /\ is_marked v = bool_decide (state_of v = Marked) /\
  has_monitor v = bool_decide (state_of v = Inflated \/ state_of v = Marked).
Proof.
  rewrite is_neutral_field, has_bias_field, has_locker_field, is_marked_field, has_monitor_mod, !get_mod by lia.
  change (2 ^ 3) with 8. change (2 ^ 2) with 4. unfold state_of. destruct (mod8_cases v) as [-> Hr].
  set (r := v mod 8) in *. assert (Hc : r = 0 \/ r = 1 \/ r = 2 \/ r = 3 \/ r = 4 \/ r = 5 \/ r = 6 \/ r = 7) by lia.
  repeat destruct Hc as [-> | Hc]; try (subst r; rewrite Hc); try (repeat split; reflexivity).
Qed.

(** Writing a field above the low bits keeps the state. *)
Lemma state_put k n v x : in_u 64 v -> 3 <= k -> 0 < n -> k + n <= 64 -> state_of (put_field k n v x) = state_of v.
Proof.
  intros Hv Hk Hn Hkn. assert (H8 : put_field k n v x mod 8 = v mod 8).
  { change 8 with (2 ^ 3). rewrite <- !get_mod by lia. apply get_put_other; (done || lia). }
  unfold state_of. destruct (mod8_cases v) as [-> _]. destruct (mod8_cases (put_field k n v x)) as [-> _]. by rewrite H8.
Qed.

Lemma hash_ok v h : in_u 64 v -> 0 <= h < 2 ^ 31 ->
  in_u 64 (copy_set_hash v h) /\ hash (copy_set_hash v h) = h /\ age (copy_set_hash v h) = age v /\
  state_of (copy_set_hash v h) = state_of v.
Proof.
  intros Hv Hh. rewrite !age_field, hash_field, set_hash_field. split_and!.
  - apply put_field_range; done || lia.
  - apply get_put; done || lia.
  - apply get_put_other; done || lia.
  - apply state_put; done || lia.
Qed.

Lemma age_ok v a : in_u 64 v -> 0 <= a < 16 ->
  in_u 64 (set_age v a) /\ age (set_age v a) = a /\ hash (set_age v a) = hash v /\ state_of (set_age v a) = state_of v.
Proof.
  intros Hv Hh. rewrite !hash_field, age_field, set_age_field. split_and!.
  - apply put_field_range; done || lia.
  - apply get_put; done || lia.
  - apply get_put_other; done || lia.
  - apply state_put; done || lia.
Qed.

Lemma incr_age_ok v : in_u 64 v -> age (incr_age v) = Z.min (age v + 1) 15 /\ hash (incr_age v) = hash v /\
  state_of (incr_age v) = state_of v.
Proof.
  intros Hv. assert (Ha : 0 <= age v < 16) by (rewrite age_field; apply (get_field_range 3 4); lia).
  unfold incr_age. change max_age with 15. destruct (Z.eqb_spec (age v) 15); [split_and!; done || lia|].
  destruct (age_ok v (age v + 1) Hv) as (_ & -> & -> & ->); [lia|]. split_and!; done || lia.
Qed.

(** An aligned pointer and a tag. *)
Lemma land_tag p k t : 0 <= k -> p mod 2 ^ k = 0 -> 0 <= t < 2 ^ k -> Z.land p t = 0.
Proof.
  intros Hk Hp Ht. apply Z.bits_inj'. intros i Hi. rewrite Z.land_spec, Z.testbit_0_l.
  destruct (Z.ltb_spec i k) as [Hik|Hik].
  - rewrite <- (Z.mod_pow2_bits_low p k i) by lia. by rewrite Hp, Z.testbit_0_l.
  - destruct (Z.eq_dec k 0) as [->|]; [assert (t = 0) as -> by (change (2 ^ 0) with 1 in Ht; lia); by rewrite Z.testbit_0_l, andb_false_r|].
    rewrite (in_u_testbit k ltac:(lia) t) by done. apply andb_false_r.
Qed.

Lemma lor_low p k t : 0 <= k -> p mod 2 ^ k = 0 -> 0 <= t < 2 ^ k -> Z.lor p t = p + t.
Proof.
  intros Hk Hp Ht. pose proof (land_tag p k t Hk Hp Ht) as Hl.
  rewrite Z.add_nocarry_lxor by done. symmetry. by apply Z.lxor_lor.
Qed.

Lemma lxor_low p k t : 0 <= k -> p mod 2 ^ k = 0 -> 0 <= t < 2 ^ k -> Z.lxor (p + t) t = p.
Proof.
  intros Hk Hp Ht. rewrite Z.add_nocarry_lxor by (by apply (land_tag p k)).
  by rewrite Z.lxor_assoc, Z.lxor_nilpotent, Z.lxor_0_r.
Qed.

(** Clearing low bits. *)
Lemma land_not_low v k : in_u 64 v -> 0 <= k <= 64 -> Z.land v (not_mask (2 ^ k - 1)) = v - v mod 2 ^ k.
Proof.
  intros Hv Hk. rewrite <- land_lnot_ones by lia. apply Z.bits_inj'. intros i Hi. unfold not_mask.
  rewrite !Z.land_spec, uwrap_testbit by lia. destruct (Z.ltb_spec i 64); [by rewrite ?andb_true_r|].
  by rewrite (in_u_testbit 64) by (done || lia).
Qed.

Lemma tag_mod p k t : p mod 2 ^ k = 0 -> 0 <= t < 2 ^ k -> (p + t) mod 2 ^ k = t.
Proof. intros Hp Ht. rewrite <- Zplus_mod_idemp_l, Hp, Z.add_0_l. by apply Z.mod_small. Qed.

Lemma mod_weaken p j k : 0 <= j <= k -> p mod 2 ^ k = 0 -> p mod 2 ^ j = 0.
Proof.
  intros Hj Hp. apply Z.mod_divide in Hp; [|pose proof (Z.pow_pos_nonneg 2 k); lia]. apply Z.mod_divide.
  - pose proof (Z.pow_pos_nonneg 2 j); lia.
  - etransitivity; [|exact Hp]. exists (2 ^ (k - j)). rewrite <- Z.pow_add_r by lia. f_equal. lia.
Qed.

(** Room for a tag below an aligned address. *)
Lemma tag_range p k t : 0 <= k <= 64 -> in_u 64 p -> p mod 2 ^ k = 0 -> 0 <= t < 2 ^ k -> in_u 64 (p + t).
Proof.
  intros Hk [Hp Hp'] Hm Ht. split; [lia|].
  apply Z.mod_divide in Hm; [|pose proof (Z.pow_pos_nonneg 2 k); lia]. destruct Hm as [q Hq].
  assert (H64 : 2 ^ 64 = 2 ^ (64 - k) * 2 ^ k) by (rewrite <- Z.pow_add_r by lia; f_equal; lia).
  assert (q < 2 ^ (64 - k)) by nia. nia.
Qed.

Lemma tagged_state p t : p mod 8 = 0 -> 0 <= t < 4 -> state_of (p + t) =
  (if t =? 0 then StackLocked else if t =? 1 then Neutral else if t =? 2 then Inflated else Marked).
Proof.
  intros Hp Ht. unfold state_of. destruct (mod8_cases (p + t)) as [-> _].
  assert (H8 : (p + t) mod 8 = t) by (apply (tag_mod p 3 t); [done|change (2 ^ 3) with 8; lia]). rewrite H8.
  assert (Hc : t = 0 \/ t = 1 \/ t = 2 \/ t = 3) by lia. by destruct Hc as [-> | [-> | [-> | ->]]].
Qed.

(** Pointers to a BasicLock, to a monitor and to a forwarded object come back. *)
Lemma lock_pointer_ok p : p mod 8 = 0 -> in_u 64 p ->
  state_of (encode_lock p) = StackLocked /\ locker (encode_lock p) = p /\ displaced_mark_addr (encode_lock p) = p.
Proof.
  intros H8 Hp. split_and!; [|done|].
  - unfold encode_lock. rewrite <- (Z.add_0_r p). by rewrite tagged_state.
  - unfold encode_lock, displaced_mark_addr. apply Z.bits_inj'. intros i Hi. unfold not_mask.
    rewrite Z.land_spec, uwrap_testbit, Z.lnot_spec by lia. change monitor_value with (2 ^ 1). rewrite Z.pow2_bits_eqb by lia.
    destruct (Z.ltb_spec i 64); [|by rewrite (in_u_testbit 64) by (done || lia)].
    destruct (Z.eqb_spec 1 i) as [<-|]; cbn [negb andb]; rewrite ?andb_true_r, ?andb_false_r; [|done].
    rewrite <- (Z.mod_pow2_bits_low p 3) by lia. change (2 ^ 3) with 8. by rewrite H8, Z.testbit_0_l.
Qed.

Lemma monitor_pointer_ok p : p mod 8 = 0 -> in_u 64 p ->
  state_of (encode_monitor p) = Inflated /\ monitor (encode_monitor p) = p /\ displaced_mark_addr (encode_monitor p) = p /\
  in_u 64 (encode_monitor p).
Proof.
  intros H8 Hp. pose proof (mod_weaken p 2 3 ltac:(lia) H8) as H4. change (2 ^ 2) with 4 in H4.
  assert (He : encode_monitor p = p + 2) by (apply (lor_low p 2 2); done || lia).
  split_and!.
  - rewrite He. by rewrite tagged_state.
  - unfold monitor. rewrite He. apply (lxor_low p 2 2); done || lia.
  - destruct (lock_pointer_ok p H8 Hp) as (_ & _ & Hd). rewrite <- Hd at 2. unfold displaced_mark_addr, encode_lock, encode_monitor.
    rewrite Z.land_lor_distr_l. change (Z.land monitor_value (not_mask monitor_value)) with 0. apply Z.lor_0_r.
  - rewrite He. apply (tag_range p 3); done || lia.
Qed.

Lemma forward_pointer_ok b p : p mod 8 = 0 -> in_u 64 p ->
  state_of (encode_pointer_as_mark p) = Marked /\ decode_pointer b (encode_pointer_as_mark p) = p.
Proof.
  intros H8 Hp. pose proof (mod_weaken p 2 3 ltac:(lia) H8) as H4. change (2 ^ 2) with 4 in H4.
  assert (He : encode_pointer_as_mark p = p + 3).
  { unfold encode_pointer_as_mark, set_marked. change lock_mask_in_place with (2 ^ 2 - 1).
    rewrite land_not_low by (done || lia). change (2 ^ 2) with 4. rewrite H4, Z.sub_0_r. apply (lor_low p 2 3); done || lia. }
  rewrite He. split; [by rewrite tagged_state|]. unfold decode_pointer.
  assert (Hb : has_bias_pattern (p + 3) = false).
  { destruct (state_of_spec (p + 3)) as (_ & -> & _). rewrite tagged_state by (done || lia). done. }
  rewrite Hb, andb_false_r. unfold clear_lock_bits. change lock_mask_in_place with (2 ^ 2 - 1).
  rewrite land_not_low by (try lia; apply (tag_range p 3); done || lia).
  rewrite (tag_mod p 2) by (done || lia). lia.
Qed.

Lemma get_field_div k n v : 0 <= k -> 0 <= n -> get_field k n v = v / 2 ^ k mod 2 ^ n.
Proof. intros Hk Hn. unfold get_field. by rewrite land_ones_mod, Z.shiftr_div_pow2. Qed.

Lemma bias_epoch_field v : bias_epoch v = get_field 8 2 v.
Proof.
  unfold bias_epoch, mask_bits, get_field. change epoch_mask_in_place with (Z.shiftl (2 ^ 2 - 1) 8).
  apply Z.bits_inj'. intros i Hi. change epoch_shift with 8.
  rewrite Z.shiftr_spec, !Z.land_spec, Z.shiftl_spec, Z.shiftr_spec by lia. by replace (i + 8 - 8) with i by lia.
Qed.

(** An aligned pointer is not changed by a mask that covers it. *)
Lemma aligned_keep p M k : in_u 64 p -> 0 <= k -> p mod 2 ^ k = 0 ->
  (forall j, k <= j < 64 -> Z.testbit M j = true) -> Z.land p M = p.
Proof.
  intros Hp Hk Hm HM. apply Z.bits_inj'. intros i Hi. rewrite Z.land_spec. destruct (Z.ltb_spec i k).
  - rewrite <- (Z.mod_pow2_bits_low p k i) by lia. by rewrite Hm, Z.testbit_0_l.
  - destruct (Z.ltb_spec i 64); [by rewrite HM, andb_true_r by lia|]. by rewrite (in_u_testbit 64) by (done || lia).
Qed.

(** A biased header yields the thread, the age and the epoch it was made of. *)
Lemma bias_ok thread a e : in_u 64 thread -> thread mod 1024 = 0 -> 0 <= a < 16 -> 0 <= e < 4 ->
  let v := encode_bias thread a e in
  in_u 64 v /\ state_of v = Biased /\ biased_locker v = thread /\ age v = a /\ bias_epoch v = e.
Proof.
  intros Ht H10 Ha He v.
  assert (Hv : v = thread + (e * 256 + a * 8 + 5)).
  { unfold v, encode_bias. change epoch_shift with 8. change age_shift with 3. change biased_lock_pattern with 5.
    rewrite !Z.shiftl_mul_pow2 by lia. change (2 ^ 8) with 256. change (2 ^ 3) with 8.
    rewrite (lor_low thread 10) by (done || (change (2 ^ 10) with 1024; lia)).
    rewrite (lor_low (thread + e * 256) 8); [|lia| |change (2 ^ 8) with 256; lia].
    - rewrite (lor_low (thread + e * 256 + a * 8) 3); [lia|lia| |change (2 ^ 3) with 8; lia].
      change (2 ^ 3) with 8. rewrite Z.mod_add by lia. replace (e * 256) with (e * 32 * 8) by lia.
      rewrite Z.mod_add by lia. by apply (mod_weaken thread 3 10 ltac:(lia)).
    - change (2 ^ 8) with 256. rewrite Z.mod_add by lia. by apply (mod_weaken thread 8 10 ltac:(lia)). }
  assert (Hu : in_u 64 v).
  { rewrite Hv. apply (tag_range thread 10); [lia|done|done|change (2 ^ 10) with 1024; lia]. }
  apply Z.mod_divide in H10; [|lia]. destruct H10 as [q Hq]. split; [done|]. split_and!.
  - unfold state_of. rewrite Hv, Hq. replace (q * 1024 + (e * 256 + a * 8 + 5)) with (1 + (q * 256 + e * 64 + a * 2 + 1) * 4) at 1 by lia.
    rewrite Z.mod_add by lia. replace (q * 1024 + (e * 256 + a * 8 + 5)) with (5 + (q * 128 + e * 32 + a) * 8) by lia.
    rewrite Z.mod_add by lia. done.
  - unfold biased_locker, mask_bits.
    set (M := not_mask (Z.lor (Z.lor biased_lock_mask_in_place age_mask_in_place) epoch_mask_in_place)).
    rewrite Hv, <- (lor_low thread 10) by (done || (change (2 ^ 10) with 1024; lia) || (rewrite Hq; by rewrite Z.mod_mul)).
    rewrite Z.land_lor_distr_l. assert (Hlow : Z.land (e * 256 + a * 8 + 5) M = 0).
    { assert (Hall : forall e' a', (e' < 4)%nat -> (a' < 16)%nat -> Z.land (Z.of_nat e' * 256 + Z.of_nat a' * 8 + 5) M = 0).
      { intros e' a' He' Ha'. do 4 (destruct e' as [|e']; [do 16 (destruct a' as [|a']; [reflexivity|]); lia|]). lia. }
      specialize (Hall (Z.to_nat e) (Z.to_nat a) ltac:(lia) ltac:(lia)). by rewrite !Z2Nat.id in Hall by lia. }
    rewrite Hlow, Z.lor_0_r. apply (aligned_keep thread M 10); [done|lia|rewrite Hq; by rewrite Z.mod_mul|].
    intros j Hj. unfold M, not_mask. rewrite uwrap_testbit, Z.lnot_spec by lia.
    destruct (Z.ltb_spec j 64); [|lia]. cbn [andb]. apply negb_true_iff. apply (in_u_testbit 10); [lia|done|lia].
  - rewrite age_field, get_field_div by lia. change (2 ^ 3) with 8. change (2 ^ 4) with 16. rewrite Hv, Hq.
    replace (q * 1024 + (e * 256 + a * 8 + 5)) with (5 + (q * 128 + e * 32 + a) * 8) by lia.
    rewrite Z.div_add by lia. change (5 / 8) with 0. replace (0 + (q * 128 + e * 32 + a)) with (a + (q * 8 + e * 2) * 16) by lia.
    rewrite Z.mod_add by lia. by apply Z.mod_small.
  - rewrite bias_epoch_field, get_field_div by lia. change (2 ^ 8) with 256. change (2 ^ 2) with 4. rewrite Hv, Hq.
    replace (q * 1024 + (e * 256 + a * 8 + 5)) with (a * 8 + 5 + (q * 4 + e) * 256) by lia.
    rewrite Z.div_add, (Z.div_small (a * 8 + 5)) by lia. replace (0 + (q * 4 + e)) with (e + q * 4) by lia.
    rewrite Z.mod_add by lia. by apply Z.mod_small.
Qed.

(** A free chunk yields its size, and is told from objects, whose headers have a zero there. *)
Lemma free_chunk_ok s : 0 <= s < 2 ^ 35 ->
  get_size (set_size_and_free s) = s /\ is_cms_free_chunk (set_size_and_free s) = true /\
  in_u 64 (set_size_and_free s) /\ state_of (set_size_and_free s) = Neutral.
Proof.
  intros Hs. assert (Hv : set_size_and_free s = s * 256 + 129).
  { unfold set_size_and_free. change size_mask with (2 ^ 35 - 1). rewrite land_ones_mod, (Z.mod_small s) by lia.
    change (Z.land cms_free_prototype (not_mask size_mask_in_place)) with 129. change size_shift with 8.
    rewrite Z.lor_comm, Z.shiftl_mul_pow2 by done. by apply (lor_shiftl_add s 129 8). }
  rewrite Hv. change (2 ^ 35) with 34359738368 in Hs. unfold in_u. change (2 ^ 64) with 18446744073709551616.
  assert (H8 : state_of (s * 256 + 129) = Neutral).
  { unfold state_of. replace (s * 256 + 129) with (1 + (s * 64 + 32) * 4) at 1 by lia. rewrite Z.mod_add by lia.
    replace (s * 256 + 129) with (1 + (s * 32 + 16) * 8) by lia. rewrite Z.mod_add by lia. done. }
  split_and!; try lia; try done.
  - unfold get_size. rewrite Z.shiftr_div_pow2 by done. change (2 ^ size_shift) with 256. rewrite Z.div_add_l by lia. change (129 / 256) with 0. lia.
  - unfold is_cms_free_chunk. destruct (state_of_spec (s * 256 + 129)) as (-> & _). rewrite H8. cbn [bool_decide].
    change (bool_decide (Neutral = Neutral)) with true. cbn [andb]. unfold cms_encoding, mask_bits.
    change cms_mask with (2 ^ 1 - 1). rewrite land_ones_mod, Z.shiftr_div_pow2 by done. change (2 ^ cms_shift) with 128.
    replace (s * 256 + 129) with (1 + (s * 2 + 1) * 128) by lia. rewrite Z.div_add by lia. change (1 / 128) with 0.
    replace (0 + (s * 2 + 1)) with (1 + s * 2) by lia. change (2 ^ 1) with 2. rewrite Z.mod_add by lia. done.
Qed.

(** C25: a mark is in one state of the lock, which its predicates tell apart; the hash and the age can be written
    without changing anything else, and the age stops at its maximum; a pointer to a lock record, a monitor or a forwarded
    object, a bias with its age and epoch, and the size of a free chunk come back from the word. *)
Theorem mark_word_ok v : in_u 64 v ->
  (is_neutral v = bool_decide (state_of v = Neutral) /\ has_bias_pattern v = bool_decide (state_of v = Biased) /\
   has_locker v = bool_decide (state_of v = StackLocked) /\ is_marked v = bool_decide (state_of v = Marked) /\
   has_monitor v = bool_decide (state_of v = Inflated \/ state_of v = Marked)) /\
   (forall h, 0 <= h < 2 ^ 31 -> in_u 64 (copy_set_hash v h) /\ hash (copy_set_hash v h) = h /\
   age (copy_set_hash v h) = age v /\ state_of (copy_set_hash v h) = state_of v) /\
   (age (incr_age v) = Z.min (age v + 1) 15 /\ hash (incr_age v) = hash v /\ state_of (incr_age v) = state_of v) /\
   (v mod 8 = 0 -> (state_of (encode_lock v) = StackLocked /\ locker (encode_lock v) = v) /\
   (state_of (encode_monitor v) = Inflated /\ monitor (encode_monitor v) = v) /\
   (state_of (encode_pointer_as_mark v) = Marked /\ forall b, decode_pointer b (encode_pointer_as_mark v) = v)) /\
   (v mod 1024 = 0 -> forall a e, 0 <= a < 16 -> 0 <= e < 4 -> let b := encode_bias v a e in
     state_of b = Biased /\ biased_locker b = v /\ age b = a /\ bias_epoch b = e) /\
   (v < 2 ^ 35 -> get_size (set_size_and_free v) = v /\ is_cms_free_chunk (set_size_and_free v) = true).
Proof.
  intros Hv. split; [apply state_of_spec|]. split; [intros h Hh; by apply hash_ok|]. split; [by apply incr_age_ok|].
  split; [|split].
  - intros H8. destruct (lock_pointer_ok v H8 Hv) as (H1 & H2 & _). destruct (monitor_pointer_ok v H8 Hv) as (H3 & H4 & _).
    split_and!; try done; [by apply (forward_pointer_ok true)|intros b; by apply forward_pointer_ok].
  - intros H10 a e Ha He. by destruct (bias_ok v a e) as (_ & Hb).
  - intros Hs. destruct (free_chunk_ok v) as (H1 & H2 & _); [split; [apply Hv|done]|done].
Qed.

Lemma mark_word_ok_witness : hash (copy_set_hash 1 77) = 77.
Proof. apply (proj1 (proj2 (mark_word_ok 1 ltac:(by vm_compute))) 77). by vm_compute. Defined.
