(* ===== verification/Synchronizer.v ===== *)
(** * Synchronizer: the locks and identity hashes of objects, runtime/synchronizer.cpp

    One object, shared by any number of threads that enter, leave and hash it.  Its header is a
    mark ([MarkWord]): neutral, or the address of a lock record on the stack of the owner, or
    a monitor, or 0 while a thread inflates a stack lock.  A lock record keeps the mark it
    displaced, 0 for a recursive enter of a stack lock, or 3 for an enter of a monitor.

    [sync_step] makes one access of the shared state for one thread; what the thread has
    in its locals is its [PC].  Two accesses are one step only if one of them is to memory no other thread can be
    at: the own lock record, a monitor not yet published, the recursions of a monitor the thread owns.
    Which thread a releasing owner wakes and how long a waiting one sleeps or spins is not
    in the state: tests of the queues of a monitor are choices ([flag]), so every
    queueing policy and wakeup order is covered.  Biased locking is off, and nobody waits.  [SyncSafe]
    has the theorems. *)

From stdpp Require Import gmap functions.
From S2P Require Import Prelude GlobalDefs MarkWord.

(* ------------------------------------------------------------------ *)
(** ** Threads *)

(** A chunk of lock records that deoptimization moved off the stack: its address and number, a record has two words. *)
Record MonitorChunk := { monitors_addr : Z; number_of_monitors : Z }.
Definition chunk_contains (c : MonitorChunk) (addr : Z) : bool :=
  (monitors_addr c <=? addr) && (addr <? monitors_addr c + number_of_monitors c * 16).

Record Thread := { stack_base : Z; stack_size : Z; monitor_chunks : list MonitorChunk }.

Definition Thread_is_lock_owned (t : Thread) (adr : Z) : bool :=
  (adr <=? stack_base t) && (stack_base t - stack_size t <=? adr).
Definition JavaThread_is_lock_owned (t : Thread) (adr : Z) : bool :=
  if Thread_is_lock_owned t adr then true else existsb (fun chunk => chunk_contains chunk adr) (monitor_chunks t).

(* ------------------------------------------------------------------ *)
(** ** Monitors *)

Record ObjectMonitor := {
  _header : Z; _owner : Z; _recursions : Z; _count : Z; OwnerIsThread : Z
}.

Definition set_header (m : ObjectMonitor) (hdr : Z) : ObjectMonitor :=
  {| _header := hdr; _owner := _owner m; _recursions := _recursions m; _count := _count m; OwnerIsThread := OwnerIsThread m |}.
Definition store_owner (m : ObjectMonitor) (o : Z) : ObjectMonitor :=
  {| _header := _header m; _owner := o; _recursions := _recursions m; _count := _count m; OwnerIsThread := OwnerIsThread m |}.
Definition store_recursions (m : ObjectMonitor) (r : Z) : ObjectMonitor :=
  {| _header := _header m; _owner := _owner m; _recursions := r; _count := _count m; OwnerIsThread := OwnerIsThread m |}.
Definition store_count (m : ObjectMonitor) (c : Z) : ObjectMonitor :=
  {| _header := _header m; _owner := _owner m; _recursions := _recursions m; _count := c; OwnerIsThread := OwnerIsThread m |}.
Definition store_OwnerIsThread (m : ObjectMonitor) (b : Z) : ObjectMonitor :=
  {| _header := _header m; _owner := _owner m; _recursions := _recursions m; _count := _count m; OwnerIsThread := b |}.

Definition set_owner (m : ObjectMonitor) (o : Z) : ObjectMonitor := store_count (store_recursions (store_owner m o) 0) 0.
Definition Recycle (m : ObjectMonitor) : ObjectMonitor := store_OwnerIsThread (store_recursions m 0) 0.
(** The waiters are always 0, and a nonempty queue only makes more monitors busy. *)
Definition is_busy (m : ObjectMonitor) : bool := negb (Z.lor (_count m) (_owner m) =? 0).

(** The owner becomes the thread itself, from a lock record or from nobody. *)
Definition take_over (m : ObjectMonitor) (self recursions : Z) : ObjectMonitor :=
  store_OwnerIsThread (store_recursions (store_owner m self) recursions) 1.

(* ------------------------------------------------------------------ *)
(** ** Hash codes *)

(** The last lines of [get_next_hash]: a value of the generator is cut to the field and made nonzero. *)
Definition finish_hash (value : Z) : Z :=
  let value := Z.land value hash_mask in if value =? 0 then 0xBAD else value.

(** What the generators keep: the seed of os::random, the globals and the state of the thread. *)
Record HashState := {
  rand_seed : Z; stwRandom : Z; hcSequence : Z;
  hashStateX : Z; hashStateY : Z; hashStateZ : Z; hashStateW : Z
}.

Definition os_random (seed : Z) : Z :=
  let a := 16807 in
  let m := 2147483647 in
  let lo := u64 (a * Z.land seed 0xFFFF) in
  let hi := u64 (a * s64 (Z.shiftr (u64 seed) 16)) in
  let lo := u64 (lo + Z.shiftl (Z.land hi 0x7FFF) 16) in
  let lo := if m <? lo then u64 (Z.land lo m + 1) else lo in
  let lo := u64 (lo + Z.shiftr hi 15) in
  s64 (if m <? lo then u64 (Z.land lo m + 1) else lo).

Definition xorshift (s : HashState) : Z * HashState :=
  let t := hashStateX s in
  let t := Z.lxor t (u32 (Z.shiftl t 11)) in
  let v := hashStateW s in
  let v := Z.lxor (Z.lxor v (Z.shiftr v 19)) (Z.lxor t (Z.shiftr t 8)) in
  (v, {| rand_seed := rand_seed s; stwRandom := stwRandom s; hcSequence := hcSequence s;
         hashStateX := hashStateY s; hashStateY := hashStateZ s; hashStateZ := hashStateW s; hashStateW := v |}).

Definition get_next_hash (hashCode obj : Z) (s : HashState) : Z * HashState :=
  let '(value, s) :=
    match hashCode with
    | 0 =>
        let r := os_random (rand_seed s) in
        (r, {| rand_seed := r; stwRandom := stwRandom s; hcSequence := hcSequence s; hashStateX := hashStateX s;
               hashStateY := hashStateY s; hashStateZ := hashStateZ s; hashStateW := hashStateW s |})
    | 1 =>
        let addrBits := Z.shiftr obj 3 in
        (Z.lxor (Z.lxor addrBits (Z.shiftr addrBits 5)) (stwRandom s), s)
    | 2 => (1, s)
    | 3 =>
        let q := s32 (hcSequence s + 1) in
        (q, {| rand_seed := rand_seed s; stwRandom := stwRandom s; hcSequence := q; hashStateX := hashStateX s;
               hashStateY := hashStateY s; hashStateZ := hashStateZ s; hashStateW := hashStateW s |})
    | 4 => (obj, s)
    | _ => xorshift s
    end in
  (finish_hash value, s).

(* ------------------------------------------------------------------ *)
(** ** Where a thread is *)

(** What called [inflate], to go on with the monitor. *)
Inductive Caller :=
  | Entering (lock : Z)
  | Exiting (lock : Z)
  | Hashing.

(** What called [ObjectMonitor::exit]: [fast_exit], or a suspended thread that had just entered. *)
Inductive Leaver :=
  | Leaving (lock : Z)
  | Suspended (lock : Z).

Inductive PC :=
  | Idle
  (* slow_enter *)
  | EnterRead (lock : Z)
  | EnterCas (lock mk : Z)
  (* inflate *)
  | InflRead (k : Caller)
  | InflCasLocked (k : Caller) (m mk : Z)
  | InflDmw (k : Caller) (m mk : Z)
  | InflOwner (k : Caller) (m mk : Z)
  | InflPublish (k : Caller) (m mk : Z)
  | InflCasNeutral (k : Caller) (m mk : Z)
  (* fast_exit *)
  | ExitRead (lock : Z)
  | ExitMark (lock dhw : Z)
  | ExitCas (lock dhw : Z)
  (* ObjectMonitor::enter and EnterI *)
  | MonEnter (lock m : Z)
  | MonRecurse (lock m : Z)
  | MonCommute (lock m : Z)
  | MonContend (lock m : Z)
  | MonTryRead (lock m : Z)
  | MonTryCas (lock m : Z)
  | MonAcquired (lock m : Z)
  (* ObjectMonitor::exit *)
  | MonExit (k : Leaver) (m : Z)
  | MonOwner (k : Leaver) (m : Z)
  | MonTransmute (k : Leaver) (m : Z)
  | MonLevel (k : Leaver) (m : Z)
  | MonRelease (k : Leaver) (m : Z)
  | MonReleased (k : Leaver) (m : Z)
  | MonSuccessor (k : Leaver) (m : Z)
  (* FastHashCode *)
  | HashRead
  | HashCas (mk h : Z)
  | HashDisplaced (mk : Z)
  | HashMonitor (m : Z)
  | HashHeader (m : Z)
  | HashMonCas (m mk h : Z).

(** The lock records of the enters that have returned, the last one first. *)
Record ThreadState := { pc : PC; frames : list Z }.

Record SyncState := {
  mark : Z;
  boxes : gmap Z Z;
  monitors : gmap Z ObjectMonitor;
  thr : Z -> ThreadState
}.

(** What is not in the state: the next call of an idle thread, the outcome of a test of the
    queues, the monitor that [omAlloc] hands out with what is left in it, and the value of the generator of hashes. *)
Inductive Call := CallEnter (lock : Z) | CallExit | CallHash.
Record Choice := { call : Call; flag : bool; fresh : Z; stale : ObjectMonitor; raw_hash : Z }.

Definition put (s : SyncState) (t : Z) (p : PC) (fs : list Z) : SyncState :=
  {| mark := mark s; boxes := boxes s; monitors := monitors s; thr := <[t := {| pc := p; frames := fs |}]> (thr s) |}.
Definition go (s : SyncState) (t : Z) (p : PC) : SyncState := put s t p (frames (thr s t)).
Definition entered (s : SyncState) (t lock : Z) : SyncState := put s t Idle (lock :: frames (thr s t)).
Definition set_mark (s : SyncState) (v : Z) : SyncState :=
  {| mark := v; boxes := boxes s; monitors := monitors s; thr := thr s |}.
Definition set_displaced_header (s : SyncState) (lock v : Z) : SyncState :=
  {| mark := mark s; boxes := <[lock := v]> (boxes s); monitors := monitors s; thr := thr s |}.
Definition set_monitor (s : SyncState) (m : Z) (mon : ObjectMonitor) : SyncState :=
  {| mark := mark s; boxes := boxes s; monitors := <[m := mon]> (monitors s); thr := thr s |}.
Definition discard_monitor (s : SyncState) (m : Z) : SyncState :=
  {| mark := mark s; boxes := boxes s; monitors := delete m (monitors s); thr := thr s |}.

(** The state after the step, and the hash that was returned if a call of [FastHashCode] ended. *)
Definition StepResult : Type := option (SyncState * option Z).
Definition silent (s : SyncState) : StepResult := Some (s, None).
Definition hashed (s : SyncState) (t h : Z) : StepResult := Some (go s t Idle, Some h).

(* ------------------------------------------------------------------ *)
(** ** The steps of a thread *)

Section Steps.
Context (thread : Z -> Thread) (Knob_ExitPolicy : Z).

Definition is_lock_owned (t adr : Z) : bool := JavaThread_is_lock_owned (thread t) adr.

(** [slow_enter] up to its exchange, and the outcome of the exchange. *)
Definition slow_enter_step (s : SyncState) (t lock : Z) : StepResult :=
  let mk := mark s in
  if is_neutral mk then silent (go (set_displaced_header s lock mk) t (EnterCas lock mk))
  else if has_locker mk && is_lock_owned t (locker mk) then
    silent (entered (set_displaced_header s lock 0) t lock)
  else silent (go (set_displaced_header s lock unused_mark) t (InflRead (Entering lock))).

Definition enter_cas_step (s : SyncState) (t lock mk : Z) : StepResult :=
  if mark s =? mk then silent (entered (set_mark s (encode_lock lock)) t lock)
  else silent (go (set_displaced_header s lock unused_mark) t (InflRead (Entering lock))).

(** [inflate] returns the monitor to its caller. *)
Definition with_monitor (k : Caller) (m : Z) : PC :=
  match k with
  | Entering lock => MonEnter lock m
  | Exiting lock => MonExit (Leaving lock) m
  | Hashing => HashHeader m
  end.
Definition inflated (s : SyncState) (t : Z) (k : Caller) (m : Z) : SyncState := go s t (with_monitor k m).

(** The monitor as [inflate] prepares it over a stack lock and over a neutral mark. *)
Definition prepared_locked (m : ObjectMonitor) : ObjectMonitor :=
  store_recursions (store_OwnerIsThread (Recycle m) 0) 0.
Definition prepared_neutral (m : ObjectMonitor) (mk : Z) : ObjectMonitor :=
  store_recursions (store_OwnerIsThread (set_owner (set_header (Recycle m) mk) 0) 1) 0.

(** The loop of [inflate]: a mark of 0 is waited for, here and in [ReadStableMark]. *)
Definition inflate_read_step (s : SyncState) (t : Z) (k : Caller) (c : Choice) : StepResult :=
  let mk := mark s in
  if has_monitor mk then silent (inflated s t k (monitor mk))
  else if mk =? INFLATING then silent (go s t (InflRead k))
  else if has_locker mk then
    silent (go (set_monitor s (fresh c) (prepared_locked (stale c))) t (InflCasLocked k (fresh c) mk))
  else silent (go (set_monitor s (fresh c) (prepared_neutral (stale c) mk)) t (InflCasNeutral k (fresh c) mk)).

Definition inflate_cas_locked_step (s : SyncState) (t : Z) (k : Caller) (m mk : Z) : StepResult :=
  if mark s =? mk then silent (go (set_mark s INFLATING) t (InflDmw k m mk))
  else silent (go (discard_monitor s m) t (InflRead k)).

Definition inflate_dmw_step (s : SyncState) (t : Z) (k : Caller) (m mk : Z) : StepResult :=
  dmw ← boxes s !! displaced_mark_addr mk;
  mon ← monitors s !! m;
  silent (go (set_monitor s m (set_header mon dmw)) t (InflOwner k m mk)).

(** The owner is set in the monitor that nobody else knows yet, and the guarantee reads the mark. *)
Definition inflate_owner_step (s : SyncState) (t : Z) (k : Caller) (m mk : Z) : StepResult :=
  mon ← monitors s !! m;
  let s := set_monitor s m (set_owner mon (locker mk)) in
  guard_b (mark s =? INFLATING) (silent (go s t (InflPublish k m mk))).

Definition inflate_publish_step (s : SyncState) (t : Z) (k : Caller) (m : Z) : StepResult :=
  silent (inflated (set_mark s (encode_monitor m)) t k m).

Definition inflate_cas_neutral_step (s : SyncState) (t : Z) (k : Caller) (m mk : Z) : StepResult :=
  if mark s =? mk then silent (inflated (set_mark s (encode_monitor m)) t k m)
  else silent (go (discard_monitor s m) t (InflRead k)).

(** [fast_exit] of the record entered last. *)
Definition fast_exit_read_step (s : SyncState) (t lock : Z) : StepResult :=
  dhw ← boxes s !! lock;
  silent (go s t (if dhw =? 0 then Idle else ExitMark lock dhw)).

Definition fast_exit_mark_step (s : SyncState) (t lock dhw : Z) : StepResult :=
  silent (go s t (if mark s =? lock then ExitCas lock dhw else InflRead (Exiting lock))).

Definition fast_exit_cas_step (s : SyncState) (t lock dhw : Z) : StepResult :=
  if mark s =? lock then silent (go (set_mark s dhw) t Idle)
  else silent (go s t (InflRead (Exiting lock))).

(** [ObjectMonitor::enter]: the exchange of the owner, and what its three failures lead to. *)
Definition enter_step (s : SyncState) (t lock m : Z) : StepResult :=
  mon ← monitors s !! m;
  let cur := _owner mon in
  if cur =? 0 then silent (entered (set_monitor s m (store_owner mon t)) t lock)
  else if cur =? t then silent (go s t (MonRecurse lock m))
  else if is_lock_owned t cur then silent (go s t (MonCommute lock m))
  else silent (go s t (MonContend lock m)).

Definition recurse_step (s : SyncState) (t lock m : Z) : StepResult :=
  mon ← monitors s !! m;
  silent (entered (set_monitor s m (store_recursions mon (s64 (_recursions mon + 1)))) t lock).

Definition commute_step (s : SyncState) (t lock m : Z) : StepResult :=
  mon ← monitors s !! m;
  silent (entered (set_monitor s m (take_over mon t 1)) t lock).

(** An exchange of [TrySpin], as often as it likes, then the count goes up and [EnterI] starts. *)
Definition contend_step (s : SyncState) (t lock m : Z) (c : Choice) : StepResult :=
  mon ← monitors s !! m;
  if flag c then
    if _owner mon =? 0 then silent (entered (set_monitor s m (store_owner mon t)) t lock)
    else silent (go s t (MonContend lock m))
  else silent (go (set_monitor s m (store_count mon (s64 (_count mon + 1)))) t (MonTryRead lock m)).

(** [TryLock] inside [EnterI], which tries it before and after each sleep. *)
Definition try_read_step (s : SyncState) (t lock m : Z) : StepResult :=
  mon ← monitors s !! m;
  silent (go s t (if _owner mon =? 0 then MonTryCas lock m else MonTryRead lock m)).

Definition try_cas_step (s : SyncState) (t lock m : Z) : StepResult :=
  mon ← monitors s !! m;
  if _owner mon =? 0 then silent (go (set_monitor s m (store_owner mon t)) t (MonAcquired lock m))
  else silent (go s t (MonTryRead lock m)).

(** Back in [enter]: a thread that was suspended meanwhile lets go again. *)
Definition acquired_step (s : SyncState) (t lock m : Z) (c : Choice) : StepResult :=
  mon ← monitors s !! m;
  if flag c then silent (go (set_monitor s m (store_recursions mon 0)) t (MonExit (Suspended lock) m))
  else silent (entered (set_monitor s m (store_count mon (s64 (_count mon - 1)))) t lock).

(** Where [ObjectMonitor::exit] returns to. *)
Definition after_exit (k : Leaver) (m : Z) : PC :=
  match k with Leaving _ => Idle | Suspended lock => MonTryRead lock m end.
Definition left (s : SyncState) (t : Z) (k : Leaver) (m : Z) : SyncState := go s t (after_exit k m).

Definition exit_step (s : SyncState) (t : Z) (k : Leaver) (m : Z) : StepResult :=
  mon ← monitors s !! m;
  silent (go s t (if negb (t =? _owner mon) then MonOwner k m else MonLevel k m)).

(** The owner is read again. *)
Definition reread_owner_step (s : SyncState) (t : Z) (k : Leaver) (m : Z) : StepResult :=
  mon ← monitors s !! m;
  if is_lock_owned t (_owner mon) then silent (go s t (MonTransmute k m)) else silent (left s t k m).

Definition transmute_step (s : SyncState) (t : Z) (k : Leaver) (m : Z) : StepResult :=
  mon ← monitors s !! m;
  silent (go (set_monitor s m (take_over mon t 0)) t (MonLevel k m)).

Definition level_step (s : SyncState) (t : Z) (k : Leaver) (m : Z) : StepResult :=
  mon ← monitors s !! m;
  if negb (_recursions mon =? 0) then
    silent (left (set_monitor s m (store_recursions mon (s64 (_recursions mon - 1)))) t k m)
  else silent (go s t (MonRelease k m)).

(** The top of the loop of [exit]: drop the lock, or under the other policies first look whether a
    successor has to be found. *)
Definition release_step (s : SyncState) (t : Z) (k : Leaver) (m : Z) (c : Choice) : StepResult :=
  mon ← monitors s !! m;
  if (Knob_ExitPolicy =? 0) || flag c then
    silent (go (set_monitor s m (store_owner mon 0)) t (MonReleased k m))
  else silent (go s t (MonSuccessor k m)).

(** Nobody to wake, or the lock is taken back to find out whom. *)
Definition released_step (s : SyncState) (t : Z) (k : Leaver) (m : Z) (c : Choice) : StepResult :=
  if flag c then silent (left s t k m)
  else
    mon ← monitors s !! m;
    if _owner mon =? 0 then silent (go (set_monitor s m (store_owner mon t)) t (MonSuccessor k m))
    else silent (left s t k m).

(** [ExitEpilog] drops the lock and wakes the successor; the loop goes on when there is none after all. *)
Definition successor_step (s : SyncState) (t : Z) (k : Leaver) (m : Z) (c : Choice) : StepResult :=
  mon ← monitors s !! m;
  guard_b (_owner mon =? t)
    (if flag c then silent (left (set_monitor s m (store_owner mon 0)) t k m)
     else silent (go s t (MonRelease k m))).

(** One turn of the loops of [ReadStableMark]: without a result it reads again, after spinning, yielding or parking. *)
Definition ReadStableMark (s : SyncState) : option Z :=
  let mk := mark s in if is_being_inflated mk then None else Some mk.

(** [FastHashCode]. *)
Definition hash_read_step (s : SyncState) (t : Z) (c : Choice) : StepResult :=
  match ReadStableMark s with
  | None => silent (go s t HashRead)
  | Some mk =>
      if is_neutral mk then
        if hash mk =? 0 then silent (go s t (HashCas mk (finish_hash (raw_hash c)))) else hashed s t (hash mk)
      else if has_monitor mk then silent (go s t (HashMonitor (monitor mk)))
      else if is_lock_owned t (locker mk) then silent (go s t (HashDisplaced mk))
      else silent (go s t (InflRead Hashing))
  end.

Definition hash_cas_step (s : SyncState) (t mk h : Z) : StepResult :=
  if mark s =? mk then hashed (set_mark s (copy_set_hash mk h)) t h
  else silent (go s t (InflRead Hashing)).

Definition hash_displaced_step (s : SyncState) (t mk : Z) : StepResult :=
  temp ← boxes s !! displaced_mark_addr mk;
  if hash temp =? 0 then silent (go s t (InflRead Hashing)) else hashed s t (hash temp).

Definition hash_monitor_step (s : SyncState) (t m : Z) : StepResult :=
  mon ← monitors s !! m;
  if hash (_header mon) =? 0 then silent (go s t (InflRead Hashing)) else hashed s t (hash (_header mon)).

Definition hash_header_step (s : SyncState) (t m : Z) (c : Choice) : StepResult :=
  mon ← monitors s !! m;
  let mk := _header mon in
  if hash mk =? 0 then silent (go s t (HashMonCas m mk (finish_hash (raw_hash c)))) else hashed s t (hash mk).

Definition hash_mon_cas_step (s : SyncState) (t m mk h : Z) : StepResult :=
  mon ← monitors s !! m;
  let test := _header mon in
  if test =? mk then hashed (set_monitor s m (set_header mon (copy_set_hash mk h))) t h
  else hashed s t (hash test).

(** The next call of a thread that is in none. *)
Definition call_step (s : SyncState) (t : Z) (c : Choice) : StepResult :=
  match call c with
  | CallEnter lock => silent (go s t (EnterRead lock))
  | CallExit =>
      match frames (thr s t) with
      | lock :: fs => silent (put s t (ExitRead lock) fs)
      | [] => None
      end
  | CallHash => silent (go s t HashRead)
  end.

Definition sync_step (s : SyncState) (t : Z) (c : Choice) : StepResult :=
  match pc (thr s t) with
  | Idle => call_step s t c
  | EnterRead lock => slow_enter_step s t lock
  | EnterCas lock mk => enter_cas_step s t lock mk
  | InflRead k => inflate_read_step s t k c
  | InflCasLocked k m mk => inflate_cas_locked_step s t k m mk
  | InflDmw k m mk => inflate_dmw_step s t k m mk
  | InflOwner k m mk => inflate_owner_step s t k m mk
  | InflPublish k m mk => inflate_publish_step s t k m
  | InflCasNeutral k m mk => inflate_cas_neutral_step s t k m mk
  | ExitRead lock => fast_exit_read_step s t lock
  | ExitMark lock dhw => fast_exit_mark_step s t lock dhw
  | ExitCas lock dhw => fast_exit_cas_step s t lock dhw
  | MonEnter lock m => enter_step s t lock m
  | MonRecurse lock m => recurse_step s t lock m
  | MonCommute lock m => commute_step s t lock m
  | MonContend lock m => contend_step s t lock m c
  | MonTryRead lock m => try_read_step s t lock m
  | MonTryCas lock m => try_cas_step s t lock m
  | MonAcquired lock m => acquired_step s t lock m c
  | MonExit k m => exit_step s t k m
  | MonOwner k m => reread_owner_step s t k m
  | MonTransmute k m => transmute_step s t k m
  | MonLevel k m => level_step s t k m
  | MonRelease k m => release_step s t k m c
  | MonReleased k m => released_step s t k m c
  | MonSuccessor k m => successor_step s t k m c
  | HashRead => hash_read_step s t c
  | HashCas mk h => hash_cas_step s t mk h
  | HashDisplaced mk => hash_displaced_step s t mk
  | HashMonitor m => hash_monitor_step s t m
  | HashHeader m => hash_header_step s t m c
  | HashMonCas m mk h => hash_mon_cas_step s t m mk h
  end.

(* ------------------------------------------------------------------ *)
(** ** Safepoints *)

(** A thread is inside the contended part of [ObjectMonitor::enter], between the changes of the count. *)
Definition contending (p : PC) : bool :=
  match p with
  | MonTryRead _ _ | MonTryCas _ _ | MonAcquired _ _ => true
  | MonExit (Suspended _) _ | MonOwner (Suspended _) _ | MonTransmute (Suspended _) _ | MonLevel (Suspended _) _
  | MonRelease (Suspended _) _ | MonReleased (Suspended _) _ | MonSuccessor (Suspended _) _ => true
  | _ => false
  end.

(** The thread can be stopped for a safepoint: it runs Java code, or is blocked on the way in. *)
Definition stoppable (p : PC) : bool := match p with Idle => true | _ => contending p end.

(** [deflate_monitor], called at a safepoint for the monitor of the object. *)
Definition deflate_monitor (s : SyncState) : option (SyncState * bool) :=
  let mid := monitor (mark s) in
  mon ← monitors s !! mid;
  guard_b (is_neutral (_header mon))
    (if is_busy mon then Some (s, false)
     else Some (discard_monitor (set_mark s (_header mon)) mid, true)).

(* ------------------------------------------------------------------ *)
(** ** Questions about the owner *)

Inductive LockOwnership := owner_self | owner_none | owner_other.

Definition is_entered (m : ObjectMonitor) (t : Z) : bool := (t =? _owner m) || is_lock_owned t (_owner m).

Definition current_thread_holds_lock (s : SyncState) (t : Z) : option bool :=
  mk ← ReadStableMark s;
  if has_locker mk then Some (is_lock_owned t (locker mk))
  else if has_monitor mk then mon ← monitors s !! monitor mk; Some (is_entered mon t)
  else Some false.

Definition query_lock_ownership (s : SyncState) (t : Z) : option LockOwnership :=
  mk ← ReadStableMark s;
  if has_locker mk then Some (if is_lock_owned t (locker mk) then owner_self else owner_other)
  else if has_monitor mk then
    mon ← monitors s !! monitor mk;
    let owner := _owner mon in
    Some (if owner =? 0 then owner_none
          else if (owner =? t) || is_lock_owned t owner then owner_self else owner_other)
  else Some owner_none.
End Steps.

(* ------------------------------------------------------------------ *)
(** ** Runs *)

Section Runs.
Context (thread : Z -> Thread) (Knob_ExitPolicy : Z) (threads : list Z).

Definition aligned_address (a : Z) : Prop := 0 < a < 2 ^ 64 /\ a mod 8 = 0.

(** What a caller gives: an unused lock record on its own stack, an exit for each enter; and a monitor of
    [omAlloc] is nobody's. *)
Definition valid_choice (s : SyncState) (t : Z) (c : Choice) : Prop :=
  match pc (thr s t) with
  | Idle =>
      match call c with
      | CallEnter lock => aligned_address lock /\ is_lock_owned thread t lock = true /\ lock ∉ frames (thr s t)
      | CallExit => frames (thr s t) <> []
      | CallHash => True
      end
  | InflRead _ => has_monitor (mark s) = false -> mark s <> INFLATING -> aligned_address (fresh c) /\ monitors s !! fresh c = None
  | _ => True
  end.

(** An object with the neutral header [hdr] that no thread has touched. *)
Definition initial (hdr : Z) : SyncState :=
  {| mark := hdr; boxes := ∅; monitors := ∅; thr := fun _ => {| pc := Idle; frames := [] |} |}.

Inductive run (hdr : Z) : list Z -> SyncState -> Prop :=
  | run_start : run hdr [] (initial hdr)
  | run_step l s t c s' e : run hdr l s -> t ∈ threads -> valid_choice s t c ->
      sync_step thread Knob_ExitPolicy s t c = Some (s', e) -> run hdr (l ++ option_list e) s'
  | run_deflate l s s' b : run hdr l s -> has_monitor (mark s) = true ->
      (forall t, t ∈ threads -> stoppable (pc (thr s t)) = true) ->
      deflate_monitor s = Some (s', b) -> run hdr l s'.
End Runs.
