(* ===== verification/SyncSafe.v ===== *)
(** * SyncSafe: what the locks and hashes of [Synchronizer] guarantee

    The invariant decodes the mark into a [Phase] with the current header, and says of each thread
    which lock records it holds, how they nest, and what its locals still say about the shared
    state.  A step of one thread changes the phase in one of a few ways, and [compat] says what each of them leaves
    alone for the others. *)

From stdpp Require Import gmap functions.
From S2P Require Import Prelude GlobalDefs MarkWord Synchronizer.

(* ------------------------------------------------------------------ *)
(** ** Phases of the object *)

(** Unlocked; stack-locked by [t] at [lock], perhaps being inflated by a thread; inflated, with the thread that has
    the monitor and what is in its owner and recursion fields. *)
Inductive Phase :=
  | Free
  | Thin (lock t : Z) (infl : option Z)
  | Mon (m : Z) (o : option Z) (own recs : Z).

Definition owner_of (ph : Phase) : option Z :=
  match ph with Free => None | Thin _ t _ => Some t | Mon _ o _ _ => o end.
Definition recs_of (ph : Phase) : Z := match ph with Mon _ _ _ recs => recs | _ => 0 end.
Definition published (ph : Phase) : option Z := match ph with Mon m _ _ _ => Some m | _ => None end.

(** Lock records a thread holds: of the enters that returned, and of the call it is in. *)
Definition caller_held (k : Caller) : list Z := match k with Exiting lock => [lock] | _ => [] end.
Definition caller_entering (k : Caller) : list Z := match k with Entering lock => [lock] | _ => [] end.
Definition leaver_lock (k : Leaver) : Z := match k with Leaving lock | Suspended lock => lock end.

Definition extra (p : PC) : list Z :=
  match p with
  | ExitRead lock | ExitMark lock _ | ExitCas lock _ | MonAcquired lock _ => [lock]
  | InflRead k | InflCasLocked k _ _ | InflDmw k _ _ | InflOwner k _ _ | InflPublish k _ _ | InflCasNeutral k _ _ => caller_held k
  | MonExit k _ | MonOwner k _ | MonTransmute k _ | MonLevel k _ | MonRelease k _ | MonSuccessor k _ => [leaver_lock k]
  | _ => []
  end.
Definition held (ts : ThreadState) : list Z := extra (pc ts) ++ frames ts.

(** The lock record a thread uses without holding it. *)
Definition entering (p : PC) : list Z :=
  match p with
  | EnterRead lock | EnterCas lock _ | MonEnter lock _ | MonRecurse lock _ | MonCommute lock _
  | MonContend lock _ | MonTryRead lock _ | MonTryCas lock _ => [lock]
  | InflRead k | InflCasLocked k _ _ | InflDmw k _ _ | InflOwner k _ _ | InflPublish k _ _ | InflCasNeutral k _ _ => caller_entering k
  | MonReleased k _ => [leaver_lock k]
  | _ => []
  end.

(** The monitor only this thread knows. *)
Definition private (p : PC) : option Z :=
  match p with
  | InflCasLocked _ m _ | InflDmw _ m _ | InflOwner _ m _ | InflPublish _ m _ | InflCasNeutral _ m _ => Some m
  | _ => None
  end.

(** How many of the records were not entered recursively on a stack lock. *)
Definition nonzero (B : gmap Z Z) (lock : Z) : Prop := exists d, B !! lock = Some d /\ d <> 0.
Fixpoint levels (B : gmap Z Z) (l : list Z) : Z :=
  match l with
  | [] => 0
  | lock :: l => (if default 0 (B !! lock) =? 0 then 0 else 1) + levels B l
  end.
Definition bottom_lock (l : list Z) (lock : Z) : Prop := exists l', l = l' ++ [lock].
Definition grounded (B : gmap Z Z) (l : list Z) : Prop := exists lock, bottom_lock l lock /\ nonzero B lock.

Section Safe.
Context (thread : Z -> Thread) (Knob_ExitPolicy : Z) (threads : list Z) (h0 : Z).

(** Stacks are apart from each other, from the thread objects and from the null address. *)
Record threads_ok : Prop := {
  th_nodup : NoDup threads;
  th_addr t : t ∈ threads -> aligned_address t;
  th_disjoint t u a : t ∈ threads -> u ∈ threads ->
    is_lock_owned thread t a = true -> is_lock_owned thread u a = true -> t = u;
  th_outside t u : t ∈ threads -> u ∈ threads -> is_lock_owned thread t u = false;
  th_null t : t ∈ threads -> is_lock_owned thread t 0 = false
}.

(** The headers the object can have: the first one, with a hash once one is set. *)
Definition hash_value (h : Z) : Prop := 0 < h < 2 ^ 31.
Definition header_ok (hd : Z) : Prop :=
  hd = h0 \/ (hash h0 = 0 /\ exists h, hash_value h /\ hd = copy_set_hash h0 h).

Definition own_box (t lock : Z) : Prop := aligned_address lock /\ is_lock_owned thread t lock = true.

(** The fields of the monitor by the phase. *)
Definition owner_ok (o : option Z) (own recs oit : Z) : Prop :=
  match o with
  | None => own = 0 /\ recs = 0 /\ oit = 1
  | Some t => t ∈ threads /\ (own = t /\ oit = 1 \/ is_lock_owned thread t own = true /\ recs = 0 /\ oit = 0)
  end.

Fixpoint count_contending (f : Z -> ThreadState) (l : list Z) : Z :=
  match l with [] => 0 | t :: l => Z.b2z (contending (pc (f t))) + count_contending f l end.
Definition contenders (s : SyncState) : Z := count_contending (thr s) threads.

Definition state_ok (s : SyncState) (hd : Z) (ph : Phase) : Prop :=
  match ph with
  | Free => mark s = hd
  | Thin lock t infl =>
      t ∈ threads /\ own_box t lock /\ boxes s !! lock = Some hd /\
      mark s = match infl with None => lock | Some _ => 0 end
  | Mon m o own recs =>
      aligned_address m /\ mark s = encode_monitor m /\
      exists oit, monitors s !! m = Some {| _header := hd; _owner := own; _recursions := recs;
                                            _count := contenders s; OwnerIsThread := oit |} /\
        owner_ok o own recs oit
  end.

(** The records of a thread. *)
Definition hold_ok (ph : Phase) (B : gmap Z Z) (t : Z) (ts : ThreadState) : Prop :=
  Forall (own_box t) (entering (pc ts) ++ held ts) /\ NoDup (entering (pc ts) ++ held ts) /\
  Forall (fun b => is_Some (B !! b)) (held ts) /\
  (owner_of ph = Some t -> grounded B (held ts) /\ levels B (held ts) = 1 + recs_of ph /\
     forall lock u i, ph = Thin lock u i -> bottom_lock (held ts) lock) /\
  (owner_of ph <> Some t -> held ts = []).

Definition caller_ok (B : gmap Z Z) (k : Caller) : Prop :=
  match k with Entering lock | Exiting lock => nonzero B lock | Hashing => True end.
Definition leaver_ok (B : gmap Z Z) (k : Leaver) (fs : list Z) : Prop :=
  nonzero B (leaver_lock k) /\ match k with Leaving _ => True | Suspended _ => fs = [] end.
Definition private_locked (M : gmap Z ObjectMonitor) (m : Z) : Prop :=
  aligned_address m /\ exists mon, M !! m = Some mon /\ _recursions mon = 0 /\ OwnerIsThread mon = 0.

Definition pc_ok (hd : Z) (ph : Phase) (B : gmap Z Z) (M : gmap Z ObjectMonitor) (t : Z) (ts : ThreadState) : Prop :=
  match pc ts with
  | Idle | EnterRead _ | HashRead | ExitRead _ => True
  | EnterCas lock mk => B !! lock = Some mk /\ is_neutral mk = true
  | InflRead k => caller_ok B k
  | InflCasLocked k m mk => caller_ok B k /\ private_locked M m /\ has_locker mk = true /\ mk <> 0
  | InflDmw k m mk => caller_ok B k /\ private_locked M m /\ exists u, ph = Thin mk u (Some t)
  | InflOwner k m mk => caller_ok B k /\ aligned_address m /\ (exists u, ph = Thin mk u (Some t)) /\
      exists mon, M !! m = Some mon /\ _recursions mon = 0 /\ OwnerIsThread mon = 0 /\ _header mon = hd
  | InflPublish k m mk => caller_ok B k /\ aligned_address m /\ (exists u, ph = Thin mk u (Some t)) /\
      M !! m = Some {| _header := hd; _owner := mk; _recursions := 0; _count := 0; OwnerIsThread := 0 |}
  | InflCasNeutral k m mk => caller_ok B k /\ aligned_address m /\ is_neutral mk = true /\
      M !! m = Some {| _header := mk; _owner := 0; _recursions := 0; _count := 0; OwnerIsThread := 1 |}
  | ExitMark lock dhw | ExitCas lock dhw => B !! lock = Some dhw /\ dhw <> 0
  | MonEnter lock m => nonzero B lock /\ published ph = Some m
  | MonRecurse lock m => nonzero B lock /\ exists recs, ph = Mon m (Some t) t recs
  | MonCommute lock m => nonzero B lock /\ exists own, ph = Mon m (Some t) own 0
  | MonContend lock m | MonTryRead lock m | MonTryCas lock m =>
      nonzero B lock /\ published ph = Some m /\ owner_of ph <> Some t
  | MonAcquired lock m => nonzero B lock /\ ph = Mon m (Some t) t 0
  | MonExit k m => leaver_ok B k (frames ts) /\ published ph = Some m /\ owner_of ph = Some t
  | MonOwner k m => leaver_ok B k (frames ts) /\ exists own, own <> t /\ ph = Mon m (Some t) own 0
  | MonTransmute k m => leaver_ok B k (frames ts) /\ exists own, ph = Mon m (Some t) own 0
  | MonLevel k m => leaver_ok B k (frames ts) /\ exists recs, ph = Mon m (Some t) t recs
  | MonRelease k m | MonSuccessor k m => leaver_ok B k (frames ts) /\ ph = Mon m (Some t) t 0
  | MonReleased k m => leaver_ok B k (frames ts) /\ published ph = Some m /\ owner_of ph <> Some t
  | HashCas mk h => is_neutral mk = true /\ hash mk = 0 /\ hash_value h
  | HashDisplaced mk => own_box t mk /\
      exists d, B !! mk = Some d /\ (hash d = 0 \/ hash d = hash hd)
  | HashMonitor m | HashHeader m => published ph = Some m
  | HashMonCas m mk h => published ph = Some m /\ hash mk = 0 /\ (hd = mk \/ hash hd <> 0) /\ hash_value h
  end.

Definition thread_ok (hd : Z) (ph : Phase) (s : SyncState) (t : Z) : Prop :=
  hold_ok ph (boxes s) t (thr s t) /\ pc_ok hd ph (boxes s) (monitors s) t (thr s t).

Record Inv (s : SyncState) (hd : Z) (ph : Phase) : Prop := {
  inv_header : header_ok hd;
  inv_state : state_ok s hd ph;
  inv_thread t : t ∈ threads -> thread_ok hd ph s t;
  inv_private t u m : t ∈ threads -> u ∈ threads ->
    private (pc (thr s t)) = Some m -> private (pc (thr s u)) = Some m -> t = u;
  inv_published t m : t ∈ threads -> private (pc (thr s t)) = Some m -> published ph <> Some m
}.

(* ------------------------------------------------------------------ *)
(** ** Lists of lock records *)

Lemma levels_ext B B' l : (forall b, b ∈ l -> B' !! b = B !! b) -> levels B' l = levels B l.
Proof.
  induction l as [|b l IH]; intros H; [done|]. cbn [levels]. rewrite (H b) by left. rewrite IH; [done|].
  intros c Hc. apply H. by right.
Qed.

Lemma grounded_ext B B' l : (forall b, b ∈ l -> B' !! b = B !! b) -> grounded B l -> grounded B' l.
Proof.
  intros H (b & (l' & ->) & d & Hb & Hd). exists b. split; [by exists l'|]. exists d. rewrite H; [done|]. set_solver.
Qed.

Lemma levels_nonneg B l : 0 <= levels B l.
Proof. induction l as [|b l IH]; cbn [levels]; [lia|]. destruct (_ =? 0); lia. Qed.

Lemma levels_cons_nonzero B b l : nonzero B b -> levels B (b :: l) = 1 + levels B l.
Proof. clear. intros (d & Hb & Hd). cbn [levels]. rewrite Hb. cbn. by rewrite (proj2 (Z.eqb_neq d 0)). Qed.

Lemma levels_cons_zero B b l : B !! b = Some 0 -> levels B (b :: l) = levels B l.
Proof. intros Hb. cbn [levels]. by rewrite Hb. Qed.

Lemma levels_app B l l' : levels B (l ++ l') = levels B l + levels B l'.
Proof. induction l as [|b l IH]; cbn [levels app]; [lia|]. rewrite IH. lia. Qed.

Lemma grounded_levels B l : grounded B l -> 0 < levels B l.
Proof.
  intros (b & (l' & ->) & Hb). rewrite levels_app, levels_cons_nonzero by done. cbn [levels].
  pose proof (levels_nonneg B l'). lia.
Qed.

Lemma bottom_cons b l lock : bottom_lock (b :: l) lock -> l <> [] -> bottom_lock l lock.
Proof. intros ([|c l'] & Hl) Hne; cbn in Hl; injection Hl as -> ->; [done|]. by exists l'. Qed.

Lemma grounded_cons B b l : grounded B (b :: l) -> l <> [] -> grounded B l.
Proof. intros (c & Hc & Hn) Hne. exists c. split; [by eapply bottom_cons|done]. Qed.

Lemma bottom_push b l lock : bottom_lock l lock -> bottom_lock (b :: l) lock.
Proof. intros (l' & ->). by exists (b :: l'). Qed.

Lemma grounded_push B b l : grounded B l -> grounded B (b :: l).
Proof. intros (c & Hc & Hn). exists c. split; [by apply bottom_push|done]. Qed.

Lemma grounded_single B b : nonzero B b -> grounded B [b].
Proof. intros Hb. exists b. split; [by exists []|done]. Qed.

(** The only level is the last one: nothing is left below it. *)
Lemma last_level B b l : nonzero B b -> levels B (b :: l) = 1 -> grounded B (b :: l) -> l = [].
Proof.
  intros Hb Hl Hg. destruct l as [|c l]; [done|]. rewrite levels_cons_nonzero in Hl by done.
  apply grounded_cons in Hg; [|done]. apply grounded_levels in Hg. lia.
Qed.

Lemma levels_length B l : levels B l <= Z.of_nat (length l).
Proof. induction l as [|b l IH]; cbn [levels length]; [lia|]. destruct (_ =? 0); lia. Qed.

(** Aligned addresses are fewer than a word can count. *)
Lemma addresses_bound l : NoDup l -> Forall aligned_address l -> Z.of_nat (length l) < 2 ^ 62.
Proof.
  intros Hnd Hal. pose (l' := (fun a => a / 8) <$> l).
  assert (Hl : Z.of_nat (length l') <= 2 ^ 61).
  { assert (Hsub : l' ⊆+ seqZ 0 (2 ^ 61)).
    { apply NoDup_submseteq.
      - unfold l'. apply NoDup_fmap_2_strong; [|done]. intros a b Ha Hb Hab.
        rewrite list.Forall_forall in Hal. destruct (Hal a Ha) as [? Ha8], (Hal b Hb) as [? Hb8].
        pose proof (Z.div_mod a 8). pose proof (Z.div_mod b 8). lia.
      - intros a Ha. unfold l' in Ha. apply list_elem_of_fmap in Ha. destruct Ha as (b & -> & Hb).
        rewrite list.Forall_forall in Hal. destruct (Hal b Hb) as [Hb1 _]. apply elem_of_seqZ.
        split; [apply Z.div_pos; lia|]. apply Z.div_lt_upper_bound; [lia|]. change (0 + 2 ^ 61) with (2 ^ 61).
        change (8 * 2 ^ 61) with (2 ^ 64). lia. }
    apply submseteq_length in Hsub. rewrite length_seqZ in Hsub. lia. }
  unfold l' in Hl. rewrite length_fmap in Hl. change (2 ^ 61) with 2305843009213693952 in Hl.
  change (2 ^ 62) with 4611686018427387904. lia.
Qed.

(* ------------------------------------------------------------------ *)
(** ** Counting the contenders *)

Lemma count_ext f g l : (forall t, t ∈ l -> contending (pc (g t)) = contending (pc (f t))) ->
  count_contending g l = count_contending f l.
Proof.
  induction l as [|t l IH]; intros H; [done|]. cbn [count_contending]. rewrite (H t) by left. rewrite IH; [done|].
  intros u Hu. apply H. by right.
Qed.

Lemma count_upd f l t ts : NoDup l -> t ∈ l ->
  count_contending (<[t := ts]> f) l =
  count_contending f l - Z.b2z (contending (pc (f t))) + Z.b2z (contending (pc ts)).
Proof.
  induction l as [|u l IH]; intros Hnd Hin; [by apply not_elem_of_nil in Hin|].
  apply list.NoDup_cons in Hnd as [Hu Hnd]. cbn [count_contending]. destruct (decide (u = t)) as [->|Hne].
  - rewrite fn_lookup_insert. rewrite (count_ext f); [lia|]. intros v Hv.
    rewrite fn_lookup_insert_ne; [done|]. intros ->. done.
  - rewrite fn_lookup_insert_ne by done. rewrite IH; [lia|done|]. by apply elem_of_cons in Hin as [-> | ?].
Qed.

Lemma contending_bound f l : 0 <= count_contending f l <= Z.of_nat (length l).
Proof. induction l as [|t l IH]; cbn [count_contending length]; [lia|]. destruct (contending _); cbn [Z.b2z]; lia. Qed.

Lemma count_zero f l t : count_contending f l = 0 -> t ∈ l -> contending (pc (f t)) = false.
Proof.
  induction l as [|u l IH]; intros H Ht; [by apply not_elem_of_nil in Ht|]. cbn [count_contending] in H.
  pose proof (contending_bound f l). revert H. apply elem_of_cons in Ht as [-> | Ht].
  - destruct (contending (pc (f u))); [cbn [Z.b2z]; lia|done].
  - intros H. apply IH; [|done]. revert H. destruct (contending (pc (f u))); cbn [Z.b2z]; lia.
Qed.

Lemma count_none f l : (forall t, t ∈ l -> contending (pc (f t)) = false) -> count_contending f l = 0.
Proof.
  induction l as [|t l IH]; intros H; [done|]. cbn [count_contending]. rewrite H by left. rewrite IH; [done|].
  intros u Hu. apply H. by right.
Qed.

(* ------------------------------------------------------------------ *)
(** ** Marks by phase *)

Context (Hthreads : threads_ok) (Hh0 : in_u 64 h0) (Hn0 : is_neutral h0 = true).

Lemma neutral_state v : is_neutral v = true -> state_of v = Neutral.
Proof. intros H. destruct (state_of_spec v) as (Hn & _). rewrite Hn in H. by apply bool_decide_eq_true in H. Qed.

Lemma state_bits v : is_neutral v = bool_decide (state_of v = Neutral) /\
  has_locker v = bool_decide (state_of v = StackLocked) /\
  has_monitor v = bool_decide (state_of v = Inflated \/ state_of v = Marked).
Proof. destruct (state_of_spec v) as (? & _ & ? & _ & ?). done. Qed.

Lemma copy_set_hash_ok v h : in_u 64 v -> is_neutral v = true -> hash_value h ->
  in_u 64 (copy_set_hash v h) /\ is_neutral (copy_set_hash v h) = true /\ hash (copy_set_hash v h) = h.
Proof.
  intros Hv Hn [Hh1 Hh2]. destruct (hash_ok v h Hv ltac:(lia)) as (H1 & H2 & _ & H4).
  split_and!; try done. destruct (state_bits (copy_set_hash v h)) as (-> & _). rewrite H4.
  by rewrite (neutral_state v).
Qed.

Lemma header_neutral hd : header_ok hd -> in_u 64 hd /\ is_neutral hd = true.
Proof using Hh0 Hn0.
  intros [-> | (_ & h & Hh & ->)]; [done|]. by destruct (copy_set_hash_ok h0 h Hh0 Hn0 Hh) as (? & ? & _).
Qed.

Lemma neutral_bits v : is_neutral v = true -> has_locker v = false /\ has_monitor v = false /\ v <> 0.
Proof.
  intros Hn. destruct (state_bits v) as (_ & -> & ->). rewrite (neutral_state v Hn). split_and!; try done.
  intros ->. done.
Qed.

Lemma lock_bits_of a : aligned_address a -> is_neutral a = false /\ has_locker a = true /\ has_monitor a = false /\
  displaced_mark_addr a = a.
Proof.
  intros [Ha H8]. destruct (lock_pointer_ok a H8) as (Hs & _ & Hd); [split; lia|].
  unfold encode_lock in Hs, Hd. destruct (state_bits a) as (-> & -> & ->). by rewrite Hs.
Qed.

Lemma monitor_bits a : aligned_address a -> is_neutral (encode_monitor a) = false /\
  has_locker (encode_monitor a) = false /\ has_monitor (encode_monitor a) = true /\ monitor (encode_monitor a) = a.
Proof.
  intros [Ha H8]. destruct (monitor_pointer_ok a H8) as (Hs & Hm & _); [split; lia|].
  destruct (state_bits (encode_monitor a)) as (-> & -> & ->). by rewrite Hs.
Qed.

Lemma zero_bits : is_neutral 0 = false /\ has_locker 0 = true /\ has_monitor 0 = false.
Proof. done. Qed.

(** What a thread learns from the mark. *)
Lemma mark_free s hd ph : header_ok hd -> state_ok s hd ph -> is_neutral (mark s) = true -> ph = Free /\ mark s = hd.
Proof.
  intros Hh Hs Hn. destruct ph as [|lock t infl|m o own recs]; [done| |].
  - destruct Hs as (_ & [Hb _] & _ & Hm). rewrite Hm in Hn. destruct infl; [done|].
    destruct (lock_bits_of lock Hb) as (Hn' & _). congruence.
  - destruct Hs as (Ha & Hm & _). rewrite Hm in Hn. destruct (monitor_bits m Ha) as (Hn' & _). congruence.
Qed.

Lemma mark_monitor s hd ph : header_ok hd -> state_ok s hd ph -> has_monitor (mark s) = true ->
  published ph = Some (monitor (mark s)).
Proof using Hh0 Hn0.
  intros Hh Hs Hn. destruct ph as [|lock t infl|m o own recs].
  - cbn in Hs. rewrite Hs in Hn. destruct (neutral_bits hd) as (_ & Hm & _); [by apply header_neutral|]. congruence.
  - destruct Hs as (_ & [Hb _] & _ & Hm). rewrite Hm in Hn. destruct infl; [done|].
    destruct (lock_bits_of lock Hb) as (_ & _ & Hn' & _). congruence.
  - destruct Hs as (Ha & Hm & _). rewrite Hm. destruct (monitor_bits m Ha) as (_ & _ & _ & ->). done.
Qed.

Lemma mark_locker s hd ph : header_ok hd -> state_ok s hd ph -> has_locker (mark s) = true ->
  exists lock t infl, ph = Thin lock t infl.
Proof using Hh0 Hn0.
  intros Hh Hs Hn. destruct ph as [|lock t infl|m o own recs]; [|by eauto|].
  - cbn in Hs. rewrite Hs in Hn. destruct (neutral_bits hd) as (Hm & _); [by apply header_neutral|]. congruence.
  - destruct Hs as (Ha & Hm & _). rewrite Hm in Hn. destruct (monitor_bits m Ha) as (_ & Hn' & _). congruence.
Qed.

Lemma mark_lock s hd lock t infl : state_ok s hd (Thin lock t infl) -> mark s <> 0 -> mark s = lock /\ infl = None.
Proof. intros (_ & _ & _ & Hm) Hne. destruct infl; [done|]. done. Qed.


(* ------------------------------------------------------------------ *)
(** ** What a step leaves alone for the other threads *)

Definition grows (hd hd' : Z) : Prop := hd' = hd \/ (hash hd = 0 /\ hash hd' <> 0).

Record compat (u hd : Z) (ph : Phase) (hd' : Z) (ph' : Phase) : Prop := {
  co_header : grows hd hd';
  co_published m : published ph = Some m -> published ph' = Some m;
  co_owner : owner_of ph' = Some u <-> owner_of ph = Some u;
  co_mon m own recs : ph = Mon m (Some u) own recs -> ph' = ph;
  co_infl lock v : ph = Thin lock v (Some u) -> ph' = ph /\ hd' = hd;
  co_recs : owner_of ph = Some u -> recs_of ph' = recs_of ph;
  co_thin lock v i : ph' = Thin lock v i -> owner_of ph = Some u -> exists i0, ph = Thin lock v i0
}.

Lemma grows_refl hd : grows hd hd.
Proof. by left. Qed.

Lemma compat_refl u hd ph : compat u hd ph hd ph.
Proof. split; eauto using grows_refl. Qed.

(** The hash is installed. *)
Lemma compat_hash u hd ph hd' : grows hd hd' -> (forall lock v i, ph <> Thin lock v i) -> compat u hd ph hd' ph.
Proof. intros Hg Hne. split; eauto. intros lock v ->. by destruct (Hne lock v (Some u)). Qed.

(** The monitor changes hands, or its owner changes its fields. *)
Lemma compat_mon u hd m o own recs o' own' recs' : o <> Some u -> o' <> Some u ->
  compat u hd (Mon m o own recs) hd (Mon m o' own' recs').
Proof. intros Ho Ho'. split; cbn; try done; try congruence. apply grows_refl. Qed.

Ltac solve_compat := split; cbn; try done; try congruence; try apply grows_refl; try (split; congruence); try naive_solver.

Lemma compat_lock u hd lock t : t <> u -> compat u hd Free hd (Thin lock t None).
Proof. intros Hne. solve_compat. Qed.

Lemma compat_unlock u hd lock t : t <> u -> compat u hd (Thin lock t None) hd Free.
Proof. intros Hne. solve_compat. Qed.

Lemma compat_start_inflation u hd lock v t : compat u hd (Thin lock v None) hd (Thin lock v (Some t)).
Proof. solve_compat. Qed.

Lemma compat_end_inflation u hd lock v t m : t <> u ->
  compat u hd (Thin lock v (Some t)) hd (Mon m (Some v) lock 0).
Proof. intros Hne. solve_compat. Qed.

Lemma compat_inflate_free u hd m : compat u hd Free hd (Mon m None 0 0).
Proof. solve_compat. Qed.

Lemma caller_ok_frame B B' k t :
  Forall (own_box t) (caller_held k ++ caller_entering k) -> (forall b, own_box t b -> B' !! b = B !! b) ->
  caller_ok B k -> caller_ok B' k.
Proof.
  intros Hb HB. destruct k as [b|b|]; cbn in *; try done; intros (d & Hd & Hne); exists d;
    (rewrite HB; [done|]); by apply list.Forall_cons in Hb as [? _].
Qed.

Lemma hold_frame u ph ph' B B' hd hd' ts : compat u hd ph hd' ph' -> (forall b, own_box u b -> B' !! b = B !! b) ->
  hold_ok ph B u ts -> hold_ok ph' B' u ts.
Proof.
  intros Hc HB (H1 & H2 & H3 & H4 & H5).
  assert (Hh : forall b, b ∈ held ts -> B' !! b = B !! b).
  { intros b Hb. apply HB. rewrite list.Forall_forall in H1. apply H1, elem_of_app. by right. }
  split_and!; [done|done| | |].
  - rewrite list.Forall_forall in H3 |- *. intros b Hb. rewrite Hh by done. by apply H3.
  - rewrite (co_owner _ _ _ _ _ Hc). intros Ho. destruct (H4 Ho) as (Hg & Hl & Hb). split_and!.
    + by apply (grounded_ext B).
    + rewrite (levels_ext B) by done. rewrite (co_recs _ _ _ _ _ Hc Ho). done.
    + intros lock v i Hph. destruct (co_thin _ _ _ _ _ Hc lock v i Hph Ho) as (i0 & Hi). eauto.
  - rewrite (co_owner _ _ _ _ _ Hc). done.
Qed.

Ltac own_of H := rewrite ?list.Forall_app, ?list.Forall_cons in H; tauto.

Lemma nonzero_frame t B B' b : own_box t b -> (forall c, own_box t c -> B' !! c = B !! c) -> nonzero B b -> nonzero B' b.
Proof. intros Hb HB (d & Hd & Hne). exists d. by rewrite HB. Qed.

Lemma pc_frame u ph ph' B B' M M' hd hd' ts : compat u hd ph hd' ph' ->
  Forall (own_box u) (entering (pc ts) ++ held ts) ->
  (forall b, own_box u b -> B' !! b = B !! b) ->
  (forall m, private (pc ts) = Some m -> M' !! m = M !! m) ->
  pc_ok hd ph B M u ts -> pc_ok hd' ph' B' M' u ts.
Proof.
  intros Hc Ho HB HM. pose proof (co_published _ _ _ _ _ Hc) as Hp. pose proof (co_owner _ _ _ _ _ Hc) as Hw.
  pose proof (co_mon _ _ _ _ _ Hc) as Hm. pose proof (co_infl _ _ _ _ _ Hc) as Hi.
  pose proof (co_header _ _ _ _ _ Hc) as Hg.
  assert (HK : forall k, Forall (own_box u) (caller_entering k ++ caller_held k) -> caller_ok B k -> caller_ok B' k).
  { intros k Hk. apply (caller_ok_frame B B' k u); [|done]. destruct k; cbn in *; done. }
  assert (HN : forall b, own_box u b -> nonzero B b -> nonzero B' b) by (intros b Hb; by apply (nonzero_frame u)).
  unfold held, pc_ok, private_locked, leaver_ok in *. rewrite (assoc_L (++)), list.Forall_app in Ho. destruct Ho as [Ho _].
  destruct (pc ts); cbn [entering extra private app] in *; intros H;
    try (rewrite list.Forall_cons in Ho; destruct Ho as [Ho _]); try done; destruct_and?.
  all: repeat match goal with Hx : exists _, _ |- _ => destruct Hx end; destruct_and?.
  all: try match goal with Hr : _ = Mon _ (Some _) _ _ |- _ => rewrite (Hm _ _ _ Hr) end.
  all: try match goal with Hr : _ = Thin _ _ (Some _) |- _ => destruct (Hi _ _ Hr) as [-> ->] end.
  all: try (rewrite HM by done). all: try (rewrite HB by done). all: try rewrite Hw.
  all: split_and?; eauto.
  - destruct Hg as [-> | [Hz Hz']]; [eexists; split; [done|tauto]|]. eexists. split; [done|]. left. intuition congruence.
  - destruct Hg as [-> | [Hz Hz']]; [tauto|by right].
Qed.

(* ------------------------------------------------------------------ *)
(** ** Steps that keep the invariant *)

(** Enough for a step of [t]: what it may write, and what it leaves to the others. *)
Lemma Inv_step s hd ph s' hd' ph' t ts' : Inv s hd ph -> t ∈ threads ->
  thr s' = <[t := ts']> (thr s) ->
  (forall b u, u ∈ threads -> u <> t -> own_box u b -> boxes s' !! b = boxes s !! b) ->
  (forall m u, u ∈ threads -> u <> t -> private (pc (thr s u)) = Some m -> monitors s' !! m = monitors s !! m) ->
  (forall m, private (pc ts') = Some m ->
     private (pc (thr s t)) = Some m \/ monitors s !! m = None) ->
  (forall m, published ph' = Some m -> published ph = Some m \/ private (pc (thr s t)) = Some m) ->
  (forall m, private (pc ts') = Some m -> published ph' <> Some m) ->
  (forall u, u ∈ threads -> u <> t -> compat u hd ph hd' ph') ->
  header_ok hd' -> state_ok s' hd' ph' -> hold_ok ph' (boxes s') t ts' ->
  pc_ok hd' ph' (boxes s') (monitors s') t ts' -> Inv s' hd' ph'.
Proof.
  intros HI Ht Hthr HB HM Hpr Hpub Hnp Hco Hh Hs Hhold Hpc.
  assert (Hother : forall u, u <> t -> thr s' u = thr s u).
  { intros u Hu. rewrite Hthr. by apply fn_lookup_insert_ne. }
  assert (Hself : thr s' t = ts') by (rewrite Hthr; apply fn_lookup_insert).
  assert (Hmem : forall u m, u ∈ threads -> private (pc (thr s u)) = Some m -> is_Some (monitors s !! m)).
  { intros u m Hu Hp. destruct (inv_thread _ _ _ HI u Hu) as [_ Hk]. unfold pc_ok in Hk.
    destruct (pc (thr s u)); cbn in Hp; try discriminate; injection Hp as ->; unfold private_locked in Hk; naive_solver. }
  assert (Hclash : forall u m, u ∈ threads -> u <> t -> private (pc ts') = Some m -> private (pc (thr s u)) = Some m -> False).
  { intros u m Hu Hne Hm Hum. destruct (Hpr m Hm) as [Hp|Hp].
    - apply Hne. by apply (inv_private _ _ _ HI u t m).
    - destruct (Hmem u m Hu Hum) as [x Hx]. congruence. }
  split; [done|done| | |].
  - intros u Hu. unfold thread_ok. destruct (decide (u = t)) as [->|Hne]; [by rewrite Hself|].
    rewrite Hother by done. destruct (inv_thread _ _ _ HI u Hu) as [Ho Hk]. split.
    + eapply (hold_frame u ph ph' (boxes s)); eauto.
    + eapply (pc_frame u ph ph' (boxes s) _ (monitors s)); eauto. apply Ho.
  - intros u v m Hu Hv. destruct (decide (u = t)) as [->|Hut], (decide (v = t)) as [->|Hvt]; [done| | |].
    + rewrite Hself, Hother by done. intros H1 H2. by destruct (Hclash v m).
    + rewrite Hself, Hother by done. intros H1 H2. by destruct (Hclash u m).
    + rewrite !Hother by done. by apply (inv_private _ _ _ HI).
  - intros u m Hu. destruct (decide (u = t)) as [->|Hut]; [rewrite Hself; apply Hnp|].
    rewrite Hother by done. intros Hm Hp. destruct (Hpub m Hp) as [Hp'|Hp'].
    + by apply (inv_published _ _ _ HI u m).
    + apply Hut. by apply (inv_private _ _ _ HI u t m).
Qed.

(** What a step returns. *)
Definition event_ok (e : option Z) (hd : Z) : Prop := forall h, e = Some h -> h = hash hd /\ h <> 0.
Definition step_to (hd : Z) (r : StepResult) : Prop :=
  exists s' e hd' ph', r = Some (s', e) /\ Inv s' hd' ph' /\ grows hd hd' /\ event_ok e hd'.

Lemma silent_to hd s' hd' ph' : Inv s' hd' ph' -> grows hd hd' -> step_to hd (silent s').
Proof. intros HI Hg. exists s', None, hd', ph'. split_and!; try done. Qed.

Lemma contenders_put s t p fs : t ∈ threads -> contenders (put s t p fs) =
  contenders s - Z.b2z (contending (pc (thr s t))) + Z.b2z (contending p).
Proof. intros Ht. unfold contenders, put. cbn [thr]. rewrite count_upd; [done|apply Hthreads|done]. Qed.

(** The state apart from the locals of the thread. *)
Lemma state_frame s s' hd ph : mark s' = mark s -> monitors s' = monitors s -> contenders s' = contenders s ->
  (forall lock t i, ph = Thin lock t i -> boxes s' !! lock = boxes s !! lock) ->
  state_ok s hd ph -> state_ok s' hd ph.
Proof.
  intros Hm HM Hc HB. destruct ph as [|lock u i|m o own recs]; cbn [state_ok]; rewrite ?Hm, ?HM, ?Hc; [done| |done].
  rewrite (HB lock u i) by done. done.
Qed.

(** A step that only moves the thread, with the same or with other records. *)
Lemma Inv_put s hd ph t p fs : Inv s hd ph -> t ∈ threads ->
  contending p = contending (pc (thr s t)) -> (forall m, private p = Some m -> private (pc (thr s t)) = Some m) ->
  hold_ok ph (boxes s) t {| pc := p; frames := fs |} ->
  pc_ok hd ph (boxes s) (monitors s) t {| pc := p; frames := fs |} -> Inv (put s t p fs) hd ph.
Proof.
  intros HI Ht Hc Hp Hh Hk.
  eapply (Inv_step s hd ph _ hd ph t); eauto; try done.
  - intros m Hm. apply (inv_published _ _ _ HI t m Ht). by apply Hp.
  - intros u _ _. apply compat_refl.
  - apply (inv_header _ _ _ HI).
  - apply (state_frame s); try done; [|apply (inv_state _ _ _ HI)]. rewrite contenders_put by done. rewrite Hc. lia.
Qed.

(** The records stay as they are. *)
Lemma hold_same ph B t ts p : extra p = extra (pc ts) -> entering p = entering (pc ts) -> hold_ok ph B t ts ->
  hold_ok ph B t {| pc := p; frames := frames ts |}.
Proof. intros He Hn Hh. unfold hold_ok, held in *. cbn [pc frames]. by rewrite He, Hn. Qed.

Lemma Inv_go s hd ph t p : Inv s hd ph -> t ∈ threads ->
  contending p = contending (pc (thr s t)) -> extra p = extra (pc (thr s t)) -> entering p = entering (pc (thr s t)) ->
  (forall m, private p = Some m -> private (pc (thr s t)) = Some m) ->
  pc_ok hd ph (boxes s) (monitors s) t {| pc := p; frames := frames (thr s t) |} -> Inv (go s t p) hd ph.
Proof.
  intros HI Ht Hc He Hn Hp Hk. apply Inv_put; try done. apply hold_same; try done. by apply (inv_thread _ _ _ HI).
Qed.

(** A record stops being used. *)
Lemma hold_drop ph B t ts p : extra p = extra (pc ts) -> entering p = [] -> hold_ok ph B t ts ->
  hold_ok ph B t {| pc := p; frames := frames ts |}.
Proof.
  intros He Hn (H1 & H2 & H3 & H4 & H5). unfold hold_ok, held in *. cbn [pc frames]. rewrite He, Hn. cbn [app].
  apply List.Forall_app in H1 as [_ H1]. apply list.NoDup_app in H2 as (_ & _ & H2). done.
Qed.

Ltac facts HI Ht Hpc Ho Hk :=
  pose proof (inv_thread _ _ _ HI _ Ht) as [Ho Hk]; unfold pc_ok in Hk; rewrite Hpc in Hk; cbn beta iota in Hk.
Ltac stay := eapply silent_to; [|apply grows_refl].
Ltac by_pc Hpc := rewrite ?Hpc; cbn; try done.

Lemma held_idle s t : extra (pc (thr s t)) = [] -> held (thr s t) = frames (thr s t).
Proof. intros H. unfold held. by rewrite H. Qed.

(** ** Calls *)

Lemma step_call s hd ph t c : Inv s hd ph -> t ∈ threads -> pc (thr s t) = Idle -> valid_choice thread s t c ->
  step_to hd (call_step s t c).
Proof.
  intros HI Ht Hpc Hv. facts HI Ht Hpc Ho Hk. unfold valid_choice in Hv. rewrite Hpc in Hv. unfold call_step.
  pose proof Ho as (H1 & H2 & H3 & H4 & H5). rewrite Hpc in H1, H2. cbn [entering app] in H1, H2.
  destruct (call c) as [lock| |].
  - destruct Hv as (Ha & Hl & Hn). stay. apply Inv_put; try done; [by rewrite Hpc|].
    unfold hold_ok, held in *. rewrite Hpc in *. cbn [pc frames entering extra app] in *. split_and!; try done.
    + constructor; done.
    + by constructor.
  - destruct (frames (thr s t)) as [|lock fs] eqn:Hf; [done|]. stay. apply Inv_put; try done; [by rewrite Hpc|].
    unfold hold_ok, held in *. rewrite Hpc, Hf in *. done.
  - stay. apply Inv_go; by_pc Hpc.
Qed.

(** ** Reading the fields of the published monitor *)

Lemma monitor_at s hd ph m : Inv s hd ph -> published ph = Some m ->
  exists o own recs oit, ph = Mon m o own recs /\ aligned_address m /\ owner_ok o own recs oit /\
    mark s = encode_monitor m /\
    monitors s !! m = Some {| _header := hd; _owner := own; _recursions := recs; _count := contenders s; OwnerIsThread := oit |}.
Proof.
  intros HI Hp. destruct ph as [| |m' o own recs]; try done. injection Hp as ->.
  destruct (inv_state _ _ _ HI) as (Ha & Hm & oit & HM & Ho). exists o, own, recs, oit. done.
Qed.

(** Who an owner field stands for. *)
Lemma owner_null o own recs oit : owner_ok o own recs oit -> own = 0 -> o = None /\ recs = 0 /\ oit = 1.
Proof.
  intros Ho ->. destruct o as [t|]; [|by destruct Ho as (_ & -> & ->)].
  destruct Ho as (Ht & [[<- _]|[H _]]).
  - destruct (th_addr Hthreads 0 Ht) as [? _]. lia.
  - pose proof (th_null Hthreads t Ht). congruence.
Qed.

Lemma owner_self_thread o t recs oit : t ∈ threads -> owner_ok o t recs oit -> o = Some t /\ oit = 1.
Proof.
  intros Ht Ho. pose proof (th_addr Hthreads t Ht) as [Hp _]. destruct o as [u|]; [|destruct Ho as (-> & _); lia].
  destruct Ho as (Hu & [[-> ->]|[H _]]); [done|]. pose proof (th_outside Hthreads u t Hu Ht). congruence.
Qed.

Lemma owner_self_lock o own t recs oit : t ∈ threads -> owner_ok o own recs oit -> is_lock_owned thread t own = true ->
  o = Some t /\ recs = 0 /\ oit = 0.
Proof.
  intros Ht Ho Hl. destruct o as [u|].
  - destruct Ho as (Hu & [[-> ->]|(H & -> & ->)]); [pose proof (th_outside Hthreads t u Ht Hu); congruence|].
    by rewrite (th_disjoint Hthreads t u own Ht Hu Hl H).
  - destruct Ho as (-> & _). pose proof (th_null Hthreads t Ht). congruence.
Qed.

Lemma owner_is t o own recs oit : o = Some t -> owner_ok o own recs oit -> own = t /\ oit = 1 \/
  own <> t /\ is_lock_owned thread t own = true /\ recs = 0 /\ oit = 0.
Proof.
  intros -> (Ht & [[-> ->]|(H & -> & ->)]); [by left|right]. split_and!; try done.
  intros ->. pose proof (th_outside Hthreads t t Ht Ht). congruence.
Qed.

(** ** Entering *)

Lemma box_other t u lock b : t ∈ threads -> u ∈ threads -> u <> t -> own_box t lock -> own_box u b -> lock <> b.
Proof. intros Ht Hu Hne [_ H1] [_ H2] ->. apply Hne. by apply (th_disjoint Hthreads u t b). Qed.

(** The record of a stack lock is the first one its owner entered. *)
Lemma thin_held s hd lock u i : Inv s hd (Thin lock u i) -> bottom_lock (held (thr s u)) lock /\ u ∈ threads.
Proof.
  intros HI. destruct (inv_state _ _ _ HI) as (Hu & _). split; [|done].
  destruct (inv_thread _ _ _ HI u Hu) as [(_ & _ & _ & H4 & _) _]. destruct (H4 eq_refl) as (_ & _ & Hb). by eapply Hb.
Qed.

Lemma held_not_entering ph B t ts lock : hold_ok ph B t ts -> entering (pc ts) = [lock] -> lock ∉ held ts.
Proof. intros (_ & H2 & _) He. rewrite He in H2. cbn [app] in H2. by apply list.NoDup_cons in H2 as [? _]. Qed.

Lemma entering_own ph B t ts lock : hold_ok ph B t ts -> entering (pc ts) = [lock] -> own_box t lock.
Proof. intros (H1 & _) He. rewrite He in H1. cbn [app] in H1. by apply list.Forall_cons in H1 as [? _]. Qed.

Lemma Inv_write_box s hd ph t lock v p fs : Inv s hd ph -> t ∈ threads -> entering (pc (thr s t)) = [lock] ->
  contending p = contending (pc (thr s t)) -> private p = None ->
  hold_ok ph (<[lock := v]> (boxes s)) t {| pc := p; frames := fs |} ->
  pc_ok hd ph (<[lock := v]> (boxes s)) (monitors s) t {| pc := p; frames := fs |} ->
  Inv (put (set_displaced_header s lock v) t p fs) hd ph.
Proof.
  intros HI Ht He Hc Hp Hh Hk. pose proof (inv_thread _ _ _ HI t Ht) as [Ho _].
  pose proof (entering_own _ _ _ _ _ Ho He) as Hown. pose proof (held_not_entering _ _ _ _ _ Ho He) as Hnin.
  eapply (Inv_step s hd ph _ hd ph t); eauto; try done; cbn [put set_displaced_header boxes monitors thr].
  - intros b u Hu Hne Hb. apply lookup_insert_ne. by apply (box_other t u).
  - cbn [pc]. rewrite Hp. done.
  - cbn [pc]. rewrite Hp. done.
  - intros u _ _. apply compat_refl.
  - apply (inv_header _ _ _ HI).
  - apply (state_frame s); cbn [put set_displaced_header boxes monitors mark thr]; try done; [| |apply (inv_state _ _ _ HI)].
    + rewrite contenders_put by done. change (contenders (set_displaced_header s lock v)) with (contenders s).
      cbn [set_displaced_header thr]. rewrite Hc. lia.
    + intros b u i ->. apply lookup_insert_ne. destruct (thin_held s hd b u i HI) as [(l' & Hl) Hu].
      destruct (decide (u = t)) as [->|Hne].
      * intros ->. apply Hnin. rewrite Hl. set_solver.
      * destruct (inv_state _ _ _ HI) as (_ & Hb & _). by apply (box_other t u).
Qed.

Lemma hold_write ph B t ts lock v p : hold_ok ph B t ts -> entering (pc ts) = [lock] -> entering p = [lock] ->
  extra p = extra (pc ts) -> hold_ok ph (<[lock := v]> B) t {| pc := p; frames := frames ts |}.
Proof.
  intros Ho He Hep Hx. pose proof (held_not_entering _ _ _ _ _ Ho He) as Hnin.
  assert (Hsame : forall b, b ∈ held ts -> <[lock := v]> B !! b = B !! b).
  { intros b Hb. apply lookup_insert_ne. intros ->. done. }
  destruct Ho as (H1 & H2 & H3 & H4 & H5). unfold hold_ok. cbn [pc]. rewrite Hep.
  assert (Hheld : held {| pc := p; frames := frames ts |} = held ts) by (unfold held; cbn; by rewrite Hx).
  rewrite Hheld, <- He. split_and!; try done.
  - rewrite list.Forall_forall in H3 |- *. intros b Hb. rewrite Hsame by done. by apply H3.
  - intros Hw. destruct (H4 Hw) as (Hg & Hl & Hb). split_and!; [by eapply grounded_ext|by rewrite (levels_ext B)|done].
Qed.

(** A recursive enter of a stack lock. *)
Lemma hold_enter_zero ph B t ts lock : hold_ok ph B t ts -> entering (pc ts) = [lock] -> extra (pc ts) = [] ->
  owner_of ph = Some t -> hold_ok ph (<[lock := 0]> B) t {| pc := Idle; frames := lock :: frames ts |}.
Proof.
  intros Ho He Hx Hw. pose proof (held_not_entering _ _ _ _ _ Ho He) as Hnin.
  destruct Ho as (H1 & H2 & H3 & H4 & H5). unfold hold_ok, held in *. rewrite Hx, He in *. cbn [pc frames extra entering app] in *.
  assert (Hsame : forall b, b ∈ frames ts -> <[lock := 0]> B !! b = B !! b).
  { intros b Hb. apply lookup_insert_ne. intros ->. done. }
  split_and!; try done.
  - constructor; [rewrite lookup_insert_eq; by eexists|]. rewrite list.Forall_forall in H3 |- *. intros b Hb.
    rewrite Hsame by done. by apply H3.
  - intros _. destruct (H4 Hw) as (Hg & Hl & Hb). split_and!.
    + apply grounded_push. by eapply grounded_ext.
    + rewrite levels_cons_zero by apply lookup_insert_eq. by rewrite (levels_ext B).
    + intros b u i Hph. apply bottom_push. by eapply Hb.
Qed.

Lemma nonzero_insert B lock v : v <> 0 -> nonzero (<[lock := v]> B) lock.
Proof. intros Hv. exists v. by rewrite lookup_insert_eq. Qed.

Lemma go_box s t lock v p : go (set_displaced_header s lock v) t p = put (set_displaced_header s lock v) t p (frames (thr s t)).
Proof. done. Qed.

Lemma step_slow_enter s hd ph t lock : Inv s hd ph -> t ∈ threads -> pc (thr s t) = EnterRead lock ->
  step_to hd (slow_enter_step thread s t lock).
Proof.
  intros HI Ht Hpc. facts HI Ht Hpc Ho Hk. unfold slow_enter_step.
  assert (He : entering (pc (thr s t)) = [lock]) by by rewrite Hpc.
  pose proof (inv_header _ _ _ HI) as Hh. pose proof (inv_state _ _ _ HI) as Hs.
  destruct (is_neutral (mark s)) eqn:Hn; [|destruct (has_locker (mark s) && is_lock_owned thread t (locker (mark s))) eqn:Hl].
  - stay. rewrite go_box. apply Inv_write_box; try done; [by rewrite Hpc| |].
    + apply hold_write; try done. by rewrite Hpc.
    + cbn [pc_ok pc]. by rewrite lookup_insert_eq.
  - apply andb_true_iff in Hl as [Hl Hw]. unfold locker in Hw.
    destruct (mark_locker s hd ph Hh Hs Hl) as (b & u & i & ->).
    assert (Hne : mark s <> 0) by (intros Hz; rewrite Hz in Hw; pose proof (th_null Hthreads t Ht); congruence).
    destruct (mark_lock s hd b u i Hs Hne) as [Hm ->]. rewrite Hm in Hw.
    assert (u = t) as ->. { destruct Hs as (Hu & [_ Hb] & _). by apply (th_disjoint Hthreads u t b). }
    stay. unfold entered. apply Inv_write_box; try done; [by rewrite Hpc|].
    apply (hold_enter_zero _ _ _ (thr s t)); try done. by rewrite Hpc.
  - stay. rewrite go_box. apply Inv_write_box; try done; [by rewrite Hpc| |].
    + apply hold_write; try done. by rewrite Hpc.
    + cbn [pc_ok pc caller_ok]. by apply nonzero_insert.
Qed.

Lemma held_nil s hd ph t : Inv s hd ph -> t ∈ threads -> owner_of ph <> Some t -> held (thr s t) = [].
Proof. intros HI Ht Hw. destruct (inv_thread _ _ _ HI t Ht) as [(_ & _ & _ & _ & H5) _]. by apply H5. Qed.

Lemma frames_nil s hd ph t : Inv s hd ph -> t ∈ threads -> owner_of ph <> Some t -> frames (thr s t) = [].
Proof. intros HI Ht Hw. pose proof (held_nil s hd ph t HI Ht Hw) as H. unfold held in H. by apply app_eq_nil in H as [_ H]. Qed.

(** The record a thread is entering becomes its only one. *)
Lemma hold_first ph ph' B t ts lock p fs : hold_ok ph B t ts -> entering (pc ts) = [lock] -> held ts = [] ->
  entering p = [] -> extra p ++ fs = [lock] -> nonzero B lock -> owner_of ph' = Some t -> recs_of ph' = 0 ->
  (forall b u i, ph' = Thin b u i -> b = lock) -> hold_ok ph' B t {| pc := p; frames := fs |}.
Proof.
  intros Ho He Hnil Hp Hx Hn Hw Hr Hb. pose proof (entering_own _ _ _ _ _ Ho He) as Hown.
  unfold hold_ok, held. cbn [pc frames]. rewrite Hp, Hx. cbn [app]. split_and!.
  - by constructor.
  - apply NoDup_singleton.
  - constructor; [|done]. destruct Hn as (d & Hd & _). by eexists.
  - intros _. split_and!; [by apply grounded_single|rewrite levels_cons_nonzero by done; cbn [levels]; lia|].
    intros b u i Hph. rewrite (Hb b u i Hph). by exists [].
  - intros H. done.
Qed.

Lemma step_enter_cas s hd ph t lock mk : Inv s hd ph -> t ∈ threads -> pc (thr s t) = EnterCas lock mk ->
  step_to hd (enter_cas_step s t lock mk).
Proof.
  intros HI Ht Hpc. facts HI Ht Hpc Ho Hk. destruct Hk as [Hb Hn]. unfold enter_cas_step.
  assert (He : entering (pc (thr s t)) = [lock]) by by rewrite Hpc.
  pose proof (inv_header _ _ _ HI) as Hh. pose proof (inv_state _ _ _ HI) as Hs.
  destruct (Z.eqb_spec (mark s) mk) as [Hm|Hm].
  - rewrite <- Hm in Hn. destruct (mark_free s hd ph Hh Hs Hn) as [-> Hhd].
    assert (Hfr : frames (thr s t) = []) by (eapply frames_nil; [done|done|cbn; congruence]).
    stay. unfold entered. cbn [set_mark thr].
    eapply (Inv_step s hd Free _ hd (Thin lock t None) t); eauto; try done; cbn [put set_mark thr pc private].
    + intros u Hu Hne. by apply compat_lock.
    + cbn [state_ok put set_mark mark boxes]. split_and!; try done; [by eapply entering_own|]. congruence.
    + apply (hold_first Free (Thin lock t None) (boxes s) t (thr s t) lock); try done.
      * by eapply held_nil.
      * cbn [extra app]. by rewrite Hfr.
      * exists mk. split; [done|]. rewrite <- Hm. by destruct (neutral_bits (mark s)) as (_ & _ & ?).
      * intros b u i [=]. done.
  - stay. rewrite go_box. apply Inv_write_box; try done; [by rewrite Hpc| |].
    + apply hold_write; try done. by rewrite Hpc.
    + cbn [pc_ok pc caller_ok]. by apply nonzero_insert.
Qed.

(** ** Inflation *)

(** A thread changes a monitor that is its own, or new. *)
Lemma Inv_own_monitor s s1 hd ph t m p : Inv s hd ph -> t ∈ threads ->
  mark s1 = mark s -> boxes s1 = boxes s -> thr s1 = thr s ->
  (forall m', m' <> m -> monitors s1 !! m' = monitors s !! m') ->
  private (pc (thr s t)) = Some m \/ monitors s !! m = None -> private p = None \/ private p = Some m ->
  contending p = contending (pc (thr s t)) -> extra p = extra (pc (thr s t)) -> entering p = entering (pc (thr s t)) ->
  pc_ok hd ph (boxes s) (monitors s1) t {| pc := p; frames := frames (thr s t) |} ->
  Inv (go s1 t p) hd ph.
Proof.
  intros HI Ht Hmk HB Hthr HM Hpm Hp Hc Hx He Hk.
  assert (Hpub : published ph <> Some m).
  { destruct Hpm as [Hpm|Hpm]; [by apply (inv_published _ _ _ HI t)|]. intros Hpp.
    destruct (monitor_at s hd ph m HI Hpp) as (? & ? & ? & ? & _ & _ & _ & _ & HMm). congruence. }
  eapply (Inv_step s hd ph _ hd ph t {| pc := p; frames := frames (thr s t) |}); eauto; cbn [go put boxes monitors mark thr pc]; try done.
  - unfold go, put. rewrite Hthr. done.
  - by rewrite HB.
  - intros m' u Hu Hne Hpu. apply HM. intros ->. destruct Hpm as [Hpm|Hpm].
    + apply Hne. by apply (inv_private _ _ _ HI u t m).
    + destruct (inv_thread _ _ _ HI u Hu) as [_ Hku]. unfold pc_ok in Hku.
      destruct (pc (thr s u)); cbn in Hpu; try discriminate; injection Hpu as ->; unfold private_locked in Hku; naive_solver.
  - intros m' Hm'. destruct Hp as [Hp|Hp]; rewrite Hp in Hm'; [done|]. injection Hm' as <-. done.
  - intros m' Hm'. destruct Hp as [Hp|Hp]; rewrite Hp in Hm'; [done|]. by injection Hm' as <-.
  - intros u _ _. apply compat_refl.
  - apply (inv_header _ _ _ HI).
  - pose proof (inv_state _ _ _ HI) as Hs.
    assert (Hcc : contenders (go s1 t p) = contenders s).
    { unfold go. rewrite contenders_put by done. unfold contenders. rewrite !Hthr, Hc. lia. }
    destruct ph as [|lock u i|m' o own recs]; cbn [state_ok go put mark boxes monitors] in *; rewrite ?Hmk, ?HB; [done|done|].
    fold (go s1 t p). rewrite Hcc, HM; [done|]. intros ->. done.
  - rewrite HB. apply hold_same; try done. by apply (inv_thread _ _ _ HI).
  - by rewrite HB.
Qed.

Lemma pc_inflated hd ph B M t k m fs : caller_ok B k -> published ph = Some m ->
  hold_ok ph B t {| pc := with_monitor k m; frames := fs |} ->
  pc_ok hd ph B M t {| pc := with_monitor k m; frames := fs |}.
Proof.
  intros Hk Hp Ho. destruct k as [lock|lock|]; cbn [with_monitor pc_ok pc frames caller_ok leaver_ok] in *; try done.
  split_and!; try done. destruct Ho as (_ & _ & _ & _ & H5). unfold held in H5. cbn in H5.
  destruct (decide (owner_of ph = Some t)) as [->|Hne]; [done|]. by specialize (H5 Hne).
Qed.

Lemma with_monitor_pc k m : extra (with_monitor k m) = caller_held k /\ entering (with_monitor k m) = caller_entering k /\
  contending (with_monitor k m) = false /\ private (with_monitor k m) = None.
Proof. by destruct k. Qed.

Lemma step_inflate_read s hd ph t k c : Inv s hd ph -> t ∈ threads -> pc (thr s t) = InflRead k ->
  valid_choice thread s t c -> step_to hd (inflate_read_step s t k c).
Proof.
  intros HI Ht Hpc Hv. facts HI Ht Hpc Ho Hk. unfold inflate_read_step.
  unfold valid_choice in Hv. rewrite Hpc in Hv.
  pose proof (inv_header _ _ _ HI) as Hh. pose proof (inv_state _ _ _ HI) as Hs.
  destruct (with_monitor_pc k (monitor (mark s))) as (W1 & W2 & W3 & W4).
  destruct (has_monitor (mark s)) eqn:Hm.
  { pose proof (mark_monitor s hd ph Hh Hs Hm) as Hp. stay. apply Inv_go; try done; rewrite ?Hpc; try done.
    - by rewrite W4.
    - apply pc_inflated; try done. apply hold_same; try done; by rewrite Hpc. }
  destruct (Z.eqb_spec (mark s) INFLATING) as [Hz|Hz].
  { stay. apply Inv_go; try done; rewrite ?Hpc; done. }
  destruct (Hv eq_refl Hz) as [Ha Hf]. destruct (has_locker (mark s)) eqn:Hl.
  - stay. eapply (Inv_own_monitor s _ hd ph t (fresh c)); try done; rewrite ?Hpc; try done.
    + intros m' Hne. cbn. by apply lookup_insert_ne.
    + by right.
    + by right.
    + cbn. split_and!; try done. unfold private_locked. rewrite lookup_insert_eq. split; [done|]. by eexists.
  - assert (Hn : is_neutral (mark s) = true).
    { destruct ph as [|lock u i|m o own recs].
      - cbn in Hs. rewrite Hs. by apply header_neutral.
      - destruct Hs as (_ & [Hb _] & _ & Hmk). rewrite Hmk in Hl. destruct i; [done|].
        destruct (lock_bits_of lock Hb) as (_ & ? & _). congruence.
      - destruct Hs as (Hm1 & Hm2 & _). rewrite Hm2 in Hm. destruct (monitor_bits m Hm1) as (_ & _ & ? & _). congruence. }
    stay. eapply (Inv_own_monitor s _ hd ph t (fresh c)); try done; rewrite ?Hpc; try done.
    + intros m' Hne. cbn. by apply lookup_insert_ne.
    + by right.
    + by right.
    + cbn. by rewrite lookup_insert_eq.
Qed.

(** The owner and its levels are the same in another phase. *)
Lemma hold_phase ph ph' B t ts : owner_of ph' = owner_of ph -> recs_of ph' = recs_of ph ->
  (forall lock u i, ph' = Thin lock u i -> exists i0, ph = Thin lock u i0) -> hold_ok ph B t ts -> hold_ok ph' B t ts.
Proof.
  intros Hw Hr Hb (H1 & H2 & H3 & H4 & H5). unfold hold_ok. rewrite Hw, Hr. split_and!; try done.
  intros Ho. destruct (H4 Ho) as (Hg & Hl & Hbt). split_and!; try done. intros lock u i Hp.
  destruct (Hb lock u i Hp) as (i0 & Hp0). by eapply Hbt.
Qed.

Lemma contenders_none s hd ph : Inv s hd ph -> published ph = None -> contenders s = 0.
Proof.
  intros HI Hp. apply count_none. intros t Ht. destruct (inv_thread _ _ _ HI t Ht) as [_ Hk]. unfold pc_ok in Hk.
  destruct (pc (thr s t)) as [| | | | | | | | | | | | | | | | | | | [] | [] | [] | [] | [] | [] | [] | | | | | |];
    cbn; try done; destruct_and?; try congruence;
    repeat match goal with Hx : exists _, _ |- _ => destruct Hx end; destruct_and?; subst; done.
Qed.

Lemma step_cas_locked s hd ph t k m mk : Inv s hd ph -> t ∈ threads -> pc (thr s t) = InflCasLocked k m mk ->
  step_to hd (inflate_cas_locked_step s t k m mk).
Proof.
  intros HI Ht Hpc. facts HI Ht Hpc Ho Hk. destruct Hk as (Hk & Hm & Hl & Hne). unfold inflate_cas_locked_step.
  pose proof (inv_header _ _ _ HI) as Hh. pose proof (inv_state _ _ _ HI) as Hs.
  destruct (Z.eqb_spec (mark s) mk) as [Hmk|Hmk].
  - subst mk. destruct (mark_locker s hd ph Hh Hs Hl) as (b & u & i & ->).
    destruct (mark_lock s hd b u i Hs Hne) as [Hb ->]. stay.
    eapply (Inv_step s hd _ _ hd (Thin b u (Some t)) t); eauto; try done; cbn [go put set_mark thr pc private boxes monitors].
    + intros m' [= <-]. left. by rewrite Hpc.
    + intros v _ _. apply compat_start_inflation.
    + cbn [state_ok go put set_mark mark boxes]. by destruct Hs as (? & ? & ? & _).
    + apply (hold_phase (Thin b u None)); try done; [intros lock v i [= <- <- <-]; eauto|].
      apply (hold_same _ _ _ (thr s t)); rewrite ?Hpc; done.
    + cbn [pc_ok pc]. rewrite <- Hb. split_and!; eauto.
  - stay. apply (Inv_own_monitor s _ hd ph t m); try done; rewrite ?Hpc; try done; [|by left|by left].
    intros m' Hm'. cbn. by apply lookup_delete_ne.
Qed.

Lemma step_dmw s hd ph t k m mk : Inv s hd ph -> t ∈ threads -> pc (thr s t) = InflDmw k m mk ->
  step_to hd (inflate_dmw_step s t k m mk).
Proof.
  intros HI Ht Hpc. facts HI Ht Hpc Ho Hk. destruct Hk as (Hk & (Ha & mon & Hm & Hr & Hoit) & u & ->).
  destruct (inv_state _ _ _ HI) as (Hu & [Hb Hbo] & HB & _). destruct (lock_bits_of mk Hb) as (_ & _ & _ & Hd).
  unfold inflate_dmw_step. rewrite Hd, HB. cbn [mbind option_bind]. rewrite Hm. cbn [mbind option_bind]. stay.
  apply (Inv_own_monitor s _ hd _ t m); try done; rewrite ?Hpc; try done; [|by left|by right|].
  - intros m' Hm'. cbn. by apply lookup_insert_ne.
  - cbn [pc_ok pc set_monitor monitors]. rewrite lookup_insert_eq. split_and!; try done; [by exists u|]. by eexists.
Qed.

Lemma step_owner s hd ph t k m mk : Inv s hd ph -> t ∈ threads -> pc (thr s t) = InflOwner k m mk ->
  step_to hd (inflate_owner_step s t k m mk).
Proof.
  intros HI Ht Hpc. facts HI Ht Hpc Ho Hk. destruct Hk as (Hk & Ha & [u ->] & mon & Hm & Hr & Hoit & Hhd).
  destruct (inv_state _ _ _ HI) as (Hu & _ & HB & Hmk).
  unfold inflate_owner_step. rewrite Hm. cbn [mbind option_bind set_monitor mark]. rewrite Hmk. cbn [guard_b]. stay.
  apply (Inv_own_monitor s _ hd _ t m); try done; rewrite ?Hpc; try done; [|by left|by right|].
  - intros m' Hm'. cbn. by apply lookup_insert_ne.
  - cbn [pc_ok pc set_monitor monitors]. rewrite lookup_insert_eq. split_and!; try done; [by exists u|].
    unfold set_owner, store_count, store_recursions, store_owner, locker. cbn. by rewrite Hhd, Hoit.
Qed.

Lemma step_publish s hd ph t k m mk : Inv s hd ph -> t ∈ threads -> pc (thr s t) = InflPublish k m mk ->
  step_to hd (inflate_publish_step s t k m).
Proof.
  intros HI Ht Hpc. facts HI Ht Hpc Ho Hk. destruct Hk as (Hk & Ha & [u ->] & Hm).
  destruct (inv_state _ _ _ HI) as (Hu & [Hb Hbo] & HB & Hmk). destruct (with_monitor_pc k m) as (W1 & W2 & W3 & W4).
  unfold inflate_publish_step. stay.
  assert (Hpriv : private (pc (thr s t)) = Some m) by by rewrite Hpc.
  assert (Hhold : hold_ok (Mon m (Some u) mk 0) (boxes s) t {| pc := with_monitor k m; frames := frames (thr s t) |}).
  { apply (hold_phase (Thin mk u (Some t))); try done. apply (hold_same _ _ _ (thr s t)); rewrite ?Hpc; done. }
  eapply (Inv_step s hd _ _ hd (Mon m (Some u) mk 0) t); eauto; try done;
    cbn [inflated go put set_mark set_monitor thr pc boxes monitors].
  - rewrite W4. done.
  - intros m' [= <-]. by right.
  - rewrite W4. done.
  - intros v _ Hne. apply compat_end_inflation. done.
  - apply (inv_header _ _ _ HI).
  - split; [done|]. split; [done|]. exists 0. split; [|cbn; eauto]. cbn [inflated go put set_mark set_monitor monitors].
    rewrite Hm. unfold inflated, go. rewrite contenders_put by done. cbn [set_mark set_monitor thr].
    change (contenders (set_mark _ _)) with (contenders s). rewrite (contenders_none s hd _ HI) by done. by rewrite Hpc, W3.
  - by apply pc_inflated.
Qed.

Lemma step_cas_neutral s hd ph t k m mk : Inv s hd ph -> t ∈ threads -> pc (thr s t) = InflCasNeutral k m mk ->
  step_to hd (inflate_cas_neutral_step s t k m mk).
Proof.
  intros HI Ht Hpc. facts HI Ht Hpc Ho Hk. destruct Hk as (Hk & Ha & Hn & Hm). unfold inflate_cas_neutral_step.
  pose proof (inv_header _ _ _ HI) as Hh. pose proof (inv_state _ _ _ HI) as Hs.
  destruct (with_monitor_pc k m) as (W1 & W2 & W3 & W4).
  assert (Hpriv : private (pc (thr s t)) = Some m) by by rewrite Hpc.
  destruct (Z.eqb_spec (mark s) mk) as [Hmk|Hmk].
  - subst mk. destruct (mark_free s hd ph Hh Hs Hn) as [-> Hhd]. stay.
    assert (Hhold : hold_ok (Mon m None 0 0) (boxes s) t {| pc := with_monitor k m; frames := frames (thr s t) |}).
    { apply (hold_phase Free); try done. apply (hold_same _ _ _ (thr s t)); rewrite ?Hpc; done. }
    eapply (Inv_step s hd _ _ hd (Mon m None 0 0) t); eauto; try done; cbn [inflated go put set_mark thr pc boxes monitors].
    + rewrite W4. done.
    + intros m' [= <-]. by right.
    + rewrite W4. done.
    + intros v _ _. apply compat_inflate_free.
    + split; [done|]. split; [done|]. exists 1. split; [|done]. cbn [inflated go put set_mark monitors]. rewrite Hm, Hhd.
      unfold inflated, go. rewrite contenders_put by done. cbn [set_mark thr].
      change (contenders (set_mark _ _)) with (contenders s). rewrite (contenders_none s hd _ HI) by done. by rewrite Hpc, W3.
    + by apply pc_inflated.
  - stay. apply (Inv_own_monitor s _ hd ph t m); try done; rewrite ?Hpc; try done; [|by left|by left].
    intros m' Hm'. cbn. by apply lookup_delete_ne.
Qed.

(** ** Leaving *)

(** A thread that holds a record is the owner. *)
Lemma held_owner ph B t ts lock fs : hold_ok ph B t ts -> held ts = lock :: fs ->
  owner_of ph = Some t /\ grounded B (lock :: fs) /\ levels B (lock :: fs) = 1 + recs_of ph /\
  own_box t lock /\ (forall b u i, ph = Thin b u i -> bottom_lock (lock :: fs) b) /\ is_Some (B !! lock).
Proof.
  intros (H1 & H2 & H3 & H4 & H5) Hh. rewrite Hh in *.
  destruct (decide (owner_of ph = Some t)) as [Hw|Hw]; [|by specialize (H5 Hw)].
  destruct (H4 Hw) as (Hg & Hl & Hb). split_and!; try done.
  - apply List.Forall_app in H1 as [_ H1]. by apply list.Forall_cons in H1 as [? _].
  - by apply list.Forall_cons in H3 as [? _].
Qed.

(** The records below the last one. *)
Lemma hold_pop ph ph' B t ts lock fs : hold_ok ph B t ts -> held ts = lock :: fs ->
  (owner_of ph' = Some t -> grounded B fs /\ levels B fs = 1 + recs_of ph' /\
     forall b u i, ph' = Thin b u i -> bottom_lock fs b) ->
  (owner_of ph' <> Some t -> fs = []) -> hold_ok ph' B t {| pc := Idle; frames := fs |}.
Proof.
  intros (H1 & H2 & H3 & _) Hh Hw Hn. rewrite Hh in *. unfold hold_ok, held. cbn [pc frames entering extra app].
  apply List.Forall_app in H1 as [_ H1]. apply list.Forall_cons in H1 as [_ H1].
  apply list.NoDup_app in H2 as (_ & _ & H2). apply list.NoDup_cons in H2 as [_ H2].
  apply list.Forall_cons in H3 as [_ H3]. done.
Qed.

Lemma grounded_zero B lock fs : grounded B (lock :: fs) -> B !! lock = Some 0 -> fs <> [].
Proof. intros (b & Hb & d & Hd & Hne) H0 ->. destruct Hb as ([|c l'] & Hl); cbn in Hl; [|by destruct l']. injection Hl as ->. congruence. Qed.

Lemma step_exit_read s hd ph t lock : Inv s hd ph -> t ∈ threads -> pc (thr s t) = ExitRead lock ->
  step_to hd (fast_exit_read_step s t lock).
Proof.
  intros HI Ht Hpc. facts HI Ht Hpc Ho Hk. unfold fast_exit_read_step.
  assert (Hh : held (thr s t) = lock :: frames (thr s t)) by (unfold held; by rewrite Hpc).
  destruct (held_owner _ _ _ _ _ _ Ho Hh) as (Hw & Hg & Hl & Hb & Hbt & d & Hd). rewrite Hd. cbn [mbind option_bind]. stay.
  destruct (Z.eqb_spec d 0) as [->|Hne].
  - apply Inv_put; try done; [by rewrite Hpc|]. pose proof (grounded_zero _ _ _ Hg Hd) as Hfs.
    eapply hold_pop; eauto; [|done]. intros _. split_and!; [by eapply grounded_cons|by rewrite levels_cons_zero in Hl|].
    intros b u i Hp. eapply bottom_cons; eauto.
  - apply Inv_go; try done; rewrite ?Hpc; try done.
Qed.

Lemma step_exit_mark s hd ph t lock dhw : Inv s hd ph -> t ∈ threads -> pc (thr s t) = ExitMark lock dhw ->
  step_to hd (fast_exit_mark_step s t lock dhw).
Proof.
  intros HI Ht Hpc. facts HI Ht Hpc Ho Hk. unfold fast_exit_mark_step. stay.
  destruct (mark s =? lock); apply Inv_go; try done; rewrite ?Hpc; try done. cbn. by exists dhw.
Qed.

Lemma step_exit_cas s hd ph t lock dhw : Inv s hd ph -> t ∈ threads -> pc (thr s t) = ExitCas lock dhw ->
  step_to hd (fast_exit_cas_step s t lock dhw).
Proof.
  intros HI Ht Hpc. facts HI Ht Hpc Ho Hk. destruct Hk as [Hd Hne]. unfold fast_exit_cas_step.
  pose proof (inv_header _ _ _ HI) as Hh. pose proof (inv_state _ _ _ HI) as Hs.
  assert (Hhe : held (thr s t) = lock :: frames (thr s t)) by (unfold held; by rewrite Hpc).
  destruct (held_owner _ _ _ _ _ _ Ho Hhe) as (Hw & Hg & Hl & Hb & Hbt & _).
  destruct (Z.eqb_spec (mark s) lock) as [Hm|Hm].
  - destruct (lock_bits_of lock) as (_ & Hlk & _); [apply Hb|].
    destruct (mark_locker s hd ph Hh Hs) as (b & u & i & ->); [by rewrite Hm|].
    assert (Hnz : mark s <> 0) by (rewrite Hm; destruct Hb as [[? _] _]; lia).
    destruct (mark_lock s hd b u i Hs Hnz) as [Hmb ->]. injection Hw as ->. assert (b = lock) as -> by congruence.
    assert (dhw = hd) as -> by (destruct Hs as (_ & _ & HB & _); congruence).
    assert (Hfs : frames (thr s t) = []). { apply (last_level (boxes s) lock); [by exists hd|done|done]. }
    stay. eapply (Inv_step s hd _ _ hd Free t); eauto; try done; cbn [go put set_mark thr pc boxes monitors].
    + intros v _ Hv. by apply compat_unlock.
    + rewrite Hfs in Hhe |- *. eapply hold_pop; eauto; done.
  - stay. apply Inv_go; try done; rewrite ?Hpc; try done. cbn. by exists dhw.
Qed.

(** ** Monitors *)

(** A thread changes the fields of the published monitor, apart from its header. *)
Lemma Inv_mon s hd m o own recs o' own' recs' oit' t p fs : Inv s hd (Mon m o own recs) -> t ∈ threads ->
  (forall u, u <> t -> compat u hd (Mon m o own recs) hd (Mon m o' own' recs')) ->
  owner_ok o' own' recs' oit' -> private (pc (thr s t)) = None -> private p = None ->
  hold_ok (Mon m o' own' recs') (boxes s) t {| pc := p; frames := fs |} ->
  (forall M, pc_ok hd (Mon m o' own' recs') (boxes s) M t {| pc := p; frames := fs |}) ->
  Inv (put (set_monitor s m {| _header := hd; _owner := own'; _recursions := recs';
        _count := contenders s - Z.b2z (contending (pc (thr s t))) + Z.b2z (contending p); OwnerIsThread := oit' |}) t p fs)
    hd (Mon m o' own' recs').
Proof.
  intros HI Ht Hco How Hp0 Hp Hh Hk.
  destruct (inv_state _ _ _ HI) as (Ha & Hmk & _).
  eapply (Inv_step s hd _ _ hd _ t {| pc := p; frames := fs |}); eauto; cbn [put set_monitor thr pc boxes monitors]; try done.
  - intros m' u Hu Hne Hpu. apply lookup_insert_ne. intros ->. by apply (inv_published _ _ _ HI u m' Hu Hpu).
  - rewrite Hp. done.
  - rewrite Hp. done.
  - apply (inv_header _ _ _ HI).
  - split; [done|]. split; [done|]. exists oit'. split; [|done]. cbn [put set_monitor monitors]. rewrite lookup_insert_eq.
    rewrite contenders_put by done. done.
Qed.

Lemma contenders_range s : 0 <= contenders s < 2 ^ 62.
Proof.
  pose proof (contending_bound (thr s) threads). unfold contenders.
  pose proof (addresses_bound threads (th_nodup Hthreads)) as H0. rewrite list.Forall_forall in H0.
  specialize (H0 (th_addr Hthreads)). lia.
Qed.

Lemma recursions_range ph B t ts : hold_ok ph B t ts -> owner_of ph = Some t -> recs_of ph < 2 ^ 62 - 1.
Proof.
  intros (H1 & H2 & _ & H4 & _) Hw. destruct (H4 Hw) as (_ & Hl & _). pose proof (levels_length B (held ts)).
  apply List.Forall_app in H1 as [_ H1]. apply list.NoDup_app in H2 as (_ & _ & H2).
  pose proof (addresses_bound (held ts) H2) as Hb. change (2 ^ 62) with 4611686018427387904 in *.
  assert (Forall aligned_address (held ts)) by (eapply List.Forall_impl; [|exact H1]; intros a Ha; apply Ha). 
  specialize (Hb ltac:(done)). lia.
Qed.

Lemma s64_small x : - 2 ^ 62 <= x <= 2 ^ 62 -> s64 x = x.
Proof. intros Hx. apply swrap_small; [lia|]. unfold in_s. change (64 - 1) with 63. lia. Qed.

Ltac at_monitor HI Hp o own recs oit Ha Hoo Hmk HM :=
  destruct (monitor_at _ _ _ _ HI Hp) as (o & own & recs & oit & -> & Ha & Hoo & Hmk & HM).

(** What the tests of the owner field find out. *)
Lemma owner_tests o own recs oit t : t ∈ threads -> owner_ok o own recs oit ->
  (own =? 0) = bool_decide (o = None) /\ (t =? own) || is_lock_owned thread t own = bool_decide (o = Some t).
Proof.
  intros Ht Ho. destruct (th_addr Hthreads t Ht) as [[Hp _] _]. destruct o as [u|].
  - pose proof (proj1 Ho) as Hu. destruct (th_addr Hthreads u Hu) as [[Hpu _] _].
    assert (Hne : own <> 0).
    { destruct (owner_is _ _ _ _ _ eq_refl Ho) as [[-> _]|(_ & Hl & _)]; [lia|]. intros ->. pose proof (th_null Hthreads u Hu). congruence. }
    split; [by apply Z.eqb_neq|]. destruct (decide (u = t)) as [->|Hut].
    + rewrite bool_decide_true by done.
      destruct (owner_is _ _ _ _ _ eq_refl Ho) as [[-> _]|(_ & -> & _)]; [by rewrite Z.eqb_refl|by rewrite orb_true_r].
    + rewrite bool_decide_false by congruence. destruct (owner_is _ _ _ _ _ eq_refl Ho) as [[-> _]|(_ & Hl & _)].
      * rewrite (proj2 (Z.eqb_neq t u)) by congruence. by apply (th_outside Hthreads).
      * destruct (is_lock_owned thread t own) eqn:Hlt; [by destruct Hut; apply (th_disjoint Hthreads u t own)|].
        rewrite orb_false_r. apply Z.eqb_neq. intros ->. pose proof (th_outside Hthreads u own Hu Ht). congruence.
  - destruct Ho as (-> & _). split; [done|]. rewrite (proj2 (Z.eqb_neq t 0)) by lia. by rewrite (th_null Hthreads t Ht).
Qed.

(** A free monitor is taken by [p], the first enter of its thread. *)
Lemma Inv_take s hd m own recs t lock p fs : Inv s hd (Mon m None own recs) -> t ∈ threads ->
  entering (pc (thr s t)) = [lock] -> private (pc (thr s t)) = None -> private p = None -> entering p = [] ->
  extra p ++ fs = [lock] -> nonzero (boxes s) lock ->
  (forall M, pc_ok hd (Mon m (Some t) t 0) (boxes s) M t {| pc := p; frames := fs |}) ->
  Inv (put (set_monitor s m {| _header := hd; _owner := t; _recursions := 0;
        _count := contenders s - Z.b2z (contending (pc (thr s t))) + Z.b2z (contending p); OwnerIsThread := 1 |}) t p fs)
    hd (Mon m (Some t) t 0).
Proof.
  intros HI Ht He Hp0 Hp Hpe Hx Hn Hk. pose proof (inv_thread _ _ _ HI t Ht) as [Ho _].
  eapply Inv_mon; eauto.
  - intros u Hu. apply compat_mon; congruence.
  - split; [done|]. by left.
  - eapply hold_first; eauto; try done. eapply held_nil; eauto.
Qed.

Lemma step_mon_enter s hd ph t lock m : Inv s hd ph -> t ∈ threads -> pc (thr s t) = MonEnter lock m ->
  step_to hd (enter_step thread s t lock m).
Proof.
  intros HI Ht Hpc. facts HI Ht Hpc Ho Hk. destruct Hk as [Hn Hp]. at_monitor HI Hp o own recs oit Ha Hoo Hmk HM.
  unfold enter_step. rewrite HM. cbn [mbind option_bind _owner].
  destruct (Z.eqb_spec own 0) as [->|H0]; [|destruct (Z.eqb_spec own t) as [->|Hne]; [|destruct (is_lock_owned thread t own) eqn:Hl]].
  - destruct (owner_null _ _ _ _ Hoo eq_refl) as (-> & -> & ->). stay.
    assert (Hfr : frames (thr s t) = []) by (eapply frames_nil; eauto; done).
    pose proof (Inv_take s hd m 0 0 t lock Idle [lock] HI Ht) as Hi. rewrite Hpc in Hi. cbn in Hi.
    rewrite Z.sub_0_r, Z.add_0_r in Hi. unfold entered. cbn [set_monitor thr]. rewrite Hfr. by apply Hi.
  - destruct (owner_self_thread _ _ _ _ Ht Hoo) as [-> ->]. stay. apply Inv_go; try done; rewrite ?Hpc; try done.
    cbn. split; [done|]. by exists recs.
  - destruct (owner_self_lock _ _ _ _ _ Ht Hoo Hl) as (-> & -> & ->). stay. apply Inv_go; try done; rewrite ?Hpc; try done.
    cbn. split; [done|]. by exists own.
  - stay. apply Inv_go; try done; rewrite ?Hpc; try done. cbn. split_and!; try done. intros ->.
    destruct (owner_is _ _ _ _ _ eq_refl Hoo) as [[-> _]|(_ & ? & _)]; congruence.
Qed.

(** One more enter of the owner. *)
Lemma hold_enter_nonzero ph ph' B t ts lock : hold_ok ph B t ts -> entering (pc ts) = [lock] -> extra (pc ts) = [] ->
  owner_of ph = Some t -> owner_of ph' = Some t -> recs_of ph' = recs_of ph + 1 ->
  (forall b u i, ph' <> Thin b u i) -> nonzero B lock ->
  hold_ok ph' B t {| pc := Idle; frames := lock :: frames ts |}.
Proof.
  intros (H1 & H2 & H3 & H4 & H5) He Hx Hw Hw' Hr Hnt Hn. unfold hold_ok, held in *. rewrite He, Hx in *.
  cbn [pc frames extra entering app] in *. split_and!; try done.
  - constructor; [|done]. destruct Hn as (d & Hd & _). by eexists.
  - intros _. destruct (H4 Hw) as (Hg & Hl & _). split_and!.
    + by apply grounded_push.
    + rewrite levels_cons_nonzero by done. lia.
    + intros b u i Hp. by destruct (Hnt b u i).
Qed.

Ltac mon_record := cbn; rewrite ?Z.sub_0_r, ?Z.add_0_r, ?Z.sub_simpl_r.

Lemma step_recurse s hd ph t lock m : Inv s hd ph -> t ∈ threads -> pc (thr s t) = MonRecurse lock m ->
  step_to hd (recurse_step s t lock m).
Proof.
  intros HI Ht Hpc. facts HI Ht Hpc Ho Hk. destruct Hk as [Hn (recs & ->)].
  destruct (inv_state _ _ _ HI) as (Ha & Hmk & oit & HM & Hoo). unfold recurse_step. rewrite HM. cbn [mbind option_bind]. stay.
  destruct (owner_self_thread _ _ _ _ Ht Hoo) as [_ ->].
  pose proof (recursions_range _ _ _ _ Ho eq_refl) as Hr. cbn [recs_of] in Hr.
  assert (Hr0 : 0 <= recs). { destruct Ho as (_ & _ & _ & H4 & _). destruct (H4 eq_refl) as (Hg & Hl & _). apply grounded_levels in Hg. cbn in Hl. lia. }
  pose proof (Inv_mon s hd m (Some t) t recs (Some t) t (recs + 1) 1 t Idle (lock :: frames (thr s t)) HI Ht) as Hi.
  rewrite Hpc in Hi. cbn in Hi. rewrite Z.sub_0_r, Z.add_0_r in Hi. unfold entered, store_recursions. cbn [_recursions _header _owner _count OwnerIsThread set_monitor thr].
  rewrite s64_small by lia. apply Hi; try done.
  - intros u Hu. apply compat_mon; congruence.
  - split; [done|by left].
  - eapply (hold_enter_nonzero _ _ _ _ _ _ Ho); try done; by rewrite Hpc.
Qed.

Lemma step_commute s hd ph t lock m : Inv s hd ph -> t ∈ threads -> pc (thr s t) = MonCommute lock m ->
  step_to hd (commute_step s t lock m).
Proof.
  intros HI Ht Hpc. facts HI Ht Hpc Ho Hk. destruct Hk as [Hn (own & ->)].
  destruct (inv_state _ _ _ HI) as (Ha & Hmk & oit & HM & Hoo). unfold commute_step. rewrite HM. cbn [mbind option_bind]. stay.
  pose proof (Inv_mon s hd m (Some t) own 0 (Some t) t 1 1 t Idle (lock :: frames (thr s t)) HI Ht) as Hi.
  rewrite Hpc in Hi. cbn in Hi. rewrite Z.sub_0_r, Z.add_0_r in Hi. apply Hi; try done.
  - intros u Hu. apply compat_mon; congruence.
  - split; [done|by left].
  - eapply (hold_enter_nonzero _ _ _ _ _ _ Ho); try done; by rewrite Hpc.
Qed.

(** Where only the count of contenders changes. *)
Lemma Inv_count s hd m o own recs oit t p fs : Inv s hd (Mon m o own recs) -> t ∈ threads ->
  monitors s !! m = Some {| _header := hd; _owner := own; _recursions := recs; _count := contenders s; OwnerIsThread := oit |} ->
  owner_ok o own recs oit -> private (pc (thr s t)) = None -> private p = None ->
  hold_ok (Mon m o own recs) (boxes s) t {| pc := p; frames := fs |} ->
  (forall M, pc_ok hd (Mon m o own recs) (boxes s) M t {| pc := p; frames := fs |}) ->
  Inv (put (set_monitor s m {| _header := hd; _owner := own; _recursions := recs;
        _count := contenders s - Z.b2z (contending (pc (thr s t))) + Z.b2z (contending p); OwnerIsThread := oit |}) t p fs)
    hd (Mon m o own recs).
Proof. intros HI Ht HM Hoo Hp0 Hp Hh Hk. apply (Inv_mon s hd m o own recs o own recs oit t p fs); try done. intros u _. apply compat_refl. Qed.

Lemma step_contend s hd ph t lock m c : Inv s hd ph -> t ∈ threads -> pc (thr s t) = MonContend lock m ->
  step_to hd (contend_step s t lock m c).
Proof.
  intros HI Ht Hpc. facts HI Ht Hpc Ho Hk. destruct Hk as (Hn & Hp & Hw).
  pose proof (frames_nil _ _ _ _ HI Ht Hw) as Hfr. at_monitor HI Hp o own recs oit Ha Hoo Hmk HM.
  unfold contend_step. rewrite HM. cbn [mbind option_bind _owner]. destruct (flag c).
  - destruct (Z.eqb_spec own 0) as [->|H0]; stay; [|by apply Inv_go; try done; rewrite ?Hpc].
    destruct (owner_null _ _ _ _ Hoo eq_refl) as (-> & -> & ->).
    pose proof (Inv_take s hd m 0 0 t lock Idle [lock] HI Ht) as Hi. rewrite Hpc in Hi. cbn in Hi.
    rewrite Z.sub_0_r, Z.add_0_r in Hi. unfold entered. cbn [set_monitor thr]. rewrite Hfr. by apply Hi.
  - stay. pose proof (contenders_range s) as Hr.
    pose proof (Inv_count s hd m o own recs oit t (MonTryRead lock m) (frames (thr s t)) HI Ht HM Hoo) as Hi.
    rewrite Hpc in Hi. cbn in Hi. rewrite Z.sub_0_r in Hi. unfold store_count. cbn [_recursions _header _owner _count OwnerIsThread].
    rewrite s64_small by lia. apply Hi; try done. apply (hold_same _ _ _ (thr s t)); rewrite ?Hpc; done.
Qed.

Lemma step_try_read s hd ph t lock m : Inv s hd ph -> t ∈ threads -> pc (thr s t) = MonTryRead lock m ->
  step_to hd (try_read_step s t lock m).
Proof.
  intros HI Ht Hpc. facts HI Ht Hpc Ho Hk. pose proof Hk as (Hn & Hp & Hw).
  destruct (monitor_at _ _ _ _ HI Hp) as (o & own & recs & oit & Hph & Ha & Hoo & Hmk & HM).
  unfold try_read_step. rewrite HM. cbn [mbind option_bind _owner]. stay.
  destruct (own =? 0); apply Inv_go; try done; rewrite ?Hpc; done.
Qed.

Lemma step_try_cas s hd ph t lock m : Inv s hd ph -> t ∈ threads -> pc (thr s t) = MonTryCas lock m ->
  step_to hd (try_cas_step s t lock m).
Proof.
  intros HI Ht Hpc. facts HI Ht Hpc Ho Hk. pose proof Hk as (Hn & Hp & Hw).
  pose proof (frames_nil _ _ _ _ HI Ht Hw) as Hfr. at_monitor HI Hp o own recs oit Ha Hoo Hmk HM.
  unfold try_cas_step. rewrite HM. cbn [mbind option_bind _owner].
  destruct (Z.eqb_spec own 0) as [->|H0]; stay; [|by apply Inv_go; try done; rewrite ?Hpc].
  destruct (owner_null _ _ _ _ Hoo eq_refl) as (-> & -> & ->).
  pose proof (Inv_take s hd m 0 0 t lock (MonAcquired lock m) (frames (thr s t)) HI Ht) as Hi. rewrite Hpc in Hi. cbn in Hi.
  rewrite Z.sub_simpl_r in Hi. apply Hi; try done. by rewrite Hfr.
Qed.

Lemma owner_frames s hd m t lock : Inv s hd (Mon m (Some t) t 0) -> t ∈ threads ->
  held (thr s t) = lock :: frames (thr s t) -> nonzero (boxes s) lock -> frames (thr s t) = [].
Proof.
  intros HI Ht Hh Hn. pose proof (inv_thread _ _ _ HI t Ht) as [Ho _].
  destruct (held_owner _ _ _ _ _ _ Ho Hh) as (_ & Hg & Hl & _). by apply (last_level (boxes s) lock).
Qed.

Lemma step_acquired s hd ph t lock m c : Inv s hd ph -> t ∈ threads -> pc (thr s t) = MonAcquired lock m ->
  step_to hd (acquired_step s t lock m c).
Proof.
  intros HI Ht Hpc. facts HI Ht Hpc Ho Hk. destruct Hk as (Hn & ->).
  destruct (inv_state _ _ _ HI) as (Ha & Hmk & oit & HM & Hoo). unfold acquired_step. rewrite HM. cbn [mbind option_bind].
  assert (Hh : held (thr s t) = lock :: frames (thr s t)) by (unfold held; by rewrite Hpc).
  pose proof (owner_frames s hd m t lock HI Ht Hh Hn) as Hfr.
  destruct (flag c); stay.
  - pose proof (Inv_count s hd m (Some t) t 0 oit t (MonExit (Suspended lock) m) (frames (thr s t)) HI Ht HM Hoo) as Hi.
    rewrite Hpc in Hi. cbn in Hi. rewrite Z.sub_simpl_r in Hi. apply Hi; try done.
    apply (hold_same _ _ _ (thr s t)); rewrite ?Hpc; try done.
  - pose proof (contenders_range s) as Hr.
    pose proof (Inv_count s hd m (Some t) t 0 oit t Idle (lock :: frames (thr s t)) HI Ht HM Hoo) as Hi.
    rewrite Hpc in Hi. cbn in Hi. rewrite Z.add_0_r in Hi. unfold entered, store_count.
    cbn [_recursions _header _owner _count OwnerIsThread set_monitor thr]. rewrite s64_small by lia. apply Hi; try done.
    unfold hold_ok, held in *. rewrite Hpc in Ho. done.
Qed.

Lemma step_mon_exit s hd ph t k m : Inv s hd ph -> t ∈ threads -> pc (thr s t) = MonExit k m ->
  step_to hd (exit_step s t k m).
Proof.
  intros HI Ht Hpc. facts HI Ht Hpc Ho Hk. destruct Hk as (Hl & Hp & Hw). at_monitor HI Hp o own recs oit Ha Hoo Hmk HM.
  cbn in Hw. subst o. unfold exit_step. rewrite HM. cbn [mbind option_bind _owner].
  destruct (owner_is _ _ _ _ _ eq_refl Hoo) as [[-> _]|(Hne & Hlo & -> & _)].
  - rewrite Z.eqb_refl. cbn [negb]. stay. apply Inv_go; try done; rewrite ?Hpc; try done.
    cbn. split; [done|]. by exists recs.
  - rewrite (proj2 (Z.eqb_neq t own)) by congruence. cbn [negb]. stay.
    apply Inv_go; try done; rewrite ?Hpc; try done. cbn. split; [done|]. exists own. split; [congruence|done].
Qed.

Lemma step_mon_owner s hd ph t k m : Inv s hd ph -> t ∈ threads -> pc (thr s t) = MonOwner k m ->
  step_to hd (reread_owner_step thread s t k m).
Proof.
  intros HI Ht Hpc. facts HI Ht Hpc Ho Hk. destruct Hk as (Hl & own & Hne & ->).
  destruct (inv_state _ _ _ HI) as (Ha & Hmk & oit & HM & Hoo). unfold reread_owner_step. rewrite HM. cbn [mbind option_bind _owner].
  destruct (owner_is _ _ _ _ _ eq_refl Hoo) as [[-> _]|(_ & Hlo & _)]; [done|]. rewrite Hlo. stay.
  apply Inv_go; try done; rewrite ?Hpc; try done. cbn. split; [done|]. by exists own.
Qed.

Lemma step_transmute s hd ph t k m : Inv s hd ph -> t ∈ threads -> pc (thr s t) = MonTransmute k m ->
  step_to hd (transmute_step s t k m).
Proof.
  intros HI Ht Hpc. facts HI Ht Hpc Ho Hk. destruct Hk as (Hl & own & ->).
  destruct (inv_state _ _ _ HI) as (Ha & Hmk & oit & HM & Hoo). unfold transmute_step. rewrite HM. cbn [mbind option_bind]. stay.
  pose proof (Inv_mon s hd m (Some t) own 0 (Some t) t 0 1 t (MonLevel k m) (frames (thr s t)) HI Ht) as Hi.
  rewrite Hpc in Hi. replace (contending (MonLevel k m)) with (contending (MonTransmute k m)) in Hi by (by destruct k).
  rewrite Z.sub_simpl_r in Hi. apply Hi; try done.
  - intros u Hu. apply compat_mon; congruence.
  - split; [done|by left].
  - apply (hold_phase (Mon m (Some t) own 0)); try done. apply (hold_same _ _ _ (thr s t)); rewrite ?Hpc; done.
  - intros M. cbn. split; [done|]. by exists 0.
Qed.

Lemma step_level s hd ph t k m : Inv s hd ph -> t ∈ threads -> pc (thr s t) = MonLevel k m ->
  step_to hd (level_step s t k m).
Proof.
  intros HI Ht Hpc. facts HI Ht Hpc Ho Hk. destruct Hk as ([Hn Hl] & recs & ->).
  destruct (inv_state _ _ _ HI) as (Ha & Hmk & oit & HM & Hoo). unfold level_step. rewrite HM. cbn [mbind option_bind _recursions].
  destruct (owner_self_thread _ _ _ _ Ht Hoo) as [_ ->].
  assert (Hh : held (thr s t) = leaver_lock k :: frames (thr s t)) by (unfold held; by rewrite Hpc).
  destruct (held_owner _ _ _ _ _ _ Ho Hh) as (_ & Hg & Hlv & _). cbn [recs_of] in Hlv.
  rewrite levels_cons_nonzero in Hlv by done. pose proof (levels_nonneg (boxes s) (frames (thr s t))).
  pose proof (recursions_range _ _ _ _ Ho eq_refl) as Hr. cbn [recs_of] in Hr.
  destruct (Z.eqb_spec recs 0) as [->|Hne]; cbn [negb]; stay.
  - apply Inv_go; try done; rewrite ?Hpc; try done.
  - destruct k as [lock|lock]; [|rewrite Hl in Hlv; cbn in Hlv; lia].
    pose proof (Inv_mon s hd m (Some t) t recs (Some t) t (recs - 1) 1 t Idle (frames (thr s t)) HI Ht) as Hi.
    rewrite Hpc in Hi. cbn in Hi. rewrite Z.sub_0_r, Z.add_0_r in Hi. unfold store_recursions.
    cbn [_recursions _header _owner _count OwnerIsThread]. rewrite s64_small by lia. apply Hi; try done.
    + intros u Hu. apply compat_mon; congruence.
    + split; [done|by left].
    + eapply hold_pop; eauto; [|done]. intros _. cbn [recs_of]. split_and!; [|lia|done].
      eapply grounded_cons; [done|]. intros Hnil. rewrite Hnil in Hlv. cbn in Hlv. lia.
Qed.

(** The owner drops the lock. *)
Lemma Inv_drop s hd m t k p : Inv s hd (Mon m (Some t) t 0) -> t ∈ threads ->
  held (thr s t) = leaver_lock k :: frames (thr s t) -> entering (pc (thr s t)) = [] -> private (pc (thr s t)) = None ->
  nonzero (boxes s) (leaver_lock k) -> private p = None -> extra p = [] -> entering p = [] \/ entering p = [leaver_lock k] ->
  (frames (thr s t) = [] -> forall M, pc_ok hd (Mon m None 0 0) (boxes s) M t {| pc := p; frames := frames (thr s t) |}) ->
  Inv (put (set_monitor s m {| _header := hd; _owner := 0; _recursions := 0;
        _count := contenders s - Z.b2z (contending (pc (thr s t))) + Z.b2z (contending p); OwnerIsThread := 1 |}) t p (frames (thr s t)))
    hd (Mon m None 0 0).
Proof.
  intros HI Ht Hh He Hp0 Hn Hp Hx Hpe Hk. pose proof (owner_frames s hd m t _ HI Ht Hh Hn) as Hfr.
  pose proof (inv_thread _ _ _ HI t Ht) as [Ho _]. destruct (held_owner _ _ _ _ _ _ Ho Hh) as (_ & _ & _ & Hb & _).
  apply (Inv_mon s hd m (Some t) t 0 None 0 0 1 t p (frames (thr s t)) HI Ht); try done.
  - intros u Hu. apply compat_mon; congruence.
  - unfold hold_ok, held. cbn [pc frames]. rewrite Hx, Hfr. cbn [app]. destruct Hpe as [-> | ->]; cbn [app]; split_and!; try done;
      try apply NoDup_nil; try apply NoDup_singleton; try by constructor.
  - by apply Hk.
Qed.

Ltac drop_record Hi Hpc := rewrite Hpc in Hi; cbn [contending] in Hi; rewrite ?Z.sub_simpl_r in Hi.

Lemma step_release s hd ph t k m c : Inv s hd ph -> t ∈ threads -> pc (thr s t) = MonRelease k m ->
  step_to hd (release_step Knob_ExitPolicy s t k m c).
Proof.
  intros HI Ht Hpc. facts HI Ht Hpc Ho Hk. destruct Hk as ([Hn Hl] & ->).
  destruct (inv_state _ _ _ HI) as (Ha & Hmk & oit & HM & Hoo). unfold release_step. rewrite HM. cbn [mbind option_bind].
  destruct (owner_self_thread _ _ _ _ Ht Hoo) as [_ ->].
  assert (Hh : held (thr s t) = leaver_lock k :: frames (thr s t)) by (unfold held; by rewrite Hpc).
  destruct ((Knob_ExitPolicy =? 0) || flag c); stay.
  - pose proof (Inv_drop s hd m t k (MonReleased k m) HI Ht Hh) as Hi. drop_record Hi Hpc.
    apply Hi; try done. by right.
  - apply Inv_go; try done; rewrite ?Hpc; try done.
Qed.

(** Back to the caller of [exit], without the lock. *)
Lemma after_exit_pc k m : extra (after_exit k m) = [] /\ private (after_exit k m) = None /\
  contending (after_exit k m) = contending (MonReleased k m) /\
  (entering (after_exit k m) = [] \/ entering (after_exit k m) = [leaver_lock k]).
Proof. destruct k; cbn; auto. Qed.

Lemma pc_left hd ph B M t k m fs : leaver_ok B k fs -> published ph = Some m -> owner_of ph <> Some t ->
  pc_ok hd ph B M t {| pc := after_exit k m; frames := fs |}.
Proof. intros [Hn Hl] Hp Hw. by destruct k. Qed.

Lemma Inv_left s hd ph t k m : Inv s hd ph -> t ∈ threads -> pc (thr s t) = MonReleased k m -> Inv (left s t k m) hd ph.
Proof.
  intros HI Ht Hpc. facts HI Ht Hpc Ho Hk. destruct Hk as (Hl & Hp & Hw).
  destruct (after_exit_pc k m) as (A1 & A2 & A3 & A4). apply Inv_put; try done; rewrite ?Hpc; try done.
  - by rewrite A2.
  - destruct A4 as [A4|A4].
    + apply hold_drop; rewrite ?Hpc; done.
    + apply (hold_same _ _ _ (thr s t)); rewrite ?Hpc; done.
  - by apply pc_left.
Qed.

Lemma step_released s hd ph t k m c : Inv s hd ph -> t ∈ threads -> pc (thr s t) = MonReleased k m ->
  step_to hd (released_step s t k m c).
Proof.
  intros HI Ht Hpc. facts HI Ht Hpc Ho Hk. destruct Hk as (Hl & Hp & Hw). unfold released_step.
  destruct (flag c); [stay; by apply Inv_left|]. pose proof (frames_nil _ _ _ _ HI Ht Hw) as Hfr.
  destruct (monitor_at _ _ _ _ HI Hp) as (o & own & recs & oit & -> & Ha & Hoo & Hmk & HM).
  rewrite HM. cbn [mbind option_bind _owner].
  destruct (Z.eqb_spec own 0) as [->|Hne]; stay; [|by apply Inv_left].
  destruct (owner_null _ _ _ _ Hoo eq_refl) as (-> & -> & ->).
  pose proof (Inv_take s hd m 0 0 t (leaver_lock k) (MonSuccessor k m) (frames (thr s t)) HI Ht) as Hi.
  drop_record Hi Hpc. apply Hi; try done; [by rewrite Hfr|apply Hl].
Qed.

Lemma step_successor s hd ph t k m c : Inv s hd ph -> t ∈ threads -> pc (thr s t) = MonSuccessor k m ->
  step_to hd (successor_step s t k m c).
Proof.
  intros HI Ht Hpc. facts HI Ht Hpc Ho Hk. destruct Hk as ([Hn Hl] & ->).
  destruct (inv_state _ _ _ HI) as (Ha & Hmk & oit & HM & Hoo). unfold successor_step. rewrite HM. cbn [mbind option_bind _owner].
  rewrite Z.eqb_refl. cbn [guard_b]. destruct (owner_self_thread _ _ _ _ Ht Hoo) as [_ ->].
  assert (Hh : held (thr s t) = leaver_lock k :: frames (thr s t)) by (unfold held; by rewrite Hpc).
  destruct (after_exit_pc k m) as (A1 & A2 & A3 & A4).
  destruct (flag c); stay.
  - pose proof (Inv_drop s hd m t k (after_exit k m) HI Ht Hh) as Hi. rewrite Hpc, A3 in Hi. cbn [contending] in Hi. rewrite Z.sub_simpl_r in Hi.
    apply Hi; try done. intros Hfr M. by apply pc_left.
  - apply Inv_go; try done; rewrite ?Hpc; try done.
Qed.

(** ** Hashing *)

Lemma finish_hash_ok v : hash_value (finish_hash v).
Proof.
  unfold finish_hash, hash_value. change hash_mask with (2 ^ 31 - 1). rewrite land_ones_mod by lia.
  pose proof (Z.mod_pos_bound v (2 ^ 31) ltac:(lia)). destruct (Z.eqb_spec (v mod 2 ^ 31) 0); [by vm_compute|lia].
Qed.

Lemma header_set hd h : header_ok hd -> hash hd = 0 -> hash_value h ->
  header_ok (copy_set_hash hd h) /\ hash (copy_set_hash hd h) = h.
Proof.
  intros Hh Hz Hv. destruct (header_neutral hd Hh) as [Hu Hn].
  destruct (copy_set_hash_ok hd h Hu Hn Hv) as (_ & _ & He). split; [|done].
  destruct Hh as [-> | (H0 & h1 & Hv1 & ->)]; [right; split; [done|]; by exists h|].
  destruct (copy_set_hash_ok h0 h1 Hh0 Hn0 Hv1) as (_ & _ & Hh1). destruct Hv1. lia.
Qed.

Lemma hashed_to s hd ph s' t h hd' ph' : Inv s hd ph -> Inv (go s' t Idle) hd' ph' -> grows hd hd' -> h = hash hd' -> h <> 0 ->
  step_to hd (hashed s' t h).
Proof. intros HI HI' Hg -> Hne. exists (go s' t Idle), (Some (hash hd')), hd', ph'. split_and!; try done. by intros h [= <-]. Qed.

(** The header as another thread that hashes has it. *)
Lemma event_here s hd ph t h : Inv s hd ph -> t ∈ threads -> contending (pc (thr s t)) = false -> extra (pc (thr s t)) = [] ->
  entering (pc (thr s t)) = [] -> h = hash hd -> h <> 0 -> step_to hd (hashed s t h).
Proof.
  intros HI Ht Hc Hx He Hh Hne. eapply hashed_to; eauto; [|apply grows_refl].
  apply Inv_go; try done; by rewrite ?Hc, ?Hx, ?He.
Qed.

Lemma step_hash_read s hd ph t c : Inv s hd ph -> t ∈ threads -> pc (thr s t) = HashRead ->
  step_to hd (hash_read_step thread s t c).
Proof.
  intros HI Ht Hpc. facts HI Ht Hpc Ho Hk. unfold hash_read_step, ReadStableMark.
  pose proof (inv_header _ _ _ HI) as Hh. pose proof (inv_state _ _ _ HI) as Hs.
  destruct (is_being_inflated (mark s)) eqn:Hz; [stay; apply Inv_go; try done; by rewrite ?Hpc|].
  assert (Hnz : mark s <> 0) by (intros Hm; rewrite Hm in Hz; done).
  destruct (is_neutral (mark s)) eqn:Hn; [|destruct (has_monitor (mark s)) eqn:Hm; [|destruct (is_lock_owned thread t (locker (mark s))) eqn:Hl]].
  - destruct (mark_free s hd ph Hh Hs Hn) as [-> Hhd]. destruct (Z.eqb_spec (hash (mark s)) 0) as [H0|H0].
    + stay. apply Inv_go; try done; rewrite ?Hpc; try done. cbn. split_and!; try done; apply finish_hash_ok.
    + eapply event_here; eauto; rewrite ?Hpc; try done. by rewrite Hhd.
  - pose proof (mark_monitor s hd ph Hh Hs Hm) as Hp. stay. apply Inv_go; try done; by rewrite ?Hpc.
  - unfold locker in Hl. destruct ph as [|b u i|m o own recs].
    + cbn in Hs. rewrite Hs in Hn. destruct (header_neutral hd Hh). congruence.
    + destruct (mark_lock s hd b u i Hs Hnz) as [Hb ->]. destruct Hs as (Hu & [Hba Hbo] & HB & _). rewrite Hb in Hl |- *.
      stay. apply Inv_go; try done; rewrite ?Hpc; try done. cbn. split; [done|]. exists hd. auto.
    + destruct Hs as (Ha & Hmk & _). rewrite Hmk in Hm. destruct (monitor_bits m Ha) as (_ & _ & ? & _). congruence.
  - stay. apply Inv_go; try done; by rewrite ?Hpc.
Qed.

Lemma step_hash_cas s hd ph t mk h : Inv s hd ph -> t ∈ threads -> pc (thr s t) = HashCas mk h ->
  step_to hd (hash_cas_step s t mk h).
Proof.
  intros HI Ht Hpc. facts HI Ht Hpc Ho Hk. destruct Hk as (Hn & Hz & Hv). unfold hash_cas_step.
  pose proof (inv_header _ _ _ HI) as Hh. pose proof (inv_state _ _ _ HI) as Hs.
  destruct (Z.eqb_spec (mark s) mk) as [Hm|Hm]; [|stay; apply Inv_go; try done; by rewrite ?Hpc].
  subst mk. destruct (mark_free s hd ph Hh Hs Hn) as [-> Hhd]. rewrite Hhd in *.
  destruct (header_set hd h Hh Hz Hv) as [Hh' He].
  assert (Hne : h <> 0) by (destruct Hv; lia).
  assert (Hg : grows hd (copy_set_hash hd h)) by (right; split; congruence).
  eapply (hashed_to s hd Free _ _ _ (copy_set_hash hd h) Free); eauto.
  eapply (Inv_step s hd Free _ _ Free t); eauto; try done; cbn [go put set_mark thr pc boxes monitors].
  apply (hold_same _ _ _ (thr s t)); rewrite ?Hpc; done.
Qed.

Lemma step_hash_displaced s hd ph t mk : Inv s hd ph -> t ∈ threads -> pc (thr s t) = HashDisplaced mk ->
  step_to hd (hash_displaced_step s t mk).
Proof.
  intros HI Ht Hpc. facts HI Ht Hpc Ho Hk. destruct Hk as ([Ha _] & d & Hd & Hh). unfold hash_displaced_step.
  destruct (lock_bits_of mk Ha) as (_ & _ & _ & ->). rewrite Hd. cbn [mbind option_bind].
  destruct (Z.eqb_spec (hash d) 0) as [Hz|Hz]; [stay; apply Inv_go; try done; by rewrite ?Hpc|].
  destruct Hh as [?|Hh]; [done|]. eapply event_here; eauto; by rewrite ?Hpc.
Qed.

Lemma step_hash_monitor s hd ph t m : Inv s hd ph -> t ∈ threads -> pc (thr s t) = HashMonitor m ->
  step_to hd (hash_monitor_step s t m).
Proof.
  intros HI Ht Hpc. facts HI Ht Hpc Ho Hk. destruct (monitor_at _ _ _ _ HI Hk) as (o & own & recs & oit & _ & Ha & Hoo & Hmk & HM).
  unfold hash_monitor_step. rewrite HM. cbn [mbind option_bind _header].
  destruct (Z.eqb_spec (hash hd) 0) as [Hz|Hz]; [stay; apply Inv_go; try done; by rewrite ?Hpc|].
  eapply event_here; eauto; by rewrite ?Hpc.
Qed.

Lemma step_hash_header s hd ph t m c : Inv s hd ph -> t ∈ threads -> pc (thr s t) = HashHeader m ->
  step_to hd (hash_header_step s t m c).
Proof.
  intros HI Ht Hpc. facts HI Ht Hpc Ho Hk. destruct (monitor_at _ _ _ _ HI Hk) as (o & own & recs & oit & _ & Ha & Hoo & Hmk & HM).
  unfold hash_header_step. rewrite HM. cbn [mbind option_bind _header].
  destruct (Z.eqb_spec (hash hd) 0) as [Hz|Hz].
  - stay; apply Inv_go; try done; rewrite ?Hpc; try done. cbn. split_and!; auto; apply finish_hash_ok.
  - eapply event_here; eauto; by rewrite ?Hpc.
Qed.

Lemma step_hash_mon_cas s hd ph t m mk h : Inv s hd ph -> t ∈ threads -> pc (thr s t) = HashMonCas m mk h ->
  step_to hd (hash_mon_cas_step s t m mk h).
Proof.
  intros HI Ht Hpc. facts HI Ht Hpc Ho Hk. destruct Hk as (Hp & Hz & Hor & Hv).
  at_monitor HI Hp o own recs oit Ha Hoo Hmk HM. unfold hash_mon_cas_step. rewrite HM. cbn [mbind option_bind _header].
  pose proof (inv_header _ _ _ HI) as Hh.
  destruct (Z.eqb_spec hd mk) as [->|Hne]; [|eapply event_here; eauto; rewrite ?Hpc; try done; by destruct Hor].
  destruct (header_set mk h Hh Hz Hv) as [Hh' He]. assert (Hne : h <> 0) by (destruct Hv; lia).
  assert (Hg : grows mk (copy_set_hash mk h)) by (right; split; congruence).
  eapply (hashed_to s mk (Mon m o own recs) _ _ _ (copy_set_hash mk h) (Mon m o own recs)); eauto.
  eapply (Inv_step s mk _ _ _ (Mon m o own recs) t); eauto; try done; cbn [go put set_monitor thr pc boxes monitors].
  - intros m' u Hu Hut Hpu. apply lookup_insert_ne. intros ->. by apply (inv_published _ _ _ HI u m' Hu Hpu).
  - split; [done|]. split; [done|]. exists oit. split; [|done]. cbn [go put set_monitor monitors]. rewrite lookup_insert_eq.
    unfold go. rewrite contenders_put by done. change (contenders (set_monitor s m _)) with (contenders s).
    cbn [set_monitor thr]. rewrite Hpc. cbn. by rewrite Z.sub_0_r, Z.add_0_r.
  - apply (hold_same _ _ _ (thr s t)); rewrite ?Hpc; done.
Qed.

(** ** All steps *)

Lemma sync_step_ok s hd ph t c : Inv s hd ph -> t ∈ threads -> valid_choice thread s t c ->
  step_to hd (sync_step thread Knob_ExitPolicy s t c).
Proof.
  intros HI Ht Hv. unfold sync_step. destruct (pc (thr s t)) eqn:Hpc.
  - by eapply step_call.
  - by eapply step_slow_enter.
  - by eapply step_enter_cas.
  - by eapply step_inflate_read.
  - by eapply step_cas_locked.
  - by eapply step_dmw.
  - by eapply step_owner.
  - by eapply step_publish.
  - by eapply step_cas_neutral.
  - by eapply step_exit_read.
  - by eapply step_exit_mark.
  - by eapply step_exit_cas.
  - by eapply step_mon_enter.
  - by eapply step_recurse.
  - by eapply step_commute.
  - by eapply step_contend.
  - by eapply step_try_read.
  - by eapply step_try_cas.
  - by eapply step_acquired.
  - by eapply step_mon_exit.
  - by eapply step_mon_owner.
  - by eapply step_transmute.
  - by eapply step_level.
  - by eapply step_release.
  - by eapply step_released.
  - by eapply step_successor.
  - by eapply step_hash_read.
  - by eapply step_hash_cas.
  - by eapply step_hash_displaced.
  - by eapply step_hash_monitor.
  - by eapply step_hash_header.
  - by eapply step_hash_mon_cas.
Qed.

(** Deflation at a safepoint. *)
Lemma deflate_ok s hd ph : Inv s hd ph -> has_monitor (mark s) = true ->
  (forall t, t ∈ threads -> stoppable (pc (thr s t)) = true) ->
  exists s' b ph', deflate_monitor s = Some (s', b) /\ Inv s' hd ph' /\
    (b = true -> ph' = Free /\ thr s' = thr s /\ forall t, t ∈ threads -> pc (thr s t) = Idle).
Proof.
  intros HI Hm Hst. pose proof (inv_header _ _ _ HI) as Hh.
  pose proof (mark_monitor s hd ph Hh (inv_state _ _ _ HI) Hm) as Hp.
  destruct (monitor_at _ _ _ _ HI Hp) as (o & own & recs & oit & -> & Ha & Hoo & Hmk & HM).
  unfold deflate_monitor. rewrite HM. cbn [mbind option_bind _header]. destruct (header_neutral hd Hh) as [_ Hn]. rewrite Hn.
  cbn [guard_b]. unfold is_busy. cbn [_count _owner].
  destruct (Z.eqb_spec (Z.lor (contenders s) own) 0) as [Hz|Hz]; cbn [negb]; [|by exists s, false, (Mon (monitor (mark s)) o own recs)].
  apply Z.lor_eq_0_iff in Hz as [Hc ->]. destruct (owner_null _ _ _ _ Hoo eq_refl) as (-> & -> & ->).
  eexists _, true, Free. split; [done|]. set (s' := discard_monitor _ _).
  assert (Hidle : forall t, t ∈ threads -> pc (thr s t) = Idle).
  { intros t Ht. specialize (Hst t Ht). pose proof (count_zero (thr s) threads t Hc Ht) as Hct.
    unfold stoppable in Hst. destruct (pc (thr s t)); try done; congruence. }
  split; [|done]. split; [done|done| | |].
  - intros t Ht. destruct (inv_thread _ _ _ HI t Ht) as [Ho _]. split; cbn [s' discard_monitor set_mark thr boxes monitors].
    + by apply (hold_phase (Mon (monitor (mark s)) None 0 0)).
    + unfold pc_ok. by rewrite Hidle.
  - intros t u m Ht Hu. cbn. by rewrite Hidle.
  - intros t m Ht. cbn. by rewrite Hidle.
Qed.

Lemma Inv_initial : Inv (initial h0) h0 Free.
Proof.
  split; try done; [by left|]. intros t Ht. split; [|done]. unfold hold_ok. cbn. split_and!; try done; try constructor.
Qed.

Lemma run_Inv l s : run thread Knob_ExitPolicy threads h0 l s ->
  exists hd ph, Inv s hd ph /\ Forall (fun e => e = hash hd /\ e <> 0) l.
Proof.
  induction 1 as [|l s t c s' e _ IH Ht Hv Hstep|l s s' b _ IH Hm Hst Hd].
  - exists h0, Free. split; [apply Inv_initial|done].
  - destruct IH as (hd & ph & HI & Hl). destruct (sync_step_ok s hd ph t c HI Ht Hv) as (s1 & e1 & hd' & ph' & Heq & HI' & Hg & He).
    rewrite Hstep in Heq. injection Heq as <- <-. exists hd', ph'. split; [done|]. apply List.Forall_app. split.
    + eapply List.Forall_impl; [|exact Hl]. cbn. intros a [-> Ha]. destruct Hg as [-> | [Hz _]]; [done|congruence].
    + destruct e as [h|]; [|done]. constructor; [|done]. by apply He.
  - destruct IH as (hd & ph & HI & Hl). destruct (deflate_ok s hd ph HI Hm Hst) as (s1 & b1 & ph' & Heq & HI' & _).
    rewrite Hd in Heq. injection Heq as <- <-. exists hd, ph'. done.
Qed.

(** Who holds the lock, by the phase. *)
Lemma owner_holds s hd ph t : Inv s hd ph -> t ∈ threads -> (owner_of ph = Some t <-> held (thr s t) <> []).
Proof.
  intros HI Ht. destruct (inv_thread _ _ _ HI t Ht) as [(_ & _ & _ & H4 & H5) _]. split.
  - intros Hw Hn. destruct (H4 Hw) as ((b & (l & Hl) & _) & _). rewrite Hn in Hl. by destruct l.
  - intros Hh. destruct (decide (owner_of ph = Some t)) as [Hw|Hw]; [done|]. by rewrite H5 in Hh.
Qed.

Lemma frames_held ts : frames ts <> [] -> held ts <> [].
Proof. intros Hf Hh. unfold held in Hh. by apply app_eq_nil in Hh as [_ ?]. Qed.
End Safe.
