(* ===== verification/SyncSpec.v ===== *)
(** * SyncSpec: theorems on the locks and hashes of an object

    On every run of [Synchronizer]: mutual exclusion, the stability of the hash and of the header, that no step fails, what
    the questions about the owner answer, and that a thread alone gets and leaves the lock in a few steps.  The
    generators of hashes are at the end.  Runs for the witnesses are computed by [exec]. *)

From stdpp Require Import gmap functions.
From S2P Require Import Prelude GlobalDefs MarkWord Synchronizer SyncSafe ParkMiller.

(* ------------------------------------------------------------------ *)
(** ** Executing a schedule *)

#[export] Instance Caller_eq_dec : EqDecision Caller.
Proof. solve_decision. Defined.
#[export] Instance Leaver_eq_dec : EqDecision Leaver.
Proof. solve_decision. Defined.
#[export] Instance PC_eq_dec : EqDecision PC.
Proof. solve_decision. Defined.

#[export] Instance aligned_address_dec a : Decision (aligned_address a).
Proof. unfold aligned_address. solve_decision. Defined.
#[export] Instance valid_choice_dec thread s t c : Decision (valid_choice thread s t c).
Proof. unfold valid_choice. destruct (pc (thr s t)); try destruct (call c); solve_decision. Defined.

Section Exec.
Context (thread : Z -> Thread) (Knob_ExitPolicy : Z) (threads : list Z).

(** The state and the hashes after a schedule of threads with their choices. *)
Fixpoint exec (s : SyncState) (l : list Z) (cs : list (Z * Choice)) : option (SyncState * list Z) :=
  match cs with
  | [] => Some (s, l)
  | (t, c) :: cs =>
      if bool_decide (t ∈ threads /\ valid_choice thread s t c) then
        '(s', e) ← sync_step thread Knob_ExitPolicy s t c;
        exec s' (l ++ option_list e) cs
      else None
  end.

Lemma exec_run hdr cs : forall s l s' l', run thread Knob_ExitPolicy threads hdr l s -> exec s l cs = Some (s', l') ->
  run thread Knob_ExitPolicy threads hdr l' s'.
Proof.
  induction cs as [|[t c] cs IH]; intros s l s' l' Hr He; cbn [exec] in He; [by injection He as <- <-|].
  destruct (bool_decide _) eqn:Hb; [|done]. apply bool_decide_eq_true in Hb as [Ht Hv].
  destruct (sync_step thread Knob_ExitPolicy s t c) as [[s1 e]|] eqn:Hs; [|done]. cbn in He.
  eapply IH; [|exact He]. by eapply run_step.
Qed.
End Exec.

(** Two threads and their stacks, and the choices they make. *)
Definition thread_A : Z := 0x10000.
Definition thread_B : Z := 0x20000.
Definition two_threads (t : Z) : Thread :=
  if t =? thread_A then {| stack_base := 0x7f0000100000; stack_size := 0x10000; monitor_chunks := [] |}
  else {| stack_base := 0x7f0000300000; stack_size := 0x10000; monitor_chunks := [] |}.
Definition lock_A : Z := 0x7f00000ffff0.
Definition lock_A2 : Z := 0x7f00000fff00.
Definition lock_B : Z := 0x7f00002ffff0.
Definition some_monitor : Z := 0x601000.

Definition choose (c : Call) (f : bool) : Choice :=
  {| call := c; flag := f; fresh := some_monitor;
     stale := {| _header := 0; _owner := 0; _recursions := 0; _count := 0; OwnerIsThread := 0 |}; raw_hash := 77 |}.
Definition steps_of (t : Z) (c : Call) (f : bool) (n : nat) : list (Z * Choice) := repeat (t, choose c f) n.

Lemma two_threads_ok : threads_ok two_threads [thread_A; thread_B].
Proof.
  split.
  - by apply (bool_decide_eq_true_1 _); vm_compute.
  - intros t Ht. rewrite !elem_of_cons in Ht. destruct Ht as [-> | [-> | Ht]]; [by vm_compute|by vm_compute|].
    by apply not_elem_of_nil in Ht.
  - assert (Ha : forall a, is_lock_owned two_threads thread_A a = (a <=? 0x7f0000100000) && (0x7f00000f0000 <=? a)).
    { intros a. unfold is_lock_owned, JavaThread_is_lock_owned, Thread_is_lock_owned. cbn [two_threads stack_base].
      change (two_threads thread_A) with {| stack_base := 0x7f0000100000; stack_size := 0x10000; monitor_chunks := [] |}.
      cbn [stack_base stack_size monitor_chunks existsb]. by destruct ((_ <=? _) && _). }
    assert (Hb : forall a, is_lock_owned two_threads thread_B a = (a <=? 0x7f0000300000) && (0x7f00002f0000 <=? a)).
    { intros a. unfold is_lock_owned, JavaThread_is_lock_owned, Thread_is_lock_owned.
      change (two_threads thread_B) with {| stack_base := 0x7f0000300000; stack_size := 0x10000; monitor_chunks := [] |}.
      cbn [stack_base stack_size monitor_chunks existsb]. by destruct ((_ <=? _) && _). }
    intros t u a Ht Hu. rewrite !elem_of_cons in Ht, Hu.
    destruct Ht as [-> | [-> | Ht]]; [| |by apply not_elem_of_nil in Ht];
      (destruct Hu as [-> | [-> | Hu]]; [| |by apply not_elem_of_nil in Hu]); rewrite ?Ha, ?Hb; try done; lia.
  - intros t u Ht Hu. rewrite !elem_of_cons in Ht, Hu.
    destruct Ht as [-> | [-> | Ht]]; [| |by apply not_elem_of_nil in Ht];
      (destruct Hu as [-> | [-> | Hu]]; [| |by apply not_elem_of_nil in Hu]); by vm_compute.
  - intros t Ht. rewrite !elem_of_cons in Ht. destruct Ht as [-> | [-> | Ht]]; [by vm_compute|by vm_compute|].
    by apply not_elem_of_nil in Ht.
Qed.

(** A enters twice; B hashes, which inflates, and enters; A leaves twice; B gets the lock; A hashes. *)
Definition contention : list (Z * Choice) :=
  steps_of thread_A (CallEnter lock_A) true 3 ++ steps_of thread_A (CallEnter lock_A2) true 2 ++
  steps_of thread_B CallHash false 9 ++ steps_of thread_B (CallEnter lock_B) false 6 ++
  steps_of thread_A CallExit false 2 ++ steps_of thread_A CallExit true 9 ++ steps_of thread_B CallHash false 3 ++
  steps_of thread_A CallHash true 4.

Definition after (cs : list (Z * Choice)) : option (SyncState * list Z) :=
  exec two_threads 0 [thread_A; thread_B] (initial 1) [] cs.
Definition final (cs : list (Z * Choice)) : SyncState * list Z := default (initial 1, []) (after cs).

Lemma final_run cs : bool_decide (is_Some (after cs)) = true ->
  run two_threads 0 [thread_A; thread_B] 1 (final cs).2 (final cs).1.
Proof.
  intros H. apply bool_decide_eq_true in H as [[s l] H]. unfold final. rewrite H. cbn.
  eapply exec_run; [apply run_start|exact H].
Qed.

(** In the end the object is inflated, B has the lock, and both calls returned the same hash. *)
Example contention_final : let '(s, l) := final contention in
  (mark s, l, frames (thr s thread_A), frames (thr s thread_B)) = (encode_monitor some_monitor, [77; 77], [], [lock_B]).
Proof. by vm_compute. Qed.

(* ------------------------------------------------------------------ *)
(** ** Runs *)

Section Theorems.
Context (thread : Z -> Thread) (Knob_ExitPolicy : Z) (threads : list Z) (h0 : Z).
Context (Hthreads : threads_ok thread threads) (Hh0 : in_u 64 h0) (Hn0 : is_neutral h0 = true).

Lemma run_invariant l s : run thread Knob_ExitPolicy threads h0 l s ->
  exists hd ph, Inv thread threads h0 s hd ph /\ Forall (fun e => e = hash hd /\ e <> 0) l.
Proof using Hthreads Hh0 Hn0. by apply run_Inv. Qed.

(** C4: two threads never hold the lock of the object at the same time, whatever the interleaving of enters, exits, hashes,
    inflations and deflations, and the policy of exits; and a thread inside [exit] still has it until it drops it. *)
Theorem mutual_exclusion l s t u : run thread Knob_ExitPolicy threads h0 l s -> t ∈ threads -> u ∈ threads -> u <> t ->
  frames (thr s t) <> [] -> frames (thr s u) = [] /\ held (thr s u) = [].
Proof using Hthreads Hh0 Hn0.
  intros Hr Ht Hu Hne Hf. destruct (run_invariant l s Hr) as (hd & ph & HI & _).
  assert (Hw : owner_of ph = Some t) by (eapply owner_holds; eauto; by apply frames_held).
  assert (Hwu : owner_of ph <> Some u) by congruence. split; [by eapply frames_nil|by eapply held_nil].
Qed.

(** C5: all calls of [FastHashCode] return the same nonzero hash, of 31 bits, through every race with locking and
    inflation and with each other; it is the one in the header, and no header is lost: an unlocked object has the first
    header, with the hash once there is one. *)
Theorem hash_stable l s : run thread Knob_ExitPolicy threads h0 l s ->
  (forall e e', e ∈ l -> e' ∈ l -> e = e' /\ 0 < e < 2 ^ 31 /\ (hash h0 = 0 \/ e = hash h0)) /\
  (is_neutral (mark s) = true -> (forall e, e ∈ l -> hash (mark s) = e) /\
     (mark s = h0 \/ hash h0 = 0 /\ exists h, 0 < h < 2 ^ 31 /\ mark s = copy_set_hash h0 h)).
Proof using Hthreads Hh0 Hn0.
  intros Hr. destruct (run_invariant l s Hr) as (hd & ph & HI & Hl). pose proof (inv_header _ _ _ _ _ _ HI) as Hh.
  rewrite list.Forall_forall in Hl. split.
  - intros e e' He He'. destruct (Hl e He) as [-> Hne]. destruct (Hl e' He') as [-> _]. split; [done|].
    assert (Hrange : 0 <= hash hd < 2 ^ 31) by (rewrite hash_field; apply (get_field_range 8 31); lia).
    split; [lia|]. destruct Hh as [-> | [H0 _]]; [by right|by left].
  - intros Hn. destruct (mark_free thread threads h0 s hd ph Hh (inv_state _ _ _ _ _ _ HI) Hn) as [-> ->].
    split; [|done]. intros e He. by destruct (Hl e He) as [-> _].
Qed.

(** C6: no step fails: no lock record or monitor is read after it is gone, the guarantees of [inflate], [exit] and
    [deflate_monitor] hold, the owner of a monitor that a thread leaves is that thread or one of its lock records (so the
    unbalanced branch of [exit] is never taken), and a monitor is deflated only when nobody is in it. *)
Theorem locking_never_fails l s t c : run thread Knob_ExitPolicy threads h0 l s -> t ∈ threads ->
  (valid_choice thread s t c -> is_Some (sync_step thread Knob_ExitPolicy s t c)) /\
  (forall k m, pc (thr s t) = MonExit k m ->
     exists mon, monitors s !! m = Some mon /\ is_entered thread mon t = true) /\
  (forall k m, pc (thr s t) = MonOwner k m ->
     exists mon, monitors s !! m = Some mon /\ is_lock_owned thread t (_owner mon) = true) /\
  (has_monitor (mark s) = true -> (forall u, u ∈ threads -> stoppable (pc (thr s u)) = true) ->
     exists s' b, deflate_monitor s = Some (s', b) /\
       (b = true -> forall u, u ∈ threads -> pc (thr s u) = Idle /\ frames (thr s u) = [])).
Proof using Hthreads Hh0 Hn0.
  intros Hr Ht. destruct (run_invariant l s Hr) as (hd & ph & HI & _). split_and!.
  - intros Hv. destruct (sync_step_ok thread Knob_ExitPolicy threads h0 Hthreads Hh0 Hn0 s hd ph t c HI Ht Hv) as (s' & e & _ & _ & -> & _).
    by eexists.
  - intros k m Hpc. destruct (inv_thread _ _ _ _ _ _ HI t Ht) as [_ Hk]. unfold pc_ok in Hk. rewrite Hpc in Hk.
    destruct Hk as (_ & Hp & Hw). destruct (monitor_at _ _ _ _ _ _ _ HI Hp) as (o & own & recs & oit & -> & _ & Hoo & _ & HM).
    eexists. split; [exact HM|]. unfold is_entered. cbn [_owner]. cbn in Hw. subst o.
    destruct (owner_is thread threads Hthreads _ _ _ _ _ eq_refl Hoo) as [[-> _]|(_ & -> & _)]; [by rewrite Z.eqb_refl|].
    by rewrite orb_true_r.
  - intros k m Hpc. destruct (inv_thread _ _ _ _ _ _ HI t Ht) as [_ Hk]. unfold pc_ok in Hk. rewrite Hpc in Hk.
    destruct Hk as (_ & own & Hne & ->). destruct (inv_state _ _ _ _ _ _ HI) as (_ & _ & oit & HM & Hoo).
    eexists. split; [exact HM|]. cbn [_owner]. by destruct (owner_is thread threads Hthreads _ _ _ _ _ eq_refl Hoo) as [[-> _]|(_ & -> & _)].
  - intros Hm Hst. destruct (deflate_ok thread threads h0 Hthreads Hh0 Hn0 s hd ph HI Hm Hst) as (s' & b & ph' & Hd & HI' & Hb).
    exists s', b. split; [done|]. intros Ht' u Hu. destruct (Hb Ht') as (-> & Hthr & Hidle). split; [by apply Hidle|].
    rewrite <- Hthr. by eapply frames_nil.
Qed.

(** asked by a thread that is in no operation, while nobody inflates, the questions about the owner answer by who
    holds the lock. *)
Theorem ownership_queries l s t : run thread Knob_ExitPolicy threads h0 l s -> t ∈ threads ->
  pc (thr s t) = Idle -> mark s <> INFLATING ->
  current_thread_holds_lock thread s t = Some (bool_decide (frames (thr s t) <> [])) /\
  exists r, query_lock_ownership thread s t = Some r /\
    match r with
    | owner_self => frames (thr s t) <> []
    | owner_none => forall u, u ∈ threads -> held (thr s u) = []
    | owner_other => frames (thr s t) = [] /\ exists u, u ∈ threads /\ u <> t /\ held (thr s u) <> []
    end.
Proof using Hthreads Hh0 Hn0.
  intros Hr Ht Hpc Hinf. destruct (run_invariant l s Hr) as (hd & ph & HI & _).
  assert (Hheld : held (thr s t) = frames (thr s t)) by (unfold held; by rewrite Hpc).
  assert (Hself : owner_of ph = Some t <-> frames (thr s t) <> []) by (rewrite <- Hheld; by eapply owner_holds).
  assert (Hother : forall u, owner_of ph = Some u -> u ∈ threads -> u <> t ->
            frames (thr s t) = [] /\ exists v, v ∈ threads /\ v <> t /\ held (thr s v) <> []).
  { intros u Hu Hin Hne. split; [eapply frames_nil; eauto; congruence|]. exists u. split_and!; try done. by eapply owner_holds. }
  pose proof (inv_state _ _ _ _ _ _ HI) as Hs. unfold current_thread_holds_lock, query_lock_ownership, ReadStableMark, is_being_inflated.
  rewrite (proj2 (Z.eqb_neq (mark s) 0) Hinf). cbn [mbind option_bind].
  destruct ph as [|lock u i|m o own recs].
  - cbn in Hs. destruct (header_neutral h0 Hh0 Hn0 hd (inv_header _ _ _ _ _ _ HI)) as [_ Hn].
    rewrite Hs. destruct (neutral_bits hd Hn) as (-> & -> & _). split.
    + f_equal. symmetry. apply bool_decide_eq_false. rewrite <- Hself. done.
    + eexists. split; [done|]. intros u Hu. by eapply held_nil.
  - destruct (mark_lock thread threads s hd lock u i Hs Hinf) as [Hm ->]. destruct Hs as (Hu & [Hb Hbo] & _ & _).
    rewrite Hm. destruct (lock_bits_of lock Hb) as (_ & -> & _ & _). unfold locker.
    destruct (is_lock_owned thread t lock) eqn:Hl.
    + assert (u = t) as -> by (by apply (th_disjoint _ _ Hthreads u t lock)).
      split; [f_equal; symmetry; apply bool_decide_eq_true; by apply Hself|]. eexists. split; [done|]. by apply Hself.
    + assert (Hne : u <> t) by congruence.
      split; [f_equal; symmetry; apply bool_decide_eq_false; rewrite <- Hself; cbn; congruence|]. eexists. split; [done|].
      by apply (Hother u).
  - destruct Hs as (Ha & Hm & oit & HM & Hoo). rewrite Hm. destruct (monitor_bits m Ha) as (_ & -> & -> & ->). rewrite HM.
    cbn [mbind option_bind _owner]. unfold is_entered. cbn [_owner].
    destruct (owner_tests thread threads Hthreads o own recs oit t Ht Hoo) as [H0 Hon]. rewrite Hon, H0, Z.eqb_sym, Hon.
    split; [f_equal; by apply bool_decide_ext|]. eexists. split; [done|].
    destruct o as [u|]; [|rewrite bool_decide_true by done; intros u Hu; by eapply held_nil].
    rewrite bool_decide_false by done. case_bool_decide as Hut; [by apply Hself|].
    apply (Hother u); [done|apply Hoo|congruence].
Qed.

(* ------------------------------------------------------------------ *)
(** ** A thread alone *)

(** [n] steps of [t] while the others stand still; what it finds is given by where it is. *)
Fixpoint alone (n : nat) (s : SyncState) (t : Z) (c : PC -> Choice) : option SyncState :=
  match n with
  | O => Some s
  | S n => '(s', _) ← sync_step thread Knob_ExitPolicy s t (c (pc (thr s t))); alone n s' t c
  end.

(** Within [k] steps the thread is back from its call, with the records [fs], and the others are where they were. *)
Definition finishes (k : nat) (s : SyncState) (t : Z) (c : PC -> Choice) (fs : list Z) : Prop :=
  exists n s', (n <= k)%nat /\ alone n s t c = Some s' /\ thr s' t = {| pc := Idle; frames := fs |} /\
    forall u, u <> t -> thr s' u = thr s u.

Lemma finishes_now k s t c fs : thr s t = {| pc := Idle; frames := fs |} -> finishes k s t c fs.
Proof using. intros H. exists O, s. split_and!; [lia|done|done|done]. Qed.

Lemma finishes_mono j k s t c fs : (j <= k)%nat -> finishes j s t c fs -> finishes k s t c fs.
Proof using. intros Hjk (n & s' & Hn & Hrest). exists n, s'. split; [lia|exact Hrest]. Qed.

Lemma finishes_step k s t c fs p fs1 s2 e : sync_step thread Knob_ExitPolicy s t (c (pc (thr s t))) = Some (put s2 t p fs1, e) ->
  thr s2 = thr s -> finishes k (put s2 t p fs1) t c fs -> finishes (S k) s t c fs.
Proof using.
  intros Hs Hthr (n & s' & Hn & Ha & Ht & Ho). exists (S n), s'. split_and!; [lia| |done|].
  - cbn [alone]. rewrite Hs. done.
  - intros u Hu. rewrite Ho by done. cbn [put thr]. rewrite Hthr. by apply fn_lookup_insert_ne.
Qed.

Lemma thr_put s t p fs : thr (put s t p fs) t = {| pc := p; frames := fs |}.
Proof using. apply fn_lookup_insert. Qed.

(** One step of the symbolic execution; [tac] decides its tests. *)
Ltac advance tac := eapply finishes_step;
  [unfold sync_step, call_step, slow_enter_step, enter_cas_step, inflate_read_step, enter_step, recurse_step, commute_step,
     fast_exit_read_step, fast_exit_mark_step, fast_exit_cas_step, exit_step, reread_owner_step, transmute_step, level_step, release_step,
     released_step, successor_step, inflated, left, go, entered, silent, locker;
   rewrite ?thr_put; cbn [pc frames]; tac; cbn [with_monitor after_exit set_displaced_header set_mark set_monitor thr];
   rewrite ?thr_put; cbn [frames]; reflexivity|reflexivity|].
Ltac finished := apply finishes_now; rewrite ?thr_put; done.

Lemma enter_alone s hd ph t c lock : Inv thread threads h0 s hd ph -> t ∈ threads -> pc (thr s t) = Idle ->
  mark s <> INFLATING -> call (c Idle) = CallEnter lock ->
  (forall u, owner_of ph = Some u -> u = t) -> finishes 5 s t c (lock :: frames (thr s t)).
Proof using Hthreads Hh0 Hn0.
  intros HI Ht Hpc Hinf Hc Hown. pose proof (inv_state _ _ _ _ _ _ HI) as Hs.
  pose proof (inv_header _ _ _ _ _ _ HI) as Hh. destruct (header_neutral h0 Hh0 Hn0 hd Hh) as [_ Hn].
  advance ltac:(rewrite Hpc, Hc).
  destruct ph as [|b u i|m o own recs].
  - advance ltac:(cbn [put mark]; cbn in Hs; rewrite Hs, Hn).
    advance ltac:(cbn [put set_displaced_header mark]; cbn in Hs; rewrite Hs, Z.eqb_refl). cbn [put set_displaced_header set_mark thr]. finished.
  - assert (u = t) as -> by by apply Hown.
    destruct (mark_lock thread threads s hd b t i Hs Hinf) as [Hm ->]. destruct Hs as (_ & [Hb Hbo] & _).
    destruct (lock_bits_of b Hb) as (Hb1 & Hb2 & _).
    advance ltac:(cbn [put mark]; rewrite Hm, Hb1, Hb2; cbn [andb]; rewrite Hbo). cbn [put set_displaced_header thr]. finished.
  - destruct Hs as (Ha & Hm & oit & HM & Hoo). destruct (monitor_bits m Ha) as (M1 & M2 & M3 & M4).
    advance ltac:(cbn [put mark]; rewrite Hm, M1, M2; cbn [andb]).
    advance ltac:(cbn [put set_displaced_header mark]; rewrite Hm, M3, M4).
    assert (Hcase : own = 0 \/ own <> 0 /\ own = t \/ own <> 0 /\ own <> t /\ is_lock_owned thread t own = true).
    { destruct o as [u|]; [|left; apply Hoo]. assert (u = t) as -> by by apply Hown.
      destruct (Z.eq_dec own 0); [by left|]. destruct (owner_is thread threads Hthreads _ _ _ _ _ eq_refl Hoo) as [[? _]|(? & ? & _)]; auto. }
    destruct Hcase as [-> | [[H0 ->] | (H0 & Hne & Hl)]].
    + advance ltac:(cbn [put set_displaced_header monitors]; rewrite HM; cbn [mbind option_bind _owner]; cbn [Z.eqb]).
      cbn [put set_displaced_header set_monitor thr]. finished.
    + advance ltac:(cbn [put set_displaced_header monitors]; rewrite HM; cbn [mbind option_bind _owner]; rewrite (proj2 (Z.eqb_neq t 0) H0), Z.eqb_refl).
      advance ltac:(cbn [put set_displaced_header monitors]; rewrite HM; cbn [mbind option_bind]).
      cbn [put set_displaced_header set_monitor thr]. finished.
    + advance ltac:(cbn [put set_displaced_header monitors]; rewrite HM; cbn [mbind option_bind _owner]; rewrite (proj2 (Z.eqb_neq own 0) H0), (proj2 (Z.eqb_neq own t) Hne), Hl).
      advance ltac:(cbn [put set_displaced_header monitors]; rewrite HM; cbn [mbind option_bind]).
      cbn [put set_displaced_header set_monitor thr]. finished.
Qed.

(** While the thread is alone the queues stay what they are: where the exit has found somebody to wake, it finds a successor. *)
Definition queues_agree (c : PC -> Choice) : Prop := forall k m,
  flag (c (MonRelease k m)) = true /\ flag (c (MonReleased k m)) = true \/ flag (c (MonSuccessor k m)) = true.

(** The tail of an exit from a monitor, once the owner field is the thread, from its end. *)
Lemma successor_alone s t c lock m mon fs : thr s t = {| pc := MonSuccessor (Leaving lock) m; frames := fs |} ->
  flag (c (MonSuccessor (Leaving lock) m)) = true -> monitors s !! m = Some mon -> _owner mon = t -> finishes 1 s t c fs.
Proof using.
  intros Hthr Hf HM Ho. advance ltac:(rewrite Hthr; cbn [pc]; rewrite HM; cbn [mbind option_bind]; rewrite Ho, Z.eqb_refl, Hf;
    cbn [guard_b set_monitor thr]; rewrite ?Hthr). finished.
Qed.

Lemma released_alone s t c lock m mon fs : thr s t = {| pc := MonReleased (Leaving lock) m; frames := fs |} ->
  queues_agree c -> monitors s !! m = Some mon -> _owner mon = 0 -> finishes 2 s t c fs.
Proof using.
  intros Hthr Hq HM Ho. destruct (flag (c (MonReleased (Leaving lock) m))) eqn:Hf.
  - advance ltac:(rewrite Hthr; cbn [pc]; rewrite Hf, ?Hthr). finished.
  - destruct (Hq (Leaving lock) m) as [[_ ?]|Hs]; [congruence|].
    advance ltac:(rewrite Hthr; cbn [pc]; rewrite Hf, HM; cbn [mbind option_bind]; rewrite Ho; cbn [Z.eqb set_monitor thr]; rewrite ?Hthr).
    eapply successor_alone; [apply thr_put|exact Hs|cbn [put set_monitor monitors]; apply lookup_insert_eq|done].
Qed.

Lemma release_alone s t c lock m mon fs : thr s t = {| pc := MonRelease (Leaving lock) m; frames := fs |} ->
  queues_agree c -> monitors s !! m = Some mon -> _owner mon = t -> finishes 3 s t c fs.
Proof using.
  intros Hthr Hq HM Ho. destruct ((Knob_ExitPolicy =? 0) || flag (c (MonRelease (Leaving lock) m))) eqn:Hf.
  - advance ltac:(rewrite Hthr; cbn [pc]; rewrite HM, Hf; cbn [mbind option_bind set_monitor thr]; rewrite ?Hthr).
    eapply released_alone; [apply thr_put|done|cbn [put set_monitor monitors]; apply lookup_insert_eq|done].
  - apply orb_false_iff in Hf as Hf'. destruct Hf' as [_ Hr]. destruct (Hq (Leaving lock) m) as [[? _]|Hs]; [congruence|].
    advance ltac:(rewrite Hthr; cbn [pc]; rewrite HM, Hf; cbn [mbind option_bind]; rewrite ?Hthr).
    apply (finishes_mono 1); [lia|]. eapply successor_alone; [apply thr_put|exact Hs|exact HM|exact Ho].
Qed.

Lemma level_alone s t c lock m mon fs : thr s t = {| pc := MonLevel (Leaving lock) m; frames := fs |} ->
  queues_agree c -> monitors s !! m = Some mon -> _owner mon = t -> finishes 4 s t c fs.
Proof using.
  intros Hthr Hq HM Ho. destruct (Z.eqb_spec (_recursions mon) 0) as [E|Hr].
  - advance ltac:(rewrite Hthr; cbn [pc]; rewrite HM; cbn [mbind option_bind]; rewrite E; cbn [Z.eqb negb]; rewrite ?Hthr).
    eapply release_alone; [apply thr_put|done|exact HM|exact Ho].
  - advance ltac:(rewrite Hthr; cbn [pc]; rewrite HM; cbn [mbind option_bind]; rewrite (proj2 (Z.eqb_neq _ 0) Hr); cbn [negb set_monitor thr]; rewrite ?Hthr).
    finished.
Qed.

(** An exit needs at most eleven steps: it swings the mark back, or goes down one level of the monitor or drops it. *)
Lemma exit_alone s hd ph t c lock fs : Inv thread threads h0 s hd ph -> t ∈ threads ->
  thr s t = {| pc := Idle; frames := lock :: fs |} -> mark s <> INFLATING -> call (c Idle) = CallExit -> queues_agree c ->
  finishes 11 s t c fs.
Proof using Hthreads Hh0 Hn0.
  intros HI Ht Hthr Hinf Hc Hf. pose proof (inv_state _ _ _ _ _ _ HI) as Hs.
  destruct (inv_thread _ _ _ _ _ _ HI t Ht) as [Ho _]. rewrite Hthr in Ho.
  destruct (held_owner thread _ _ _ _ _ _ Ho eq_refl) as (Hw & Hg & Hl & [Hla _] & Hb & d & Hd).
  advance ltac:(rewrite Hthr; cbn [pc]; rewrite Hc; cbn [frames]).
  destruct (Z.eqb_spec d 0) as [->|Hd0].
  { advance ltac:(cbn [put boxes]; rewrite Hd; cbn [mbind option_bind Z.eqb]). finished. }
  advance ltac:(cbn [put boxes]; rewrite Hd; cbn [mbind option_bind]; rewrite (proj2 (Z.eqb_neq d 0) Hd0)).
  destruct ph as [|b u i|m o own recs]; [done| |].
  - injection Hw as ->. destruct (mark_lock thread threads s hd b t i Hs Hinf) as [Hm ->].
    assert (fs = []) as -> by (apply (last_level (boxes s) lock); [by exists d|done|done]).
    destruct (Hb b t None eq_refl) as ([|x l'] & Hbl); [|by destruct l']. injection Hbl as ->.
    advance ltac:(cbn [put mark]; rewrite Hm, Z.eqb_refl). advance ltac:(cbn [put mark]; rewrite Hm, Z.eqb_refl). finished.
  - cbn in Hw. subst o. destruct Hs as (Ha & Hm & oit & HM & Hoo). destruct (monitor_bits m Ha) as (M1 & M2 & M3 & M4).
    assert (Hml : mark s <> lock).
    { rewrite Hm. intros Hx. destruct (lock_bits_of lock Hla) as (_ & L2 & _). rewrite Hx in M2. congruence. }
    advance ltac:(cbn [put mark]; rewrite (proj2 (Z.eqb_neq _ _) Hml)).
    advance ltac:(cbn [put mark]; rewrite Hm, M3, M4).
    destruct (owner_is thread threads Hthreads _ _ _ _ _ eq_refl Hoo) as [[-> _]|(Hne & Hlo & -> & _)].
    + advance ltac:(cbn [put monitors]; rewrite HM; cbn [mbind option_bind _owner]; rewrite Z.eqb_refl; cbn [negb]).
      apply (finishes_mono 4); [lia|]. eapply level_alone; [apply thr_put|done|exact HM|done].
    + advance ltac:(cbn [put monitors]; rewrite HM; cbn [mbind option_bind _owner]; rewrite (proj2 (Z.eqb_neq t own)) by congruence; cbn [negb]).
      advance ltac:(cbn [put monitors]; rewrite HM; cbn [mbind option_bind _owner]; rewrite Hlo).
      advance ltac:(cbn [put monitors]; rewrite HM; cbn [mbind option_bind]).
      eapply level_alone; [apply thr_put|done|cbn [put set_monitor monitors]; apply lookup_insert_eq|done].
Qed.

(** C24: a thread that runs alone, while nobody is inside an inflation, gets the lock within five steps if no other
    thread holds it, and leaves it within eleven, the waking of a successor included, whether or not threads are queued; the
    others do not notice.  The queues are those of the moment: if the exit finds somebody to wake, it finds a successor. *)
Theorem alone_enters_and_exits l s t c : run thread Knob_ExitPolicy threads h0 l s -> t ∈ threads ->
  pc (thr s t) = Idle -> mark s <> INFLATING ->
  (forall lock, call (c Idle) = CallEnter lock -> (forall u, u ∈ threads -> u <> t -> held (thr s u) = []) ->
     finishes 5 s t c (lock :: frames (thr s t))) /\
  (forall lock fs, call (c Idle) = CallExit -> queues_agree c -> frames (thr s t) = lock :: fs -> finishes 11 s t c fs).
Proof using Hthreads Hh0 Hn0.
  intros Hr Ht Hpc Hinf. destruct (run_invariant l s Hr) as (hd & ph & HI & _). split.
  - intros lock Hc Hfree. eapply enter_alone; eauto. intros u Hu. destruct (decide (u = t)) as [->|Hne]; [done|].
    assert (Hin : u ∈ threads).
    { pose proof (inv_state _ _ _ _ _ _ HI) as Hs. destruct ph as [|b v i|m o own recs]; [done| |]; cbn in Hu.
      - injection Hu as ->. apply Hs.
      - subst o. destruct Hs as (_ & _ & oit & _ & Hoo). apply Hoo. }
    exfalso. pose proof (owner_holds thread threads h0 s hd ph u HI Hin) as [Ho _]. apply Ho; [done|]. by apply Hfree.
  - intros lock fs Hc Hf Hfs. eapply exit_alone; eauto. rewrite <- Hpc, <- Hfs. by destruct (thr s t).
Qed.
End Theorems.

Lemma mutual_exclusion_witness : let s := (final (firstn 22 contention)).1 in
  frames (thr s thread_A) = [lock_A] /\ frames (thr s thread_B) = [] /\ held (thr s thread_B) = [].
Proof.
  cbv zeta. split; [by vm_compute|].
  apply (mutual_exclusion two_threads 0 [thread_A; thread_B] 1 two_threads_ok ltac:(by vm_compute) ltac:(by vm_compute)
           (final (firstn 22 contention)).2 _ thread_A thread_B); try (by vm_compute); try (by repeat constructor).
  by apply final_run; vm_compute.
Defined.

Lemma hash_stable_witness : (final contention).2 = [77; 77] /\ 77 = 77 /\ 0 < 77 < 2 ^ 31 /\ (hash 1 = 0 \/ 77 = hash 1).
Proof.
  split; [by vm_compute|].
  apply (proj1 (hash_stable two_threads 0 [thread_A; thread_B] 1 two_threads_ok ltac:(by vm_compute) ltac:(by vm_compute)
           (final contention).2 (final contention).1 ltac:(by apply final_run; vm_compute)) 77 77); vm_compute; constructor.
Defined.

(** B waits for the monitor and looks at its owner once more. *)
Lemma locking_never_fails_witness : let s := (final (firstn 20 contention)).1 in
  pc (thr s thread_B) = MonTryRead lock_B some_monitor /\
  is_Some (sync_step two_threads 0 s thread_B (choose CallHash true)).
Proof.
  cbv zeta. split; [by vm_compute|].
  apply (proj1 (locking_never_fails two_threads 0 [thread_A; thread_B] 1 two_threads_ok ltac:(by vm_compute) ltac:(by vm_compute)
           (final (firstn 20 contention)).2 _ thread_B (choose CallHash true) ltac:(by apply final_run; vm_compute) ltac:(by repeat constructor))).
  vm_compute. done.
Defined.

Lemma ownership_queries_witness : let s := (final contention).1 in
  current_thread_holds_lock two_threads s thread_B = Some (bool_decide (frames (thr s thread_B) <> [])) /\
  query_lock_ownership two_threads s thread_A = Some owner_other.
Proof.
  cbv zeta. split; [|by vm_compute].
  apply (ownership_queries two_threads 0 [thread_A; thread_B] 1 two_threads_ok ltac:(by vm_compute) ltac:(by vm_compute)
           (final contention).2 _ thread_B ltac:(by apply final_run; vm_compute)); [by repeat constructor|by vm_compute|by vm_compute].
Defined.

(** Threads are queued behind B: it wakes one. *)
Definition queued (p : PC) : Choice := match p with MonSuccessor _ _ => choose CallExit true | _ => choose CallExit false end.

Lemma alone_enters_and_exits_witness : finishes two_threads 0 5 (initial 1) thread_A (fun _ => choose (CallEnter lock_A) true) [lock_A] /\
  finishes two_threads 0 11 (final contention).1 thread_B queued [].
Proof.
  split.
  - apply (alone_enters_and_exits two_threads 0 [thread_A; thread_B] 1 two_threads_ok ltac:(by vm_compute) ltac:(by vm_compute)
             [] (initial 1) thread_A (fun _ => choose (CallEnter lock_A) true) ltac:(apply run_start)); try done. by repeat constructor.
  - apply (alone_enters_and_exits two_threads 0 [thread_A; thread_B] 1 two_threads_ok ltac:(by vm_compute) ltac:(by vm_compute)
             (final contention).2 _ thread_B queued ltac:(by apply final_run; vm_compute)) with (lock := lock_B);
      try (by vm_compute); [by repeat constructor|by right].
Defined.

(* ------------------------------------------------------------------ *)
(** ** The generators of hashes *)

Lemma fold_mersenne x : 0 <= x < 4294967296 -> (if pm_m <? x then u64 (Z.land x pm_m + 1) else x) = (if pm_m <? x then x - pm_m else x).
Proof.
  intros Hx. destruct (Z.ltb_spec pm_m x) as [Hl|Hl]; [|done]. change pm_m with (2 ^ 31 - 1) in Hl |- *.
  rewrite land_ones_mod by lia. change (2 ^ 31) with 2147483648 in *.
  assert (Hm : x mod 2147483648 = x - 2147483648).
  { symmetry. apply (Z.mod_unique x 2147483648 1); lia. }
  rewrite Hm, uwrap_small; [lia|lia|]. unfold in_u. change (2 ^ 64) with 18446744073709551616. lia.
Qed.

Lemma fold_range x : 0 <= x < 4294967294 -> 0 <= (if pm_m <? x then x - pm_m else x) <= pm_m /\
  exists k, x = (if pm_m <? x then x - pm_m else x) + k * pm_m.
Proof.
  intros Hx. unfold pm_m. destruct (Z.ltb_spec 2147483647 x).
  - split; [lia|]. exists 1. lia.
  - split; [lia|]. exists 0. lia.
Qed.

(** The product is split at bit 31 and its halves are added, as 2^31 is 1. *)
Lemma os_random_ok seed : seed_ok seed -> os_random seed = (pm_a * seed) mod pm_m.
Proof.
  intros Hs. pose proof (proj2 (randomParkAndMiller_ok seed Hs)) as Hne. rewrite (proj1 (randomParkAndMiller_ok seed Hs)) in Hne.
  unfold seed_ok in *. unfold os_random. change 0xFFFF with (2 ^ 16 - 1). change 0x7FFF with (2 ^ 15 - 1).
  change 2147483647 with pm_m. change 16807 with pm_a. rewrite !land_ones_mod, !Z.shiftr_div_pow2, Z.shiftl_mul_pow2 by lia.
  change (2 ^ 16) with 65536. change (2 ^ 15) with 32768.
  assert (Hw : forall x, 0 <= x < 2 ^ 63 -> u64 x = x /\ s64 x = x).
  { intros x Hx. split; [apply uwrap_small; [lia|]|apply swrap_small; [lia|]]; unfold in_u, in_s; change (64 - 1) with 63; lia. }
  change (2 ^ 63) with 9223372036854775808 in Hw. unfold pm_m in Hs.
  rewrite (proj1 (Hw seed ltac:(lia))).
  pose proof (Z.div_mod seed 65536 ltac:(lia)) as Hd. pose proof (Z.mod_pos_bound seed 65536 ltac:(lia)) as Hl.
  set (q := seed / 65536) in *. set (r := seed mod 65536) in *. assert (Hq : 0 <= q < 32768) by lia.
  unfold pm_a in *. rewrite (proj2 (Hw q ltac:(lia))), (proj1 (Hw (16807 * r) ltac:(lia))), (proj1 (Hw (16807 * q) ltac:(lia))).
  pose proof (Z.div_mod (16807 * q) 32768 ltac:(lia)) as Hh. pose proof (Z.mod_pos_bound (16807 * q) 32768 ltac:(lia)) as Hhl.
  set (p := 16807 * q / 32768) in *. set (hl := (16807 * q) mod 32768) in *. assert (Hp : 0 <= p < 16807) by lia.
  rewrite (proj1 (Hw (16807 * r + hl * 65536) ltac:(lia))). rewrite (fold_mersenne (16807 * r + hl * 65536)) by lia.
  destruct (fold_range (16807 * r + hl * 65536) ltac:(lia)) as [H1 [k1 E1]].
  set (lo := if pm_m <? 16807 * r + hl * 65536 then _ else _) in *. unfold pm_m in H1.
  rewrite (proj1 (Hw (lo + p) ltac:(lia))), (fold_mersenne (lo + p)) by lia.
  destruct (fold_range (lo + p) ltac:(lia)) as [H2 [k2 E2]].
  set (lo2 := if pm_m <? lo + p then _ else _) in *. unfold pm_m in H2. rewrite (proj2 (Hw lo2 ltac:(lia))).
  assert (Hc : 16807 * seed = lo2 + (k1 + k2 + p) * pm_m) by (unfold pm_m in *; lia).
  rewrite Hc, Z.mod_add in Hne |- * by done. unfold pm_m in *.
  destruct (Z.eq_dec lo2 2147483647) as [He|He]; [rewrite He in Hne; exfalso; by destruct Hne|]. symmetry. apply Z.mod_small. lia.
Qed.

(** whatever generator is chosen, a hash fits its field and is not the absent one; and [os::random], the default
    one, is the Park-Miller generator that stealing threads use: it multiplies by 16807 modulo 2^31-1, without
    overflow, from any seed. *)
Theorem hash_codes hashCode obj s seed : seed_ok seed ->
  (0 < (get_next_hash hashCode obj s).1 < 2 ^ 31) /\
  os_random seed = (16807 * seed) mod 2147483647 /\ os_random seed = randomParkAndMiller seed.
Proof.
  intros Hs. split.
  - unfold get_next_hash. destruct (match hashCode with 0 => _ | _ => _ end) as [v s']. cbn [fst]. apply finish_hash_ok.
  - rewrite (proj1 (randomParkAndMiller_ok seed Hs)). split; by apply os_random_ok.
Qed.

(** The value that the self-test of the machine expects after 10000 numbers from the seed 1. *)
Example test_random : Nat.iter (Z.to_nat 10000) os_random 1 = 1043618065.
Proof. by vm_compute. Qed.

Lemma hash_codes_witness : 0 < (get_next_hash 0 0x1000
    {| rand_seed := 1; stwRandom := 0; hcSequence := 0; hashStateX := 1; hashStateY := 2; hashStateZ := 3; hashStateW := 4 |}).1 < 2 ^ 31 /\
  os_random 1 = (16807 * 1) mod 2147483647 /\ os_random 1 = randomParkAndMiller 1.
Proof. apply (hash_codes 0). by vm_compute. Defined.
