(* ===== verification/MonitorLists.v ===== *)
(** * MonitorLists: the life of monitors, omAlloc, omRelease, omFlush and deflate_idle_monitors of runtime/synchronizer.cpp

    Monitors are made in blocks and never freed.  One that belongs to no object is on the global free list or on the free list of a
    thread, linked through its field FreeNext; the first of each block links the blocks.  The operations on the global
    list are under one lock and those on the list of a thread are its own, so each function is
    one step here; the unlocked test of the global list only decides where it looks next.  This is what [Synchronizer] takes
    as the choice of a fresh monitor.  [MonitorListsSpec] has the invariant and the theorems. *)

From stdpp Require Import gmap functions.
From S2P Require Import Prelude GlobalDefs Synchronizer.

Definition _BLOCKSIZE : Z := 128.
Definition MAXPRIVATE : Z := 1024.
(** [CHAINMARKER], an object no monitor has. *)
Definition CHAINMARKER : Z := 2 ^ 64 - 1.

(** The fields the lists use; [core] has the ones of [Synchronizer]. *)
Record Monitor := { FreeNext : Z; object : Z; core : ObjectMonitor }.
Definition zero_core : ObjectMonitor := {| _header := 0; _owner := 0; _recursions := 0; _count := 0; OwnerIsThread := 0 |}.
Definition new_Monitor : Monitor := {| FreeNext := 0; object := 0; core := zero_core |}.

Definition set_FreeNext (m : Monitor) (a : Z) : Monitor := {| FreeNext := a; object := object m; core := core m |}.
Definition set_object (m : Monitor) (o : Z) : Monitor := {| FreeNext := FreeNext m; object := o; core := core m |}.
Definition set_core (m : Monitor) (c : ObjectMonitor) : Monitor := {| FreeNext := FreeNext m; object := object m; core := c |}.

(** What a thread has, with the values of its constructor. *)
Record ThreadLists := {
  omFreeList : Z; omFreeCount : Z; omFreeProvision : Z; omInUseList : Z; omInUseCount : Z
}.
Definition new_ThreadLists : ThreadLists :=
  {| omFreeList := 0; omFreeCount := 0; omFreeProvision := 32; omInUseList := 0; omInUseCount := 0 |}.

Record Pool := {
  pool_mem : gmap Z Monitor;
  gFreeList : Z; gBlockList : Z; MonitorFreeCount : Z; MonitorPopulation : Z;
  locals : Z -> ThreadLists
}.
Definition empty_pool : Pool :=
  {| pool_mem := ∅; gFreeList := 0; gBlockList := 0; MonitorFreeCount := 0; MonitorPopulation := 0;
     locals := fun _ => new_ThreadLists |}.

Definition set_mem (p : Pool) (h : gmap Z Monitor) : Pool :=
  {| pool_mem := h; gFreeList := gFreeList p; gBlockList := gBlockList p; MonitorFreeCount := MonitorFreeCount p;
     MonitorPopulation := MonitorPopulation p; locals := locals p |}.
Definition set_global (p : Pool) (head count : Z) : Pool :=
  {| pool_mem := pool_mem p; gFreeList := head; gBlockList := gBlockList p; MonitorFreeCount := count;
     MonitorPopulation := MonitorPopulation p; locals := locals p |}.
Definition set_local (p : Pool) (t : Z) (l : ThreadLists) : Pool :=
  {| pool_mem := pool_mem p; gFreeList := gFreeList p; gBlockList := gBlockList p; MonitorFreeCount := MonitorFreeCount p;
     MonitorPopulation := MonitorPopulation p; locals := <[t := l]> (locals p) |}.

(** A write to a field of a monitor, which must exist. *)
Definition update (p : Pool) (m : Z) (f : Monitor -> Monitor) : option Pool :=
  mon ← pool_mem p !! m; Some (set_mem p (<[m := f mon]> (pool_mem p))).

Section Lists.
Context (sizeof_ObjectMonitor : Z) (MonitorInUseLists : bool).

Definition omRelease (p : Pool) (Self m : Z) : option Pool :=
  mon ← pool_mem p !! m;
  guard_b (object mon =? 0)
    (let l := locals p Self in
     p ← update p m (fun mon => set_FreeNext mon (omFreeList l));
     Some (set_local p Self {| omFreeList := m; omFreeCount := s32 (omFreeCount l + 1); omFreeProvision := omFreeProvision l;
                               omInUseList := omInUseList l; omInUseCount := omInUseCount l |})).

(** Case 1 of [omAlloc]: from the list of the thread. *)
Definition alloc_local (p : Pool) (Self : Z) : option (Z * Pool) :=
  let l := locals p Self in
  let m := omFreeList l in
  mon ← pool_mem p !! m;
  let l := {| omFreeList := FreeNext mon; omFreeCount := s32 (omFreeCount l - 1); omFreeProvision := omFreeProvision l;
              omInUseList := omInUseList l; omInUseCount := omInUseCount l |} in
  guard_b (object mon =? 0)
    (if MonitorInUseLists then
       p ← update p m (fun mon => set_FreeNext mon (omInUseList l));
       Some (m, set_local p Self {| omFreeList := omFreeList l; omFreeCount := omFreeCount l; omFreeProvision := omFreeProvision l;
                                    omInUseList := m; omInUseCount := s32 (omInUseCount l + 1) |})
     else Some (m, set_local p Self l)).

(** Case 2: monitors move from the global list to the list of the thread, [n] at most. *)
Fixpoint reprovision (n : nat) (p : Pool) (Self : Z) : option Pool :=
  match n with
  | O => Some p
  | S n =>
      if gFreeList p =? 0 then Some p
      else
        let take := gFreeList p in
        mon ← pool_mem p !! take;
        let p := set_global p (FreeNext mon) (s32 (MonitorFreeCount p - 1)) in
        guard_b (object mon =? 0)
          (guard_b (negb (is_busy (core mon)))
             (p ← update p take (fun mon => set_core mon (Recycle (core mon)));
              p ← omRelease p Self take;
              reprovision n p Self))
  end.

Definition grow_provision (p : Pool) (Self : Z) : Pool :=
  let l := locals p Self in
  let provision := s32 (omFreeProvision l + s32 (1 + Z.quot (omFreeProvision l) 2)) in
  set_local p Self {| omFreeList := omFreeList l; omFreeCount := omFreeCount l;
                      omFreeProvision := if MAXPRIVATE <? provision then MAXPRIVATE else provision;
                      omInUseList := omInUseList l; omInUseCount := omInUseCount l |}.

(** Case 3: a block of new monitors at [temp]; the first one links the blocks. *)
Definition element (temp i : Z) : Z := temp + i * sizeof_ObjectMonitor.
Definition new_block (temp : Z) (h : gmap Z Monitor) : gmap Z Monitor :=
  foldr (fun i h => <[element temp i := new_Monitor]> h) h (seqZ 0 _BLOCKSIZE).
Definition alloc_block (p : Pool) (temp : Z) : option Pool :=
  if temp =? 0 then None
  else
    let p := set_mem p (new_block temp (pool_mem p)) in
    p ← each_range 1 _BLOCKSIZE (fun i p => update p (element temp i) (fun mon => set_FreeNext mon (element temp (i + 1)))) p;
    p ← update p (element temp (_BLOCKSIZE - 1)) (fun mon => set_FreeNext mon 0);
    p ← update p temp (fun mon => set_object mon CHAINMARKER);
    let p := {| pool_mem := pool_mem p; gFreeList := gFreeList p; gBlockList := gBlockList p;
                MonitorFreeCount := s32 (MonitorFreeCount p + (_BLOCKSIZE - 1));
                MonitorPopulation := s32 (MonitorPopulation p + (_BLOCKSIZE - 1)); locals := locals p |} in
    p ← update p temp (fun mon => set_FreeNext mon (gBlockList p));
    p ← update p (element temp (_BLOCKSIZE - 1)) (fun mon => set_FreeNext mon (gFreeList p));
    Some {| pool_mem := pool_mem p; gFreeList := element temp 1; gBlockList := temp;
            MonitorFreeCount := MonitorFreeCount p; MonitorPopulation := MonitorPopulation p; locals := locals p |}.

(** The loop of [omAlloc]; [temp] is the block that new would return. *)
Fixpoint omAlloc_loop (fuel : nat) (p : Pool) (Self temp : Z) : option (Z * Pool) :=
  match fuel with
  | O => None
  | S fuel =>
      if negb (omFreeList (locals p Self) =? 0) then alloc_local p Self
      else if negb (gFreeList p =? 0) then
        p ← reprovision (Z.to_nat (omFreeProvision (locals p Self))) p Self;
        omAlloc_loop fuel (grow_provision p Self) Self temp
      else
        p ← alloc_block p temp;
        omAlloc_loop fuel p Self temp
  end.
Definition omAlloc (p : Pool) (Self temp : Z) : option (Z * Pool) := omAlloc_loop 3 p Self temp.

(** [omFlush]: the list of a dying thread goes in front of the global list. *)
Fixpoint flush_walk (fuel : nat) (p : Pool) (s Tail Tally : Z) : option (Pool * Z * Z) :=
  if s =? 0 then Some (p, Tail, Tally)
  else
    match fuel with
    | O => None
    | S fuel =>
        mon ← pool_mem p !! s;
        guard_b (object mon =? 0)
          (guard_b (negb (is_busy (core mon)))
             (p ← update p s (fun mon => set_core mon (set_owner (core mon) 0));
              flush_walk fuel p (FreeNext mon) s (Tally + 1)))
    end.

Definition omFlush (p : Pool) (Self : Z) : option Pool :=
  let l := locals p Self in
  let List_ := omFreeList l in
  let p := set_local p Self {| omFreeList := 0; omFreeCount := omFreeCount l; omFreeProvision := omFreeProvision l;
                               omInUseList := omInUseList l; omInUseCount := omInUseCount l |} in
  if List_ =? 0 then Some p
  else
    '(p, Tail, Tally) ← flush_walk (size (pool_mem p)) p List_ 0 0;
    guard_b (negb (Tail =? 0) && negb (List_ =? 0))
      (p ← update p Tail (fun mon => set_FreeNext mon (gFreeList p));
       Some (set_global p List_ (s32 (MonitorFreeCount p + Tally)))).

(** [inflate] on the monitor it got: the link is cleared, and the monitor gets its object when it is published. *)
Definition prepare (p : Pool) (m : Z) : option Pool :=
  update p m (fun mon => set_FreeNext (set_core mon (Recycle (core mon))) 0).
Definition associate (p : Pool) (m obj : Z) (c : ObjectMonitor) : option Pool :=
  update p m (fun mon => set_core (set_object mon obj) c).

(** The working list of deflation. *)
Record Scavenged := { FreeHead : Z; FreeTail : Z; nScavenged : Z }.

(** [deflate_monitor], without the mark of the object. *)
Definition scavenge (p : Pool) (w : Scavenged) (mid : Z) : option (bool * Pool * Scavenged) :=
  mon ← pool_mem p !! mid;
  if is_busy (core mon) then Some (false, p, w)
  else
    p ← update p mid (fun mon => set_object (set_core mon (set_header (core mon) 0)) 0);
    p ← (if FreeTail w =? 0 then Some p else update p (FreeTail w) (fun mon => set_FreeNext mon mid));
    Some (true, p, {| FreeHead := if FreeHead w =? 0 then mid else FreeHead w; FreeTail := mid; nScavenged := nScavenged w |}).

Definition one_more (w : Scavenged) : Scavenged :=
  {| FreeHead := FreeHead w; FreeTail := FreeTail w; nScavenged := nScavenged w + 1 |}.

(** The monitors of a block, in order. *)
Definition scan_monitor (block i : Z) (st : Pool * Scavenged) : option (Pool * Scavenged) :=
  let '(p, w) := st in
  let mid := element block i in
  mon ← pool_mem p !! mid;
  if object mon =? 0 then guard_b (negb (is_busy (core mon))) (Some (p, w))
  else
    '(deflated, p, w) ← scavenge p w mid;
    if (deflated : bool) then
      p ← update p mid (fun mon => set_FreeNext mon 0);
      Some (p, one_more w)
    else Some (p, w).

Fixpoint scan_blocks (fuel : nat) (block : Z) (st : Pool * Scavenged) : option (Pool * Scavenged) :=
  if block =? 0 then Some st
  else
    match fuel with
    | O => None
    | S fuel =>
        st ← each_range 1 _BLOCKSIZE (scan_monitor block) st;
        mon ← pool_mem st.1 !! block;
        scan_blocks fuel (FreeNext mon) st
    end.

(** The monitors a thread has in use, with the list repaired when one goes. *)
Fixpoint scan_in_use (fuel : nat) (cur mid curmidinuse : Z) (st : Pool * Scavenged) : option (Pool * Scavenged) :=
  if mid =? 0 then Some st
  else
    match fuel with
    | O => None
    | S fuel =>
        let '(p, w) := st in
        mon ← pool_mem p !! mid;
        '(deflated, p, w) ← (if object mon =? 0 then Some (false, p, w) else scavenge p w mid);
        mon ← pool_mem p !! mid;
        if (deflated : bool) then
          let l := locals p cur in
          p ← (if mid =? omInUseList l then
                 Some (set_local p cur {| omFreeList := omFreeList l; omFreeCount := omFreeCount l; omFreeProvision := omFreeProvision l;
                                          omInUseList := FreeNext mon; omInUseCount := omInUseCount l |})
               else if negb (curmidinuse =? 0) then update p curmidinuse (fun c => set_FreeNext c (FreeNext mon))
               else Some p);
          p ← update p mid (fun mon => set_FreeNext mon 0);
          let l := locals p cur in
          let p := set_local p cur {| omFreeList := omFreeList l; omFreeCount := omFreeCount l; omFreeProvision := omFreeProvision l;
                                      omInUseList := omInUseList l; omInUseCount := s32 (omInUseCount l - 1) |} in
          scan_in_use fuel cur (FreeNext mon) curmidinuse (p, one_more w)
        else scan_in_use fuel cur (FreeNext mon) mid (p, w)
    end.

Fixpoint scan_threads (threads : list Z) (st : Pool * Scavenged) : option (Pool * Scavenged) :=
  match threads with
  | [] => Some st
  | cur :: threads =>
      st ← scan_in_use (S (size (pool_mem st.1))) cur (omInUseList (locals st.1 cur)) 0 st;
      scan_threads threads st
  end.

Definition deflate_idle_monitors (p : Pool) (threads : list Z) : option Pool :=
  let w := {| FreeHead := 0; FreeTail := 0; nScavenged := 0 |} in
  '(p, w) ← (if MonitorInUseLists then scan_threads threads (p, w)
             else scan_blocks (S (size (pool_mem p))) (gBlockList p) (p, w));
  let p := set_global p (gFreeList p) (s32 (MonitorFreeCount p + nScavenged w)) in
  if FreeHead w =? 0 then Some p
  else
    guard_b (negb (FreeTail w =? 0) && (0 <? nScavenged w))
      (p ← update p (FreeTail w) (fun mon => set_FreeNext mon (gFreeList p));
       Some (set_global p (FreeHead w) (MonitorFreeCount p))).
End Lists.
