(* ===== verification/MonitorListsSpec.v ===== *)
(** * MonitorListsSpec: no monitor is lost or handed out twice

    The invariant of [MonitorLists] without MonitorInUseLists: each monitor of each block is on exactly one list, global or of a
    thread, or is handed out; those on lists belong to no object and are not busy.  With
    MonitorInUseLists the list of monitors in use is cut by [inflate], which the last theorem shows. *)

From stdpp Require Import gmap functions.
From S2P Require Import Prelude GlobalDefs Synchronizer MonitorLists.

(* ------------------------------------------------------------------ *)
(** ** Chains *)

(** From [a], the links lead through [l] to the end of the list. *)
Fixpoint chain (h : gmap Z Monitor) (a : Z) (l : list Z) : Prop :=
  match l with
  | [] => a = 0
  | m :: l => a = m /\ m <> 0 /\ exists mon, h !! m = Some mon /\ chain h (FreeNext mon) l
  end.

(** A monitor that can be handed out. *)
Definition unused (h : gmap Z Monitor) (m : Z) : Prop :=
  exists mon, h !! m = Some mon /\ object mon = 0 /\ is_busy (core mon) = false.

Lemma chain_ext h h' a l : (forall m, m ∈ l -> FreeNext <$> h' !! m = FreeNext <$> h !! m) -> chain h a l -> chain h' a l.
Proof.
  revert a. induction l as [|m l IH]; intros a Hext Hc; [done|]. destruct Hc as (Ha & Hm & mon & Hmon & Hc).
  split_and!; try done. pose proof (Hext m ltac:(left)) as He. rewrite Hmon in He. cbn in He.
  destruct (h' !! m) as [mon'|]; [|done]. injection He as He. exists mon'. split; [done|]. rewrite He.
  apply IH; [|done]. intros x Hx. apply Hext. by right.
Qed.

Lemma chain_put h a l m mon : m ∉ l -> chain h a l -> chain (<[m := mon]> h) a l.
Proof. intros Hm. apply chain_ext. intros x Hx. rewrite lookup_insert_ne; [done|]. intros ->. done. Qed.

(** The link of [m] is kept. *)
Lemma chain_keep h a l m mon mon' : h !! m = Some mon -> FreeNext mon' = FreeNext mon -> chain h a l -> chain (<[m := mon']> h) a l.
Proof.
  intros Hm He. apply chain_ext. intros x Hx. destruct (decide (x = m)) as [->|Hne].
  - rewrite lookup_insert_eq, Hm. cbn. by rewrite He.
  - by rewrite lookup_insert_ne.
Qed.

Lemma chain_head h a l : chain h a l -> a <> 0 -> exists l', l = a :: l'.
Proof. destruct l as [|m l]; intros Hc Ha; [done|]. destruct Hc as (-> & _). by eexists. Qed.

Lemma chain_zero h l : chain h 0 l -> l = [].
Proof. destruct l as [|m l]; intros Hc; [done|]. destruct Hc as (? & ? & _). congruence. Qed.

Lemma chain_nonzero h a l : chain h a l -> Forall (fun m => m <> 0) l.
Proof. revert a. induction l as [|m l IH]; intros a Hc; [done|]. destruct Hc as (_ & Hm & mon & _ & Hc). constructor; eauto. Qed.

Lemma unused_ext h h' m : h' !! m = h !! m -> unused h m -> unused h' m.
Proof. intros He (mon & Hm & Hr). exists mon. by rewrite He. Qed.

Lemma unused_insert h l m mon : m ∉ l -> Forall (unused h) l -> Forall (unused (<[m := mon]> h)) l.
Proof.
  intros Hm Hl. rewrite list.Forall_forall in Hl |- *. intros x Hx. apply (unused_ext h); [|by apply Hl].
  apply lookup_insert_ne. intros ->. done.
Qed.

(** A link rewritten, or a field the lists do not look at. *)
Lemma unused_keep h l m mon mon' : h !! m = Some mon -> object mon' = object mon ->
  is_busy (core mon') = is_busy (core mon) -> Forall (unused h) l -> Forall (unused (<[m := mon']> h)) l.
Proof.
  intros Hm Ho Hb Hl. rewrite list.Forall_forall in Hl |- *. intros x Hx. destruct (decide (x = m)) as [->|Hne].
  - destruct (Hl m Hx) as (mon0 & Hm0 & H1 & H2). rewrite Hm in Hm0. injection Hm0 as <-. exists mon'.
    rewrite lookup_insert_eq. split_and!; congruence.
  - apply (unused_ext h); [by apply lookup_insert_ne|by apply Hl].
Qed.

(** Two chains joined at the end of the first. *)
Lemma chain_join h a l m b l' mon : chain h a (l ++ [m]) -> m ∉ l -> h !! m = Some mon -> m ∉ l' -> chain h b l' ->
  chain (<[m := set_FreeNext mon b]> h) a (l ++ m :: l').
Proof.
  intros Hc Hl Hm Hl' Hc'. revert a Hc. induction l as [|x l IH]; intros a Hc.
  - destruct Hc as (-> & Hne & _). cbn [app chain]. split_and!; try done. eexists. split; [apply lookup_insert_eq|].
    cbn [set_FreeNext FreeNext]. by apply chain_put.
  - cbn [app chain] in *. destruct Hc as (-> & Hne & y & Hy & Hc). split_and!; try done.
    exists y. split; [rewrite lookup_insert_ne; [done|]; intros ->; apply Hl; left|]. apply IH; [|done].
    intros Hx. apply Hl. by right.
Qed.

(** A monitor put in front of a chain. *)
Lemma chain_push h a l m mon : m <> 0 -> m ∉ l -> chain h a l -> chain (<[m := set_FreeNext mon a]> h) m (m :: l).
Proof.
  intros Hne Hl Hc. cbn [chain]. split_and!; try done. eexists. split; [apply lookup_insert_eq|].
  cbn [set_FreeNext FreeNext]. by apply chain_put.
Qed.

(* ------------------------------------------------------------------ *)
(** ** Lists of all threads *)

Lemma bind_ext (l : list Z) (F F' : Z -> list Z) : (forall u, u ∈ l -> F' u = F u) -> (l ≫= F') = (l ≫= F).
Proof.
  induction l as [|u l IH]; intros H; [done|]. cbn. rewrite (H u) by left. f_equal. apply IH. intros v Hv. apply H. by right.
Qed.

Lemma bind_split (l : list Z) (F : Z -> list Z) t : NoDup l -> t ∈ l ->
  exists R, forall F', (forall u, u <> t -> F' u = F u) -> (l ≫= F') ≡ₚ F' t ++ R.
Proof.
  intros Hnd Ht. apply list_elem_of_split in Ht as (l1 & l2 & ->). exists ((l1 ++ l2) ≫= F).
  intros F' HF'. rewrite !bind_app. cbn. apply list.NoDup_app in Hnd as (_ & H1 & H2). apply list.NoDup_cons in H2 as [H2 _].
  rewrite (bind_ext l1 F F'), (bind_ext l2 F F').
  - rewrite !(assoc_L (++)), (Permutation_app_comm (l1 ≫= F) (F' t)). done.
  - intros u Hu. apply HF'. intros ->. done.
  - intros u Hu. apply HF'. intros ->. apply (H1 t Hu). left.
Qed.

Section Spec.
Context (sz : Z) (Hsz : 0 < sz) (threads : list Z) (Hnd : NoDup threads).

(** The monitors of a block and of a list of blocks. *)
Definition members (b : Z) : list Z := element sz b <$> seqZ 1 127.
Definition all_members (bs : list Z) : list Z := bs ≫= members.

(** The monitors handed out are [U]; the lists are [G] and [F]; the blocks are [bs]. *)
Record PInv (p : Pool) (G : list Z) (F : Z -> list Z) (U bs : list Z) : Prop := {
  pi_global : chain (pool_mem p) (gFreeList p) G;
  pi_local t : chain (pool_mem p) (omFreeList (locals p t)) (F t);
  pi_blocks : chain (pool_mem p) (gBlockList p) bs;
  pi_marker : Forall (fun b => exists mon, pool_mem p !! b = Some mon /\ object mon = CHAINMARKER) bs;
  pi_perm : G ++ (threads ≫= F) ++ U ≡ₚ all_members bs;
  pi_nodup : NoDup (bs ++ all_members bs);
  pi_unused : Forall (unused (pool_mem p)) (G ++ (threads ≫= F));
  pi_used : Forall (fun m => m <> 0 /\ is_Some (pool_mem p !! m)) U;
  pi_none t : t ∉ threads -> F t = [];
  pi_free : MonitorFreeCount p = s32 (Z.of_nat (length G));
  pi_population : MonitorPopulation p = s32 (127 * Z.of_nat (length bs));
  pi_provision t : 0 < omFreeProvision (locals p t) <= MAXPRIVATE
}.

Lemma PInv_empty : PInv empty_pool [] (fun _ => []) [] [].
Proof.
  assert (H : (threads ≫= (fun _ : Z => @nil Z)) = []) by (clear; induction threads; done).
  split; cbn; try done; rewrite ?H; try done. constructor.
Qed.

(** Everything is in one place only. *)
Lemma PInv_nodup p G F U bs : PInv p G F U bs -> NoDup (G ++ (threads ≫= F) ++ U).
Proof. intros HI. rewrite (pi_perm _ _ _ _ _ HI). pose proof (pi_nodup _ _ _ _ _ HI) as H. by apply list.NoDup_app in H as (_ & _ & ?). Qed.

Lemma local_in (F : Z -> list Z) t m : t ∈ threads -> m ∈ F t -> m ∈ (threads ≫= F).
Proof. intros Ht Hm. apply list_elem_of_bind. by exists t. Qed.

Lemma used_elsewhere p G F U bs m : PInv p G F U bs -> m ∈ U ->
  m ∉ G /\ m ∉ (threads ≫= F) /\ (forall t, m ∉ F t) /\ m ∉ bs.
Proof.
  intros HI Hm. pose proof (PInv_nodup _ _ _ _ _ HI) as Hn. apply list.NoDup_app in Hn as (_ & H1 & H2).
  apply list.NoDup_app in H2 as (_ & H2 & _). split_and!.
  - intros HG. apply (H1 m HG). apply elem_of_app. by right.
  - intros HF. by apply (H2 m).
  - intros t Ht. destruct (decide (t ∈ threads)) as [Hin|Hin]; [by apply (H2 m); [eapply local_in|]|].
    rewrite (pi_none _ _ _ _ _ HI) in Ht by done. by apply not_elem_of_nil in Ht.
  - intros Hb. pose proof (pi_nodup _ _ _ _ _ HI) as Hn2. apply list.NoDup_app in Hn2 as (_ & H3 & _). apply (H3 m Hb).
    rewrite <- (pi_perm _ _ _ _ _ HI). set_solver.
Qed.

(** A handed-out monitor may be written in any way. *)
Lemma PInv_update p G F U bs m f mon : PInv p G F U bs -> m ∈ U -> pool_mem p !! m = Some mon ->
  update p m f = Some (set_mem p (<[m := f mon]> (pool_mem p))) /\ PInv (set_mem p (<[m := f mon]> (pool_mem p))) G F U bs.
Proof.
  intros HI Hm Hmon. destruct (used_elsewhere _ _ _ _ _ _ HI Hm) as (HG & HF & HFt & Hb).
  split; [unfold update; by rewrite Hmon|].
  destruct HI as [I1 I2 I3 I4 I5 I6 I7 I8 I9 I10 I11 I12]. split; cbn; try done.
  - by apply chain_put.
  - intros t. by apply chain_put.
  - by apply chain_put.
  - rewrite list.Forall_forall in I4 |- *. intros b Hbb. rewrite lookup_insert_ne; [by apply I4|]. intros ->. done.
  - apply unused_insert; [|done]. set_solver.
  - rewrite list.Forall_forall in I8 |- *. intros x Hx. destruct (I8 x Hx) as [Hne Hs]. split; [done|].
    destruct (decide (x = m)) as [->|Hxm]; [rewrite lookup_insert_eq; by eexists|by rewrite lookup_insert_ne].
Qed.

(** Handed-out monitors in another order. *)
Lemma PInv_perm p G F U U' bs : U ≡ₚ U' -> PInv p G F U bs -> PInv p G F U' bs.
Proof. intros HU [I1 I2 I3 I4 I5 I6 I7 I8 I9 I10 I11 I12]. split; try done; by rewrite <- HU. Qed.

(* ------------------------------------------------------------------ *)
(** ** Taking and giving back *)

Definition set_list (F : Z -> list Z) (t : Z) (l : list Z) : Z -> list Z := <[t := l]> F.

Lemma set_list_eq F t l : set_list F t l t = l.
Proof. apply fn_lookup_insert. Qed.
Lemma set_list_ne F t l u : u <> t -> set_list F t l u = F u.
Proof. intros H. apply fn_lookup_insert_ne. done. Qed.

(** What changes when one element moves between the list of a thread and the rest. *)
Lemma set_list_split F t l : t ∈ threads -> exists R, (threads ≫= F) ≡ₚ F t ++ R /\ (threads ≫= set_list F t l) ≡ₚ l ++ R.
Proof.
  intros Ht. destruct (bind_split threads F t Hnd Ht) as [R HR]. exists R. split; [by apply HR|].
  rewrite (HR (set_list F t l)); [by rewrite set_list_eq|]. intros u Hu. by apply set_list_ne.
Qed.

(** Handed-out monitors are not touched. *)
Definition keeps (U : list Z) (p p' : Pool) : Prop := forall x, x ∈ U -> pool_mem p' !! x = pool_mem p !! x.

Lemma keeps_insert p m (U : list Z) h mon : m ∉ U -> (h = <[m := mon]> (pool_mem p)) -> forall x, x ∈ U -> h !! x = pool_mem p !! x.
Proof. intros Hm -> x Hx. apply lookup_insert_ne. intros ->. done. Qed.

Lemma keeps_trans U p p' p'' : keeps U p p' -> keeps U p' p'' -> keeps U p p''.
Proof. intros H1 H2 x Hx. rewrite H2 by done. by apply H1. Qed.

Lemma used_cons p G F U bs m : PInv p G F (m :: U) bs -> m ∉ U.
Proof.
  intros HI. pose proof (PInv_nodup _ _ _ _ _ HI) as H. apply list.NoDup_app in H as (_ & _ & H).
  apply list.NoDup_app in H as (_ & _ & H). by apply list.NoDup_cons in H as [? _].
Qed.

(** [omRelease] of a monitor that is handed out and of no object. *)
Lemma omRelease_ok p G F U bs t m : PInv p G F (m :: U) bs -> t ∈ threads -> unused (pool_mem p) m ->
  exists p', omRelease p t m = Some p' /\ PInv p' G (set_list F t (m :: F t)) U bs /\ keeps U p p'.
Proof.
  intros HI Ht (mon & Hmon & Ho & Hb). unfold omRelease, update. rewrite Hmon. cbn [mbind option_bind]. rewrite Ho.
  cbn [Z.eqb guard_b]. eexists. split; [done|]. split; [|by intros x Hx; eapply keeps_insert; [by eapply used_cons| |]].
  destruct (used_elsewhere _ _ _ _ _ _ HI ltac:(by left)) as (HG & HF & HFt & Hbs).
  destruct (set_list_split F t (m :: F t) Ht) as (R & HR & HR').
  destruct HI as [I1 I2 I3 I4 I5 I6 I7 I8 I9 I10 I11 I12]. apply list.Forall_cons in I8 as [[Hm0 _] I8].
  split; cbn [set_local set_mem pool_mem gFreeList gBlockList locals MonitorFreeCount MonitorPopulation]; try done.
  - by apply chain_put.
  - intros u. destruct (decide (u = t)) as [->|Hu].
    + rewrite fn_lookup_insert, set_list_eq. cbn [omFreeList]. by apply chain_push.
    + rewrite fn_lookup_insert_ne, set_list_ne by done. by apply chain_put.
  - by apply chain_put.
  - rewrite list.Forall_forall in I4 |- *. intros b Hbb. rewrite lookup_insert_ne; [by apply I4|]. intros ->. done.
  - rewrite <- I5, HR, HR'. rewrite <- !app_assoc. cbn [app]. by rewrite <- !Permutation_middle.
  - rewrite HR'. rewrite HR in I7. apply List.Forall_app in I7 as [I7 I7']. apply List.Forall_app in I7' as [I7a I7b].
    rewrite HR in HF. apply List.Forall_app. split; [by apply unused_insert|]. cbn [app]. constructor.
    + eexists. split; [apply lookup_insert_eq|]. done.
    + apply List.Forall_app. split; apply unused_insert; try done; set_solver.
  - rewrite list.Forall_forall in I8 |- *. intros x Hx. destruct (I8 x Hx) as [Hne Hs]. split; [done|].
    destruct (decide (x = m)) as [->|Hxm]; [rewrite lookup_insert_eq; by eexists|by rewrite lookup_insert_ne].
  - intros u Hu. rewrite set_list_ne; [by apply I9|]. intros ->. done.
  - intros u. destruct (decide (u = t)) as [->|Hu]; [rewrite fn_lookup_insert; apply I12|rewrite fn_lookup_insert_ne by done; apply I12].
Qed.

Lemma locals_put p t l u : locals (set_local p t l) u = if decide (t = u) then l else locals p u.
Proof. done. Qed.

(** [omAlloc] takes the first monitor of the list of the thread. *)
Lemma alloc_local_ok p G F U bs t m l : PInv p G F U bs -> t ∈ threads -> F t = m :: l ->
  exists p', alloc_local false p t = Some (m, p') /\ PInv p' G (set_list F t l) (m :: U) bs /\
    unused (pool_mem p') m /\ pool_mem p' = pool_mem p.
Proof.
  intros HI Ht HF. pose proof (pi_local _ _ _ _ _ HI t) as Hc. rewrite HF in Hc. destruct Hc as (Hhead & Hm0 & mon & Hmon & Hc).
  destruct (set_list_split F t l Ht) as (R & HR & HR'). rewrite HF in HR.
  pose proof (pi_unused _ _ _ _ _ HI) as Hun. rewrite HR in Hun. apply List.Forall_app in Hun as [HunG Hun].
  cbn [app] in Hun. apply list.Forall_cons in Hun as [Hum Hun]. pose proof Hum as (mon' & Hmon' & Ho & Hb).
  rewrite Hmon in Hmon'. injection Hmon' as <-.
  unfold alloc_local. rewrite Hhead, Hmon. cbn [mbind option_bind]. rewrite Ho. cbn [Z.eqb guard_b]. eexists. split; [done|].
  destruct HI as [I1 I2 I3 I4 I5 I6 I7 I8 I9 I10 I11 I12].
  split; [|done]. split; cbn [set_local pool_mem gFreeList gBlockList MonitorFreeCount MonitorPopulation]; try done.
  - intros u. rewrite locals_put. destruct (decide (t = u)) as [<-|Hu]; [by rewrite set_list_eq|].
    rewrite set_list_ne by done. apply I2.
  - rewrite <- I5, HR, HR'. cbn [app]. rewrite <- !Permutation_middle. done.
  - rewrite HR'. by apply List.Forall_app.
  - constructor; [by split; [|eexists]|done].
  - intros u Hu. rewrite set_list_ne; [by apply I9|]. intros ->. done.
  - intros u. rewrite locals_put. destruct (decide (t = u)) as [<-|Hu]; apply I12.
Qed.

(** One turn of the reprovision loop, and the loop. *)
Lemma take_global p G F U bs m : PInv p (m :: G) F U bs -> exists mon, gFreeList p = m /\ pool_mem p !! m = Some mon /\
  object mon = 0 /\ is_busy (core mon) = false /\ m <> 0 /\
  PInv (set_global p (FreeNext mon) (s32 (MonitorFreeCount p - 1))) G F (m :: U) bs.
Proof.
  intros HI. destruct (pi_global _ _ _ _ _ HI) as (Hg & Hm0 & mon & Hmon & Hc).
  pose proof (pi_unused _ _ _ _ _ HI) as Hun. cbn [app] in Hun. apply list.Forall_cons in Hun as [(mon' & Hmon' & Ho & Hb) Hun].
  rewrite Hmon in Hmon'. injection Hmon' as <-. exists mon. split_and!; try done.
  destruct HI as [I1 I2 I3 I4 I5 I6 I7 I8 I9 I10 I11 I12]. split; try done.
  - rewrite <- I5. cbn [app]. by rewrite <- !Permutation_middle.
  - constructor; [by split; [|eexists]|done].
  - cbn [set_global MonitorFreeCount]. rewrite I10. replace (s32 (Z.of_nat (length (m :: G))) - 1) with (s32 (Z.of_nat (length (m :: G))) + -1) by lia.
    rewrite (swrap_add_l 32 ltac:(lia)). f_equal. cbn [length]. lia.
Qed.

Lemma update_at p m f mon : pool_mem p !! m = Some mon -> update p m f = Some (set_mem p (<[m := f mon]> (pool_mem p))).
Proof. intros H. unfold update. by rewrite H. Qed.

Lemma reprovision_ok n : forall p G F U bs t, PInv p G F U bs -> t ∈ threads ->
  exists p' G' F', reprovision n p t = Some p' /\ PInv p' G' F' U bs /\ keeps U p p' /\
    (F t <> [] \/ (n <> O /\ G <> []) -> F' t <> []).
Proof.
  induction n as [|n IH]; intros p G F U bs t HI Ht; cbn [reprovision].
  { exists p, G, F. split_and!; try done. intros [H|[H _]]; done. }
  destruct (Z.eqb_spec (gFreeList p) 0) as [Hz|Hz].
  { exists p, G, F. split_and!; try done. intros [H|[_ H]]; [done|]. pose proof (pi_global _ _ _ _ _ HI) as Hc.
    rewrite Hz in Hc. by apply chain_zero in Hc. }
  destruct (chain_head _ _ _ (pi_global _ _ _ _ _ HI) Hz) as [G' ->]. set (m := gFreeList p) in *.
  destruct (take_global p G' F U bs m HI) as (mon & _ & Hmon & Ho & Hb & Hm0 & HI1). rewrite Hmon. cbn [mbind option_bind].
  rewrite Ho, Hb. cbn [Z.eqb guard_b negb]. set (p1 := set_global p _ _) in *.
  destruct (PInv_update p1 G' F (m :: U) bs m (fun mon => set_core mon (Recycle (core mon))) mon HI1 ltac:(by left) Hmon) as [Hu HI2].
  rewrite Hu. cbn [mbind option_bind].
  destruct (omRelease_ok _ _ _ _ _ t m HI2 Ht) as (p3 & Hr & HI3 & Hk3).
  { eexists. split; [apply lookup_insert_eq|]. done. }
  rewrite Hr. cbn [mbind option_bind]. destruct (IH p3 _ _ _ _ t HI3 Ht) as (p' & G2 & F2 & Hrp & HI' & Hk' & Hne).
  exists p', G2, F2. split_and!; try done.
  { eapply keeps_trans; [|exact Hk']. eapply keeps_trans; [|exact Hk3]. intros x Hx.
    eapply keeps_insert; [by eapply used_cons|done|done]. }
  intros _. apply Hne. left. by rewrite set_list_eq.
Qed.

Lemma grow_provision_ok p G F U bs t : PInv p G F U bs -> PInv (grow_provision p t) G F U bs.
Proof.
  intros [I1 I2 I3 I4 I5 I6 I7 I8 I9 I10 I11 I12].
  split; cbn [grow_provision set_local pool_mem gFreeList gBlockList MonitorFreeCount MonitorPopulation]; try done.
  - intros u. unfold grow_provision. rewrite locals_put. destruct (decide (t = u)) as [<-|]; apply I2.
  - intros u. unfold grow_provision. rewrite locals_put. destruct (decide (t = u)) as [<-|]; [|apply I12].
    cbn [omFreeProvision]. destruct (I12 t) as [H1 H2]. set (v := omFreeProvision (locals p t)) in *. unfold MAXPRIVATE in *.
    rewrite Z.quot_div_nonneg by lia. pose proof (Z.div_pos v 2 ltac:(lia) ltac:(lia)).
    pose proof (Z.div_le_upper_bound v 2 1024 ltac:(lia) ltac:(lia)).
    assert (Hs : forall x, 0 <= x < 2147483648 -> s32 x = x) by (intros x Hx; apply swrap_small; [lia|]; unfold in_s; change (2 ^ (32 - 1)) with 2147483648; lia).
    rewrite (Hs (1 + v / 2)) by lia. rewrite (Hs (v + (1 + v / 2))) by lia.
    destruct (Z.ltb_spec 1024 (v + (1 + v / 2))); lia.
Qed.

(* ------------------------------------------------------------------ *)
(** ** A new block *)

(** The block that new returns is nobody's. *)
Definition fresh_block (p : Pool) (temp : Z) : Prop :=
  forall i, 0 <= i < 128 -> element sz temp i <> 0 /\ pool_mem p !! element sz temp i = None.

Lemma element_inj temp i j : element sz temp i = element sz temp j -> i = j.
Proof. unfold element. nia. Qed.

Lemma new_block_lookup temp (h : gmap Z Monitor) n x :
  foldr (fun i h => <[element sz temp i := new_Monitor]> h) h (seqZ 0 (Z.of_nat n)) !! x =
  if bool_decide (Exists (fun i => element sz temp i = x) (seqZ 0 (Z.of_nat n))) then Some new_Monitor else h !! x.
Proof.
  generalize (seqZ 0 (Z.of_nat n)). intros l. induction l as [|i l IH]; cbn [foldr].
  - by rewrite bool_decide_false by (intros H; inversion H).
  - destruct (decide (element sz temp i = x)) as [<-|Hne].
    + rewrite lookup_insert_eq. by rewrite bool_decide_true by (by left).
    + rewrite lookup_insert_ne, IH by done.
      rewrite (bool_decide_ext (Exists (fun j => element sz temp j = x) (i :: l)) (Exists (fun j => element sz temp j = x) l)); [done|].
      rewrite List.Exists_cons. tauto.
Qed.

Lemma new_block_in temp h i : 0 <= i < 128 -> new_block sz temp h !! element sz temp i = Some new_Monitor.
Proof.
  intros Hi. unfold new_block. change _BLOCKSIZE with (Z.of_nat 128). rewrite new_block_lookup, bool_decide_true; [done|].
  apply list.Exists_exists. exists i. split; [apply elem_of_seqZ; lia|done].
Qed.

Lemma new_block_out temp h x : (forall i, 0 <= i < 128 -> x <> element sz temp i) -> new_block sz temp h !! x = h !! x.
Proof.
  intros Hx. unfold new_block. change _BLOCKSIZE with (Z.of_nat 128). rewrite new_block_lookup, bool_decide_false; [done|].
  intros (i & Hi & He)%list.Exists_exists. apply elem_of_seqZ in Hi. apply (Hx i); [lia|done].
Qed.

(** The memory after [alloc_block]. *)
Definition block_cell (p : Pool) (temp i : Z) : Monitor :=
  if i =? 0 then {| FreeNext := gBlockList p; object := CHAINMARKER; core := zero_core |}
  else if i =? 127 then {| FreeNext := gFreeList p; object := 0; core := zero_core |}
  else {| FreeNext := element sz temp (i + 1); object := 0; core := zero_core |}.

(** Cells [0 .. 127] of the block by [f], and the rest as before. *)
Definition block_is (p q : Pool) (temp : Z) (f : Z -> Monitor) : Prop :=
  (forall i, 0 <= i < 128 -> pool_mem q !! element sz temp i = Some (f i)) /\
  (forall x, (forall i, 0 <= i < 128 -> x <> element sz temp i) -> pool_mem q !! x = pool_mem p !! x) /\
  q = set_mem p (pool_mem q).

Lemma block_update p q temp f j g : block_is p q temp f -> 0 <= j < 128 ->
  exists q', update q (element sz temp j) g = Some q' /\ block_is p q' temp (fun i => if i =? j then g (f j) else f i).
Proof.
  intros (H1 & H2 & H3) Hj. rewrite (update_at _ _ _ (f j)) by by apply H1. eexists. split; [done|].
  split_and!; cbn [set_mem pool_mem].
  - intros i Hi. destruct (Z.eqb_spec i j) as [->|Hne]; [apply lookup_insert_eq|]. rewrite lookup_insert_ne; [by apply H1|].
    intros He. apply element_inj in He. lia.
  - intros x Hx. rewrite lookup_insert_ne; [by apply H2|]. intros He. by apply (Hx j).
  - rewrite H3. done.
Qed.

Lemma block_is_ext p q temp f g : (forall i, 0 <= i < 128 -> f i = g i) -> block_is p q temp f -> block_is p q temp g.
Proof. intros He (H1 & H2 & H3). split_and!; try done. intros i Hi. rewrite <- He by done. by apply H1. Qed.

(** [alloc_block] makes the cells and links them before the lists there are. *)
Lemma alloc_block_ok p temp : temp <> 0 -> exists h', block_is p (set_mem p h') temp (block_cell p temp) /\
  alloc_block sz p temp = Some {| pool_mem := h'; gFreeList := element sz temp 1; gBlockList := temp;
    MonitorFreeCount := s32 (MonitorFreeCount p + 127); MonitorPopulation := s32 (MonitorPopulation p + 127); locals := locals p |}.
Proof.
  intros Ht. unfold alloc_block. rewrite (proj2 (Z.eqb_neq temp 0) Ht). set (p0 := set_mem p _).
  assert (Hb0 : block_is p p0 temp (fun _ => new_Monitor)).
  { split_and!; [intros i Hi; by apply new_block_in|intros x Hx; by apply new_block_out|done]. }
  destruct (each_range_inv (fun j q => block_is p q temp (fun i => if (1 <=? i) && (i <? j) then set_FreeNext new_Monitor (element sz temp (i + 1)) else new_Monitor))
    (fun i p => update p (element sz temp i) (fun mon => set_FreeNext mon (element sz temp (i + 1)))) 1 _BLOCKSIZE p0) as (p1 & Hp1 & Hb1).
  { unfold _BLOCKSIZE. lia. }
  { eapply block_is_ext; [|exact Hb0]. intros i Hi. cbn. destruct (Z.leb_spec 1 i), (Z.ltb_spec i 1); try lia; done. }
  { intros j q Hj Hq. unfold _BLOCKSIZE in Hj. destruct (block_update _ _ _ _ j (fun mon => set_FreeNext mon (element sz temp (j + 1))) Hq ltac:(lia)) as (q' & Hu & Hq').
    exists q'. split; [done|]. eapply block_is_ext; [|exact Hq']. intros i Hi. cbn.
    destruct (Z.eqb_spec i j) as [->|Hne].
    - destruct (Z.leb_spec 1 j), (Z.ltb_spec j j), (Z.ltb_spec j (j + 1)); try lia; done.
    - destruct (Z.leb_spec 1 i), (Z.ltb_spec i j), (Z.ltb_spec i (j + 1)); try lia; done. }
  rewrite Hp1. cbn [mbind option_bind].
  destruct (block_update _ _ _ _ (_BLOCKSIZE - 1) (fun mon => set_FreeNext mon 0) Hb1 ltac:(by vm_compute)) as (p2 & Hu2 & Hb2).
  rewrite Hu2. cbn [mbind option_bind]. assert (He0 : element sz temp 0 = temp) by (unfold element; lia).
  destruct (block_update _ _ _ _ 0 (fun mon => set_object mon CHAINMARKER) Hb2 ltac:(lia)) as (p3 & Hu3 & Hb3).
  rewrite He0 in Hu3. rewrite Hu3. cbn [mbind option_bind]. rewrite (proj2 (proj2 Hb3)).
  cbn [set_mem pool_mem gFreeList gBlockList MonitorFreeCount MonitorPopulation locals].
  set (p4 := {| pool_mem := pool_mem p3; gFreeList := _; gBlockList := _; MonitorFreeCount := _; MonitorPopulation := _; locals := _ |}).
  set (pc := set_mem p4 (pool_mem p)).
  match type of Hb3 with block_is _ _ _ ?f => assert (Hb4 : block_is pc p4 temp f) end.
  { destruct Hb3 as (H1 & H2 & _). split_and!; [exact H1|exact H2|done]. }
  clear Hb3.
  destruct (block_update _ _ _ _ 0 (fun mon => set_FreeNext mon (gBlockList p)) Hb4 ltac:(lia)) as (p5 & Hu5 & Hb5).
  rewrite He0 in Hu5. rewrite Hu5. cbn [mbind option_bind].
  destruct (block_update _ _ _ _ (_BLOCKSIZE - 1) (fun mon => set_FreeNext mon (gFreeList p5)) Hb5 ltac:(by vm_compute)) as (p6 & Hu6 & Hb6).
  rewrite Hu6. cbn [mbind option_bind]. exists (pool_mem p6).
  destruct Hb6 as (H1 & H2 & H3). split.
  - split_and!; [|exact H2|done]. intros i Hi. cbn [set_mem pool_mem]. rewrite (H1 i Hi). f_equal.
    rewrite (proj2 (proj2 Hb5)). unfold block_cell, _BLOCKSIZE. cbn [set_mem gFreeList gBlockList pc p4]. change (128 - 1) with 127.
    destruct (Z.eqb_spec i 127) as [->|Hn1]; [done|]. destruct (Z.eqb_spec i 0) as [->|Hn0]; [done|].
    destruct (Z.leb_spec 1 i), (Z.ltb_spec i 128); try lia. done.
  - rewrite H3. done.
Qed.

Lemma chain_members h p temp G n : (forall i, 0 <= i < 128 -> h !! element sz temp i = Some (block_cell p temp i)) ->
  (forall i, 0 <= i < 128 -> element sz temp i <> 0) -> chain h (gFreeList p) G -> (1 <= n <= 127)%nat ->
  chain h (element sz temp (128 - Z.of_nat n)) ((element sz temp <$> seqZ (128 - Z.of_nat n) (Z.of_nat n)) ++ G).
Proof.
  intros Hh Hne HG. induction n as [|n IH]; intros Hn; [lia|]. rewrite seqZ_cons by lia. cbn [fmap list_fmap app].
  assert (Hi : 0 <= 128 - Z.of_nat (S n) < 128) by lia. cbn [chain]. split_and!; [done|by apply Hne|]. eexists. split; [by apply Hh|].
  unfold block_cell. rewrite (proj2 (Z.eqb_neq _ 0)) by lia. destruct (Z.eqb_spec (128 - Z.of_nat (S n)) 127) as [He|He].
  - assert (n = O) as -> by lia. cbn. done.
  - cbn [FreeNext]. replace (128 - Z.of_nat (S n) + 1) with (128 - Z.of_nat n) by lia.
    replace (Z.succ (128 - Z.of_nat (S n))) with (128 - Z.of_nat n) by lia.
    replace (Z.pred (Z.of_nat (S n))) with (Z.of_nat n) by lia. apply IH. lia.
Qed.

Lemma members_in temp m : m ∈ members temp <-> exists i, 1 <= i < 128 /\ m = element sz temp i.
Proof.
  unfold members. rewrite list_elem_of_fmap. split.
  - intros (i & -> & Hi). apply elem_of_seqZ in Hi. exists i. split; [lia|done].
  - intros (i & Hi & ->). exists i. split; [done|]. apply elem_of_seqZ. lia.
Qed.

Lemma members_nodup temp : NoDup (members temp).
Proof. unfold members. apply NoDup_fmap_2_strong; [|apply NoDup_seqZ]. intros i j _ _ He. by apply (element_inj temp). Qed.

(** What is in use or on a list is in memory. *)
Lemma PInv_allocated p G F U bs x : PInv p G F U bs -> x ∈ bs ++ all_members bs -> is_Some (pool_mem p !! x).
Proof.
  intros HI Hx. apply elem_of_app in Hx as [Hx|Hx].
  - pose proof (pi_marker _ _ _ _ _ HI) as H. rewrite list.Forall_forall in H. destruct (H x Hx) as (mon & -> & _). by eexists.
  - rewrite <- (pi_perm _ _ _ _ _ HI), (assoc_L (++)) in Hx. apply elem_of_app in Hx as [Hx|Hx].
    + pose proof (pi_unused _ _ _ _ _ HI) as H. rewrite list.Forall_forall in H. destruct (H x Hx) as (mon & -> & _). by eexists.
    + pose proof (pi_used _ _ _ _ _ HI) as H. rewrite list.Forall_forall in H. by destruct (H x Hx).
Qed.

Lemma block_ok p G F U bs temp : PInv p G F U bs -> fresh_block p temp ->
  exists p', alloc_block sz p temp = Some p' /\ PInv p' (members temp ++ G) F U (temp :: bs) /\ keeps U p p'.
Proof.
  intros HI Hf. assert (He0 : element sz temp 0 = temp) by (unfold element; lia).
  assert (Ht : temp <> 0) by (rewrite <- He0; by apply Hf).
  destruct (alloc_block_ok p temp Ht) as (h' & (H1 & H2 & _) & Ha). cbn [set_mem pool_mem] in H1, H2.
  assert (Hout : forall x, x ∈ bs ++ all_members bs -> h' !! x = pool_mem p !! x).
  { intros x Hx. apply H2. intros i Hi ->. destruct (PInv_allocated _ _ _ _ _ _ HI Hx) as [y Hy].
    destruct (Hf i Hi) as [_ Hn]. congruence. }
  assert (Hnew : forall i, 0 <= i < 128 -> element sz temp i ∉ bs ++ all_members bs).
  { intros i Hi Hx. destruct (PInv_allocated _ _ _ _ _ _ HI Hx) as [y Hy]. destruct (Hf i Hi) as [_ Hn]. congruence. }
  assert (Hlists : forall x, x ∈ G ++ (threads ≫= F) ++ U -> h' !! x = pool_mem p !! x).
  { intros x Hx. apply Hout. apply elem_of_app. right. by rewrite <- (pi_perm _ _ _ _ _ HI). }
  pose proof (H1 0 ltac:(lia)) as Hcell. rewrite He0 in Hcell.
  eexists. split; [exact Ha|]. split; [|by intros x Hx; apply Hlists; set_solver]. pose proof HI as [I1 I2 I3 I4 I5 I6 I7 I8 I9 I10 I11 I12].
  split; cbn [pool_mem gFreeList gBlockList MonitorFreeCount MonitorPopulation locals]; try done.
  - apply (chain_members h' p temp G 127); [done|by intros i Hi; apply Hf| |lia].
    eapply chain_ext; [|exact I1]. intros m Hm. rewrite Hlists; [done|]. set_solver.
  - intros t. eapply chain_ext; [|apply I2]. intros m Hm. rewrite Hlists; [done|].
    destruct (decide (t ∈ threads)) as [Hin|Hin]; [|rewrite I9 in Hm by done; by apply not_elem_of_nil in Hm].
    apply elem_of_app. right. apply elem_of_app. left. by eapply local_in.
  - cbn [chain]. split_and!; [done|done|]. eexists. split; [exact Hcell|]. cbn [block_cell Z.eqb FreeNext].
    eapply chain_ext; [|exact I3]. intros m Hm. rewrite Hout; [done|]. set_solver.
  - constructor.
    + eexists. split; [exact Hcell|]. done.
    + rewrite list.Forall_forall in I4 |- *. intros b Hb. rewrite Hout by set_solver. by apply I4.
  - rewrite <- (assoc_L (++)), I5. done.
  - unfold all_members. cbn [mbind list_bind]. fold (all_members bs). cbn [app].
    assert (Hp : bs ++ members temp ++ all_members bs ≡ₚ members temp ++ bs ++ all_members bs).
    { rewrite !(assoc_L (++)). by rewrite (Permutation_app_comm bs (members temp)). }
    constructor.
    + rewrite Hp. intros [Hx|Hx]%elem_of_app.
      * apply members_in in Hx as (i & Hi & Hx). assert (0 = i) by (apply (element_inj temp); by rewrite He0). lia.
      * apply (Hnew 0); [lia|by rewrite He0].
    + rewrite Hp. apply list.NoDup_app. split_and!; [apply members_nodup| |done]. intros x Hx. apply members_in in Hx as (i & Hi & ->).
      apply Hnew. lia.
  - rewrite <- (assoc_L (++)). apply List.Forall_app. split.
    + rewrite list.Forall_forall. intros x Hx. apply members_in in Hx as (i & Hi & ->). eexists. split; [apply H1; lia|].
      unfold block_cell. rewrite (proj2 (Z.eqb_neq i 0)) by lia. by destruct (i =? 127).
    + rewrite list.Forall_forall in I7 |- *. intros x Hx. apply (unused_ext (pool_mem p)); [|by apply I7].
      apply Hlists. set_solver.
  - rewrite list.Forall_forall in I8 |- *. intros x Hx. rewrite Hlists by set_solver. by apply I8.
  - rewrite I10, (swrap_add_l 32 ltac:(lia)). f_equal. unfold members. rewrite length_app, length_fmap, length_seqZ. lia.
  - rewrite I11, (swrap_add_l 32 ltac:(lia)). f_equal. cbn [length]. lia.
Qed.

(** [omAlloc] hands out a monitor that was on a list or is new. *)
Lemma omAlloc_ok p G F U bs t temp : PInv p G F U bs -> t ∈ threads -> fresh_block p temp ->
  exists m p' G' F' bs', omAlloc sz false p t temp = Some (m, p') /\ PInv p' G' F' (m :: U) bs' /\
    unused (pool_mem p') m /\ keeps U p p'.
Proof.
  intros HI Ht Hf.
  assert (Hlocal : forall fuel p G F bs, PInv p G F U bs -> F t <> [] -> exists m p' G' F' bs',
    omAlloc_loop sz false (S fuel) p t temp = Some (m, p') /\ PInv p' G' F' (m :: U) bs' /\ unused (pool_mem p') m /\ keeps U p p').
  { clear p G F bs HI Hf. intros fuel p G F bs HI Hne. destruct (F t) as [|m l] eqn:HF; [done|].
    destruct (alloc_local_ok p G F U bs t m l HI Ht HF) as (p' & Ha & HI' & Hu & Hm).
    exists m, p', G, (set_list F t l), bs. split_and!; try done; [|by intros x _; rewrite Hm]. cbn [omAlloc_loop].
    pose proof (pi_local _ _ _ _ _ HI t) as Hc. rewrite HF in Hc. destruct Hc as (-> & Hm0 & _).
    by rewrite (proj2 (Z.eqb_neq m 0) Hm0). }
  assert (Hglobal : forall fuel p G F bs, PInv p G F U bs -> F t = [] -> G <> [] -> exists m p' G' F' bs',
    omAlloc_loop sz false (S (S fuel)) p t temp = Some (m, p') /\ PInv p' G' F' (m :: U) bs' /\ unused (pool_mem p') m /\ keeps U p p').
  { clear p G F bs HI Hf. intros fuel p G F bs HI HF HG. cbn [omAlloc_loop].
    pose proof (pi_local _ _ _ _ _ HI t) as Hc. rewrite HF in Hc. cbn in Hc. rewrite Hc. cbn [Z.eqb negb].
    destruct G as [|g G]; [done|]. destruct (pi_global _ _ _ _ _ HI) as (Hg & Hg0 & _). rewrite Hg, (proj2 (Z.eqb_neq g 0) Hg0). cbn [negb].
    destruct (reprovision_ok (Z.to_nat (omFreeProvision (locals p t))) p (g :: G) F U bs t HI Ht) as (p1 & G1 & F1 & Hr & HI1 & Hk1 & Hne).
    rewrite Hr. cbn [mbind option_bind]. pose proof (pi_provision _ _ _ _ _ HI t).
    destruct (Hlocal fuel (grow_provision p1 t) G1 F1 bs) as (m & p' & G' & F' & bs' & Ha & HI' & Hu & Hk).
    - by apply grow_provision_ok.
    - apply Hne. right. split; [lia|done].
    - exists m, p', G', F', bs'. split_and!; try done. eapply keeps_trans; [exact Hk1|exact Hk]. }
  unfold omAlloc. destruct (F t) as [|m l] eqn:HF; [|by eapply (Hlocal 2%nat); [done|rewrite HF]].
  destruct G as [|g G]; [|by eapply (Hglobal 1%nat)]. cbn [omAlloc_loop].
  pose proof (pi_local _ _ _ _ _ HI t) as Hc. rewrite HF in Hc. cbn in Hc. rewrite Hc. cbn [Z.eqb negb].
  pose proof (pi_global _ _ _ _ _ HI) as Hg. cbn in Hg. rewrite Hg. cbn [Z.eqb negb].
  destruct (block_ok p [] F U bs temp HI Hf) as (p1 & Hb & HI1 & Hk1). rewrite Hb. cbn [mbind option_bind].
  destruct (Hglobal 0%nat p1 (members temp ++ []) F (temp :: bs) HI1 HF) as (m & p' & G' & F' & bs' & Ha & HI' & Hu & Hk); [done|].
  exists m, p', G', F', bs'. split_and!; try done. by eapply keeps_trans.
Qed.

(* ------------------------------------------------------------------ *)
(** ** Flushing *)

Lemma chain_size (h : gmap Z Monitor) a l : NoDup l -> chain h a l -> (length l <= size h)%nat.
Proof.
  intros Hn Hc. assert (Hsub : (list_to_set l : gset Z) ⊆ dom h).
  { intros x Hx. apply elem_of_list_to_set in Hx. apply elem_of_dom. clear Hn. revert a Hc. induction l as [|m l IH]; intros a Hc.
    - by apply not_elem_of_nil in Hx.
    - destruct Hc as (_ & _ & mon & Hm & Hc). apply elem_of_cons in Hx as [-> | Hx]; [by eexists|by eapply IH]. }
  apply subseteq_size in Hsub. rewrite size_list_to_set in Hsub by done. by rewrite size_dom in Hsub.
Qed.

(** The same lists with other fields. *)
Definition same_links (l : list Z) (h h' : gmap Z Monitor) : Prop :=
  (forall x, x ∉ l -> h' !! x = h !! x) /\
  (forall x, x ∈ l -> unused h' x /\ FreeNext <$> h' !! x = FreeNext <$> h !! x).

Lemma flush_walk_ok fuel : forall p s l tail tally, chain (pool_mem p) s l -> NoDup l -> Forall (unused (pool_mem p)) l ->
  (length l <= fuel)%nat -> exists h', flush_walk fuel p s tail tally =
    Some (set_mem p h', List.last l tail, tally + Z.of_nat (length l)) /\ same_links l (pool_mem p) h'.
Proof.
  induction fuel as [|fuel IH]; intros p s l tail tally Hc Hn Hu Hl.
  { destruct l; [|cbn in Hl; lia]. cbn in Hc. subst s. exists (pool_mem p). cbn. split; [by destruct p; rewrite Z.add_0_r|].
    split; [done|]. intros x Hx. by apply not_elem_of_nil in Hx. }
  destruct l as [|m l].
  { cbn in Hc. subst s. exists (pool_mem p). cbn. split; [by destruct p; rewrite Z.add_0_r|].
    split; [done|]. intros x Hx. by apply not_elem_of_nil in Hx. }
  destruct Hc as (-> & Hm0 & mon & Hmon & Hc). apply list.NoDup_cons in Hn as [Hml Hn].
  apply list.Forall_cons in Hu as [(mon' & Hmon' & Ho & Hb) Hu]. rewrite Hmon in Hmon'. injection Hmon' as <-.
  cbn [flush_walk]. rewrite (proj2 (Z.eqb_neq m 0) Hm0), Hmon. cbn [mbind option_bind]. rewrite Ho, Hb. cbn [Z.eqb guard_b negb].
  rewrite (update_at _ _ _ _ Hmon). cbn [mbind option_bind]. set (h1 := <[m := _]> (pool_mem p)).
  destruct (IH (set_mem p h1) (FreeNext mon) l m (tally + 1)) as (h' & Hw & Hsame & Hin).
  - cbn [set_mem pool_mem]. by apply chain_put.
  - done.
  - by apply unused_insert.
  - cbn [length] in Hl. lia.
  - exists h'. split.
    + rewrite Hw. cbn [length]. f_equal. f_equal; [|lia]. f_equal. destruct l as [|y l]; [done|]. cbn [List.last]. clear. revert y. induction l as [|z l IH]; intros y; [done|]. cbn [List.last] in *. apply IH.
    + cbn [set_mem pool_mem] in Hsame, Hin. split.
      * intros x Hx. rewrite Hsame by set_solver. apply lookup_insert_ne. set_solver.
      * intros x [-> | Hx]%elem_of_cons.
        -- rewrite Hsame by done. unfold h1. rewrite lookup_insert_eq, Hmon. split; [|done]. eexists.
           split; [rewrite Hsame by done; apply lookup_insert_eq|]. split; done.
        -- destruct (Hin x Hx) as [Hux Hfx]. split; [done|]. rewrite Hfx. unfold h1. rewrite lookup_insert_ne; [done|]. intros ->. done.
Qed.

Lemma same_links_chain l h h' a l' : same_links l h h' -> chain h a l' -> chain h' a l'.
Proof.
  intros [H1 H2]. apply chain_ext. intros x _. destruct (decide (x ∈ l)) as [Hx|Hx]; [by apply H2|by rewrite H1].
Qed.

Lemma same_links_unused l h h' l' : same_links l h h' -> Forall (unused h) l' -> Forall (unused h') l'.
Proof.
  intros [H1 H2] Hu. rewrite list.Forall_forall in Hu |- *. intros x Hx.
  destruct (decide (x ∈ l)) as [Hl|Hl]; [by apply H2|]. apply (unused_ext h); [by apply H1|by apply Hu].
Qed.

(** Changing links of monitors on lists only, the other parts of the invariant stay. *)
Lemma marker_kept p G F U bs h : PInv p G F U bs -> (forall x, x ∉ G ++ (threads ≫= F) -> h !! x = pool_mem p !! x) ->
  Forall (fun b => exists mon, h !! b = Some mon /\ object mon = CHAINMARKER) bs /\ chain h (gBlockList p) bs /\
  Forall (fun m => m <> 0 /\ is_Some (h !! m)) U /\ forall x, x ∈ U -> h !! x = pool_mem p !! x.
Proof.
  intros HI Hh.
  assert (HU : forall x, x ∈ U -> h !! x = pool_mem p !! x).
  { intros x Hx. apply Hh. destruct (used_elsewhere _ _ _ _ _ _ HI Hx) as (? & ? & _). set_solver. }
  assert (Hb : forall b, b ∈ bs -> h !! b = pool_mem p !! b).
  { intros b Hb. apply Hh. intros Hx. pose proof (pi_nodup _ _ _ _ _ HI) as Hn. apply list.NoDup_app in Hn as (_ & Hn & _).
    apply (Hn b Hb). rewrite <- (pi_perm _ _ _ _ _ HI). set_solver. }
  split_and!.
  - pose proof (pi_marker _ _ _ _ _ HI) as H. rewrite list.Forall_forall in H |- *. intros b Hbb. rewrite Hb by done. by apply H.
  - eapply chain_ext; [|apply (pi_blocks _ _ _ _ _ HI)]. intros b Hbb. by rewrite Hb.
  - pose proof (pi_used _ _ _ _ _ HI) as H. rewrite list.Forall_forall in H |- *. intros x Hx. rewrite HU by done. by apply H.
  - done.
Qed.

(** The end of a list, whose fields changed, joined with the global list. *)
Lemma flush_joined p G F U bs t l0 z h' mon L R : PInv p G F U bs -> t ∈ threads -> F t = l0 ++ [z] ->
  (threads ≫= F) ≡ₚ F t ++ R -> (threads ≫= set_list F t []) ≡ₚ R -> same_links (F t) (pool_mem p) h' -> h' !! z = Some mon ->
  chain (pool_mem p) L (F t) -> let h2 := <[z := set_FreeNext mon (gFreeList p)]> h' in
  chain h2 L (F t ++ G) /\ (forall u, u ∈ threads -> u <> t -> chain h2 (omFreeList (locals p u)) (F u)) /\
  Forall (unused h2) ((F t ++ G) ++ R) /\ (forall x, x ∉ G ++ (threads ≫= F) -> h2 !! x = pool_mem p !! x).
Proof.
  intros HI Ht Hl HR HR' Hs Hmon Hc h2. pose proof (PInv_nodup _ _ _ _ _ HI) as Hn.
  assert (Hzl : z ∈ F t) by (rewrite Hl; set_solver).
  assert (HzR : z ∉ l0 /\ z ∉ G /\ z ∉ R).
  { rewrite HR in Hn. apply list.NoDup_app in Hn as (_ & H1 & H2). rewrite <- (assoc_L (++)) in H2.
    apply list.NoDup_app in H2 as (H2 & H3 & _). split_and!; [|intros Hg; apply (H1 z Hg); set_solver|set_solver].
    rewrite Hl in H2. apply list.NoDup_app in H2 as (_ & H2 & _). intros Hz. apply (H2 z Hz). by left. }
  destruct HzR as (Hz0 & HzG & HzR). pose proof (pi_unused _ _ _ _ _ HI) as Hun. split_and!.
  - rewrite Hl, <- (assoc_L (++)). cbn [app]. apply chain_join; [|done|done|done|].
    + rewrite <- Hl. by eapply same_links_chain.
    + eapply same_links_chain; [exact Hs|]. apply (pi_global _ _ _ _ _ HI).
  - intros u Hu Hne. apply chain_put; [|eapply same_links_chain; [exact Hs|]; apply (pi_local _ _ _ _ _ HI)].
    intros Hx. apply HzR. rewrite <- HR'. apply (local_in _ u); [done|]. by rewrite set_list_ne.
  - eapply unused_keep; [exact Hmon|done| |].
    + done.
    + eapply same_links_unused; [exact Hs|]. rewrite HR, !(assoc_L (++)) in Hun. by rewrite (Permutation_app_comm (F t) G).
  - intros x Hx. assert (Hxl : x ∉ F t) by (intros Hx'; apply Hx; apply elem_of_app; right; by eapply local_in).
    unfold h2. rewrite lookup_insert_ne by (intros ->; done). by apply (proj1 Hs).
Qed.

Lemma omFlush_ok p G F U bs t : PInv p G F U bs -> t ∈ threads ->
  exists p', omFlush p t = Some p' /\ PInv p' (F t ++ G) (set_list F t []) U bs /\ keeps U p p'.
Proof.
  intros HI Ht. unfold omFlush. cbv zeta. set (p0 := set_local p t _).
  destruct (set_list_split F t [] Ht) as (R & HR & HR'). cbn [app] in HR'. pose proof (pi_local _ _ _ _ _ HI t) as Hc.
  pose proof (pi_unused _ _ _ _ _ HI) as Hun. rewrite HR in Hun. apply List.Forall_app in Hun as [_ [Hu _]%List.Forall_app].
  assert (Hnl : NoDup (F t)).
  { pose proof (PInv_nodup _ _ _ _ _ HI) as Hn. rewrite HR in Hn. by apply list.NoDup_app in Hn as (_ & _ & ((? & _ & _)%list.NoDup_app & _ & _)%list.NoDup_app). }
  assert (Hlocal : forall u, locals p0 u = if decide (t = u) then locals p0 t else locals p u).
  { intros u. unfold p0. rewrite !locals_put. destruct (decide (t = u)), (decide (t = t)); done. }
  assert (Hprov : forall u, 0 < omFreeProvision (locals p0 u) <= MAXPRIVATE).
  { intros u. unfold p0. rewrite locals_put. destruct (decide (t = u)) as [<-|]; apply (pi_provision _ _ _ _ _ HI). }
  assert (Hnone : forall u, u ∉ threads -> set_list F t [] u = []).
  { intros u Hu'. rewrite set_list_ne; [by apply (pi_none _ _ _ _ _ HI)|]. intros ->. done. }
  destruct (Z.eqb_spec (omFreeList (locals p t)) 0) as [Hz|Hz].
  { exists p0. split; [done|]. rewrite Hz in Hc. apply chain_zero in Hc. rewrite Hc in *. split; [|by intros x Hx].
    destruct HI as [I1 I2 I3 I4 I5 I6 I7 I8 I9 I10 I11 I12]. split; try done.
    - intros u. unfold p0. rewrite locals_put. destruct (decide (t = u)) as [<-|Hne]; [by rewrite set_list_eq|].
      rewrite set_list_ne by done. apply I2.
    - cbn [app]. by rewrite <- I5, HR', HR.
    - cbn [app]. by rewrite HR', HR in *. }
  destruct (flush_walk_ok (size (pool_mem p0)) p0 (omFreeList (locals p t)) (F t) 0 0 Hc Hnl Hu (chain_size _ _ _ Hnl Hc)) as (h' & Hw & Hs).
  assert (Hne : F t <> []) by (intros Hf; rewrite Hf in Hc; done). destruct (exists_last Hne) as (l0 & z & Hl).
  rewrite Hw. cbn [mbind option_bind]. assert (Hlast : List.last (F t) 0 = z) by (rewrite Hl; apply List.last_last). rewrite Hlast.
  assert (Hzl : z ∈ F t) by (rewrite Hl; set_solver).
  pose proof (proj1 (list.Forall_forall _ _) (chain_nonzero _ _ _ Hc) z Hzl) as Hz0. cbn beta in Hz0.
  rewrite (proj2 (Z.eqb_neq z 0) Hz0). cbn [negb andb guard_b].
  destruct (proj1 (proj2 Hs z Hzl)) as (mon & Hmon & Ho & Hb). rewrite (update_at _ _ _ mon) by exact Hmon. cbn [mbind option_bind].
  destruct (flush_joined p G F U bs t l0 z h' mon _ R HI Ht Hl HR HR' Hs Hmon Hc) as (J1 & J2 & J3 & J4).
  destruct (marker_kept _ _ _ _ _ _ HI J4) as (M1 & M2 & M3 & M4). eexists. split; [done|]. split; [|exact M4].
  split; cbn [set_global set_mem p0 set_local pool_mem gFreeList gBlockList MonitorFreeCount MonitorPopulation]; try done.
  - intros u. change (locals (set_global _ _ _)) with (locals p0). unfold p0. rewrite locals_put.
    destruct (decide (t = u)) as [<-|Hu']; [by rewrite set_list_eq|]. rewrite set_list_ne by done.
    destruct (decide (u ∈ threads)) as [Hin|Hin]; [by apply J2|]. rewrite (pi_none _ _ _ _ _ HI) by done.
    pose proof (pi_local _ _ _ _ _ HI u) as Hcu. by rewrite (pi_none _ _ _ _ _ HI) in Hcu.
  - rewrite HR', <- (pi_perm _ _ _ _ _ HI), HR, !(assoc_L (++)). by rewrite (Permutation_app_comm (F t) G).
  - apply (pi_nodup _ _ _ _ _ HI).
  - by rewrite HR'.
  - rewrite (pi_free _ _ _ _ _ HI), (swrap_add_l 32 ltac:(lia)). f_equal. rewrite length_app. lia.
  - apply (pi_population _ _ _ _ _ HI).
Qed.

(* ------------------------------------------------------------------ *)
(** ** Deflation *)

Definition busy (p : Pool) (m : Z) : Prop := exists mon, pool_mem p !! m = Some mon /\ is_busy (core mon) = true.
Definition idle (p : Pool) (m : Z) : Prop := exists mon, pool_mem p !! m = Some mon /\ is_busy (core mon) = false.
Definition of_object (p : Pool) (m : Z) : Prop := exists mon, pool_mem p !! m = Some mon /\ object mon <> 0.

(** After the monitors [done] were looked at: [W] were scavenged, [U'] keep their objects. *)
Record Scan (p0 : Pool) (G : list Z) (F : Z -> list Z) (U bs : list Z) (done : list Z) (p : Pool) (w : Scavenged) (W U' : list Z) : Prop := {
  sc_perm : U ≡ₚ W ++ U';
  sc_inv : PInv p G F (W ++ U') bs;
  sc_pool : p = set_mem p0 (pool_mem p);
  sc_chain : chain (pool_mem p) (FreeHead w) W;
  sc_tail : FreeTail w = List.last W 0;
  sc_count : nScavenged w = Z.of_nat (length W);
  sc_unused : Forall (unused (pool_mem p)) W;
  sc_kept : keeps U' p0 p;
  sc_objects : Forall (of_object p0) U';
  sc_busy m : m ∈ U' -> m ∈ done -> busy p0 m;
  sc_idle : Forall (idle p0) W
}.

Lemma chain_single (h : gmap Z Monitor) m mon : m <> 0 -> h !! m = Some mon -> FreeNext mon = 0 -> chain h m [m].
Proof. intros Hm Hmon Hf. cbn. split_and!; try done. exists mon. done. Qed.

Lemma last_in (l : list Z) d : l <> [] -> List.last l d ∈ l.
Proof. intros Hl. destruct (exists_last Hl) as (l0 & z & ->). rewrite List.last_last. set_solver. Qed.

(** The working list gets one more monitor at its end. *)
Lemma chain_snoc (h : gmap Z Monitor) a W m z mz : chain h a W -> NoDup (W ++ [m]) -> W <> [] -> z = List.last W 0 ->
  h !! z = Some mz -> chain h m [m] -> chain (<[z := set_FreeNext mz m]> h) a (W ++ [m]).
Proof.
  intros Hc Hn Hne -> Hz Hm. destruct (exists_last Hne) as (l0 & z & ->). rewrite List.last_last in *.
  apply list.NoDup_app in Hn as (Hn & Hd & _). rewrite <- (assoc_L (++)). cbn [app]. apply chain_join; try done.
  - apply list.NoDup_app in Hn as (_ & Hn & _). intros Hx. apply (Hn z Hx). by left.
  - apply Hd. set_solver.
Qed.

Lemma busy_core mon o f : is_busy (core (set_FreeNext (set_object (set_core mon (set_header (core mon) o)) 0) f)) = is_busy (core mon).
Proof. done. Qed.

(** The memory after a monitor was scavenged: its object is gone, and it is the end of the working list. *)
Definition scavenged_cell (mon : Monitor) : Monitor :=
  set_FreeNext (set_object (set_core mon (set_header (core mon) 0)) 0) 0.

Lemma scavenge_steps p G F U bs w W m mon : PInv p G F U bs -> m ∈ U -> NoDup (W ++ [m]) -> (forall x, x ∈ W -> x ∈ U) ->
  pool_mem p !! m = Some mon -> is_busy (core mon) = false -> chain (pool_mem p) (FreeHead w) W -> FreeTail w = List.last W 0 ->
  exists h, ('(deflated, p1, w1) ← scavenge p w m;
     if (deflated : bool) then p2 ← update p1 m (fun mon => set_FreeNext mon 0); Some (p2, one_more w1) else Some (p1, w1)) =
    Some (set_mem p h, {| FreeHead := if FreeHead w =? 0 then m else FreeHead w; FreeTail := m; nScavenged := nScavenged w + 1 |}) /\
    PInv (set_mem p h) G F U bs /\ chain h (if FreeHead w =? 0 then m else FreeHead w) (W ++ [m]) /\
    h !! m = Some (scavenged_cell mon) /\
    (forall x, x ∈ W -> exists mz, pool_mem p !! x = Some mz /\ exists f, h !! x = Some (set_FreeNext mz f)) /\
    (forall x, x <> m -> x ∉ W -> h !! x = pool_mem p !! x).
Proof.
  intros HI HmU Hnd' HWU Hmon Hb Hc Ht. unfold scavenge. rewrite Hmon. cbn [mbind option_bind]. rewrite Hb.
  pose proof (pi_used _ _ _ _ _ HI) as Hnz. rewrite list.Forall_forall in Hnz. destruct (Hnz m HmU) as [Hm0 _].
  pose proof (proj1 (list.NoDup_app W [m]) Hnd') as (HndW & HdW & _).
  assert (HmW : m ∉ W) by (intros Hx; apply (HdW m Hx); left).
  destruct (PInv_update _ _ _ _ _ m (fun mon => set_object (set_core mon (set_header (core mon) 0)) 0) mon HI HmU Hmon) as [Hu1 HI1].
  rewrite Hu1. cbn [mbind option_bind]. set (m1 := set_object _ _) in *. set (p1 := set_mem p _) in *.
  assert (Hm1 : pool_mem p1 !! m = Some m1) by apply lookup_insert_eq.
  destruct (decide (W = [])) as [->|HW].
  - cbn in Ht. rewrite Ht. cbn in Hc. rewrite Hc. cbn [Z.eqb mbind option_bind].
    destruct (PInv_update _ _ _ _ _ m (fun mon => set_FreeNext mon 0) m1 HI1 HmU Hm1) as [Hu2 HI2].
    rewrite Hu2. cbn [mbind option_bind]. eexists. split; [done|]. cbn [app p1 set_mem pool_mem] in *. split_and!.
    + exact HI2.
    + eapply chain_single; [done|apply lookup_insert_eq|done].
    + apply lookup_insert_eq.
    + intros x Hx. by apply not_elem_of_nil in Hx.
    + intros x Hx _. by rewrite !lookup_insert_ne by congruence.
  - pose proof (last_in W 0 HW) as HzW. set (z := List.last W 0) in *.
    assert (Hzm : z <> m) by (intros ->; done). destruct (Hnz z (HWU z HzW)) as [Hz0 [mz Hmz]].
    assert (Hmz1 : pool_mem p1 !! z = Some mz) by (cbn [p1 set_mem pool_mem]; by rewrite lookup_insert_ne).
    rewrite Ht, (proj2 (Z.eqb_neq z 0) Hz0).
    destruct (PInv_update _ _ _ _ _ z (fun c => set_FreeNext c m) mz HI1 (HWU z HzW) Hmz1) as [Hu2 HI2].
    rewrite Hu2. cbn [mbind option_bind]. set (p2 := set_mem p1 _) in *.
    assert (Hm2 : pool_mem p2 !! m = Some m1) by (cbn [p2 set_mem pool_mem]; by rewrite lookup_insert_ne).
    destruct (PInv_update _ _ _ _ _ m (fun mon => set_FreeNext mon 0) m1 HI2 HmU Hm2) as [Hu3 HI3].
    rewrite Hu3. cbn [mbind option_bind]. eexists. split; [done|].
    destruct W as [|w0 W]; [done|]. destruct Hc as (Hw0 & Hw00 & Hc'). rewrite Hw0, (proj2 (Z.eqb_neq w0 0) Hw00).
    cbn [p2 p1 set_mem pool_mem] in *. split_and!.
    + exact HI3.
    + rewrite insert_insert_ne by done. eapply (chain_snoc _ w0 (w0 :: W) m z mz); try done.
      * apply chain_put; [done|]. apply chain_put; [done|]. cbn [chain]. done.
      * by rewrite !lookup_insert_ne by congruence.
      * eapply chain_single; [done|apply lookup_insert_eq|done].
    + apply lookup_insert_eq.
    + intros x Hx. destruct (Hnz x (HWU x Hx)) as [_ [mx Hmx]]. exists mx. split; [done|].
      assert (x <> m) by (intros ->; done). destruct (decide (x = z)) as [->|Hxz].
      * exists m. rewrite lookup_insert_ne, lookup_insert_eq by done. congruence.
      * exists (FreeNext mx). rewrite !lookup_insert_ne by done. rewrite Hmx. by destruct mx.
    + intros x Hx HxW. rewrite !lookup_insert_ne; try done; intros <-; done.
Qed.

Lemma Scan_same p0 G F U bs done p w W U' m : Scan p0 G F U bs done p w W U' -> (m ∈ U' -> busy p0 m) ->
  Scan p0 G F U bs (done ++ [m]) p w W U'.
Proof.
  intros [S1 S2 S3 S4 S5 S6 S7 S8 S9 S10 S11] Hm. split; try done. intros x Hx [Hd|Hd]%elem_of_app; [by apply S10|].
  apply list_elem_of_singleton in Hd as ->. by apply Hm.
Qed.

Lemma scan_monitor_ok p0 G F U bs done p w W U' b i : Scan p0 G F U bs done p w W U' -> element sz b i ∈ all_members bs ->
  exists p' w' W2 U2, scan_monitor sz b i (p, w) = Some (p', w') /\ Scan p0 G F U bs (done ++ [element sz b i]) p' w' W2 U2.
Proof.
  intros HS Hm. set (m := element sz b i) in *. pose proof (sc_inv _ _ _ _ _ _ _ _ _ _ HS) as HI.
  unfold scan_monitor. fold m. rewrite <- (pi_perm _ _ _ _ _ HI) in Hm.
  assert (Hcase : unused (pool_mem p) m \/ m ∈ U').
  { rewrite (assoc_L (++)), (assoc_L (++)) in Hm. apply elem_of_app in Hm as [Hm|Hm]; [left|by right].
    apply elem_of_app in Hm as [Hm|Hm].
    - pose proof (pi_unused _ _ _ _ _ HI) as H. rewrite list.Forall_forall in H. by apply H.
    - pose proof (sc_unused _ _ _ _ _ _ _ _ _ _ HS) as H. rewrite list.Forall_forall in H. by apply H. }
  destruct Hcase as [(mon & Hmon & Ho & Hb)|HmU].
  { rewrite Hmon. cbn [mbind option_bind]. rewrite Ho, Hb. cbn [Z.eqb guard_b negb]. exists p, w, W, U'. split; [done|].
    apply Scan_same; [done|]. intros HmU. pose proof (sc_objects _ _ _ _ _ _ _ _ _ _ HS) as H. rewrite list.Forall_forall in H.
    destruct (H m HmU) as (mon0 & Hmon0 & Hne). pose proof (sc_kept _ _ _ _ _ _ _ _ _ _ HS m HmU) as Hk. congruence. }
  pose proof (sc_objects _ _ _ _ _ _ _ _ _ _ HS) as Hobj. rewrite list.Forall_forall in Hobj.
  destruct (Hobj m HmU) as (mon & Hmon0 & Ho). pose proof (sc_kept _ _ _ _ _ _ _ _ _ _ HS m HmU) as Hmon. rewrite Hmon0 in Hmon.
  rewrite Hmon. cbn [mbind option_bind]. rewrite (proj2 (Z.eqb_neq _ 0) Ho).
  destruct (is_busy (core mon)) eqn:Hb.
  { unfold scavenge. rewrite Hmon. cbn [mbind option_bind]. rewrite Hb. cbn [mbind option_bind]. exists p, w, W, U'. split; [done|].
    apply Scan_same; [done|]. intros _. by exists mon. }
  apply list_elem_of_split in HmU as (U1 & U2 & HU').
  assert (HUp : U' ≡ₚ m :: (U1 ++ U2)) by (rewrite HU'; by rewrite Permutation_middle).
  assert (HWU : NoDup (W ++ U')).
  { pose proof (PInv_nodup _ _ _ _ _ HI) as H. apply list.NoDup_app in H as (_ & _ & H). by apply list.NoDup_app in H as (_ & _ & ?). }
  rewrite HUp in HWU. pose proof HWU as Hnd2. rewrite <- Permutation_middle in Hnd2. apply list.NoDup_cons in Hnd2 as [Hmout Hnd2].
  apply list.NoDup_app in HWU as (HndW & HdW & HndU).
  destruct (scavenge_steps p G F (W ++ U') bs w W m mon HI) as (h & Hsc & HI' & Hch & Hhm & HhW & Hho); try done.
  { rewrite HUp. set_solver. }
  { apply list.NoDup_app. split_and!; [done| |apply NoDup_singleton]. intros x Hx Hxm. apply list_elem_of_singleton in Hxm as ->. set_solver. }
  { set_solver. }
  { apply (sc_chain _ _ _ _ _ _ _ _ _ _ HS). }
  { apply (sc_tail _ _ _ _ _ _ _ _ _ _ HS). }
  eexists _, _, (W ++ [m]), (U1 ++ U2). split; [exact Hsc|].
  assert (Hk : forall x, x ∈ U1 ++ U2 -> h !! x = pool_mem p !! x).
  { intros x Hx. apply Hho; [intros ->; set_solver|]. intros HxW. apply (HdW x HxW). by right. }
  destruct HS as [S1 S2 S3 S4 S5 S6 S7 S8 S9 S10 S11]. rewrite HUp in S1. split; cbn [FreeHead FreeTail nScavenged set_mem pool_mem]; try done.
  - rewrite S1. rewrite <- (assoc_L (++)). done.
  - eapply PInv_perm; [|exact HI']. rewrite HUp, <- (assoc_L (++)). done.
  - by rewrite S3.
  - by rewrite List.last_last.
  - rewrite S6, length_app. cbn. lia.
  - apply List.Forall_app. split; [|constructor; [|done]; exists (scavenged_cell mon); done].
    rewrite list.Forall_forall in S7 |- *. intros x Hx. destruct (S7 x Hx) as (mx & Hmx & H1 & H2). destruct (HhW x Hx) as (mz & Hmz & f & Hf).
    rewrite Hmx in Hmz. injection Hmz as <-. by eexists.
  - intros x Hx. cbn [set_mem pool_mem]. rewrite Hk by done. apply S8. rewrite HU'. set_solver.
  - rewrite HUp in S9. by apply list.Forall_cons in S9 as [_ ?].
  - intros x Hx [Hd|Hd]%elem_of_app; [apply S10; [rewrite HU'; set_solver|done]|]. apply list_elem_of_singleton in Hd as ->. set_solver.
  - apply List.Forall_app. split; [done|]. constructor; [|done]. exists mon. done.
Qed.

Definition Scanned (p0 : Pool) G F U bs (done : list Z) (st : Pool * Scavenged) : Prop :=
  exists W U', Scan p0 G F U bs done st.1 st.2 W U'.

Lemma members_prefix b j : 1 <= j -> element sz b <$> seqZ 1 (j - 1 + 1) = (element sz b <$> seqZ 1 (j - 1)) ++ [element sz b j].
Proof. intros Hj. rewrite seqZ_app, fmap_app by lia. replace (1 + (j - 1)) with j by lia. done. Qed.

Lemma scan_block_ok p0 G F U bs done st b : Scanned p0 G F U bs done st -> b ∈ bs ->
  exists st', each_range 1 _BLOCKSIZE (scan_monitor sz b) st = Some st' /\ Scanned p0 G F U bs (done ++ members b) st'.
Proof.
  intros HS Hb.
  destruct (each_range_inv (fun j st => Scanned p0 G F U bs (done ++ (element sz b <$> seqZ 1 (j - 1))) st) (scan_monitor sz b) 1 _BLOCKSIZE st)
    as (st' & He & HS'); [unfold _BLOCKSIZE; lia| | |by exists st'].
  - change (1 - 1) with 0. cbn. by rewrite app_nil_r.
  - intros j [p w] Hj (W & U' & HSj). unfold _BLOCKSIZE in Hj. cbn [fst snd] in HSj.
    destruct (scan_monitor_ok _ _ _ _ _ _ _ _ _ _ b j HSj) as (p' & w' & W2 & U2 & Hs & HS2).
    { apply list_elem_of_bind. exists b. split; [|done]. apply members_in. exists j. split; [lia|done]. }
    exists (p', w'). split; [done|]. exists W2, U2. cbn [fst snd]. replace (j + 1 - 1) with (j - 1 + 1) by lia.
    by rewrite members_prefix, (assoc_L (++)) by lia.
Qed.

(** The link after a prefix of a chain. *)
Lemma chain_next h a l1 b l : chain h a (l1 ++ b :: l) -> b <> 0 /\ exists mon, h !! b = Some mon /\ chain h (FreeNext mon) l.
Proof.
  revert a. induction l1 as [|x l1 IH]; intros a Hc; [destruct Hc as (-> & ? & mon & ?); eauto|].
  destruct Hc as (_ & _ & mon & _ & Hc). eauto.
Qed.

Lemma scan_blocks_ok p0 G F U bs fuel : forall st b l1 l, Scanned p0 G F U bs (all_members l1) st -> bs = l1 ++ l ->
  chain (pool_mem st.1) b l -> (length l <= fuel)%nat ->
  exists st', scan_blocks sz fuel b st = Some st' /\ Scanned p0 G F U bs (all_members bs) st'.
Proof.
  induction fuel as [|fuel IH]; intros st b l1 l HS Hbs Hc Hl.
  { destruct l; [|cbn in Hl; lia]. cbn in Hc. rewrite app_nil_r in Hbs. subst. by exists st. }
  destruct l as [|b' l].
  { cbn in Hc. rewrite app_nil_r in Hbs. subst. by exists st. }
  destruct Hc as (-> & Hb0 & _). cbn [scan_blocks]. rewrite (proj2 (Z.eqb_neq b' 0) Hb0).
  destruct (scan_block_ok _ _ _ _ _ _ _ b' HS) as (st1 & He & W & U' & HS1); [subst; set_solver|].
  rewrite He. cbn [mbind option_bind]. pose proof (pi_blocks _ _ _ _ _ (sc_inv _ _ _ _ _ _ _ _ _ _ HS1)) as Hc.
  rewrite Hbs in Hc. apply chain_next in Hc as (_ & mon & Hmon & Hc). rewrite Hmon. cbn [mbind option_bind].
  apply (IH st1 (FreeNext mon) (l1 ++ [b']) l).
  - exists W, U'. unfold all_members. rewrite bind_app. cbn. by rewrite app_nil_r.
  - by rewrite <- (assoc_L (++)).
  - exact Hc.
  - cbn in Hl. lia.
Qed.

Lemma Scanned_start p G F U bs w : w = {| FreeHead := 0; FreeTail := 0; nScavenged := 0 |} -> PInv p G F U bs ->
  Forall (of_object p) U -> Scanned p G F U bs [] (p, w).
Proof.
  intros -> HI HU. exists [], U. split; cbn [fst snd app FreeHead FreeTail nScavenged]; try done; try by constructor.
  - by destruct p.
  - intros m _ Hm. by apply not_elem_of_nil in Hm.
Qed.

(** The working list, joined in front of the global list. *)
Lemma deflate_finish p0 G F U bs p w W U' : Scan p0 G F U bs (all_members bs) p w W U' -> W <> [] -> exists mon,
  pool_mem p !! FreeTail w = Some mon /\
  PInv (set_global (set_mem p (<[FreeTail w := set_FreeNext mon (gFreeList p)]> (pool_mem p))) (FreeHead w)
    (s32 (MonitorFreeCount p + nScavenged w))) (W ++ G) F U' bs /\
  keeps U' p0 (set_mem p (<[FreeTail w := set_FreeNext mon (gFreeList p)]> (pool_mem p))).
Proof.
  intros HS HW. pose proof (sc_inv _ _ _ _ _ _ _ _ _ _ HS) as HI. destruct (exists_last HW) as (l0 & z & ->).
  pose proof (sc_tail _ _ _ _ _ _ _ _ _ _ HS) as Ht. rewrite List.last_last in Ht. rewrite Ht.
  pose proof (PInv_nodup _ _ _ _ _ HI) as Hn. pose proof (sc_unused _ _ _ _ _ _ _ _ _ _ HS) as Hun.
  destruct (used_elsewhere _ _ _ _ _ z HI ltac:(set_solver)) as (HG & HF & HFt & Hbs).
  destruct (proj1 (list.Forall_forall _ _) Hun z ltac:(set_solver)) as (mon & Hmon & Ho & Hb). exists mon. split; [done|].
  apply list.NoDup_app in Hn as (_ & _ & Hn). apply list.NoDup_app in Hn as (_ & _ & Hn).
  apply list.NoDup_app in Hn as (Hnl & HdU & _). apply list.NoDup_app in Hnl as (_ & Hnl & _).
  destruct HS as [S1 S2 S3 S4 S5 S6 S7 S8 S9 S10 S11].
  assert (HzU : z ∉ U') by (apply HdU; set_solver).
  split; [|intros x Hx; cbn [set_mem pool_mem]; rewrite lookup_insert_ne by (intros ->; done); by apply S8].
  destruct HI as [I1 I2 I3 I4 I5 I6 I7 I8 I9 I10 I11 I12].
  split; cbn [set_global set_mem pool_mem gFreeList gBlockList MonitorFreeCount MonitorPopulation locals]; try done.
  - rewrite <- (assoc_L (++)). cbn [app]. apply chain_join; try done. intros Hx. apply (Hnl z Hx). by left.
  - intros u. by apply chain_put.
  - by apply chain_put.
  - rewrite list.Forall_forall in I4 |- *. intros b Hbb. rewrite lookup_insert_ne; [by apply I4|]. intros ->. done.
  - rewrite <- I5. generalize (l0 ++ [z]) as W0. intros W0. rewrite (Permutation_app_comm W0 G), <- (assoc_L (++)).
    apply Permutation_app_head. rewrite !(assoc_L (++)). apply Permutation_app_tail, Permutation_app_comm.
  - eapply unused_keep; [exact Hmon|done|done|]. rewrite <- (assoc_L (++)). by apply List.Forall_app.
  - apply List.Forall_app in I8 as [_ I8]. rewrite list.Forall_forall in I8 |- *. intros x Hx.
    rewrite lookup_insert_ne by (intros ->; done). by apply I8.
  - rewrite I10, S6, (swrap_add_l 32 ltac:(lia)), (length_app _ G). f_equal. lia.
Qed.

(** Deflation: the idle monitors lose their objects and go in front of the global list, the busy ones stay as they are. *)
Lemma deflate_idle_ok p G F U bs ts : PInv p G F U bs -> Forall (of_object p) U ->
  exists p' W U', deflate_idle_monitors sz false p ts = Some p' /\ U ≡ₚ W ++ U' /\ PInv p' (W ++ G) F U' bs /\
    keeps U' p p' /\ Forall (idle p) W /\ Forall (busy p) U'.
Proof.
  intros HI HU. unfold deflate_idle_monitors. cbv zeta.
  assert (Hlen : (length bs <= S (size (pool_mem p)))%nat).
  { pose proof (pi_nodup _ _ _ _ _ HI) as Hn. apply list.NoDup_app in Hn as (Hn & _).
    pose proof (chain_size _ _ _ Hn (pi_blocks _ _ _ _ _ HI)). lia. }
  destruct (scan_blocks_ok p G F U bs _ (p, {| FreeHead := 0; FreeTail := 0; nScavenged := 0 |}) (gBlockList p) [] bs
    (Scanned_start _ _ _ _ _ _ eq_refl HI HU) eq_refl (pi_blocks _ _ _ _ _ HI) Hlen) as ([p1 w1] & Hs & W & U' & HS).
  rewrite Hs. cbn [mbind option_bind fst snd] in *. pose proof (sc_chain _ _ _ _ _ _ _ _ _ _ HS) as Hc.
  assert (Hbusy : Forall (busy p) U').
  { rewrite list.Forall_forall. intros x Hx. apply (sc_busy _ _ _ _ _ _ _ _ _ _ HS x Hx).
    rewrite <- (pi_perm _ _ _ _ _ (sc_inv _ _ _ _ _ _ _ _ _ _ HS)). set_solver. }
  destruct (decide (W = [])) as [->|HW].
  - cbn in Hc. rewrite Hc. cbn [Z.eqb]. eexists _, [], U'. split; [done|]. cbn [app]. split_and!; try done.
    + apply (sc_perm _ _ _ _ _ _ _ _ _ _ HS).
    + rewrite (sc_count _ _ _ _ _ _ _ _ _ _ HS). cbn [length Z.of_nat]. rewrite Z.add_0_r.
      destruct (sc_inv _ _ _ _ _ _ _ _ _ _ HS) as [I1 I2 I3 I4 I5 I6 I7 I8 I9 I10 I11 I12]. split; try done.
      cbn [set_global MonitorFreeCount]. rewrite I10. by apply (swrap_idem 32).
    + apply (sc_kept _ _ _ _ _ _ _ _ _ _ HS).
  - destruct (deflate_finish _ _ _ _ _ _ _ _ _ HS HW) as (mon & Hmon & HI' & Hk). destruct (exists_last HW) as (l0 & z & Hz).
    assert (Hh : FreeHead w1 <> 0).
    { destruct W as [|x W]; [done|]. destruct Hc as (-> & ? & _). done. }
    assert (Hn0 : 0 < nScavenged w1) by (rewrite (sc_count _ _ _ _ _ _ _ _ _ _ HS), Hz, length_app; cbn; lia).
    assert (Ht0 : FreeTail w1 <> 0).
    { rewrite (sc_tail _ _ _ _ _ _ _ _ _ _ HS). pose proof (chain_nonzero _ _ _ Hc) as H. rewrite list.Forall_forall in H.
      apply H. by apply last_in. }
    rewrite (proj2 (Z.eqb_neq _ 0) Hh), (proj2 (Z.eqb_neq _ 0) Ht0), (proj2 (Z.ltb_lt _ _) Hn0). cbn [negb andb guard_b].
    erewrite update_at by exact Hmon. cbn [mbind option_bind]. eexists _, W, U'. split; [done|]. split_and!; try done.
    + apply (sc_perm _ _ _ _ _ _ _ _ _ _ HS).
    + apply (sc_idle _ _ _ _ _ _ _ _ _ _ HS).
Qed.

End Spec.
