(* ===== verification/MonitorListsRun.v ===== *)
(** * MonitorListsRun: theorems on all runs of the monitor lists

    The callers of [MonitorLists], one operation at a time: [inflate] takes a monitor and gives it to an object or back,
    enters and exits change its fields, threads die, and a safepoint deflates.  Every run succeeds and keeps every
    monitor in one place; deflation frees the idle ones.  With MonitorInUseLists it does not, as a run shows. *)

From stdpp Require Import gmap functions.
From S2P Require Import Prelude GlobalDefs Synchronizer MonitorLists MonitorListsSpec.

(** What callers do; [Publish] and [Release] end what [Alloc] began. *)
Inductive Op :=
  | Alloc (Self temp : Z)
  | Publish (m obj : Z) (c : ObjectMonitor)
  | Change (m : Z) (c : ObjectMonitor)
  | Release (Self m : Z)
  | Flush (Self : Z)
  | Deflate.

(** The pool, the monitors an [inflate] has in its hands, and the ones of objects. *)
Record Client := { pool : Pool; in_hands : list Z; in_use : list Z }.
Definition start : Client := {| pool := empty_pool; in_hands := []; in_use := [] |}.

Definition without (m : Z) (l : list Z) : list Z := filter (fun x => x <> m) l.
Definition has_object (p : Pool) (m : Z) : bool := from_option (fun mon => negb (object mon =? 0)) false (pool_mem p !! m).
Definition is_busy_at (p : Pool) (m : Z) : bool := from_option (fun mon => is_busy (core mon)) false (pool_mem p !! m).

(** The monitors of [l] that are busy. *)
Definition busy_ones (p : Pool) (l : list Z) : list Z := filter (is_busy_at p) l.

Section Run.
Context (sz : Z) (MonitorInUseLists : bool) (threads : list Z).

Definition client_step (op : Op) (c : Client) : option Client :=
  match op with
  | Alloc t temp =>
      '(m, p) ← omAlloc sz MonitorInUseLists (pool c) t temp;
      p ← prepare p m;
      Some {| pool := p; in_hands := m :: in_hands c; in_use := in_use c |}
  | Publish m obj k =>
      p ← associate (pool c) m obj k;
      Some {| pool := p; in_hands := without m (in_hands c); in_use := m :: in_use c |}
  | Change m k =>
      p ← update (pool c) m (fun mon => set_core mon k);
      Some {| pool := p; in_hands := in_hands c; in_use := in_use c |}
  | Release t m =>
      p ← omRelease (pool c) t m;
      Some {| pool := p; in_hands := without m (in_hands c); in_use := in_use c |}
  | Flush t =>
      p ← omFlush (pool c) t;
      Some {| pool := p; in_hands := in_hands c; in_use := in_use c |}
  | Deflate =>
      p ← deflate_idle_monitors sz MonitorInUseLists (pool c) threads;
      Some {| pool := p; in_hands := in_hands c; in_use := filter (has_object p) (in_use c) |}
  end.

(** What callers respect: memory is new, monitors are theirs, and no [inflate] is under way at a safepoint. *)
Definition allowed (op : Op) (c : Client) : Prop :=
  match op with
  | Alloc t temp => t ∈ threads /\ Forall (fun i => element sz temp i <> 0 /\ pool_mem (pool c) !! element sz temp i = None) (seqZ 0 128)
  | Publish m obj _ => m ∈ in_hands c /\ obj <> 0
  | Change m _ => m ∈ in_use c
  | Release t m => t ∈ threads /\ m ∈ in_hands c
  | Flush t => t ∈ threads
  | Deflate => in_hands c = []
  end.

Fixpoint client_run (ops : list Op) (c : Client) : option Client :=
  match ops with
  | [] => Some c
  | op :: ops => c ← client_step op c; client_run ops c
  end.
Fixpoint allowed_run (ops : list Op) (c : Client) : Prop :=
  match ops with
  | [] => True
  | op :: ops => allowed op c /\ match client_step op c with Some c => allowed_run ops c | None => True end
  end.
End Run.

(** Each monitor of each block is on the global list [G], on one of the lists [F], in the hands of an [inflate] or of an object. *)
Definition accounted (sz : Z) (threads : list Z) (c : Client) (G : list Z) (F : Z -> list Z) (bs : list Z) : Prop :=
  let p := pool c in
  chain (pool_mem p) (gFreeList p) G /\ (forall t, chain (pool_mem p) (omFreeList (locals p t)) (F t)) /\
  chain (pool_mem p) (gBlockList p) bs /\
  G ++ (threads ≫= F) ++ in_hands c ++ in_use c ≡ₚ all_members sz bs /\ NoDup (all_members sz bs) /\
  Forall (unused (pool_mem p)) (G ++ (threads ≫= F) ++ in_hands c) /\ Forall (of_object p) (in_use c) /\
  MonitorFreeCount p = s32 (Z.of_nat (length G)) /\ MonitorPopulation p = s32 (127 * Z.of_nat (length bs)).

#[export] Instance allowed_dec sz threads op c : Decision (allowed sz threads op c).
Proof. destruct op; unfold allowed; solve_decision. Defined.
#[export] Instance allowed_run_dec sz b threads ops : forall c, Decision (allowed_run sz b threads ops c).
Proof.
  induction ops as [|op ops IH]; intros c; cbn [allowed_run]; [solve_decision|].
  destruct (client_step sz b threads op c); solve_decision.
Defined.

Lemma filter_in_iff (P Q : Z -> Prop) `{!forall x, Decision (P x), !forall x, Decision (Q x)} (l : list Z) :
  (forall x, x ∈ l -> P x <-> Q x) -> filter P l = filter Q l.
Proof.
  intros Hl. induction l as [|x l IH]; [done|]. rewrite !filter_cons, IH by (intros y Hy; apply Hl; by right).
  pose proof (Hl x ltac:(left)). destruct (decide (P x)), (decide (Q x)); tauto.
Qed.

Lemma filter_all (P : Z -> Prop) `{!forall x, Decision (P x)} (l : list Z) : (forall x, x ∈ l -> P x) -> filter P l = l.
Proof.
  intros Hl. induction l as [|x l IH]; [done|]. rewrite filter_cons_True by (apply Hl; left). f_equal. apply IH.
  intros y Hy. apply Hl. by right.
Qed.

Lemma filter_none (P : Z -> Prop) `{!forall x, Decision (P x)} (l : list Z) : (forall x, x ∈ l -> ~ P x) -> filter P l = [].
Proof.
  intros Hl. induction l as [|x l IH]; [done|]. rewrite filter_cons_False by (apply Hl; left). apply IH.
  intros y Hy. apply Hl. by right.
Qed.

Lemma without_notin m l : m ∉ l -> without m l = l.
Proof. intros Hm. apply filter_all. intros x Hx ->. done. Qed.

Lemma without_perm m l : NoDup l -> m ∈ l -> l ≡ₚ m :: without m l.
Proof.
  intros Hn Hm. apply list_elem_of_split in Hm as (l1 & l2 & ->).
  assert (Hw : without m (l1 ++ m :: l2) = l1 ++ l2).
  { apply list.NoDup_app in Hn as (_ & H1 & H2). apply list.NoDup_cons in H2 as [H2 _].
    unfold without. rewrite (list.filter_app), filter_cons_False by congruence. fold (without m l1) (without m l2).
    rewrite !without_notin; [done|done|]. intros Hx. apply (H1 m Hx). left. }
  rewrite Hw. by rewrite Permutation_middle.
Qed.

(* ------------------------------------------------------------------ *)
(** ** The invariant *)

Section Runs.
Context (sz : Z) (Hsz : 0 < sz) (threads : list Z) (Hnd : NoDup threads).

Definition CInv (c : Client) (G : list Z) (F : Z -> list Z) (bs : list Z) : Prop :=
  PInv sz threads (pool c) G F (in_hands c ++ in_use c) bs /\ Forall (unused (pool_mem (pool c))) (in_hands c) /\
  Forall (of_object (pool c)) (in_use c).

Lemma CInv_accounted c G F bs : CInv c G F bs -> accounted sz threads c G F bs.
Proof.
  intros ([I1 I2 I3 I4 I5 I6 I7 I8 I9 I10 I11 I12] & HF & HU). unfold accounted. cbv zeta. split_and!; try done.
  - by apply list.NoDup_app in I6 as (_ & _ & ?).
  - rewrite (assoc_L (++)). by apply List.Forall_app.
Qed.

Lemma unused_keeps p p' (U : list Z) : keeps U p p' -> Forall (unused (pool_mem p)) U -> Forall (unused (pool_mem p')) U.
Proof. intros Hk H. rewrite list.Forall_forall in H |- *. intros x Hx. eapply unused_ext; [by apply Hk|by apply H]. Qed.

Lemma of_object_keeps p p' (U : list Z) : keeps U p p' -> Forall (of_object p) U -> Forall (of_object p') U.
Proof.
  intros Hk H. rewrite list.Forall_forall in H |- *. intros x Hx. destruct (H x Hx) as (mon & Hm & Ho).
  exists mon. by rewrite (Hk x Hx).
Qed.

Lemma keeps_sub (U U' : list Z) p p' : (forall x, x ∈ U' -> x ∈ U) -> keeps U p p' -> keeps U' p p'.
Proof. intros Hs Hk x Hx. by apply Hk, Hs. Qed.

Lemma held_nodup p G F U bs : PInv sz threads p G F U bs -> NoDup U.
Proof. intros HI. apply PInv_nodup in HI. by apply list.NoDup_app in HI as (_ & _ & (_ & _ & ?)%list.NoDup_app). Qed.

Definition good (op : Op) (c : Client) : Prop :=
  exists c' G F bs, client_step sz false threads op c = Some c' /\ CInv c' G F bs.

Lemma alloc_good c G F bs t temp : CInv c G F bs -> allowed sz threads (Alloc t temp) c -> good (Alloc t temp) c.
Proof.
  intros (HI & HF & HU) [Ht Hb]. destruct (omAlloc_ok sz Hsz threads Hnd _ _ _ _ _ t temp HI Ht) as (m & p1 & G' & F' & bs' & Ha & HI1 & Hun & Hk).
  { intros i Hi. rewrite list.Forall_forall in Hb. apply Hb. apply elem_of_seqZ. lia. }
  unfold good, client_step. rewrite Ha. cbn [mbind option_bind]. destruct Hun as (mon & Hmon & Ho & Hbusy).
  destruct (PInv_update sz Hsz threads Hnd _ _ _ _ _ m (fun mon => set_FreeNext (set_core mon (Recycle (core mon))) 0) mon HI1 ltac:(left) Hmon) as [Hp HI2].
  unfold prepare. rewrite Hp. cbn [mbind option_bind]. eexists _, G', F', bs'. split; [done|].
  pose proof (held_nodup _ _ _ _ _ HI1) as Hn. apply list.NoDup_cons in Hn as [Hm Hn].
  assert (Hk' : keeps (in_hands c ++ in_use c) (pool c) (set_mem p1 (<[m := set_FreeNext (set_core mon (Recycle (core mon))) 0]> (pool_mem p1)))).
  { eapply keeps_trans; [exact Hk|]. intros x Hx. apply lookup_insert_ne. intros ->. done. }
  split; cbn [pool in_hands in_use]; [exact HI2|]. split.
  - constructor; [eexists; split; [apply lookup_insert_eq|done]|]. eapply unused_keeps, HF. eapply keeps_sub, Hk'. set_solver.
  - eapply of_object_keeps, HU. eapply keeps_sub, Hk'. set_solver.
Qed.

Lemma publish_good c G F bs m obj k : CInv c G F bs -> allowed sz threads (Publish m obj k) c -> good (Publish m obj k) c.
Proof.
  intros (HI & HF & HU) [Hm Ho]. pose proof (held_nodup _ _ _ _ _ HI) as Hn. apply list.NoDup_app in Hn as (Hn & Hd & _).
  pose proof (without_perm m _ Hn Hm) as Hw. destruct (proj1 (list.Forall_forall _ _) HF m Hm) as (mon & Hmon & _ & _).
  destruct (PInv_update sz Hsz threads Hnd _ _ _ _ _ m (fun mon => set_core (set_object mon obj) k) mon HI ltac:(set_solver) Hmon) as [Hp HI2].
  unfold good, client_step, associate. rewrite Hp. cbn [mbind option_bind]. eexists _, G, F, bs. split; [done|].
  split; cbn [pool in_hands in_use].
  - eapply PInv_perm; [|exact HI2]. rewrite Hw at 1. cbn [app]. by rewrite Permutation_middle.
  - rewrite Hw in Hn, HF. apply list.NoDup_cons in Hn as [Hmw _]. apply list.Forall_cons in HF as [_ HF]. split.
    + by apply unused_insert.
    + constructor; [eexists; split; [apply lookup_insert_eq|done]|]. eapply of_object_keeps, HU.
      intros x Hx. apply lookup_insert_ne. intros ->. by apply (Hd x).
Qed.

Lemma change_good c G F bs m k : CInv c G F bs -> allowed sz threads (Change m k) c -> good (Change m k) c.
Proof.
  intros (HI & HF & HU) Hm. cbn in Hm. pose proof (held_nodup _ _ _ _ _ HI) as Hn. apply list.NoDup_app in Hn as (_ & Hd & _).
  destruct (proj1 (list.Forall_forall _ _) HU m Hm) as (mon & Hmon & Ho).
  destruct (PInv_update sz Hsz threads Hnd _ _ _ _ _ m (fun mon => set_core mon k) mon HI ltac:(set_solver) Hmon) as [Hp HI2].
  unfold good, client_step. rewrite Hp. cbn [mbind option_bind]. eexists _, G, F, bs. split; [done|].
  split; cbn [pool in_hands in_use]; [exact HI2|]. split.
  - apply unused_insert; [|done]. intros Hx. by apply (Hd m).
  - rewrite list.Forall_forall in HU |- *. intros x Hx. destruct (HU x Hx) as (mx & Hmx & Hox).
    destruct (decide (x = m)) as [->|Hne]; [eexists; split; [apply lookup_insert_eq|done]|].
    exists mx. cbn. by rewrite lookup_insert_ne.
Qed.

Lemma release_good c G F bs t m : CInv c G F bs -> allowed sz threads (Release t m) c -> good (Release t m) c.
Proof.
  intros (HI & HF & HU) [Ht Hm]. pose proof (held_nodup _ _ _ _ _ HI) as Hn. apply list.NoDup_app in Hn as (Hn & _ & _).
  pose proof (without_perm m _ Hn Hm) as Hw.
  assert (HI1 : PInv sz threads (pool c) G F (m :: (without m (in_hands c) ++ in_use c)) bs).
  { eapply PInv_perm; [|exact HI]. by rewrite Hw at 1. }
  destruct (omRelease_ok sz Hsz threads Hnd _ _ _ _ _ t m HI1 Ht) as (p & Hr & HI2 & Hk).
  { rewrite list.Forall_forall in HF. by apply HF. }
  unfold good, client_step. rewrite Hr. cbn [mbind option_bind]. eexists _, _, _, _. split; [done|].
  split; cbn [pool in_hands in_use]; [exact HI2|]. rewrite Hw in HF. apply list.Forall_cons in HF as [_ HF]. split.
  - eapply unused_keeps, HF. eapply keeps_sub, Hk. set_solver.
  - eapply of_object_keeps, HU. eapply keeps_sub, Hk. set_solver.
Qed.

Lemma flush_good c G F bs t : CInv c G F bs -> allowed sz threads (Flush t) c -> good (Flush t) c.
Proof.
  intros (HI & HF & HU) Ht. destruct (omFlush_ok sz Hsz threads Hnd _ _ _ _ _ t HI Ht) as (p & Hr & HI2 & Hk).
  unfold good, client_step. rewrite Hr. cbn [mbind option_bind]. eexists _, _, _, _. split; [done|].
  split; cbn [pool in_hands in_use]; [exact HI2|]. split.
  - eapply unused_keeps, HF. eapply keeps_sub, Hk. set_solver.
  - eapply of_object_keeps, HU. eapply keeps_sub, Hk. set_solver.
Qed.

Lemma has_object_spec p m : has_object p m <-> of_object p m.
Proof.
  unfold has_object, of_object. destruct (pool_mem p !! m) as [mon|]; cbn; [|split; [done|intros (? & ? & _); done]].
  destruct (Z.eqb_spec (object mon) 0) as [Ho|Ho]; cbn; split; try done; [intros (? & [= <-] & ?); done|by exists mon].
Qed.

Lemma is_busy_at_spec p m : is_busy_at p m <-> busy p m.
Proof.
  unfold is_busy_at, busy. destruct (pool_mem p !! m) as [mon|]; cbn; [|split; [done|intros (? & ? & _); done]].
  split; [intros H; exists mon; split; [done|by destruct (is_busy _)]|intros (? & [= <-] & ->); done].
Qed.

(** Deflation: every monitor that is not busy goes back to the global list, in front of what is there. *)
Lemma deflate_exact c G F bs : CInv c G F bs -> in_hands c = [] ->
  exists c' W, client_step sz false threads Deflate c = Some c' /\ CInv c' (W ++ G) F bs /\
    in_use c' = busy_ones (pool c) (in_use c) /\ in_use c ≡ₚ W ++ in_use c' /\
    (forall m, m ∈ in_use c' -> pool_mem (pool c') !! m = pool_mem (pool c) !! m).
Proof.
  intros (HI & HF & HU) Hh. rewrite Hh in HI. cbn [app] in HI.
  destruct (deflate_idle_ok sz Hsz threads Hnd _ _ _ _ _ threads HI HU) as (p' & W & U' & Hd & Hperm & HI' & Hk & Hidle & Hbusy).
  unfold client_step. rewrite Hd. cbn [mbind option_bind].
  assert (HW : forall x, x ∈ W -> ~ has_object p' x /\ ~ is_busy_at (pool c) x).
  { intros x Hx. rewrite has_object_spec, is_busy_at_spec. pose proof (pi_unused _ _ _ _ _ _ _ HI') as Hun.
    rewrite list.Forall_forall in Hun. destruct (Hun x ltac:(set_solver)) as (mon & Hmon & Ho & _).
    rewrite list.Forall_forall in Hidle. destruct (Hidle x Hx) as (mon0 & Hmon0 & Hb).
    split; intros (mx & Hmx & ?); congruence. }
  rewrite list.Forall_forall in Hbusy. pose proof HU as HU0. rewrite list.Forall_forall in HU0.
  assert (HUo : Forall (of_object p') U').
  { eapply of_object_keeps; [exact Hk|]. rewrite list.Forall_forall. intros x Hx. apply HU0. rewrite Hperm. set_solver. }
  pose proof HUo as HUo'. rewrite list.Forall_forall in HUo'.
  assert (Heq : filter (has_object p') (in_use c) = filter (is_busy_at (pool c)) (in_use c)).
  { apply filter_in_iff. intros x Hx. rewrite Hperm in Hx. apply elem_of_app in Hx as [Hx|Hx].
    - by destruct (HW x Hx).
    - rewrite has_object_spec, is_busy_at_spec. split; intros _; [by apply Hbusy|by apply HUo']. }
  assert (HU' : filter (has_object p') (in_use c) ≡ₚ U').
  { rewrite Hperm, list.filter_app, (filter_none _ W), filter_all; [done| |].
    - intros x Hx. apply has_object_spec. by apply HUo'.
    - intros x Hx. by apply HW. }
  eexists _, W. split; [done|]. cbn [pool in_hands in_use]. split_and!; try done.
  - split; cbn [pool in_hands in_use]; rewrite Hh; cbn [app]; [by eapply PInv_perm; [symmetry|]|]. split; [constructor|]. by rewrite HU'.
  - by rewrite HU'.
  - intros m Hm. apply Hk. by rewrite <- HU'.
Qed.

Lemma step_good c G F bs op : CInv c G F bs -> allowed sz threads op c -> good op c.
Proof.
  intros HI Ha. destruct op; eauto using alloc_good, publish_good, change_good, release_good, flush_good.
  destruct (deflate_exact _ _ _ _ HI Ha) as (c' & W & Hs & HI' & _). by exists c', (W ++ G), F, bs.
Qed.

Lemma run_good ops : forall c G F bs, CInv c G F bs -> allowed_run sz false threads ops c ->
  exists c' G' F' bs', client_run sz false threads ops c = Some c' /\ CInv c' G' F' bs'.
Proof.
  induction ops as [|op ops IH]; intros c G F bs HI Ha; [by eexists _, _, _, _|]. destruct Ha as [Ha Hr].
  destruct (step_good _ _ _ _ _ HI Ha) as (c1 & G1 & F1 & bs1 & Hs & HI1). cbn [client_run]. rewrite Hs in *.
  cbn [mbind option_bind]. by eapply IH.
Qed.

Lemma start_CInv : CInv start [] (fun _ => []) [].
Proof. split; [apply PInv_empty|]. split; constructor. Qed.

(* ------------------------------------------------------------------ *)
(** ** Theorems *)

(** C22: with MonitorInUseLists off (the [false] of the statement, and the default) no run fails: allocation always finds or makes a monitor, the checks of the lists hold, and the loops end. After
    it every monitor of every block is in exactly one place: on the global list, on the list of one thread, in the
    hands of one [inflate], or of an object; those not of an object are clean and not busy, and the counters are right. *)
Theorem no_monitor_lost ops : allowed_run sz false threads ops start ->
  exists c G F bs, client_run sz false threads ops start = Some c /\ accounted sz threads c G F bs.
Proof.
  intros Ha. destruct (run_good ops _ _ _ _ start_CInv Ha) as (c & G & F & bs & Hc & HI).
  exists c, G, F, bs. split; [done|]. by apply CInv_accounted.
Qed.

(** C23: with MonitorInUseLists off, after any run, a deflation at a safepoint takes exactly the monitors that are not busy from their objects and puts
    them on the global list; a monitor that is busy stays with its object, and nothing in it changes. *)
Theorem deflation_frees_idle ops c : allowed_run sz false threads ops start -> client_run sz false threads ops start = Some c ->
  in_hands c = [] -> exists c' W G F bs, client_step sz false threads Deflate c = Some c' /\
    accounted sz threads c G F bs /\ accounted sz threads c' (W ++ G) F bs /\
    in_use c' = busy_ones (pool c) (in_use c) /\ in_use c ≡ₚ W ++ in_use c' /\
    (forall m, m ∈ in_use c' -> pool_mem (pool c') !! m = pool_mem (pool c) !! m).
Proof.
  intros Ha Hc Hh. destruct (run_good ops _ _ _ _ start_CInv Ha) as (c0 & G & F & bs & Hc0 & HI).
  rewrite Hc in Hc0. injection Hc0 as <-. destruct (deflate_exact _ _ _ _ HI Hh) as (c' & W & Hs & HI' & H1 & H2 & H3).
  exists c', W, G, F, bs. split_and!; try done; by apply CInv_accounted.
Qed.
End Runs.

(** Two threads; an idle and a busy monitor of objects, one given back, a deflation, and the death of the first thread. *)
Definition busy_core : ObjectMonitor := {| _header := 1; _owner := 1; _recursions := 0; _count := 0; OwnerIsThread := 1 |}.
Definition idle_core : ObjectMonitor := {| _header := 1; _owner := 0; _recursions := 0; _count := 0; OwnerIsThread := 1 |}.
Definition mon_at (i : Z) : Z := element 0x100 0x1000 i.
Definition some_ops : list Op :=
  [Alloc 1 0x1000; Publish (mon_at 32) 0xA0 idle_core; Alloc 1 0x20000; Publish (mon_at 31) 0xB0 idle_core;
   Change (mon_at 31) busy_core; Alloc 2 0x20000; Release 1 (mon_at 64); Deflate; Flush 1].

Lemma some_ops_allowed : allowed_run 0x100 false [1; 2] some_ops start.
Proof. by apply (bool_decide_eq_true_1 _); vm_compute. Qed.

Lemma no_monitor_lost_witness : exists c G F bs, client_run 0x100 false [1; 2] some_ops start = Some c /\ accounted 0x100 [1; 2] c G F bs.
Proof.
  apply (no_monitor_lost 0x100 ltac:(lia) [1; 2] ltac:(by apply (bool_decide_eq_true_1 _); vm_compute) some_ops some_ops_allowed).
Defined.

Definition reached (b : bool) (n : nat) : Client := default start (client_run 0x100 b [1; 2] (take n some_ops) start).
Lemma reached_run b n : bool_decide (is_Some (client_run 0x100 b [1; 2] (take n some_ops) start)) = true ->
  client_run 0x100 b [1; 2] (take n some_ops) start = Some (reached b n).
Proof. intros H. apply bool_decide_eq_true in H as [c H]. unfold reached. by rewrite H. Qed.

Lemma deflation_frees_idle_witness : exists c' W G F bs,
  client_step 0x100 false [1; 2] Deflate (reached false 7) = Some c' /\
  accounted 0x100 [1; 2] (reached false 7) G F bs /\ accounted 0x100 [1; 2] c' (W ++ G) F bs /\ in_use c' = [mon_at 31].
Proof.
  assert (Hin : busy_ones (pool (reached false 7)) (in_use (reached false 7)) = [mon_at 31])
    by (apply (bool_decide_eq_true_1 _); vm_compute; reflexivity).
  destruct (deflation_frees_idle 0x100 ltac:(lia) [1; 2] ltac:(by apply (bool_decide_eq_true_1 _); vm_compute) (take 7 some_ops)
    (reached false 7) ltac:(apply (bool_decide_eq_true_1 _); vm_compute; reflexivity)
    (reached_run false 7 ltac:(vm_compute; reflexivity)) ltac:(vm_compute; reflexivity)) as (c' & W & G & F & bs & H1 & H2 & H3 & H4 & _).
  exists c', W, G, F, bs. split; [exact H1|]. split; [exact H2|]. split; [exact H3|]. rewrite H4. exact Hin.
Defined.

(** With MonitorInUseLists the same operations leave the idle monitor with its object: when the second monitor was taken
    it linked to the first one, and [inflate] then cleared the link, so the list of the thread has the second only. *)
Theorem in_use_list_cut : let c := reached true 8 in
  client_run 0x100 true [1; 2] (take 8 some_ops) start = Some c /\
  in_use c = [mon_at 31; mon_at 32] /\ is_busy_at (pool c) (mon_at 32) = false /\ has_object (pool c) (mon_at 32) = true /\
  omInUseList (locals (pool c) 1) = mon_at 31 /\ FreeNext <$> pool_mem (pool c) !! mon_at 31 = Some 0 /\
  omInUseCount (locals (pool c) 1) = 2.
Proof.
  cbv zeta. split; [apply reached_run; vm_compute; reflexivity|].
  by split_and!; apply (bool_decide_eq_true_1 _); vm_compute; reflexivity.
Qed.
