(* ===== verification/FormatCheck.v ===== *)
(** * FormatCheck: the utility methods for format checking of classfile/classFileParser.cpp

    What the parser accepts as strings, names, signatures and flags.  A symbol is the list of its bytes; the methods copy it to a
    buffer with a zero at the end, and a [char*] is an offset into that.  A pending exception is [Throw]; [None] is a read
    outside of the buffer or a loop that does not end, so a result is a proof that there is neither. *)

From S2P Require Import Prelude GlobalDefs UTF8.

(** The exceptions of the checks. *)
Inductive FormatError :=
  | IllegalUTF8 | IllegalClassName | IllegalFieldName | IllegalMethodName | IllegalFieldSignature | IllegalMethodSignature
  | IllegalDotInDescriptor | TooManyDimensions | IllegalClassModifiers | IllegalFieldModifiers | IllegalMethodModifiers.

Inductive Checked (A : Type) :=
  | Done (a : A)
  | Throw (e : FormatError).
Arguments Done {A} _.
Arguments Throw {A} _.

(** [CHECK]: the method returns when an exception is pending. *)
Definition check {A B} (x : option (Checked A)) (k : A -> option (Checked B)) : option (Checked B) :=
  match x with
  | None => None
  | Some (Throw e) => Some (Throw e)
  | Some (Done a) => k a
  end.

Definition JVM_SIGNATURE_ARRAY : Z := 91.
Definition JVM_SIGNATURE_BYTE : Z := 66.
Definition JVM_SIGNATURE_CHAR : Z := 67.
Definition JVM_SIGNATURE_CLASS : Z := 76.
Definition JVM_SIGNATURE_ENDCLASS : Z := 59.
Definition JVM_SIGNATURE_FLOAT : Z := 70.
Definition JVM_SIGNATURE_DOUBLE : Z := 68.
Definition JVM_SIGNATURE_FUNC : Z := 40.
Definition JVM_SIGNATURE_ENDFUNC : Z := 41.
Definition JVM_SIGNATURE_INT : Z := 73.
Definition JVM_SIGNATURE_LONG : Z := 74.
Definition JVM_SIGNATURE_SHORT : Z := 83.
Definition JVM_SIGNATURE_VOID : Z := 86.
Definition JVM_SIGNATURE_BOOLEAN : Z := 90.

Definition JAVA_MIN_SUPPORTED_VERSION : Z := 45.
Definition JAVA_MAX_SUPPORTED_VERSION : Z := 51.
Definition JAVA_MAX_SUPPORTED_MINOR_VERSION : Z := 0.
Definition JAVA_1_5_VERSION : Z := 49.
Definition JAVA_6_VERSION : Z := 50.

(** [as_utf8_flexible_buffer]. *)
Definition as_utf8_flexible_buffer (symbol : list Z) : list Z := symbol ++ [0].

(** [ch = *p] makes a [jchar] of a signed [char]. *)
Definition char_at (buf : list Z) (p : Z) : option Z := b ← arr_get buf p; Some (u16 (swrap 8 b)).

(** The symbols <init> and <clinit>. *)
Definition object_initializer_name : list Z := [60; 105; 110; 105; 116; 62].
Definition class_initializer_name : list Z := [60; 99; 108; 105; 110; 105; 116; 62].

Inductive NameKind := LegalClass | LegalField | LegalMethod.
#[export] Instance NameKind_eq_dec : EqDecision NameKind.
Proof. solve_decision. Defined.

Section Parser.
(** The version of the class file, whether it is verified and how strictly, and the methods of java.lang.Character, which may
    throw. *)
Context (_major_version : Z) (_need_verify _relax_verify : bool).
Context (isJavaIdentifierStart isJavaIdentifierPart : Z -> option bool).

(* ------------------------------------------------------------------ *)
(** ** Strings *)

(** The first loop skips four bytes at a time while they are ASCII and not zero. *)
Fixpoint skip_ascii (count : nat) (buffer : list Z) (i : Z) : option Z :=
  match count with
  | O => Some i
  | S count =>
      b0 ← arr_get buffer i; b1 ← arr_get buffer (i + 1); b2 ← arr_get buffer (i + 2); b3 ← arr_get buffer (i + 3);
      let res := u8 (Z.lor (Z.lor (Z.lor (Z.lor (Z.lor (Z.lor (Z.lor b0 (b0 - 1)) b1) (b1 - 1)) b2) (b2 - 1)) b3) (b3 - 1)) in
      if 128 <=? res then Some i else skip_ascii count buffer (i + 4)
  end.

(** The second loop looks at each character. *)
Fixpoint utf8_loop (fuel : nat) (buffer : list Z) (length i : Z) : option (Checked unit) :=
  if i <? length then
    match fuel with
    | O => None
    | S fuel =>
        b ← arr_get buffer i;
        if b =? 0 then Some (Throw IllegalUTF8)
        else if b <? 128 then utf8_loop fuel buffer length (i + 1)
        else
          supplementary ← (if i + 5 <? length then is_supplementary_character buffer i else Some false);
          if (supplementary : bool) then utf8_loop fuel buffer length (i + 5 + 1)
          else
            let sw := Z.shiftr b 4 in
            if (sw =? 0x8) || (sw =? 0x9) || (sw =? 0xA) || (sw =? 0xB) || (sw =? 0xF) then Some (Throw IllegalUTF8)
            else if (sw =? 0xC) || (sw =? 0xD) then
              let c := u16 (Z.shiftl (Z.land b 0x1F) 6) in
              let i := i + 1 in
              if i <? length then
                b1 ← arr_get buffer i;
                let c := u16 (c + Z.land b1 0x3F) in
                if (Z.land b1 0xC0 =? 0x80) && ((_major_version <=? 47) || (c =? 0) || (0x80 <=? c))
                then utf8_loop fuel buffer length (i + 1) else Some (Throw IllegalUTF8)
              else Some (Throw IllegalUTF8)
            else if sw =? 0xE then
              let c := u16 (Z.shiftl (Z.land b 0xF) 12) in
              let i := i + 2 in
              if i <? length then
                b1 ← arr_get buffer (i - 1); b2 ← arr_get buffer i;
                let c := u16 (c + (Z.shiftl (Z.land b1 0x3F) 6 + Z.land b2 0x3F)) in
                if (Z.land b1 0xC0 =? 0x80) && (Z.land b2 0xC0 =? 0x80) && ((_major_version <=? 47) || (0x800 <=? c))
                then utf8_loop fuel buffer length (i + 1) else Some (Throw IllegalUTF8)
              else Some (Throw IllegalUTF8)
            else utf8_loop fuel buffer length (i + 1)
    end
  else Some (Done tt).

Definition verify_legal_utf8 (buffer : list Z) (length : Z) : option (Checked unit) :=
  i ← skip_ascii (Z.to_nat (Z.shiftr length 2)) buffer 0;
  utf8_loop (Z.to_nat length) buffer length i.

(* ------------------------------------------------------------------ *)
(** ** Names *)

Fixpoint unqualified_loop (fuel : nat) (buf : list Z) (name length : Z) (type : NameKind) (p : Z) : option bool :=
  if p =? name + length then Some true
  else
    match fuel with
    | O => None
    | S fuel =>
        ch ← char_at buf p;
        if ch <? 128 then
          if (ch =? 46) || (ch =? 59) then Some false
          else if negb (bool_decide (type = LegalClass)) && (ch =? 47) then Some false
          else if bool_decide (type = LegalMethod) && ((ch =? 60) || (ch =? 62)) then Some false
          else unqualified_loop fuel buf name length type (p + 1)
        else
          '(_, p) ← next buf p;
          unqualified_loop fuel buf name length type p
    end.
Definition verify_unqualified_name (buf : list Z) (name length : Z) (type : NameKind) : option bool :=
  unqualified_loop (Z.to_nat length) buf name length type name.

Definition ascii_identifier (ch : Z) (not_first_ch : bool) : bool :=
  ((97 <=? ch) && (ch <=? 122)) || ((65 <=? ch) && (ch <=? 90)) || ((ch =? 95) || (ch =? 36)) ||
  (not_first_ch && (48 <=? ch) && (ch <=? 57)).

(** The pointer behind the name, or [NULL]. *)
Fixpoint field_name_loop (fuel : nat) (buf : list Z) (name : Z) (slash_ok : bool) (length p : Z) (last_is_slash not_first_ch : bool)
  : option (option Z) :=
  if p =? name + length then Some (if not_first_ch then Some p else None)
  else
    match fuel with
    | O => None
    | S fuel =>
        let old_p := p in
        ch ← char_at buf p;
        if ch <? 128 then
          let p := p + 1 in
          if ascii_identifier ch not_first_ch then field_name_loop fuel buf name slash_ok length p false true
          else if slash_ok && (ch =? 47) then
            if last_is_slash then Some None
            else field_name_loop fuel buf name slash_ok length p true true
          else Some (if not_first_ch then Some old_p else None)
        else
          '(unicode_ch, p) ← next_character buf p;
          match isJavaIdentifierStart unicode_ch with
          | None => Some None
          | Some true => field_name_loop fuel buf name slash_ok length p false true
          | Some false =>
              if not_first_ch then
                match isJavaIdentifierPart unicode_ch with
                | None => Some None
                | Some true => field_name_loop fuel buf name slash_ok length p false true
                | Some false => Some (Some old_p)
                end
              else Some None
          end
    end.
Definition skip_over_field_name (buf : list Z) (name : Z) (slash_ok : bool) (length : Z) : option (option Z) :=
  field_name_loop (Z.to_nat length) buf name slash_ok length name false false.

(* ------------------------------------------------------------------ *)
(** ** Signatures *)

(** The class name of a signature in a class file of version 49 or later. *)
Fixpoint class_name_loop (fuel : nat) (buf : list Z) (signature length : Z) : option (Checked (Z * Z)) :=
  if 0 <? length then
    match fuel with
    | O => None
    | S fuel =>
        c ← arr_get buf signature;
        if c =? JVM_SIGNATURE_ENDCLASS then Some (Done (signature, length))
        else if c =? 46 then Some (Throw IllegalDotInDescriptor)
        else class_name_loop fuel buf (signature + 1) (length - 1)
    end
  else Some (Done (signature, length)).

Definition skip_class_name (buf : list Z) (signature length : Z) : option (Checked (option Z)) :=
  if _major_version <? JAVA_1_5_VERSION then
    p ← skip_over_field_name buf (signature + 1) true (length - 1);
    match p with
    | None => Some (Done None)
    | Some p =>
        if 1 <? p - signature then
          c ← arr_get buf p;
          Some (Done (if c =? JVM_SIGNATURE_ENDCLASS then Some (p + 1) else None))
        else Some (Done None)
    end
  else
    check (class_name_loop (Z.to_nat length) buf (signature + 1) (length - 1)) (fun '(signature, _) =>
      c ← arr_get buf signature;
      Some (Done (if c =? JVM_SIGNATURE_ENDCLASS then Some (signature + 1) else None))).

(** [array_dim] is the number of dimensions so far. *)
Fixpoint field_signature_loop (fuel : nat) (buf : list Z) (signature : Z) (void_ok : bool) (length array_dim : Z)
  : option (Checked (option Z)) :=
  if 0 <? length then
    match fuel with
    | O => None
    | S fuel =>
        c ← arr_get buf signature;
        if (c =? JVM_SIGNATURE_VOID) && negb void_ok then Some (Done None)
        else if (c =? JVM_SIGNATURE_VOID) || (c =? JVM_SIGNATURE_BOOLEAN) || (c =? JVM_SIGNATURE_BYTE) ||
                (c =? JVM_SIGNATURE_CHAR) || (c =? JVM_SIGNATURE_SHORT) || (c =? JVM_SIGNATURE_INT) ||
                (c =? JVM_SIGNATURE_FLOAT) || (c =? JVM_SIGNATURE_LONG) || (c =? JVM_SIGNATURE_DOUBLE) then
          Some (Done (Some (signature + 1)))
        else if c =? JVM_SIGNATURE_CLASS then skip_class_name buf signature length
        else if c =? JVM_SIGNATURE_ARRAY then
          let array_dim := array_dim + 1 in
          if 255 <? array_dim then Some (Throw TooManyDimensions)
          else field_signature_loop fuel buf (signature + 1) false (length - 1) array_dim
        else Some (Done None)
    end
  else Some (Done None).
Definition skip_over_field_signature (buf : list Z) (signature : Z) (void_ok : bool) (length : Z) : option (Checked (option Z)) :=
  field_signature_loop (Z.to_nat length) buf signature void_ok length 0.

Definition verify_legal_field_signature (signature : list Z) : option (Checked unit) :=
  if negb _need_verify then Some (Done tt)
  else
    let bytes := as_utf8_flexible_buffer signature in
    let length := Z.of_nat (List.length signature) in
    check (skip_over_field_signature bytes 0 false length) (fun p =>
      match p with
      | Some p => if p =? length then Some (Done tt) else Some (Throw IllegalFieldSignature)
      | None => Some (Throw IllegalFieldSignature)
      end).

(** The parameters, where [nextp] is behind the next one; the pointer, the length left and the size so far. *)
Fixpoint parameters_loop (fuel : nat) (buf : list Z) (p length args_size : Z) (nextp : option Z) : option (Checked (Z * Z * Z)) :=
  match nextp with
  | Some q =>
      if 0 <? length then
        match fuel with
        | O => None
        | S fuel =>
            c ← arr_get buf p;
            let args_size := u32 (args_size + 1) in
            let args_size := if (c =? JVM_SIGNATURE_LONG) || (c =? JVM_SIGNATURE_DOUBLE) then u32 (args_size + 1) else args_size in
            let length := u32 (length - (q - p)) in
            check (skip_over_field_signature buf q false length) (fun nextp =>
              parameters_loop fuel buf q length args_size nextp)
        end
      else Some (Done (p, length, args_size))
  | None => Some (Done (p, length, args_size))
  end.

(** Behind the parameters: the end of them and the return type. *)
Definition verify_return (buf name : list Z) (p length args_size : Z) : option (Checked Z) :=
  let illegal := Some (Throw IllegalMethodSignature) in
  if negb (0 <? length) then illegal
  else
    c ← arr_get buf p;
    if negb (c =? JVM_SIGNATURE_ENDFUNC) then illegal
    else
      let p := p + 1 in
      let length := length - 1 in
      if (0 <? Z.of_nat (List.length name)) && bool_decide (name !! 0%nat = Some 60) then
        if negb (length =? 1) then illegal
        else c ← arr_get buf p; if c =? JVM_SIGNATURE_VOID then Some (Done args_size) else illegal
      else
        check (skip_over_field_signature buf p true length) (fun nextp =>
          match nextp with
          | Some nextp => if length =? nextp - p then Some (Done args_size) else illegal
          | None => illegal
          end).

Definition verify_legal_method_signature (name signature : list Z) : option (Checked Z) :=
  if negb _need_verify then Some (Done (-2))
  else
    let p := as_utf8_flexible_buffer signature in
    let length := Z.of_nat (List.length signature) in
    let illegal := Some (Throw IllegalMethodSignature) in
    if negb (0 <? length) then illegal
    else
      c ← arr_get p 0;
      if negb (c =? JVM_SIGNATURE_FUNC) then illegal
      else
        let length := length - 1 in
        check (skip_over_field_signature p 1 false length) (fun nextp =>
        check (parameters_loop (Z.to_nat length) p 1 length 0 nextp) (fun '(q, length, args_size) =>
          verify_return p name q length args_size)).

(* ------------------------------------------------------------------ *)
(** ** The names of classes, fields and methods *)

Definition whole (p : option Z) (length : Z) : bool := match p with Some p => p =? length | None => false end.
Definition legal_or (e : FormatError) (legal : bool) : option (Checked unit) :=
  if legal then Some (Done tt) else Some (Throw e).

Definition verify_legal_class_name (name : list Z) : option (Checked unit) :=
  if negb _need_verify || _relax_verify then Some (Done tt)
  else
    let bytes := as_utf8_flexible_buffer name in
    let length := Z.of_nat (List.length name) in
    if negb (0 <? length) then Some (Throw IllegalClassName)
    else
      c ← arr_get bytes 0;
      if c =? JVM_SIGNATURE_ARRAY then
        check (skip_over_field_signature bytes 0 false length) (fun p => legal_or IllegalClassName (whole p length))
      else if _major_version <? JAVA_1_5_VERSION then
        if c =? 60 then Some (Throw IllegalClassName)
        else p ← skip_over_field_name bytes 0 true length; legal_or IllegalClassName (whole p length)
      else
        legal ← verify_unqualified_name bytes 0 length LegalClass; legal_or IllegalClassName legal.

Definition verify_legal_field_name (name : list Z) : option (Checked unit) :=
  if negb _need_verify || _relax_verify then Some (Done tt)
  else
    let bytes := as_utf8_flexible_buffer name in
    let length := Z.of_nat (List.length name) in
    if negb (0 <? length) then Some (Throw IllegalFieldName)
    else if _major_version <? JAVA_1_5_VERSION then
      c ← arr_get bytes 0;
      if c =? 60 then Some (Throw IllegalFieldName)
      else p ← skip_over_field_name bytes 0 false length; legal_or IllegalFieldName (whole p length)
    else
      legal ← verify_unqualified_name bytes 0 length LegalField; legal_or IllegalFieldName legal.

Definition verify_legal_method_name (name : list Z) : option (Checked unit) :=
  if negb _need_verify || _relax_verify then Some (Done tt)
  else
    let bytes := as_utf8_flexible_buffer name in
    let length := Z.of_nat (List.length name) in
    if negb (0 <? length) then Some (Throw IllegalMethodName)
    else
      c ← arr_get bytes 0;
      if c =? 60 then legal_or IllegalMethodName (bool_decide (name = object_initializer_name \/ name = class_initializer_name))
      else if _major_version <? JAVA_1_5_VERSION then
        p ← skip_over_field_name bytes 0 false length; legal_or IllegalMethodName (whole p length)
      else
        legal ← verify_unqualified_name bytes 0 length LegalMethod; legal_or IllegalMethodName legal.

(* ------------------------------------------------------------------ *)
(** ** Flags *)

Definition JVM_ACC_PUBLIC : Z := 0x0001.
Definition JVM_ACC_PRIVATE : Z := 0x0002.
Definition JVM_ACC_PROTECTED : Z := 0x0004.
Definition JVM_ACC_STATIC : Z := 0x0008.
Definition JVM_ACC_FINAL : Z := 0x0010.
Definition JVM_ACC_SYNCHRONIZED : Z := 0x0020.
Definition JVM_ACC_SUPER : Z := 0x0020.
Definition JVM_ACC_VOLATILE : Z := 0x0040.
Definition JVM_ACC_BRIDGE : Z := 0x0040.
Definition JVM_ACC_TRANSIENT : Z := 0x0080.
Definition JVM_ACC_NATIVE : Z := 0x0100.
Definition JVM_ACC_INTERFACE : Z := 0x0200.
Definition JVM_ACC_ABSTRACT : Z := 0x0400.
Definition JVM_ACC_STRICT : Z := 0x0800.
Definition JVM_ACC_ANNOTATION : Z := 0x2000.
Definition JVM_ACC_ENUM : Z := 0x4000.

Definition has_flag (flags acc : Z) : bool := negb (Z.land flags acc =? 0).

Definition has_illegal_visibility (flags : Z) : bool :=
  let is_public := has_flag flags JVM_ACC_PUBLIC in
  let is_protected := has_flag flags JVM_ACC_PROTECTED in
  let is_private := has_flag flags JVM_ACC_PRIVATE in
  (is_public && is_protected) || (is_public && is_private) || (is_protected && is_private).

(** The version of the library decides the newest class file: [is_gte_jdk17x_version] and [is_gte_jdk16x_version]. *)
Definition is_supported_version (gte_jdk17x gte_jdk16x : bool) (major minor : Z) : bool :=
  let max_version := if gte_jdk17x then JAVA_MAX_SUPPORTED_VERSION else if gte_jdk16x then JAVA_6_VERSION else JAVA_1_5_VERSION in
  (JAVA_MIN_SUPPORTED_VERSION <=? major) && (major <=? max_version) &&
  (negb (major =? max_version) || (minor <=? JAVA_MAX_SUPPORTED_MINOR_VERSION)).

Definition verify_legal_class_modifiers (flags : Z) : Checked unit :=
  if negb _need_verify then Done tt
  else
    let is_interface := has_flag flags JVM_ACC_INTERFACE in
    let is_abstract := has_flag flags JVM_ACC_ABSTRACT in
    let is_final := has_flag flags JVM_ACC_FINAL in
    let is_super := has_flag flags JVM_ACC_SUPER in
    let is_enum := has_flag flags JVM_ACC_ENUM in
    let is_annotation := has_flag flags JVM_ACC_ANNOTATION in
    let major_gte_15 := JAVA_1_5_VERSION <=? _major_version in
    if (is_abstract && is_final) || (is_interface && negb is_abstract) || (is_interface && major_gte_15 && (is_super || is_enum)) ||
       (negb is_interface && major_gte_15 && is_annotation)
    then Throw IllegalClassModifiers else Done tt.

Definition verify_legal_field_modifiers (flags : Z) (is_interface : bool) : Checked unit :=
  if negb _need_verify then Done tt
  else
    let is_public := has_flag flags JVM_ACC_PUBLIC in
    let is_protected := has_flag flags JVM_ACC_PROTECTED in
    let is_private := has_flag flags JVM_ACC_PRIVATE in
    let is_static := has_flag flags JVM_ACC_STATIC in
    let is_final := has_flag flags JVM_ACC_FINAL in
    let is_volatile := has_flag flags JVM_ACC_VOLATILE in
    let is_transient := has_flag flags JVM_ACC_TRANSIENT in
    let is_enum := has_flag flags JVM_ACC_ENUM in
    let major_gte_15 := JAVA_1_5_VERSION <=? _major_version in
    let is_illegal :=
      if is_interface then negb is_public || negb is_static || negb is_final || is_private || is_protected || is_volatile ||
                           is_transient || (major_gte_15 && is_enum)
      else has_illegal_visibility flags || (is_final && is_volatile) in
    if is_illegal then Throw IllegalFieldModifiers else Done tt.

Definition verify_legal_method_modifiers (flags : Z) (is_interface : bool) (name : list Z) : Checked unit :=
  if negb _need_verify then Done tt
  else
    let is_public := has_flag flags JVM_ACC_PUBLIC in
    let is_private := has_flag flags JVM_ACC_PRIVATE in
    let is_static := has_flag flags JVM_ACC_STATIC in
    let is_final := has_flag flags JVM_ACC_FINAL in
    let is_native := has_flag flags JVM_ACC_NATIVE in
    let is_abstract := has_flag flags JVM_ACC_ABSTRACT in
    let is_bridge := has_flag flags JVM_ACC_BRIDGE in
    let is_strict := has_flag flags JVM_ACC_STRICT in
    let is_synchronized := has_flag flags JVM_ACC_SYNCHRONIZED in
    let major_gte_15 := JAVA_1_5_VERSION <=? _major_version in
    let is_initializer := bool_decide (name = object_initializer_name) in
    let is_illegal :=
      if is_interface then negb is_abstract || negb is_public || is_static || is_final || is_native ||
                           (major_gte_15 && (is_synchronized || is_strict))
      else if is_initializer then is_static || is_final || is_synchronized || is_native || is_abstract || (major_gte_15 && is_bridge)
      else (is_abstract && (is_final || is_native || is_private || is_static || (major_gte_15 && (is_synchronized || is_strict)))) ||
           has_illegal_visibility flags in
    if is_illegal then Throw IllegalMethodModifiers else Done tt.
End Parser.
