(* ===== verification/Signature.v ===== *)
(** * Signature: runtime/signature.cpp and signature.hpp, how the machine reads the signatures of methods

    A signature that is in use was checked when its class was loaded, so [SignatureIterator] and [SignatureStream] read without
    bounds: [None] is a read behind the end, a character that stops the machine, or a loop that does not end.  What an
    iterator does with a type is a call of a virtual method; the functions here return the calls, in order, and the
    subclasses are folds over them. *)

From S2P Require Import Prelude GlobalDefs.

(** The size of a type in stack slots. *)
Definition type2size (t : BasicType) : Z :=
  match t with T_DOUBLE | T_LONG => 2 | T_VOID => 0 | _ => 1 end.

(** The virtual methods; the places of an object or array type are those of its characters. *)
Inductive Call :=
  | do_prim (t : BasicType)
  | do_void
  | do_object (begin end_ : Z)
  | do_array (begin end_ : Z).
#[export] Instance Call_eq_dec : EqDecision Call.
Proof. solve_decision. Defined.

Definition byte_at (sig : list Z) (i : Z) : option Z := arr_get sig i.

(* ------------------------------------------------------------------ *)
(** ** SignatureIterator *)

Record SignatureIterator := { _index : Z; _parameter_index : Z; _return_type : BasicType }.

Definition expect (sig : list Z) (c i : Z) : option Z :=
  b ← byte_at sig i; guard_b (b =? c) (Some (i + 1)).

(** [while ('0' <= c && c <= '9') c = sig->byte_at(++_index);] *)
Fixpoint skip_digits (fuel : nat) (sig : list Z) (i : Z) : option Z :=
  match fuel with
  | O => None
  | S fuel => c ← byte_at sig i; if (48 <=? c) && (c <=? 57) then skip_digits fuel sig (i + 1) else Some i
  end.
Definition skip_optional_size (sig : list Z) (i : Z) : option Z := skip_digits (S (length sig)) sig i.

(** [while (sig->byte_at(_index++) != ';') ;] *)
Fixpoint skip_to_semicolon (fuel : nat) (sig : list Z) (i : Z) : option Z :=
  match fuel with
  | O => None
  | S fuel => c ← byte_at sig i; if c =? 59 then Some (i + 1) else skip_to_semicolon fuel sig (i + 1)
  end.

Fixpoint skip_dimensions (fuel : nat) (sig : list Z) (i : Z) : option Z :=
  match fuel with
  | O => None
  | S fuel =>
      c ← byte_at sig i;
      if c =? 91 then i ← skip_optional_size sig (i + 1); skip_dimensions fuel sig i else Some i
  end.

(** The type of a character of one letter. *)
Definition primitive (c : Z) : option BasicType :=
  if c =? 66 then Some T_BYTE else if c =? 67 then Some T_CHAR else if c =? 68 then Some T_DOUBLE
  else if c =? 70 then Some T_FLOAT else if c =? 73 then Some T_INT else if c =? 74 then Some T_LONG
  else if c =? 83 then Some T_SHORT else if c =? 90 then Some T_BOOLEAN else None.

(** The state after the type, its size, and the call. *)
Definition parse_type (sig : list Z) (it : SignatureIterator) : option (SignatureIterator * Z * Call) :=
  let i := _index it in
  let put (i : Z) (t : BasicType) :=
    {| _index := i; _parameter_index := _parameter_index it;
       _return_type := if _parameter_index it <? 0 then t else _return_type it |} in
  c ← byte_at sig i;
  match primitive c with
  | Some t => Some (put (i + 1) t, type2size t, do_prim t)
  | None =>
      if c =? 86 then Some (put (i + 1) T_VOID, type2size T_VOID, do_void)
      else if c =? 76 then
        let begin := i + 1 in
        i ← skip_to_semicolon (S (length sig)) sig begin;
        Some (put i T_OBJECT, type2size T_OBJECT, do_object begin i)
      else if c =? 91 then
        let begin := i + 1 in
        i ← skip_optional_size sig begin;
        i ← skip_dimensions (S (length sig)) sig i;
        c ← byte_at sig i;
        i ← (if c =? 76 then skip_to_semicolon (S (length sig)) sig i else Some (i + 1));
        Some (put i T_ARRAY, type2size T_ARRAY, do_array begin i)
      else None
  end.

Definition set_index (it : SignatureIterator) (i : Z) : SignatureIterator :=
  {| _index := i; _parameter_index := _parameter_index it; _return_type := _return_type it |}.
Definition set_parameter_index (it : SignatureIterator) (i : Z) : SignatureIterator :=
  {| _index := _index it; _parameter_index := i; _return_type := _return_type it |}.

(** [while (_signature->byte_at(_index) != ')') _parameter_index += parse_type();] *)
Fixpoint parse_parameters (fuel : nat) (sig : list Z) (it : SignatureIterator) : option (SignatureIterator * list Call) :=
  match fuel with
  | O => None
  | S fuel =>
      c ← byte_at sig (_index it);
      if c =? 41 then Some (it, [])
      else
        '(it, size, call) ← parse_type sig it;
        '(it, calls) ← parse_parameters fuel sig (set_parameter_index it (s32 (_parameter_index it + size)));
        Some (it, call :: calls)
  end.

Definition iterate_parameters (sig : list Z) (it : SignatureIterator) : option (SignatureIterator * list Call) :=
  i ← expect sig 40 0;
  '(it, calls) ← parse_parameters (S (length sig)) sig (set_parameter_index (set_index it i) 0);
  i ← expect sig 41 (_index it);
  Some (set_parameter_index (set_index it i) 0, calls).

Fixpoint skip_to_end (fuel : nat) (sig : list Z) (i : Z) : option Z :=
  match fuel with
  | O => None
  | S fuel => c ← byte_at sig i; if c =? 41 then Some i else skip_to_end fuel sig (i + 1)
  end.

Definition iterate_returntype (sig : list Z) (it : SignatureIterator) : option (SignatureIterator * list Call) :=
  i ← expect sig 40 0;
  i ← skip_to_end (S (length sig)) sig i;
  i ← expect sig 41 i;
  '(it, _, call) ← parse_type sig (set_parameter_index (set_index it i) (-1));
  Some (set_parameter_index it 0, [call]).

Definition iterate (sig : list Z) (it : SignatureIterator) : option (SignatureIterator * list Call) :=
  i ← expect sig 40 0;
  '(it, calls) ← parse_parameters (S (length sig)) sig (set_parameter_index (set_index it i) 0);
  i ← expect sig 41 (_index it);
  '(it, _, call) ← parse_type sig (set_parameter_index (set_index it i) (-1));
  Some (set_parameter_index it 0, calls ++ [call]).

Definition dispatch_field (sig : list Z) (it : SignatureIterator) : option (SignatureIterator * list Call) :=
  '(it, _, call) ← parse_type sig (set_parameter_index (set_index it 0) 0);
  Some (it, [call]).

(* ------------------------------------------------------------------ *)
(** ** Fingerprints *)

Definition static_feature_size : Z := 1.
Definition result_feature_size : Z := 4.
Definition result_feature_mask : Z := 0xF.
Definition parameter_feature_size : Z := 4.
Definition parameter_feature_mask : Z := 0xF.
Definition bool_parm : Z := 1.
Definition byte_parm : Z := 2.
Definition char_parm : Z := 3.
Definition short_parm : Z := 4.
Definition int_parm : Z := 5.
Definition long_parm : Z := 6.
Definition float_parm : Z := 7.
Definition double_parm : Z := 8.
Definition obj_parm : Z := 9.
Definition done_parm : Z := 10.
Definition max_size_of_parameters : Z :=
  Z.quot (64 - 1 - result_feature_size - parameter_feature_size - static_feature_size) parameter_feature_size.

(** [UCONST64(-1)]. *)
Definition no_fingerprint : Z := 2 ^ 64 - 1.

(** The call for a field, and the size it has. *)
Definition field_call (f : Z) : option Call :=
  if f =? bool_parm then Some (do_prim T_BOOLEAN) else if f =? byte_parm then Some (do_prim T_BYTE)
  else if f =? char_parm then Some (do_prim T_CHAR) else if f =? short_parm then Some (do_prim T_SHORT)
  else if f =? int_parm then Some (do_prim T_INT) else if f =? obj_parm then Some (do_object 0 0)
  else if f =? long_parm then Some (do_prim T_LONG) else if f =? float_parm then Some (do_prim T_FLOAT)
  else if f =? double_parm then Some (do_prim T_DOUBLE) else None.
Definition call_size (call : Call) : Z := match call with do_prim t => type2size t | _ => type2size T_OBJECT end.

(** The loop of [iterate_parameters] with a fingerprint; a 64-bit word has 16 fields. *)
Fixpoint iterate_fields (fuel : nat) (fingerprint : Z) (it : SignatureIterator) : option (SignatureIterator * list Call) :=
  match fuel with
  | O => None
  | S fuel =>
      let f := Z.land fingerprint parameter_feature_mask in
      if f =? done_parm then Some (it, [])
      else
        call ← field_call f;
        '(it, calls) ← iterate_fields fuel (Z.shiftr fingerprint parameter_feature_size)
                         (set_parameter_index it (s32 (_parameter_index it + call_size call)));
        Some (it, call :: calls)
  end.

Definition iterate_parameters_fingerprint (sig : list Z) (fingerprint : Z) (it : SignatureIterator)
  : option (SignatureIterator * list Call) :=
  if fingerprint =? no_fingerprint then iterate_parameters sig it
  else iterate_fields 17 (Z.shiftr fingerprint (static_feature_size + result_feature_size)) (set_parameter_index it 0).

(** [Fingerprinter]: the word so far and the place of the next field; a shift by the width is undefined. *)
Definition feature (call : Call) : option Z :=
  match call with
  | do_prim T_BOOLEAN => Some bool_parm | do_prim T_BYTE => Some byte_parm | do_prim T_CHAR => Some char_parm
  | do_prim T_SHORT => Some short_parm | do_prim T_INT => Some int_parm | do_prim T_LONG => Some long_parm
  | do_prim T_FLOAT => Some float_parm | do_prim T_DOUBLE => Some double_parm
  | do_object _ _ | do_array _ _ => Some obj_parm
  | _ => None
  end.

Fixpoint add_features (calls : list Call) (fp shift : Z) : option (Z * Z) :=
  match calls with
  | [] => Some (fp, shift)
  | call :: calls =>
      f ← feature call;
      guard_b (shift <? 64) (add_features calls (Z.lor fp (u64 (Z.shiftl f shift))) (shift + parameter_feature_size))
  end.

(** What a fingerprint is made of: the fields of the method. *)
Record Method := { signature : list Z; is_static : bool; size_of_parameters : Z; stored_fingerprint : Z }.

(** [ArgumentSizeComputer], [ArgumentCount] and [ResultTypeFinder]; a fresh iterator has no return type. *)
Definition new_iterator : SignatureIterator := {| _index := 0; _parameter_index := 0; _return_type := T_ILLEGAL |}.
Definition call_type (call : Call) : BasicType :=
  match call with do_prim t => t | do_void => T_VOID | do_object _ _ => T_OBJECT | do_array _ _ => T_ARRAY end.

Definition ArgumentSizeComputer_size (sig : list Z) : option Z :=
  '(_, calls) ← iterate_parameters sig new_iterator;
  Some (foldl (fun size call => s32 (size + type2size (call_type call))) 0 calls).
Definition ArgumentCount_size (sig : list Z) : option Z :=
  '(_, calls) ← iterate_parameters sig new_iterator;
  Some (foldl (fun size _ => s32 (size + 1)) 0 calls).
Definition ResultTypeFinder_type (sig : list Z) : option BasicType :=
  '(it, calls) ← iterate_returntype sig new_iterator;
  Some (foldl (fun _ call => call_type call) (_return_type it) calls).

(** The fields of methodOop.cpp computed from the signature. *)
Definition result_type (m : Method) : option BasicType := ResultTypeFinder_type (signature m).
Definition compute_size_of_parameters (m : Method) : option Method :=
  size ← ArgumentSizeComputer_size (signature m);
  Some {| signature := signature m; is_static := is_static m; size_of_parameters := s32 (size + if is_static m then 0 else 1);
          stored_fingerprint := stored_fingerprint m |}.
Definition set_fingerprint (m : Method) (fp : Z) : Method :=
  {| signature := signature m; is_static := is_static m; size_of_parameters := size_of_parameters m; stored_fingerprint := fp |}.

(** [Fingerprinter::fingerprint]: the fingerprint and the method that remembers it. *)
Definition fingerprint (m : Method) : option (Z * Method) :=
  if negb (stored_fingerprint m =? 0) then Some (stored_fingerprint m, m)
  else if max_size_of_parameters <? size_of_parameters m then Some (no_fingerprint, set_fingerprint m no_fingerprint)
  else
    t ← result_type m;
    let fp := u64 (Z.shiftl (BasicType_num t) static_feature_size) in
    let fp := if is_static m then Z.lor fp 1 else fp in
    let shift_count := result_feature_size + static_feature_size in
    '(_, calls) ← iterate_parameters (signature m) new_iterator;
    '(fp, shift_count) ← add_features calls fp shift_count;
    guard_b (shift_count <? 64)
      (let fp := Z.lor fp (u64 (Z.shiftl done_parm shift_count)) in
       Some (fp, set_fingerprint m fp)).

(** [NativeSignatureIterator]: what is passed, with the Java and the C offset it is at. *)
Inductive Pass := pass_int | pass_long | pass_float | pass_double | pass_object.
Definition pass_of (call : Call) : option (Pass * Z) :=
  match call with
  | do_prim T_LONG => Some (pass_long, 2) | do_prim T_DOUBLE => Some (pass_double, 2) | do_prim T_FLOAT => Some (pass_float, 1)
  | do_prim _ => Some (pass_int, 1)
  | do_object _ _ | do_array _ _ => Some (pass_object, 1)
  | do_void => None
  end.
Fixpoint pass_all (calls : list Call) (offset jni_offset : Z) : option (list (Pass * Z * Z)) :=
  match calls with
  | [] => Some []
  | call :: calls =>
      '(p, size) ← pass_of call;
      l ← pass_all calls (offset + size) (jni_offset + 1);
      Some ((p, offset, jni_offset) :: l)
  end.

(** [iterate]; [jni_offset] includes the prepended environment and mirror. *)
Definition native_iterate (m : Method) : option (list (Pass * Z * Z)) :=
  '(fp, m) ← fingerprint m;
  let prepended := if negb (is_static m) then 1 else 2 in
  '(_, calls) ← iterate_parameters_fingerprint (signature m) fp new_iterator;
  if negb (is_static m) then
    l ← pass_all calls 1 (prepended + 1); Some ((pass_object, 0, prepended) :: l)
  else pass_all calls 0 prepended.

(* ------------------------------------------------------------------ *)
(** ** SignatureStream *)

Record SignatureStream := { _begin : Z; _end : Z; _type : BasicType; _at_return_type : bool }.

(** [while ('0' <= c && c <= '9') c = sig->byte_at(_end++);] *)
Fixpoint stream_digits (fuel : nat) (sig : list Z) (c e : Z) : option Z :=
  if (48 <=? c) && (c <=? 57) then
    match fuel with
    | O => None
    | S fuel => c ← byte_at sig e; stream_digits fuel sig c (e + 1)
    end
  else Some e.

Fixpoint stream_dimensions (fuel : nat) (sig : list Z) (e : Z) : option Z :=
  match fuel with
  | O => None
  | S fuel =>
      c ← byte_at sig e;
      if c =? 91 then
        c ← byte_at sig (e + 1);
        e ← stream_digits (S (length sig)) sig c (e + 1);
        stream_dimensions fuel sig e
      else Some e
  end.

Definition stream_at (s : SignatureStream) (b e : Z) (t : BasicType) : SignatureStream :=
  {| _begin := b; _end := e; _type := t; _at_return_type := _at_return_type s |}.

(** [next] with [next_non_primitive], which calls it behind the parameters. *)
Fixpoint stream_next (fuel : nat) (sig : list Z) (s : SignatureStream) : option SignatureStream :=
  match fuel with
  | O => None
  | S fuel =>
      let len := Z.of_nat (length sig) in
      if len <=? _end s then Some (stream_at s (_begin s) (len + 1) (_type s))
      else
        let b := _end s in
        t ← byte_at sig b;
        match primitive t with
        | Some t => Some (stream_at s b (b + 1) t)
        | None =>
            if t =? 86 then Some (stream_at s b (b + 1) T_VOID)
            else if t =? 76 then
              e ← skip_to_semicolon (S (length sig)) sig b; Some (stream_at s b e T_OBJECT)
            else if t =? 91 then
              c ← byte_at sig b;
              e ← stream_digits (S (length sig)) sig c b;
              e ← stream_dimensions (S (length sig)) sig e;
              c ← byte_at sig e;
              e ← (match primitive c with Some _ => Some (e + 1) | None => skip_to_semicolon (S (length sig)) sig e end);
              Some (stream_at s b e T_ARRAY)
            else if t =? 41 then
              s ← stream_next fuel sig (stream_at s b (b + 1) (_type s));
              Some {| _begin := _begin s; _end := _end s; _type := _type s; _at_return_type := true |}
            else None
        end
  end.

Definition new_stream (sig : list Z) (is_method : bool) : option SignatureStream :=
  let start := if is_method then 1 else 0 in
  stream_next (S (length sig)) sig {| _begin := start; _end := start; _type := T_ILLEGAL; _at_return_type := false |}.
Definition is_done (sig : list Z) (s : SignatureStream) : bool := Z.of_nat (length sig) <? _end s.
Definition stream_is_array (s : SignatureStream) : bool := bool_decide (_type s = T_ARRAY).
Definition stream_is_object (s : SignatureStream) : bool := bool_decide (_type s = T_OBJECT) || bool_decide (_type s = T_ARRAY).

(** The bytes of the symbol [as_symbol] makes. *)
Definition as_symbol (sig : list Z) (s : SignatureStream) : option (list Z) :=
  b ← byte_at sig (_begin s);
  e ← byte_at sig (_end s - 1);
  let '(b, e) := if (b =? 76) && (e =? 59) then (_begin s + 1, _end s - 1) else (_begin s, _end s) in
  Some (take (Z.to_nat (e - b)) (drop (Z.to_nat b) sig)).

(** How the stream is used: [for (SignatureStream ss(sig); !ss.is_done(); ss.next())]. *)
Fixpoint stream_rest (fuel : nat) (sig : list Z) (s : SignatureStream) : option (list SignatureStream) :=
  if is_done sig s then Some []
  else
    match fuel with
    | O => None
    | S fuel => s' ← stream_next (S (length sig)) sig s; l ← stream_rest fuel sig s'; Some (s :: l)
    end.
Definition stream_all (sig : list Z) (is_method : bool) : option (list SignatureStream) :=
  s ← new_stream sig is_method; stream_rest (S (length sig)) sig s.

(* ------------------------------------------------------------------ *)
(** ** SignatureVerifier *)

Definition invalid_name_char (c : Z) : bool := (c =? 0) || (c =? 46) || (c =? 59) || (c =? 91).

Fixpoint count_dimensions (fuel : nat) (type : list Z) (i limit : Z) : option Z :=
  if i <? limit then
    match fuel with
    | O => None
    | S fuel => c ← arr_get type i; if c =? 91 then count_dimensions fuel type (i + 1) limit else Some i
    end
  else Some i.

Fixpoint valid_class_name (fuel : nat) (type : list Z) (i limit : Z) : option Z :=
  if i <? limit then
    match fuel with
    | O => None
    | S fuel =>
        c ← arr_get type i;
        if c =? 59 then Some (i + 1) else if invalid_name_char c then Some (-1) else valid_class_name fuel type (i + 1) limit
    end
  else Some (-1).

(** [type] is what is left of the signature. *)
Definition is_valid_type (type : list Z) (limit : Z) : option Z :=
  index ← count_dimensions (Z.to_nat limit) type 0 limit;
  if limit <=? index then Some (-1)
  else
    c ← arr_get type index;
    match primitive c with
    | Some _ => Some (index + 1)
    | None =>
        if c =? 86 then Some (index + 1)
        else if c =? 76 then valid_class_name (Z.to_nat limit) type (index + 1) limit
        else Some (-1)
    end.

Definition is_valid_type_signature (sig : list Z) : option bool :=
  let len := Z.of_nat (length sig) in
  if 1 <=? len then r ← is_valid_type sig len; Some (r =? len) else Some false.

Fixpoint valid_parameters (fuel : nat) (sig : list Z) (index len : Z) : option (option Z) :=
  if index <? len then
    c ← arr_get sig index;
    if c =? 41 then Some (Some index)
    else
      match fuel with
      | O => None
      | S fuel =>
          res ← is_valid_type (drop (Z.to_nat index) sig) (len - index);
          if res =? -1 then Some None else valid_parameters fuel sig (index + res) len
      end
  else Some (Some index).

Definition is_valid_method_signature (sig : list Z) : option bool :=
  let len := Z.of_nat (length sig) in
  if negb (1 <? len) then Some false
  else
    c ← arr_get sig 0;
    if negb (c =? 40) then Some false
    else
      r ← valid_parameters (length sig) sig 1 len;
      match r with
      | None => Some false
      | Some index =>
          if index <? len then
            c ← arr_get sig index;
            if c =? 41 then
              res ← is_valid_type (drop (Z.to_nat (index + 1)) sig) (len - (index + 1)); Some (res =? len - (index + 1))
            else Some false
          else Some false
      end.

(** [signature[0]] is read before the length is looked at; the bytes of a symbol of length 0 are not a zero byte here, so that
    read is left out. *)
Definition is_valid_signature (sig : list Z) : option bool :=
  if Z.of_nat (length sig) <? 1 then Some false
  else
    c ← arr_get sig 0;
    if c =? 0 then Some false
    else if c =? 40 then is_valid_method_signature sig else is_valid_type_signature sig.
