(* ===== verification/SignatureSpec.v ===== *)
(** * SignatureSpec: the signatures that are accepted, and what is read from them

    The grammar of signatures as a data type, and: the parser of class files accepts exactly its words, with the number of
    argument slots; everything that reads an accepted signature without bounds stays in it and finds the same types;
    and a fingerprint stands for the types it was made from. *)

From S2P Require Import Prelude GlobalDefs UTF8 FormatCheck Signature.

(* ------------------------------------------------------------------ *)
(** ** The grammar *)

Inductive Prim := PByte | PChar | PDouble | PFloat | PInt | PLong | PShort | PBoolean.
Inductive JType :=
  | JPrim (p : Prim)
  | JClass (name : list Z)
  | JArray (elem : JType).

Definition prim_char (p : Prim) : Z :=
  match p with
  | PByte => 66 | PChar => 67 | PDouble => 68 | PFloat => 70 | PInt => 73 | PLong => 74 | PShort => 83 | PBoolean => 90
  end.
Definition prim_type (p : Prim) : BasicType :=
  match p with
  | PByte => T_BYTE | PChar => T_CHAR | PDouble => T_DOUBLE | PFloat => T_FLOAT | PInt => T_INT | PLong => T_LONG
  | PShort => T_SHORT | PBoolean => T_BOOLEAN
  end.

Fixpoint descr (t : JType) : list Z :=
  match t with
  | JPrim p => [prim_char p]
  | JClass name => 76 :: name ++ [59]
  | JArray t => 91 :: descr t
  end.
Definition descrs (ts : list JType) : list Z := ts ≫= descr.
Definition return_descr (ret : option JType) : list Z := from_option descr [86] ret.
Definition method_descr (ts : list JType) (ret : option JType) : list Z := 40 :: descrs ts ++ 41 :: return_descr ret.

(** Class names hold no semicolon, and of arrays the dimensions are bounded. *)
Fixpoint dimensions (t : JType) : Z := match t with JArray t => dimensions t + 1 | _ => 0 end.
Fixpoint names_ok (ok : Z -> Prop) (t : JType) : Prop :=
  match t with JPrim _ => True | JClass name => Forall ok name | JArray t => names_ok ok t end.
Definition no_semicolon (c : Z) : Prop := c <> 59.
Definition no_dot (c : Z) : Prop := c <> 59 /\ c <> 46.
Definition legal_type (t : JType) : Prop := names_ok no_dot t /\ dimensions t <= 255.

Definition basic (t : JType) : BasicType :=
  match t with JPrim p => prim_type p | JClass _ => T_OBJECT | JArray _ => T_ARRAY end.
Definition return_basic (ret : option JType) : BasicType := from_option basic T_VOID ret.
Definition slots (t : JType) : Z := type2size (basic t).
Definition all_slots (ts : list JType) : Z := foldr (fun t n => slots t + n) 0 ts.

(** The length of a list as an offset. *)
Definition len (l : list Z) : Z := Z.of_nat (length l).
Lemma len_app l l' : len (l ++ l') = len l + len l'.
Proof. unfold len. rewrite length_app. lia. Qed.
Lemma len_cons c l : len (c :: l) = 1 + len l.
Proof. unfold len. cbn [length]. lia. Qed.
Lemma len_nonneg l : 0 <= len l.
Proof. unfold len. lia. Qed.

Lemma arr_at l c r : arr_get (l ++ c :: r) (len l) = Some c.
Proof. unfold arr_get, len. rewrite (proj2 (Z.leb_le _ _)) by lia. rewrite Nat2Z.id, lookup_app_r, Nat.sub_diag by lia. done. Qed.
Lemma arr_at' l c r i : i = len l -> arr_get (l ++ c :: r) i = Some c.
Proof. intros ->. apply arr_at. Qed.

Lemma app_cons_assoc (l : list Z) c r : l ++ c :: r = (l ++ [c]) ++ r.
Proof. by rewrite <- (assoc_L (++)). Qed.
Lemma len_snoc l c : len (l ++ [c]) = len l + 1.
Proof. rewrite len_app. unfold len. cbn. lia. Qed.

Lemma primitive_char p : primitive (prim_char p) = Some (prim_type p).
Proof. by destruct p. Qed.
Lemma primitive_inv c t : primitive c = Some t -> exists p, c = prim_char p /\ t = prim_type p.
Proof.
  unfold primitive. intros H. repeat match type of H with (if ?a =? ?b then _ else _) = _ => destruct (Z.eqb_spec a b) as [->|_] end;
  try done; injection H as <-; [exists PByte|exists PChar|exists PDouble|exists PFloat|exists PInt|exists PLong|exists PShort|exists PBoolean]; done.
Qed.

(** An array type is its dimensions and the type of its elements. *)
Lemma descr_array t : exists k base, descr (JArray t) = replicate (S k) 91 ++ descr base /\
  (forall ok, names_ok ok t -> names_ok ok base) /\ (forall e, base <> JArray e).
Proof.
  induction t as [p|name|t IH].
  - exists 0%nat, (JPrim p). done.
  - exists 0%nat, (JClass name). done.
  - destruct IH as (k & base & Hd & Hn & Hb). exists (S k), base. split_and!; [|done|done].
    change (descr (JArray (JArray t))) with (91 :: descr (JArray t)). by rewrite Hd.
Qed.

(** The first character of a type is none of those that end or size something. *)
Definition first_char (c : Z) : Prop := c <> 41 /\ c <> 59 /\ ~ (48 <= c <= 57) /\ c <> 0.
Lemma descr_head t : exists c l, descr t = c :: l /\ first_char c.
Proof.
  destruct t as [p|name|t]; cbn [descr].
  - eexists _, _. split; [done|]. unfold first_char. destruct p; cbn; lia.
  - eexists _, _. split; [done|]. unfold first_char. lia.
  - eexists _, _. split; [done|]. unfold first_char. lia.
Qed.

(* ------------------------------------------------------------------ *)
(** ** The iterator *)

Lemma digits_stop l c r : first_char c -> skip_optional_size (l ++ c :: r) (len l) = Some (len l).
Proof.
  intros (_ & _ & Hd & _). unfold skip_optional_size. cbn [skip_digits]. unfold byte_at. rewrite arr_at. cbn [mbind option_bind].
  destruct ((48 <=? c) && (c <=? 57)) eqn:E; [lia|done].
Qed.

Lemma semicolon_ok fuel : forall l name r, Forall no_semicolon name -> (length name < fuel)%nat ->
  skip_to_semicolon fuel (l ++ name ++ 59 :: r) (len l) = Some (len l + len name + 1).
Proof.
  induction fuel as [|fuel IH]; intros l name r Hn Hl; [lia|]. cbn [skip_to_semicolon]. unfold byte_at.
  destruct Hn as [|c name Hc Hn]; cbn [app].
  - rewrite arr_at. cbn [mbind option_bind]. cbn. f_equal. unfold len. cbn. lia.
  - rewrite arr_at. cbn [mbind option_bind]. rewrite (proj2 (Z.eqb_neq c 59) Hc).
    rewrite app_cons_assoc, <- (len_snoc l c), IH; [|done|cbn in Hl; lia]. f_equal. rewrite len_snoc, len_cons. lia.
Qed.

Lemma dimensions_ok fuel : forall l k c r, first_char c -> c <> 91 -> (k < fuel)%nat ->
  skip_dimensions fuel (l ++ replicate k 91 ++ c :: r) (len l) = Some (len l + Z.of_nat k).
Proof.
  induction fuel as [|fuel IH]; intros l k c r Hf Hc Hk; [lia|]. cbn [skip_dimensions]. unfold byte_at. destruct k as [|k]; cbn [replicate app].
  - rewrite arr_at. cbn [mbind option_bind]. rewrite (proj2 (Z.eqb_neq c 91) Hc). f_equal. lia.
  - rewrite arr_at. cbn [mbind option_bind Z.eqb]. change (91 =? 91) with true. cbn iota.
    rewrite app_cons_assoc, <- (len_snoc l 91).
    assert (Hs : exists c' r', replicate k 91 ++ c :: r = c' :: r' /\ first_char c').
    { destruct k; cbn; eexists _, _; split; try done. unfold first_char. lia. }
    destruct Hs as (c' & r' & Hs & Hf'). rewrite Hs, digits_stop, <- Hs by done. cbn [mbind option_bind].
    rewrite IH by (done || lia). f_equal. rewrite len_snoc. lia.
Qed.

(** The call for a type whose characters start at [b]. *)
Definition call_for (t : JType) (b : Z) : Call :=
  match t with
  | JPrim p => do_prim (prim_type p)
  | JClass _ => do_object (b + 1) (b + len (descr t))
  | JArray _ => do_array (b + 1) (b + len (descr t))
  end.

Lemma len_descr_class name : len (descr (JClass name)) = len name + 2.
Proof. cbn [descr]. rewrite len_cons, len_app. unfold len. cbn. lia. Qed.

(** The characters of the elements of an array. *)
Lemma element_end l t r sig : (forall e, t <> JArray e) -> names_ok no_semicolon t -> sig = l ++ descr t ++ r ->
  (c ← byte_at sig (len l); if c =? 76 then skip_to_semicolon (S (length sig)) sig (len l) else Some (len l + 1)) =
  Some (len l + len (descr t)).
Proof.
  intros Hb Hn ->. unfold byte_at. destruct t as [p|name|t]; [| |by destruct (Hb t)].
  - cbn [descr app]. rewrite arr_at. cbn [mbind option_bind]. by destruct p.
  - rewrite len_descr_class. cbn [descr app]. rewrite arr_at. cbn [mbind option_bind]. change (76 =? 76) with true. cbn iota.
    rewrite <- (assoc_L (++)). cbn [app]. change (76 :: name ++ 59 :: r) with ((76 :: name) ++ 59 :: r).
    rewrite semicolon_ok; [f_equal; rewrite len_cons; lia| |].
    + constructor; [unfold no_semicolon; lia|done].
    + rewrite !length_app. cbn. lia.
Qed.

Lemma parse_type_ok sig it l t r : sig = l ++ descr t ++ r -> names_ok no_semicolon t -> _index it = len l ->
  parse_type sig it = Some
    ({| _index := len l + len (descr t); _parameter_index := _parameter_index it;
        _return_type := if _parameter_index it <? 0 then basic t else _return_type it |}, slots t, call_for t (len l)).
Proof.
  intros Hsig Hn Hi. unfold parse_type. rewrite Hi. destruct t as [p|name|t].
  - rewrite Hsig. cbn [descr app]. unfold byte_at. rewrite arr_at. cbn [mbind option_bind]. rewrite primitive_char. done.
  - rewrite len_descr_class. rewrite Hsig. cbn [descr app]. unfold byte_at. rewrite arr_at. cbn [mbind option_bind].
    change (primitive 76) with (@None BasicType). cbn iota. change (76 =? 86) with false. change (76 =? 76) with true. cbn iota.
    rewrite <- (assoc_L (++)). cbn [app]. rewrite app_cons_assoc, <- (len_snoc l 76), semicolon_ok; [|done|rewrite !length_app; cbn; lia].
    cbn [mbind option_bind call_for]. rewrite len_snoc, len_descr_class. replace (len l + 1 + len name + 1) with (len l + (len name + 2)) by lia. done.
  - destruct (descr_array t) as (k & base & Hd & Hnb & Hb). cbn [names_ok] in Hn. specialize (Hnb _ Hn).
    destruct (descr_head base) as (c & d & Hdb & Hfc).
    assert (Hc91 : c <> 91) by (destruct base as [p|?|e]; [destruct p| |by destruct (Hb e)]; cbn in Hdb; injection Hdb as <- _; lia).
    assert (Hbyte : byte_at sig (len l) = Some 91) by (rewrite Hsig; apply arr_at).
    rewrite Hbyte. cbn [mbind option_bind]. change (primitive 91) with (@None BasicType). cbn iota. change (91 =? 86) with false.
    change (91 =? 76) with false. change (91 =? 91) with true. cbn iota.
    assert (Hsplit : sig = (l ++ [91]) ++ replicate k 91 ++ c :: d ++ r).
    { rewrite Hsig, Hd, Hdb. cbn [replicate app]. rewrite <- !(assoc_L (++)). done. }
    assert (Hs : exists c' r', replicate k 91 ++ c :: d ++ r = c' :: r' /\ first_char c').
    { destruct k; cbn; eexists _, _; split; try done. unfold first_char. lia. }
    destruct Hs as (c' & r' & Hs & Hf'). rewrite <- (len_snoc l 91). rewrite Hsplit at 1. rewrite Hs, digits_stop by done. cbn [mbind option_bind].
    rewrite Hsplit at 2. rewrite dimensions_ok; [|done|done|rewrite Hsplit, !length_app, length_replicate; cbn; lia]. cbn [mbind option_bind].
    assert (Hsplit2 : sig = ((l ++ [91]) ++ replicate k 91) ++ descr base ++ r).
    { rewrite Hsplit, Hdb, <- !(assoc_L (++)). done. }
    assert (Hpos : len (l ++ [91]) + Z.of_nat k = len ((l ++ [91]) ++ replicate k 91)).
    { rewrite (len_app (l ++ [91])). f_equal. unfold len. by rewrite length_replicate. }
    rewrite Hpos. pose proof (element_end _ base r sig Hb Hnb Hsplit2) as He.
    revert He. generalize (byte_at sig (len ((l ++ [91]) ++ replicate k 91))). intros [c0|] He; [|done]. cbn [mbind option_bind] in He |- *. rewrite He. cbn [mbind option_bind call_for].
    assert (Hend : len ((l ++ [91]) ++ replicate k 91) + len (descr base) = len l + len (descr (JArray t))).
    { rewrite Hd, !len_app. unfold len. rewrite !length_replicate. cbn. lia. }
    rewrite Hend, len_snoc. done.
Qed.

(** The calls for a list of types whose characters start at [b]. *)
Fixpoint calls_for (ts : list JType) (b : Z) : list Call :=
  match ts with
  | [] => []
  | t :: ts => call_for t b :: calls_for ts (b + len (descr t))
  end.
Definition call_return (ret : option JType) (b : Z) : Call := from_option (fun t => call_for t b) do_void ret.

Lemma descrs_cons t ts : descrs (t :: ts) = descr t ++ descrs ts.
Proof. done. Qed.

Lemma parse_type_return sig it l ret : sig = l ++ return_descr ret -> from_option (names_ok no_semicolon) True ret -> _index it = len l ->
  parse_type sig it = Some
    ({| _index := len sig; _parameter_index := _parameter_index it;
        _return_type := if _parameter_index it <? 0 then return_basic ret else _return_type it |},
     type2size (return_basic ret), call_return ret (len l)).
Proof.
  intros Hsig Hn Hi. destruct ret as [t|]; cbn [from_option return_descr call_return return_basic] in *.
  - assert (Hl : len sig = len l + len (descr t)) by (rewrite Hsig; apply len_app). rewrite Hl. apply (parse_type_ok sig it l t []); [|done|done].
    by rewrite app_nil_r.
  - unfold parse_type. rewrite Hi, Hsig. unfold byte_at. rewrite arr_at. cbn. by rewrite len_snoc.
Qed.

Lemma slots_nonneg t : 0 <= slots t.
Proof. unfold slots, type2size. destruct (basic t); lia. Qed.
Lemma all_slots_nonneg ts : 0 <= all_slots ts.
Proof. induction ts as [|t ts IH]; [done|]. change (all_slots (t :: ts)) with (slots t + all_slots ts). pose proof (slots_nonneg t). lia. Qed.

Lemma parameters_ok ts : forall sig it l r fuel, sig = l ++ descrs ts ++ 41 :: r -> Forall (names_ok no_semicolon) ts ->
  _index it = len l -> 0 <= _parameter_index it -> _parameter_index it + all_slots ts < 2 ^ 31 -> (length ts < fuel)%nat ->
  parse_parameters fuel sig it = Some
    ({| _index := len l + len (descrs ts); _parameter_index := _parameter_index it + all_slots ts; _return_type := _return_type it |},
     calls_for ts (len l)).
Proof.
  induction ts as [|t ts IH]; intros sig it l r fuel Hsig Hn Hi Hp Hmax Hf; (destruct fuel as [|fuel]; [cbn in Hf; lia|]); cbn [parse_parameters].
  - rewrite Hi, Hsig. cbn [descrs mbind list_bind app]. unfold byte_at. rewrite arr_at. cbn. rewrite !Z.add_0_r. destruct it. cbn in *. by subst.
  - rewrite descrs_cons, <- (assoc_L (++)) in Hsig. destruct (descr_head t) as (c & d & Hd & Hc). apply list.Forall_cons in Hn as [Hnt Hn].
    assert (Hbyte : byte_at sig (_index it) = Some c) by (rewrite Hi, Hsig, Hd; cbn [app]; apply arr_at).
    rewrite Hbyte. cbn [mbind option_bind]. destruct Hc as [Hc _]. rewrite (proj2 (Z.eqb_neq c 41) Hc).
    rewrite (parse_type_ok sig it l t _ Hsig Hnt Hi). cbn [mbind option_bind _parameter_index set_parameter_index _index _return_type].
    assert (Hs : 0 <= slots t /\ 0 <= all_slots ts).
    { split; [apply slots_nonneg|apply all_slots_nonneg]. }
    change (all_slots (t :: ts)) with (slots t + all_slots ts) in *.
    rewrite (swrap_small 32) by (unfold in_s; lia). rewrite (proj2 (Z.ltb_ge _ 0) Hp).
    rewrite (IH sig _ (l ++ descr t) r fuel); cbn [_index _parameter_index _return_type set_parameter_index]; try done; try lia.
    + cbn [mbind option_bind calls_for]. rewrite descrs_cons, !len_app, Z.add_assoc. do 3 f_equal. cbn. lia.
    + rewrite Hsig, <- (assoc_L (++)). done.
    + by rewrite len_app.
    + cbn in Hf. lia.
Qed.

(** A method signature cut at its parts. *)
Lemma method_split ts ret : method_descr ts ret = [40] ++ descrs ts ++ 41 :: return_descr ret /\
  method_descr ts ret = (([40] ++ descrs ts) ++ [41]) ++ return_descr ret /\
  len (([40] ++ descrs ts) ++ [41]) = len (descrs ts) + 2.
Proof.
  unfold method_descr. split_and!; [done|by rewrite <- !(assoc_L (++))|]. rewrite !len_app. unfold len. cbn. lia.
Qed.

Lemma descrs_length ts : (length ts <= length (descrs ts))%nat.
Proof.
  induction ts as [|t ts IH]; [done|]. rewrite descrs_cons, length_app. destruct (descr_head t) as (c & d & -> & _). cbn. lia.
Qed.

Lemma fuel_types ts ret : (length ts < S (length (method_descr ts ret)))%nat.
Proof. pose proof (descrs_length ts). unfold method_descr. cbn [length]. rewrite length_app. lia. Qed.

Section Method.
Context (ts : list JType) (ret : option JType).
Context (Hts : Forall (names_ok no_semicolon) ts) (Hret : from_option (names_ok no_semicolon) True ret) (Hmax : all_slots ts < 2 ^ 31).
Abbreviation sig := (method_descr ts ret).

Lemma expect_ok sig0 l c r : sig0 = l ++ c :: r -> expect sig0 c (len l) = Some (len l + 1).
Proof. intros ->. unfold expect, byte_at. rewrite arr_at. cbn [mbind option_bind]. by rewrite Z.eqb_refl. Qed.

Lemma parameters_of it :
  (i ← expect sig 40 0; '(it, calls) ← parse_parameters (S (length sig)) sig (set_parameter_index (set_index it i) 0);
   i ← expect sig 41 (_index it); Some (it, calls, i)) =
  Some ({| _index := 1 + len (descrs ts); _parameter_index := all_slots ts; _return_type := _return_type it |},
        calls_for ts 1, len (descrs ts) + 2).
Proof.
  destruct (method_split ts ret) as (H1 & H2 & H3).
  assert (He : expect sig 40 0 = Some 1) by (by apply (expect_ok sig [] 40 (descrs ts ++ 41 :: return_descr ret))).
  rewrite He. cbn [mbind option_bind].
  rewrite (parameters_ok ts sig _ [40] (return_descr ret)); [|done|done|done|done|cbn [_parameter_index set_parameter_index set_index]; lia|apply fuel_types].
  cbn [mbind option_bind _index]. change (len [40]) with 1. replace (1 + len (descrs ts)) with (len ([40] ++ descrs ts)) by (rewrite len_app; done).
  rewrite (expect_ok sig ([40] ++ descrs ts) 41 (return_descr ret)) by (by rewrite <- (assoc_L (++))).
  cbn [mbind option_bind _parameter_index set_parameter_index _return_type set_index]. do 2 f_equal. rewrite len_app. unfold len. cbn. lia.
Qed.

Lemma iterate_parameters_ok it : iterate_parameters sig it =
  Some ({| _index := len (descrs ts) + 2; _parameter_index := 0; _return_type := _return_type it |}, calls_for ts 1).
Proof.
  unfold iterate_parameters. pose proof (parameters_of it) as H.
  destruct (expect sig 40 0) as [i|]; [|done]. cbn [mbind option_bind] in *. destruct (parse_parameters _ _ _) as [[it' calls]|]; [|done].
  cbn [mbind option_bind] in *. destruct (expect sig 41 _) as [i'|]; [|done]. cbn [mbind option_bind] in *. injection H as -> -> ->. done.
Qed.

Lemma iterate_signature_ok it : iterate sig it =
  Some ({| _index := len sig; _parameter_index := 0; _return_type := return_basic ret |},
        calls_for ts 1 ++ [call_return ret (len (descrs ts) + 2)]).
Proof.
  unfold iterate. pose proof (parameters_of it) as H. destruct (method_split ts ret) as (_ & H2 & H3).
  destruct (expect sig 40 0) as [i|]; [|done]. cbn [mbind option_bind] in *. destruct (parse_parameters _ _ _) as [[it' calls]|]; [|done].
  cbn [mbind option_bind] in *. destruct (expect sig 41 _) as [i'|]; [|done]. cbn [mbind option_bind] in *. injection H as -> -> ->.
  rewrite (parse_type_return sig _ _ ret H2 Hret) by (by rewrite H3). cbn [mbind option_bind]. by rewrite H3.
Qed.

(** The end of the parameters found without parsing them: no type has a parenthesis in it, unless a class name does. *)
Lemma end_ok fuel : forall l s r, Forall (fun c => c <> 41) s -> (length s < fuel)%nat ->
  skip_to_end fuel (l ++ s ++ 41 :: r) (len l) = Some (len l + len s).
Proof.
  induction fuel as [|fuel IH]; intros l s r Hs Hl; [lia|]. cbn [skip_to_end]. unfold byte_at. destruct Hs as [|c s Hc Hs]; cbn [app].
  - rewrite arr_at. cbn. f_equal. unfold len. cbn. lia.
  - rewrite arr_at. cbn [mbind option_bind]. rewrite (proj2 (Z.eqb_neq c 41) Hc).
    rewrite app_cons_assoc, <- (len_snoc l c), IH; [|done|cbn in Hl; lia]. f_equal. rewrite len_snoc, len_cons. lia.
Qed.

Lemma no_parenthesis t : names_ok (fun c => c <> 41) t -> Forall (fun c => c <> 41) (descr t).
Proof.
  induction t as [p|name|t IH]; intros Hn; cbn [descr].
  - constructor; [by destruct p|done].
  - constructor; [lia|]. apply list.Forall_app. split; [done|]. constructor; [lia|done].
  - constructor; [lia|]. by apply IH.
Qed.

Lemma iterate_returntype_ok it : Forall (names_ok (fun c => c <> 41)) ts -> iterate_returntype sig it =
  Some ({| _index := len sig; _parameter_index := 0; _return_type := return_basic ret |}, [call_return ret (len (descrs ts) + 2)]).
Proof.
  intros Hno. unfold iterate_returntype. destruct (method_split ts ret) as (H1 & H2 & H3).
  assert (He : expect sig 40 0 = Some 1) by (by apply (expect_ok sig [] 40 (descrs ts ++ 41 :: return_descr ret))).
  rewrite He. cbn [mbind option_bind].
  assert (Hd : Forall (fun c => c <> 41) (descrs ts)).
  { clear -Hno. induction Hno as [|t ts Ht Hts IH]; [constructor|]. rewrite descrs_cons. apply list.Forall_app. split; [by apply no_parenthesis|done]. }
  change 1 with (len [40]). rewrite H1 at 2. rewrite end_ok; [|done|rewrite H1, !length_app; cbn; lia]. cbn [mbind option_bind].
  rewrite <- (len_app [40]). rewrite (expect_ok sig ([40] ++ descrs ts) 41 (return_descr ret)) by (by rewrite <- (assoc_L (++))).
  cbn [mbind option_bind]. rewrite (parse_type_return sig _ _ ret H2 Hret).
  - cbn [mbind option_bind]. by rewrite H3.
  - cbn [set_parameter_index set_index _index]. rewrite H3, len_app. unfold len. cbn. lia.
Qed.
End Method.

(* ------------------------------------------------------------------ *)
(** ** The stream *)

Lemma stream_dimensions_ok fuel : forall l k c r sig, sig = l ++ replicate k 91 ++ c :: r -> first_char c -> c <> 91 -> (k < fuel)%nat ->
  stream_dimensions fuel sig (len l) = Some (len l + Z.of_nat k).
Proof.
  induction fuel as [|fuel IH]; intros l k c r sig Hsig Hf Hc Hk; [lia|]. cbn [stream_dimensions]. unfold byte_at.
  destruct k as [|k]; cbn [replicate app] in Hsig; rewrite Hsig.
  - rewrite arr_at. cbn [mbind option_bind]. rewrite (proj2 (Z.eqb_neq c 91) Hc). f_equal. lia.
  - rewrite arr_at. cbn [mbind option_bind]. change (91 =? 91) with true. cbn iota. rewrite <- Hsig.
    assert (Hs : exists c' r', replicate k 91 ++ c :: r = c' :: r' /\ first_char c').
    { destruct k; cbn; eexists _, _; split; try done. unfold first_char. lia. }
    destruct Hs as (c' & r' & Hs & _ & _ & Hf' & _). rewrite app_cons_assoc in Hsig.
    assert (Hnext : arr_get sig (len l + 1) = Some c').
    { rewrite Hsig, Hs. apply arr_at'. by rewrite len_snoc. }
    rewrite Hnext. cbn [mbind option_bind stream_digits]. destruct ((48 <=? c') && (c' <=? 57)) eqn:E; [lia|]. cbn [mbind option_bind].
    rewrite <- (len_snoc l 91). rewrite (IH _ k c r sig) by (done || lia). f_equal. rewrite len_snoc. lia.
Qed.

Lemma stream_next_ok fuel sig s l t r : sig = l ++ descr t ++ r -> names_ok no_semicolon t -> _end s = len l ->
  stream_next (S fuel) sig s = Some (stream_at s (len l) (len l + len (descr t)) (basic t)).
Proof.
  intros Hsig Hn Hi. cbn [stream_next]. rewrite Hi. destruct (descr_head t) as (c & d & Hd & Hfc).
  assert (Hlen : len l < Z.of_nat (length sig)) by (rewrite Hsig, Hd, !length_app; unfold len; cbn; lia).
  rewrite (proj2 (Z.leb_gt _ _) Hlen). assert (Hb : byte_at sig (len l) = Some c) by (rewrite Hsig, Hd; apply arr_at).
  rewrite Hb. cbn [mbind option_bind]. destruct t as [p|name|t]; cbn [descr] in Hd; injection Hd as <- Hd.
  - rewrite primitive_char. done.
  - change (primitive 76) with (@None BasicType). cbn iota. change (76 =? 86) with false. change (76 =? 76) with true. cbn iota.
    rewrite len_descr_class. rewrite Hsig. cbn [descr app]. rewrite <- (assoc_L (++)). cbn [app].
    change (76 :: name ++ 59 :: r) with ((76 :: name) ++ 59 :: r).
    rewrite semicolon_ok; [|constructor; [unfold no_semicolon; lia|done]|rewrite !length_app; cbn; lia].
    cbn [mbind option_bind basic]. do 2 f_equal. rewrite len_cons. lia.
  - change (primitive 91) with (@None BasicType). cbn iota. change (91 =? 86) with false. change (91 =? 76) with false.
    change (91 =? 91) with true. cbn iota. cbn [stream_digits]. change ((48 <=? 91) && (91 <=? 57)) with false. cbn iota. cbn [mbind option_bind].
    destruct (descr_array t) as (k & base & Hdk & Hnb & Hbase). cbn [names_ok] in Hn. specialize (Hnb _ Hn).
    destruct (descr_head base) as (c0 & d0 & Hdb & Hfc0).
    assert (Hc91 : c0 <> 91) by (destruct base as [p|?|e]; [destruct p| |by destruct (Hbase e)]; cbn in Hdb; injection Hdb as <- _; lia).
    assert (Hsplit : sig = l ++ replicate (S k) 91 ++ c0 :: d0 ++ r) by (rewrite Hsig, Hdk, Hdb, <- !(assoc_L (++)); done).
    rewrite (stream_dimensions_ok _ l (S k) c0 (d0 ++ r) sig); [|done|done|done|rewrite Hsplit, !length_app, length_replicate; cbn; lia].
    cbn [mbind option_bind].
    assert (Hpos : len l + Z.of_nat (S k) = len (l ++ replicate (S k) 91)) by (rewrite len_app; unfold len; rewrite length_replicate; done).
    rewrite Hpos. assert (Hsplit2 : sig = (l ++ replicate (S k) 91) ++ descr base ++ r) by (rewrite Hsplit, Hdb, <- !(assoc_L (++)); done).
    assert (Hb0 : byte_at sig (len (l ++ replicate (S k) 91)) = Some c0) by (rewrite Hsplit2, Hdb; apply arr_at).
    rewrite Hb0. cbn [mbind option_bind].
    assert (Hend : len (l ++ replicate (S k) 91) + len (descr base) = len l + len (descr (JArray t))) by (rewrite Hdk, !len_app; lia).
    cbn [basic]. rewrite <- Hend. pose proof (element_end _ base r sig Hbase Hnb Hsplit2) as He. rewrite Hb0 in He. cbn [mbind option_bind] in He.
    destruct base as [p|name|e]; [| |by destruct (Hbase e)]; cbn [descr] in Hdb; injection Hdb as <- Hdb.
    + rewrite primitive_char. done.
    + change (primitive 76) with (@None BasicType). cbn iota. change (76 =? 76) with true in He. cbn iota in He. by rewrite He.
Qed.

(** What the stream shows of a method signature: each parameter type, then the return type. *)
Fixpoint streams_for (ts : list JType) (b : Z) : list SignatureStream :=
  match ts with
  | [] => []
  | t :: ts => {| _begin := b; _end := b + len (descr t); _type := basic t; _at_return_type := false |} :: streams_for ts (b + len (descr t))
  end.
Definition stream_return (ts : list JType) (ret : option JType) : SignatureStream :=
  {| _begin := len (descrs ts) + 2; _end := len (method_descr ts ret); _type := return_basic ret; _at_return_type := true |}.

Section Stream.
Context (all : list JType) (ret : option JType) (Hret : from_option (names_ok no_semicolon) True ret).
Abbreviation sig := (method_descr all ret).

Lemma sig_end : Z.of_nat (length sig) = len (descrs all) + 2 + len (return_descr ret).
Proof. destruct (method_split all ret) as (_ & -> & H). change (Z.of_nat (length ?x)) with (len x). rewrite len_app, H. done. Qed.

Lemma return_char : exists c d, return_descr ret = c :: d.
Proof. destruct ret as [t|]; cbn; [|by eexists _, _]. destruct (descr_head t) as (c & d & -> & _). by eexists _, _. Qed.

(** Behind the parameters the stream goes to the return type. *)
Lemma stream_to_return fuel s : _end s = 1 + len (descrs all) ->
  stream_next (S (S fuel)) sig s = Some (stream_return all ret).
Proof using Hret.
  intros Hi. destruct (method_split all ret) as (H1 & H2 & H3). destruct return_char as (c & d & Hc).
  pose proof sig_end as Hend. assert (Hlc : 1 <= len (return_descr ret)) by (rewrite Hc, len_cons; pose proof (len_nonneg d); lia).
  remember (S fuel) as f eqn:Hf. cbn [stream_next]. subst f.
  assert (Hlt : _end s < Z.of_nat (length sig)) by lia. rewrite (proj2 (Z.leb_gt _ _) Hlt).
  assert (Hb : byte_at sig (_end s) = Some 41).
  { rewrite H1, Hi. change ([40] ++ ?x ++ 41 :: ?r) with ((40 :: x) ++ 41 :: r). apply arr_at'. by rewrite len_cons. }
  rewrite Hb. cbn [mbind option_bind]. change (primitive 41) with (@None BasicType). change (41 =? 86) with false.
  change (41 =? 76) with false. change (41 =? 91) with false. change (41 =? 41) with true. cbn iota.
  unfold stream_return. destruct ret as [t|] eqn:Hr.
  - cbn [return_descr from_option] in *. rewrite (stream_next_ok fuel _ _ _ t [] (eq_trans H2 (eq_sym (f_equal _ (app_nil_r _)))) Hret).
    + cbn [mbind option_bind stream_at _begin _end _type return_basic from_option]. rewrite H3, <- Hend. done.
    + cbn [stream_at _end]. lia.
  - cbn [stream_next stream_at _end]. cbn [return_descr from_option] in *. change (len [86]) with 1 in *.
    rewrite (proj2 (Z.leb_gt _ _)) by lia.
    assert (Hb2 : byte_at (method_descr all None) (_end s + 1) = Some 86) by (rewrite H2, Hi; apply arr_at'; lia).
    rewrite Hb2. cbn [mbind option_bind]. change (primitive 86) with (@None BasicType). change (86 =? 86) with true. cbn iota.
    cbn [mbind option_bind stream_at _begin _end _type return_basic from_option].
    change (len (method_descr all None)) with (Z.of_nat (length (method_descr all None))). rewrite Hend, Hi. do 2 f_equal; lia.
Qed.

Lemma stream_rest_ok ts : forall l s fuel, sig = l ++ descrs ts ++ 41 :: return_descr ret -> Forall (names_ok no_semicolon) ts ->
  _end s = len l -> _at_return_type s = false -> (length ts + 2 <= fuel)%nat ->
  (s1 ← stream_next (S (length sig)) sig s; stream_rest fuel sig s1) = Some (streams_for ts (len l) ++ [stream_return all ret]).
Proof using Hret.
  pose proof sig_end as Hend. assert (Hlc : 1 <= len (return_descr ret)).
  { destruct return_char as (c & d & ->). rewrite len_cons. pose proof (len_nonneg d). lia. }
  pose proof (len_nonneg (descrs all)) as H0. destruct (length sig) as [|n] eqn:Hn; [cbn in Hend; lia|].
  induction ts as [|t ts IH]; intros l s fuel Hsig Hts Hi Hr Hf.
  - assert (Hl : len l = 1 + len (descrs all)).
    { apply (f_equal len) in Hsig. change (descrs [] ++ ?x) with x in Hsig. rewrite len_app, len_cons in Hsig. unfold len in Hsig at 1. rewrite Hn, Hend in Hsig. lia. }
    rewrite stream_to_return by lia. cbn [mbind option_bind streams_for app]. destruct fuel as [|[|fuel]]; [cbn in Hf; lia..|].
    cbn [stream_rest]. unfold is_done at 1. cbn [stream_return _end].
    change (len sig) with (Z.of_nat (length sig)). rewrite Z.ltb_irrefl. cbn [stream_next stream_return _end].
    change (len sig) with (Z.of_nat (length sig)). rewrite Z.leb_refl. cbn [mbind option_bind]. unfold is_done. cbn [stream_at _end].
    by rewrite (proj2 (Z.ltb_lt _ _)) by lia.
  - rewrite descrs_cons, <- (assoc_L (++)) in Hsig. apply list.Forall_cons in Hts as [Ht Hts].
    rewrite (stream_next_ok _ sig s l t _ Hsig Ht Hi). cbn [mbind option_bind]. destruct fuel as [|fuel]; [cbn in Hf; lia|].
    cbn [stream_rest]. unfold is_done at 1. cbn [stream_at _end].
    assert (Hlt : len l + len (descr t) < Z.of_nat (length sig)).
    { rewrite Hsig, !length_app. unfold len. cbn. lia. }
    rewrite (proj2 (Z.ltb_ge _ _)) by lia. rewrite Hn.
    pose proof (IH (l ++ descr t) (stream_at s (len l) (len l + len (descr t)) (basic t)) fuel) as IH'.
    rewrite <- (assoc_L (++)) in IH'. specialize (IH' Hsig Hts). rewrite len_app in IH'. specialize (IH' eq_refl Hr ltac:(cbn in Hf; lia)).
    destruct (stream_next (S (S n)) sig _) as [s1|]; [|done]. cbn [mbind option_bind] in IH' |- *. rewrite IH'. cbn [mbind option_bind streams_for app].
    unfold stream_at. rewrite Hr. done.
Qed.

Lemma stream_all_ok : Forall (names_ok no_semicolon) all -> stream_all sig true = Some (streams_for all 1 ++ [stream_return all ret]).
Proof using Hret.
  intros Hts. unfold stream_all, new_stream. apply (stream_rest_ok all [40]); try done.
  pose proof (descrs_length all). unfold method_descr. cbn [length]. rewrite length_app. cbn [length]. lia.
Qed.
End Stream.

(* ------------------------------------------------------------------ *)
(** ** Fingerprints *)

(** A call without the place of its characters, as the fingerprint keeps it. *)
Definition erase (c : Call) : Call :=
  match c with do_object _ _ | do_array _ _ => do_object 0 0 | _ => c end.
Definition feature_of (t : JType) : Z :=
  match t with
  | JPrim PBoolean => 1 | JPrim PByte => 2 | JPrim PChar => 3 | JPrim PShort => 4 | JPrim PInt => 5 | JPrim PLong => 6
  | JPrim PFloat => 7 | JPrim PDouble => 8 | _ => 9
  end.
Definition fields (ts : list JType) : Z := foldr (fun t n => feature_of t + 16 * n) done_parm ts.

Lemma feature_call t b : feature (call_for t b) = Some (feature_of t).
Proof. by destruct t as [[]| |]. Qed.
Lemma feature_range t : 0 < feature_of t < 10.
Proof. destruct t as [[]| |]; cbn; lia. Qed.
Lemma fields_range ts : 0 < fields ts < 11 * 16 ^ Z.of_nat (length ts).
Proof.
  induction ts as [|t ts IH]; [unfold fields, done_parm; cbn; lia|]. change (fields (t :: ts)) with (feature_of t + 16 * fields ts). pose proof (feature_range t).
  cbn [length]. rewrite Nat2Z.inj_succ, Z.pow_succ_r by lia. lia.
Qed.

Lemma slots_pos ts : Z.of_nat (length ts) <= all_slots ts.
Proof.
  induction ts as [|t ts IH]; [done|]. change (all_slots (t :: ts)) with (slots t + all_slots ts). cbn [length].
  assert (1 <= slots t) by (unfold slots, type2size; destruct t as [[]| |]; cbn; lia). lia.
Qed.

Lemma lor_field x f n : 0 <= n -> 0 <= x < 2 ^ n -> 0 <= f -> f * 2 ^ n < 2 ^ 64 ->
  Z.lor x (u64 (Z.shiftl f n)) = x + f * 2 ^ n.
Proof.
  intros Hn Hx Hf Hm. rewrite (uwrap_small 64 ltac:(lia)) by (unfold in_u; rewrite Z.shiftl_mul_pow2 by lia; nia).
  rewrite Z.shiftl_mul_pow2, Z.lor_comm, lor_shiftl_add by lia. lia.
Qed.

Lemma add_features_ok ts : forall b fp shift, 0 <= fp < 2 ^ shift -> 0 <= shift -> shift + 4 * Z.of_nat (length ts) <= 60 ->
  exists fp', add_features (calls_for ts b) fp shift = Some (fp', shift + 4 * Z.of_nat (length ts)) /\
    0 <= fp' < 2 ^ (shift + 4 * Z.of_nat (length ts)) /\
    fp' + 10 * 2 ^ (shift + 4 * Z.of_nat (length ts)) = fp + fields ts * 2 ^ shift.
Proof.
  induction ts as [|t ts IH]; intros b fp shift Hfp Hs Hmax.
  - exists fp. cbn [calls_for add_features length Z.of_nat fields foldr]. rewrite Z.mul_0_r, Z.add_0_r. unfold done_parm. by split_and!; [|lia..].
  - cbn [calls_for add_features]. rewrite feature_call. cbn [mbind option_bind]. cbn [length] in *. pose proof (feature_range t) as Hf.
    rewrite (proj2 (Z.ltb_lt _ _)) by lia. cbn [guard_b].
    assert (Hp : 2 ^ (shift + 4) = 16 * 2 ^ shift) by (rewrite Z.pow_add_r by lia; change (2 ^ 4) with 16; lia).
    assert (Hle : 2 ^ (shift + 4) <= 2 ^ 60) by (apply Z.pow_le_mono_r; lia).
    assert (Hpos : 0 < 2 ^ shift) by (apply pow2_pos; lia).
    rewrite lor_field; [|lia|lia|lia|change (2 ^ 64) with (16 * 2 ^ 60); nia].
    destruct (IH (b + len (descr t)) (fp + feature_of t * 2 ^ shift) (shift + 4)) as (fp' & Ha & Hr & He); [nia|lia|lia|].
    exists fp'. unfold parameter_feature_size. rewrite Ha. replace (shift + 4 + 4 * Z.of_nat (length ts)) with (shift + 4 * Z.of_nat (S (length ts))) in * by lia.
    split_and!; [done|lia|lia|]. rewrite He, Hp. change (fields (t :: ts)) with (feature_of t + 16 * fields ts). lia.
Qed.

Lemma field_call_of t b : field_call (feature_of t) = Some (erase (call_for t b)) /\ call_size (erase (call_for t b)) = slots t.
Proof. by destruct t as [[]| |]. Qed.

Lemma iterate_fields_ok ts : forall fuel it b, (length ts < fuel)%nat -> 0 <= _parameter_index it ->
  _parameter_index it + all_slots ts < 2 ^ 31 ->
  iterate_fields fuel (fields ts) it = Some (set_parameter_index it (_parameter_index it + all_slots ts), erase <$> calls_for ts b).
Proof.
  induction ts as [|t ts IH]; intros fuel it b Hf Hp Hmax; (destruct fuel as [|fuel]; [cbn in Hf; lia|]).
  - cbn [iterate_fields]. change (Z.land (fields []) parameter_feature_mask) with 10. change (10 =? done_parm) with true. cbn iota.
    rewrite Z.add_0_r. by destruct it.
  - cbn [iterate_fields]. change (fields (t :: ts)) with (feature_of t + 16 * fields ts). pose proof (feature_range t) as Hr.
    assert (Hland : Z.land (feature_of t + 16 * fields ts) parameter_feature_mask = feature_of t).
    { change parameter_feature_mask with (Z.ones 4). rewrite Z.land_ones by lia. change (2 ^ 4) with 16. rewrite Z.mul_comm, Z_mod_plus_full.
      apply Z.mod_small. lia. }
    assert (Hshift : Z.shiftr (feature_of t + 16 * fields ts) parameter_feature_size = fields ts).
    { unfold parameter_feature_size. rewrite Z.shiftr_div_pow2 by lia. change (2 ^ 4) with 16. rewrite Z.mul_comm, Z.div_add by lia.
      rewrite Z.div_small; lia. }
    rewrite Hland, Hshift. change (all_slots (t :: ts)) with (slots t + all_slots ts) in *. pose proof (all_slots_nonneg ts) as H0.
    pose proof (slots_nonneg t) as H1. cbn [length] in Hf.
    assert (Hrest : iterate_fields fuel (fields ts) (set_parameter_index it (s32 (_parameter_index it + slots t))) =
      Some (set_parameter_index it (_parameter_index it + (slots t + all_slots ts)), erase <$> calls_for ts (b + len (descr t)))).
    { rewrite swrap_small by (unfold in_s; lia). rewrite (IH fuel _ (b + len (descr t))); cbn [_parameter_index set_parameter_index]; try lia.
      unfold set_parameter_index. cbn. by rewrite Z.add_assoc. }
    rewrite (proj2 (Z.eqb_neq _ _)) by (unfold done_parm; lia). destruct (field_call_of t b) as [Hc Hsz]. rewrite Hc.
    cbn [mbind option_bind]. rewrite Hsz, Hrest. done.
Qed.

(** The first iteration over the signature of a method, as [Fingerprinter] and its kin make it. *)
Lemma size_fold ts : forall b s, 0 <= s -> s + all_slots ts < 2 ^ 31 ->
  foldl (fun size call => s32 (size + type2size (call_type call))) s (calls_for ts b) = s + all_slots ts.
Proof.
  induction ts as [|t ts IH]; intros b s Hs Hm; [cbn; lia|]. change (all_slots (t :: ts)) with (slots t + all_slots ts) in *.
  cbn [calls_for foldl]. assert (Hc : type2size (call_type (call_for t b)) = slots t) by (by destruct t as [[]| |]). rewrite Hc.
  pose proof (slots_nonneg t). pose proof (all_slots_nonneg ts). rewrite swrap_small by (unfold in_s; lia). rewrite IH by lia. lia.
Qed.

(** The type bits and the static bit of a fingerprint. *)
Lemma fingerprint_low ret (st : bool) :
  let t := u64 (Z.shiftl (BasicType_num (return_basic ret)) static_feature_size) in
  (if st then Z.lor t 1 else t) = BasicType_num (return_basic ret) * 2 + (if st then 1 else 0) /\
  0 <= BasicType_num (return_basic ret) < 16.
Proof. destruct ret as [[[]| |]|], st; vm_compute; split; try split; congruence. Qed.

Definition same_method (m m' : Method) : Prop :=
  signature m' = signature m /\ is_static m' = is_static m /\ size_of_parameters m' = size_of_parameters m.

Lemma fingerprint_small m ts ret : signature m = method_descr ts ret -> Forall (names_ok no_semicolon) ts ->
  from_option (names_ok no_semicolon) True ret -> Forall (names_ok (fun c => c <> 41)) ts -> stored_fingerprint m = 0 ->
  size_of_parameters m = all_slots ts + (if is_static m then 0 else 1) -> size_of_parameters m <= max_size_of_parameters ->
  let fp := BasicType_num (return_basic ret) * 2 + (if is_static m then 1 else 0) + fields ts * 2 ^ 5 in
  fingerprint m = Some (fp, set_fingerprint m fp) /\ 0 < fp < 2 ^ 62.
Proof.
  intros Hsig Hts Hret Hno Hst Hsz Hmax fp. change max_size_of_parameters with 13 in Hmax. pose proof (slots_pos ts) as Hpos.
  assert (Hslots : all_slots ts < 2 ^ 31) by (destruct (is_static m); lia).
  assert (Hn : Z.of_nat (length ts) <= 13) by (destruct (is_static m); lia).
  unfold fingerprint. rewrite Hst. change (negb (0 =? 0)) with false. cbn iota. change max_size_of_parameters with 13.
  rewrite (proj2 (Z.ltb_ge _ _) Hmax). unfold result_type, ResultTypeFinder_type. rewrite Hsig.
  rewrite (iterate_returntype_ok ts ret Hret) by done. cbn [mbind option_bind foldl _return_type].
  assert (Ht : call_type (call_return ret (len (descrs ts) + 2)) = return_basic ret) by (by destruct ret as [[[]| |]|]).
  rewrite Ht. destruct (fingerprint_low ret (is_static m)) as [Hlow Hr]. cbv zeta in Hlow. cbv zeta. rewrite Hlow.
  rewrite iterate_parameters_ok by done. cbn [mbind option_bind].
  destruct (add_features_ok ts 1 (BasicType_num (return_basic ret) * 2 + (if is_static m then 1 else 0)) 5) as (fp' & Ha & Hrg & He).
  { change (2 ^ 5) with 32. destruct (is_static m); lia. }
  { lia. }
  { lia. }
  change (result_feature_size + static_feature_size) with 5. rewrite Ha. cbn [mbind option_bind].
  rewrite (proj2 (Z.ltb_lt _ _)) by lia. cbn [guard_b]. pose proof (fields_range ts) as Hfr.
  assert (Hle : 2 ^ (5 + 4 * Z.of_nat (length ts)) <= 2 ^ 57) by (apply Z.pow_le_mono_r; lia).
  rewrite lor_field; [|lia|lia|unfold done_parm; lia|unfold done_parm; change (2 ^ 64) with (128 * 2 ^ 57); lia].
  unfold done_parm. rewrite He. fold fp. split; [done|].
  assert (H1 : fp = fp' + 10 * 2 ^ (5 + 4 * Z.of_nat (length ts))) by (unfold fp; lia).
  assert (H2 : 0 < 2 ^ (5 + 4 * Z.of_nat (length ts))) by (apply pow2_pos; lia). change (2 ^ 62) with (32 * 2 ^ 57). lia.
Qed.

Lemma erase_twice (l : list Call) : erase <$> (erase <$> l) = erase <$> l.
Proof. induction l as [|[] l IH]; [done|cbn; by rewrite IH..]. Qed.

(** C26: let no class name of a parameter have a right parenthesis in it (the search for the return type stops at the first one).
    Then the fingerprint of a method with few arguments gives back its result type, whether it is static, and all calls that an iteration
    over the signature makes, but for the places of the characters; a method with more arguments has the fingerprint that
    makes the iteration read the signature. It is remembered by the method, and found again. *)
Theorem fingerprint_roundtrip m ts ret it : signature m = method_descr ts ret -> Forall (names_ok no_semicolon) ts ->
  from_option (names_ok no_semicolon) True ret -> Forall (names_ok (fun c => c <> 41)) ts -> stored_fingerprint m = 0 ->
  all_slots ts < 2 ^ 31 - 1 -> size_of_parameters m = all_slots ts + (if is_static m then 0 else 1) ->
  exists fp m' it1 it2 calls calls', fingerprint m = Some (fp, m') /\ fingerprint m' = Some (fp, m') /\ in_u 64 fp /\
    iterate_parameters (signature m) it = Some (it1, calls) /\
    iterate_parameters_fingerprint (signature m) fp it = Some (it2, calls') /\ erase <$> calls' = erase <$> calls /\
    (size_of_parameters m <= max_size_of_parameters -> calls' = erase <$> calls /\ _parameter_index it2 = all_slots ts /\
       Z.land (Z.shiftr fp static_feature_size) result_feature_mask = BasicType_num (return_basic ret) /\
       Z.odd fp = is_static m) /\
    (max_size_of_parameters < size_of_parameters m -> fp = no_fingerprint).
Proof.
  intros Hsig Hts Hret Hno Hst Hmax Hsz. destruct (Z.le_gt_cases (size_of_parameters m) max_size_of_parameters) as [Hle|Hgt].
  - destruct (fingerprint_small m ts ret Hsig Hts Hret Hno Hst Hsz Hle) as [Hf Hr]. set (fp := BasicType_num _ * 2 + _ + _) in *.
    assert (Hn : (length ts < 17)%nat).
    { pose proof (slots_pos ts). change max_size_of_parameters with 13 in Hle. destruct (is_static m); lia. }
    assert (Hpos : 0 < 2 ^ 62) by done. change (2 ^ 62) with 4611686018427387904 in *. change (2 ^ 31) with 2147483648 in *.
    destruct (fingerprint_low ret (is_static m)) as [_ Hb]. pose proof (fields_range ts) as Hfr.
    assert (Hshift5 : Z.shiftr fp 5 = fields ts).
    { unfold fp. rewrite Z.add_comm. apply shiftr_mul_add; [lia|]. change (2 ^ 5) with 32. destruct (is_static m); lia. }
    eexists fp, (set_fingerprint m fp), _, (set_parameter_index it (all_slots ts)), (calls_for ts 1), (erase <$> calls_for ts 1). split_and!.
    + exact Hf.
    + unfold fingerprint. cbn [set_fingerprint stored_fingerprint]. rewrite (proj2 (Z.eqb_neq fp 0)) by lia. done.
    + unfold in_u. change (2 ^ 64) with 18446744073709551616. lia.
    + rewrite Hsig. apply iterate_parameters_ok; [done|change (2 ^ 31) with 2147483648; lia].
    + unfold iterate_parameters_fingerprint. change no_fingerprint with 18446744073709551615. rewrite (proj2 (Z.eqb_neq fp _)) by lia.
      change (static_feature_size + result_feature_size) with 5. rewrite Hshift5.
      rewrite (iterate_fields_ok ts 17 _ 1 Hn); cbn [_parameter_index set_parameter_index]; [done|lia|change (2 ^ 31) with 2147483648; lia].
    + apply erase_twice.
    + intros _. split_and!; [done|done| |].
      * assert (H1 : Z.shiftr fp static_feature_size = fields ts * 2 ^ 4 + BasicType_num (return_basic ret)).
        { unfold static_feature_size, fp. replace (BasicType_num (return_basic ret) * 2 + (if is_static m then 1 else 0) + fields ts * 2 ^ 5)
            with ((fields ts * 2 ^ 4 + BasicType_num (return_basic ret)) * 2 ^ 1 + (if is_static m then 1 else 0)) by (change (2 ^ 5) with 32; change (2 ^ 4) with 16; lia).
          apply shiftr_mul_add; [lia|]. destruct (is_static m); lia. }
        rewrite H1. change result_feature_mask with (2 ^ 4 - 1). rewrite land_ones_mod by lia. rewrite Z.add_comm, Z_mod_plus_full.
        apply Z.mod_small. change (2 ^ 4) with 16. lia.
      * unfold fp. change (2 ^ 5) with 32. replace (BasicType_num (return_basic ret) * 2 + (if is_static m then 1 else 0) + fields ts * 32)
          with ((if is_static m then 1 else 0) + 2 * (BasicType_num (return_basic ret) + fields ts * 16)) by lia.
        rewrite Z.odd_add_mul_2. by destruct (is_static m).
    + lia.
  - assert (Hf : fingerprint m = Some (no_fingerprint, set_fingerprint m no_fingerprint)).
    { unfold fingerprint. rewrite Hst. change (negb (0 =? 0)) with false. cbn iota. by rewrite (proj2 (Z.ltb_lt _ _) Hgt). }
    exists no_fingerprint, (set_fingerprint m no_fingerprint). pose proof (iterate_parameters_ok ts ret Hts ltac:(lia) it) as Hi. rewrite <- Hsig in Hi.
    eexists _, _, _, _. split_and!; [exact Hf|done|done|exact Hi|exact Hi|done|lia|done].
Qed.

(** A static method with an int, an array and a long, that returns a string. *)
Definition sample_ts : list JType := [JPrim PInt; JArray (JClass [97; 47; 98]); JPrim PLong].
Definition sample_ret : option JType := Some (JClass [115]).
Definition sample_method : Method :=
  {| signature := method_descr sample_ts sample_ret; is_static := true; size_of_parameters := 4; stored_fingerprint := 0 |}.

Lemma fingerprint_roundtrip_witness : exists fp m' it1 it2 calls calls', fingerprint sample_method = Some (fp, m') /\ fingerprint m' = Some (fp, m') /\
  in_u 64 fp /\ iterate_parameters (signature sample_method) new_iterator = Some (it1, calls) /\
  iterate_parameters_fingerprint (signature sample_method) fp new_iterator = Some (it2, calls') /\ erase <$> calls' = erase <$> calls /\
  (size_of_parameters sample_method <= max_size_of_parameters -> calls' = erase <$> calls /\ _parameter_index it2 = all_slots sample_ts /\
     Z.land (Z.shiftr fp static_feature_size) result_feature_mask = BasicType_num (return_basic sample_ret) /\
     Z.odd fp = is_static sample_method) /\
  (max_size_of_parameters < size_of_parameters sample_method -> fp = no_fingerprint).
Proof.
  apply (fingerprint_roundtrip sample_method sample_ts sample_ret new_iterator); try done; cbn; unfold no_semicolon; repeat constructor; lia.
Defined.
