(* ===== verification/FormatCheckSpec.v ===== *)
(** * FormatCheckSpec: what the format checks of the class file parser accept

    Strings are exactly the encodings of [UTF8]; signatures exactly the words of the grammar of [SignatureSpec], from version
    49 on, and words of it with stricter names before; and what was accepted is safe for all that reads signatures without
    bounds. *)

From S2P Require Import Prelude GlobalDefs UTF8 FormatCheck Signature SignatureSpec.

(* ------------------------------------------------------------------ *)
(** ** Names of old class files *)

Lemma char_at_ok l c r : in_u 8 c -> char_at (l ++ c :: r) (len l) = Some (if c <? 128 then c else c + 65280).
Proof.
  intros Hc. unfold char_at. rewrite arr_at. cbn [mbind option_bind]. f_equal. unfold in_u in Hc.
  pose proof (byte_forall (fun c => u16 (swrap 8 c) =? (if c <? 128 then c else c + 65280)) c eq_refl Hc) as H. cbn beta in H. lia.
Qed.

(** The bytes of a character beyond ASCII are all beyond ASCII. *)
Definition high_byte (c : Z) : Prop := 128 <= c.

Lemma is_cont_high l : Forall (fun c => is_cont c = true) l -> Forall high_byte l.
Proof. apply Forall_impl. intros c. unfold is_cont, high_byte. lia. Qed.

Lemma next_at l b s : Forall is_byte (b :: s) -> exists v tail s', next ((l ++ b :: s) ++ [0]) (len l) = Some (v, len l + 1 + len tail) /\
  s = tail ++ s' /\ Forall high_byte tail /\ (tail = [] -> v = b) /\ (b < 128 -> tail = []).
Proof.
  intros Hs. destruct (next_progress [] b s Hs) as (v & tail & s' & Hn & -> & Ht & _ & Hv). exists v, tail, s'.
  unfold len at 1. rewrite next_drop, <- (assoc_L (++)), drop_app_length. rewrite Hn. unfold len.
  split_and!; [cbn; do 2 f_equal; lia|done|by apply is_cont_high|done|].
  intros Hb. assert (Hn0 : next ((b :: tail ++ s') ++ [0]) 0 = Some (b, 0 + 1)).
  { apply next_0; [|done|].
    - apply list.Forall_cons in Hs as [Hs _]. by apply is_byte_in_u.
    - unfold tail_bytes. repeat case_match; lia. }
  rewrite Hn in Hn0. injection Hn0 as _ Hl. destruct tail; [done|]. cbn in Hl. lia.
Qed.

Lemma next_character_at l b s : Forall is_byte (l ++ b :: s) -> exists v tail s',
  next_character ((l ++ b :: s) ++ [0]) (len l) = Some (v, len l + 1 + len tail) /\ s = tail ++ s' /\ Forall high_byte tail.
Proof.
  intros Hb. rewrite (next_character_spec (l ++ b :: s) [] Hb) by (rewrite length_app; unfold len; cbn; lia).
  pose proof (proj2 (proj1 (list.Forall_app _ l (b :: s)) Hb)) as Hs. destruct (next_at l b s Hs) as (hi & tail & s' & Hn & -> & Ht & _).
  rewrite Hn. cbn [mbind option_bind]. destruct (is_high_surrogate hi); [|by exists hi, tail, s'].
  destruct s' as [|b' s'].
  - assert (Hz : next ((l ++ b :: tail ++ []) ++ [0]) (len l + 1 + len tail) = Some (0, len l + 1 + len tail + 1)).
    { apply next_0; [unfold in_u; lia| |done]. apply arr_at'. rewrite app_nil_r, len_app, len_cons. lia. }
    rewrite Hz. cbn [mbind option_bind]. exists hi, tail, []. done.
  - assert (Hs' : Forall is_byte (b' :: s')).
    { apply list.Forall_cons in Hs as [_ Hs]. by apply list.Forall_app in Hs as [_ ?]. }
    destruct (next_at (l ++ b :: tail) b' s' Hs') as (lo & tail2 & s2 & Hn2 & -> & Ht2 & Hv & Hlow).
    rewrite len_app, len_cons in Hn2. replace (len l + (1 + len tail)) with (len l + 1 + len tail) in Hn2 by lia.
    rewrite <- (assoc_L (++) l) in Hn2. cbn [app] in Hn2. rewrite Hn2. cbn [mbind option_bind]. destruct (is_low_surrogate lo) eqn:E.
    + eexists _, (tail ++ b' :: tail2), s2. split; [do 2 f_equal; rewrite len_app, len_cons; lia|].
      split; [by rewrite <- (assoc_L (++))|]. apply list.Forall_app. split; [done|]. constructor; [|done].
      unfold high_byte. destruct (decide (b' < 128)); [|lia]. rewrite (Hv (Hlow l0)) in E. unfold is_low_surrogate in E. lia.
    + by exists hi, tail, (b' :: tail2 ++ s2).
Qed.

(** A buffer: the bytes of the string before a pointer, those from it on, and the zero. *)
Lemma buffer_at l b s : (l ++ b :: s) ++ [0] = l ++ b :: (s ++ [0]).
Proof. by rewrite <- (assoc_L (++)). Qed.

Section Old.
Context (isJavaIdentifierStart isJavaIdentifierPart : Z -> option bool).

Lemma field_name_ok fuel : forall name length_ l s slash_ok last_is_slash not_first_ch, Forall is_byte (l ++ s) -> (length s <= fuel)%nat ->
  name + length_ = len (l ++ s) ->
  exists r, field_name_loop isJavaIdentifierStart isJavaIdentifierPart fuel ((l ++ s) ++ [0]) name slash_ok length_ (len l)
              last_is_slash not_first_ch = Some r /\
    forall q, r = Some q -> exists n s', s = n ++ s' /\ q = len l + len n /\ Forall no_dot n.
Proof.
  assert (Hstop : forall (l s : list Z) (b : bool) p, p = len l -> forall q, (if b then Some p else None) = Some q ->
    exists n s', s = n ++ s' /\ q = len l + len n /\ Forall no_dot n).
  { intros l s [] p -> q [= <-]. exists [], s. split_and!; [done|unfold len; cbn; lia|constructor]. }
  induction fuel as [|fuel IH]; intros name length_ l s slash_ok last_is_slash not_first_ch Hb Hf Hend.
  { destruct s; [|cbn in Hf; lia]. cbn [field_name_loop]. rewrite Hend, app_nil_r, Z.eqb_refl. eexists. split; [done|]. by apply Hstop. }
  destruct s as [|c s].
  { cbn [field_name_loop]. rewrite Hend, app_nil_r, Z.eqb_refl. eexists. split; [done|]. by apply Hstop. }
  assert (Hgo : forall tail s' lis nf, s = tail ++ s' -> no_dot c -> Forall high_byte tail -> exists r,
    field_name_loop isJavaIdentifierStart isJavaIdentifierPart fuel ((l ++ c :: s) ++ [0]) name slash_ok length_ (len l + 1 + len tail)
      lis nf = Some r /\ forall q, r = Some q -> exists n s'', c :: s = n ++ s'' /\ q = len l + len n /\ Forall no_dot n).
  { intros tail s' lis nf -> Hc Ht. destruct (IH name length_ (l ++ c :: tail) s' slash_ok lis nf) as (r & Hr & Hq).
    - by rewrite <- (assoc_L (++)).
    - cbn in Hf. rewrite length_app in Hf. lia.
    - rewrite Hend, <- (assoc_L (++) l). done.
    - exists r. rewrite <- (assoc_L (++) l) in Hr. cbn [app] in Hr. rewrite (len_app l (c :: tail)), len_cons in Hr.
      replace (len l + 1 + len tail) with (len l + (1 + len tail)) by lia. split; [done|]. intros q Hrq.
      destruct (Hq q Hrq) as (n & s'' & -> & -> & Hn). exists ((c :: tail) ++ n), s''. split_and!; [by rewrite <- (assoc_L (++))| |].
      + rewrite !len_app. lia.
      + apply list.Forall_app. split; [|done]. constructor; [done|]. revert Ht. apply Forall_impl. intros x. unfold high_byte, no_dot. lia. }
  cbn [field_name_loop]. assert (Hne : len l <> name + length_) by (rewrite Hend, len_app, len_cons; pose proof (len_nonneg s); lia).
  rewrite (proj2 (Z.eqb_neq _ _) Hne). assert (Hcb : is_byte c) by (apply list.Forall_app in Hb as [_ Hb]; by apply list.Forall_cons in Hb as [? _]).
  rewrite buffer_at, (char_at_ok l c _ (is_byte_in_u _ Hcb)), <- buffer_at. cbn [mbind option_bind].
  destruct (Z.ltb_spec c 128) as [Hc|Hc].
  - rewrite (proj2 (Z.ltb_lt c 128) Hc). destruct (ascii_identifier c not_first_ch) eqn:Hid.
    { replace (len l + 1) with (len l + 1 + len []) by (unfold len; cbn; lia). apply (Hgo [] s); [done| |constructor].
      unfold ascii_identifier in Hid. unfold no_dot. lia. }
    destruct (slash_ok && (c =? 47)) eqn:Hsl; [|eexists; split; [done|]; by apply Hstop].
    destruct last_is_slash; [by eexists|]. replace (len l + 1) with (len l + 1 + len []) by (unfold len; cbn; lia).
    apply (Hgo [] s); [done|unfold no_dot; lia|constructor].
  - rewrite (proj2 (Z.ltb_ge _ 128)) by lia. destruct (next_character_at l c s Hb) as (v & tail & s' & Hn & Hs & Ht). rewrite Hn.
    cbn [mbind option_bind]. destruct (isJavaIdentifierStart v) as [[]|]; [|destruct not_first_ch|by eexists]; [| |by eexists].
    + apply (Hgo tail s'); [done|unfold no_dot; lia|done].
    + destruct (isJavaIdentifierPart v) as [[]|]; [|eexists; split; [done|]; by apply (Hstop l (c :: s) true)|by eexists].
      apply (Hgo tail s'); [done|unfold no_dot; lia|done].
Qed.
End Old.

(* ------------------------------------------------------------------ *)
(** ** Signatures *)

(** Up to a semicolon, up to a dot, or neither. *)
Lemma name_cases s : (exists n r, s = n ++ 59 :: r /\ Forall no_dot n) \/ (exists n r, s = n ++ 46 :: r /\ Forall no_dot n) \/
  Forall no_dot s.
Proof.
  induction s as [|c s IH]; [by do 2 right|]. destruct (decide (c = 59)) as [->|H1]; [left; by exists [], s|].
  destruct (decide (c = 46)) as [->|H2]; [right; left; by exists [], s|].
  destruct IH as [(n & r & -> & Hn)|[(n & r & -> & Hn)|Hn]]; [left|right; left|do 2 right].
  - exists (c :: n), r. split; [done|by constructor].
  - exists (c :: n), r. split; [done|by constructor].
  - by constructor.
Qed.

Lemma class_name_prefix n : forall fuel l s, Forall no_dot n -> (length n <= fuel)%nat ->
  class_name_loop fuel ((l ++ n ++ s) ++ [0]) (len l) (len (n ++ s)) =
  class_name_loop (fuel - length n) ((l ++ n ++ s) ++ [0]) (len (l ++ n)) (len s).
Proof.
  induction n as [|c n IH]; intros fuel l s Hn Hf; [by rewrite app_nil_r, Nat.sub_0_r|]. destruct fuel as [|fuel]; [cbn in Hf; lia|].
  apply list.Forall_cons in Hn as [[H1 H2] Hn]. cbn [class_name_loop app length Nat.sub]. rewrite len_cons.
  rewrite (proj2 (Z.ltb_lt 0 _)) by (pose proof (len_nonneg (n ++ s)); lia).
  rewrite buffer_at, arr_at, <- buffer_at. cbn [mbind option_bind]. unfold JVM_SIGNATURE_ENDCLASS. rewrite (proj2 (Z.eqb_neq c 59) H1), (proj2 (Z.eqb_neq c 46) H2).
  pose proof (IH fuel (l ++ [c]) s Hn ltac:(cbn in Hf; lia)) as H. rewrite <- !(assoc_L (++) l) in H. cbn [app] in H.
  rewrite len_snoc, <- buffer_at in H. replace (1 + len (n ++ s) - 1) with (len (n ++ s)) by lia. exact H.
Qed.

Section Signatures.
Context (_major_version : Z) (isJavaIdentifierStart isJavaIdentifierPart : Z -> option bool).
Abbreviation skip_class_name := (skip_class_name _major_version isJavaIdentifierStart isJavaIdentifierPart).
Abbreviation field_signature_loop := (field_signature_loop _major_version isJavaIdentifierStart isJavaIdentifierPart).
Abbreviation skip_over_field_signature := (skip_over_field_signature _major_version isJavaIdentifierStart isJavaIdentifierPart).

Lemma skip_class_name_new l s : JAVA_1_5_VERSION <= _major_version ->
  skip_class_name ((l ++ 76 :: s) ++ [0]) (len l) (1 + len s) =
  class_name_loop (Z.to_nat (1 + len s)) (((l ++ [76]) ++ s) ++ [0]) (len (l ++ [76])) (len s) ≫= (fun r =>
    check (Some r) (fun '(signature, _) => c ← arr_get (((l ++ [76]) ++ s) ++ [0]) signature;
      Some (Done (if c =? JVM_SIGNATURE_ENDCLASS then Some (signature + 1) else None)))).
Proof.
  intros Hv. unfold FormatCheck.skip_class_name. rewrite (proj2 (Z.ltb_ge _ _)) by lia.
  replace ((l ++ [76]) ++ s) with (l ++ 76 :: s) by (by rewrite <- (assoc_L (++))). rewrite len_snoc.
  replace (1 + len s - 1) with (len s) by lia. by destruct (class_name_loop _ _ _ _).
Qed.

Lemma new_names l s : JAVA_1_5_VERSION <= _major_version ->
  (forall n r, s = n ++ 59 :: r -> Forall no_dot n ->
     skip_class_name ((l ++ 76 :: s) ++ [0]) (len l) (1 + len s) = Some (Done (Some (len l + len n + 2)))) /\
  (forall n r, s = n ++ 46 :: r -> Forall no_dot n ->
     skip_class_name ((l ++ 76 :: s) ++ [0]) (len l) (1 + len s) = Some (Throw IllegalDotInDescriptor)) /\
  (Forall no_dot s -> skip_class_name ((l ++ 76 :: s) ++ [0]) (len l) (1 + len s) = Some (Done None)).
Proof.
  intros Hv. rewrite skip_class_name_new by done. set (l' := l ++ [76]). assert (Hfuel : Z.to_nat (1 + len s) = S (length s)) by (unfold len; lia).
  rewrite Hfuel. split_and!.
  - intros n r -> Hn. rewrite class_name_prefix by (done || (rewrite length_app; lia)). rewrite length_app. cbn [length].
    replace (S (length n + S (length r)) - length n)%nat with (S (S (length r))) by lia. cbn [class_name_loop].
    rewrite len_cons, (proj2 (Z.ltb_lt 0 _)) by (pose proof (len_nonneg r); lia).
    rewrite (assoc_L (++) l'), buffer_at, arr_at. cbn [mbind option_bind]. change (59 =? JVM_SIGNATURE_ENDCLASS) with true. cbn iota.
    cbn [mbind option_bind check]. rewrite arr_at. cbn [mbind option_bind]. change (59 =? JVM_SIGNATURE_ENDCLASS) with true. cbn iota.
    unfold l'. rewrite !len_app. unfold len. cbn. do 3 f_equal. lia.
  - intros n r -> Hn. rewrite class_name_prefix by (done || (rewrite length_app; lia)). rewrite length_app. cbn [length].
    replace (S (length n + S (length r)) - length n)%nat with (S (S (length r))) by lia. cbn [class_name_loop].
    rewrite len_cons, (proj2 (Z.ltb_lt 0 _)) by (pose proof (len_nonneg r); lia).
    rewrite (assoc_L (++) l'), buffer_at, arr_at. cbn [mbind option_bind]. change (46 =? JVM_SIGNATURE_ENDCLASS) with false. change (46 =? 46) with true. done.
  - intros Hn. pose proof (class_name_prefix s (S (length s)) l' [] Hn ltac:(lia)) as H. rewrite app_nil_r in H. rewrite H.
    replace (S (length s) - length s)%nat with 1%nat by lia. cbn [class_name_loop]. change (0 <? len []) with false. cbn iota.
    cbn [mbind option_bind check]. rewrite arr_at. done.
Qed.

Lemma class_name_sound l s : Forall is_byte (l ++ 76 :: s) -> exists r,
  skip_class_name ((l ++ 76 :: s) ++ [0]) (len l) (1 + len s) = Some r /\
  forall q, r = Done (Some q) -> exists n s', s = n ++ 59 :: s' /\ Forall no_dot n /\ q = len l + len n + 2.
Proof.
  intros Hb. destruct (Z.lt_ge_cases _major_version JAVA_1_5_VERSION) as [Hv|Hv].
  2: { destruct (new_names l s Hv) as (H1 & H2 & H3). destruct (name_cases s) as [(n & r & -> & Hn)|[(n & r & -> & Hn)|Hn]].
    - eexists. split; [by eapply H1|]. intros q [= <-]. by exists n, r.
    - eexists. split; [by eapply H2|]. done.
    - eexists. split; [by apply H3|]. done. }
  unfold FormatCheck.skip_class_name. rewrite (proj2 (Z.ltb_lt _ _)) by lia.
  assert (Hb' : Forall is_byte ((l ++ [76]) ++ s)) by (by rewrite <- (assoc_L (++))).
  destruct (field_name_ok isJavaIdentifierStart isJavaIdentifierPart (Z.to_nat (1 + len s - 1)) (len l + 1) (1 + len s - 1)
    (l ++ [76]) s true false false Hb') as (r & Hr & Hq).
  { unfold len. lia. }
  { rewrite !len_app. unfold len. cbn. lia. }
  rewrite <- (assoc_L (++) l) in Hr. cbn [app] in Hr. rewrite len_snoc in Hr. unfold skip_over_field_name. rewrite Hr. cbn [mbind option_bind].
  destruct r as [p|]; [|by eexists]. destruct (Hq p eq_refl) as (n & s' & -> & -> & Hn). rewrite len_snoc.
  destruct (1 <? _) eqn:Hp; [|by eexists]. destruct s' as [|c s'].
  - assert (Hz : arr_get ((l ++ 76 :: n ++ []) ++ [0]) (len l + 1 + len n) = Some 0).
    { apply arr_at'. rewrite app_nil_r, len_app, len_cons. lia. }
    rewrite Hz. cbn [mbind option_bind]. by eexists.
  - assert (Hz : arr_get ((l ++ 76 :: n ++ c :: s') ++ [0]) (len l + 1 + len n) = Some c).
    { change (76 :: n ++ c :: s') with ((76 :: n) ++ c :: s'). rewrite (assoc_L (++) l), buffer_at. apply arr_at'. rewrite len_app, len_cons. lia. }
    rewrite Hz. cbn [mbind option_bind]. eexists. split; [done|]. intros q. unfold JVM_SIGNATURE_ENDCLASS.
    destruct (Z.eqb_spec c 59) as [->|]; [|done]. intros [= <-]. exists n, s'. split_and!; [done|done|lia].
Qed.

(** The characters of the types of one letter. *)
Definition letter (c : Z) : bool :=
  (c =? JVM_SIGNATURE_VOID) || (c =? JVM_SIGNATURE_BOOLEAN) || (c =? JVM_SIGNATURE_BYTE) ||
  (c =? JVM_SIGNATURE_CHAR) || (c =? JVM_SIGNATURE_SHORT) || (c =? JVM_SIGNATURE_INT) ||
  (c =? JVM_SIGNATURE_FLOAT) || (c =? JVM_SIGNATURE_LONG) || (c =? JVM_SIGNATURE_DOUBLE).

Lemma letter_cases c : letter c = true -> c = 86 \/ exists p, c = prim_char p.
Proof.
  unfold letter. intros H. repeat (apply orb_prop in H as [H|H]); apply Z.eqb_eq in H as ->; [by left|right..];
  [exists PBoolean|exists PByte|exists PChar|exists PShort|exists PInt|exists PFloat|exists PLong|exists PDouble]; done.
Qed.

(** What was skipped: a type, or void where that is allowed. *)
Definition skipped (s : list Z) (b : Z) (void_ok : bool) (dim q : Z) : Prop :=
  exists ret s', s = return_descr ret ++ s' /\ q = b + len (return_descr ret) /\ (ret = None -> void_ok = true) /\
    forall t, ret = Some t -> names_ok no_dot t /\ dimensions t + dim <= 255.

Lemma field_signature_sound fuel : forall l s void_ok dim, Forall is_byte (l ++ s) -> (length s <= fuel)%nat -> 0 <= dim <= 255 -> exists r,
  field_signature_loop fuel ((l ++ s) ++ [0]) (len l) void_ok (len s) dim = Some r /\
  forall q, r = Done (Some q) -> skipped s (len l) void_ok dim q.
Proof.
  induction fuel as [|fuel IH]; intros l s void_ok dim Hb Hf Hd; (destruct s as [|c s]; [by eexists|]); [cbn in Hf; lia|].
  cbn [FormatCheck.field_signature_loop]. rewrite len_cons, (proj2 (Z.ltb_lt 0 _)) by (pose proof (len_nonneg s); lia).
  rewrite buffer_at, arr_at, <- buffer_at. cbn [mbind option_bind]. fold (letter c).
  destruct ((c =? JVM_SIGNATURE_VOID) && negb void_ok) eqn:Hvoid; [by eexists|]. destruct (letter c) eqn:Hl.
  { eexists. split; [done|]. intros q [= <-]. destruct (letter_cases c Hl) as [->|[p ->]].
    - exists None, s. destruct void_ok; [|done]. done.
    - exists (Some (JPrim p)), s. split_and!; [done|done|done|]. intros t [= <-]. cbn. split; [done|lia]. }
  destruct (c =? JVM_SIGNATURE_CLASS) eqn:Hc; [apply Z.eqb_eq in Hc as ->|].
  { destruct (class_name_sound l s Hb) as (r & Hr & Hq). exists r. split; [exact Hr|]. intros q Hrq.
    destruct (Hq q Hrq) as (n & s' & -> & Hn & ->). exists (Some (JClass n)), s'. cbn [return_descr from_option descr].
    split_and!; [by cbn; rewrite <- (assoc_L (++))|rewrite len_cons, len_snoc; lia|done|]. intros t [= <-]. cbn. split; [done|lia]. }
  destruct (c =? JVM_SIGNATURE_ARRAY) eqn:Ha; [apply Z.eqb_eq in Ha as ->|by eexists].
  destruct (255 <? dim + 1) eqn:Hdim; [by eexists|].
  destruct (IH (l ++ [JVM_SIGNATURE_ARRAY]) s false (dim + 1)) as (r & Hr & Hq); [by rewrite <- (assoc_L (++))|cbn in Hf; lia|lia|].
  exists r. rewrite <- (assoc_L (++) l) in Hr. cbn [app] in Hr. rewrite len_snoc in Hr. replace (1 + len s - 1) with (len s) by lia.
  split; [exact Hr|]. intros q Hrq. destruct (Hq q Hrq) as ([t|] & s' & -> & -> & Hv & Ht); [|by specialize (Hv eq_refl)].
  destruct (Ht t eq_refl) as [Hn Hds]. exists (Some (JArray t)), s'. cbn [return_descr from_option descr]. rewrite len_snoc, len_cons.
  split_and!; [done|lia|done|]. intros t' [= <-]. cbn. split; [done|lia].
Qed.

Lemma field_signature_complete t : forall fuel l s void_ok dim, JAVA_1_5_VERSION <= _major_version -> (length (descr t) <= fuel)%nat ->
  names_ok no_dot t -> dimensions t + dim <= 255 -> 0 <= dim ->
  field_signature_loop fuel ((l ++ descr t ++ s) ++ [0]) (len l) void_ok (len (descr t ++ s)) dim = Some (Done (Some (len l + len (descr t)))).
Proof.
  induction t as [p|name|t IH]; intros fuel l s void_ok dim Hv Hf Hn Hd Hd0; (destruct fuel as [|fuel]; [cbn in Hf; lia|]);
    cbn [FormatCheck.field_signature_loop descr app]; rewrite len_cons, (proj2 (Z.ltb_lt 0 _)) by (match goal with |- _ < 1 + len ?x => pose proof (len_nonneg x) end; lia);
    rewrite buffer_at, arr_at, <- buffer_at; cbn [mbind option_bind].
  - by destruct p.
  - change ((76 =? JVM_SIGNATURE_VOID) && negb void_ok) with false. fold (letter 76). change (letter 76) with false. change (76 =? JVM_SIGNATURE_CLASS) with true. cbn iota.
    destruct (new_names l (((name ++ [59])) ++ s) Hv) as (H1 & _). rewrite (H1 name s); [|by rewrite <- (assoc_L (++))|done].
    rewrite len_cons, len_snoc. do 3 f_equal. lia.
  - change ((91 =? JVM_SIGNATURE_VOID) && negb void_ok) with false. fold (letter 91). change (letter 91) with false.
    change (91 =? JVM_SIGNATURE_CLASS) with false. change (91 =? JVM_SIGNATURE_ARRAY) with true. cbn iota. cbn [dimensions] in Hd.
    assert (Hdt : 0 <= dimensions t) by (clear; induction t; cbn; lia). rewrite (proj2 (Z.ltb_ge 255 _)) by lia.
    pose proof (IH fuel (l ++ [91]) s false (dim + 1) Hv ltac:(cbn in Hf; lia) Hn ltac:(lia) ltac:(lia)) as H.
    rewrite <- (assoc_L (++) l) in H. cbn [app] in H. rewrite len_snoc in H. replace (1 + len (descr t ++ s) - 1) with (len (descr t ++ s)) by lia.
    rewrite H, len_cons. do 3 f_equal. lia.
Qed.

(** One type, from the place the parser is at. *)
Lemma skip_sound l s void_ok : Forall is_byte (l ++ s) -> exists r,
  skip_over_field_signature ((l ++ s) ++ [0]) (len l) void_ok (len s) = Some r /\
  forall q, r = Done (Some q) -> skipped s (len l) void_ok 0 q.
Proof. intros Hb. unfold FormatCheck.skip_over_field_signature. apply field_signature_sound; [done|unfold len; lia|lia]. Qed.

Lemma skip_complete l t s void_ok : JAVA_1_5_VERSION <= _major_version -> legal_type t ->
  skip_over_field_signature ((l ++ descr t ++ s) ++ [0]) (len l) void_ok (len (descr t ++ s)) = Some (Done (Some (len l + len (descr t)))).
Proof.
  intros Hv [Hn Hd]. unfold FormatCheck.skip_over_field_signature. apply field_signature_complete; try done; [|lia].
  unfold len. rewrite Nat2Z.id, length_app. lia.
Qed.

Lemma skip_stop l c s : c <> 86 -> letter c = false -> c <> 76 -> c <> 91 ->
  skip_over_field_signature ((l ++ c :: s) ++ [0]) (len l) false (len (c :: s)) = Some (Done None).
Proof.
  intros H1 H2 H3 H4. unfold FormatCheck.skip_over_field_signature. unfold len at 1. cbn [length]. rewrite Nat2Z.id.
  cbn [FormatCheck.field_signature_loop]. rewrite len_cons, (proj2 (Z.ltb_lt 0 _)) by (pose proof (len_nonneg s); lia).
  rewrite buffer_at, arr_at. cbn [mbind option_bind]. fold (letter c). unfold JVM_SIGNATURE_VOID, JVM_SIGNATURE_CLASS, JVM_SIGNATURE_ARRAY.
  rewrite H2, (proj2 (Z.eqb_neq c 86) H1), (proj2 (Z.eqb_neq c 76) H3), (proj2 (Z.eqb_neq c 91) H4). done.
Qed.

(** The parameters, from the place the parser is at. *)
Definition parameters (fuel : nat) (buf : list Z) (p length args_size : Z) : option (Checked (Z * Z * Z)) :=
  check (skip_over_field_signature buf p false length) (fun nextp =>
    parameters_loop _major_version isJavaIdentifierStart isJavaIdentifierPart fuel buf p length args_size nextp).

Lemma first_slots t c d : descr t = c :: d -> slots t = if (c =? JVM_SIGNATURE_LONG) || (c =? JVM_SIGNATURE_DOUBLE) then 2 else 1.
Proof. destruct t as [[]| |]; cbn; intros [= <- _]; done. Qed.

Lemma add_slots n t c d : descr t = c :: d ->
  (let a := u32 (n + 1) in if (c =? JVM_SIGNATURE_LONG) || (c =? JVM_SIGNATURE_DOUBLE) then u32 (a + 1) else a) = u32 (n + slots t).
Proof.
  intros H. rewrite (first_slots _ _ _ H). destruct (_ || _); [|done]. cbv zeta. unfold uwrap. rewrite Zplus_mod_idemp_l. f_equal. lia.
Qed.

(** One turn of the loop over a type. *)
Lemma parameters_step fuel l t s n : Forall is_byte (l ++ descr t ++ s) -> len (descr t ++ s) < 2 ^ 32 ->
  parameters_loop _major_version isJavaIdentifierStart isJavaIdentifierPart (S fuel) ((l ++ descr t ++ s) ++ [0]) (len l) (len (descr t ++ s)) n
    (Some (len l + len (descr t))) =
  parameters fuel (((l ++ descr t) ++ s) ++ [0]) (len (l ++ descr t)) (len s) (u32 (n + slots t)).
Proof.
  intros Hb Hmax. destruct (descr_head t) as (c & d & Hd & _). cbn [parameters_loop].
  assert (Hpos : 0 < len (descr t)) by (rewrite Hd, len_cons; pose proof (len_nonneg d); lia).
  rewrite len_app in *. pose proof (len_nonneg s). rewrite (proj2 (Z.ltb_lt 0 _)) by lia.
  assert (Hc : arr_get ((l ++ descr t ++ s) ++ [0]) (len l) = Some c) by (rewrite Hd; cbn [app]; rewrite buffer_at; apply arr_at).
  rewrite Hc. cbn [mbind option_bind]. pose proof (add_slots n t c d Hd) as Ha. cbv zeta in Ha. rewrite Ha.
  rewrite (uwrap_small 32 ltac:(lia)) by (unfold in_u; lia). replace (len (descr t) + len s - (len l + len (descr t) - len l)) with (len s) by lia.
  unfold parameters. by rewrite <- (assoc_L (++) l (descr t) s), len_app.
Qed.

Lemma parameters_sound fuel : forall l s n, Forall is_byte (l ++ s) -> len s < 2 ^ 32 -> (length s <= fuel)%nat -> exists r,
  parameters fuel ((l ++ s) ++ [0]) (len l) (len s) n = Some r /\
  forall p k m, r = Done (p, k, m) -> exists ts s', s = descrs ts ++ s' /\ p = len l + len (descrs ts) /\ k = len s' /\
    (in_u 32 n -> m = u32 (n + all_slots ts)) /\ Forall legal_type ts.
Proof.
  assert (Hstop : forall (l s : list Z) n p k m, Done (len l, len s, n) = Done (p, k, m) ->
    exists ts s', s = descrs ts ++ s' /\ p = len l + len (descrs ts) /\ k = len s' /\ (in_u 32 n -> m = u32 (n + all_slots ts)) /\ Forall legal_type ts).
  { intros l s n p k m [= <- <- <-]. exists [], s. split_and!; [done|unfold len; cbn; lia|done| |constructor]. intros Hn. cbn.
    rewrite Z.add_0_r. by rewrite (uwrap_small 32 ltac:(lia)). }
  induction fuel as [|fuel IH]; intros l s n Hb Hmax Hf; unfold parameters;
    (destruct (skip_sound l s false Hb) as ([[q|]|e] & Hr & Hq); rewrite Hr; cbn [check]; [|eexists; split; [by cbn|]; apply Hstop|by eexists]).
  - destruct s; [|cbn in Hf; lia]. eexists. split; [by cbn|]. apply Hstop.
  - destruct (Hq q eq_refl) as ([t|] & s' & -> & -> & Hv & Ht); [|by specialize (Hv eq_refl)]. destruct (Ht t eq_refl) as [Hn Hd].
    cbn [return_descr from_option] in *. rewrite parameters_step by done. rewrite (assoc_L (++)) in Hb.
    destruct (IH (l ++ descr t) s' (u32 (n + slots t)) Hb) as (r & Hr' & Hrest).
    { rewrite len_app in Hmax. pose proof (len_nonneg (descr t)). lia. }
    { rewrite length_app in Hf. destruct (descr_head t) as (c & d & Hdt & _). rewrite Hdt in Hf. cbn in Hf. lia. }
    exists r. split; [exact Hr'|]. intros p k m Hrm. destruct (Hrest p k m Hrm) as (ts & s2 & -> & -> & -> & Hm & Hts).
    exists (t :: ts), s2. rewrite descrs_cons. split_and!; [by rewrite <- (assoc_L (++))|rewrite !len_app; lia|done| |].
    + intros _. rewrite Hm by apply (uwrap_range 32 ltac:(lia)). change (all_slots (t :: ts)) with (slots t + all_slots ts).
      unfold uwrap. rewrite Zplus_mod_idemp_l. f_equal. lia.
    + constructor; [|done]. split; [done|lia].
Qed.

Lemma parameters_complete ts : forall fuel l s n, JAVA_1_5_VERSION <= _major_version -> Forall is_byte (l ++ descrs ts ++ 41 :: s) ->
  len (descrs ts ++ 41 :: s) < 2 ^ 32 -> (length ts < fuel)%nat -> Forall legal_type ts -> in_u 32 n ->
  parameters fuel ((l ++ descrs ts ++ 41 :: s) ++ [0]) (len l) (len (descrs ts ++ 41 :: s)) n =
  Some (Done (len l + len (descrs ts), len (41 :: s), u32 (n + all_slots ts))).
Proof.
  induction ts as [|t ts IH]; intros fuel l s n Hv Hb Hmax Hf Hts Hn.
  - change (descrs [] ++ ?x) with x in *. unfold parameters. rewrite skip_stop by done. cbn [check]. destruct fuel as [|fuel]; [cbn in Hf; lia|].
    cbn [parameters_loop all_slots foldr]. change (len (descrs [])) with 0. rewrite !Z.add_0_r. by rewrite (uwrap_small 32 ltac:(lia)).
  - apply list.Forall_cons in Hts as [Ht Hts]. rewrite descrs_cons in *. rewrite <- (assoc_L (++) (descr t) (descrs ts) (41 :: s)) in *. destruct fuel as [|fuel]; [cbn in Hf; lia|].
    unfold parameters. rewrite skip_complete by done. cbn [check]. rewrite parameters_step by done. rewrite (assoc_L (++)) in Hb.
    rewrite (IH fuel (l ++ descr t) s); [| done | done | | cbn in Hf; lia | done | apply (uwrap_range 32 ltac:(lia))].
    + rewrite !len_app, Z.add_assoc. change (all_slots (t :: ts)) with (slots t + all_slots ts). do 2 f_equal.
      unfold uwrap. rewrite Zplus_mod_idemp_l. do 2 f_equal. lia.
    + rewrite len_app in Hmax. pose proof (len_nonneg (descr t)). lia.
Qed.

(** A method's types: those of an initializer return nothing. *)
Definition legal_method (name : list Z) (ts : list JType) (ret : option JType) : Prop :=
  Forall legal_type ts /\ from_option legal_type True ret /\ (name !! 0%nat = Some 60 -> ret = None).

Lemma slots_bound ts : all_slots ts <= 2 * len (descrs ts).
Proof.
  induction ts as [|t ts IH]; [done|]. change (all_slots (t :: ts)) with (slots t + all_slots ts). rewrite descrs_cons, len_app.
  destruct (descr_head t) as (c & d & Hd & _). rewrite Hd, len_cons. pose proof (len_nonneg d).
  assert (slots t <= 2) by (unfold slots, type2size; destruct (basic t); lia). lia.
Qed.

(** The part behind the parameters. *)
Lemma return_sound name l s n : Forall is_byte (l ++ s) -> exists r,
  verify_return _major_version isJavaIdentifierStart isJavaIdentifierPart ((l ++ s) ++ [0]) name (len l) (len s) n = Some r /\
  forall m, r = Done m -> m = n /\ exists ret, s = 41 :: return_descr ret /\ from_option legal_type True ret /\ (name !! 0%nat = Some 60 -> ret = None).
Proof.
  intros Hb. unfold verify_return. destruct s as [|c s]; [by eexists|]. rewrite len_cons, (proj2 (Z.ltb_lt 0 _)) by (pose proof (len_nonneg s); lia).
  cbn [negb]. rewrite buffer_at, arr_at, <- buffer_at. cbn [mbind option_bind]. destruct (c =? JVM_SIGNATURE_ENDFUNC) eqn:Hc; [|by eexists].
  apply Z.eqb_eq in Hc as ->. cbn [negb]. replace (1 + len s - 1) with (len s) by lia. unfold JVM_SIGNATURE_ENDFUNC in *.
  assert (Hb' : Forall is_byte ((l ++ [41]) ++ s)) by (by rewrite <- (assoc_L (++))).
  destruct ((0 <? Z.of_nat (length name)) && bool_decide (name !! 0%nat = Some 60)) eqn:Hname.
  - destruct (len s =? 1) eqn:Hl; [|by eexists]. cbn [negb]. destruct s as [|c [|]]; [done| |rewrite !len_cons in Hl; pose proof (len_nonneg l0); lia].
    rewrite (app_cons_assoc l 41), <- (len_snoc l 41), buffer_at, arr_at. cbn [mbind option_bind]. unfold JVM_SIGNATURE_VOID.
    destruct (Z.eqb_spec c 86) as [->|]; [|by eexists]. eexists. split; [done|]. intros m [= <-]. split; [done|]. by exists None.
  - assert (Hno : name !! 0%nat <> Some 60).
    { intros Hn. destruct name as [|c0 name]; [done|]. cbn in Hn. injection Hn as ->. done. }
    destruct (skip_sound (l ++ [41]) s true Hb') as (r & Hr & Hq). rewrite <- (assoc_L (++) l [41] s) in Hr. cbn [app] in Hr. rewrite len_snoc in Hr.
    rewrite Hr. destruct r as [[q|]|e]; cbn [check]; [|by eexists..]. destruct (len s =? q - (len l + 1)) eqn:Hl; [|by eexists].
    eexists. split; [done|]. intros m [= <-]. split; [done|]. destruct (Hq q eq_refl) as (ret & s' & Hs & -> & Hv & Ht).
    rewrite len_snoc in Hl. assert (Hs' : s' = []).
    { rewrite Hs, len_app in Hl. destruct s'; [done|]. rewrite len_cons in Hl. pose proof (len_nonneg s'). lia. }
    subst s'. rewrite app_nil_r in Hs. exists ret. split_and!; [by rewrite Hs| |done]. destruct ret as [t|]; [|done]. cbn.
    destruct (Ht t eq_refl). split; [done|lia].
Qed.

Lemma return_complete name l ret n : JAVA_1_5_VERSION <= _major_version -> from_option legal_type True ret -> (name !! 0%nat = Some 60 -> ret = None) ->
  verify_return _major_version isJavaIdentifierStart isJavaIdentifierPart ((l ++ 41 :: return_descr ret) ++ [0]) name (len l) (len (41 :: return_descr ret)) n =
  Some (Done n).
Proof.
  intros Hv Hret Hinit. unfold verify_return. rewrite len_cons, (proj2 (Z.ltb_lt 0 _)) by (pose proof (len_nonneg (return_descr ret)); lia).
  cbn [negb]. rewrite buffer_at, arr_at, <- buffer_at. cbn [mbind option_bind]. change (41 =? JVM_SIGNATURE_ENDFUNC) with true. cbn [negb].
  replace (1 + len (return_descr ret) - 1) with (len (return_descr ret)) by lia. rewrite (app_cons_assoc l 41), <- (len_snoc l 41).
  destruct ((0 <? Z.of_nat (length name)) && bool_decide (name !! 0%nat = Some 60)) eqn:Hname.
  - apply andb_prop in Hname as [_ Hname]. apply bool_decide_eq_true in Hname. rewrite (Hinit Hname). cbn [return_descr from_option].
    change (len [86] =? 1) with true. cbn [negb]. rewrite buffer_at, arr_at. done.
  - destruct ret as [t|]; cbn [return_descr from_option] in *.
    + pose proof (skip_complete (l ++ [41]) t [] true Hv Hret) as H. rewrite app_nil_r in H. rewrite H. cbn [check].
      replace (len (l ++ [41]) + len (descr t) - len (l ++ [41])) with (len (descr t)) by lia. by rewrite Z.eqb_refl.
    + unfold FormatCheck.skip_over_field_signature. change (Z.to_nat (len [86])) with 1%nat. cbn [FormatCheck.field_signature_loop].
      change (0 <? len [86]) with true. cbn iota. rewrite buffer_at, arr_at. cbn [mbind option_bind]. change (86 =? JVM_SIGNATURE_VOID) with true.
      cbn [andb negb orb check]. change (len [86]) with 1. replace (len (l ++ [41]) + 1 - len (l ++ [41])) with 1 by lia. done.
Qed.

Abbreviation verify name sig := (verify_legal_method_signature _major_version true isJavaIdentifierStart isJavaIdentifierPart name sig).

Lemma verify_eq name s : verify name (40 :: s) =
  check (parameters (length s) (([40] ++ s) ++ [0]) (len [40]) (len s) 0) (fun '(q, length, args_size) =>
    verify_return _major_version isJavaIdentifierStart isJavaIdentifierPart (([40] ++ s) ++ [0]) name q length args_size).
Proof.
  unfold verify_legal_method_signature, as_utf8_flexible_buffer, parameters. cbn [negb].
  change (Z.of_nat (length (40 :: s))) with (len (40 :: s)). rewrite len_cons.
  rewrite (proj2 (Z.ltb_lt 0 _)) by (pose proof (len_nonneg s); lia). cbn [negb]. change (arr_get ((40 :: s) ++ [0]) 0) with (Some 40).
  cbn [mbind option_bind]. change (40 =? JVM_SIGNATURE_FUNC) with true. cbn [negb]. replace (1 + len s - 1) with (len s) by lia.
  replace (Z.to_nat (len s)) with (length s) by (unfold len; lia). change (len [40]) with 1. change ([40] ++ s) with (40 :: s).
  by destruct (skip_over_field_signature _ _ _ _) as [[r|e]|].
Qed.

Lemma verify_sound name sig : Forall is_byte sig -> len sig < 2 ^ 16 -> exists r, verify name sig = Some r /\
  forall n, r = Done n -> exists ts ret, sig = method_descr ts ret /\ n = all_slots ts /\ legal_method name ts ret.
Proof.
  intros Hb Hl. destruct sig as [|c s]; [by eexists|]. destruct (decide (c = 40)) as [->|Hc].
  2: { unfold verify_legal_method_signature. cbn [negb]. change (Z.of_nat (length (c :: s))) with (len (c :: s)).
       rewrite len_cons, (proj2 (Z.ltb_lt 0 _)) by (pose proof (len_nonneg s); lia). cbn [negb].
       change (arr_get (as_utf8_flexible_buffer (c :: s)) 0) with (Some c). cbn [mbind option_bind]. unfold JVM_SIGNATURE_FUNC.
       rewrite (proj2 (Z.eqb_neq c 40) Hc). by eexists. }
  rewrite verify_eq. rewrite len_cons in Hl. destruct (parameters_sound (length s) [40] s 0 Hb) as (r & Hr & Hq); [lia|done|].
  rewrite Hr. destruct r as [[[p k] m]|e]; cbn [check]; [|by eexists]. destruct (Hq p k m eq_refl) as (ts & s' & -> & -> & -> & Hm & Hts).
  rewrite <- len_app, (assoc_L (++)). destruct (return_sound name ([40] ++ descrs ts) s' m) as (r & Hr' & Hrest).
  { by rewrite <- (assoc_L (++)). }
  exists r. split; [exact Hr'|]. intros n Hn. destruct (Hrest n Hn) as (-> & ret & -> & Hret & Hinit). exists ts, ret. split_and!; [done| |done].
  rewrite Hm by (unfold in_u; lia). pose proof (slots_bound ts). pose proof (all_slots_nonneg ts). apply (uwrap_small 32 ltac:(lia)).
  rewrite len_app in Hl. pose proof (len_nonneg (41 :: return_descr ret)). unfold in_u. lia.
Qed.

Lemma verify_complete name ts ret : JAVA_1_5_VERSION <= _major_version -> Forall is_byte (method_descr ts ret) -> len (method_descr ts ret) < 2 ^ 16 ->
  legal_method name ts ret -> verify name (method_descr ts ret) = Some (Done (all_slots ts)).
Proof.
  intros Hv Hb Hl (Hts & Hret & Hinit). unfold method_descr in *. rewrite verify_eq. rewrite len_cons in Hl.
  rewrite (parameters_complete ts _ [40] (return_descr ret) 0 Hv Hb); [|lia| |done|unfold in_u; lia].
  2: { rewrite length_app. pose proof (descrs_length ts). cbn. lia. }
  cbn [check]. rewrite <- len_app, (assoc_L (++)), return_complete by done. do 2 f_equal. pose proof (slots_bound ts). pose proof (all_slots_nonneg ts).
  apply (uwrap_small 32 ltac:(lia)). rewrite len_app in Hl. pose proof (len_nonneg (41 :: return_descr ret)). unfold in_u. lia.
Qed.
End Signatures.

Lemma names_weaken (P Q : Z -> Prop) t : (forall c, P c -> Q c) -> names_ok P t -> names_ok Q t.
Proof. intros H. induction t as [p|name|t IH]; [done| |done]. cbn. by apply Forall_impl. Qed.
Lemma legal_no_semicolon t : legal_type t -> names_ok no_semicolon t.
Proof. intros [H _]. eapply names_weaken; [|exact H]. by intros c [??]. Qed.

(* ------------------------------------------------------------------ *)
(** ** Theorems on signatures *)

Section Theorems.
Context (_major_version : Z) (isJavaIdentifierStart isJavaIdentifierPart : Z -> option bool).
Abbreviation verify name sig := (verify_legal_method_signature _major_version true isJavaIdentifierStart isJavaIdentifierPart name sig).

(** C8: the check of a method signature ends and stays in its buffer on every string; what it accepts is a word of the grammar
    that says how many slots the arguments take, and initializers return nothing; from version 49 on it accepts every such
    word, with class names of any characters but semicolons and dots and at most 255 dimensions. *)
Theorem method_signature_spec name sig : Forall is_byte sig -> len sig < 2 ^ 16 -> exists r, verify name sig = Some r /\
  (forall n, r = Done n -> exists ts ret, sig = method_descr ts ret /\ n = all_slots ts /\ legal_method name ts ret) /\
  (JAVA_1_5_VERSION <= _major_version -> forall ts ret, sig = method_descr ts ret -> legal_method name ts ret -> r = Done (all_slots ts)).
Proof.
  intros Hb Hl. destruct (verify_sound _major_version isJavaIdentifierStart isJavaIdentifierPart name sig Hb Hl) as (r & Hr & Hs).
  exists r. split_and!; [done|done|]. intros Hv ts ret -> Hm.
  rewrite (verify_complete _major_version isJavaIdentifierStart isJavaIdentifierPart name ts ret Hv Hb Hl Hm) in Hr. by injection Hr as <-.
Qed.

(** C7: a signature that was accepted is read within its bounds by the readers that go through all of it without looking at its length: the
    iterator and the stream find the same types, in order, with the places of their characters, and the sizes agree with
    the one the check computed.  The reader that skips the parameters finds the type of the result if no class name among
    them has a right parenthesis in it; [parenthesis_in_class_name] shows that it may not otherwise. *)
Theorem accepted_signature_safe name sig n it : Forall is_byte sig -> len sig < 2 ^ 16 -> verify name sig = Some (Done n) ->
  exists ts ret, sig = method_descr ts ret /\
    iterate sig it = Some ({| _index := len sig; _parameter_index := 0; _return_type := return_basic ret |},
                           calls_for ts 1 ++ [call_return ret (len (descrs ts) + 2)]) /\
    stream_all sig true = Some (streams_for ts 1 ++ [stream_return ts ret]) /\
    ArgumentSizeComputer_size sig = Some n /\ n = all_slots ts /\
    (Forall (names_ok (fun c => c <> 41)) ts -> ResultTypeFinder_type sig = Some (return_basic ret)).
Proof.
  intros Hb Hl Hv. destruct (verify_sound _major_version isJavaIdentifierStart isJavaIdentifierPart name sig Hb Hl) as (r & Hr & Hs).
  rewrite Hv in Hr. injection Hr as <-. destruct (Hs n eq_refl) as (ts & ret & -> & -> & Hts & Hret & _). exists ts, ret.
  assert (Hts' : Forall (names_ok no_semicolon) ts) by (revert Hts; apply Forall_impl, legal_no_semicolon).
  assert (Hret' : from_option (names_ok no_semicolon) True ret) by (destruct ret; [by apply legal_no_semicolon|done]).
  assert (Hmax : all_slots ts < 2 ^ 31).
  { pose proof (slots_bound ts). unfold method_descr in Hl. rewrite len_cons, len_app in Hl. pose proof (len_nonneg (41 :: return_descr ret)). lia. }
  split_and!; [done|by apply iterate_signature_ok|by apply stream_all_ok| |done|].
  - unfold ArgumentSizeComputer_size. rewrite iterate_parameters_ok by done. cbn [mbind option_bind]. by rewrite size_fold by lia.
  - intros Hno. unfold ResultTypeFinder_type. rewrite (iterate_returntype_ok ts ret Hret') by done. cbn [mbind option_bind foldl].
    by destruct ret as [[[]| |]|].
Qed.
End Theorems.

(** No identifier beyond ASCII. *)
Definition no_identifier (_ : Z) : option bool := Some false.
Definition sample_name : list Z := [109].

Lemma sample_bytes : Forall is_byte (method_descr sample_ts sample_ret).
Proof. by apply (bool_decide_eq_true_1 _); vm_compute. Qed.

Lemma sample_legal : legal_method sample_name sample_ts sample_ret.
Proof.
  split; [|split; [|done]].
  - repeat constructor; cbn; unfold no_dot; try lia; repeat constructor; lia.
  - split; [|cbn; lia]. cbn. unfold no_dot. repeat constructor; lia.
Qed.

Lemma method_signature_spec_witness :
  verify_legal_method_signature 50 true no_identifier no_identifier sample_name (method_descr sample_ts sample_ret) = Some (Done 4).
Proof.
  destruct (method_signature_spec 50 no_identifier no_identifier sample_name (method_descr sample_ts sample_ret) sample_bytes ltac:(by vm_compute))
    as (r & Hr & _ & Hd).
  rewrite Hr. f_equal. apply (Hd ltac:(done) sample_ts sample_ret eq_refl sample_legal).
Defined.

Lemma accepted_signature_safe_witness : exists ts ret, method_descr sample_ts sample_ret = method_descr ts ret /\
  stream_all (method_descr sample_ts sample_ret) true = Some (streams_for ts 1 ++ [stream_return ts ret]) /\
  ArgumentSizeComputer_size (method_descr sample_ts sample_ret) = Some 4.
Proof.
  destruct (accepted_signature_safe 50 no_identifier no_identifier sample_name (method_descr sample_ts sample_ret) 4 new_iterator sample_bytes ltac:(by vm_compute)
    ltac:(by vm_compute)) as (ts & ret & H1 & _ & H2 & H3 & _).
  exists ts, ret. split; [exact H1|]. split; [exact H2|exact H3].
Defined.

(** The signature "(La)I;)V" is accepted, but the search for its return type stops inside the class name: the type of the result is an int. *)
Definition parenthesis_sig : list Z := [40; 76; 97; 41; 73; 59; 41; 86].
Theorem parenthesis_in_class_name :
  verify_legal_method_signature 50 true no_identifier no_identifier sample_name parenthesis_sig = Some (Done 1) /\
  ResultTypeFinder_type parenthesis_sig = Some T_INT /\
  (exists calls, iterate parenthesis_sig new_iterator = Some ({| _index := 8; _parameter_index := 0; _return_type := T_VOID |}, calls)).
Proof. split; [by vm_compute|]. split; [by vm_compute|]. eexists. by vm_compute. Qed.

(** Where an array has a size, the stream takes one character too many, and the iterator does not: "([3IJ)V". *)
Theorem stream_skips_sized_element : let sig := [40; 91; 51; 73; 74; 41; 86] in
  (exists it calls, iterate sig new_iterator = Some (it, calls) /\ call_type <$> calls = [T_ARRAY; T_LONG; T_VOID]) /\
  (exists l, stream_all sig true = Some l /\ _type <$> l = [T_ARRAY; T_VOID]).
Proof.
  cbv zeta. split.
  - eexists _, _. split; [by vm_compute|]. done.
  - eexists. split; [by vm_compute|]. done.
Qed.
