(* ===== verification/FormatCheckUtf8.v ===== *)
(** * FormatCheckUtf8: the strings and the names a class file may have

    [verify_legal_utf8] of [FormatCheck] accepts exactly what [UNICODE::convert_to_utf8] of [UTF8] produces, and the names of
    classes, fields and methods are legal by the characters they have. *)

From S2P Require Import Prelude GlobalDefs UTF8 FormatCheck Signature SignatureSpec FormatCheckSpec.

(* ------------------------------------------------------------------ *)
(** ** The fast loop *)

Definition ascii (b : Z) : Prop := 0 < b < 128.

Lemma ascii_bit b : in_u 8 b -> Z.testbit b 7 = false -> Z.testbit (b - 1) 7 = false -> ascii b.
Proof.
  intros Hb H1 H2. pose proof (byte_forall (fun b => implb (negb (Z.testbit b 7) && negb (Z.testbit (b - 1) 7)) ((0 <? b) && (b <? 128))) b eq_refl Hb) as H.
  cbn beta in H. rewrite H1, H2 in H. cbn [negb andb implb] in H. unfold ascii. lia.
Qed.

Lemma bit7_small x : u8 x < 128 -> Z.testbit x 7 = false.
Proof.
  intros Hx. pose proof (uwrap_range 8 ltac:(lia) x) as Hr. pose proof (uwrap_testbit 8 ltac:(lia) x 7 ltac:(lia)) as H. cbn [Z.ltb Z.compare Pos.compare Pos.compare_cont andb] in H.
  rewrite <- H. apply (in_u_testbit 7 ltac:(lia)); [unfold in_u in *; lia|lia].
Qed.

Lemma four_ascii b0 b1 b2 b3 : in_u 8 b0 -> in_u 8 b1 -> in_u 8 b2 -> in_u 8 b3 ->
  u8 (Z.lor (Z.lor (Z.lor (Z.lor (Z.lor (Z.lor (Z.lor b0 (b0 - 1)) b1) (b1 - 1)) b2) (b2 - 1)) b3) (b3 - 1)) < 128 ->
  Forall ascii [b0; b1; b2; b3].
Proof.
  intros H0 H1 H2 H3 Hr. apply bit7_small in Hr. rewrite !Z.lor_spec in Hr.
  repeat match goal with H : _ || _ = false |- _ => apply orb_false_iff in H as [? ?] end.
  repeat constructor; by apply ascii_bit.
Qed.

Lemma skip_ascii_ok count : forall l s r, Forall (in_u 8) s -> 4 * Z.of_nat count <= len s -> exists n s',
  skip_ascii count (l ++ s ++ r) (len l) = Some (len l + len n) /\ s = n ++ s' /\ Forall ascii n.
Proof.
  induction count as [|count IH]; intros l s r Hs Hl.
  { exists [], s. split_and!; [cbn; f_equal; unfold len; cbn; lia|done|constructor]. }
  destruct s as [|b0 [|b1 [|b2 [|b3 s]]]]; try (unfold len in Hl; cbn in Hl; lia).
  repeat match goal with H : Forall _ (_ :: _) |- _ => apply list.Forall_cons in H as [? H] end. cbn [skip_ascii app].
  rewrite (arr_at l). change (l ++ b0 :: b1 :: b2 :: b3 :: s ++ r) with (l ++ [b0] ++ [b1] ++ [b2] ++ b3 :: s ++ r).
  assert (E1 : arr_get (l ++ [b0] ++ [b1] ++ [b2] ++ b3 :: s ++ r) (len l + 1) = Some b1).
  { rewrite (assoc_L (++) l [b0]). apply arr_at'. by rewrite len_snoc. }
  assert (E2 : arr_get (l ++ [b0] ++ [b1] ++ [b2] ++ b3 :: s ++ r) (len l + 2) = Some b2).
  { rewrite (assoc_L (++) l [b0]), (assoc_L (++) _ [b1]). apply arr_at'. rewrite !len_snoc. lia. }
  assert (E3 : arr_get (l ++ [b0] ++ [b1] ++ [b2] ++ b3 :: s ++ r) (len l + 3) = Some b3).
  { rewrite (assoc_L (++) l [b0]), (assoc_L (++) _ [b1]), (assoc_L (++) _ [b2]). apply arr_at'. rewrite !len_snoc. lia. }
  cbn [mbind option_bind]. rewrite E1. cbn [mbind option_bind]. rewrite E2. cbn [mbind option_bind]. rewrite E3. cbn [mbind option_bind].
  destruct (128 <=? _) eqn:Hr.
  { exists [], (b0 :: b1 :: b2 :: b3 :: s). split_and!; [f_equal; unfold len; cbn; lia|done|constructor]. }
  apply Z.leb_gt in Hr. destruct (IH (l ++ [b0; b1; b2; b3]) s r Hs) as (n & s' & Hi & -> & Hn).
  { rewrite !len_cons in Hl. lia. }
  exists ([b0; b1; b2; b3] ++ n), s'. rewrite len_app in Hi. change (len [b0; b1; b2; b3]) with 4 in Hi.
  rewrite <- (assoc_L (++) l) in Hi. split_and!; [|done|].
  - etransitivity; [exact Hi|]. f_equal. rewrite len_app. change (len [b0; b1; b2; b3]) with 4. lia.
  - apply list.Forall_app. split; [by apply four_ascii|done].
Qed.

(* ------------------------------------------------------------------ *)
(** ** The characters *)

Lemma arr_in B l s r k b : B = l ++ s ++ r -> s !! k = Some b -> arr_get B (len l + Z.of_nat k) = Some b.
Proof.
  intros -> Hk. unfold arr_get, len. rewrite (proj2 (Z.leb_le 0 _)) by lia. rewrite <- Nat2Z.inj_add, Nat2Z.id.
  rewrite lookup_app_r by lia. replace (length l + k - length l)%nat with k by lia.
  rewrite lookup_app_l; [done|]. by apply lookup_lt_is_Some_1.
Qed.

(** The value of two and of three bytes, as [next] has it. *)
Definition two (b0 b1 : Z) : Z := (b0 - 192) * 64 + (b1 - 128).
Definition three (b0 b1 b2 : Z) : Z := ((b0 - 224) * 64 + (b1 - 128)) * 64 + (b2 - 128).

Lemma lead_1 b : tail_bytes b = 1 -> 192 <= b < 224.
Proof. unfold tail_bytes. repeat case_match; lia. Qed.
Lemma lead_2 b : tail_bytes b = 2 -> 224 <= b < 240.
Proof. unfold tail_bytes. repeat case_match; lia. Qed.
Lemma lead_1_intro b : 192 <= b < 224 -> tail_bytes b = 1.
Proof. unfold tail_bytes. intros. repeat case_match; lia. Qed.
Lemma lead_2_intro b : 224 <= b < 240 -> tail_bytes b = 2.
Proof. unfold tail_bytes. intros. repeat case_match; lia. Qed.

(** The bytes of a character, and that they are the only ones. *)
Lemma char_cases c : in_u 16 c ->
  (ascii c /\ utf8_bytes c = [c]) \/
  (exists b0 b1, utf8_bytes c = [b0; b1] /\ tail_bytes b0 = 1 /\ is_cont b1 = true /\ two b0 b1 = c /\ (c = 0 \/ 128 <= c)) \/
  (exists b0 b1 b2, utf8_bytes c = [b0; b1; b2] /\ tail_bytes b0 = 2 /\ is_cont b1 = true /\ is_cont b2 = true /\
     three b0 b1 b2 = c /\ 2048 <= c).
Proof.
  unfold in_u, utf8_bytes. intros Hc. pose proof (Z.mod_pos_bound c 64). pose proof (Z.mod_pos_bound (c / 64) 64).
  pose proof (Z.div_mod c 64). pose proof (Z.div_mod (c / 64) 64). assert (Hd : c / 64 / 64 = c / 4096) by by rewrite Z.div_div.
  assert (Hq : 0 <= c / 64) by (apply Z.div_pos; lia). assert (Hq2 : 0 <= c / 4096 < 16) by (split; [apply Z.div_pos|apply Z.div_lt_upper_bound]; lia).
  destruct ((1 <=? c) && (c <=? 127)) eqn:E1; [left; split; [unfold ascii; lia|done]|]. destruct (c <=? 2047) eqn:E2; right; [left|right].
  - assert (c / 64 < 32) by (apply Z.div_lt_upper_bound; lia). eexists _, _. split; [done|]. unfold two, is_cont. split_and!; try lia.
    apply lead_1_intro. lia.
  - eexists _, _, _. split; [done|]. unfold three, is_cont. split_and!; try lia. apply lead_2_intro. lia.
Qed.

Lemma two_bytes b0 b1 : tail_bytes b0 = 1 -> is_cont b1 = true -> two b0 b1 = 0 \/ 128 <= two b0 b1 ->
  in_u 16 (two b0 b1) /\ utf8_bytes (two b0 b1) = [b0; b1].
Proof.
  intros H0%lead_1 H1 Hv. unfold is_cont in H1. assert (Hr : 0 <= two b0 b1 < 2048) by (unfold two; lia). split; [unfold in_u; lia|].
  unfold utf8_bytes. destruct ((1 <=? _) && _) eqn:E; [lia|]. rewrite (proj2 (Z.leb_le _ _)) by lia.
  assert (Hd : two b0 b1 / 64 = b0 - 192) by (symmetry; apply (Z.div_unique _ _ _ (b1 - 128)); unfold two; lia).
  assert (Hm : two b0 b1 mod 64 = b1 - 128) by (symmetry; apply (Z.mod_unique _ _ (b0 - 192)); unfold two; lia).
  rewrite Hd, Hm. repeat f_equal; lia.
Qed.

Lemma three_bytes_of b0 b1 b2 : tail_bytes b0 = 2 -> is_cont b1 = true -> is_cont b2 = true -> 2048 <= three b0 b1 b2 ->
  in_u 16 (three b0 b1 b2) /\ utf8_bytes (three b0 b1 b2) = [b0; b1; b2].
Proof.
  intros H0%lead_2 H1 H2 Hv. unfold is_cont in H1, H2. assert (Hr : three b0 b1 b2 < 2 ^ 16) by (unfold three; lia). split; [unfold in_u; lia|].
  unfold utf8_bytes. destruct ((1 <=? _) && _) eqn:E; [lia|]. rewrite (proj2 (Z.leb_gt _ _)) by lia.
  assert (Hd : three b0 b1 b2 / 64 = (b0 - 224) * 64 + (b1 - 128)) by (symmetry; apply (Z.div_unique _ _ _ (b2 - 128)); unfold three; lia).
  assert (Hm : three b0 b1 b2 mod 64 = b2 - 128) by (symmetry; apply (Z.mod_unique _ _ ((b0 - 224) * 64 + (b1 - 128))); unfold three; lia).
  assert (Hd2 : three b0 b1 b2 / 4096 = b0 - 224) by (symmetry; apply (Z.div_unique _ _ _ ((b1 - 128) * 64 + (b2 - 128))); unfold three; lia).
  rewrite Hd2, Hd, Hm. assert (Hm2 : ((b0 - 224) * 64 + (b1 - 128)) mod 64 = b1 - 128) by (symmetry; apply (Z.mod_unique _ _ (b0 - 224)); lia).
  rewrite Hm2. repeat f_equal; lia.
Qed.

(** The characters the loop computes. *)
Lemma loop_two b0 b1 : tail_bytes b0 = 1 -> is_cont b1 = true -> u16 (u16 (Z.shiftl (Z.land b0 0x1F) 6) + Z.land b1 0x3F) = two b0 b1.
Proof.
  intros H0%lead_1 H1. unfold is_cont in H1. change 0x1F with (Z.ones 5). change 0x3F with (Z.ones 6). rewrite !land_low by lia.
  change (2 ^ 5) with 32. change (2 ^ 6) with 64. rewrite Z.shiftl_mul_pow2 by lia. change (2 ^ 6) with 64.
  assert (E0 : b0 mod 32 = b0 - 192) by (symmetry; apply (Z.mod_unique _ _ 6); lia).
  assert (E1 : b1 mod 64 = b1 - 128) by (symmetry; apply (Z.mod_unique _ _ 2); lia).
  rewrite E0, E1. rewrite (uwrap_small 16 ltac:(lia) ((b0 - 192) * 64)) by (unfold in_u; lia).
  rewrite (uwrap_small 16 ltac:(lia)) by (unfold in_u; lia). done.
Qed.

Lemma loop_three b0 b1 b2 : tail_bytes b0 = 2 -> is_cont b1 = true -> is_cont b2 = true ->
  u16 (u16 (Z.shiftl (Z.land b0 0xF) 12) + (Z.shiftl (Z.land b1 0x3F) 6 + Z.land b2 0x3F)) = three b0 b1 b2.
Proof.
  intros H0%lead_2 H1 H2. unfold is_cont in H1, H2. change 0xF with (Z.ones 4). change 0x3F with (Z.ones 6). rewrite !land_low by lia.
  change (2 ^ 4) with 16. change (2 ^ 6) with 64. rewrite !Z.shiftl_mul_pow2 by lia. change (2 ^ 6) with 64. change (2 ^ 12) with 4096.
  assert (E0 : b0 mod 16 = b0 - 224) by (symmetry; apply (Z.mod_unique _ _ 14); lia).
  assert (E1 : b1 mod 64 = b1 - 128) by (symmetry; apply (Z.mod_unique _ _ 2); lia).
  assert (E2 : b2 mod 64 = b2 - 128) by (symmetry; apply (Z.mod_unique _ _ 2); lia).
  rewrite E0, E1, E2. rewrite (uwrap_small 16 ltac:(lia) ((b0 - 224) * 4096)) by (unfold in_u; lia).
  rewrite (uwrap_small 16 ltac:(lia)) by (unfold in_u; lia). unfold three. lia.
Qed.

(* ------------------------------------------------------------------ *)
(** ** The slow loop *)

(** The test for a surrogate pair where six bytes are left. *)
Lemma supplementary_ok B l s r : B = l ++ s ++ r -> Forall (in_u 8) s -> (6 <= length s)%nat -> exists sb,
  is_supplementary_character B (len l) = Some sb /\
  (sb = true -> exists c d e f s', s = 0xED :: c :: d :: 0xED :: e :: f :: s' /\ is_cont c = true /\ is_cont d = true /\
     is_cont e = true /\ is_cont f = true /\ 160 <= c /\ 160 <= e).
Proof.
  intros HB Hs Hl. destruct s as [|a [|c [|d [|b [|e [|f s]]]]]]; try (cbn in Hl; lia).
  repeat match goal with H : Forall _ (_ :: _) |- _ => apply list.Forall_cons in H as [? H] end.
  set (s0 := a :: c :: d :: b :: e :: f :: s) in *.
  pose proof (arr_in B l s0 r 0 a HB eq_refl) as E0. pose proof (arr_in B l s0 r 1 c HB eq_refl) as E1.
  pose proof (arr_in B l s0 r 2 d HB eq_refl) as E2. pose proof (arr_in B l s0 r 3 b HB eq_refl) as E3.
  pose proof (arr_in B l s0 r 4 e HB eq_refl) as E4. pose proof (arr_in B l s0 r 5 f HB eq_refl) as E5.
  change (Z.of_nat 0) with 0 in E0. rewrite Z.add_0_r in E0. change (Z.of_nat 1) with 1 in E1. change (Z.of_nat 2) with 2 in E2.
  change (Z.of_nat 3) with 3 in E3. change (Z.of_nat 4) with 4 in E4. change (Z.of_nat 5) with 5 in E5.
  unfold is_supplementary_character. rewrite E0. cbn [mbind option_bind].
  destruct (Z.eqb_spec (Z.land a 0xFF) 0xED) as [Ha|]; cbn [negb]; [|by exists false]. rewrite E1. cbn [mbind option_bind].
  destruct (Z.eqb_spec (Z.land c 0xF0) 0xA0) as [Hc|]; cbn [negb]; [|by exists false]. rewrite E2. cbn [mbind option_bind].
  rewrite cont_test by done. destruct (is_cont d) eqn:Hd; cbn [negb]; [|by exists false]. rewrite E3. cbn [mbind option_bind].
  destruct (Z.eqb_spec (Z.land b 0xFF) 0xED) as [Hb|]; cbn [negb]; [|by exists false]. rewrite E4. cbn [mbind option_bind].
  destruct (Z.eqb_spec (Z.land e 0xF0) 0xB0) as [He|]; cbn [negb]; [|by exists false]. rewrite E5. cbn [mbind option_bind].
  rewrite cont_test by done. eexists. split; [done|]. intros Hf. exists c, d, e, f, s.
  assert (Hlow : forall x, in_u 8 x -> Z.land x 0xFF = x).
  { intros x Hx. change 0xFF with (Z.ones 8). rewrite land_low by lia. apply Z.mod_small. done. }
  rewrite Hlow in Ha, Hb by done. subst a b.
  assert (Hnib : forall x, in_u 8 x -> (Z.land x 0xF0 = 0xA0 -> 160 <= x < 176) /\ (Z.land x 0xF0 = 0xB0 -> 176 <= x < 192)).
  { intros x Hx. pose proof (byte_forall (fun x => implb (Z.land x 0xF0 =? 0xA0) ((160 <=? x) && (x <? 176)) &&
      implb (Z.land x 0xF0 =? 0xB0) ((176 <=? x) && (x <? 192))) x eq_refl Hx) as Hand. cbn beta in Hand. apply andb_prop in Hand as [HA HB'].
    split; intros Hx'; rewrite Hx' in *; cbn in HA, HB'; lia. }
  apply Hnib in Hc; [|done]. apply Hnib in He; [|done]. unfold is_cont. split_and!; try done; lia.
Qed.

Section Loop.
Context (_major_version : Z) (Hv : 47 < _major_version) (B r : list Z).
Abbreviation loop fuel l s := (utf8_loop _major_version fuel B (len (l ++ s)) (len l)).

Lemma shift_buffer l c s : l ++ (c ++ s) ++ r = (l ++ c) ++ s ++ r.
Proof. by rewrite <- !(assoc_L (++)). Qed.

(** Behind the bytes [c] of a character. *)
Lemma go_on fuel l c s i : i = len (l ++ c) ->
  utf8_loop _major_version fuel B (len (l ++ c ++ s)) i = loop fuel (l ++ c) s.
Proof. intros ->. by rewrite (assoc_L (++)). Qed.

Lemma loop_ascii fuel l b s : B = l ++ (b :: s) ++ r -> ascii b -> loop (S fuel) l (b :: s) = loop fuel (l ++ [b]) s.
Proof.
  intros HB Hb. unfold ascii in Hb. cbn [utf8_loop]. rewrite len_app, len_cons, (proj2 (Z.ltb_lt _ _)) by (pose proof (len_nonneg s); lia).
  pose proof (arr_in B l (b :: s) r 0 b HB eq_refl) as E0. rewrite Z.add_0_r in E0. rewrite E0. cbn [mbind option_bind].
  rewrite (proj2 (Z.eqb_neq b 0)), (proj2 (Z.ltb_lt b 128)) by lia. rewrite <- (len_cons b s), <- len_app.
  apply (go_on fuel l [b] s). by rewrite len_snoc.
Qed.

(** Without the test for a pair. *)
Definition no_pair (l s : list Z) : Prop :=
  (if len l + 5 <? len (l ++ s) then is_supplementary_character B (len l) else Some false) = Some false.

Lemma loop_start fuel l b s : B = l ++ (b :: s) ++ r -> 128 <= b -> no_pair l (b :: s) ->
  loop (S fuel) l (b :: s) =
    (let sw := Z.shiftr b 4 in
     if (sw =? 0x8) || (sw =? 0x9) || (sw =? 0xA) || (sw =? 0xB) || (sw =? 0xF) then Some (Throw IllegalUTF8)
     else if (sw =? 0xC) || (sw =? 0xD) then
       let i := len l + 1 in
       if i <? len (l ++ b :: s) then
         b1 ← arr_get B i;
         let c := u16 (u16 (Z.shiftl (Z.land b 0x1F) 6) + Z.land b1 0x3F) in
         if (Z.land b1 0xC0 =? 0x80) && ((_major_version <=? 47) || (c =? 0) || (0x80 <=? c))
         then utf8_loop _major_version fuel B (len (l ++ b :: s)) (i + 1) else Some (Throw IllegalUTF8)
       else Some (Throw IllegalUTF8)
     else if sw =? 0xE then
       let i := len l + 2 in
       if i <? len (l ++ b :: s) then
         b1 ← arr_get B (i - 1); b2 ← arr_get B i;
         let c := u16 (u16 (Z.shiftl (Z.land b 0xF) 12) + (Z.shiftl (Z.land b1 0x3F) 6 + Z.land b2 0x3F)) in
         if (Z.land b1 0xC0 =? 0x80) && (Z.land b2 0xC0 =? 0x80) && ((_major_version <=? 47) || (0x800 <=? c))
         then utf8_loop _major_version fuel B (len (l ++ b :: s)) (i + 1) else Some (Throw IllegalUTF8)
       else Some (Throw IllegalUTF8)
     else utf8_loop _major_version fuel B (len (l ++ b :: s)) (len l + 1)).
Proof.
  intros HB Hb Hno. unfold no_pair in Hno. cbn [utf8_loop].
  assert (Hlt : len l < len (l ++ b :: s)) by (rewrite len_app, len_cons; pose proof (len_nonneg s); lia). rewrite (proj2 (Z.ltb_lt _ _) Hlt).
  pose proof (arr_in B l (b :: s) r 0 b HB eq_refl) as E0. rewrite Z.add_0_r in E0. rewrite E0. cbn [mbind option_bind].
  rewrite (proj2 (Z.eqb_neq b 0)), (proj2 (Z.ltb_ge b 128)) by lia. rewrite Hno. cbn [mbind option_bind]. done.
Qed.

Lemma no_pair_start l b s : B = l ++ (b :: s) ++ r -> in_u 8 b -> b <> 0xED -> no_pair l (b :: s).
Proof.
  intros HB Hb Hne. unfold no_pair. destruct (_ <? _); [|done]. unfold is_supplementary_character.
  pose proof (arr_in B l (b :: s) r 0 b HB eq_refl) as E0. rewrite Z.add_0_r in E0. rewrite E0. cbn [mbind option_bind].
  change 0xFF with (Z.ones 8). rewrite land_low, Z.mod_small by (lia || exact Hb). by rewrite (proj2 (Z.eqb_neq _ _) Hne).
Qed.

Lemma loop_bad fuel l b s : B = l ++ (b :: s) ++ r -> in_u 8 b -> is_cont b || (240 <=? b) = true ->
  loop (S fuel) l (b :: s) = Some (Throw IllegalUTF8).
Proof.
  intros HB Hb Hbad. rewrite loop_start; [|done|unfold is_cont in Hbad; lia|apply no_pair_start; [done..|unfold is_cont in Hbad; lia]].
  destruct (next_case b Hb) as (E1 & _). cbv zeta in *. by rewrite E1, Hbad.
Qed.

Lemma loop_two_ok fuel l b0 s : B = l ++ (b0 :: s) ++ r -> Forall (in_u 8) (b0 :: s) -> tail_bytes b0 = 1 ->
  loop (S fuel) l (b0 :: s) =
    match s with
    | b1 :: s => if is_cont b1 && ((two b0 b1 =? 0) || (128 <=? two b0 b1)) then loop fuel (l ++ [b0; b1]) s else Some (Throw IllegalUTF8)
    | [] => Some (Throw IllegalUTF8)
    end.
Proof using Hv.
  intros HB Hs Ht. pose proof (lead_1 b0 Ht) as Hr. apply list.Forall_cons in Hs as [Hb Hs].
  rewrite loop_start; [|done|lia|apply no_pair_start; [done..|lia]]. destruct (next_case b0 Hb) as (E1 & E2 & _). cbv zeta in *.
  rewrite E1, E2, tail_not_bad, Ht by lia. cbn [Z.eqb Pos.eqb]. destruct s as [|b1 s].
  { rewrite len_snoc. by rewrite Z.ltb_irrefl. }
  rewrite (proj2 (Z.ltb_lt _ _)) by (rewrite len_app, !len_cons; pose proof (len_nonneg s); lia).
  pose proof (arr_in B l (b0 :: b1 :: s) r 1 b1 HB eq_refl) as A1. change (Z.of_nat 1) with 1 in A1. rewrite A1. cbn [mbind option_bind].
  apply list.Forall_cons in Hs as [Hb1 Hs]. rewrite cont_test by done. destruct (is_cont b1) eqn:Hc; [|done]. cbn [andb].
  rewrite loop_two, (proj2 (Z.leb_gt _ 47)) by (done || lia). cbn [orb]. destruct ((two b0 b1 =? 0) || (128 <=? two b0 b1)); [|done].
  apply (go_on fuel l [b0; b1] s). rewrite len_app. change (len [b0; b1]) with 2. lia.
Qed.

Lemma loop_three_ok fuel l b0 s : B = l ++ (b0 :: s) ++ r -> Forall (in_u 8) (b0 :: s) -> tail_bytes b0 = 2 -> no_pair l (b0 :: s) ->
  loop (S fuel) l (b0 :: s) =
    match s with
    | b1 :: b2 :: s =>
        if is_cont b1 && is_cont b2 && (2048 <=? three b0 b1 b2) then loop fuel (l ++ [b0; b1; b2]) s else Some (Throw IllegalUTF8)
    | _ => Some (Throw IllegalUTF8)
    end.
Proof using Hv.
  intros HB Hs Ht Hno. pose proof (lead_2 b0 Ht) as Hr. apply list.Forall_cons in Hs as [Hb Hs]. rewrite loop_start by (done || lia).
  destruct (next_case b0 Hb) as (E1 & E2 & E3). cbv zeta in *. rewrite E1, E2, E3, tail_not_bad, Ht by lia. cbn [Z.eqb Pos.eqb].
  destruct s as [|b1 [|b2 s]].
  { rewrite len_snoc. by rewrite (proj2 (Z.ltb_ge _ _)) by lia. }
  { rewrite len_app. change (len [b0; b1]) with 2. by rewrite Z.ltb_irrefl. }
  rewrite (proj2 (Z.ltb_lt _ _)) by (rewrite len_app, !len_cons; pose proof (len_nonneg s); lia).
  pose proof (arr_in B l (b0 :: b1 :: b2 :: s) r 1 b1 HB eq_refl) as A1. change (Z.of_nat 1) with 1 in A1.
  pose proof (arr_in B l (b0 :: b1 :: b2 :: s) r 2 b2 HB eq_refl) as A2. change (Z.of_nat 2) with 2 in A2.
  replace (len l + 2 - 1) with (len l + 1) by lia. rewrite A1. cbn [mbind option_bind]. rewrite A2. cbn [mbind option_bind].
  repeat match goal with H : Forall _ (_ :: _) |- _ => apply list.Forall_cons in H as [? H] end. rewrite !cont_test by done.
  destruct (is_cont b1) eqn:Hc1; [|done]. destruct (is_cont b2) eqn:Hc2; [|done]. cbn [andb].
  rewrite loop_three, (proj2 (Z.leb_gt _ 47)) by (done || lia). cbn [orb]. destruct (2048 <=? _); [|done].
  apply (go_on fuel l [b0; b1; b2] s). rewrite len_app. change (len [b0; b1; b2]) with 3. lia.
Qed.

(** A pair is skipped at once. *)
Lemma pair_cases l b s : B = l ++ (b :: s) ++ r -> Forall (in_u 8) (b :: s) -> no_pair l (b :: s) \/
  exists c d e f s', b :: s = [0xED; c; d; 0xED; e; f] ++ s' /\ is_cont c = true /\ is_cont d = true /\ is_cont e = true /\ is_cont f = true /\
    160 <= c /\ 160 <= e /\ forall fuel, loop (S fuel) l (b :: s) = loop fuel (l ++ [0xED; c; d; 0xED; e; f]) s'.
Proof.
  intros HB Hs. unfold no_pair. destruct (len l + 5 <? len (l ++ b :: s)) eqn:Hl; [|by left].
  assert (H6 : (6 <= length (b :: s))%nat) by (rewrite len_app in Hl; unfold len in Hl; lia).
  destruct (supplementary_ok B l (b :: s) r HB Hs H6) as ([] & Hsup & Hpair); [right|by left].
  destruct (Hpair eq_refl) as (c & d & e & f & s' & He & Hc & Hd & Hee & Hf & Hc1 & He1). exists c, d, e, f, s'. rewrite He in *.
  injection He as -> ->. split_and!; try done. intros fuel. cbn [utf8_loop].
  assert (Hlt : len l < len (l ++ 237 :: c :: d :: 237 :: e :: f :: s')) by lia. rewrite (proj2 (Z.ltb_lt _ _) Hlt).
  pose proof (arr_in B l _ r 0 237 HB eq_refl) as E0. rewrite Z.add_0_r in E0. rewrite E0. cbn [mbind option_bind].
  change (237 =? 0) with false. change (237 <? 128) with false. cbn iota. rewrite Hl, Hsup. cbn [mbind option_bind].
  apply (go_on fuel l [0xED; c; d; 0xED; e; f] s'). rewrite len_app. change (len [0xED; c; d; 0xED; e; f]) with 6. lia.
Qed.

Lemma loop_end fuel l : loop fuel l [] = Some (Done tt).
Proof. destruct fuel; cbn [utf8_loop]; by rewrite app_nil_r, Z.ltb_irrefl. Qed.

Lemma loop_zero fuel l s : B = l ++ (0 :: s) ++ r -> loop (S fuel) l (0 :: s) = Some (Throw IllegalUTF8).
Proof.
  intros HB. cbn [utf8_loop]. rewrite len_app, len_cons, (proj2 (Z.ltb_lt _ _)) by (pose proof (len_nonneg s); lia).
  pose proof (arr_in B l (0 :: s) r 0 0 HB eq_refl) as E0. rewrite Z.add_0_r in E0. rewrite E0. done.
Qed.

Definition legal_or_not (s : list Z) (res : option (Checked unit)) : Prop :=
  (res = Some (Done tt) /\ exists us, Forall (in_u 16) us /\ s = encode us) \/ res = Some (Throw IllegalUTF8).

Lemma legal_cons c s res : in_u 16 c -> legal_or_not s res -> legal_or_not (utf8_bytes c ++ s) res.
Proof.
  intros Hc [[-> (us & Hus & ->)]|H]; [left; split; [done|]|by right]. exists (c :: us). split; [by constructor|]. by rewrite encode_cons.
Qed.

Lemma ascii_bytes c : ascii c -> in_u 16 c /\ utf8_bytes c = [c].
Proof. unfold ascii, in_u, utf8_bytes. intros H. split; [lia|]. destruct ((1 <=? c) && (c <=? 127)) eqn:E; [done|lia]. Qed.

Lemma utf8_sound fuel : forall l s, B = l ++ s ++ r -> Forall (in_u 8) s -> (length s <= fuel)%nat -> legal_or_not s (loop fuel l s).
Proof using Hv.
  induction fuel as [|fuel IH]; intros l s HB Hs Hf; (destruct s as [|b s]; [rewrite loop_end; left; split; [done|]; by exists []|]); [cbn in Hf; lia|].
  pose proof (proj1 (list.Forall_cons _ b s) Hs) as [Hb Hs']. destruct (decide (b = 0)) as [->|Hb0]; [rewrite loop_zero by done; by right|].
  destruct (decide (b < 128)) as [Hlow|Hlow].
  { assert (Ha : ascii b) by (unfold ascii, in_u in *; lia). rewrite loop_ascii by done. destruct (ascii_bytes b Ha) as [Hin Hbytes].
    pose proof (legal_cons b s (loop fuel (l ++ [b]) s) Hin) as H. rewrite Hbytes in H. apply H. apply IH; [by rewrite HB, <- (assoc_L (++) l)|done|cbn in Hf; lia]. }
  destruct (decide (tail_bytes b = 1)) as [Ht|Ht1].
  { rewrite loop_two_ok by done. destruct s as [|b1 s]; [by right|]. apply list.Forall_cons in Hs' as [_ Hs'].
    destruct (is_cont b1 && _) eqn:E; [|by right]. apply andb_prop in E as [Hc Hval].
    destruct (two_bytes b b1 Ht Hc) as [Hin Hbytes]; [lia|]. pose proof (legal_cons _ s (loop fuel (l ++ [b; b1]) s) Hin) as H. rewrite Hbytes in H.
    apply H, IH; [by rewrite HB, <- (assoc_L (++) l)|done|cbn in Hf; lia]. }
  destruct (decide (tail_bytes b = 2)) as [Ht|Ht2].
  2: { rewrite loop_bad; [by right|done..|]. unfold tail_bytes, is_cont, in_u in *. repeat case_match; lia. }
  destruct (pair_cases l b s HB Hs) as [Hno|(c & d & e & f & s' & He & Hc & Hd & Hee & Hf' & Hc1 & He1 & Hgo)].
  - rewrite loop_three_ok by done. destruct s as [|b1 [|b2 s]]; [by right..|]. destruct (_ && _ && _) eqn:E; [|by right].
    apply andb_prop in E as [[Hc1 Hc2]%andb_prop Hval]. destruct (three_bytes_of b b1 b2 Ht Hc1 Hc2) as [Hin Hbytes]; [lia|].
    pose proof (legal_cons _ s (loop fuel (l ++ [b; b1; b2]) s) Hin) as H. rewrite Hbytes in H.
    apply H, IH; [by rewrite HB, <- (assoc_L (++) l)|by do 2 apply list.Forall_cons in Hs' as [_ Hs']|cbn in Hf; lia].
  - rewrite Hgo. rewrite He in *. assert (T : forall x y, is_cont x = true -> is_cont y = true -> 160 <= x ->
      in_u 16 (three 237 x y) /\ utf8_bytes (three 237 x y) = [237; x; y]).
    { intros x y Hx Hy Hx1. apply three_bytes_of; try done. unfold three, is_cont in *. lia. }
    destruct (T c d Hc Hd Hc1) as [I1 B1]. destruct (T e f Hee Hf' He1) as [I2 B2].
    pose proof (legal_cons _ _ (loop fuel (l ++ [237; c; d; 237; e; f]) s') I1 (legal_cons _ _ _ I2 (IH (l ++ [237; c; d; 237; e; f]) s' ltac:(by rewrite HB, <- (assoc_L (++) l))
      ltac:(by apply list.Forall_app in Hs as [_ ?]) ltac:(rewrite length_app in Hf; cbn in Hf; lia)))) as H. rewrite B1, B2 in H. exact H.
Qed.

Lemma utf8_complete fuel : forall l us, B = l ++ encode us ++ r -> Forall (in_u 16) us -> (length (encode us) <= fuel)%nat ->
  loop fuel l (encode us) = Some (Done tt).
Proof using Hv.
  induction fuel as [|fuel IH]; intros l us HB Hus Hf; (destruct us as [|c us]; [apply loop_end|]); rewrite encode_cons in *.
  { pose proof (char_cases c) as Hc. apply list.Forall_cons in Hus as [Hcu _]. rewrite length_app in Hf.
    destruct (Hc Hcu) as [[_ E]|[(? & ? & E & _)|(? & ? & ? & E & _)]]; rewrite E in Hf; cbn in Hf; lia. }
  assert (H8 : Forall (in_u 8) (utf8_bytes c ++ encode us)).
  { rewrite <- encode_cons. eapply Forall_impl; [apply is_byte_in_u|by apply encode_bytes]. }
  apply list.Forall_cons in Hus as [Hcu Hus]. rewrite length_app in Hf.
  destruct (char_cases c Hcu) as [[Ha E]|[(b0 & b1 & E & Ht & Hc & Hval & Hr)|(b0 & b1 & b2 & E & Ht & Hc1 & Hc2 & Hval & Hr)]]; rewrite E in *; cbn [app] in *.
  - rewrite loop_ascii by done. apply IH; [by rewrite HB, <- (assoc_L (++) l)|done|cbn in Hf; lia].
  - rewrite loop_two_ok, Hc, Hval by done. replace ((c =? 0) || (128 <=? c)) with true by lia. cbn [andb].
    apply IH; [by rewrite HB, <- (assoc_L (++) l)|done|cbn in Hf; lia].
  - destruct (pair_cases l b0 (b1 :: b2 :: encode us) HB H8) as [Hno|(x & y & e & f & s' & He & _ & _ & Hee & Hf' & _ & _ & Hgo)].
    + rewrite loop_three_ok, Hc1, Hc2, Hval by done. rewrite (proj2 (Z.leb_le 2048 c)) by lia. cbn [andb].
      apply IH; [by rewrite HB, <- (assoc_L (++) l)|done|cbn in Hf; lia].
    + rewrite Hgo. injection He as -> -> -> He. destruct us as [|c' us]; [done|]. rewrite encode_cons in He. apply list.Forall_cons in Hus as [Hcu' Hus].
      destruct (char_cases c' Hcu') as [[Ha' E']|[(? & ? & E' & Ht' & _)|(? & ? & ? & E' & _)]]; rewrite E' in He; cbn [app] in He; injection He.
      * intros _ ->. unfold ascii in Ha'. lia.
      * intros _ _ ->. done.
      * intros <- -> -> ->. apply IH; [|done|].
        -- rewrite HB, encode_cons, E', <- (assoc_L (++) l). done.
        -- rewrite encode_cons, E', length_app in Hf. cbn in Hf. lia.
Qed.
End Loop.

(* ------------------------------------------------------------------ *)
(** ** Strings *)

Definition encoding (s : list Z) : Prop := exists us, Forall (in_u 16) us /\ s = encode us.

Lemma encoding_ascii b s : ascii b -> encoding (b :: s) <-> encoding s.
Proof.
  intros Hb. split; intros (us & Hus & Hs).
  - destruct us as [|c us]; [done|]. rewrite encode_cons in Hs. apply list.Forall_cons in Hus as [Hc Hus]. unfold ascii in Hb.
    destruct (char_cases c Hc) as [[_ E]|[(b0 & b1 & E & Ht & _)|(b0 & b1 & b2 & E & Ht & _)]]; rewrite E in Hs; cbn [app] in Hs; injection Hs as -> Hs.
    + by exists us.
    + apply lead_1 in Ht. lia.
    + apply lead_2 in Ht. lia.
  - destruct (ascii_bytes b Hb) as [Hin Hbytes]. exists (b :: us). split; [by constructor|]. rewrite encode_cons, Hbytes, Hs. done.
Qed.

Lemma encoding_prefix n s : Forall ascii n -> encoding (n ++ s) <-> encoding s.
Proof. induction 1 as [|b n Hb Hn IH]; [done|]. cbn [app]. rewrite encoding_ascii by done. exact IH. Qed.

Section Strings.
Context (_major_version : Z).

(** C9: from version 48 on a string is accepted exactly if it is what [convert_to_utf8] makes of some string of UTF-16 units, each
    in its shortest form and zero in two bytes; the check that skips four bytes at a time, the one that takes surrogate pairs at once and
    the one by characters agree on this, and none reads behind the string. *)
Theorem legal_utf8_spec s rest : 47 < _major_version -> Forall (in_u 8) s ->
  verify_legal_utf8 _major_version (s ++ rest) (len s) = Some (Done tt) /\ encoding s \/
  verify_legal_utf8 _major_version (s ++ rest) (len s) = Some (Throw IllegalUTF8) /\ ~ encoding s.
Proof.
  intros Hv Hs. unfold verify_legal_utf8.
  assert (Hcount : 4 * Z.of_nat (Z.to_nat (Z.shiftr (len s) 2)) <= len s).
  { pose proof (len_nonneg s). rewrite Z.shiftr_div_pow2 by lia. change (2 ^ 2) with 4. rewrite Z2Nat.id by (apply Z.div_pos; lia).
    apply Z.mul_div_le. lia. }
  destruct (skip_ascii_ok (Z.to_nat (Z.shiftr (len s) 2)) [] s rest Hs Hcount) as (n & s' & Hi & -> & Hn).
  cbn [app] in Hi. change (len []) with 0 in Hi. rewrite Hi. cbn [mbind option_bind]. apply list.Forall_app in Hs as [_ Hs].
  assert (Hfuel : (length s' <= Z.to_nat (len (n ++ s')))%nat) by (unfold len; rewrite Nat2Z.id, length_app; lia).
  assert (HB : (n ++ s') ++ rest = n ++ s' ++ rest) by (by rewrite <- (assoc_L (++))). rewrite encoding_prefix by done. rewrite Z.add_0_l.
  destruct (utf8_sound _major_version Hv ((n ++ s') ++ rest) rest _ n s' HB Hs Hfuel) as [[-> He]|Ht]; [by left|right].
  split; [exact Ht|]. intros (us & Hus & ->). by rewrite (utf8_complete _major_version Hv _ rest _ n us HB Hus Hfuel) in Ht.
Qed.
End Strings.

(* ------------------------------------------------------------------ *)
(** ** Names *)

(** The characters a name may have. *)
Definition name_byte (type : NameKind) (b : Z) : Prop :=
  b <> 46 /\ b <> 59 /\ (type <> LegalClass -> b <> 47) /\ (type = LegalMethod -> b <> 60 /\ b <> 62).
#[export] Instance name_byte_dec type b : Decision (name_byte type b).
Proof. unfold name_byte. destruct type; solve_decision. Defined.

Lemma unqualified_ok type fuel : forall l s, Forall is_byte (l ++ s) -> (length s <= fuel)%nat ->
  unqualified_loop fuel ((l ++ s) ++ [0]) 0 (len (l ++ s)) type (len l) = Some (bool_decide (Forall (name_byte type) s)).
Proof.
  induction fuel as [|fuel IH]; intros l s Hb Hf; (destruct s as [|c s]; [cbn [unqualified_loop]; rewrite app_nil_r, Z.add_0_l, Z.eqb_refl; done|]); [cbn in Hf; lia|].
  cbn [unqualified_loop]. rewrite Z.add_0_l, (proj2 (Z.eqb_neq (len l) _)) by (rewrite len_app, len_cons; pose proof (len_nonneg s); lia).
  assert (Hc : is_byte c) by (apply list.Forall_app in Hb as [_ Hb]; by apply list.Forall_cons in Hb as [? _]).
  rewrite buffer_at, (char_at_ok l c _ (is_byte_in_u _ Hc)), <- buffer_at. cbn [mbind option_bind].
  assert (Hgo : forall tail s', s = tail ++ s' -> Forall (name_byte type) (c :: tail) ->
    unqualified_loop fuel ((l ++ c :: s) ++ [0]) 0 (len (l ++ c :: s)) type (len l + 1 + len tail) =
    Some (bool_decide (Forall (name_byte type) (c :: s)))).
  { intros tail s' -> Ht. pose proof (IH (l ++ c :: tail) s') as H. rewrite <- (assoc_L (++) l (c :: tail) s') in H. cbn [app] in H.
    rewrite (len_app l (c :: tail)), len_cons in H. replace (len l + 1 + len tail) with (len l + (1 + len tail)) by lia. rewrite H.
    - f_equal. apply bool_decide_ext. change (c :: tail ++ s') with ((c :: tail) ++ s'). rewrite list.Forall_app. tauto.
    - done.
    - cbn in Hf. rewrite length_app in Hf. lia. }
  destruct (Z.ltb_spec c 128) as [Hlow|Hlow].
  - rewrite (proj2 (Z.ltb_lt c 128) Hlow). destruct (decide (name_byte type c)) as [Hok|Hbad].
    + pose proof Hok as (H1 & H2 & H3 & H4). rewrite (proj2 (Z.eqb_neq c 46)), (proj2 (Z.eqb_neq c 59)) by done. cbn [orb].
      assert (E1 : negb (bool_decide (type = LegalClass)) && (c =? 47) = false).
      { destruct (bool_decide_reflect (type = LegalClass)); [done|]. cbn [negb andb]. apply Z.eqb_neq. auto. }
      assert (E2 : bool_decide (type = LegalMethod) && ((c =? 60) || (c =? 62)) = false).
      { destruct (bool_decide_reflect (type = LegalMethod)); [|done]. cbn [andb]. destruct (H4 e). lia. }
      rewrite E1, E2. replace (len l + 1) with (len l + 1 + len []) by (unfold len; cbn; lia). apply (Hgo [] s); [done|by constructor].
    + rewrite (bool_decide_eq_false_2 (Forall _ (c :: s))) by (intros H; by apply list.Forall_cons in H as [? _]).
      destruct (c =? 46) eqn:E1; [done|]. destruct (c =? 59) eqn:E2; [done|]. cbn [orb].
      destruct (negb (bool_decide (type = LegalClass)) && (c =? 47)) eqn:E3; [done|].
      destruct (bool_decide (type = LegalMethod) && ((c =? 60) || (c =? 62))) eqn:E4; [done|]. destruct Hbad. unfold name_byte.
      split_and!; [lia|lia|intros Ht ->|intros ->].
      * rewrite (bool_decide_eq_false_2 _ Ht) in E3. done.
      * rewrite bool_decide_eq_true_2 in E4 by done. cbn [andb] in E4. lia.
  - rewrite (proj2 (Z.ltb_ge _ 128)) by lia. apply list.Forall_app in Hb as [_ Hs]. destruct (next_at l c s Hs) as (v & tail & s' & Hn & Hss & Ht & _).
    rewrite Hn. cbn [mbind option_bind]. apply (Hgo tail s' Hss). constructor; [unfold name_byte; lia|]. revert Ht. apply Forall_impl.
    intros x. unfold high_byte, name_byte. lia.
Qed.

Lemma unqualified_spec type name : Forall is_byte name ->
  verify_unqualified_name (as_utf8_flexible_buffer name) 0 (len name) type = Some (bool_decide (Forall (name_byte type) name)).
Proof. intros Hb. apply (unqualified_ok type _ [] name); [done|unfold len; lia]. Qed.

Section Names.
Context (_major_version : Z) (isJavaIdentifierStart isJavaIdentifierPart : Z -> option bool).
Abbreviation class_name := (verify_legal_class_name _major_version true false isJavaIdentifierStart isJavaIdentifierPart).
Abbreviation field_name := (verify_legal_field_name _major_version true false isJavaIdentifierStart isJavaIdentifierPart).
Abbreviation method_name := (verify_legal_method_name _major_version true false isJavaIdentifierStart isJavaIdentifierPart).

(** The legal names of classes, where those of arrays are signatures. *)
Definition legal_class (name : list Z) : Prop :=
  (exists t, name = descr (JArray t) /\ legal_type (JArray t)) \/
  (exists c n, name = c :: n /\ c <> 91 /\ Forall (name_byte LegalClass) name).
Definition legal_field (name : list Z) : Prop := name <> [] /\ Forall (name_byte LegalField) name.
Definition legal_method_name (name : list Z) : Prop :=
  name = object_initializer_name \/ name = class_initializer_name \/ (name <> [] /\ Forall (name_byte LegalMethod) name).

(** The old check of a name without dots ends. *)
Lemma old_name name slash_ok : Forall is_byte name -> exists r,
  skip_over_field_name isJavaIdentifierStart isJavaIdentifierPart (as_utf8_flexible_buffer name) 0 slash_ok (len name) = Some r.
Proof.
  intros Hb. destruct (field_name_ok isJavaIdentifierStart isJavaIdentifierPart (Z.to_nat (len name)) 0 (len name) [] name slash_ok false false Hb)
    as (r & Hr & _); [unfold len; lia|done|]. by exists r.
Qed.

Lemma legal_or_Done e b : exists r, legal_or e b = Some r /\ (r = Done tt <-> b = true).
Proof. destruct b; eexists; (split; [done|]); done. Qed.

Lemma array_name_ok name : Forall is_byte (91 :: name) -> exists r,
  check (skip_over_field_signature _major_version isJavaIdentifierStart isJavaIdentifierPart (as_utf8_flexible_buffer (91 :: name)) 0 false (len (91 :: name)))
    (fun p => legal_or IllegalClassName (whole p (len (91 :: name)))) = Some r /\
  (JAVA_1_5_VERSION <= _major_version -> r = Done tt <-> exists t, 91 :: name = descr (JArray t) /\ legal_type (JArray t)).
Proof.
  intros Hb. destruct (skip_sound _major_version isJavaIdentifierStart isJavaIdentifierPart [] (91 :: name) false Hb) as (r & Hr & Hq).
  change ([] ++ 91 :: name) with (91 :: name) in Hr. change (len []) with 0 in Hr. unfold as_utf8_flexible_buffer. rewrite Hr.
  assert (Hback : JAVA_1_5_VERSION <= _major_version -> forall t, 91 :: name = descr (JArray t) -> legal_type (JArray t) -> r = Done (Some (len (91 :: name)))).
  { intros Hv t Ht Hl. pose proof (skip_complete _major_version isJavaIdentifierStart isJavaIdentifierPart [] (JArray t) [] false Hv Hl) as H.
    rewrite app_nil_r, <- Ht in H. change ([] ++ 91 :: name) with (91 :: name) in H. change (len []) with 0 in H. rewrite Hr in H. by injection H as ->. }
  destruct r as [p|e]; cbn [check].
  - destruct (legal_or_Done IllegalClassName (whole p (len (91 :: name)))) as (r & Hl & Hd). exists r. split; [done|]. intros Hv. rewrite Hd. split.
    + intros Hw. destruct p as [q|]; [|done]. cbn [whole] in Hw. apply Z.eqb_eq in Hw as ->.
      destruct (Hq _ eq_refl) as ([t|] & s' & Hs & Hlen & Hvo & Ht); [|by specialize (Hvo eq_refl)]. cbn [return_descr from_option] in *.
      assert (s' = []) as ->. { destruct s'; [done|]. rewrite Hs, len_app, len_cons in Hlen. pose proof (len_nonneg s'). change (len []) with 0 in Hlen. lia. }
      rewrite app_nil_r in Hs. destruct (Ht t eq_refl) as [Hn Hdim]. destruct t as [[]|?|t]; try done. exists t. split; [done|]. split; [done|lia].
    + intros (t & Ht & Hlt). specialize (Hback Hv t Ht Hlt). injection Hback as ->. cbn [whole]. apply Z.eqb_refl.
  - eexists. split; [done|]. intros Hv. split; [done|]. intros (t & Ht & Hlt). by specialize (Hback Hv t Ht Hlt).
Qed.

(** C27: the checks of names end and stay in their buffers on every string and version; from version 49 on a name is legal exactly
    by its characters: no dot and no semicolon, in fields and methods no slash, in methods no angle brackets except in the two initializers;
    class names that start with a bracket are the signatures of arrays. *)
Theorem legal_names_spec name : Forall is_byte name ->
  (exists r, class_name name = Some r /\ (JAVA_1_5_VERSION <= _major_version -> r = Done tt <-> legal_class name)) /\
  (exists r, field_name name = Some r /\ (JAVA_1_5_VERSION <= _major_version -> r = Done tt <-> legal_field name)) /\
  (exists r, method_name name = Some r /\ (JAVA_1_5_VERSION <= _major_version -> r = Done tt <-> legal_method_name name)).
Proof.
  intros Hb. unfold verify_legal_class_name, verify_legal_field_name, verify_legal_method_name. cbn [negb orb].
  change (Z.of_nat (length name)) with (len name). destruct name as [|c n].
  { split_and!; eexists; (split; [done|]); intros _; split; try done.
    - intros [(t & Ht & _)|(c & n & ? & _)]; done.
    - by intros [].
    - by intros [?|[?|[? _]]]. }
  assert (Hpos : 0 < len (c :: n)) by (rewrite len_cons; pose proof (len_nonneg n); lia). rewrite (proj2 (Z.ltb_lt 0 _) Hpos). cbn [negb].
  change (arr_get (as_utf8_flexible_buffer (c :: n)) 0) with (Some c). cbn [mbind option_bind].
  assert (Hold : forall e slash, exists r, (p ← skip_over_field_name isJavaIdentifierStart isJavaIdentifierPart (as_utf8_flexible_buffer (c :: n)) 0 slash (len (c :: n));
    legal_or e (whole p (len (c :: n)))) = Some r).
  { intros e slash. destruct (old_name (c :: n) slash Hb) as [r Hr]. rewrite Hr. cbn [mbind option_bind]. destruct (legal_or_Done e (whole r (len (c :: n)))) as (r' & H & _). eauto. }
  rewrite !unqualified_spec by done. cbn [mbind option_bind].
  split_and!.
  - unfold JVM_SIGNATURE_ARRAY. destruct (Z.eqb_spec c 91) as [->|Hc].
    + destruct (array_name_ok n Hb) as (r & Hr & Hd). exists r. split; [done|]. intros Hv. rewrite (Hd Hv). unfold legal_class. split; [by left|].
      intros [H|(c & n' & [= <- <-] & ? & _)]; [done|congruence].
    + destruct (Z.ltb_spec _major_version JAVA_1_5_VERSION) as [Hv|Hv].
      { destruct (c =? 60); [eexists; split; [done|]; lia|]. destruct (Hold IllegalClassName true) as [r Hr]. exists r. split; [done|lia]. }
      destruct (legal_or_Done IllegalClassName (bool_decide (Forall (name_byte LegalClass) (c :: n)))) as (r & Hr & Hd). exists r. split; [done|].
      intros _. rewrite Hd, bool_decide_eq_true. unfold legal_class. split; [intros H; right; by exists c, n|].
      intros [(t & [= ? ?] & _)|(c' & n' & _ & _ & H)]; done.
  - destruct (Z.ltb_spec _major_version JAVA_1_5_VERSION) as [Hv|Hv].
    { destruct (c =? 60); [eexists; split; [done|]; lia|]. destruct (Hold IllegalFieldName false) as [r Hr]. exists r. split; [done|lia]. }
    destruct (legal_or_Done IllegalFieldName (bool_decide (Forall (name_byte LegalField) (c :: n)))) as (r & Hr & Hd). exists r. split; [done|].
    intros _. rewrite Hd, bool_decide_eq_true. unfold legal_field. split; [done|by intros [_ ?]].
  - destruct (Z.eqb_spec c 60) as [->|Hc].
    + destruct (legal_or_Done IllegalMethodName (bool_decide (60 :: n = object_initializer_name \/ 60 :: n = class_initializer_name))) as (r & Hr & Hd).
      exists r. split; [done|]. intros _. rewrite Hd, bool_decide_eq_true. unfold legal_method_name. split; [tauto|]. intros [?|[?|[_ H]]]; [by left|by right|].
      apply list.Forall_cons in H as [(_ & _ & _ & H) _]. by destruct (H eq_refl).
    + destruct (Z.ltb_spec _major_version JAVA_1_5_VERSION) as [Hv|Hv].
      { destruct (Hold IllegalMethodName false) as [r Hr]. exists r. split; [done|lia]. }
      destruct (legal_or_Done IllegalMethodName (bool_decide (Forall (name_byte LegalMethod) (c :: n)))) as (r & Hr & Hd). exists r. split; [done|].
      intros _. rewrite Hd, bool_decide_eq_true. unfold legal_method_name. split; [intros H; do 2 right; done|].
      intros [[= ? _]|[[= ? _]|[_ H]]]; [congruence..|done].
Qed.
End Names.

Lemma legal_utf8_spec_witness : verify_legal_utf8 50 ([65; 0xC0; 0x80; 0xED; 0xA0; 0x80; 66] ++ [7]) 7 = Some (Done tt) /\
  encoding [65; 0xC0; 0x80; 0xED; 0xA0; 0x80; 66].
Proof.
  destruct (legal_utf8_spec 50 [65; 0xC0; 0x80; 0xED; 0xA0; 0x80; 66] [7] ltac:(lia)) as [H|[H _]].
  - repeat constructor; unfold in_u; lia.
  - exact H.
  - by vm_compute in H.
Defined.

Lemma legal_names_spec_witness : exists r, verify_legal_method_name 50 true false no_identifier no_identifier [97; 46; 98] = Some r /\ r <> Done tt.
Proof.
  destruct (legal_names_spec 50 no_identifier no_identifier [97; 46; 98] ltac:(by apply (bool_decide_eq_true_1 _); vm_compute)) as (_ & _ & r & Hr & Hd).
  exists r. split; [exact Hr|]. intros H. apply Hd in H as [H|[H|[_ H]]]; [done|done| |done].
  apply list.Forall_cons in H as [_ H]. apply list.Forall_cons in H as [[H _] _]. by apply H.
Defined.
